(* ===== verification/_CoqProject ===== *)
-Q . S2P
Prelude.v
Frame.v
Bdp.v
BufferTable.v
Mux.v
MuxStream.v
MuxSystem.v
Crypto.v
SosState.v
SosPipe.v
SosHandshake.v
Mizaru.v
CryptPipe.v
Protocol.v
Text.v
IpText.v
ExitAuth.v
Dialer.v
ConnTest.v
Cache.v
Routes.v
GetDialer.v
BrokerDb.v
Broker.v
BrokerSafety.v
BrokerLive.v
ExitNet.v
Bridge.v
ClientAuth.v
ClientNet.v
Float32.v
HttpProxy.v
Vpn.v
RateLimit.v
ExitSession.v
Announce.v
Requests.v
Transport.v
Control.v
MuxHandle.v
ExitDial.v
BridgeForward.v
ClientLoop.v
BrokerWf.v
Availability.v
Account.v
GuiState.v
Listeners.v
Stack.v
Pipes.v
Session.v
BrokerSource.v
ClientMain.v
GuiApp.v
News.v
RtCompat.v
StartUp.v
VpnSystem.v
SystemProxy.v
ConnStatus.v
BitField.v
WinDivert.v
Logs.v
HttpTransports.v
Relay.v
Puzzle.v
Statistics.v
Daemons.v
ProtoTest.v
Boot.v
DynSillad.v
