(* ===== verification/Prelude.v ===== *)
(** * Geph5: a verification library

    Geph5 is a censorship-circumvention system.  A client (binaries/geph5-client)
    obtains blind-signed connect tokens from a broker (binaries/geph5-broker),
    learns from it which exits exist and over which bridges they can be reached,
    dials an exit (binaries/geph5-exit) directly or through a bridge
    (binaries/geph5-bridge), authenticates, and multiplexes its streams over
    that connection.  The transports are pipes in the sense of libraries/sillad:
    TCP, TLS, the obfuscating sosistab3, and connection tests stacked on each
    other.

    This library models these programs as executable functions and step
    relations and proves what makes them correct.  Line by line translations
    keep the names of the source; a helper that names a part of a function is
    documented with that function.

    ** Conventions

    - [res E A] is Rust's [Result] with a third constructor [Panic].  The release
      profile has [overflow-checks = true] and [panic = "abort"], so overflow,
      an index out of range and a failed [unwrap] end the process.
    - Machine integers are [Z] with their width written out: [add_u], [sub_u]
      panic like the checked operators, [cast_u] truncates like [as].
      [f64] is [SpecFloat] at binary64, [f32] at binary32 ([Float32]).
    - Bytes are [list byte]; maps are [gmap] where order does not matter and
      association lists where it does.
    - Clock readings, random draws, failing queries and bytes from the network
      are arguments.  Code of other crates is a parameter or a class with the
      laws its documentation gives, each with a concrete instance ([Crypto.Toy],
      [Cache.ListCache], the [Demo] modules) on which theorems are run.
    - Fuel: loops over received bytes take a fuel that the callers set to one
      more than the number of bytes, and each turn consumes bytes
      ([SosPipe.decrypt_loop], [CryptPipe.read_task], [ConnTest.conntest_serve]);
      [Mizaru.build] halves a level per turn and has one unit of fuel per level;
      [Vpn.read_datagrams], [ClientMain.stdio_vpn_in] and [Transport.serve_conn]
      consume a length or a line per turn.  A loop that waits ([RateLimit.wait_loop]) runs over the list of
      what happens during its pauses, and [RateLimit.wait_terminates] bounds the
      list that is long enough.  The theorems about these loops are about their results, not conditional on
      having enough fuel.

    ** Multiplexing (libraries/picomux)

    - [Frame]: the wire format (frame.rs).  Reading succeeds exactly on the bytes
      of a well-formed frame; streams of frames round-trip.
    - [Bdp]: the bandwidth estimate (bdp.rs) and the target window.
    - [BufferTable]: per-stream queue and send semaphore (buffer_table.rs); the
      result of every call is the one the history of calls before it promises.
    - [Mux]: one end of a session (lib.rs, outgoing.rs), one function per turn of
      a loop: [handle_frame], [handle_open_req], the two tasks of a stream, the
      ping loop.  Errors of the receive loop are characterised exactly; the
      window arithmetic never underflows, against any peer.
    - [MuxStream], [MuxSystem]: two ends and a FIFO connection as a step
      relation.  Rule induction gives stream integrity (what is delivered is a
      prefix of what was sent, all of it when nothing is in flight), absence of
      protocol errors, bounded receive queues, and no deadlock of the windows.
      [MuxStream] has the invariant of one stream, [MuxSystem] the simulation of
      its operations by the steps.  The steps take opens that are [lucky]: the id
      drawn is not in use at the other end or on its way there, which nothing in
      the code ensures, and the metadata is below 64 KiB; [any_open] is the relation without
      that, in which two ends can end the session on each other.
    - [MuxHandle]: the handle a program holds (struct PicoMux): open, accept,
      liveness settings, the death of a session.  A silent peer is found out
      within the timeout, and every pending and later call returns.

    ** Obfuscated transport (libraries/sillad-sosistab3)

    - [Crypto]: AEAD, blake3, X25519, ed25519, blind RSA and stdcode as classes
      with laws.
    - [SosState]: the record layer (state.rs).  [decrypt] succeeds exactly on the
      hunk sealed at the receiving counter.
    - [SosPipe]: the poll functions (lib.rs) over a lower pipe that may split
      reads and writes in any way; what is read is a prefix of what was written,
      all of it once the wire is drained.
    - [SosHandshake]: cookie, handshake, replay filter, dialer and listener.
      Honest peers agree on crossed keys; replays are refused for a minute, and
      the exact case in which they are not is shown.
    - [Listeners]: the listeners that test connections in the background
      (listener.rs, and those of libraries/sillad-conntest and
      libraries/sillad-native-tls), as one transition system with three instances.  What is handed out has passed, once;
      nobody is held up; a recorded handshake opens no second connection.

    ** Tokens and authentication

    - [Mizaru]: Merkle tree of daily keys and blind tokens (libraries/mizaru2).
      An accepted key is that epoch's key, or an input hashed in its verification
      collides with one hashed when the tree was made.
    - [CryptPipe]: length-prefixed messages and the client-exit encryption
      (libraries/geph5-misc-rpc); the two tasks are inverse to each other.
    - [Protocol]: the types the programs exchange, [Mac] and [Signed].
    - [Text], [IpText]: hexadecimal, decimal, the printed form of addresses and
      the parsers of the standard library for them, with their round trip.
    - [ExitAuth]: [handle_client] of the exit up to the session and [client_auth]
      of the client: who is admitted, agreement of honest ends, and what a
      successful authentication proves to the client (a run of the exit with this
      very hello, unless a signature was forged).

    ** Reaching an exit

    - [Dialer]: timed outcomes and the combinators of libraries/sillad; happy
      eyeballs yields the earliest success.
    - [ConnTest]: connection tests (libraries/sillad-conntest).
    - [Cache]: the interface of the time-limited caches (moka, cached).
    - [Routes]: the protocol a bridge announces, the route the broker derives
      (routes.rs), the dialer the client builds (get_dialer.rs) and the listener
      the exit runs (b2e_process.rs): over every history of requests the layers
      of a dialed pipe are those the exit unwraps.
    - [GetDialer]: choice of exit and of the dialer; only signed exits that meet
      the constraint (or the one a direct constraint names), only pipes the bridge mode
      allows.
    - [Stack]: the layers of a session as channels that compose.  A stack of
      reliable layers is reliable ([Reliable]), so [Frame] over [CryptPipe] over
      [ConnTest] over [SosPipe] is the FIFO that [MuxSystem] starts from.
    - [Pipes]: shared secret, protocol and address of a pipe, through a stack; both
      ends see the same secret.
    - [Session]: the whole way from a dialed stack over authentication to frames;
      it composes [Stack], [Pipes], [ExitAuth], [CryptPipe] and [Frame].

    ** The broker (binaries/geph5-broker)

    - [BrokerDb]: the database, caches and payment service as a [World], a state
      monad [M] in which every query can fail, transactions, and a small Hoare
      logic ([hoare], [framed]).
    - [Broker]: the request handlers of rpc_impl.rs and what they call in
      auth.rs, database.rs, free_voucher.rs, puzzle.rs and payments.rs.
    - [BrokerSafety]: every handler as a step of a run, with time passing, garbage
      collection and payments in between.  The class [WorldFrame] says which
      changes a handler may make; from it follows that connect tokens are signed
      only for accounts the database backs, and Plus only for subscribers.
    - [BrokerLive]: a new user can register and gets a token the exits accept;
      registrations are atomic; the exit lists contain only exits that announced
      themselves; free users get no Plus bridges; what the subscription cache
      misses.
    - [BrokerWf]: the account tables stay well-formed under every request, with
      any queries failing.
    - [Availability]: the decaying counters of availability reports.

    ** The ends of a connection

    - [ExitNet]: which destinations an exit connects to (allow.rs, the routing of
      proxy.rs, dns.rs) and from which address (ipv6.rs).  The filter is
      equivalent to a list of CIDR blocks.
    - [ExitDial]: the staggered attempts of EyeballDialer::connect; they share
      their schedule with the happy eyeballs of [Dialer].
    - [Bridge]: address table, byte counters and forwarding listeners of the
      bridge; the exit's copy of the table.
    - [BridgeForward]: the data path of a bridge, by reads and partial writes; what is
      forwarded arrives in order and is counted once its buffer is written.
    - [ClientAuth]: the client's token store against any broker ([TokenIssuer]);
      [broker_issuer] shows that [Broker] is one, which never calls Free the wrong level.
    - [ClientLoop]: the loop around it, the wait for a token, and the readers and
      writers of the client's database, among whom no wake-up is lost unless a writer
      is cancelled before it notifies.
    - [ClientNet]: spoofed DNS, [open_conn], traffic counters, the task pool.

    ** Programs at the ends

    - [HttpProxy]: the client's HTTP proxy (http_proxy): a request is dialled at
      the host the dispatcher found, and what is forwarded are the end-to-end
      headers in their order with one connection header of the proxy.
    - [Vpn]: packet queues, captured streams, SOCKS5 requests and the framing of
      datagrams on both sides of the tunnel (vpn.rs, socks5.rs, proxy.rs).  It
      composes [ClientNet], [ExitNet] and [IpText]: a name resolved through the
      spoofed DNS arrives as that name at the exit, or as the one that drew the same
      address.
    - [Float32]: binary32 arithmetic with the bounds the rate limiter needs.
    - [RateLimit]: load, charges, waiting, limiters per token (ratelimit.rs) and
      the task killer (tasklimit.rs).  One session alone on a bucket always gets on;
      sessions that share one, with their timers in any order, keep its rate.  The
      governor crate is the class [Governor] with laws from its documentation and a
      concrete instance.
    - [ExitSession]: accept loops, the table of bridge streams, session metadata
      and block lists (listen.rs, b2e_process.rs, dns.rs).
    - [Announce]: exits and bridges announcing themselves to [Broker] over a
      network that loses messages, and the watchdog.
    - [Requests]: the connection pool of a bridge and the instances of a client
      as transition systems; requests are conserved, and lost only with a session.
    - [Transport]: races between transports to the broker and the line protocol
      of nanorpc-sillad.
    - [BrokerSource]: the tree of ways to the broker (broker.rs); one that works is
      enough for a call that finds no selection.
    - [Control]: the control protocol (registration against [Broker], news,
      signed manifests) and the C interface.
    - [Account]: the account, voucher and payment operations of the control
      protocol against [Broker]; converting a legacy account.
    - [GuiState]: stored preferences, refreshed cells and time series of the
      graphical client.
    - [ClientMain]: configuration, services and death of a client (client.rs), its
      counters, and packets and RPC over the standard streams.
    - [GuiApp]: settings, login form and buttons of the graphical client as a state
      machine over what its windows offer; the client that runs is one the user asked
      for.
    - [ConnStatus]: the status of the connection that all instances of a client write.
    - [SystemProxy]: the proxy settings of the system that the dashboard changes;
      the class [ProxySettings] with its laws, a Windows and a GNOME backend.
    - [News]: the broker's news with their cache and refreshes (news.rs).
    - [RtCompat]: the read buffers between hyper and tokio (rt_compat.rs).
    - [StartUp]: the key files of exit and broker over restarts whose accesses to them
      may fail or die in a write, and the interface of the exit's IPv6 addresses.
    - [VpnSystem]: what the Linux client changes in the routing of the system and
      takes back, its DNS proxy, and diverted packets on Windows.
    - [BitField], [WinDivert]: the bit fields and layouts of the Windows driver
      (windivert/bindings.rs), and its handles, packets and the two threads that
      share an address; every packet injected carries an address the driver gave.
    - [Relay]: two copies that race (HTTP tunnels, SOCKS5, captured TCP streams),
      the SOCKS5 conversation and the accept loops of the client.
    - [HttpTransports]: the client's HTTP and Lambda transports, the transports of
      exit and payment service, over any network, and the broker's route that answers
      them.
    - [Logs]: the log from the writer over the control protocol to its window.
    - [Puzzle]: puzzles drawn, solved and checked; a solved one opens an account.
    - [Statistics]: the figures of broker, bridge and exit.
    - [Daemons]: how the graphical client starts, asks and stops a client.
    - [ProtoTest]: both ends of the prototype tester (binaries/geph5-prototest).
    - [Boot]: configuration defaults, own address and processes of the servers.
    - [DynSillad]: erased dialers and listeners, TCP and TLS dialers.

    ** What is not modelled

    Not modelled because they are I/O, platform or third-party glue: drawing and
    translations of the graphical client, the macOS and the empty platform
    back ends, virtual interfaces, drivers and sockets, the TLS library, command
    lines and set-up of logging, the example picomux-socks, and the tests.

    The schedulers and the memory model
    are not modelled: a turn of a loop between two await points is one step, as
    the locks around the shared state make it.  Requests to the broker run one
    after the other, each with its queries; two requests that interleave inside
    one handler are not considered.  Cryptography is ideal only in the sense of
    the stated laws; nothing is said about secrecy. *)
From Stdlib Require Import ZArith Lia.
From Stdlib Require Export Strings.Byte.
From stdpp Require Export base list numbers strings gmap fin_maps.

(** ** Results

    Rust's [Result<A, E>] with a third constructor for a panic.  The release
    profile of the workspace sets [overflow-checks = true] and
    [panic = "abort"], so an arithmetic overflow, an out-of-range index or a
    failed [unwrap] takes the whole process down: [Panic] is that outcome. *)
Inductive res (E A : Type) : Type :=
| Ok (a : A)
| Err (e : E)
| Panic.
Arguments Ok {E A} a.
Arguments Err {E A} e.
Arguments Panic {E A}.

#[export] Instance res_ret {E} : MRet (res E) := λ A a, Ok a.
#[export] Instance res_bind {E} : MBind (res E) := λ A B k m,
  match m with Ok a => k a | Err e => Err e | Panic => Panic end.
#[export] Instance res_fmap {E} : FMap (res E) := λ A B f m,
  match m with Ok a => Ok (f a) | Err e => Err e | Panic => Panic end.

Definition map_err {E F A} (f : E → F) (m : res E A) : res F A :=
  match m with Ok a => Ok a | Err e => Err (f e) | Panic => Panic end.

Definition is_ok {E A} (m : res E A) : bool :=
  match m with Ok _ => true | _ => false end.

(** [std::task::Poll]. *)
Inductive poll (A : Type) : Type :=
| Ready (a : A)
| Pending.
Arguments Ready {A} a.
Arguments Pending {A}.

Definition is_ready {A} (p : poll A) : bool :=
  match p with Ready _ => true | Pending => false end.

(** [Option::context] / [ok_or] of the sources. *)
Definition ok_or {E A} (o : option A) (e : E) : res E A :=
  match o with Some a => Ok a | None => Err e end.

(** [Option::unwrap] / [expect]. *)
Definition unwrap {E A} (o : option A) : res E A :=
  match o with Some a => Ok a | None => Panic end.

Lemma bind_Ok {E A B} (m : res E A) (k : A → res E B) b :
  m ≫= k = Ok b ↔ ∃ a, m = Ok a ∧ k a = Ok b.
Proof.
  split.
  - destruct m; simpl; try discriminate. eauto.
  - intros (a & -> & H). exact H.
Qed.

Lemma bind_Err {E A B} (m : res E A) (k : A → res E B) e :
  m ≫= k = Err e ↔ m = Err e ∨ ∃ a, m = Ok a ∧ k a = Err e.
Proof.
  split.
  - destruct m; simpl; intros; simplify_eq; eauto.
  - intros [-> | (a & -> & H)]; done.
Qed.

Lemma bind_Panic {E A B} (m : res E A) (k : A → res E B) :
  m ≫= k = Panic ↔ m = Panic ∨ ∃ a, m = Ok a ∧ k a = Panic.
Proof.
  split.
  - destruct m; simpl; intros; simplify_eq; eauto.
  - intros [-> | (a & -> & H)]; done.
Qed.

Lemma ok_or_Ok {E A} (o : option A) (e : E) a :
  ok_or o e = Ok a ↔ o = Some a.
Proof. destruct o; simpl; split; intros; simplify_eq; done. Qed.

Lemma map_err_Ok {E F A} (f : E → F) (m : res E A) a :
  map_err f m = Ok a ↔ m = Ok a.
Proof. destruct m; simpl; split; intros; simplify_eq; done. Qed.

(** Breaks every successful chain of binds among the hypotheses into its
    steps. *)
Ltac res_inv :=
  repeat match goal with
  | H : mbind _ _ = Ok _ |- _ =>
      apply bind_Ok in H; destruct H as (? & ? & H)
  | H : ok_or _ _ = Ok _ |- _ => apply ok_or_Ok in H
  | H : map_err _ _ = Ok _ |- _ => apply map_err_Ok in H
  | H : Ok _ = Ok _ |- _ => injection H as H
  | H : Err _ = Err _ |- _ => injection H as H
  | H : mret _ = Ok _ |- _ => injection H as H
  | H : Ok _ = Err _ |- _ => discriminate H
  | H : Err _ = Ok _ |- _ => discriminate H
  | H : Panic = _ |- _ => discriminate H
  | H : Ok _ = Panic |- _ => discriminate H
  | H : Err _ = Panic |- _ => discriminate H
  | H : (_, _) = (_, _) |- _ => injection H as H
  end; simplify_eq/=.

(** ** Errors of std::io *)

Inductive ErrorKind :=
| InvalidData | BrokenPipe | WouldBlock | UnexpectedEof | TimedOut
| NotConnected | ConnectionRefused | InvalidInput | Other.

#[export] Instance ErrorKind_eq_dec : EqDecision ErrorKind.
Proof. solve_decision. Defined.

Record io_error := IoError { kind : ErrorKind; msg : string }.

#[export] Instance io_error_eq_dec : EqDecision io_error.
Proof. solve_decision. Defined.

(** ** Bytes *)

Definition byte_to_Z (b : byte) : Z := Z.of_N (Byte.to_N b).
Definition byte_of_Z (z : Z) : byte :=
  match Byte.of_N (Z.to_N (z mod 256)) with Some b => b | None => x00 end.

#[export] Instance byte_eq_dec : EqDecision byte := Byte.byte_eq_dec.

Lemma byte_to_Z_range b : (0 <= byte_to_Z b < 256)%Z.
Proof. unfold byte_to_Z. pose proof (Byte.to_N_bounded b). lia. Qed.

Lemma byte_to_of_Z z : byte_to_Z (byte_of_Z z) = (z mod 256)%Z.
Proof.
  unfold byte_to_Z, byte_of_Z.
  pose proof (Z.mod_pos_bound z 256 ltac:(lia)) as Hb.
  destruct (Byte.of_N (Z.to_N (z mod 256))) as [b|] eqn:E.
  - apply Byte.to_of_N in E. rewrite E. lia.
  - apply Byte.of_N_None_iff in E. lia.
Qed.

Lemma byte_of_to_Z b : byte_of_Z (byte_to_Z b) = b.
Proof.
  unfold byte_of_Z. pose proof (byte_to_Z_range b).
  rewrite Z.mod_small by lia. unfold byte_to_Z. rewrite N2Z.id.
  by rewrite Byte.of_to_N.
Qed.

#[export] Instance byte_countable : Countable byte.
Proof.
  refine (inj_countable' Byte.to_N
    (λ n, match Byte.of_N n with Some b => b | None => x00 end) _).
  intros b. by rewrite Byte.of_to_N.
Defined.

(** ** Integers as byte lists: [to_le_bytes], [from_le_bytes] and their
    big-endian twins *)

Fixpoint le_bytes (n : nat) (z : Z) : list byte :=
  match n with
  | O => []
  | S n => byte_of_Z z :: le_bytes n (z / 256)
  end.

Fixpoint le_val (bs : list byte) : Z :=
  match bs with
  | [] => 0
  | b :: bs => byte_to_Z b + 256 * le_val bs
  end.

Definition be_bytes (n : nat) (z : Z) : list byte := reverse (le_bytes n z).
Definition be_val (bs : list byte) : Z := le_val (reverse bs).

Lemma length_le_bytes n z : length (le_bytes n z) = n.
Proof. revert z; induction n; intros; simpl; auto. Qed.

Lemma length_be_bytes n z : length (be_bytes n z) = n.
Proof. unfold be_bytes. by rewrite length_reverse, length_le_bytes. Qed.

Lemma le_val_range bs : (0 <= le_val bs < 256 ^ Z.of_nat (length bs))%Z.
Proof.
  induction bs as [|b bs IH]; simpl le_val; simpl length.
  - lia.
  - rewrite Nat2Z.inj_succ, Z.pow_succ_r by lia.
    pose proof (byte_to_Z_range b). lia.
Qed.

Lemma le_val_le_bytes n z : le_val (le_bytes n z) = (z mod 256 ^ Z.of_nat n)%Z.
Proof.
  revert z; induction n as [|n IH]; intros z; simpl le_bytes; simpl le_val.
  - by rewrite Z.mod_1_r.
  - rewrite IH, byte_to_of_Z, Nat2Z.inj_succ, Z.pow_succ_r by lia.
    rewrite Z.rem_mul_r by lia. lia.
Qed.

Lemma le_bytes_le_val bs : le_bytes (length bs) (le_val bs) = bs.
Proof.
  induction bs as [|b bs IH]; simpl; [done|].
  pose proof (byte_to_Z_range b).
  rewrite (Z.mul_comm 256), Z.div_add by lia.
  rewrite (Z.div_small (byte_to_Z b)) by lia. rewrite Z.add_0_l, IH.
  f_equal. rewrite <- (byte_of_to_Z b) at 2.
  unfold byte_of_Z. by rewrite Z.mod_add by lia.
Qed.

Lemma le_bytes_le_val' n bs : length bs = n → le_bytes n (le_val bs) = bs.
Proof. intros <-. apply le_bytes_le_val. Qed.

Lemma be_val_range bs : (0 <= be_val bs < 256 ^ Z.of_nat (length bs))%Z.
Proof. unfold be_val. rewrite <- length_reverse. apply le_val_range. Qed.

Lemma be_val_be_bytes n z : be_val (be_bytes n z) = (z mod 256 ^ Z.of_nat n)%Z.
Proof.
  unfold be_val, be_bytes. by rewrite reverse_involutive, le_val_le_bytes.
Qed.

Lemma be_bytes_be_val bs : be_bytes (length bs) (be_val bs) = bs.
Proof.
  unfold be_val, be_bytes.
  rewrite <- length_reverse, le_bytes_le_val. apply reverse_involutive.
Qed.

Lemma be_bytes_be_val' n bs : length bs = n → be_bytes n (be_val bs) = bs.
Proof. intros <-. apply be_bytes_be_val. Qed.

Lemma le_val_small n z :
  (0 <= z < 256 ^ Z.of_nat n)%Z → le_val (le_bytes n z) = z.
Proof. intros. by rewrite le_val_le_bytes, Z.mod_small by lia. Qed.

Lemma be_val_small n z :
  (0 <= z < 256 ^ Z.of_nat n)%Z → be_val (be_bytes n z) = z.
Proof. intros. by rewrite be_val_be_bytes, Z.mod_small by lia. Qed.

#[global] Arguments le_bytes : simpl never.
#[global] Arguments le_val : simpl never.
#[global] Arguments be_bytes : simpl never.
#[global] Arguments be_val : simpl never.

(** ** Machine integers

    An unsigned integer of [w] bits is a [Z] in [0 .. 2^w - 1]; [as] casts
    wrap, the arithmetic operators panic on overflow. *)

Definition cast_u (w z : Z) : Z := (z mod 2 ^ w)%Z.
Definition fits_u (w z : Z) : bool := ((0 <=? z) && (z <? 2 ^ w))%Z.

Definition add_u {E} (w a b : Z) : res E Z :=
  if fits_u w (a + b) then Ok (a + b)%Z else Panic.
Definition sub_u {E} (w a b : Z) : res E Z :=
  if fits_u w (a - b) then Ok (a - b)%Z else Panic.
Definition mul_u {E} (w a b : Z) : res E Z :=
  if fits_u w (a * b) then Ok (a * b)%Z else Panic.

(** [usize] is 64 bits wide on every platform the binaries are built for. *)
Definition usize_bits : Z := 64.

Definition clamp (lo hi z : Z) : Z := Z.min hi (Z.max lo z).

Lemma fits_u_iff w z : fits_u w z = true ↔ (0 <= z < 2 ^ w)%Z.
Proof. unfold fits_u. rewrite andb_true_iff, Z.leb_le, Z.ltb_lt. lia. Qed.

Lemma cast_u_small w z : (0 <= z < 2 ^ w)%Z → cast_u w z = z.
Proof. intros. unfold cast_u. by apply Z.mod_small. Qed.

Lemma cast_u_range w z : (0 <= w)%Z → (0 <= cast_u w z < 2 ^ w)%Z.
Proof. intros. unfold cast_u. apply Z.mod_pos_bound. lia. Qed.

Lemma sub_u_Ok {E} w a b :
  (0 <= a - b < 2 ^ w)%Z → sub_u (E := E) w a b = Ok (a - b)%Z.
Proof. intros H. unfold sub_u. by rewrite (proj2 (fits_u_iff _ _) H). Qed.

Lemma add_u_Ok {E} w a b :
  (0 <= a + b < 2 ^ w)%Z → add_u (E := E) w a b = Ok (a + b)%Z.
Proof. intros H. unfold add_u. by rewrite (proj2 (fits_u_iff _ _) H). Qed.

(** Signed integers of [w] bits: [as] casts wrap into the signed range, the
    byte encodings are those of the two's complement. *)
Definition cast_i (w z : Z) : Z :=
  let r := (z mod 2 ^ w)%Z in if (r <? 2 ^ (w - 1))%Z then r else (r - 2 ^ w)%Z.
Definition fits_i (w z : Z) : bool := ((- 2 ^ (w - 1) <=? z) && (z <? 2 ^ (w - 1)))%Z.
Definition neg_i {E} (w z : Z) : res E Z := if fits_i w (- z) then Ok (- z)%Z else Panic.
Definition i32_to_le_bytes (z : Z) : list byte := le_bytes 4 (cast_u 32 z).
Definition i32_from_le_bytes (bs : list byte) : Z := cast_i 32 (le_val bs).

Lemma cast_i_small w z :
  (0 < w)%Z → (- 2 ^ (w - 1) <= z < 2 ^ (w - 1))%Z → cast_i w z = z.
Proof.
  intros Hw Hz. unfold cast_i.
  assert (Hp : (2 ^ w = 2 * 2 ^ (w - 1))%Z).
  { replace w with (Z.succ (w - 1))%Z at 1 by lia. apply Z.pow_succ_r. lia. }
  destruct (Z.leb_spec 0 z).
  - rewrite Z.mod_small by lia. destruct (Z.ltb_spec z (2 ^ (w - 1))); lia.
  - rewrite <- (Z.mod_unique z (2 ^ w) (-1) (z + 2 ^ w)) by lia.
    destruct (Z.ltb_spec (z + 2 ^ w) (2 ^ (w - 1))); lia.
Qed.

Lemma cast_i_cast_u w z : (0 <= w)%Z → cast_i w (cast_u w z) = cast_i w z.
Proof. intros. unfold cast_i, cast_u. by rewrite Z.mod_mod by lia. Qed.

Lemma i32_roundtrip z :
  (- 2 ^ 31 <= z < 2 ^ 31)%Z → i32_from_le_bytes (i32_to_le_bytes z) = z.
Proof.
  intros. unfold i32_from_le_bytes, i32_to_le_bytes.
  pose proof (cast_u_range 32 z ltac:(lia)).
  rewrite le_val_small by (simpl; lia). rewrite cast_i_cast_u by lia. by apply cast_i_small.
Qed.

Lemma cast_u_cast_i w z : (0 <= w)%Z → cast_u w (cast_i w z) = cast_u w z.
Proof.
  intros. unfold cast_u, cast_i. case_match; [by rewrite Z.mod_mod by lia|].
  replace (z mod 2 ^ w - 2 ^ w)%Z with (z mod 2 ^ w + (-1) * 2 ^ w)%Z by lia.
  rewrite Z.mod_add by lia. by rewrite Z.mod_mod by lia.
Qed.

Lemma cast_i_range w z : (0 < w)%Z → (- 2 ^ (w - 1) <= cast_i w z < 2 ^ (w - 1))%Z.
Proof.
  intros Hw. unfold cast_i. pose proof (Z.mod_pos_bound z (2 ^ w) ltac:(lia)).
  assert (Hp : (2 ^ w = 2 * 2 ^ (w - 1))%Z).
  { replace w with (Z.succ (w - 1))%Z at 1 by lia. apply Z.pow_succ_r. lia. }
  destruct (Z.ltb_spec (z mod 2 ^ w) (2 ^ (w - 1))); lia.
Qed.

Lemma i32_from_to bs : length bs = 4 → i32_to_le_bytes (i32_from_le_bytes bs) = bs.
Proof.
  intros Hl. unfold i32_from_le_bytes, i32_to_le_bytes.
  rewrite cast_u_cast_i by lia. pose proof (le_val_range bs) as Hr. rewrite Hl in Hr.
  rewrite cast_u_small by (simpl in Hr; lia). by apply le_bytes_le_val'.
Qed.

Lemma length_i32 z : length (i32_to_le_bytes z) = 4.
Proof. apply length_le_bytes. Qed.

(** ** Readers

    An [AsyncRead] seen by [read_exact]: the bytes that will still arrive
    before the other side closes.  [read_exact] either takes its bytes or
    fails with [UnexpectedEof]. *)

Definition eof_error : io_error := IoError UnexpectedEof "unexpected end of file".

Definition read_exact (n : nat) (s : list byte)
    : res io_error (list byte * list byte) :=
  if decide (n <= length s) then Ok (take n s, drop n s) else Err eof_error.

Lemma read_exact_app n a s :
  length a = n → read_exact n (a ++ s) = Ok (a, s).
Proof.
  intros <-. unfold read_exact. rewrite length_app.
  rewrite decide_True by lia. by rewrite take_app_length, drop_app_length.
Qed.

Lemma read_exact_short n s :
  length s < n → read_exact n s = Err eof_error.
Proof. intros. unfold read_exact. by rewrite decide_False by lia. Qed.

Lemma read_exact_Ok n s a r :
  read_exact n s = Ok (a, r) → s = a ++ r ∧ length a = n.
Proof.
  unfold read_exact. case_decide; [|done]. intros [= <- <-].
  rewrite take_drop. split; [done|]. rewrite length_take. lia.
Qed.

#[global] Arguments read_exact : simpl never.

(** ** Automation shared by the components *)

Create HintDb geph discriminated.
Create Rewrite HintDb len.

#[export] Hint Rewrite @length_app @length_take @length_drop @length_reverse
  length_le_bytes length_be_bytes length_i32 @length_replicate @length_fmap
  @length_cons @length_nil : len.

(** Solves arithmetic over lengths of appended, cut and encoded lists. *)
Ltac len := autorewrite with len in *; first [lia | simpl in *; lia | simpl length in *; lia].

#[export] Hint Resolve byte_to_Z_range le_val_range be_val_range : geph.
