(* ===== verification/Frame.v ===== *)
(** * picomux frames (libraries/picomux/src/frame.rs)

    A frame is an 8-byte header ([#[repr(C)]], cast with bytemuck, so its
    integers are in the byte order of the machine: little-endian on every
    supported target) followed by its body.  The header's [body_len] is a
    field of its own, filled with a truncating [as u16] cast. *)
From Stdlib Require Import ZArith Lia.
From S2P Require Import Prelude.
Local Open Scope Z_scope.

(** ** Data *)

Record Header := mkHeader {
  version : Z;
  command : Z;
  body_len : Z;
  stream_id : Z
}.

Record Frame := mkFrame { header : Header; body : list byte }.

Definition CMD_SYN : Z := 0.
Definition CMD_FIN : Z := 1.
Definition CMD_PSH : Z := 2.
Definition CMD_NOP : Z := 3.
Definition CMD_MORE : Z := 4.
Definition CMD_PING : Z := 160.
Definition CMD_PONG : Z := 161.

#[export] Instance Header_eq_dec : EqDecision Header.
Proof. solve_decision. Defined.
#[export] Instance Frame_eq_dec : EqDecision Frame.
Proof. solve_decision. Defined.

(** ** Operations *)

Definition Frame_new_empty (sid cmd : Z) : Frame :=
  mkFrame (mkHeader 1 cmd 0 sid) [].

Definition Frame_new (sid cmd : Z) (bts : list byte) : Frame :=
  mkFrame (mkHeader 1 cmd (cast_u 16 (Z.of_nat (length bts))) sid) bts.

(** [bytemuck::bytes_of] on the header, and [bytemuck::cast] back. *)
Definition header_size : nat := 8.

Definition Header_bytes (h : Header) : list byte :=
  le_bytes 1 (version h) ++ le_bytes 1 (command h) ++
  le_bytes 2 (body_len h) ++ le_bytes 4 (stream_id h).

Definition Header_cast (bs : list byte) : Header :=
  mkHeader (le_val (take 1 bs)) (le_val (take 1 (drop 1 bs)))
    (le_val (take 2 (drop 2 bs))) (le_val (take 4 (drop 4 bs))).

(** [Frame::bytes]: a zeroed buffer of the right size whose two parts are
    overwritten by the header and the body. *)
Definition Frame_bytes (f : Frame) : list byte :=
  Header_bytes (header f) ++ body f.

(** [Frame::read]: the header, then as many bytes as it announces. *)
Definition Frame_read (rdr : list byte) : res io_error (Frame * list byte) :=
  '(header_buf, rdr) ← read_exact header_size rdr;
  let h := Header_cast header_buf in
  '(bts, rdr) ← read_exact (Z.to_nat (body_len h)) rdr;
  Ok (mkFrame h bts, rdr).

(** Reading [n] frames in a row, as the receive loop of the multiplexer
    does. *)
Fixpoint Frame_read_many (n : nat) (rdr : list byte)
    : res io_error (list Frame * list byte) :=
  match n with
  | O => Ok ([], rdr)
  | S n =>
      '(f, rdr) ← Frame_read rdr;
      '(fs, rdr) ← Frame_read_many n rdr;
      Ok (f :: fs, rdr)
  end.

(** ** Well-formedness: every field in the range of its Rust type, and the
    announced length is the real one *)

Definition Header_wf (h : Header) : Prop :=
  0 <= version h < 2 ^ 8 ∧ 0 <= command h < 2 ^ 8 ∧
  0 <= body_len h < 2 ^ 16 ∧ 0 <= stream_id h < 2 ^ 32.

Definition Frame_wf (f : Frame) : Prop :=
  Header_wf (header f) ∧ body_len (header f) = Z.of_nat (length (body f)).

#[export] Instance Header_wf_dec h : Decision (Header_wf h).
Proof. unfold Header_wf. apply _. Defined.
#[export] Instance Frame_wf_dec f : Decision (Frame_wf f).
Proof. unfold Frame_wf. apply _. Defined.

(** ** Lemmas *)

#[global] Arguments Header_bytes : simpl never.
#[global] Arguments Header_cast : simpl never.
#[global] Arguments Frame_bytes : simpl never.
#[global] Arguments Frame_read : simpl never.

Ltac flen := unfold header_size in *; len.

Lemma length_Header_bytes h : length (Header_bytes h) = 8%nat.
Proof. unfold Header_bytes. flen. Qed.
#[export] Hint Rewrite length_Header_bytes : len.

Lemma length_Frame_bytes f :
  length (Frame_bytes f) = (8 + length (body f))%nat.
Proof. unfold Frame_bytes. flen. Qed.
#[export] Hint Rewrite length_Frame_bytes : len.

Lemma Header_cast_bytes h : Header_wf h → Header_cast (Header_bytes h) = h.
Proof.
  destruct h as [v c l s]. intros (Hv & Hc & Hl & Hs). simpl in *.
  unfold Header_cast, Header_bytes; simpl version; simpl command;
    simpl body_len; simpl stream_id.
  rewrite take_app_length' by flen.
  rewrite (drop_app_length' (le_bytes 1 v)) by flen.
  rewrite (take_app_length' (le_bytes 1 c)) by flen.
  rewrite (app_assoc (le_bytes 1 v)).
  rewrite (drop_app_length' (le_bytes 1 v ++ le_bytes 1 c)) by flen.
  rewrite (take_app_length' (le_bytes 2 l)) by flen.
  rewrite (app_assoc (le_bytes 1 v ++ le_bytes 1 c)).
  rewrite (drop_app_length' ((le_bytes 1 v ++ le_bytes 1 c) ++ le_bytes 2 l)) by flen.
  rewrite take_ge by flen.
  by rewrite !le_val_small by (simpl; lia).
Qed.

Lemma Header_bytes_cast bs :
  length bs = header_size → Header_bytes (Header_cast bs) = bs.
Proof.
  intros Hlen. unfold Header_bytes, Header_cast; cbn [version command body_len stream_id].
  rewrite !le_bytes_le_val' by flen. unfold header_size in Hlen.
  do 8 (destruct bs as [|? bs]; [done|]). by destruct bs.
Qed.

Lemma Header_cast_wf bs : length bs = header_size → Header_wf (Header_cast bs).
Proof.
  intros Hlen. unfold header_size in Hlen.
  unfold Header_wf, Header_cast; simpl version; simpl command;
    simpl body_len; simpl stream_id.
  assert (H : ∀ n (l : list byte), length l = n → 0 <= le_val l < 256 ^ Z.of_nat n).
  { intros n l <-. apply le_val_range. }
  pose proof (H 1%nat (take 1 bs) ltac:(flen)).
  pose proof (H 1%nat (take 1 (drop 1 bs)) ltac:(flen)).
  pose proof (H 2%nat (take 2 (drop 2 bs)) ltac:(flen)).
  pose proof (H 4%nat (take 4 (drop 4 bs)) ltac:(flen)).
  simpl in *. lia.
Qed.

(** What [Frame::read] does on the bytes of any frame whose header fields
    fit: it takes the announced number of body bytes, whatever the real body
    was. *)
Lemma Frame_read_header h bts rest :
  Header_wf h → (Z.to_nat (body_len h) <= length (bts ++ rest))%nat →
  Frame_read (Header_bytes h ++ bts ++ rest) =
    Ok (mkFrame h (take (Z.to_nat (body_len h)) (bts ++ rest)),
        drop (Z.to_nat (body_len h)) (bts ++ rest)).
Proof.
  intros Hwf Hlen. unfold Frame_read.
  rewrite read_exact_app by flen. cbn [mbind res_bind].
  rewrite Header_cast_bytes by done.
  unfold read_exact. by rewrite decide_True.
Qed.

Lemma Frame_read_bytes f rest :
  Frame_wf f → Frame_read (Frame_bytes f ++ rest) = Ok (f, rest).
Proof.
  destruct f as [h bts]. intros [Hwf Hlen]; cbn [header body] in *.
  unfold Frame_bytes; cbn [header body]. rewrite <- app_assoc.
  rewrite Frame_read_header by (rewrite ?Hlen, ?Nat2Z.id, ?length_app; auto; lia).
  rewrite Hlen, Nat2Z.id. by rewrite take_app_length, drop_app_length.
Qed.

Lemma Frame_read_inv s f rest :
  Frame_read s = Ok (f, rest) → Frame_wf f ∧ s = Frame_bytes f ++ rest.
Proof.
  unfold Frame_read. intros H.
  apply bind_Ok in H as ([hb r1] & Hh & H).
  apply bind_Ok in H as ([bts r2] & Hb & [= <- <-]).
  apply read_exact_Ok in Hh as [-> Hhb], Hb as [-> Hb].
  pose proof (Header_cast_wf _ Hhb) as Hwf.
  split; [split; cbn [header body]; [done|]|].
  - destruct Hwf as (_ & _ & ? & _). lia.
  - unfold Frame_bytes; cbn [header body]. by rewrite Header_bytes_cast, app_assoc.
Qed.

Lemma Frame_new_wf sid cmd bts :
  0 <= sid < 2 ^ 32 → 0 <= cmd < 2 ^ 8 → Z.of_nat (length bts) < 2 ^ 16 →
  Frame_wf (Frame_new sid cmd bts).
Proof.
  intros. unfold Frame_wf, Header_wf, Frame_new; simpl.
  rewrite cast_u_small by lia. lia.
Qed.

Lemma Frame_new_empty_wf sid cmd :
  0 <= sid < 2 ^ 32 → 0 <= cmd < 2 ^ 8 → Frame_wf (Frame_new_empty sid cmd).
Proof. intros. unfold Frame_wf, Header_wf, Frame_new_empty; simpl. lia. Qed.

#[export] Hint Resolve Frame_new_wf Frame_new_empty_wf : geph.

(** ** Properties *)

(** C40: [Frame::read] inverts [Frame::bytes] and nothing else: reading
    succeeds with a frame exactly when the stream starts with the bytes of
    that frame, every field of which is in range and whose announced length
    is its real one.  So a byte stream has at most one parse, no byte is lost
    and none is invented. *)
Theorem frame_read_iff s f rest :
  Frame_read s = Ok (f, rest) ↔ Frame_wf f ∧ s = Frame_bytes f ++ rest.
Proof.
  split; [apply Frame_read_inv|].
  intros [Hwf ->]. by apply Frame_read_bytes.
Qed.

(** The receive loop recovers a whole sequence of frames, in order, from
    the concatenation the outgoing loop writes. *)
Theorem frame_stream_roundtrip fs rest :
  Forall Frame_wf fs →
  Frame_read_many (length fs) (concat (map Frame_bytes fs) ++ rest) = Ok (fs, rest).
Proof.
  induction 1 as [|f fs Hf Hfs IH]; [done|].
  cbn [length Frame_read_many map concat].
  rewrite <- app_assoc, Frame_read_bytes by done. cbn [mbind res_bind].
  by rewrite IH.
Qed.

(** [body_len] is computed with a truncating cast, so a frame built with
    a body of 64 KiB or more desynchronises the stream: the reader takes only
    the length modulo 65536 and parses the rest of the body as the next
    header. *)
Theorem frame_oversized_desync sid cmd bts rest :
  0 <= sid < 2 ^ 32 → 0 <= cmd < 2 ^ 8 → 2 ^ 16 <= Z.of_nat (length bts) →
  let n := Z.to_nat (Z.of_nat (length bts) mod 2 ^ 16) in
  Frame_read (Frame_bytes (Frame_new sid cmd bts) ++ rest) =
    Ok (mkFrame (header (Frame_new sid cmd bts)) (take n bts), drop n bts ++ rest)
  ∧ drop n bts ≠ [].
Proof.
  intros Hs Hc Hlen n. unfold Frame_bytes, Frame_new; cbn [header body].
  rewrite <- app_assoc.
  assert (Hn : (n < length bts)%nat).
  { subst n. pose proof (Z.mod_pos_bound (Z.of_nat (length bts)) (2 ^ 16)). lia. }
  split.
  - rewrite Frame_read_header; cbn [body_len].
    + unfold cast_u. fold n. rewrite take_app_le, drop_app_le by lia. done.
    + unfold Header_wf; cbn. pose proof (cast_u_range 16 (Z.of_nat (length bts))). lia.
    + unfold cast_u. fold n. flen.
  - intros H. apply (f_equal length) in H. flen.
Qed.

Lemma frame_stream_roundtrip_witness :
  Frame_read_many 2 (concat (map Frame_bytes
      [Frame_new 7 CMD_PSH [x01; x02]; Frame_new_empty 7 CMD_FIN]) ++ [xff]) =
    Ok ([Frame_new 7 CMD_PSH [x01; x02]; Frame_new_empty 7 CMD_FIN], [xff]).
Proof.
  apply (frame_stream_roundtrip
    [Frame_new 7 CMD_PSH [x01; x02]; Frame_new_empty 7 CMD_FIN] [xff]).
  repeat constructor; vm_compute; congruence.
Defined.

Lemma frame_oversized_desync_witness :
  drop (Z.to_nat (Z.of_nat (length (replicate (Z.to_nat 65537) x00)) mod 2 ^ 16))
    (replicate (Z.to_nat 65537) x00) ≠ [].
Proof.
  apply (proj2 (frame_oversized_desync 1 CMD_SYN (replicate (Z.to_nat 65537) x00) []
    ltac:(lia) ltac:(unfold CMD_SYN; lia) ltac:(rewrite length_replicate; lia))).
Defined.
