(* ===== verification/Bdp.v ===== *)
(** * Bandwidth estimate (libraries/picomux/src/bdp.rs) and the target
    receive window computed from it (libraries/picomux/src/lib.rs)

    [f64] is IEEE binary64 as computed by the executable, axiom-free
    [SpecFloat] operations of the standard library.  [powf] belongs to the
    platform's libm and is a parameter.  An [Instant] is a number of
    nanoseconds. *)
From Stdlib Require Import ZArith Lia Floats.SpecFloat.
From S2P Require Import Prelude.
Local Open Scope Z_scope.

(** ** binary64 *)

Abbreviation f64 := spec_float.

Definition f64_add : f64 → f64 → f64 := SFadd 53 1024.
Definition f64_sub : f64 → f64 → f64 := SFsub 53 1024.
Definition f64_mul : f64 → f64 → f64 := SFmul 53 1024.
Definition f64_div : f64 → f64 → f64 := SFdiv 53 1024.

(** [z as f64] for an integer: rounded to nearest even. *)
Definition f64_of_Z (z : Z) : f64 := binary_normalize 53 1024 z 0 false.

(** [x as usize]: truncation toward zero, saturating, NaN to 0. *)
Definition f64_as_usize (x : f64) : Z :=
  match x with
  | S754_zero _ | S754_nan | S754_infinity true => 0
  | S754_infinity false => 2 ^ usize_bits - 1
  | S754_finite true _ _ => 0
  | S754_finite false m e =>
      Z.min (2 ^ usize_bits - 1)
        (if 0 <=? e then Z.pos m * 2 ^ e else Z.pos m / 2 ^ (- e))
  end.

(** [Duration::as_secs_f64] of a number of nanoseconds. *)
Definition as_secs_f64 (ns : Z) : f64 :=
  f64_add (f64_of_Z (ns / 1000000000))
    (f64_div (f64_of_Z (ns mod 1000000000)) (f64_of_Z 1000000000)).

(** ** Constants of lib.rs *)

Definition INIT_WINDOW : Z := 10.
Definition MAX_WINDOW : Z := 1500.
Definition MSS : Z := 8192.

(** ** The estimator *)

Record BwEstimate := mkBwEstimate { accum : f64; last_update : Z }.

Section with_powf.
Context (powf : f64 → f64 → f64).

Definition BwEstimate_new (init_estimate : f64) (now : Z) : BwEstimate :=
  mkBwEstimate init_estimate now.

Definition BwEstimate_sample (b : BwEstimate) (delta : Z) (now : Z) : BwEstimate :=
  let delta_t := as_secs_f64 (Z.max 0 (now - last_update b)) in
  let speed_sample := f64_div (f64_of_Z delta) delta_t in
  let decay_ratio := f64_div (f64_of_Z 1) (powf (f64_of_Z 2) delta_t) in
  mkBwEstimate
    (f64_add (f64_mul (accum b) decay_ratio)
       (f64_mul speed_sample (f64_sub (f64_of_Z 1) decay_ratio)))
    now.

Definition BwEstimate_read (b : BwEstimate) : f64 := accum b.

(** The window the receiver aims for, assuming half a second of delay:
    [((estimate / MSS as f64 / 2.0) as usize).clamp(INIT_WINDOW, MAX_WINDOW)]. *)
Definition target_of_estimate (estimate : f64) : Z :=
  clamp INIT_WINDOW MAX_WINDOW
    (f64_as_usize (f64_div (f64_div estimate (f64_of_Z MSS)) (f64_of_Z 2))).

Lemma target_of_estimate_range e :
  INIT_WINDOW <= target_of_estimate e <= MAX_WINDOW.
Proof. unfold target_of_estimate, clamp, INIT_WINDOW, MAX_WINDOW. lia. Qed.

Definition samples (b : BwEstimate) (l : list (Z * Z)) : BwEstimate :=
  foldl (λ b '(delta, now), BwEstimate_sample b delta now) b l.

Lemma sample_nan b delta now :
  accum b = S754_nan → accum (BwEstimate_sample b delta now) = S754_nan.
Proof. intros H. unfold BwEstimate_sample; simpl. by rewrite H. Qed.

Lemma samples_nan l b : accum b = S754_nan → accum (samples b l) = S754_nan.
Proof.
  revert b; induction l as [|[d n] l IH]; intros b H; simpl; [done|].
  apply IH. by apply sample_nan.
Qed.

Lemma f64_div_zero_mul_zero x :
  f64_mul (f64_div x (S754_zero false)) (S754_zero false) = S754_nan.
Proof. by destruct x. Qed.

Lemma f64_add_nan_r x : f64_add x S754_nan = S754_nan.
Proof. by destruct x. Qed.

Lemma sample_same_instant b delta :
  powf (f64_of_Z 2) (f64_of_Z 0) = f64_of_Z 1 →
  accum (BwEstimate_sample b delta (last_update b)) = S754_nan.
Proof.
  intros Hpow. unfold BwEstimate_sample.
  rewrite Z.sub_diag. change (Z.max 0 0) with 0.
  change (as_secs_f64 0) with (S754_zero false).
  change (f64_of_Z 0) with (S754_zero false) in Hpow. rewrite Hpow.
  change (f64_sub (f64_of_Z 1) (f64_div (f64_of_Z 1) (f64_of_Z 1)))
    with (S754_zero false).
  cbn [accum]. by rewrite f64_div_zero_mul_zero, f64_add_nan_r.
Qed.

(** The estimator divides by the time since the previous sample.  Two
    samples at the same reading of the clock (an infinite speed weighted by
    zero) turn the estimate into NaN, NaN absorbs every later sample, and
    from then on the target window is the minimum of 10 frames whatever the
    bandwidth is. *)
Theorem bw_estimate_nan_collapse b delta later :
  powf (f64_of_Z 2) (f64_of_Z 0) = f64_of_Z 1 →
  let b' := samples (BwEstimate_sample b delta (last_update b)) later in
  BwEstimate_read b' = S754_nan ∧
  target_of_estimate (BwEstimate_read b') = INIT_WINDOW.
Proof.
  intros Hpow b'.
  assert (H : BwEstimate_read b' = S754_nan).
  { apply samples_nan. by apply sample_same_instant. }
  by rewrite H.
Qed.
End with_powf.

Lemma bw_estimate_nan_collapse_witness :
  target_of_estimate (BwEstimate_read
    (samples (λ _ _, f64_of_Z 1)
      (BwEstimate_sample (λ _ _, f64_of_Z 1)
         (BwEstimate_new (f64_of_Z 1000000) 5) 8192 5)
      [(8192, 1000000005); (8192, 2000000005)])) = INIT_WINDOW.
Proof.
  apply (bw_estimate_nan_collapse (λ _ _, f64_of_Z 1)
    (BwEstimate_new (f64_of_Z 1000000) 5) 8192
    [(8192, 1000000005); (8192, 2000000005)]). reflexivity.
Defined.

(** The estimate of a fresh stream, one megabyte per second, asks for a
    window of 61 frames. *)
Example target_of_initial_estimate :
  target_of_estimate (f64_of_Z 1000000) = 61.
Proof. vm_compute. reflexivity. Qed.
