(* ===== verification/BufferTable.v ===== *)
(** * Per-stream buffers (libraries/picomux/src/buffer_table.rs)

    The table maps a stream id to the sending half of an unbounded channel of
    received frames and to the semaphore that holds the send window.  Both
    halves of a channel share its queue: the entry below holds the queue
    itself, and a [BufferReceive] is known by its stream id.  That is sound
    because both callers of [create_entry] test [contains_id] first and
    dropping a [BufferReceive] removes its entry, so a live receiver and the
    entry of its id always belong to the same channel. *)
From Stdlib Require Import ZArith Lia.
From S2P Require Import Prelude Frame Bdp.
Local Open Scope Z_scope.

(** ** State *)

Record Buffer := mkBuffer {
  queue : list (Frame * Z);      (* received frames with their arrival time *)
  permits : Z                    (* the send window *)
}.

Record BufferTable := mkBufferTable { inner : gmap Z Buffer }.

(** ** Operations *)

Definition BufferTable_new : BufferTable := mkBufferTable ∅.

Definition contains_id (t : BufferTable) (id : Z) : bool :=
  match inner t !! id with Some _ => true | None => false end.

Definition create_entry (t : BufferTable) (sid : Z) : BufferTable :=
  mkBufferTable (<[sid := mkBuffer [] INIT_WINDOW]> (inner t)).

(** [send_to]: a frame for an unknown stream is ignored; one that finds more
    than [MAX_WINDOW * 2] frames waiting is dropped with a warning. *)
Definition send_to (t : BufferTable) (sid : Z) (f : Frame) (now : Z) : BufferTable :=
  match inner t !! sid with
  | None => t
  | Some b =>
      if MAX_WINDOW * 2 <? Z.of_nat (length (queue b)) then t
      else mkBufferTable (<[sid := mkBuffer (queue b ++ [(f, now)]) (permits b)]> (inner t))
  end.

(** [wait_send_window]: one permit is taken, or the task stays pending
    ([None]): on an unknown stream for ever, otherwise until a permit is
    released. *)
Definition wait_send_window (t : BufferTable) (sid : Z) : option BufferTable :=
  b ← inner t !! sid;
  if 1 <=? permits b
  then Some (mkBufferTable (<[sid := mkBuffer (queue b) (permits b - 1)]> (inner t)))
  else None.

Definition incr_send_window (t : BufferTable) (sid amount : Z) : BufferTable :=
  match inner t !! sid with
  | None => t
  | Some b => mkBufferTable (<[sid := mkBuffer (queue b) (permits b + amount)]> (inner t))
  end.

(** [BufferReceive::recv]: the oldest frame and the time it waited, or
    pending. *)
Definition buffer_recv (t : BufferTable) (sid now : Z)
    : option (Frame * Z * BufferTable) :=
  b ← inner t !! sid;
  match queue b with
  | [] => None
  | (f, insert_time) :: q =>
      Some (f, now - insert_time,
            mkBufferTable (<[sid := mkBuffer q (permits b)]> (inner t)))
  end.

(** [Drop for BufferReceive]. *)
Definition buffer_drop (t : BufferTable) (sid : Z) : BufferTable :=
  mkBufferTable (delete sid (inner t)).

(** ** Views used by the theorems about the multiplexer *)

Definition frames_of (t : BufferTable) (sid : Z) : list Frame :=
  match inner t !! sid with Some b => map fst (queue b) | None => [] end.
Definition permits_of (t : BufferTable) (sid : Z) : Z :=
  match inner t !! sid with Some b => permits b | None => 0 end.

Lemma contains_id_true t id :
  contains_id t id = true ↔ is_Some (inner t !! id).
Proof.
  unfold contains_id. destruct (inner t !! id); split; intros H; try done; eauto.
Qed.

Lemma contains_id_false t id : contains_id t id = false ↔ inner t !! id = None.
Proof. unfold contains_id. by destruct (inner t !! id). Qed.

(** Every operation leaves the other streams alone. *)
Lemma create_entry_ne t s s' : s ≠ s' → inner (create_entry t s) !! s' = inner t !! s'.
Proof. intros. simpl. by rewrite lookup_insert_ne. Qed.
Lemma send_to_ne t s s' f now :
  s ≠ s' → inner (send_to t s f now) !! s' = inner t !! s'.
Proof.
  intros. unfold send_to. destruct (inner t !! s); [|done].
  case_match; [done|]. simpl. by rewrite lookup_insert_ne.
Qed.
Lemma incr_send_window_ne t s s' n :
  s ≠ s' → inner (incr_send_window t s n) !! s' = inner t !! s'.
Proof.
  intros. unfold incr_send_window. destruct (inner t !! s); [|done].
  simpl. by rewrite lookup_insert_ne.
Qed.
Lemma buffer_drop_ne t s s' : s ≠ s' → inner (buffer_drop t s) !! s' = inner t !! s'.
Proof. intros. simpl. by rewrite lookup_delete_ne. Qed.
Lemma wait_send_window_ne t t' s s' :
  s ≠ s' → wait_send_window t s = Some t' → inner t' !! s' = inner t !! s'.
Proof.
  unfold wait_send_window. intros Hne H.
  destruct (inner t !! s) as [b|]; simpl in H; [|done].
  case_match; simplify_eq/=. by rewrite lookup_insert_ne.
Qed.
Lemma buffer_recv_ne t t' s s' now f d :
  s ≠ s' → buffer_recv t s now = Some (f, d, t') → inner t' !! s' = inner t !! s'.
Proof.
  unfold buffer_recv. intros Hne H.
  destruct (inner t !! s) as [[[|[f0 i0] q] p]|]; simpl in H; simplify_eq/=.
  by rewrite lookup_insert_ne.
Qed.

(** ** The view of a stream

    For the multiplexer a table is, per stream, a FIFO queue and a counter of
    permits, as long as no queue exceeds its bound. *)

Record abs_buffer := mkAbs { abs_frames : list Frame; abs_permits : Z }.

Definition abs (t : BufferTable) (sid : Z) : option abs_buffer :=
  (λ b, mkAbs (map fst (queue b)) (permits b)) <$> inner t !! sid.

(** The effect of each operation on the abstract buffers. *)
Lemma abs_create t s s' :
  abs (create_entry t s) s' = if decide (s = s') then Some (mkAbs [] INIT_WINDOW) else abs t s'.
Proof. unfold abs; simpl. rewrite lookup_insert. by case_decide. Qed.

Lemma abs_drop t s s' :
  abs (buffer_drop t s) s' = if decide (s = s') then None else abs t s'.
Proof. unfold abs; simpl. rewrite lookup_delete. by case_decide. Qed.

Lemma abs_send_to t s s' f now :
  (∀ b, abs t s = Some b → Z.of_nat (length (abs_frames b)) <= MAX_WINDOW * 2) →
  abs (send_to t s f now) s' =
    if decide (s = s')
    then (λ b, mkAbs (abs_frames b ++ [f]) (abs_permits b)) <$> abs t s' else abs t s'.
Proof.
  intros Hb. unfold abs in *. case_decide as Hs; [subst s'|by rewrite send_to_ne].
  unfold send_to. destruct (inner t !! s) as [b|] eqn:E; [|by rewrite E].
  specialize (Hb _ eq_refl). simpl in Hb. rewrite length_map in Hb.
  rewrite (proj2 (Z.ltb_ge _ _)) by done. simpl.
  rewrite lookup_insert_eq. simpl. by rewrite map_app.
Qed.

Lemma abs_incr t s s' n :
  abs (incr_send_window t s n) s' =
    if decide (s = s')
    then (λ b, mkAbs (abs_frames b) (abs_permits b + n)) <$> abs t s' else abs t s'.
Proof.
  unfold abs. case_decide as Hs; [subst s'|by rewrite incr_send_window_ne].
  unfold incr_send_window. destruct (inner t !! s) as [b|] eqn:E; simpl; [|by rewrite E].
  by rewrite lookup_insert_eq.
Qed.

Lemma abs_wait t s s' t' :
  wait_send_window t s = Some t' →
  ∃ b, abs t s = Some b ∧ 1 <= abs_permits b ∧
    abs t' s' = if decide (s = s')
                then Some (mkAbs (abs_frames b) (abs_permits b - 1)) else abs t s'.
Proof.
  intros H. pose proof (wait_send_window_ne t t' s s') as Hne. unfold abs.
  unfold wait_send_window in H. destruct (inner t !! s) as [b|] eqn:E; simpl in H; [|done].
  destruct (Z.leb_spec 1 (permits b)) as [Hp|]; simplify_eq/=.
  eexists; split_and!; [done|done|]. simpl. case_decide; [subst s'|].
  - by rewrite lookup_insert_eq.
  - by rewrite lookup_insert_ne.
Qed.

Lemma abs_wait_None t s :
  wait_send_window t s = None → ∀ b, abs t s = Some b → abs_permits b < 1.
Proof.
  unfold wait_send_window, abs. destruct (inner t !! s) as [b|]; simpl; [|done].
  destruct (Z.leb_spec 1 (permits b)); [done|]. intros _ b' [= <-]. done.
Qed.

Lemma abs_recv t s s' now f d t' :
  buffer_recv t s now = Some (f, d, t') →
  ∃ b q, abs t s = Some b ∧ abs_frames b = f :: q ∧
    abs t' s' = if decide (s = s') then Some (mkAbs q (abs_permits b)) else abs t s'.
Proof.
  intros H. unfold abs. unfold buffer_recv in H.
  destruct (inner t !! s) as [[[|[f0 i0] q] p]|] eqn:E; simpl in H; simplify_eq/=.
  eexists _, _; split_and!; [done|done|]. simpl. case_decide; [subst s'|].
  - by rewrite lookup_insert_eq.
  - by rewrite lookup_insert_ne.
Qed.

Lemma abs_recv_None t s now :
  buffer_recv t s now = None → ∀ b, abs t s = Some b → abs_frames b = [].
Proof.
  unfold buffer_recv, abs. destruct (inner t !! s) as [[[|[f i] q] p]|]; simpl; try done.
  by intros _ b [= <-].
Qed.

(** ** The contract of a buffer table

    Calls and what they return.  A history is the list of calls made so far with
    their results; the contract says from the history alone what the next call
    returns. *)

Inductive buf_op :=
| OpCreate (sid : Z)
| OpPush (sid : Z) (f : Frame) (now : Z)
| OpTake (sid : Z)
| OpIncr (sid amount : Z)
| OpRecv (sid now : Z)
| OpDrop (sid : Z).

(** What a caller sees: a call that returns, one that stays pending, the frame
    received with the time it waited. *)
Inductive buf_result := Returned | StaysPending | Received (f : Frame) (queue_delay : Z).

Definition buf_call (t : BufferTable) (op : buf_op) : BufferTable * buf_result :=
  match op with
  | OpCreate s => (create_entry t s, Returned)
  | OpPush s f now => (send_to t s f now, Returned)
  | OpTake s => match wait_send_window t s with Some t => (t, Returned) | None => (t, StaysPending) end
  | OpIncr s n => (incr_send_window t s n, Returned)
  | OpRecv s now => match buffer_recv t s now with Some (f, d, t) => (t, Received f d) | None => (t, StaysPending) end
  | OpDrop s => (buffer_drop t s, Returned)
  end.

Abbreviation buf_entry := (buf_op * buf_result)%type.

Fixpoint buf_run (t : BufferTable) (ops : list buf_op) : list buf_entry :=
  match ops with [] => [] | op :: ops => (op, (buf_call t op).2) :: buf_run (buf_call t op).1 ops end.

(** The part of a history, newest first, that concerns the stream since it was
    created; [None] if it does not exist. *)
Definition op_sid (op : buf_op) : Z :=
  match op with OpCreate s | OpPush s _ _ | OpTake s | OpIncr s _ | OpRecv s _ | OpDrop s => s end.
Fixpoint life (s : Z) (h : list buf_entry) : option (list buf_entry) :=
  match h with
  | [] => None
  | (op, r) :: h =>
      if decide (op_sid op = s) then
        match op with
        | OpCreate _ => Some []
        | OpDrop _ => None
        | _ => cons (op, r) <$> life s h
        end
      else life s h
  end.

(** Over a life: how many frames were received, how many windows taken and granted,
    and the frames that arrived, in the order of their arrival.  A frame that finds
    more than [MAX_WINDOW * 2] waiting is not counted as arrived. *)
Fixpoint reads (l : list buf_entry) : nat :=
  match l with [] => 0 | (_, Received _ _) :: l => S (reads l) | _ :: l => reads l end.
Fixpoint takes (l : list buf_entry) : Z :=
  match l with [] => 0 | (OpTake _, Returned) :: l => takes l + 1 | _ :: l => takes l end.
Fixpoint grants (l : list buf_entry) : Z :=
  match l with [] => 0 | (OpIncr _ n, _) :: l => grants l + n | _ :: l => grants l end.
Fixpoint arrivals (l : list buf_entry) : list (Frame * Z) :=
  match l with
  | [] => []
  | (OpPush _ f now, _) :: l =>
      if MAX_WINDOW * 2 <? Z.of_nat (length (arrivals l)) - Z.of_nat (reads l) then arrivals l else arrivals l ++ [(f, now)]
  | _ :: l => arrivals l
  end.

(** What the next call returns after the history [h]. *)
Definition promised (h : list buf_entry) (op : buf_op) : buf_result :=
  match op with
  | OpRecv s now =>
      match life s h with
      | Some l => match arrivals l !! reads l with Some (f, at_) => Received f (now - at_) | None => StaysPending end
      | None => StaysPending
      end
  | OpTake s =>
      match life s h with
      | Some l => if takes l <? INIT_WINDOW + grants l then Returned else StaysPending
      | None => StaysPending
      end
  | _ => Returned
  end.

(** The table holds of each stream what its life says. *)
Definition holds (b : option Buffer) (l : option (list buf_entry)) : Prop :=
  match b, l with
  | Some b, Some l => queue b = drop (reads l) (arrivals l) ∧ permits b = INIT_WINDOW + grants l - takes l ∧
      (reads l <= length (arrivals l))%nat
  | None, None => True
  | _, _ => False
  end.
Definition explains (h : list buf_entry) (t : BufferTable) : Prop := ∀ s, holds (inner t !! s) (life s h).

Lemma call_promised h t op : explains h t → (buf_call t op).2 = promised h op.
Proof.
  intros He. destruct op as [s|s f now|s|s n|s now|s]; try done; specialize (He s); cbn [buf_call promised];
    unfold wait_send_window, buffer_recv; destruct (inner t !! s) as [b|], (life s h) as [l|]; try done; destruct He as (Hq & Hp & Hr); cbn [mbind option_bind].
  - destruct (Z.leb_spec 1 (permits b)), (Z.ltb_spec (takes l) (INIT_WINDOW + grants l)); try done; lia.
  - rewrite Hq. destruct (arrivals l !! reads l) as [[f at_]|] eqn:E; [by rewrite (drop_S _ _ _ E)|].
    apply lookup_ge_None in E. by rewrite drop_ge by lia.
Qed.

Lemma call_ne t op s : op_sid op ≠ s → inner (buf_call t op).1 !! s = inner t !! s.
Proof.
  destruct op as [s'|s' f now|s'|s' n|s' now|s']; cbn [op_sid buf_call]; intros Hne.
  - by apply create_entry_ne.
  - by apply send_to_ne.
  - destruct (wait_send_window t s') eqn:E; [by eapply wait_send_window_ne|done].
  - by apply incr_send_window_ne.
  - destruct (buffer_recv t s' now) as [[[f d] t']|] eqn:E; [by eapply buffer_recv_ne|done].
  - by apply buffer_drop_ne.
Qed.

Lemma call_explained h t op : explains h t → explains ((op, (buf_call t op).2) :: h) (buf_call t op).1.
Proof.
  intros He s. specialize (He s). cbn [life].
  destruct (decide (op_sid op = s)) as [Hs|Hne]; [|by rewrite call_ne].
  destruct op as [s'|s' f now|s'|s' n|s' now|s']; cbn [op_sid] in Hs; subst s'; cbn [buf_call].
  - cbn. rewrite lookup_insert_eq. done.
  - unfold send_to. destruct (inner t !! s) as [b|] eqn:Eb, (life s h) as [l|]; try done; cbn [fst snd fmap option_fmap option_map reads arrivals grants takes]; [|by rewrite Eb].
    destruct He as (Hq & Hp & Hr). rewrite Hq, length_drop.
    replace (Z.of_nat (length (arrivals l) - reads l)) with (Z.of_nat (length (arrivals l)) - Z.of_nat (reads l)) by lia.
    unfold holds. destruct (MAX_WINDOW * 2 <? Z.of_nat (length (arrivals l)) - Z.of_nat (reads l)) eqn:Ef; cbn [inner fst].
    + rewrite Eb. cbn [arrivals reads grants takes]. by rewrite Ef.
    + rewrite lookup_insert_eq. cbn [arrivals reads grants takes queue permits]. rewrite Ef. split_and!; [by rewrite drop_app_le|done|rewrite length_app; lia].
  - unfold wait_send_window. destruct (inner t !! s) as [b|] eqn:Eb, (life s h) as [l|]; try done; cbn [mbind option_bind]; [|by cbn; rewrite Eb].
    destruct He as (Hq & Hp & Hr). destruct (1 <=? permits b); cbn; [rewrite lookup_insert_eq|by rewrite Eb]. cbn. split_and!; [done|lia|done].
  - unfold incr_send_window. destruct (inner t !! s) as [b|] eqn:Eb, (life s h) as [l|]; try done; cbn [fst snd fmap option_fmap option_map]; [|by rewrite Eb].
    destruct He as (Hq & Hp & Hr). cbn. rewrite lookup_insert_eq. cbn. split_and!; [done|lia|done].
  - unfold buffer_recv. destruct (inner t !! s) as [b|] eqn:Eb, (life s h) as [l|]; try done; cbn [mbind option_bind]; [|by cbn; rewrite Eb].
    destruct He as (Hq & Hp & Hr). destruct (queue b) as [|[f at_] q] eqn:Eq; cbn; [rewrite Eb; cbn; by rewrite Eq|].
    rewrite lookup_insert_eq. cbn. assert (reads l < length (arrivals l))%nat.
    { apply (f_equal length) in Hq. rewrite length_drop in Hq. cbn in Hq. lia. }
    split_and!; [|done|lia]. apply (f_equal tail) in Hq. cbn in Hq. rewrite Hq. rewrite <- (Nat.add_1_r (reads l)), <- drop_drop. by destruct (drop (reads l) (arrivals l)).
  - cbn. by rewrite lookup_delete_eq.
Qed.

Lemma buf_run_promised ops : ∀ h t i op r,
  explains h t → buf_run t ops !! i = Some (op, r) → r = promised (reverse (take i (buf_run t ops)) ++ h) op.
Proof.
  induction ops as [|o ops IH]; intros h t i op r He E; [done|]. cbn [buf_run] in *. destruct i as [|i]; cbn [lookup list_lookup] in E; cbn [take].
  - injection E as <- <-. rewrite reverse_nil. by apply call_promised.
  - rewrite reverse_cons, <- app_assoc. cbn [app]. apply IH; [|done]. by apply call_explained.
Qed.

(** C13: the buffer table keeps its contract.  Over any sequence of calls on a new
    table, what each call returns is what the calls before it promise.  Receiving
    from a stream that exists gives the first frame that arrived for it since its
    creation and was not received yet, with the time it waited, and stays pending
    when there is none; taking a window returns exactly while fewer were taken than
    the initial window and the grants since the creation add up to; streams do not
    touch each other, and the only frames lost are those that find more than
    [MAX_WINDOW * 2] waiting. *)
Theorem buffer_table_refines ops i op r :
  buf_run BufferTable_new ops !! i = Some (op, r) →
  r = promised (reverse (take i (buf_run BufferTable_new ops))) op.
Proof.
  intros E. rewrite (buf_run_promised ops [] BufferTable_new i op r); [by rewrite app_nil_r| |done]. intros s. cbn. by rewrite lookup_empty.
Qed.

Lemma buffer_table_refines_witness :
  let f := Frame_new_empty 9 CMD_FIN in
  let ops := [OpCreate 9; OpPush 9 f 5; OpCreate 8; OpTake 9; OpRecv 9 7] in
  buf_run BufferTable_new ops !! 4%nat = Some (OpRecv 9 7, Received f 2) ∧
  Received f 2 = promised (reverse (take 4 (buf_run BufferTable_new ops))) (OpRecv 9 7).
Proof. split; [reflexivity|]. by apply (buffer_table_refines [OpCreate 9; OpPush 9 (Frame_new_empty 9 CMD_FIN) 5; OpCreate 8; OpTake 9; OpRecv 9 7]). Defined.
