(* ===== verification/Mux.v ===== *)
(** * One end of a picomux session (libraries/picomux/src/lib.rs,
    libraries/picomux/src/outgoing.rs)

    [picomux_inner] races three loops (open requests, pings, incoming
    frames) and spawns, per stream, a task that races [incoming_task]
    (application to network) with [outgoing_task] (network to application).
    Each loop body is a function on the shared state below; a body that would
    block returns [None].  Time is an argument ([Instant], nanoseconds), the
    random ids of the open loop are an argument, [serde_json] on [PingInfo]
    and the [powf] of the bandwidth estimate are parameters. *)
From Stdlib Require Import ZArith Lia.
From S2P Require Import Prelude Frame Bdp BufferTable.
Local Open Scope Z_scope.

(** ** State *)

(** The locals of a stream's task.  [received] is what [outgoing_task] has
    written into the pipe the application reads; [dropped] says that the
    application has dropped its [Stream]. *)
Record StreamTask := mkTask {
  metadata : list byte;
  remote_window : Z;
  target_remote_window : Z;
  bw_estimate : BwEstimate;
  received : list byte;
  dropped : bool
}.

(** Durations in milliseconds. *)
Record LivenessConfig := mkLiveness { ping_interval : Z; timeout : Z }.

Definition LivenessConfig_default : LivenessConfig := mkLiveness 1800000 30000.

(** Where the ping loop is: asleep, or waiting for a PONG since [start]. *)
Inductive PingState :=
| PingIdle
| PingWait (info : LivenessConfig) (start : Z).

Record Mux := mkMux {
  buffer_table : BufferTable;
  outgoing : list Frame;              (* Outgoing's queue, oldest first *)
  accepted : list Z;                  (* the bounded channel behind accept() *)
  accept_closed : bool;               (* every PicoMux handle is gone *)
  tasks : gmap Z StreamTask;
  pongs : nat;                        (* the unbounded pong channel *)
  lc : option LivenessConfig;
  ping_state : PingState;
  last_ping : option Z;
  last_bw_estimate : f64
}.

Definition ACCEPT_CAPACITY : nat := 100.

(** Field updates. *)
Definition set_table (m : Mux) (t : BufferTable) : Mux :=
  mkMux t (outgoing m) (accepted m) (accept_closed m) (tasks m) (pongs m) (lc m)
    (ping_state m) (last_ping m) (last_bw_estimate m).
Definition set_outgoing (m : Mux) (o : list Frame) : Mux :=
  mkMux (buffer_table m) o (accepted m) (accept_closed m) (tasks m) (pongs m) (lc m)
    (ping_state m) (last_ping m) (last_bw_estimate m).
Definition set_accepted (m : Mux) (a : list Z) : Mux :=
  mkMux (buffer_table m) (outgoing m) a (accept_closed m) (tasks m) (pongs m) (lc m)
    (ping_state m) (last_ping m) (last_bw_estimate m).
Definition set_tasks (m : Mux) (ts : gmap Z StreamTask) : Mux :=
  mkMux (buffer_table m) (outgoing m) (accepted m) (accept_closed m) ts (pongs m) (lc m)
    (ping_state m) (last_ping m) (last_bw_estimate m).
Definition set_pongs (m : Mux) (n : nat) : Mux :=
  mkMux (buffer_table m) (outgoing m) (accepted m) (accept_closed m) (tasks m) n (lc m)
    (ping_state m) (last_ping m) (last_bw_estimate m).
Definition set_ping (m : Mux) (l : option LivenessConfig) (p : PingState)
    (lp : option Z) : Mux :=
  mkMux (buffer_table m) (outgoing m) (accepted m) (accept_closed m) (tasks m) (pongs m) l
    p lp (last_bw_estimate m).
Definition set_bw (m : Mux) (e : f64) : Mux :=
  mkMux (buffer_table m) (outgoing m) (accepted m) (accept_closed m) (tasks m) (pongs m)
    (lc m) (ping_state m) (last_ping m) e.

(** [picomux_inner] before its loops start. *)
Definition Mux_new : Mux :=
  mkMux BufferTable_new [] [] false ∅ 0 None PingIdle None (f64_of_Z 1000000).

(** [Outgoing::enqueue]. *)
Definition enqueue (m : Mux) (f : Frame) : Mux := set_outgoing m (outgoing m ++ [f]).

(** [Outgoing::send] pushes the frame and then waits for this condition; the
    model runs the push and lets the caller be scheduled again only when it
    holds. *)
Definition outgoing_ready (m : Mux) : bool :=
  (Z.of_nat (length (outgoing m)) <? 10).

(** One turn of [outgoing_loop]: the oldest frame leaves the queue and its
    bytes are written. *)
Definition outgoing_loop_turn (m : Mux) : option (list byte * Mux) :=
  match outgoing m with
  | [] => None
  | f :: q => Some (Frame_bytes f, set_outgoing m q)
  end.

Definition FIN_frame (sid : Z) : Frame := mkFrame (mkHeader 1 CMD_FIN 0 sid) [].

Definition PSH_frame (sid : Z) (bts : list byte) : Frame :=
  mkFrame (mkHeader 1 CMD_PSH (cast_u 16 (Z.of_nat (length bts))) sid) bts.

(** [Frame::new_empty(stream_id, CMD_SYN)] with its body and length then set
    to the metadata. *)
Definition SYN_frame (sid : Z) (md : list byte) : Frame :=
  mkFrame (mkHeader 1 CMD_SYN (cast_u 16 (Z.of_nat (length md))) sid) md.

Definition MORE_frame (sid quantum : Z) : Frame :=
  Frame_new sid CMD_MORE (le_bytes 2 (cast_u 16 quantum)).

Section with_params.
Context (powf : f64 → f64 → f64).
(** [serde_json::to_vec] and [from_slice] on [PingInfo { next_ping_in_ms }]. *)
Context (ping_to_vec : Z → list byte) (ping_from_slice : list byte → option Z).

(** ** Streams *)

(** The locals a stream's task starts with. *)
Definition fresh_task (md : list byte) (e : f64) (now : Z) : StreamTask :=
  mkTask md INIT_WINDOW MAX_WINDOW (BwEstimate_new e now) [] false.

(** The closure [create_stream]. *)
Definition create_stream (m : Mux) (sid : Z) (md : list byte) (now : Z) : Mux :=
  let m := set_table m (create_entry (buffer_table m) sid) in
  set_tasks m (<[sid := fresh_task md (last_bw_estimate m) now]> (tasks m)).

(** The end of a stream's task: its locals are dropped, the receiving half
    of the buffer among them, then the scope guard enqueues a FIN. *)
Definition finish_task (m : Mux) (sid : Z) : Mux :=
  let m := set_table m (buffer_drop (buffer_table m) sid) in
  let m := set_tasks m (delete sid (tasks m)) in
  enqueue m (FIN_frame sid).

(** One turn of the loop of [outgoing_task] once a frame has arrived: the new
    locals and the MORE frame to enqueue, or the error that ends the task. *)
Definition outgoing_task_turn (sid : Z) (t : StreamTask) (f : Frame) (now : Z)
    : res string (StreamTask * option Frame) :=
  let min_quantum := clamp 1 500 (target_remote_window t / 10) in
  if command (header f) =? CMD_FIN then Err "received remote FIN"%string
  else
    let bw := BwEstimate_sample powf (bw_estimate t) (Z.of_nat (length (body f))) now in
    if dropped t then Err "could not write to incoming"%string
    else
      let rcv := received t ++ body f in
      rw ← sub_u usize_bits (remote_window t) 1;
      let target := target_of_estimate (BwEstimate_read bw) in
      lhs ← add_u usize_bits rw min_quantum;
      if lhs <=? target then
        quantum ← sub_u usize_bits target rw;
        rw' ← add_u usize_bits rw quantum;
        Ok (mkTask (metadata t) rw' target bw rcv (dropped t),
            Some (MORE_frame sid quantum))
      else
        Ok (mkTask (metadata t) rw target bw rcv (dropped t), None).

(** The turn in place: receive from the buffer, run the turn, publish the
    estimate, enqueue the MORE.  [None]: no frame is waiting. *)
Definition run_outgoing_task (m : Mux) (sid now : Z) : option (res string Mux) :=
  t ← tasks m !! sid;
  '(f, _, bt) ← buffer_recv (buffer_table m) sid now;
  let m := set_table m bt in
  match outgoing_task_turn sid t f now with
  | Ok (t', more) =>
      let m := set_bw m (BwEstimate_read (bw_estimate t')) in
      let m := set_tasks m (<[sid := t']> (tasks m)) in
      Some (Ok (match more with Some f => enqueue m f | None => m end))
  | Err _ => Some (Ok (finish_task m sid))
  | Panic => Some Panic
  end.

(** One turn of [incoming_task] for a chunk the application wrote (at most
    8192 bytes, never empty): wait for the send window, then enqueue a PSH.
    [None]: no permit, the task stays pending. *)
Definition run_incoming_task (m : Mux) (sid : Z) (bts : list byte) : option Mux :=
  _ ← tasks m !! sid;
  bt ← wait_send_window (buffer_table m) sid;
  Some (enqueue (set_table m bt) (PSH_frame sid bts)).

(** The application drops its [Stream]. *)
Definition drop_stream (m : Mux) (sid : Z) : Mux :=
  set_tasks m (alter (λ t, mkTask (metadata t) (remote_window t)
    (target_remote_window t) (bw_estimate t) (received t) true) sid (tasks m)).

(** ** The three loops of [picomux_inner] *)

(** [open_req_loop]: the id is the first random draw not in the table. *)
Fixpoint find_free_id (t : BufferTable) (draws : list Z) : option Z :=
  match draws with
  | [] => None
  | k :: draws => if contains_id t k then find_free_id t draws else Some k
  end.

Definition handle_open_req (m : Mux) (md : list byte) (draws : list Z) (now : Z)
    : option (Z * Mux) :=
  sid ← find_free_id (buffer_table m) draws;
  Some (sid, create_stream (enqueue m (SYN_frame sid md)) sid md now).

(** [send_accepted.try_send(stream)]: a full queue drops the new stream, a
    closed one ends the session. *)
Definition try_send_accepted (m : Mux) (sid : Z) : res io_error Mux :=
  if accept_closed m then Err (IoError NotConnected "dead")
  else if decide (length (accepted m) < ACCEPT_CAPACITY)%nat
  then Ok (set_accepted m (accepted m ++ [sid]))
  else Ok (drop_stream m sid).

(** The body of the receive loop. *)
Definition handle_frame (m : Mux) (f : Frame) (now : Z) : res io_error Mux :=
  let sid := stream_id (header f) in
  let cmd := command (header f) in
  if cmd =? CMD_SYN then
    if contains_id (buffer_table m) sid
    then Err (IoError InvalidData "duplicate SYN")
    else try_send_accepted (create_stream m sid (body f) now) sid
  else if cmd =? CMD_MORE then
    if decide (length (body f) = 2%nat)
    then Ok (set_table m (incr_send_window (buffer_table m) sid (le_val (body f))))
    else Err (IoError InvalidData "corrupt window increase message")
  else if (cmd =? CMD_PSH) || (cmd =? CMD_FIN) then
    Ok (set_table m (send_to (buffer_table m) sid f now))
  else if cmd =? CMD_NOP then Ok m
  else if cmd =? CMD_PING then
    match ping_from_slice (body f) with
    | Some _ => Ok (enqueue m (Frame_new_empty 0 CMD_PONG))
    | None => Err (IoError InvalidData "invalid PING data")
    end
  else if cmd =? CMD_PONG then Ok (set_pongs m (S (pongs m)))
  else Err (IoError InvalidData "invalid command").

(** [ping_loop], as three transitions: the interval elapsed or a new
    configuration arrived (the PING is sent and the wait starts); a PONG is
    there; the timeout has passed. *)
Definition ping_body (info : LivenessConfig) : list byte :=
  ping_to_vec (cast_u 32 (ping_interval info)).

Definition ping_fire (m : Mux) (info : LivenessConfig) (now : Z) : Mux :=
  let m := enqueue m (mkFrame (mkHeader 1 CMD_PING
      (cast_u 16 (Z.of_nat (length (ping_body info)))) 0) (ping_body info)) in
  set_ping m (Some info) (PingWait info now) (last_ping m).

Definition ping_timer_due (m : Mux) (since now : Z) : bool :=
  match lc m with
  | Some info => ping_interval info * 1000000 <=? now - since
  | None => false
  end.

Definition ping_wait (m : Mux) (now : Z) : res io_error (option Mux) :=
  match ping_state m with
  | PingIdle => Ok None
  | PingWait info start =>
      match pongs m with
      | S n => Ok (Some (set_ping (set_pongs m n) (lc m) PingIdle (Some (now - start))))
      | O => if timeout info * 1000000 <=? now - start
             then Err (IoError TimedOut "ping-pong timed out")
             else Ok None
      end
  end.

(** ** The receive window *)

(** What the loop of [outgoing_task] maintains about [remote_window] and the
    target of the previous turn.  Each disjunct bounds how far the window can
    have sunk by how low the target was when no MORE was sent. *)
Definition window_inv (rw target : Z) : Prop :=
  rw <= MAX_WINDOW ∧ INIT_WINDOW <= target <= MAX_WINDOW ∧
  (10 <= rw ∨ (9 <= rw ∧ target <= 158) ∨ (8 <= rw ∧ target <= 22)).

Definition task_inv (t : StreamTask) : Prop :=
  window_inv (remote_window t) (target_remote_window t).

(** What a successful turn does to the window: it spends one frame, then
    either grants [q] more or nothing. *)
Lemma outgoing_task_turn_Ok sid t f now t' more :
  outgoing_task_turn sid t f now = Ok (t', more) →
  command (header f) ≠ CMD_FIN ∧ dropped t = false ∧ dropped t' = false ∧
  received t' = received t ++ body f ∧ metadata t' = metadata t ∧
  INIT_WINDOW <= target_remote_window t' <= MAX_WINDOW ∧
  match more with
  | Some g => let q := target_remote_window t' - (remote_window t - 1) in
      g = MORE_frame sid q ∧ remote_window t' = remote_window t - 1 + q ∧
      clamp 1 500 (target_remote_window t / 10) <= q
  | None => remote_window t' = remote_window t - 1 ∧
      target_remote_window t' <
        remote_window t' + clamp 1 500 (target_remote_window t / 10)
  end.
Proof.
  unfold outgoing_task_turn.
  destruct (Z.eqb_spec (command (header f)) CMD_FIN) as [|Hc]; [done|].
  destruct (dropped t) eqn:Hd; [done|].
  set (bw := BwEstimate_sample _ _ _ _). set (target := target_of_estimate _).
  pose proof (target_of_estimate_range (BwEstimate_read bw)) as Ht.
  fold target in Ht. clearbody target bw.
  intros H. apply bind_Ok in H as (rw & Hrw & H).
  apply bind_Ok in H as (lhs & Hl & H).
  unfold sub_u, add_u in *. repeat case_match; res_inv; repeat case_match; res_inv;
    rewrite ?Z.leb_le, ?Z.leb_gt in *; split_and!; try done; try lia.
  all: case_match; res_inv; split_and!; try done; lia.
Qed.

Lemma outgoing_task_turn_total sid t f now :
  1 <= remote_window t <= MAX_WINDOW →
  outgoing_task_turn sid t f now ≠ Panic.
Proof.
  intros Hrw. unfold outgoing_task_turn, MAX_WINDOW in *.
  destruct (_ =? CMD_FIN); [done|]. destruct (dropped t); [done|].
  rewrite sub_u_Ok by (unfold usize_bits; lia). cbn [mbind res_bind].
  set (target := target_of_estimate _).
  assert (Ht : INIT_WINDOW <= target <= MAX_WINDOW) by apply target_of_estimate_range.
  unfold INIT_WINDOW, MAX_WINDOW in Ht.
  rewrite add_u_Ok by (unfold clamp, usize_bits; lia). cbn [mbind res_bind].
  destruct (Z.leb_spec (remote_window t - 1 + clamp 1 500 (target_remote_window t / 10)) target)
    as [Hle|]; [|done].
  unfold clamp in Hle.
  rewrite sub_u_Ok by (unfold usize_bits; lia). cbn [mbind res_bind].
  rewrite add_u_Ok by (unfold usize_bits; lia). done.
Qed.

Lemma task_inv_turn sid t f now t' more :
  task_inv t → outgoing_task_turn sid t f now = Ok (t', more) → task_inv t'.
Proof.
  unfold task_inv, window_inv, INIT_WINDOW, MAX_WINDOW. intros Hinv H.
  apply outgoing_task_turn_Ok in H as (_ & _ & _ & _ & _ & Ht & H).
  unfold INIT_WINDOW, MAX_WINDOW, clamp in *.
  pose proof (Z.div_mod (target_remote_window t) 10 ltac:(lia)).
  pose proof (Z.mod_pos_bound (target_remote_window t) 10 ltac:(lia)).
  destruct more as [g|]; cbn beta zeta in H; [destruct H as (_ & H & _)|]; lia.
Qed.

(** The quantum of a MORE frame is at least one and survives its cast. *)
Lemma turn_more_bounds sid t f now t' more :
  task_inv t → outgoing_task_turn sid t f now = Ok (t', more) →
  Forall (λ g, ∃ q, g = MORE_frame sid q ∧ 1 <= q < 2 ^ 16) (option_list more).
Proof.
  intros Hinv H. apply outgoing_task_turn_Ok in H as (_ & _ & _ & _ & _ & Ht & H).
  destruct more as [g|]; simpl; [|by constructor].
  destruct H as (-> & _ & Hq). constructor; [|by constructor].
  eexists; split; [done|].
  unfold task_inv, window_inv, clamp, INIT_WINDOW, MAX_WINDOW in *. lia.
Qed.

(** A run of [outgoing_task] on a list of frames with their processing
    times. *)
Fixpoint outgoing_task_run (sid : Z) (t : StreamTask) (l : list (Frame * Z))
    : res string (StreamTask * list Frame) :=
  match l with
  | [] => Ok (t, [])
  | (f, now) :: l =>
      '(t, more) ← outgoing_task_turn sid t f now;
      '(t, out) ← outgoing_task_run sid t l;
      Ok (t, option_list more ++ out)
  end.

Lemma task_inv_fresh md e now : task_inv (fresh_task md e now).
Proof.
  unfold task_inv, window_inv, fresh_task, INIT_WINDOW, MAX_WINDOW;
    cbn [remote_window target_remote_window]. lia.
Qed.

(** The data a task hands to the application is exactly what the frames
    carried, in order. *)
Lemma outgoing_task_run_received sid l t t' out :
  outgoing_task_run sid t l = Ok (t', out) →
  received t' = received t ++ concat (map (λ p, body (fst p)) l).
Proof.
  revert t t' out; induction l as [|[f now] l IH]; intros t t' out; simpl.
  - intros [= <- <-]. by rewrite app_nil_r.
  - intros H. apply bind_Ok in H as ([t1 more] & H1 & H).
    apply bind_Ok in H as ([t2 out2] & H2 & [= <- <-]).
    apply IH in H2 as ->.
    apply outgoing_task_turn_Ok in H1 as (_ & _ & _ & -> & _).
    by rewrite app_assoc.
Qed.

(** The window arithmetic of [outgoing_task] is safe against any peer.
    Whatever frames arrive, however many, at whatever times and with whatever
    bandwidth estimates (NaN included), a task started with the initial
    window never underflows [remote_window] (which would abort the process),
    the window stays between 8 and 1500 frames after every turn, and
    every quantum granted fits the 16 bits it is cast to. *)
Theorem outgoing_task_window_safe sid md e now l :
  match outgoing_task_run sid (fresh_task md e now) l with
  | Ok (t, out) =>
      8 <= remote_window t <= MAX_WINDOW ∧
      Forall (λ f, ∃ q, f = MORE_frame sid q ∧ 1 <= q < 2 ^ 16) out
  | Err _ => True
  | Panic => False
  end.
Proof.
  cut (∀ t, task_inv t →
    match outgoing_task_run sid t l with
    | Ok (t', out) => task_inv t' ∧
        Forall (λ f, ∃ q, f = MORE_frame sid q ∧ 1 <= q < 2 ^ 16) out
    | Err _ => True
    | Panic => False
    end).
  { intros H. specialize (H _ (task_inv_fresh md e now)). case_match; try done.
    destruct a as [t out], H as [Hi Ho]. split; [|done].
    unfold task_inv, window_inv, MAX_WINDOW in *. lia. }
  clear. induction l as [|[f n] l IH]; intros t Hinv; simpl; [done|].
  destruct (outgoing_task_turn sid t f n) as [[t1 more]| |] eqn:E; simpl; [|done|].
  - specialize (IH _ (task_inv_turn _ _ _ _ _ _ Hinv E)).
    destruct (outgoing_task_run sid t1 l) as [[t2 out]| |]; simpl; try done.
    destruct IH as [IH1 IH2]. split; [done|]. apply Forall_app; split; [|done].
    by apply (turn_more_bounds _ _ _ _ _ _ Hinv E).
  - exfalso. revert E. apply outgoing_task_turn_total.
    unfold task_inv, window_inv, MAX_WINDOW in *. lia.
Qed.

(** Which frames end a session.  For any state and any frame, whoever
    sent it, the receive loop fails in exactly five cases (and never panics):
    a SYN for a live stream, a SYN when the accept handle is gone, a MORE that
    is not two bytes, a PING that does not parse, an unknown command. *)
Theorem handle_frame_errors m f now e :
  let c := command (header f) in
  let live := is_Some (inner (buffer_table m) !! stream_id (header f)) in
  handle_frame m f now ≠ Panic ∧
  (handle_frame m f now = Err e ↔
  (c = CMD_SYN ∧ live ∧ e = IoError InvalidData "duplicate SYN") ∨
  (c = CMD_SYN ∧ ¬ live ∧ accept_closed m = true ∧ e = IoError NotConnected "dead") ∨
  (c = CMD_MORE ∧ length (body f) ≠ 2%nat ∧
     e = IoError InvalidData "corrupt window increase message") ∨
  (c = CMD_PING ∧ ping_from_slice (body f) = None ∧
     e = IoError InvalidData "invalid PING data") ∨
  ((c ∉ [CMD_SYN; CMD_MORE; CMD_PSH; CMD_FIN; CMD_NOP; CMD_PING; CMD_PONG]) ∧
     e = IoError InvalidData "invalid command")).
Proof.
  cbn zeta. split.
  { unfold handle_frame, try_send_accepted. repeat case_match; done. }
  rewrite <- contains_id_true. rewrite !not_elem_of_cons.
  unfold handle_frame, try_send_accepted. cbn [create_stream set_tasks set_table accept_closed].
  set (c := command (header f)). clearbody c.
  destruct (Z.eqb_spec c CMD_SYN) as [->|].
  { destruct (contains_id _ _); [|destruct (accept_closed m) eqn:Ea; [|case_decide]];
      split; intros H'; simplify_eq; naive_solver. }
  destruct (Z.eqb_spec c CMD_MORE) as [->|].
  { case_decide; split; intros H'; simplify_eq; naive_solver. }
  destruct (Z.eqb_spec c CMD_PSH) as [->|]; [split; naive_solver|].
  destruct (Z.eqb_spec c CMD_FIN) as [->|]; [split; naive_solver|]. cbn [orb].
  destruct (Z.eqb_spec c CMD_NOP) as [->|]; [split; naive_solver|].
  destruct (Z.eqb_spec c CMD_PING) as [->|].
  { destruct (ping_from_slice _); split; intros H'; simplify_eq; naive_solver. }
  destruct (Z.eqb_spec c CMD_PONG) as [->|]; split; intros H'; simplify_eq; [naive_solver..| |naive_solver].
  repeat right. split_and!; [..|done]; try done. apply not_elem_of_nil.
Qed.

(** Frames of streams that are not in the table change nothing. *)
Lemma handle_frame_unknown m f now :
  inner (buffer_table m) !! stream_id (header f) = None →
  command (header f) = CMD_PSH ∨ command (header f) = CMD_FIN ∨
    (command (header f) = CMD_MORE ∧ length (body f) = 2%nat) →
  handle_frame m f now = Ok m.
Proof.
  intros Hn Hc. unfold handle_frame, send_to, incr_send_window. rewrite Hn.
  destruct Hc as [-> |[-> |[-> Hl]]]; simpl; rewrite ?decide_True by done;
    by destruct m as [[]].
Qed.

(** A session whose peer has gone silent dies at the timeout and not before. *)
Lemma ping_wait_silent m info start now :
  ping_state m = PingWait info start → pongs m = O →
  ping_wait m now = (if timeout info * 1000000 <=? now - start
                     then Err (IoError TimedOut "ping-pong timed out") else Ok None).
Proof. unfold ping_wait. by intros -> ->. Qed.
End with_params.

(** ** The application's handle

    [Stream::poll_read] first tosses a coin and otherwise forwards to the
    pipe; a ready result is reported to [on_read] (resp. [on_write]) with the
    size of the buffer.  The pipe is the caller's argument: [r] is what its
    poll returned. *)
Definition stream_poll_read (coin : bool) (r : poll (res io_error Z)) (buf_len : Z)
    : poll (res io_error Z) * option Z :=
  if coin then (Pending, None)
  else (r, if is_ready r then Some buf_len else None).

Definition stream_poll_write (r : poll (res io_error Z)) (buf_len : Z)
    : poll (res io_error Z) * option Z :=
  (r, if is_ready r then Some buf_len else None).
