(* ===== verification/MuxStream.v ===== *)
(** * The protocol of a single picomux stream

    What two honest endpoints maintain about one stream id, stated on the
    part of their states that concerns that stream: the task, the buffer, the
    frames on their way (queued or on the wire) and the bytes handed over by
    the application.  [MuxSystem] shows that the multiplexer's steps act on
    this view as the operations below. *)
From Stdlib Require Import ZArith Lia.
From S2P Require Import Prelude Frame Bdp BufferTable Mux.
Local Open Scope Z_scope.

(** ** Views *)

Record View := mkView {
  v_task : option StreamTask;
  v_buf : option abs_buffer;
  v_chan : list Frame;      (* frames of this stream sent and not yet read *)
  v_sent : list byte        (* bytes the application side has sent so far *)
}.

(** Weights of frames: data frames, granted window, FINs, SYNs. *)
Definition w_psh (f : Frame) : Z := if command (header f) =? CMD_PSH then 1 else 0.
Definition w_fin (f : Frame) : Z := if command (header f) =? CMD_FIN then 1 else 0.
Definition w_syn (f : Frame) : Z := if command (header f) =? CMD_SYN then 1 else 0.
Definition w_more (f : Frame) : Z :=
  if command (header f) =? CMD_MORE then le_val (body f) else 0.

Fixpoint tot (w : Frame → Z) (l : list Frame) : Z :=
  match l with [] => 0 | f :: l => w f + tot w l end.

Definition d_psh (f : Frame) : list byte :=
  if command (header f) =? CMD_PSH then body f else [].

Definition psh_bytes (l : list Frame) : list byte := concat (map d_psh l).

Definition is_data (f : Frame) : Prop :=
  command (header f) = CMD_PSH ∨ command (header f) = CMD_FIN.

Lemma tot_app w l1 l2 : tot w (l1 ++ l2) = tot w l1 + tot w l2.
Proof. induction l1 as [|f l1 IH]; simpl; lia. Qed.

Lemma tot_nonneg w l : (∀ f, 0 <= w f) → 0 <= tot w l.
Proof. intros H. induction l as [|f l IH]; simpl; [lia|]. specialize (H f). lia. Qed.

Lemma psh_bytes_app l1 l2 : psh_bytes (l1 ++ l2) = psh_bytes l1 ++ psh_bytes l2.
Proof. unfold psh_bytes. by rewrite map_app, concat_app. Qed.

Lemma psh_bytes_cons f l : psh_bytes (f :: l) = d_psh f ++ psh_bytes l.
Proof. done. Qed.

Lemma w_psh_nonneg f : 0 <= w_psh f.
Proof. unfold w_psh. case_match; lia. Qed.
Lemma w_fin_nonneg f : 0 <= w_fin f.
Proof. unfold w_fin. case_match; lia. Qed.
Lemma w_more_nonneg f : 0 <= w_more f.
Proof. unfold w_more. pose proof (le_val_range (body f)). case_match; lia. Qed.
Lemma w_syn_nonneg f : 0 <= w_syn f.
Proof. unfold w_syn. case_match; lia. Qed.

(** A queue holds only data frames and FINs, so its length is their number. *)
Lemma data_length l :
  Forall is_data l → Z.of_nat (length l) = tot w_psh l + tot w_fin l.
Proof.
  induction 1 as [|f l Hf _ IH]; [done|]. cbn [tot length].
  assert (w_psh f + w_fin f = 1) by (unfold w_psh, w_fin; destruct Hf as [-> | ->]; done).
  lia.
Qed.

(** ** The invariant *)

Definition side_ok (v : View) : Prop :=
  match v_task v, v_buf v with
  | Some t, Some b => task_inv t ∧ 0 <= abs_permits b ∧ Forall is_data (abs_frames b)
  | None, None => True
  | _, _ => False
  end.

Definition unused (v : View) : Prop :=
  v_task v = None ∧ v_buf v = None ∧ v_chan v = [] ∧ v_sent v = [].

(** The initiator [i] has sent its SYN and the peer [p] has not read it. *)
Definition opening (i p : View) : Prop :=
  unused p ∧
  ∃ syn post, v_chan i = syn :: post ∧ command (header syn) = CMD_SYN ∧
    tot w_syn post = 0 ∧ tot w_more post = 0 ∧
    psh_bytes post = v_sent i ∧
    match v_task i, v_buf i with
    | Some t, Some b =>
        remote_window t = INIT_WINDOW ∧ received t = [] ∧ abs_frames b = [] ∧
        abs_permits b + tot w_psh post = INIT_WINDOW ∧ tot w_fin post = 0
    | _, _ => tot w_psh post <= INIT_WINDOW ∧ tot w_fin post <= 1
    end.

(** The direction from [x] to [y] of an established stream. *)
Definition dir_ok (x y : View) : Prop :=
  tot w_syn (v_chan x) = 0 ∧
  ∀ t b, v_task y = Some t → v_buf y = Some b →
    let flight := abs_frames b ++ v_chan x in
    received t ++ psh_bytes flight = v_sent x ∧
    tot w_psh flight <= remote_window t ∧
    tot w_fin flight <= 1 ∧
    ∀ b', v_buf x = Some b' →
      abs_permits b' + tot w_psh flight + tot w_more (v_chan y) = remote_window t ∧
      tot w_fin flight = 0.

Definition stream_inv (u : bool) (a b : View) : Prop :=
  side_ok a ∧ side_ok b ∧
  if u then opening a b ∨ opening b a ∨ (dir_ok a b ∧ dir_ok b a)
  else unused a ∧ unused b.

Lemma stream_inv_sym u a b : stream_inv u a b → stream_inv u b a.
Proof. unfold stream_inv. destruct u; tauto. Qed.

Lemma stream_inv_unused : stream_inv false (mkView None None [] []) (mkView None None [] []).
Proof. by unfold stream_inv, side_ok, unused. Qed.

(** The step of a stream that another stream's step leaves alone needs no
    proof; the operations below are those on the stream itself. *)

Lemma side_ok_buf v t : side_ok v → v_task v = Some t → is_Some (v_buf v).
Proof. unfold side_ok. intros H E. rewrite E in H. destruct (v_buf v); [eauto|done]. Qed.

Lemma side_ok_none v : side_ok v → v_task v = None → v_buf v = None.
Proof. unfold side_ok. intros H E. rewrite E in H. by destruct (v_buf v). Qed.

Lemma stream_inv_used a b u t : stream_inv u a b → v_task a = Some t → u = true.
Proof. destruct u; [done|]. intros (_ & _ & (H & _) & _) E. congruence. Qed.

(** The weights of the frames an endpoint emits. *)
Lemma weights_SYN s md :
  w_psh (SYN_frame s md) = 0 ∧ w_fin (SYN_frame s md) = 0 ∧
  w_syn (SYN_frame s md) = 1 ∧ w_more (SYN_frame s md) = 0 ∧ d_psh (SYN_frame s md) = [].
Proof. done. Qed.
Lemma weights_PSH s l :
  w_psh (PSH_frame s l) = 1 ∧ w_fin (PSH_frame s l) = 0 ∧
  w_syn (PSH_frame s l) = 0 ∧ w_more (PSH_frame s l) = 0 ∧ d_psh (PSH_frame s l) = l.
Proof. done. Qed.
Lemma weights_FIN s :
  w_psh (FIN_frame s) = 0 ∧ w_fin (FIN_frame s) = 1 ∧
  w_syn (FIN_frame s) = 0 ∧ w_more (FIN_frame s) = 0 ∧ d_psh (FIN_frame s) = [].
Proof. done. Qed.
Lemma weights_MORE s q :
  1 <= q < 2 ^ 16 →
  w_psh (MORE_frame s q) = 0 ∧ w_fin (MORE_frame s q) = 0 ∧
  w_syn (MORE_frame s q) = 0 ∧ w_more (MORE_frame s q) = q ∧ d_psh (MORE_frame s q) = [].
Proof.
  intros Hq. split_and!; try done. unfold w_more, MORE_frame, Frame_new; simpl.
  rewrite cast_u_small by lia. apply le_val_small. simpl. lia.
Qed.

(** ** The operations of one side

    [a] is the side that acts, [b] the other. *)

Lemma inv_open u a b t md s :
  stream_inv u a b → u = false → task_inv t →
  remote_window t = INIT_WINDOW → received t = [] →
  stream_inv true
    (mkView (Some t) (Some (mkAbs [] INIT_WINDOW)) (v_chan a ++ [SYN_frame s md]) (v_sent a)) b.
Proof.
  intros (Ha & Hb & H) -> Ht Hrw Hrc. destruct H as [(_ & _ & Hc & Hs) Hub].
  rewrite Hc, Hs. split_and!; [|done|left].
  - split; [done|]. simpl. unfold INIT_WINDOW. split; [lia|constructor].
  - split; [done|]. exists (SYN_frame s md), []. simpl. split_and!; try done; lia.
Qed.

Lemma inv_drop u a b t :
  stream_inv u a b → v_task a = Some t →
  stream_inv u (mkView (Some (mkTask (metadata t) (remote_window t)
     (target_remote_window t) (bw_estimate t) (received t) true))
     (v_buf a) (v_chan a) (v_sent a)) b.
Proof.
  destruct a as [ta ba ca sa]. intros (Ha & Hb & H) E; simpl in *. subst ta.
  split_and!; [done|done|].
  destruct u; [|by destruct H as [[? _] _]].
  destruct H as [H|[[[? _] _]|[H1 H2]]]; [left; done|done|right; right].
  split; [done|]. destruct H2 as [H2 H3]. split; [done|].
  intros t' b' [= <-] Hb'. simpl. apply (H3 t b'); done.
Qed.

Lemma inv_send u a b t bf s bts :
  stream_inv u a b → v_task a = Some t → v_buf a = Some bf → 1 <= abs_permits bf →
  stream_inv u
    (mkView (Some t) (Some (mkAbs (abs_frames bf) (abs_permits bf - 1)))
       (v_chan a ++ [PSH_frame s bts]) (v_sent a ++ bts)) b.
Proof.
  intros Hinv Et Eb Hp. pose proof (stream_inv_used _ _ _ _ Hinv Et) as ->.
  destruct a as [ta ba ca sa], Hinv as (Ha & Hb & H); simpl in *. subst ta ba.
  destruct Ha as (Hti & _ & Hd).
  destruct (weights_PSH s bts) as (W1 & W2 & W3 & W4 & W5).
  split_and!; [split_and!; simpl; (done || lia)|done|].
  destruct H as [H|[H|[H1 H2]]].
  - left. destruct H as [Hu (syn & post & Hc & Hcs & Hsy & Hmo & Hpb & R1 & R2 & R3 & R4 & R5)]; simpl in *.
    split; [done|]. exists syn, (post ++ [PSH_frame s bts]); simpl. subst ca.
    rewrite !tot_app, psh_bytes_app, psh_bytes_cons; simpl.
    rewrite W1, W2, W3, W4, W5, app_nil_r, Hpb. split_and!; try done; lia.
  - destruct H as [Hu _]. by destruct Hu.
  - right; right. split.
    + destruct H1 as [Hs H1]; simpl in *. split; simpl.
      { rewrite tot_app; simpl. lia. }
      intros ty by_ Ety Eby. specialize (H1 ty by_ Ety Eby) as (D & P & F & Cr).
      specialize (Cr bf eq_refl) as [Cr Cf].
      rewrite app_assoc, psh_bytes_app, psh_bytes_cons, !(tot_app _ _ [_]); simpl.
      rewrite W1, W2, W5, app_nil_r. rewrite app_assoc, D.
      pose proof (tot_nonneg w_more (v_chan b) w_more_nonneg).
      split_and!; [done|lia|lia|]. intros b' [= <-]; simpl. lia.
    + destruct H2 as [Hs H2]; simpl in *. split; [done|].
      intros t' b' [= <-] [= <-]; simpl. specialize (H2 t bf eq_refl eq_refl) as (D & P & F & Cr).
      split_and!; [done..|]. intros b'' Eb''. specialize (Cr b'' Eb'').
      rewrite (tot_app w_more); cbn [tot]. rewrite W4. lia.
Qed.

Lemma inv_finish u a b t s :
  stream_inv u a b → v_task a = Some t →
  stream_inv u (mkView None None (v_chan a ++ [FIN_frame s]) (v_sent a)) b.
Proof.
  intros Hinv Et. pose proof (stream_inv_used _ _ _ _ Hinv Et) as ->.
  destruct a as [ta ba ca sa], Hinv as (Ha & Hb & H); simpl in *. subst ta.
  destruct ba as [bf|]; [|done].
  destruct (weights_FIN s) as (W1 & W2 & W3 & W4 & W5).
  split_and!; [done|done|].
  destruct H as [H|[[[? _] _]|[H1 H2]]]; [left|done|right; right].
  - destruct H as [Hu (syn & post & Hc & Hcs & Hsy & Hmo & Hpb & R1 & R2 & R3 & R4 & R5)].
    destruct Ha as (_ & Hp & _). simpl in *. subst ca.
    split; [done|]. exists syn, (post ++ [FIN_frame s]); simpl.
    rewrite !tot_app, psh_bytes_app, psh_bytes_cons; simpl.
    rewrite ?W1, ?W2, ?W3, ?W4, ?W5, ?app_nil_r. split_and!; try done; lia.
  - split.
    + destruct H1 as [Hs H1]; simpl in *. split; simpl.
      { rewrite tot_app; simpl. lia. }
      intros ty by_ Ety Eby. specialize (H1 ty by_ Ety Eby) as (D & P & F & Cr).
      specialize (Cr bf eq_refl) as [Cr Cf].
      rewrite app_assoc, psh_bytes_app, psh_bytes_cons, !(tot_app _ _ [_]); simpl.
      rewrite ?W1, ?W2, ?W5, ?app_nil_r. split_and!; [done|lia|lia|done].
    + destruct H2 as [Hs H2]. split; [done|]. simpl. done.
Qed.

Section turn.
Context (powf : f64 → f64 → f64).

Lemma inv_recv u a b t bf f q now t' more s :
  stream_inv u a b → v_task a = Some t → v_buf a = Some bf →
  abs_frames bf = f :: q → outgoing_task_turn powf s t f now = Ok (t', more) →
  stream_inv u (mkView (Some t') (Some (mkAbs q (abs_permits bf)))
                  (v_chan a ++ option_list more) (v_sent a)) b.
Proof.
  intros Hinv Et Eb Ef Hturn. pose proof (stream_inv_used _ _ _ _ Hinv Et) as ->.
  destruct a as [ta ba ca sa], Hinv as (Ha & Hb & H); simpl in *. subst ta ba.
  destruct Ha as (Hti & Hp & Hd). rewrite Ef in Hd. apply Forall_cons in Hd as [Hf Hd].
  pose proof (task_inv_turn _ _ _ _ _ _ _ Hti Hturn) as Hti'.
  pose proof (turn_more_bounds _ _ _ _ _ _ _ Hti Hturn) as Hmore.
  apply outgoing_task_turn_Ok in Hturn as (Hnf & _ & _ & Hrc & _ & _ & Hw).
  destruct Hf as [Hf|Hf]; [|done].
  assert (Wf : w_psh f = 1 ∧ w_fin f = 0 ∧ d_psh f = body f)
    by (unfold w_psh, w_fin, d_psh; by rewrite Hf).
  destruct Wf as (Wf1 & Wf2 & Wf3).
  assert (Hm : ∃ g, tot w_more (option_list more) = g ∧ 0 <= g ∧
      remote_window t' = remote_window t - 1 + g ∧ tot w_syn (option_list more) = 0 ∧
      tot w_psh (option_list more) = 0 ∧ tot w_fin (option_list more) = 0 ∧
      psh_bytes (option_list more) = []).
  { destruct more as [g|]; simpl in *.
    - destruct Hw as (Hg & Hw & Hcl). apply Forall_cons in Hmore as [(q' & -> & Hq') _].
      destruct (weights_MORE s q' Hq') as (W1 & W2 & W3 & W4 & W5).
      exists q'. unfold psh_bytes; simpl. rewrite ?W1, ?W2, ?W3, ?W4, ?W5.
      assert (q' = target_remote_window t' - (remote_window t - 1)) as Hqq.
      { rewrite Hg in W4. rewrite <- W4. apply weights_MORE.
        unfold task_inv, window_inv, INIT_WINDOW, MAX_WINDOW in *.
        unfold clamp in Hcl. lia. }
      split_and!; try done; lia.
    - exists 0. split_and!; try done; lia. }
  destruct Hm as (g & Hm1 & Hg0 & Hm2 & Hm3 & Hm4 & Hm5 & Hm6).
  split_and!; [split_and!; done|done|].
  destruct H as [H|[[[? _] _]|[H1 H2]]]; [|done|right; right].
  - destruct H as [_ (? & ? & _ & _ & _ & _ & _ & H)]. simpl in H.
    destruct H as (_ & _ & H & _). congruence.
  - split.
    + destruct H1 as [Hs H1]; simpl in *. split; simpl.
      { rewrite tot_app. lia. }
      intros ty by_ Ety Eby. specialize (H1 ty by_ Ety Eby) as (D & P & F & Cr).
      specialize (Cr bf eq_refl) as [Cr Cf].
      rewrite app_assoc, psh_bytes_app, !(tot_app _ _ (option_list more)), Hm6, app_nil_r.
      split_and!; [done|lia|lia|]. intros b' [= <-]; simpl. lia.
    + destruct H2 as [Hs H2]; simpl in *. split; [done|].
      intros t0 b' [= <-] [= <-]; simpl.
      specialize (H2 t bf eq_refl eq_refl) as (D & P & F & Cr). rewrite Ef in *.
      simpl in *. rewrite psh_bytes_cons in D. rewrite Wf1, Wf2 in *.
      split_and!.
      * by rewrite Hrc, <- app_assoc, <- Wf3.
      * lia.
      * lia.
      * intros b'' Eb''. specialize (Cr b'' Eb''). rewrite (tot_app w_more). lia.
Qed.
End turn.

(** ** Reading a frame: the head [f] of the other side's channel *)

Lemma inv_queue_bound u a b bf :
  stream_inv u a b → v_buf a = Some bf →
  Z.of_nat (length (abs_frames bf)) <= MAX_WINDOW + 1.
Proof.
  intros (Ha & _ & H) Eb. unfold side_ok in Ha. rewrite Eb in Ha.
  destruct (v_task a) as [t|] eqn:Et; [|done]. destruct Ha as (Hti & Hp & Hd).
  rewrite data_length by done.
  unfold task_inv, window_inv in Hti. unfold MAX_WINDOW, INIT_WINDOW in *.
  destruct u; [|by destruct H as [[? _] _]; congruence].
  destruct H as [H|[[[? _] _]|[_ [_ H]]]]; [|congruence|].
  - destruct H as [_ (? & ? & _ & _ & _ & _ & _ & H)]. rewrite Et, Eb in H.
    destruct H as (_ & _ & -> & _). simpl. lia.
  - specialize (H t bf Et Eb) as (_ & H1 & H2 & _). rewrite !tot_app in *.
    pose proof (tot_nonneg w_psh (v_chan b) w_psh_nonneg).
    pose proof (tot_nonneg w_fin (v_chan b) w_fin_nonneg). lia.
Qed.

(** A frame other than a SYN can only be read once the stream is
    established. *)
Lemma inv_established u a b f rest :
  stream_inv u a b → v_chan b = f :: rest → command (header f) ≠ CMD_SYN →
  u = true ∧ dir_ok a b ∧ dir_ok b a.
Proof.
  intros (_ & _ & H) Ec Hf. destruct u.
  - destruct H as [[(_ & _ & Hc & _) _]|[[_ (syn & post & Hc & Hs & _)]|H]]; [congruence| |done].
    rewrite Ec in Hc. simplify_eq.
  - destruct H as [_ (_ & _ & Hc & _)]. congruence.
Qed.

Lemma inv_read_data u a b bf f rest :
  stream_inv u a b → v_buf a = Some bf → v_chan b = f :: rest → is_data f →
  stream_inv u (mkView (v_task a) (Some (mkAbs (abs_frames bf ++ [f]) (abs_permits bf)))
                  (v_chan a) (v_sent a))
    (mkView (v_task b) (v_buf b) rest (v_sent b)).
Proof.
  intros Hinv Eb Ec Hf.
  assert (Hns : command (header f) ≠ CMD_SYN) by (destruct Hf as [-> | ->]; done).
  destruct (inv_established _ _ _ _ _ Hinv Ec Hns) as (-> & H1 & H2).
  destruct Hinv as (Ha & Hb & _). split_and!.
  - unfold side_ok in *. rewrite Eb in Ha. simpl in *. destruct (v_task a); [|done].
    destruct Ha as (? & ? & ?). split_and!; [done|done|]. simpl. by apply Forall_app_2; [|constructor].
  - done.
  - right; right. split.
    + destruct H1 as [Hs H1]. split; [done|]. simpl. intros t' b' Et' Eb'.
      specialize (H1 t' b' Et' Eb') as (D & P & F & Cr). rewrite Ec in Cr. simpl in Cr.
      split_and!; try done. intros b'' [= <-]; simpl. specialize (Cr bf Eb).
      assert (w_more f = 0) by (unfold w_more; destruct Hf as [-> | ->]; done). lia.
    + destruct H2 as [Hs H2]. rewrite Ec in *. split; simpl.
      { simpl in Hs. pose proof (w_syn_nonneg f).
        pose proof (tot_nonneg w_syn rest w_syn_nonneg). lia. }
      intros t' b' Et' [= <-]; simpl. rewrite <- app_assoc. simpl.
      apply (H2 t' bf Et' Eb).
Qed.

Lemma inv_read_more u a b bf f rest :
  stream_inv u a b → v_buf a = Some bf → v_chan b = f :: rest →
  command (header f) = CMD_MORE →
  stream_inv u (mkView (v_task a) (Some (mkAbs (abs_frames bf) (abs_permits bf + le_val (body f))))
                  (v_chan a) (v_sent a))
    (mkView (v_task b) (v_buf b) rest (v_sent b)).
Proof.
  intros Hinv Eb Ec Hf.
  destruct (inv_established _ _ _ _ _ Hinv Ec ltac:(by rewrite Hf)) as (-> & H1 & H2).
  assert (W : w_psh f = 0 ∧ w_fin f = 0 ∧ w_syn f = 0 ∧ w_more f = le_val (body f) ∧ d_psh f = [])
    by (unfold w_psh, w_fin, w_syn, w_more, d_psh; by rewrite Hf).
  destruct W as (W1 & W2 & W3 & W4 & W5).
  pose proof (le_val_range (body f)).
  destruct Hinv as (Ha & Hb & _). split_and!.
  - unfold side_ok in *. rewrite Eb in Ha. simpl in *. destruct (v_task a); [|done].
    destruct Ha as (? & ? & ?). split_and!; simpl; (done || lia).
  - done.
  - right; right. split.
    + destruct H1 as [Hs H1]. split; [done|]. simpl. intros t' b' Et' Eb'.
      specialize (H1 t' b' Et' Eb') as (D & P & F & Cr). rewrite Ec in Cr. simpl in Cr.
      split_and!; try done. intros b'' [= <-]; simpl. specialize (Cr bf Eb). lia.
    + destruct H2 as [Hs H2]. rewrite Ec in *. simpl in Hs. split; simpl; [lia|].
      intros t' b' Et' [= <-]; simpl. specialize (H2 t' bf Et' Eb) as (D & P & F & Cr).
      rewrite psh_bytes_app, psh_bytes_cons, W5 in D. rewrite psh_bytes_app.
      rewrite !tot_app in *. simpl in *. split_and!; [done|lia|lia|].
      intros b'' Eb''. specialize (Cr b'' Eb''). lia.
Qed.

(** A frame for a stream this side has already finished is ignored. *)
Lemma inv_read_dead u a b f rest :
  stream_inv u a b → v_buf a = None → v_chan b = f :: rest →
  command (header f) ≠ CMD_SYN →
  stream_inv u a (mkView (v_task b) (v_buf b) rest (v_sent b)).
Proof.
  intros Hinv Eb Ec Hns.
  destruct (inv_established _ _ _ _ _ Hinv Ec Hns) as (-> & H1 & H2).
  destruct Hinv as (Ha & Hb & _). split_and!; [done|done|]. right; right. split.
  - destruct H1 as [Hs H1]. split; [done|]. simpl. intros t' b' Et' Eb'.
    specialize (H1 t' b' Et' Eb') as (D & P & F & Cr).
    split_and!; try done. intros b'' Eb''. congruence.
  - destruct H2 as [Hs H2]. rewrite Ec in *. simpl in Hs. split; simpl.
    { pose proof (w_syn_nonneg f). pose proof (tot_nonneg w_syn rest w_syn_nonneg). lia. }
    intros t' b' Et' Eb'. congruence.
Qed.

Lemma inv_read_syn_free u a b f rest :
  stream_inv u a b → v_chan b = f :: rest → command (header f) = CMD_SYN →
  opening b a ∧ v_buf a = None ∧ u = true.
Proof.
  intros (Ha & _ & H) Ec Hf. destruct u; [|destruct H as [_ (_ & _ & Hc & _)]; congruence].
  destruct H as [[(_ & _ & Hc & _) _]|[H|[_ [Hs _]]]]; [congruence| |].
  - split; [done|]. destruct H as [(Hn & Hbn & _) _]. done.
  - rewrite Ec in Hs. simpl in Hs. unfold w_syn in Hs at 1. rewrite Hf in Hs. simpl in Hs.
    pose proof (tot_nonneg w_syn rest w_syn_nonneg). lia.
Qed.

Lemma inv_read_syn u a b f rest t :
  stream_inv u a b → v_chan b = f :: rest → command (header f) = CMD_SYN →
  task_inv t → remote_window t = INIT_WINDOW → received t = [] →
  stream_inv u (mkView (Some t) (Some (mkAbs [] INIT_WINDOW)) (v_chan a) (v_sent a))
    (mkView (v_task b) (v_buf b) rest (v_sent b)).
Proof.
  intros Hinv Ec Hf Ht Hrw Hrc.
  destruct (inv_read_syn_free _ _ _ _ _ Hinv Ec Hf) as (Hop & _ & ->).
  destruct Hinv as (_ & Hb & _).
  destruct Hop as [(_ & _ & Hca & Hsa) (syn & post & Hc & Hcs & Hsy & Hmo & Hpb & Hr)].
  rewrite Ec in Hc. simplify_eq. split_and!; [|done|right; right; split].
  - unfold side_ok; simpl. split_and!; [done|by vm_compute|constructor].
  - split; simpl; [by rewrite Hca|]. intros t' b' Et' Eb'. rewrite Et', Eb' in Hr.
    destruct Hr as (R1 & R2 & R3 & R4 & R5). rewrite R2, R3, Hca, Hsa; simpl.
    split_and!; [done|unfold INIT_WINDOW in *; lia|lia|].
    intros b'' [= <-]; simpl. lia.
  - split; simpl; [done|]. intros t' b' [= <-] [= <-]; simpl. rewrite Hrc, Hca. simpl.
    destruct (v_task b) as [tb|] eqn:Etb, (v_buf b) as [bb|] eqn:Ebb;
      unfold side_ok in Hb; rewrite Etb, Ebb in Hb; try done.
    + destruct Hr as (R1 & R2 & R3 & R4 & R5), Hb as (_ & Hp & _).
      split_and!; [done|lia|lia|]. intros b'' [= <-]. lia.
    + split_and!; [done|lia|lia|done].
Qed.

(** ** What the invariant says about data and credit *)

(** The bytes delivered so far and those still in flight make up what the
    other side has sent. *)
Lemma inv_received u a b t bf :
  stream_inv u a b → v_task a = Some t → v_buf a = Some bf →
  received t ++ psh_bytes (abs_frames bf ++ v_chan b) = v_sent b.
Proof.
  intros Hinv Et Eb. pose proof (stream_inv_used _ _ _ _ Hinv Et) as ->.
  destruct Hinv as (_ & _ & [H|[[[? _] _]|[_ [_ H]]]]); [|congruence|].
  - destruct H as [(_ & _ & Hc & Hs) (? & ? & _ & _ & _ & _ & _ & H)].
    rewrite Et, Eb in H. destruct H as (_ & -> & -> & _). by rewrite Hc, Hs.
  - by apply H.
Qed.

(** Credit is conserved: permits, data in flight and grants in flight add up
    to the receiver's window, which is never below 8 frames. *)
Lemma inv_credit u a b ta tb ba bb :
  stream_inv u a b → v_task a = Some ta → v_task b = Some tb →
  v_buf a = Some ba → v_buf b = Some bb →
  abs_permits ba + tot w_psh (abs_frames bb ++ v_chan a) + tot w_more (v_chan b)
    = remote_window tb ∧ 8 <= remote_window tb.
Proof.
  intros Hinv Ea Eb Fa Fb. pose proof (stream_inv_used _ _ _ _ Hinv Ea) as ->.
  destruct Hinv as (_ & Hb & [[[? _] _]|[[[? _] _]|[[_ H] _]]]); [congruence..|].
  specialize (H tb bb Eb Fb) as (_ & _ & _ & H). destruct (H ba Fa) as [H1 _].
  split; [done|]. unfold side_ok in Hb. rewrite Eb, Fb in Hb.
  destruct Hb as [Hb _]. unfold task_inv, window_inv in Hb. lia.
Qed.
