(* ===== verification/MuxSystem.v ===== *)
(** * Two multiplexers joined by a connection

    The whole picomux system as a step relation: two endpoints running the
    operations of [Mux], and one FIFO byte stream per direction, as the TCP
    connection below them provides.  Each step is one turn of one loop of one
    endpoint, so every interleaving of the tasks is a run.  Bytes an
    application hands over are recorded in [sent], from the last time the id of
    the stream was opened.

    The relation takes a predicate on opens.  Without one ([any_open]) it is what
    the code allows.  The theorems are about [lucky] opens: metadata that fits the
    16 bits of its length, and a random id that, unless it is in the own table
    (which the code checks itself), is not in use at the other end or on its way
    either.  Ids may be used again later.  What an unlucky open does is in
    [Demo.unlucky_open] and [frame_oversized_desync]. *)
From Stdlib Require Import ZArith Lia.
From S2P Require Import Prelude Frame Bdp BufferTable Mux MuxStream.
Local Open Scope Z_scope.

Record Sys := mkSys {
  mux : bool → Mux;
  wire : bool → list byte;        (* written by the side, not yet read *)
  sent : bool → Z → list byte;    (* history: bytes sent per stream since it was opened *)
  used : gset Z                   (* history: ids opened so far *)
}.

Definition upd {A} (f : bool → A) (sd : bool) (x : A) : bool → A :=
  λ b, if Bool.eqb b sd then x else f b.

Definition sys_init : Sys := mkSys (λ _, Mux_new) (λ _, []) (λ _ _, []) ∅.

Section system.
Context (powf : f64 → f64 → f64).
Context (ping_to_vec : Z → list byte) (ping_from_slice : list byte → option Z).

Abbreviation handle_frame := (handle_frame ping_from_slice).
Abbreviation run_outgoing_task := (run_outgoing_task powf).

(** ** Frames in flight *)

Definition rel (s : Z) (f : Frame) : Prop :=
  stream_id (header f) = s ∧ command (header f) ∈ [CMD_SYN; CMD_FIN; CMD_PSH; CMD_MORE].

#[global] Instance rel_dec s f : Decision (rel s f).
Proof. unfold rel. apply _. Defined.

(** The frames that the bytes of a wire begin with; every frame has a byte. *)
Fixpoint frames_on (fuel : nat) (bs : list byte) : list Frame :=
  match fuel with
  | O => []
  | S fuel => match Frame_read bs with Ok (f, rest) => f :: frames_on fuel rest | _ => [] end
  end.
Definition wire_frames (bs : list byte) : list Frame := frames_on (length bs) bs.

(** The frames of a stream that the side has enqueued and the other has not read. *)
Definition in_flight (σ : Sys) (sd : bool) (s : Z) : list Frame :=
  filter (rel s) (wire_frames (wire σ sd) ++ outgoing (mux σ sd)).

(** ** Steps *)

(** Which opens are considered. *)
Definition open_pred : Type := Sys → bool → Z → list byte → Prop.
Definition any_open : open_pred := λ _ _ _ _, True.
Definition lucky : open_pred := λ σ sd sid md,
  Z.of_nat (length md) < 2 ^ 16 ∧
  (contains_id (buffer_table (mux σ sd)) sid = true ∨
   contains_id (buffer_table (mux σ (negb sd))) sid = false ∧
   in_flight σ sd sid = [] ∧ in_flight σ (negb sd) sid = []).

(** A new stream has sent nothing yet. *)
Definition restart (snt : bool → Z → list byte) (sid : Z) : bool → Z → list byte :=
  λ sd s, if decide (s = sid) then [] else snt sd s.

Inductive step_under (open_ok : open_pred) (σ : Sys) : Sys → Prop :=
| step_open sd md draws now sid m' :
    Forall (λ k, 0 <= k < 2 ^ 32) draws →
    handle_open_req (mux σ sd) md draws now = Some (sid, m') →
    open_ok σ sd sid md →
    step_under open_ok σ (mkSys (upd (mux σ) sd m') (wire σ) (restart (sent σ) sid) ({[sid]} ∪ used σ))
| step_write sd bts m' :
    outgoing_loop_turn (mux σ sd) = Some (bts, m') →
    step_under open_ok σ (mkSys (upd (mux σ) sd m') (upd (wire σ) sd (wire σ sd ++ bts)) (sent σ) (used σ))
| step_read sd f rest now m' :
    Frame_read (wire σ (negb sd)) = Ok (f, rest) →
    handle_frame (mux σ sd) f now = Ok m' →
    step_under open_ok σ (mkSys (upd (mux σ) sd m') (upd (wire σ) (negb sd) rest) (sent σ) (used σ))
| step_incoming_task sd sid bts m' :
    0 < Z.of_nat (length bts) <= MSS →
    run_incoming_task (mux σ sd) sid bts = Some m' →
    step_under open_ok σ (mkSys (upd (mux σ) sd m') (wire σ)
              (upd (sent σ) sd (λ s, if decide (s = sid) then sent σ sd s ++ bts
                                     else sent σ sd s)) (used σ))
| step_outgoing_task sd sid now m' :
    run_outgoing_task (mux σ sd) sid now = Some (Ok m') →
    step_under open_ok σ (mkSys (upd (mux σ) sd m') (wire σ) (sent σ) (used σ))
| step_drop sd sid :
    step_under open_ok σ (mkSys (upd (mux σ) sd (drop_stream (mux σ sd) sid)) (wire σ) (sent σ) (used σ))
| step_finish sd sid t :
    tasks (mux σ sd) !! sid = Some t →
    step_under open_ok σ (mkSys (upd (mux σ) sd (finish_task (mux σ sd) sid)) (wire σ) (sent σ) (used σ))
| step_accept sd sid q :
    accepted (mux σ sd) = sid :: q →
    step_under open_ok σ (mkSys (upd (mux σ) sd (set_accepted (mux σ sd) q)) (wire σ) (sent σ) (used σ))
| step_ping sd info now :
    step_under open_ok σ (mkSys (upd (mux σ) sd (ping_fire ping_to_vec (mux σ sd) info now))
              (wire σ) (sent σ) (used σ))
| step_pong sd now m' :
    ping_wait (mux σ sd) now = Ok (Some m') →
    step_under open_ok σ (mkSys (upd (mux σ) sd m') (wire σ) (sent σ) (used σ)).

Definition step : Sys → Sys → Prop := step_under lucky.
Definition reachable (σ : Sys) : Prop := rtc step sys_init σ.

(** ** The view of one stream *)

Definition chan (w : list Frame) (m : Mux) (s : Z) : list Frame :=
  filter (rel s) (w ++ outgoing m).

Definition view (w : bool → list Frame) (σ : Sys) (s : Z) (sd : bool) : View :=
  mkView (tasks (mux σ sd) !! s) (abs (buffer_table (mux σ sd)) s)
    (chan (w sd) (mux σ sd) s) (sent σ sd s).

(** The frames an endpoint emits. *)
Definition honest (f : Frame) : Prop :=
  Frame_wf f ∧
  (command (header f) ∈ [CMD_SYN; CMD_FIN; CMD_PSH; CMD_PONG] ∨
   (command (header f) = CMD_MORE ∧ length (body f) = 2%nat) ∨
   (command (header f) = CMD_PING ∧ ∃ x, body f = ping_to_vec x)).

Definition sys_inv (σ : Sys) : Prop :=
  ∃ w : bool → list Frame,
    (∀ sd, wire σ sd = concat (map Frame_bytes (w sd))) ∧
    (∀ sd, Forall honest (w sd ++ outgoing (mux σ sd))) ∧
    (∀ s, s ∈ used σ → 0 <= s < 2 ^ 32) ∧
    (∀ s sd, stream_inv (bool_decide (s ∈ used σ)) (view w σ s sd) (view w σ s (negb sd))).

Lemma upd_eq {A} (f : bool → A) sd x : upd f sd x sd = x.
Proof. unfold upd. by rewrite Bool.eqb_reflx. Qed.
Lemma upd_negb {A} (f : bool → A) sd x : upd f sd x (negb sd) = f (negb sd).
Proof. unfold upd. by destruct sd. Qed.

Lemma other_side (sd sd' : bool) : sd' ≠ sd → sd = negb sd'.
Proof. by destruct sd, sd'. Qed.

Lemma sys_inv_init : sys_inv sys_init.
Proof.
  exists (λ _, []). split_and!; [done|by constructor|set_solver|].
  intros s sd. rewrite bool_decide_eq_false_2 by set_solver.
  apply stream_inv_unused.
Qed.

(** A step of side [sd] that only touches its own multiplexer and appends
    [em] to its outgoing queue preserves the invariant when, for every
    stream, it acts on the view as an operation of [MuxStream] does. *)
Lemma sys_inv_local σ sd m' em snt' used' :
  sys_inv σ →
  outgoing m' = outgoing (mux σ sd) ++ em → Forall honest em →
  (∀ s, s ∈ used' → 0 <= s < 2 ^ 32) →
  (∀ s c b,
    stream_inv (bool_decide (s ∈ used σ))
      (mkView (tasks (mux σ sd) !! s) (abs (buffer_table (mux σ sd)) s) c (sent σ sd s)) b →
    stream_inv (bool_decide (s ∈ used'))
      (mkView (tasks m' !! s) (abs (buffer_table m') s) (c ++ filter (rel s) em) (snt' s)) b) →
  sys_inv (mkSys (upd (mux σ) sd m') (wire σ) (upd (sent σ) sd snt') used').
Proof.
  intros (w & Hw & Hwf & Hu & Hs) Hout Hem Hu' Hstep. exists w. simpl. split_and!; [done| |done|].
  - intros sd'. unfold upd. destruct (Bool.eqb_spec sd' sd) as [->|]; [|done].
    rewrite Hout, app_assoc. apply Forall_app; auto.
  - assert (H : ∀ s, stream_inv (bool_decide (s ∈ used'))
        (view w (mkSys (upd (mux σ) sd m') (wire σ) (upd (sent σ) sd snt') used') s sd)
        (view w (mkSys (upd (mux σ) sd m') (wire σ) (upd (sent σ) sd snt') used') s (negb sd))).
    { intros s. unfold view; simpl. rewrite !upd_eq, !upd_negb.
      unfold chan at 1. rewrite Hout, app_assoc, filter_app.
      apply Hstep. apply Hs. }
    intros s sd'. destruct (Bool.eqb_spec sd' sd) as [->|Hne]; [apply H|].
    pose proof (other_side sd sd' Hne) as E. specialize (H s). rewrite E, negb_involutive in H.
    apply stream_inv_sym. by rewrite E, ?negb_involutive.
Qed.

Lemma sys_inv_local' σ sd m' em used' :
  sys_inv σ →
  outgoing m' = outgoing (mux σ sd) ++ em → Forall honest em →
  (∀ s, s ∈ used' → 0 <= s < 2 ^ 32) →
  (∀ s c b,
    stream_inv (bool_decide (s ∈ used σ))
      (mkView (tasks (mux σ sd) !! s) (abs (buffer_table (mux σ sd)) s) c (sent σ sd s)) b →
    stream_inv (bool_decide (s ∈ used'))
      (mkView (tasks m' !! s) (abs (buffer_table m') s) (c ++ filter (rel s) em) (sent σ sd s)) b) →
  sys_inv (mkSys (upd (mux σ) sd m') (wire σ) (sent σ) used').
Proof.
  intros H1 H2 H3 H4 H5.
  pose proof (sys_inv_local σ sd m' em (sent σ sd) used' H1 H2 H3 H4 H5) as (w & Hw & Hwf & Hu & Hs).
  exists w. split_and!; try done. intros s sd'. specialize (Hs s sd').
  unfold view in *; simpl in *.
  assert (E : ∀ b, upd (sent σ) sd (sent σ sd) b = sent σ b).
  { intros b. unfold upd. by destruct (Bool.eqb_spec b sd) as [->|]. }
  by rewrite !E in Hs.
Qed.

Lemma filter_not_rel s em : Forall (λ f, ∀ s, ¬ rel s f) em → filter (rel s) em = [].
Proof.
  induction 1 as [|f em Hf _ IH]; [done|]. rewrite filter_cons. by rewrite decide_False.
Qed.

(** Steps that leave every stream alone. *)
Lemma sys_inv_frame σ sd m' em :
  sys_inv σ →
  outgoing m' = outgoing (mux σ sd) ++ em → Forall honest em →
  Forall (λ f, ∀ s, ¬ rel s f) em →
  tasks m' = tasks (mux σ sd) → buffer_table m' = buffer_table (mux σ sd) →
  sys_inv (mkSys (upd (mux σ) sd m') (wire σ) (sent σ) (used σ)).
Proof.
  intros Hinv Ho Hwf Hem Ht Hb. eapply sys_inv_local'; try done.
  { by destruct Hinv as (_ & _ & _ & ? & _). }
  intros s c b H. rewrite Ht, Hb.
  by rewrite filter_not_rel, app_nil_r.
Qed.

Lemma filter_rel_ne s sid l :
  s ≠ sid → Forall (λ f, stream_id (header f) = sid) l → filter (rel s) l = [].
Proof.
  intros Hne. induction 1 as [|f l Hf _ IH]; [done|].
  rewrite filter_cons, decide_False; [done|]. intros [? _]. congruence.
Qed.

Lemma filter_rel_one s f : rel s f → filter (rel s) [f] = [f].
Proof. intros. by rewrite filter_cons, decide_True. Qed.

(** A frame of another command than the four belongs to no stream. *)
Lemma not_rel f c :
  command (header f) = c → bool_decide (c ∈ [CMD_SYN; CMD_FIN; CMD_PSH; CMD_MORE]) = false →
  ∀ s, ¬ rel s f.
Proof. intros <- H s [_ Hr]. by apply bool_decide_eq_false in H. Qed.

Lemma rel_SYN s md : rel s (SYN_frame s md).
Proof. split; [done|]. set_solver. Qed.
Lemma rel_PSH s l : rel s (PSH_frame s l).
Proof. split; [done|]. set_solver. Qed.
Lemma rel_FIN s : rel s (FIN_frame s).
Proof. split; [done|]. set_solver. Qed.
Lemma rel_MORE s q : rel s (MORE_frame s q).
Proof. split; [done|]. set_solver. Qed.

Lemma honest_SYN s md :
  0 <= s < 2 ^ 32 → Z.of_nat (length md) < 2 ^ 16 → honest (SYN_frame s md).
Proof. split; [by apply (Frame_new_wf s CMD_SYN md)|left; set_solver]. Qed.
Lemma honest_PSH s l : 0 <= s < 2 ^ 32 → Z.of_nat (length l) <= MSS → honest (PSH_frame s l).
Proof.
  unfold MSS. split; [apply (Frame_new_wf s CMD_PSH l); [done|done|lia]|left; set_solver].
Qed.
Lemma honest_FIN s : 0 <= s < 2 ^ 32 → honest (FIN_frame s).
Proof. split; [by apply (Frame_new_empty_wf s CMD_FIN)|left; set_solver]. Qed.
Lemma honest_MORE s q : 0 <= s < 2 ^ 32 → honest (MORE_frame s q).
Proof.
  split; [|right; left; split; [done|apply length_le_bytes]].
  apply Frame_new_wf; [done|done|]. rewrite length_le_bytes. lia.
Qed.

Hint Resolve rel_SYN rel_PSH rel_FIN rel_MORE honest_SYN honest_PSH honest_FIN honest_MORE : geph.

Lemma sys_inv_range σ : sys_inv σ → ∀ s, s ∈ used σ → 0 <= s < 2 ^ 32.
Proof. by intros (_ & _ & _ & ? & _). Qed.

(** A stream with a task was opened. *)
Lemma sys_inv_task σ sd s t :
  sys_inv σ → tasks (mux σ sd) !! s = Some t → s ∈ used σ.
Proof.
  intros (w & _ & _ & _ & Hs) Ht. specialize (Hs s sd).
  eapply stream_inv_used in Hs; [|simpl; exact Ht].
  by apply bool_decide_eq_true in Hs.
Qed.

Lemma sys_inv_task_ok σ sd s t :
  sys_inv σ → tasks (mux σ sd) !! s = Some t → task_inv t.
Proof.
  intros (w & _ & _ & _ & Hs) Ht. destruct (Hs s sd) as (Ha & _ & _).
  unfold side_ok, view in Ha; simpl in Ha. rewrite Ht in Ha.
  destruct (abs _ _); [|done]. by destruct Ha.
Qed.

(** ** Steps that act on one stream of one side *)

Lemma inv_open_unused σ sd md draws now sid m' :
  sys_inv σ → handle_open_req (mux σ sd) md draws now = Some (sid, m') →
  sid ∉ used σ → 0 <= sid < 2 ^ 32 → Z.of_nat (length md) < 2 ^ 16 →
  sys_inv (mkSys (upd (mux σ) sd m') (wire σ) (sent σ) ({[sid]} ∪ used σ)).
Proof.
  unfold handle_open_req. intros Hinv H Hu Hr Hl.
  destruct (find_free_id _ _) as [k|]; simplify_eq/=.
  eapply (sys_inv_local' _ _ _ [SYN_frame sid md]); try done.
  - constructor; [|done]. auto with geph.
  - intros s Hs. apply elem_of_union in Hs as [->%elem_of_singleton|Hs]; [done|].
    by eapply sys_inv_range.
  - intros s c b Hs. simpl. rewrite abs_create, lookup_insert. destruct (decide (sid = s)) as [<-|Hne].
    + rewrite (bool_decide_eq_true_2 (sid ∈ {[sid]} ∪ used σ)) by set_solver.
      rewrite (filter_rel_one sid) by auto with geph.
      rewrite bool_decide_eq_false_2 in Hs by done.
      eapply (inv_open false (mkView _ _ _ _)); [exact Hs|done|apply task_inv_fresh|done|done].
    + rewrite (bool_decide_ext (s ∈ {[sid]} ∪ used σ) (s ∈ used σ)) by set_solver.
      rewrite (filter_rel_ne s sid) by (done || by repeat constructor).
      by rewrite app_nil_r.
Qed.

Lemma frames_on_bytes w fuel :
  Forall honest w → (length w <= fuel)%nat → frames_on fuel (concat (map Frame_bytes w)) = w.
Proof.
  revert fuel. induction w as [|f w IH]; intros fuel Hh Hf; [by destruct fuel|].
  destruct fuel as [|fuel]; simpl in Hf; [lia|]. apply Forall_cons in Hh as [[Hwf _] Hh].
  cbn [map concat frames_on]. rewrite Frame_read_bytes by done. by rewrite IH by (done || lia).
Qed.
Lemma wire_frames_bytes w : Forall honest w → wire_frames (concat (map Frame_bytes w)) = w.
Proof.
  intros Hh. apply frames_on_bytes; [done|]. clear. induction w as [|f w IH]; [done|].
  cbn [map concat length]. rewrite length_app, length_Frame_bytes. lia.
Qed.

(** What is in flight is the channel of the view. *)
Lemma in_flight_chan w σ sd s :
  wire σ sd = concat (map Frame_bytes (w sd)) → Forall honest (w sd ++ outgoing (mux σ sd)) →
  in_flight σ sd s = chan (w sd) (mux σ sd) s.
Proof. intros Hw [Hh _]%Forall_app. unfold in_flight, chan. by rewrite Hw, wire_frames_bytes. Qed.

(** A stream that is gone at both ends and on the way can be taken for one that was
    never used. *)
Lemma sys_inv_forget σ sid :
  sys_inv σ → (∀ sd, contains_id (buffer_table (mux σ sd)) sid = false ∧ in_flight σ sd sid = []) →
  sys_inv (mkSys (mux σ) (wire σ) (restart (sent σ) sid) (used σ ∖ {[sid]})).
Proof.
  intros (w & Hw & Hwf & Hu & Hs) Hgone. exists w. cbn [wire mux used sent]. split_and!; [done|done|set_solver|].
  intros s sd. destruct (decide (s = sid)) as [->|Hne].
  - rewrite bool_decide_eq_false_2 by set_solver.
    assert (Hv : ∀ b, view w (mkSys (mux σ) (wire σ) (restart (sent σ) sid) (used σ ∖ {[sid]})) sid b = mkView None None [] []).
    { intros b. destruct (Hgone b) as [Hc Hf]. rewrite (in_flight_chan w) in Hf by done.
      unfold view, restart; cbn [mux sent]. rewrite Hf, decide_True by done.
      assert (Ha : abs (buffer_table (mux σ b)) sid = None) by (unfold abs; apply contains_id_false in Hc; by rewrite Hc).
      destruct (Hs sid b) as [Hok _]. unfold side_ok, view in Hok; cbn in Hok. rewrite Ha in *. by destruct (tasks _ !! sid). }
    rewrite !Hv. apply stream_inv_unused.
  - rewrite (bool_decide_ext _ (s ∈ used σ)) by set_solver. specialize (Hs s sd).
    unfold view, restart in *; cbn [mux sent]. by rewrite !decide_False.
Qed.

Lemma find_free_id_spec t draws sid : find_free_id t draws = Some sid → sid ∈ draws ∧ contains_id t sid = false.
Proof.
  induction draws as [|k draws IH]; cbn [find_free_id]; [done|]. destruct (contains_id t k) eqn:E.
  - intros [? ?]%IH. split; [by right|done].
  - intros [= <-]. split; [left|done].
Qed.

Lemma inv_step_open σ sd md draws now sid m' :
  sys_inv σ → Forall (λ k, 0 <= k < 2 ^ 32) draws →
  handle_open_req (mux σ sd) md draws now = Some (sid, m') → lucky σ sd sid md →
  sys_inv (mkSys (upd (mux σ) sd m') (wire σ) (restart (sent σ) sid) ({[sid]} ∪ used σ)).
Proof.
  intros Hinv Hd H [Hl Hfree].
  assert (Hid : sid ∈ draws ∧ contains_id (buffer_table (mux σ sd)) sid = false).
  { unfold handle_open_req in H. destruct (find_free_id _ _) eqn:E; simplify_eq/=. by apply find_free_id_spec in E. }
  destruct Hid as [Hin Hown]. rewrite Forall_forall in Hd.
  destruct Hfree as [Hc|(Hc & F1 & F2)]; [congruence|].
  assert (Hu : {[sid]} ∪ used σ = {[sid]} ∪ (used σ ∖ {[sid]})).
  { apply set_eq. intros x. destruct (decide (x = sid)); set_solver. }
  rewrite Hu. refine (inv_open_unused (mkSys (mux σ) (wire σ) (restart (sent σ) sid) (used σ ∖ {[sid]})) sd md draws now sid m' _ H _ (Hd _ Hin) Hl);
    [|cbn [used]; intros [_ Hn]%elem_of_difference; by apply Hn, elem_of_singleton].
  apply sys_inv_forget; [done|]. intros b. destruct (Bool.eqb_spec b sd) as [->|Hne]; [done|].
  by assert (b = negb sd) as -> by (by destruct b, sd).
Qed.

Lemma inv_step_incoming_task σ sd sid bts m' :
  sys_inv σ → 0 < Z.of_nat (length bts) <= MSS →
  run_incoming_task (mux σ sd) sid bts = Some m' →
  sys_inv (mkSys (upd (mux σ) sd m') (wire σ)
             (upd (sent σ) sd (λ s, if decide (s = sid) then sent σ sd s ++ bts
                                    else sent σ sd s)) (used σ)).
Proof.
  unfold run_incoming_task. intros Hinv Hb H.
  destruct (tasks _ !! sid) as [t|] eqn:Et; [|done]. simpl in H.
  destruct (wait_send_window _ _) as [bt|] eqn:Ew; simplify_eq/=.
  pose proof (sys_inv_task _ _ _ _ Hinv Et) as Hu.
  eapply (sys_inv_local _ _ _ [PSH_frame sid bts]); try done.
  - constructor; [|done]. apply honest_PSH; [by eapply sys_inv_range|lia].
  - by eapply sys_inv_range.
  - intros s c b Hs. simpl.
    apply (abs_wait _ _ s) in Ew as (bf & Eb & Hp & ->).
    destruct (decide (sid = s)) as [<-|Hne].
    + rewrite decide_True by done. rewrite (filter_rel_one sid) by auto with geph.
      rewrite Et. eapply (inv_send _ (mkView _ _ _ _)); [exact Hs|done|done|done].
    + rewrite decide_False by done.
      rewrite (filter_rel_ne s sid) by (done || by repeat constructor).
      by rewrite app_nil_r.
Qed.

Lemma inv_step_drop σ sd sid :
  sys_inv σ →
  sys_inv (mkSys (upd (mux σ) sd (drop_stream (mux σ sd) sid)) (wire σ) (sent σ) (used σ)).
Proof.
  intros Hinv. eapply (sys_inv_local' _ _ _ []); try done.
  - simpl. by rewrite app_nil_r.
  - by eapply sys_inv_range.
  - intros s c b Hs. simpl. rewrite app_nil_r. destruct (decide (sid = s)) as [<-|Hne].
    + rewrite lookup_alter_eq. destruct (tasks _ !! sid) as [t|] eqn:Et; [|done].
      eapply (inv_drop _ (mkView _ _ _ _)); [exact Hs|done].
    + by rewrite lookup_alter_ne.
Qed.

Lemma finish_task_view m sid s :
  tasks (finish_task m sid) !! s = (if decide (sid = s) then None else tasks m !! s) ∧
  abs (buffer_table (finish_task m sid)) s =
    (if decide (sid = s) then None else abs (buffer_table m) s).
Proof. simpl. rewrite abs_drop, lookup_delete. done. Qed.

Lemma inv_step_finish σ sd sid t :
  sys_inv σ → tasks (mux σ sd) !! sid = Some t →
  sys_inv (mkSys (upd (mux σ) sd (finish_task (mux σ sd) sid)) (wire σ) (sent σ) (used σ)).
Proof.
  intros Hinv Et. pose proof (sys_inv_task _ _ _ _ Hinv Et) as Hu.
  eapply (sys_inv_local' _ _ _ [FIN_frame sid]); try done.
  - constructor; [|done]. apply honest_FIN. by eapply sys_inv_range.
  - by eapply sys_inv_range.
  - intros s c b Hs. destruct (finish_task_view (mux σ sd) sid s) as [-> ->].
    destruct (decide (sid = s)) as [<-|Hne].
    + rewrite (filter_rel_one sid) by auto with geph.
      eapply (inv_finish _ (mkView _ _ _ _)); [exact Hs|done].
    + rewrite (filter_rel_ne s sid) by (done || by repeat constructor).
      by rewrite app_nil_r.
Qed.

Lemma inv_step_outgoing_task σ sd sid now m' :
  sys_inv σ → run_outgoing_task (mux σ sd) sid now = Some (Ok m') →
  sys_inv (mkSys (upd (mux σ) sd m') (wire σ) (sent σ) (used σ)).
Proof.
  unfold Mux.run_outgoing_task. intros Hinv H.
  destruct (tasks _ !! sid) as [t|] eqn:Et; [|done]. simpl in H.
  destruct (buffer_recv _ _ _) as [[[f d] bt]|] eqn:Er; [|done]. simpl in H.
  pose proof (sys_inv_task _ _ _ _ Hinv Et) as Hu.
  pose proof (sys_inv_range _ Hinv _ Hu) as Hr.
  destruct (outgoing_task_turn powf sid t f now) as [[t' more]| |] eqn:Eturn; simplify_eq/=.
  - eapply (sys_inv_local' _ _ _ (option_list more)); try done.
    + destruct more; simpl; [done|by rewrite app_nil_r].
    + pose proof (turn_more_bounds _ _ _ _ _ _ _ (sys_inv_task_ok _ _ _ _ Hinv Et) Eturn) as Hm.
      eapply Forall_impl; [exact Hm|]. intros g (q & -> & _). auto with geph.
    + by eapply sys_inv_range.
    + intros s c b Hs. apply (abs_recv _ _ s) in Er as (bf & q & Eb & Hf & Habs).
      assert (Hm : ∀ g, more = Some g → rel sid g).
      { intros g ->. apply outgoing_task_turn_Ok in Eturn as (_ & _ & _ & _ & _ & _ & -> & _).
        apply rel_MORE. }
      assert (Em : tasks (match more with
          | Some f0 => enqueue (set_tasks (set_bw (set_table (mux σ sd) bt)
              (BwEstimate_read (bw_estimate t'))) (<[sid:=t']> (tasks (mux σ sd)))) f0
          | None => set_tasks (set_bw (set_table (mux σ sd) bt)
              (BwEstimate_read (bw_estimate t'))) (<[sid:=t']> (tasks (mux σ sd))) end) !! s
          = <[sid:=t']> (tasks (mux σ sd)) !! s) by (by destruct more).
      rewrite Em. clear Em.
      match goal with |- context [buffer_table ?m] =>
        assert (buffer_table m = bt) as -> by (by destruct more) end.
      rewrite Habs, lookup_insert. destruct (decide (sid = s)) as [<-|Hne].
      * assert (filter (rel sid) (option_list more) = option_list more) as ->.
        { destruct more as [g|]; [|done]. apply filter_rel_one. by apply Hm. }
        eapply (inv_recv powf _ (mkView _ _ _ _)); [exact Hs|done|done|done|exact Eturn].
      * rewrite (filter_rel_ne s sid); [by rewrite app_nil_r|done|].
        destruct more as [g|]; constructor; [|done]. by apply Hm.
  - pose proof (sys_inv_task _ _ _ _ Hinv Et) as _.
    eapply (sys_inv_local' _ _ _ [FIN_frame sid]); try done.
    + constructor; [|done]. by apply honest_FIN.
    + by eapply sys_inv_range.
    + intros s c b Hs. apply (abs_recv _ _ s) in Er as (bf & q & Eb & Hf & Habs).
      destruct (finish_task_view (set_table (mux σ sd) bt) sid s) as [-> ->]. cbn [set_table tasks buffer_table].
      rewrite Habs. destruct (decide (sid = s)) as [<-|Hne].
      * rewrite (filter_rel_one sid) by auto with geph.
        eapply (inv_finish _ (mkView _ _ _ _)); [exact Hs|done].
      * rewrite (filter_rel_ne s sid) by (done || by repeat constructor).
        by rewrite app_nil_r.
Qed.

(** ** Reading a frame *)

(** What the reader finds is the head of the frames in flight. *)
Lemma wire_head (w : list Frame) f rest :
  Forall honest w → Frame_read (concat (map Frame_bytes w)) = Ok (f, rest) →
  ∃ w', w = f :: w' ∧ rest = concat (map Frame_bytes w').
Proof.
  destruct w as [|g w]; intros Hwf H; [done|].
  apply Forall_cons in Hwf as [[Hg _] _]. cbn [map concat] in H.
  rewrite Frame_read_bytes in H by done. simplify_eq. eauto.
Qed.

(** A step of side [sd] that takes the frame [f] off the wire.  [ch] is what
    is left of the other side's channel. *)
Lemma sys_inv_read σ sd m' em f rest :
  sys_inv σ → Frame_read (wire σ (negb sd)) = Ok (f, rest) →
  outgoing m' = outgoing (mux σ sd) ++ em → Forall honest em →
  Forall (λ g, ∀ s, ¬ rel s g) em →
  (∀ s c tb bb ch sb,
    let u := bool_decide (s ∈ used σ) in
    stream_inv u
      (mkView (tasks (mux σ sd) !! s) (abs (buffer_table (mux σ sd)) s) c (sent σ sd s))
      (mkView tb bb (filter (rel s) [f] ++ ch) sb) →
    stream_inv u
      (mkView (tasks m' !! s) (abs (buffer_table m') s) c (sent σ sd s))
      (mkView tb bb ch sb)) →
  sys_inv (mkSys (upd (mux σ) sd m') (upd (wire σ) (negb sd) rest) (sent σ) (used σ)).
Proof.
  intros (w & Hw & Hwf & Hu & Hs) Hread Hout Hem Hnr Hstep.
  pose proof (Hwf (negb sd)) as Hwn. apply Forall_app in Hwn as [Hwn _].
  rewrite Hw in Hread. destruct (wire_head _ _ _ Hwn Hread) as (w' & Ew & ->).
  exists (upd w (negb sd) w'). cbn [wire mux used sent]. split_and!; [| |done|].
  - intros sd'. unfold upd. destruct (Bool.eqb_spec sd' (negb sd)) as [->|]; done.
  - intros sd'. specialize (Hwf sd'). unfold upd.
    destruct (Bool.eqb_spec sd' (negb sd)) as [->|Hne].
    + replace (Bool.eqb (negb sd) sd) with false by (by destruct sd).
      rewrite Ew in Hwf. by apply Forall_cons in Hwf as [_ ?].
    + assert (sd' = sd) as -> by (by destruct sd, sd').
      rewrite Bool.eqb_reflx, Hout, app_assoc. apply Forall_app; auto.
  - assert (H : ∀ s, stream_inv (bool_decide (s ∈ used σ))
        (view (upd w (negb sd) w') (mkSys (upd (mux σ) sd m')
           (upd (wire σ) (negb sd) (concat (map Frame_bytes w'))) (sent σ) (used σ)) s sd)
        (view (upd w (negb sd) w') (mkSys (upd (mux σ) sd m')
           (upd (wire σ) (negb sd) (concat (map Frame_bytes w'))) (sent σ) (used σ)) s (negb sd))).
    { intros s. unfold view; cbn [mux sent]. rewrite !upd_eq, !upd_negb.
      replace (upd w (negb sd) w' sd) with (w sd)
        by (unfold upd; by destruct sd).
      assert (Ec : chan (w sd) m' s = chan (w sd) (mux σ sd) s).
      { unfold chan. by rewrite Hout, app_assoc, (filter_app _ _ em), (filter_not_rel s em), app_nil_r. }
      rewrite Ec. apply Hstep. specialize (Hs s sd). unfold view, chan in Hs.
      rewrite Ew in Hs. change ((f :: w') ++ outgoing (mux σ (negb sd)))
        with ([f] ++ (w' ++ outgoing (mux σ (negb sd)))) in Hs.
      by rewrite (filter_app _ [f]) in Hs. }
    intros s sd'. destruct (Bool.eqb_spec sd' sd) as [->|Hne]; [apply H|].
    pose proof (other_side sd sd' Hne) as E. specialize (H s). rewrite E, negb_involutive in H.
    apply stream_inv_sym. by rewrite E, ?negb_involutive.
Qed.

Lemma filter_rel_other s f : ¬ rel s f → filter (rel s) [f] = [].
Proof. intros. by rewrite filter_cons, decide_False. Qed.

Lemma try_send_accepted_view m sid m' :
  try_send_accepted m sid = Ok m' →
  outgoing m' = outgoing m ∧ buffer_table m' = buffer_table m ∧
  (tasks m' = tasks m ∨ tasks m' = tasks (drop_stream m sid)).
Proof.
  unfold try_send_accepted. destruct (accept_closed m); [done|].
  case_decide; intros [= <-]; simpl; auto.
Qed.

Lemma inv_read_SYN σ sd f rest now m' :
  sys_inv σ → Frame_read (wire σ (negb sd)) = Ok (f, rest) →
  command (header f) = CMD_SYN →
  try_send_accepted (create_stream (mux σ sd) (stream_id (header f)) (body f) now)
    (stream_id (header f)) = Ok m' →
  sys_inv (mkSys (upd (mux σ) sd m') (upd (wire σ) (negb sd) rest) (sent σ) (used σ)).
Proof.
  set (sid := stream_id (header f)). intros Hinv Hread Hc Ht.
  apply try_send_accepted_view in Ht as (Ho & Hb & Htk).
  eapply (sys_inv_read _ _ _ [] f); try done.
  { rewrite Ho. simpl. by rewrite app_nil_r. }
  intros s c tb bb ch sb u Hs. rewrite Hb. cbn [create_stream set_tasks set_table buffer_table].
  rewrite abs_create. destruct (decide (sid = s)) as [<-|Hne].
  - rewrite (filter_rel_one sid) in Hs by (split; [done|rewrite Hc; set_solver]).
    pose proof (inv_read_syn _ _ _ f ch
      (fresh_task (body f) (last_bw_estimate (mux σ sd)) now) Hs eq_refl Hc
      (task_inv_fresh _ _ _) eq_refl eq_refl) as Hs'.
    destruct Htk as [-> | ->]; cbn [drop_stream create_stream set_tasks set_table tasks buffer_table];
      rewrite ?lookup_alter_eq, lookup_insert_eq; [done|].
    by apply (inv_drop _ _ _ _ Hs').
  - rewrite filter_rel_other in Hs by (intros [? _]; done).
    destruct Htk as [-> | ->]; cbn [drop_stream create_stream set_tasks set_table tasks];
      rewrite ?(lookup_alter_ne _ _ _ _ Hne), (lookup_insert_ne _ _ _ _ Hne); done.
Qed.

Lemma inv_read_MORE σ sd f rest :
  sys_inv σ → Frame_read (wire σ (negb sd)) = Ok (f, rest) →
  command (header f) = CMD_MORE →
  sys_inv (mkSys (upd (mux σ) sd (set_table (mux σ sd)
     (incr_send_window (buffer_table (mux σ sd)) (stream_id (header f)) (le_val (body f)))))
     (upd (wire σ) (negb sd) rest) (sent σ) (used σ)).
Proof.
  intros Hinv Hread Hc. eapply (sys_inv_read _ _ _ [] f); try done.
  { simpl. by rewrite app_nil_r. }
  intros s c tb bb ch sb u Hs. simpl. rewrite abs_incr.
  destruct (decide (stream_id (header f) = s)) as [E|Hne].
  - rewrite filter_rel_one in Hs by (split; [done|rewrite Hc; set_solver]).
    destruct (abs _ s) as [bf|] eqn:Eb; simpl.
    + by apply (inv_read_more _ _ _ bf f ch Hs).
    + apply (inv_read_dead _ _ _ f ch Hs); [done|done|by rewrite Hc].
  - by rewrite filter_rel_other in Hs by (intros [? _]; done).
Qed.

(** The queue of a stream never reaches the point where [send_to] drops. *)
Lemma sys_inv_queue σ sd s b :
  sys_inv σ → abs (buffer_table (mux σ sd)) s = Some b →
  Z.of_nat (length (abs_frames b)) <= MAX_WINDOW + 1.
Proof.
  intros (w & _ & _ & _ & Hs) Hb. eapply inv_queue_bound; [apply (Hs s sd)|done].
Qed.

Lemma inv_read_DATA σ sd f rest now :
  sys_inv σ → Frame_read (wire σ (negb sd)) = Ok (f, rest) → is_data f →
  sys_inv (mkSys (upd (mux σ) sd (set_table (mux σ sd)
     (send_to (buffer_table (mux σ sd)) (stream_id (header f)) f now)))
     (upd (wire σ) (negb sd) rest) (sent σ) (used σ)).
Proof.
  intros Hinv Hread Hc. eapply (sys_inv_read _ _ _ [] f); try done.
  { simpl. by rewrite app_nil_r. }
  intros s c tb bb ch sb u Hs. simpl. rewrite abs_send_to.
  2:{ intros b Eb. apply (sys_inv_queue _ _ _ _ Hinv) in Eb. unfold MAX_WINDOW in *. lia. }
  destruct (decide (stream_id (header f) = s)) as [E|Hne].
  - rewrite filter_rel_one in Hs
      by (split; [done|destruct Hc as [-> | ->]; set_solver]).
    destruct (abs _ s) as [bf|] eqn:Eb; simpl.
    + by apply (inv_read_data _ _ _ bf f ch Hs).
    + apply (inv_read_dead _ _ _ f ch Hs); [done|done|destruct Hc as [-> | ->]; done].
  - by rewrite filter_rel_other in Hs by (intros [? _]; done).
Qed.

(** ** The invariant holds in every reachable state

    [serde_json] renders a [PingInfo] as a JSON object of a few dozen bytes;
    the wire format of a frame gives it 16 bits of length. *)
Context (ping_short : ∀ x, Z.of_nat (length (ping_to_vec x)) < 2 ^ 16).

Lemma inv_step_write σ sd bts m' :
  sys_inv σ → outgoing_loop_turn (mux σ sd) = Some (bts, m') →
  sys_inv (mkSys (upd (mux σ) sd m') (upd (wire σ) sd (wire σ sd ++ bts)) (sent σ) (used σ)).
Proof.
  unfold outgoing_loop_turn. intros (w & Hw & Hwf & Hu & Hs) H.
  destruct (outgoing (mux σ sd)) as [|f q] eqn:Eo; simplify_eq.
  assert (Hq : ∀ b, upd w sd (w sd ++ [f]) b ++ outgoing (upd (mux σ) sd (set_outgoing (mux σ sd) q) b)
             = w b ++ outgoing (mux σ b)).
  { intros b. unfold upd. destruct (Bool.eqb_spec b sd) as [->|]; [|done].
    rewrite Eo. simpl. by rewrite <- app_assoc. }
  exists (upd w sd (w sd ++ [f])). cbn [wire mux used sent]. split_and!; [| |done|].
  - intros b. unfold upd. destruct (Bool.eqb_spec b sd) as [->|]; [|done].
    rewrite map_app, concat_app, Hw. cbn [map concat]. by rewrite app_nil_r.
  - intros b. rewrite Hq. apply Hwf.
  - intros s b. specialize (Hs s b).
    assert (Hv : ∀ b, view (upd w sd (w sd ++ [f])) (mkSys (upd (mux σ) sd (set_outgoing (mux σ sd) q))
        (upd (wire σ) sd (wire σ sd ++ Frame_bytes f)) (sent σ) (used σ)) s b = view w σ s b).
    { intros b'. unfold view, chan; cbn [mux sent]. rewrite Hq. unfold upd.
      destruct (Bool.eqb_spec b' sd) as [->|]; done. }
    by rewrite !Hv.
Qed.

Lemma inv_step_read σ sd f rest now m' :
  sys_inv σ → Frame_read (wire σ (negb sd)) = Ok (f, rest) →
  handle_frame (mux σ sd) f now = Ok m' →
  sys_inv (mkSys (upd (mux σ) sd m') (upd (wire σ) (negb sd) rest) (sent σ) (used σ)).
Proof.
  unfold Mux.handle_frame. intros Hinv Hread H.
  assert (Hskip : ∀ em m'', outgoing m'' = outgoing (mux σ sd) ++ em → Forall honest em →
    Forall (λ g, ∀ s, ¬ rel s g) em → tasks m'' = tasks (mux σ sd) →
    buffer_table m'' = buffer_table (mux σ sd) → (∀ s, ¬ rel s f) →
    sys_inv (mkSys (upd (mux σ) sd m'') (upd (wire σ) (negb sd) rest) (sent σ) (used σ))).
  { intros em m'' Ho He Hn Ht Hb Hf. eapply (sys_inv_read _ _ _ em f); try done.
    intros s c tb bb ch sb u Hs. rewrite filter_rel_other in Hs by apply Hf. by rewrite Ht, Hb. }
  repeat case_match; simplify_eq; rewrite ?Z.eqb_eq, ?orb_true_iff, ?Z.eqb_eq in *.
  - by eapply inv_read_SYN.
  - by eapply inv_read_MORE.
  - by apply inv_read_DATA.
  - apply (Hskip []); try done; [by rewrite app_nil_r|by eapply not_rel].
  - eapply (Hskip [Frame_new_empty 0 CMD_PONG]); try done.
    + constructor; [|done]. split; [by apply Frame_new_empty_wf|left; set_solver].
    + constructor; [|done]. by eapply not_rel.
    + by eapply not_rel.
  - apply (Hskip []); try done; [by rewrite app_nil_r|by eapply not_rel].
Qed.

Lemma inv_step_ping σ sd info now :
  sys_inv σ →
  sys_inv (mkSys (upd (mux σ) sd (ping_fire ping_to_vec (mux σ sd) info now))
              (wire σ) (sent σ) (used σ)).
Proof.
  intros Hinv. eapply (sys_inv_frame _ _ _ [_]); try done.
  - constructor; [|done]. split.
    + apply (Frame_new_wf 0 CMD_PING (ping_body ping_to_vec info)); [lia|done|apply ping_short].
    + right; right. split; [done|]. by eexists.
  - constructor; [|done]. by eapply not_rel.
Qed.

Lemma inv_step σ σ' : step σ σ' → sys_inv σ → sys_inv σ'.
Proof.
  intros Hstep Hinv. destruct Hstep.
  - by eapply inv_step_open.
  - by apply inv_step_write.
  - by eapply inv_step_read.
  - by apply inv_step_incoming_task.
  - by eapply inv_step_outgoing_task.
  - by apply inv_step_drop.
  - by eapply inv_step_finish.
  - eapply (sys_inv_frame _ _ _ []); try done. simpl. by rewrite app_nil_r.
  - by apply inv_step_ping.
  - eapply (sys_inv_frame _ _ _ []); try done; unfold ping_wait in *; repeat case_match; simplify_eq;
      simpl; by rewrite ?app_nil_r.
Qed.

Lemma mux_reachable_inv σ : reachable σ → sys_inv σ.
Proof.
  intros H. unfold reachable in H.
  eapply (rtc_ind_r sys_inv); [apply sys_inv_init| |exact H].
  intros ? ? _ ? ?. by eapply inv_step.
Qed.

(** ** Properties *)

Lemma wire_nil (w : list Frame) : concat (map Frame_bytes w) = [] → w = [].
Proof.
  destruct w as [|f w]; [done|]. cbn [map concat]. intros H.
  apply app_nil in H as [H _]. apply (f_equal length) in H.
  rewrite length_Frame_bytes in H. simpl in H. lia.
Qed.

(** Nothing is queued or on the wire from side [sd]. *)
Definition quiet (σ : Sys) (sd : bool) : Prop :=
  wire σ sd = [] ∧ outgoing (mux σ sd) = [].

Lemma quiet_chan w σ sd s :
  wire σ sd = concat (map Frame_bytes (w sd)) → quiet σ sd →
  chan (w sd) (mux σ sd) s = [].
Proof. intros Hw [H1 H2]. unfold chan. rewrite Hw in H1. by rewrite (wire_nil _ H1), H2. Qed.

Lemma frames_of_abs t s b : abs t s = Some b → frames_of t s = abs_frames b.
Proof.
  unfold abs, frames_of. destruct (inner t !! s); [|done]. by intros [= <-].
Qed.

Lemma task_buf w σ sd s t :
  side_ok (view w σ s sd) → tasks (mux σ sd) !! s = Some t →
  ∃ b, abs (buffer_table (mux σ sd)) s = Some b ∧
       frames_of (buffer_table (mux σ sd)) s = abs_frames b.
Proof.
  intros H Et. destruct (side_ok_buf _ _ H Et) as [b Eb]. exists b.
  split; [exact Eb|]. by apply frames_of_abs.
Qed.

(** C1: a stream is a reliable ordered byte pipe.  In every reachable state
    of two joined multiplexers, whatever the interleaving of their loops and
    tasks, what a task has handed to its application is a prefix of what the
    other application has sent on that stream, and all of it once nothing is
    left in the sender's queue, on the wire or in the receive buffer. *)
Theorem stream_integrity σ sd s t :
  reachable σ → tasks (mux σ sd) !! s = Some t →
  received t `prefix_of` sent σ (negb sd) s ∧
  (quiet σ (negb sd) → frames_of (buffer_table (mux σ sd)) s = [] →
   received t = sent σ (negb sd) s).
Proof.
  intros (w & Hw & _ & _ & Hs)%mux_reachable_inv Et. specialize (Hs s sd).
  destruct (task_buf w σ sd s t ltac:(by destruct Hs) Et) as (b & Eb & Ef).
  pose proof (inv_received _ _ _ _ _ Hs Et Eb) as E. simpl in E. split.
  - by eexists.
  - intros Hq Hf. rewrite Ef in Hf. rewrite Hf, quiet_chan in E by done.
    by rewrite app_nil_r in E.
Qed.

(** C14: two multiplexers do not end the session on each other.  After any run in
    which every open was [lucky], the next frame on the wire is one that the
    receive loop accepts: no duplicate SYN, no corrupt MORE, no unknown command, no
    unreadable PING, provided the application still holds its accept handle and
    [serde_json] reads back what it wrote.  Luck is about the other end only: that
    an id is not drawn twice at one end is what [find_free_id] sees to. *)
Theorem no_protocol_error σ sd f rest now :
  (∀ x, is_Some (ping_from_slice (ping_to_vec x))) →
  reachable σ → accept_closed (mux σ sd) = false →
  Frame_read (wire σ (negb sd)) = Ok (f, rest) →
  ∃ m', handle_frame (mux σ sd) f now = Ok m'.
Proof.
  intros Hping (w & Hw & Hh & _ & Hs)%mux_reachable_inv Hacc Hread.
  specialize (Hh (negb sd)). apply Forall_app in Hh as [Hh _].
  rewrite Hw in Hread. destruct (wire_head _ _ _ Hh Hread) as (w' & Ew & _).
  rewrite Ew in Hh. apply Forall_cons in Hh as [[_ Hf] _].
  unfold Mux.handle_frame.
  destruct (Z.eqb_spec (command (header f)) CMD_SYN) as [Hc|Hns].
  { specialize (Hs (stream_id (header f)) sd).
    assert (Hr : rel (stream_id (header f)) f) by (split; [done|rewrite Hc; set_solver]).
    destruct (inv_read_syn_free _ _ _ f (filter (rel (stream_id (header f)))
      (w' ++ outgoing (mux σ (negb sd)))) Hs) as (_ & Hb & _); [|done|].
    { unfold view, chan; simpl. rewrite Ew. simpl. by rewrite filter_cons, decide_True. }
    simpl in Hb. unfold contains_id, abs in *.
    destruct (inner _ !! _); [done|]. unfold try_send_accepted. simpl. rewrite Hacc.
    destruct (decide (_ < ACCEPT_CAPACITY)%nat); by eexists. }
  destruct Hf as [Hf|[[Hf Hl]|[Hf [x Hx]]]].
  - repeat (apply elem_of_cons in Hf as [Hf|Hf]; [rewrite Hf in *; simpl; eauto; done|]).
    by apply elem_of_nil in Hf.
  - rewrite Hf. simpl. rewrite decide_True by done. eauto.
  - rewrite Hf. simpl. rewrite Hx. destruct (Hping x) as [? ->]. eauto.
Qed.

(** C15: flow control cannot deadlock.  In every reachable state, if both ends
    still hold a stream, no frame of it is in flight in either direction and the
    receiver has read what arrived, then the sender holds a permit:
    [incoming_task] can send its next chunk, whatever the other streams do. *)
Theorem no_window_deadlock σ sd s t t' bts :
  reachable σ → tasks (mux σ sd) !! s = Some t → tasks (mux σ (negb sd)) !! s = Some t' →
  in_flight σ sd s = [] → in_flight σ (negb sd) s = [] → frames_of (buffer_table (mux σ (negb sd))) s = [] →
  is_Some (run_incoming_task (mux σ sd) s bts).
Proof.
  intros (w & Hw & Hh & _ & Hs)%mux_reachable_inv Et Et' Hq Hq' Hf. specialize (Hs s sd).
  rewrite (in_flight_chan w) in Hq, Hq' by done.
  destruct (task_buf w σ sd s t ltac:(by destruct Hs) Et) as (b & Eb & _).
  destruct (task_buf w σ (negb sd) s t' ltac:(by destruct Hs as (? & ? & _)) Et')
    as (b' & Eb' & Ef').
  destruct (inv_credit _ _ _ _ _ _ _ Hs Et Et' Eb Eb') as [E H8]. simpl in E.
  rewrite <- Ef', Hf, Hq, Hq' in E. simpl in E.
  unfold run_incoming_task. rewrite Et. simpl.
  destruct (wait_send_window _ _) eqn:Ew; simpl; [eauto|].
  pose proof (abs_wait_None _ _ Ew _ Eb). lia.
Qed.

(** No received frame is ever dropped.  In every reachable state a
    receive queue holds at most one frame more than the maximum window, half of
    the threshold above which [send_to] discards a frame. *)
Theorem receive_queue_bounded σ sd s b :
  reachable σ → inner (buffer_table (mux σ sd)) !! s = Some b →
  Z.of_nat (length (queue b)) <= MAX_WINDOW + 1.
Proof.
  intros Hinv%mux_reachable_inv Eb. rewrite <- (length_map fst).
  apply (sys_inv_queue _ sd s (mkAbs (map fst (queue b)) (permits b)) Hinv).
  unfold abs. by rewrite Eb.
Qed.
End system.

(** ** A concrete run

    Side [true] opens stream 7; side [false] accepts it; three bytes travel
    across and are handed to the application of side [false]. *)
Module Demo.
Definition powf (x _ : f64) : f64 := x.
Definition to_vec (_ : Z) : list byte := [x7b; x7d].
Definition from_slice (bs : list byte) : option Z :=
  if decide (bs = [x7b; x7d]) then Some 0 else None.

Definition opened : Sys :=
  match handle_open_req Mux_new [] [7] 0 with
  | Some (sid, m) => mkSys (upd (λ _, Mux_new) true m) (λ _, []) (restart (λ _ _, []) sid) ({[sid]} ∪ ∅)
  | None => sys_init
  end.
Definition do_write (σ : Sys) (sd : bool) : Sys :=
  match outgoing_loop_turn (mux σ sd) with
  | Some (bts, m) => mkSys (upd (mux σ) sd m) (upd (wire σ) sd (wire σ sd ++ bts)) (sent σ) (used σ)
  | None => σ
  end.
Definition do_read (σ : Sys) (sd : bool) (now : Z) : Sys :=
  match Frame_read (wire σ (negb sd)) with
  | Ok (f, rest) =>
      match handle_frame from_slice (mux σ sd) f now with
      | Ok m => mkSys (upd (mux σ) sd m) (upd (wire σ) (negb sd) rest) (sent σ) (used σ)
      | _ => σ
      end
  | _ => σ
  end.
Definition do_send (σ : Sys) (sd : bool) (sid : Z) (bts : list byte) : Sys :=
  match run_incoming_task (mux σ sd) sid bts with
  | Some m => mkSys (upd (mux σ) sd m) (wire σ)
      (upd (sent σ) sd (λ s, if decide (s = sid) then sent σ sd s ++ bts else sent σ sd s)) (used σ)
  | None => σ
  end.
Definition do_recv (σ : Sys) (sd : bool) (sid now : Z) : Sys :=
  match run_outgoing_task powf (mux σ sd) sid now with
  | Some (Ok m) => mkSys (upd (mux σ) sd m) (wire σ) (sent σ) (used σ)
  | _ => σ
  end.

Definition established : Sys := do_read (do_write opened true) false 5.
Definition pushed : Sys := do_send established true 7 [x01; x02; x03].
Definition on_wire : Sys := do_write pushed true.
Definition delivered : Sys := do_recv (do_read on_wire false 9) false 7 11.

Abbreviation step := (step powf to_vec from_slice).
Abbreviation any_step := (step_under powf to_vec from_slice any_open).
Abbreviation reachable := (reachable powf to_vec from_slice).

Lemma do_write_step σ sd : rtc step σ (do_write σ sd).
Proof.
  unfold do_write. destruct (outgoing_loop_turn _) as [[bts m]|] eqn:E; [|done].
  by apply rtc_once, step_write.
Qed.
Lemma do_read_step σ sd now : rtc step σ (do_read σ sd now).
Proof.
  unfold do_read. destruct (Frame_read _) as [[f rest]| |] eqn:E; try done.
  destruct (handle_frame _ _ _ _) eqn:E'; try done. by eapply rtc_once, step_read.
Qed.
Lemma do_send_step σ sd sid bts :
  0 < Z.of_nat (length bts) <= MSS → rtc step σ (do_send σ sd sid bts).
Proof.
  unfold do_send. destruct (run_incoming_task _ _ _) eqn:E; [|done].
  intros. by apply rtc_once, step_incoming_task.
Qed.
Lemma do_recv_step σ sd sid now : rtc step σ (do_recv σ sd sid now).
Proof.
  unfold do_recv. destruct (run_outgoing_task _ _ _ _) as [[m| |]|] eqn:E; try done.
  by eapply rtc_once, step_outgoing_task.
Qed.

Lemma opened_reachable : reachable opened.
Proof.
  apply rtc_once. change sys_init with (mkSys (λ _, Mux_new) (λ _, []) (λ _ _, []) ∅).
  eapply (step_open _ _ _ _ sys_init true [] [7] 0 7); [repeat constructor; lia|reflexivity|].
  split; [simpl; lia|right; done].
Qed.
Lemma established_reachable : reachable established.
Proof.
  unfold MuxSystem.reachable. etrans; [apply opened_reachable|].
  etrans; [apply do_write_step|apply do_read_step].
Qed.
Lemma on_wire_reachable : reachable on_wire.
Proof.
  unfold MuxSystem.reachable. etrans; [apply established_reachable|].
  etrans; [apply do_send_step|apply do_write_step].
  unfold MSS; simpl; lia.
Qed.
Lemma delivered_reachable : reachable delivered.
Proof.
  unfold MuxSystem.reachable. etrans; [apply on_wire_reachable|].
  etrans; [apply do_read_step|apply do_recv_step].
Qed.

(** An unlucky open: both sides draw the id 7 before either SYN has arrived, and each
    takes the SYN of the other for a duplicate, which ends the session. *)
Definition both_opened : Sys :=
  match handle_open_req Mux_new [] [7] 0 with
  | Some (sid, m) => mkSys (upd (mux opened) false m) (λ _, []) (restart (sent opened) sid) ({[sid]} ∪ used opened)
  | None => sys_init
  end.
Lemma unlucky_open :
  rtc any_step sys_init (do_write both_opened true) ∧
  ∃ f rest, Frame_read (wire (do_write both_opened true) true) = Ok (f, rest) ∧
    handle_frame from_slice (mux (do_write both_opened true) false) f 5 = Err (IoError InvalidData "duplicate SYN").
Proof.
  split.
  - eapply rtc_l; [eapply (step_open _ _ _ _ sys_init true [] [7] 0 7); [repeat constructor; lia|reflexivity|done]|].
    eapply rtc_l; [eapply (step_open _ _ _ _ opened false [] [7] 0 7); [repeat constructor; lia|reflexivity|done]|].
    apply rtc_once. by eapply step_write.
  - by eexists _, _.
Qed.

Lemma short x : Z.of_nat (length (to_vec x)) < 2 ^ 16.
Proof. simpl. lia. Qed.
End Demo.

Lemma stream_integrity_witness :
  received <$> tasks (mux Demo.delivered false) !! 7 = Some [x01; x02; x03] ∧
  [x01; x02; x03] `prefix_of` sent Demo.delivered true 7.
Proof.
  destruct (tasks (mux Demo.delivered false) !! 7) as [t|] eqn:Et;
    [|vm_compute in Et; discriminate].
  assert (Hr : received t = [x01; x02; x03]) by (vm_compute in Et; by simplify_eq).
  split; [simpl; by rewrite Hr|]. rewrite <- Hr.
  apply (stream_integrity _ _ _ Demo.short _ false 7 t Demo.delivered_reachable Et).
Defined.

Lemma no_protocol_error_witness :
  ∃ f rest m', Frame_read (wire Demo.on_wire true) = Ok (f, rest) ∧
    command (header f) = CMD_PSH ∧ handle_frame Demo.from_slice (mux Demo.on_wire false) f 9 = Ok m'.
Proof.
  destruct (Frame_read (wire Demo.on_wire true)) as [[f rest]| |] eqn:E;
    [|vm_compute in E; discriminate..].
  destruct (no_protocol_error Demo.powf Demo.to_vec Demo.from_slice Demo.short Demo.on_wire false f rest 9) as [m' Hm].
  - intros x. by eexists.
  - apply Demo.on_wire_reachable.
  - reflexivity.
  - exact E.
  - exists f, rest, m'. split_and!; [done| |done]. vm_compute in E. by simplify_eq.
Defined.

Lemma no_window_deadlock_witness :
  is_Some (run_incoming_task (mux Demo.established true) 7 [x00]).
Proof.
  destruct (tasks (mux Demo.established true) !! 7) as [t|] eqn:Et;
    [|vm_compute in Et; discriminate].
  destruct (tasks (mux Demo.established false) !! 7) as [t'|] eqn:Et';
    [|vm_compute in Et'; discriminate].
  apply (no_window_deadlock _ _ _ Demo.short _ true 7 t t' [x00]
    Demo.established_reachable Et Et'); try split; vm_compute; reflexivity.
Defined.

Lemma receive_queue_bounded_witness :
  ∃ b, inner (buffer_table (mux Demo.established false)) !! 7 = Some b ∧
    Z.of_nat (length (queue b)) <= MAX_WINDOW + 1.
Proof.
  destruct (inner (buffer_table (mux Demo.established false)) !! 7) as [b|] eqn:E;
    [|vm_compute in E; discriminate].
  exists b. split; [done|].
  apply (receive_queue_bounded _ _ _ Demo.short _ false 7 b Demo.established_reachable E).
Defined.
