(* ===== verification/Crypto.v ===== *)
(** * Cryptographic primitives as interfaces

    The primitives come from crates that are not part of the repository
    (chacha20poly1305, blake3, x25519-dalek).  Each is a class of operations
    on byte strings with the documented laws the sources rely on; clients are
    verified against the classes.  [Toy] gives concrete functions that satisfy
    the laws, for the concrete runs at the end of the client files. *)
From Stdlib Require Import ZArith Lia Strings.String Strings.Ascii.
From S2P Require Import Prelude.

(** ** Authenticated encryption with a detached tag, no associated data *)

Class Aead := {
  seal : list byte → list byte → list byte → list byte * list byte;
  open : list byte → list byte → list byte → list byte → option (list byte)
}.

(** What [encrypt_in_place_detached] and [decrypt_in_place_detached] promise:
    the ciphertext has the length of the plaintext, the tag 16 bytes, and a
    ciphertext opens to a message exactly when it is that message's sealing
    (the tag is recomputed and compared). *)
Class AeadLaws `{Aead} := {
  open_iff k n c t m : open k n c t = Some m ↔ seal k n m = (c, t);
  length_ct k n m : length (fst (seal k n m)) = length m;
  length_tag k n m : length (snd (seal k n m)) = 16
}.

(** ** Hashing: [blake3::hash], [blake3::derive_key], [blake3::keyed_hash] *)

Class Blake3 := {
  hash : list byte → list byte;
  derive_key : string → list byte → list byte;
  keyed_hash : list byte → list byte → list byte
}.

Class Blake3Laws `{Blake3} := {
  length_hash m : length (hash m) = 32;
  length_derive_key c m : length (derive_key c m) = 32;
  length_keyed_hash k m : length (keyed_hash k m) = 32
}.

(** ** Diffie-Hellman *)

Class X25519 := {
  public : list byte → list byte;
  diffie_hellman : list byte → list byte → list byte
}.

Class X25519Laws `{X25519} := {
  dh_comm a b : diffie_hellman a (public b) = diffie_hellman b (public a);
  length_public a : length (public a) = 32
}.

(** ** Blind RSA signatures (the crate blind_rsa_signatures) *)

Class BlindRsa := {
  rsa_sk : Type; rsa_pk : Type; rsa_secret : Type; rsa_rand : Type;
  sk_public : rsa_sk → rsa_pk;
  sk_to_der : rsa_sk → list byte;
  sk_from_der : list byte → option rsa_sk;
  pk_to_pkcs1_der : rsa_pk → list byte;
  pk_to_der : rsa_pk → list byte;
  pk_from_der : list byte → option rsa_pk;
  rsa_blind : rsa_pk → list byte → rsa_rand → list byte * rsa_secret;
  rsa_blind_sign : rsa_sk → list byte → rsa_rand → option (list byte);
  rsa_finalize : rsa_pk → list byte → rsa_secret → list byte → option (list byte);
  rsa_verify : rsa_pk → list byte → list byte → bool
}.

(** A public key has two encodings, PKCS#1 and SubjectPublicKeyInfo, and [from_der]
    reads both.  The encodings are faithful; an honestly blinded message can be signed, and
    finalizing that signature yields one that verifies. *)
Class BlindRsaLaws `{BlindRsa} := {
  sk_der k : sk_from_der (sk_to_der k) = Some k;
  pk_pkcs1_der k : pk_from_der (pk_to_pkcs1_der k) = Some k;
  pk_der k : pk_from_der (pk_to_der k) = Some k;
  blind_sign_total k m r r' :
    is_Some (rsa_blind_sign k (fst (rsa_blind (sk_public k) m r)) r');
  finalize_verify k m r r' bs :
    rsa_blind_sign k (fst (rsa_blind (sk_public k) m r)) r' = Some bs →
    ∃ s, rsa_finalize (sk_public k) bs (snd (rsa_blind (sk_public k) m r)) m = Some s ∧
         rsa_verify (sk_public k) s m = true
}.

(** ** Ed25519 *)

Class Ed25519 := {
  verifying_key : list byte → list byte;
  sign : list byte → list byte → list byte;
  verify_strict : list byte → list byte → list byte → bool
}.

Class Ed25519Laws `{Ed25519} := {
  verify_sign sk m : verify_strict (verifying_key sk) m (sign sk m) = true
}.

(** ** The wire encoding of values ([stdcode], a [serde] format)

    [deserialize] reads back what [stdcode] wrote. *)
Class Stdcode (A : Type) := {
  stdcode : A → list byte;
  deserialize : list byte → option A
}.
Class StdcodeLaws (A : Type) `{Stdcode A} := {
  deserialize_stdcode (a : A) : deserialize (stdcode a) = Some a
}.

Section aead.
Context `{AeadLaws}.

Lemma open_seal k n m : open k n (fst (seal k n m)) (snd (seal k n m)) = Some m.
Proof. apply open_iff. by destruct (seal k n m). Qed.

Lemma open_length k n c t m : open k n c t = Some m → length m = length c ∧ length t = 16.
Proof.
  intros E%open_iff. pose proof (length_ct k n m). pose proof (length_tag k n m).
  rewrite E in *. done.
Qed.
End aead.

(** ** Concrete functions that satisfy the laws

    They are not secure, they are small: the sealing XORs nothing and tags
    with the first bytes of key and nonce, hashes cut or pad to 32 bytes. *)
Module Toy.
Definition fit (n : nat) (l : list byte) : list byte := take n (l ++ replicate n x00).

Lemma length_fit n l : length (fit n l) = n.
Proof. unfold fit. rewrite length_take, length_app, length_replicate. lia. Qed.

Definition tag (k n : list byte) : list byte := fit 8 k ++ fit 8 n.

#[export] Instance aead : Aead := {|
  seal k n m := (m, tag k n);
  open k n c t := if decide (t = tag k n) then Some c else None
|}.
#[export] Instance aead_laws : AeadLaws.
Proof.
  split; intros; simpl.
  - case_decide; split; naive_solver.
  - done.
  - unfold tag. by rewrite length_app, !length_fit.
Qed.

#[export] Instance blake3 : Blake3 := {|
  hash m := fit 32 m;
  derive_key c m := fit 32 (map byte_of_ascii (list_ascii_of_string c) ++ m);
  keyed_hash k m := fit 32 (fit 8 k ++ m)
|}.
#[export] Instance blake3_laws : Blake3Laws.
Proof. split; intros; apply length_fit. Qed.

Definition bor (a b : byte) : byte := byte_of_Z (Z.lor (byte_to_Z a) (byte_to_Z b)).

#[export] Instance x25519 : X25519 := {|
  public a := fit 32 a;
  diffie_hellman a p := zip_with bor (fit 32 a) (fit 32 p)
|}.
#[export] Instance x25519_laws : X25519Laws.
Proof.
  split; intros; simpl; [|apply length_fit].
  assert (F : ∀ l, fit 32 (fit 32 l) = fit 32 l).
  { intros l. unfold fit at 1. rewrite take_app_le by (rewrite length_fit; lia).
    apply take_ge. rewrite length_fit. lia. }
  rewrite !F. generalize (fit 32 a) (fit 32 b). intros l.
  induction l as [|x l IH]; intros [|y l']; simpl; [done..|].
  rewrite IH. f_equal. unfold bor. by rewrite Z.lor_comm.
Qed.

#[export] Instance ed25519 : Ed25519 := {|
  verifying_key k := k;
  sign k m := k ++ m;
  verify_strict k m s := bool_decide (s = k ++ m)
|}.
#[export] Instance ed25519_laws : Ed25519Laws.
Proof. split. intros. simpl. by rewrite bool_decide_true. Qed.

(** An encoding of any countable type, one byte per bit. *)
Fixpoint pos_bytes (p : positive) : list byte :=
  match p with xH => [] | xO p => x00 :: pos_bytes p | xI p => x01 :: pos_bytes p end.
Fixpoint bytes_pos (l : list byte) : positive :=
  match l with
  | [] => xH
  | b :: l => if decide (b = x00) then xO (bytes_pos l) else xI (bytes_pos l)
  end.
Lemma bytes_pos_bytes p : bytes_pos (pos_bytes p) = p.
Proof. induction p as [p IH|p IH|]; simpl; by rewrite ?IH. Qed.

#[export] Instance codec {A} `{Countable A} : Stdcode A := {|
  stdcode a := pos_bytes (encode a);
  deserialize l := decode (bytes_pos l)
|}.
#[export] Instance codec_laws {A} `{Countable A} : StdcodeLaws A.
Proof. split. intros a. simpl. by rewrite bytes_pos_bytes, decode_encode. Qed.

#[export] Instance rsa : BlindRsa := {|
  rsa_sk := list byte; rsa_pk := list byte; rsa_secret := unit; rsa_rand := unit;
  sk_public k := k; sk_to_der k := k; sk_from_der := Some;
  pk_to_pkcs1_der k := x01 :: k; pk_to_der k := x02 :: k;
  pk_from_der l := match l with (x01 | x02) :: k => Some k | _ => None end;
  rsa_blind _ m _ := (m, tt);
  rsa_blind_sign k m _ := Some (k ++ m);
  rsa_finalize k s _ m := if decide (s = k ++ m) then Some s else None;
  rsa_verify k s m := bool_decide (s = k ++ m)
|}.
#[export] Instance rsa_laws : BlindRsaLaws.
Proof.
  split; intros; simpl in *; eauto. simplify_eq. exists (k ++ m).
  by rewrite decide_True, bool_decide_true.
Qed.
End Toy.
