(* ===== verification/SosState.v ===== *)
(** * Sosistab3 record layer (libraries/sillad-sosistab3/src/state.rs)

    A connection is a pair of one-way streams of hunks.  A hunk is the sealed
    four-byte length (20 bytes with its tag) followed by the sealed body and
    its tag; a negative length marks padding, which the receiver discards.
    The two keys are derived from the handshake's shared secret, the nonces
    count up from 0.  [send_buf] of the source is scratch space, cleared
    before each use, and has no counterpart here; the random number of extra
    padding bytes is an argument. *)
From Stdlib Require Import ZArith Lia.
From S2P Require Import Prelude Crypto.
Local Open Scope Z_scope.

Record ObfsParams := mkObfs { obfs_lengths : bool; obfs_timing : bool }.
Definition ObfsParams_default : ObfsParams := mkObfs false false.

Record State := mkState {
  shared_secret : list byte;
  send_aead : list byte;          (* the key of the sending cipher *)
  send_nonce : Z;
  recv_aead : list byte;
  recv_nonce : Z;
  obfs_params : ObfsParams
}.

Definition set_send (s : State) (n : Z) : State :=
  mkState (shared_secret s) (send_aead s) n (recv_aead s) (recv_nonce s) (obfs_params s).
Definition set_recv (s : State) (n : Z) : State :=
  mkState (shared_secret s) (send_aead s) (send_nonce s) (recv_aead s) n (obfs_params s).

(** [usize::next_power_of_two]. *)
Definition next_power_of_two (n : Z) : Z := if n <=? 1 then 1 else 2 ^ Z.log2_up n.

(** Nonces are 12 bytes, the counter in the first 8. *)
Definition nonce_bytes (n : Z) : list byte := le_bytes 8 n ++ replicate 4 x00.

Section with_crypto.
Context `{AeadLaws} `{Blake3}.

Definition State_new (ss : list byte) (is_server : bool) (p : ObfsParams) : State :=
  let '(send_key_label, recv_key_label) :=
    if is_server then ("dn"%string, "up"%string) else ("up"%string, "dn"%string) in
  mkState ss (derive_key send_key_label ss) 0 (derive_key recv_key_label ss) 0 p.

(** [fn send_nonce]: the nonce, and the counter moved on. *)
Definition State_send_nonce (s : State) : res io_error (list byte * State) :=
  n ← add_u 64 (send_nonce s) 1;
  Ok (nonce_bytes (send_nonce s), set_send s n).

Definition encrypt_inner (s : State) (bts output : list byte) (is_padding : bool)
    : res io_error (State * list byte * Z) :=
  length_ ← (if is_padding
             then neg_i 32 (cast_i 32 (Z.of_nat (length bts)))
             else Ok (cast_i 32 (Z.of_nat (length bts))));
  let len_bytes := i32_to_le_bytes length_ in
  '(nonce, s) ← State_send_nonce s;
  let '(c1, tag_length) := seal (send_aead s) nonce len_bytes in
  let tally := Z.of_nat (length c1) + Z.of_nat (length tag_length) in
  let output := output ++ c1 ++ tag_length in
  '(nonce, s) ← State_send_nonce s;
  let '(c2, tag_body) := seal (send_aead s) nonce bts in
  let tally := tally + (Z.of_nat (length c2) + Z.of_nat (length tag_body)) in
  Ok (s, output ++ c2 ++ tag_body, tally).

(** [lala[..n]] of an array of 2000 zeroes. *)
Definition lala (n : Z) : res io_error (list byte) :=
  if (0 <=? n) && (n <=? 2000) then Ok (replicate (Z.to_nat n) x00) else Panic.

Definition encrypt (s : State) (bts output : list byte) (r : Z)
    : res io_error (State * list byte) :=
  '(s, output, orig_len) ← encrypt_inner s bts output false;
  overhead ← sub_u usize_bits orig_len (Z.of_nat (length bts));
  if obfs_lengths (obfs_params s) then
    if orig_len <? 2000 then
      let desired_len := next_power_of_two (orig_len + overhead) + r in
      d ← sub_u usize_bits desired_len orig_len;
      padding_inner_len ← sub_u usize_bits d overhead;
      pad ← lala padding_inner_len;
      '(s, output, padding_len) ← encrypt_inner s pad output true;
      if orig_len + padding_len =? desired_len then Ok (s, output) else Panic
    else Ok (s, output)
  else Ok (s, output).

Definition State_recv_nonce (s : State) (offset : Z) : res io_error (list byte) :=
  n ← add_u 64 (recv_nonce s) offset; Ok (nonce_bytes n).

Definition too_short : io_error := IoError InvalidData "Encrypted data is too short".
Definition need_more : io_error := IoError WouldBlock "not enough data after the length".
Definition bad_length : io_error := IoError BrokenPipe "decryption of the length failed".
Definition bad_body : io_error := IoError BrokenPipe "decrypt of the body failed".

(** [decrypt]: the new state, what it appends to [output], and the number of
    input bytes it used. *)
Definition decrypt (s : State) (bts : list byte) : res io_error (State * list byte * Z) :=
  if decide (length bts < 24)%nat then Err too_short
  else
    let enc_length := take 4 bts in
    let tag_length := take 16 (drop 4 bts) in
    let rest := drop 20 bts in
    nonce ← State_recv_nonce s 0;
    len_bytes ← ok_or (open (recv_aead s) nonce enc_length tag_length) bad_length;
    let length_ := i32_from_le_bytes len_bytes in
    let actual_length := Z.abs length_ in
    if Z.of_nat (length rest) <? actual_length + 16 then Err need_more
    else
      let enc_body := take (Z.to_nat actual_length) rest in
      let tag_body := take 16 (drop (Z.to_nat actual_length) rest) in
      nonce ← State_recv_nonce s 1;
      body ← ok_or (open (recv_aead s) nonce enc_body tag_body) bad_body;
      n ← add_u 64 (recv_nonce s) 2;
      Ok (set_recv s n, if 0 <? length_ then body else [],
          4 + 16 + 16 + Z.of_nat (length body)).

(** ** Hunks *)

(** The bytes of a hunk sealed with key [k] at counter [n]. *)
Definition hunk (k : list byte) (n : Z) (is_padding : bool) (bts : list byte) : list byte :=
  let len := Z.of_nat (length bts) in
  let '(c1, t1) := seal k (nonce_bytes n) (i32_to_le_bytes (if is_padding then - len else len)) in
  let '(c2, t2) := seal k (nonce_bytes (n + 1)) bts in
  c1 ++ t1 ++ c2 ++ t2.

(** What the receiver keeps of a hunk. *)
Definition payload (m : bool * list byte) : list byte := if fst m then [] else snd m.

Fixpoint hunks (k : list byte) (n : Z) (ms : list (bool * list byte)) : list byte :=
  match ms with
  | [] => []
  | (p, b) :: ms => hunk k n p b ++ hunks k (n + 2) ms
  end.

(** The signed length fits the four bytes that carry it. *)
Definition signed_len (m : bool * list byte) : Z :=
  let len := Z.of_nat (length (snd m)) in if fst m then - len else len.
Definition small (m : bool * list byte) : Prop := - 2 ^ 31 <= signed_len m < 2 ^ 31.

Lemma length_hunk k n p b : length (hunk k n p b) = (36 + length b)%nat.
Proof.
  unfold hunk.
  pose proof (length_ct k (nonce_bytes n)
    (i32_to_le_bytes (if p then - Z.of_nat (length b) else Z.of_nat (length b)))) as L1.
  pose proof (length_tag k (nonce_bytes n)
    (i32_to_le_bytes (if p then - Z.of_nat (length b) else Z.of_nat (length b)))) as L2.
  pose proof (length_ct k (nonce_bytes (n + 1)) b) as L3.
  pose proof (length_tag k (nonce_bytes (n + 1)) b) as L4.
  destruct (seal _ (nonce_bytes n) _), (seal _ _ b). cbn [fst snd] in *.
  rewrite length_i32 in L1. len.
Qed.

Lemma hunks_app k n ms1 ms2 :
  hunks k n (ms1 ++ ms2) = hunks k n ms1 ++ hunks k (n + 2 * Z.of_nat (length ms1)) ms2.
Proof.
  revert n; induction ms1 as [|[p b] ms1 IH]; intros n; simpl.
  - f_equal. lia.
  - rewrite IH, <- app_assoc. do 3 f_equal. lia.
Qed.

Lemma encrypt_inner_Ok s bts output p :
  Z.of_nat (length bts) < 2 ^ 31 → 0 <= send_nonce s → send_nonce s + 2 < 2 ^ 64 →
  encrypt_inner s bts output p =
    Ok (set_send s (send_nonce s + 2), output ++ hunk (send_aead s) (send_nonce s) p bts,
        36 + Z.of_nat (length bts)).
Proof.
  intros Hl Hn0 Hn. unfold encrypt_inner.
  rewrite cast_i_small by lia.
  assert ((if p then neg_i 32 (Z.of_nat (length bts)) else Ok (Z.of_nat (length bts)))
    = Ok (E := io_error) (if p then - Z.of_nat (length bts) else Z.of_nat (length bts))) as ->.
  { destruct p; [|done]. unfold neg_i, fits_i.
    destruct (Z.leb_spec (- 2 ^ (32 - 1)) (- Z.of_nat (length bts))); [|lia].
    destruct (Z.ltb_spec (- Z.of_nat (length bts)) (2 ^ (32 - 1))); [done|lia]. }
  cbn [mbind res_bind]. unfold State_send_nonce.
  rewrite add_u_Ok by lia. cbn [mbind res_bind set_send send_aead send_nonce].
  pose proof (length_hunk (send_aead s) (send_nonce s) p bts) as L. unfold hunk in L. unfold hunk.
  destruct (seal (send_aead s) (nonce_bytes (send_nonce s)) _) as [c1 t1].
  rewrite add_u_Ok by lia. cbn [mbind res_bind set_send send_aead send_nonce].
  destruct (seal (send_aead s) (nonce_bytes (send_nonce s + 1)) bts) as [c2 t2].
  rewrite <- !app_assoc. unfold set_send; cbn [shared_secret send_aead recv_aead recv_nonce obfs_params].
  replace (send_nonce s + 1 + 1) with (send_nonce s + 2) by lia.
  autorewrite with len in L. do 2 f_equal. lia.
Qed.

(** The padding arithmetic never leaves its ranges: the slice of the zero
    array is in bounds and the final assertion holds. *)
Lemma padding_in_range len r :
  0 <= len → len + 36 < 2000 → 0 <= r < 10 →
  72 + len <= next_power_of_two (len + 36 + 36) ∧
  next_power_of_two (len + 36 + 36) + r - (len + 36) - 36 <= 2000.
Proof.
  intros Hl0 Hl1 Hr. unfold next_power_of_two.
  destruct (Z.leb_spec (len + 36 + 36) 1); [lia|].
  pose proof (Z.log2_up_spec (len + 36 + 36) ltac:(lia)) as [Hlo Hhi].
  split; [lia|].
  assert (Z.log2_up (len + 36 + 36) <= 11).
  { transitivity (Z.log2_up (2 ^ 11)); [apply Z.log2_up_le_mono; lia|by rewrite Z.log2_up_pow2]. }
  assert (2 ^ Z.log2_up (len + 36 + 36) <= 2 ^ 11) by (apply Z.pow_le_mono_r; lia).
  assert (2 ^ 11 = 2048) by done.
  destruct (Z.le_gt_cases (Z.log2_up (len + 36 + 36)) 7) as [H7|H7].
  - assert (2 ^ Z.log2_up (len + 36 + 36) <= 2 ^ 7) by (apply Z.pow_le_mono_r; lia). lia.
  - lia.
Qed.

(** The hunks [encrypt] appends: the data and, under [obfs_lengths], one hunk
    of padding behind a short one. *)
Definition encrypt_hunks (s : State) (bts : list byte) (r : Z) : list (bool * list byte) :=
  let len := Z.of_nat (length bts) in
  (false, bts) ::
  (if obfs_lengths (obfs_params s) && (len + 36 <? 2000)
   then [(true, replicate (Z.to_nat (next_power_of_two (len + 36 + 36) + r - (len + 36) - 36)) x00)]
   else []).

Lemma encrypt_hunks_payload s bts r : concat (map payload (encrypt_hunks s bts r)) = bts.
Proof.
  unfold encrypt_hunks. simpl. case_match; simpl; by rewrite app_nil_r.
Qed.

Lemma encrypt_hunks_small s bts r :
  Z.of_nat (length bts) < 2 ^ 31 → 0 <= r < 10 → Forall small (encrypt_hunks s bts r).
Proof.
  intros Hl Hr. unfold encrypt_hunks. constructor; [unfold small, signed_len; simpl; lia|].
  destruct (obfs_lengths _); simpl; [|constructor].
  destruct (Z.ltb_spec (Z.of_nat (length bts) + 36) 2000); [|constructor].
  constructor; [|done]. unfold small, signed_len; cbn [fst snd]. rewrite length_replicate.
  pose proof (padding_in_range (Z.of_nat (length bts)) r). lia.
Qed.

Lemma encrypt_Ok s bts output r :
  Z.of_nat (length bts) < 2 ^ 31 → 0 <= r < 10 →
  0 <= send_nonce s → send_nonce s + 4 < 2 ^ 64 →
  let ms := encrypt_hunks s bts r in
  encrypt s bts output r =
    Ok (set_send s (send_nonce s + 2 * Z.of_nat (length ms)),
        output ++ hunks (send_aead s) (send_nonce s) ms).
Proof.
  intros Hl Hr Hn0 Hn. unfold encrypt, encrypt_hunks. cbn zeta.
  rewrite encrypt_inner_Ok by lia. cbn [mbind res_bind].
  rewrite sub_u_Ok by (unfold usize_bits; lia). cbn [mbind res_bind set_send obfs_params].
  set (len := Z.of_nat (length bts)) in *.
  replace (36 + len - len) with 36 by lia. rewrite (Z.add_comm 36 len).
  destruct (obfs_lengths (obfs_params s)); cbn [andb].
  2:{ simpl. by rewrite app_nil_r. }
  destruct (Z.ltb_spec (len + 36) 2000) as [Hs|].
  2:{ simpl. by rewrite app_nil_r. }
  pose proof (padding_in_range len r ltac:(lia) Hs Hr) as [P1 P2].
  rewrite sub_u_Ok by (unfold usize_bits; lia). cbn [mbind res_bind].
  rewrite sub_u_Ok by (unfold usize_bits; lia). cbn [mbind res_bind].
  set (pl := next_power_of_two (len + 36 + 36) + r - (len + 36) - 36) in *.
  unfold lala. destruct (Z.leb_spec 0 pl), (Z.leb_spec pl 2000); try lia. cbn [andb mbind res_bind].
  rewrite encrypt_inner_Ok; cbn [set_send send_nonce send_aead]; rewrite ?length_replicate; try lia.
  cbn [mbind res_bind].
  destruct (Z.eqb_spec (len + 36 + (36 + Z.of_nat (Z.to_nat pl)))
              (next_power_of_two (len + 36 + 36) + r)); [|lia].
  cbn [length hunks]. rewrite app_nil_r, <- app_assoc. unfold set_send; simpl.
  do 2 f_equal. f_equal. lia.
Qed.

(** ** Decryption of hunks *)

Lemma hunk_split k n (p : bool) (b : list byte) :
  let len := Z.of_nat (length b) in
  let lb := i32_to_le_bytes (if p then - len else len) in
  ∃ c1 t1 c2 t2, hunk k n p b = c1 ++ t1 ++ c2 ++ t2 ∧
    seal k (nonce_bytes n) lb = (c1, t1) ∧ seal k (nonce_bytes (n + 1)) b = (c2, t2) ∧
    length c1 = 4%nat ∧ length t1 = 16%nat ∧ length c2 = length b ∧ length t2 = 16%nat.
Proof.
  cbn zeta. unfold hunk.
  set (lb := i32_to_le_bytes _).
  pose proof (length_ct k (nonce_bytes n) lb) as L1.
  pose proof (length_tag k (nonce_bytes n) lb) as L2.
  pose proof (length_ct k (nonce_bytes (n + 1)) b) as L3.
  pose proof (length_tag k (nonce_bytes (n + 1)) b) as L4.
  destruct (seal k (nonce_bytes n) lb) as [c1 t1], (seal k (nonce_bytes (n + 1)) b) as [c2 t2].
  unfold lb in L1. rewrite length_i32 in L1. by exists c1, t1, c2, t2.
Qed.

Lemma recv_nonce_Ok s o :
  0 <= recv_nonce s + o < 2 ^ 64 → State_recv_nonce s o = Ok (nonce_bytes (recv_nonce s + o)).
Proof. intros. unfold State_recv_nonce. by rewrite add_u_Ok by lia. Qed.

Lemma take_app_exact {A} n (l k : list A) : length l = n → take n (l ++ k) = l.
Proof. intros <-. apply take_app_length. Qed.
Lemma drop_app_exact {A} n (l k : list A) : length l = n → drop n (l ++ k) = k.
Proof. intros <-. apply drop_app_length. Qed.

(** The first 20 bytes decide the length, whatever follows. *)
Lemma decrypt_length s (lb c1 t1 tl : list byte) :
  seal (recv_aead s) (nonce_bytes (recv_nonce s)) lb = (c1, t1) →
  length c1 = 4%nat → length t1 = 16%nat → (4 <= length tl)%nat →
  0 <= recv_nonce s < 2 ^ 64 →
  decrypt s (c1 ++ t1 ++ tl) =
    let length_ := i32_from_le_bytes lb in
    let actual_length := Z.abs length_ in
    if Z.of_nat (length tl) <? actual_length + 16 then Err need_more
    else
      nonce ← State_recv_nonce s 1;
      body ← ok_or (open (recv_aead s) nonce (take (Z.to_nat actual_length) tl)
                (take 16 (drop (Z.to_nat actual_length) tl))) bad_body;
      n ← add_u 64 (recv_nonce s) 2;
      Ok (set_recv s n, if 0 <? length_ then body else [],
          4 + 16 + 16 + Z.of_nat (length body)).
Proof.
  intros E L1 L2 L3 Hn. unfold decrypt. rewrite decide_False by len.
  rewrite (recv_nonce_Ok s 0) by lia. rewrite Z.add_0_r. cbn [mbind res_bind].
  rewrite (take_app_exact 4) by done. rewrite (drop_app_exact 4) by done.
  rewrite (take_app_exact 16) by done.
  rewrite (proj2 (open_iff _ _ _ _ lb) E). cbn [ok_or].
  rewrite (app_assoc c1), (drop_app_exact 20) by len. done.
Qed.

Lemma decrypt_hunk s p b rest :
  small (p, b) → 0 <= recv_nonce s → recv_nonce s + 2 < 2 ^ 64 →
  decrypt s (hunk (recv_aead s) (recv_nonce s) p b ++ rest) =
    Ok (set_recv s (recv_nonce s + 2), payload (p, b), 36 + Z.of_nat (length b)).
Proof.
  unfold small, signed_len; cbn [fst snd]. intros Hs Hn0 Hn.
  destruct (hunk_split (recv_aead s) (recv_nonce s) p b)
    as (c1 & t1 & c2 & t2 & -> & E1 & E2 & L1 & L2 & L3 & L4).
  rewrite <- !app_assoc. erewrite decrypt_length by (done || lia || len). cbn zeta.
  rewrite i32_roundtrip by done.
  assert (Z.abs (if p then - Z.of_nat (length b) else Z.of_nat (length b)) = Z.of_nat (length b))
    as -> by (destruct p; lia).
  destruct (Z.ltb_spec (Z.of_nat (length (c2 ++ t2 ++ rest))) (Z.of_nat (length b) + 16)); [len|].
  rewrite recv_nonce_Ok by lia. cbn [mbind res_bind].
  rewrite Nat2Z.id, (take_app_exact (length b)), (drop_app_exact (length b)), (take_app_exact 16) by done.
  rewrite (proj2 (open_iff _ _ _ _ b) E2). cbn [ok_or mbind res_bind].
  rewrite add_u_Ok by lia. cbn [mbind res_bind]. do 2 f_equal. f_equal.
  unfold payload; simpl. destruct p.
  - destruct (Z.ltb_spec 0 (- Z.of_nat (length b))); [lia|done].
  - destruct (Z.ltb_spec 0 (Z.of_nat (length b))); [done|]. destruct b; [done|simpl in *; lia].
Qed.

(** An incomplete hunk only asks for more bytes. *)
Lemma decrypt_partial s p b pre suf :
  small (p, b) → 0 <= recv_nonce s → recv_nonce s + 2 < 2 ^ 64 →
  hunk (recv_aead s) (recv_nonce s) p b = pre ++ suf → suf ≠ [] →
  decrypt s pre = Err too_short ∨ decrypt s pre = Err need_more.
Proof.
  unfold small, signed_len; cbn [fst snd]. intros Hs Hn0 Hn Eh Hsuf.
  destruct (decide (length pre < 24)%nat) as [Hl|Hl].
  { left. unfold decrypt. by rewrite decide_True. }
  right. destruct (hunk_split (recv_aead s) (recv_nonce s) p b)
    as (c1 & t1 & c2 & t2 & E & E1 & E2 & L1 & L2 & L3 & L4).
  rewrite Eh, (app_assoc c1) in E.
  assert (Hpre : pre = c1 ++ t1 ++ drop 20 pre).
  { rewrite <- (take_drop 20 pre) at 1. rewrite app_assoc. f_equal.
    rewrite <- (take_app_exact 20 (c1 ++ t1) (c2 ++ t2)) by len. rewrite <- E.
    rewrite take_app_le by lia. done. }
  assert (Hlen : (length suf > 0)%nat) by (destruct suf; [done|simpl; lia]).
  assert (Htot : (length pre + length suf = 36 + length b)%nat).
  { rewrite <- (length_hunk (recv_aead s) (recv_nonce s) p b), Eh. len. }
  rewrite Hpre. erewrite decrypt_length by (done || lia || len). cbn zeta.
  rewrite i32_roundtrip by done.
  destruct (Z.ltb_spec (Z.of_nat (length (drop 20 pre)))
    (Z.abs (if p then - Z.of_nat (length b) else Z.of_nat (length b)) + 16)); [done|].
  rewrite length_drop in *. destruct p; lia.
Qed.

Lemma nonneg_len p (b : list byte) z :
  Z.of_nat (length b) = Z.abs z → p = (z <? 0) → signed_len (p, b) = z.
Proof. unfold signed_len; simpl. intros -> ->. destruct (Z.ltb_spec z 0); lia. Qed.

(** C8: the record layer accepts exactly the sealings under the receiving key
    at the receiving counter.  A successful [decrypt] means the input starts
    with the hunk that [encrypt] writes for some body at this position of the
    stream, so hunks cannot be altered, replayed, reordered or moved between
    directions without producing a valid tag; the state moves on by two nonces,
    padding yields no output, and the count returned is the hunk's size. *)
Theorem decrypt_iff s bts s' out n :
  0 <= recv_nonce s → recv_nonce s + 2 < 2 ^ 64 →
  decrypt s bts = Ok (s', out, n) ↔
  ∃ p b rest, bts = hunk (recv_aead s) (recv_nonce s) p b ++ rest ∧ small (p, b) ∧
    s' = set_recv s (recv_nonce s + 2) ∧ out = payload (p, b) ∧ n = 36 + Z.of_nat (length b).
Proof.
  intros Hn0 Hn. split.
  2:{ intros (p & b & rest & -> & Hs & -> & -> & ->). by apply decrypt_hunk. }
  unfold decrypt. case_decide as Hl; [done|]. rewrite !recv_nonce_Ok by lia.
  cbn [mbind res_bind]. rewrite Z.add_0_r.
  destruct (open _ (nonce_bytes (recv_nonce s)) _ _) as [lb|] eqn:E1; [|done].
  destruct (open_length _ _ _ _ _ E1) as [L1 L2]. rewrite length_take in L1.
  apply open_iff in E1. cbn [ok_or mbind res_bind].
  set (z := i32_from_le_bytes lb).
  destruct (Z.ltb_spec (Z.of_nat (length (drop 20 bts))) (Z.abs z + 16)) as [|Hlen]; [done|].
  destruct (open _ (nonce_bytes (recv_nonce s + 1)) _ _) as [b|] eqn:E2; [|done].
  destruct (open_length _ _ _ _ _ E2) as [L3 L4]. apply open_iff in E2.
  cbn [ok_or mbind res_bind]. rewrite add_u_Ok by lia. cbn [mbind res_bind]. intros [= <- <- <-].
  assert (Hb : Z.of_nat (length b) = Z.abs z).
  { rewrite L3, length_take. rewrite length_drop in *. lia. }
  assert (Hz : - 2 ^ 31 <= z < 2 ^ 31) by (apply (cast_i_range 32); lia).
  pose proof (nonneg_len (z <? 0) b z Hb eq_refl) as Hsl.
  exists (z <? 0), b, (drop 16 (drop (Z.to_nat (Z.abs z)) (drop 20 bts))).
  split_and!; [|by unfold small; rewrite Hsl|done| |done].
  - unfold hunk. unfold signed_len in Hsl. cbn [fst snd] in Hsl. rewrite Hsl.
    unfold z at 1. rewrite i32_from_to by lia. rewrite E1, E2. rewrite <- !app_assoc.
    rewrite !take_drop. change (drop 20 bts) with (drop (4 + 16) bts).
    by rewrite <- drop_drop, !take_drop.
  - unfold payload; cbn [fst snd]. destruct (Z.ltb_spec 0 z), (Z.ltb_spec z 0); try lia; try done.
    destruct b; [done|]. simpl in Hb. lia.
Qed.
End with_crypto.

Import Toy.

Lemma decrypt_iff_witness :
  ∃ b, decrypt (State_new [x07] true ObfsParams_default)
     (hunk (derive_key "up" [x07]) 0 false [x0a; x0b] ++ [xff])
   = Ok (set_recv (State_new [x07] true ObfsParams_default) 2, b, 38) ∧ b = [x0a; x0b].
Proof.
  exists [x0a; x0b]. split; [|done]. apply decrypt_iff; [by vm_compute|by vm_compute|].
  exists false, [x0a; x0b], [xff]. split_and!; try done; by vm_compute.
Defined.
