(* ===== verification/SosPipe.v ===== *)
(** * Sosistab3 pipes (libraries/sillad-sosistab3/src/lib.rs)

    [SosistabPipe] as a poll-driven state machine over a lower pipe.  The
    lower pipe is the environment: on the writing side a script of poll
    outcomes, on the reading side the bytes on their way and a script of
    events that says how much of them each poll hands out. *)
From Stdlib Require Import ZArith Lia.
From S2P Require Import Prelude Crypto SosState.
Local Open Scope Z_scope.

Record SosistabPipe := mkPipe {
  state : State;
  read_buf : list byte;
  read_closed : bool;
  raw_read_buf : list byte;
  to_write_buf : list byte
}.

Definition SosistabPipe_new (st : State) : SosistabPipe := mkPipe st [] false [] [].

(** What a poll of the lower pipe for reading does next: nothing is there
    yet, at most [S k] bytes are handed out, the read fails, or the other side
    has closed. *)
Inductive lower_ev := LWait | LData (k : nat) | LFail (e : io_error) | LEof.

Definition lower_read (ev : lower_ev) (wire : list byte) (blen : nat)
    : poll (res io_error (list byte)) * list byte :=
  match ev with
  | LWait => (Pending, wire)
  | LFail e => (Ready (Err e), wire)
  | LEof => (Ready (Ok []), wire)
  | LData k =>
      match wire with
      | [] => (Pending, wire)
      | _ => let n := Nat.min (S k) blen in (Ready (Ok (take n wire)), drop n wire)
      end
  end.

Section with_crypto.
Context `{AeadLaws} `{Blake3}.

(** ** Writing *)

(** The loop of [poll_write]; [blen] is the caller's [buf.len()].  Returns
    the outcome, the rest of [to_write_buf] and the bytes the lower pipe
    took.  [drain(..n)] beyond the end panics. *)
Fixpoint write_loop (script : list (poll (res io_error Z))) (blen : Z) (tw : list byte)
    : poll (res io_error Z) * list byte * list byte :=
  match script with
  | [] | Pending :: _ => (Pending, tw, [])
  | Ready (Err e) :: _ => (Ready (Err e), tw, [])
  | Ready Panic :: _ => (Ready Panic, tw, [])
  | Ready (Ok n) :: script =>
      if (n <? 0) || (Z.of_nat (length tw) <? n) then (Ready Panic, tw, [])
      else
        let out := take (Z.to_nat n) tw in
        let tw := drop (Z.to_nat n) tw in
        if decide (tw = []) then (Ready (Ok blen), tw, out)
        else let '(o, tw, out') := write_loop script blen tw in (o, tw, out ++ out')
  end.

Definition poll_write (p : SosistabPipe) (buf : list byte) (r : Z)
    (script : list (poll (res io_error Z)))
    : poll (res io_error Z) * SosistabPipe * list byte :=
  match (if decide (to_write_buf p = []) then encrypt (state p) buf [] r
         else Ok (state p, to_write_buf p)) with
  | Ok (st, tw) =>
      let '(o, tw, out) := write_loop script (Z.of_nat (length buf)) tw in
      (o, mkPipe st (read_buf p) (read_closed p) (raw_read_buf p) tw, out)
  | Err e => (Ready (Err e), p, [])
  | Panic => (Ready Panic, p, [])
  end.

(** [poll_flush]: [w] is the lower pipe's answer to the write of what is
    left, [fl] its answer to the flush. *)
Definition poll_flush (p : SosistabPipe) (w : poll (res io_error Z))
    (fl : poll (res io_error unit)) : poll (res io_error unit) * SosistabPipe * list byte :=
  if decide (to_write_buf p = []) then (fl, p, [])
  else
    match w with
    | Pending => (Pending, p, [])
    | Ready (Err e) => (Ready (Err e), p, [])
    | Ready Panic => (Ready Panic, p, [])
    | Ready (Ok n) =>
        if (n <? 0) || (Z.of_nat (length (to_write_buf p)) <? n) then (Ready Panic, p, [])
        else
          let out := take (Z.to_nat n) (to_write_buf p) in
          let tw := drop (Z.to_nat n) (to_write_buf p) in
          let p := mkPipe (state p) (read_buf p) (read_closed p) (raw_read_buf p) tw in
          (if decide (tw = []) then fl else Pending, p, out)
    end.

(** ** Reading *)

(** The inner loop of [poll_read]: decrypt as many hunks as are complete.
    Every success consumes at least 36 bytes, so the fuel of the caller (one
    more than the bytes at hand) is never used up. *)
Fixpoint decrypt_loop (fuel : nat) (st : State) (raw rbuf : list byte)
    : res io_error unit * State * list byte * list byte :=
  match fuel with
  | O => (Ok tt, st, raw, rbuf)
  | S fuel =>
      match decrypt st raw with
      | Ok (st, out, n) => decrypt_loop fuel st (drop (Z.to_nat n) raw) (rbuf ++ out)
      | Err e => (if decide (kind e = BrokenPipe) then Err e else Ok tt, st, raw, rbuf)
      | Panic => (Panic, st, raw, rbuf)
      end
  end.

(** [VecDeque::read] hands out bytes of the front slice of the ring buffer;
    [front] says how long that slice is. *)
Context (front : list byte → nat).

Definition deque_read (rbuf : list byte) (blen : nat) : list byte * list byte :=
  let n := Nat.min blen (front rbuf) in (take n rbuf, drop n rbuf).

Fixpoint poll_read (evs : list lower_ev) (wire : list byte) (p : SosistabPipe) (blen : nat)
    : poll (res io_error (list byte)) * SosistabPipe * list byte * list lower_ev :=
  if negb (bool_decide (read_buf p = [])) || read_closed p then
    let '(l, rb) := deque_read (read_buf p) blen in
    (Ready (Ok l), mkPipe (state p) rb (read_closed p) (raw_read_buf p) (to_write_buf p), wire, evs)
  else
    match evs with
    | [] => (Pending, p, wire, [])
    | ev :: evs =>
        let '(r, wire) := lower_read ev wire blen in
        match r with
        | Pending => (Pending, p, wire, evs)
        | Ready (Err e) => (Ready (Err e), p, wire, evs)
        | Ready Panic => (Ready Panic, p, wire, evs)
        | Ready (Ok []) =>
            poll_read evs wire
              (mkPipe (state p) (read_buf p) true (raw_read_buf p) (to_write_buf p)) blen
        | Ready (Ok data) =>
            let raw := raw_read_buf p ++ data in
            let '(r, st, raw, rb) := decrypt_loop (S (length raw)) (state p) raw (read_buf p) in
            let p := mkPipe st rb (read_closed p) raw (to_write_buf p) in
            match r with
            | Ok _ => poll_read evs wire p blen
            | Err e => (Ready (Err e), p, wire, evs)
            | Panic => (Ready Panic, p, wire, evs)
            end
        end
    end.

(** A reader: a sequence of polls with the given buffer sizes, until one
    fails. *)
Fixpoint reads (blens : list nat) (evs : list lower_ev) (wire : list byte) (p : SosistabPipe)
    : list byte * res io_error unit * SosistabPipe * list byte :=
  match blens with
  | [] => ([], Ok tt, p, wire)
  | blen :: blens =>
      let '(o, p, wire, evs) := poll_read evs wire p blen in
      match o with
      | Pending => reads blens evs wire p
      | Ready (Ok l) => let '(l', r, p, wire) := reads blens evs wire p in (l ++ l', r, p, wire)
      | Ready (Err e) => ([], Err e, p, wire)
      | Ready Panic => ([], Panic, p, wire)
      end
  end.

(** A writer that, as [AsyncWrite] demands, polls with the same buffer until
    it is taken. *)
Fixpoint write_until (p : SosistabPipe) (buf : list byte) (r : Z)
    (scripts : list (list (poll (res io_error Z)))) : option (SosistabPipe * list byte) :=
  match scripts with
  | [] => None
  | sc :: scripts =>
      let '(o, p, out) := poll_write p buf r sc in
      match o with
      | Ready (Ok _) => Some (p, out)
      | Pending => '(p, out') ← write_until p buf r scripts; Some (p, out ++ out')
      | _ => None
      end
  end.

Fixpoint writes (p : SosistabPipe)
    (l : list (list byte * Z * list (list (poll (res io_error Z)))))
    : option (SosistabPipe * list byte) :=
  match l with
  | [] => Some (p, [])
  | (buf, r, scripts) :: l =>
      '(p, out) ← write_until p buf r scripts;
      '(p, out') ← writes p l;
      Some (p, out ++ out')
  end.

(** ** What a writer puts on the wire *)

Lemma write_loop_spec sc blen tw o tw' out :
  write_loop sc blen tw = (o, tw', out) → tw ≠ [] →
  out ++ tw' = tw ∧ (o = Pending → tw' ≠ []) ∧
  ∀ n, o = Ready (Ok n) → n = blen ∧ tw' = [].
Proof.
  revert tw o tw' out; induction sc as [|[[n|e|]|] sc IH]; intros tw o tw' out; simpl;
    [naive_solver| |naive_solver..].
  destruct ((n <? 0) || (Z.of_nat (length tw) <? n)); [naive_solver|].
  case_decide as Hd.
  - intros [= <- <- <-] _. rewrite take_drop. naive_solver.
  - destruct (write_loop sc blen _) as [[o1 tw1] out1] eqn:E. intros [= <- <- <-] _.
    destruct (IH _ _ _ _ E Hd) as (IH1 & IH2). split; [|done].
    by rewrite <- app_assoc, IH1, take_drop.
Qed.

Lemma hunks_nonempty k n m ms : hunks k n (m :: ms) ≠ [].
Proof.
  destruct m as [q b]. simpl. intros E. apply (f_equal length) in E.
  rewrite length_app, length_hunk in E. simpl in E. lia.
Qed.

Definition call_ok (buf : list byte) (r : Z) : Prop :=
  Z.of_nat (length buf) < 2 ^ 31 ∧ 0 <= r < 10.

(** What is left of a buffer is written by later polls as it is: nothing is
    encrypted twice. *)
Lemma write_until_rest scs p buf r p' out :
  to_write_buf p ≠ [] → write_until p buf r scs = Some (p', out) →
  to_write_buf p' = [] ∧ state p' = state p ∧ out = to_write_buf p.
Proof.
  revert p p' out. induction scs as [|sc scs IH]; intros p p' out Hp; simpl; [done|].
  unfold poll_write. rewrite decide_False by done.
  destruct (write_loop sc _ _) as [[o tw] out1] eqn:E.
  apply write_loop_spec in E as (E1 & E2 & E3); [|done].
  destruct o as [[n|e|]|]; try done.
  - destruct (E3 n eq_refl) as [-> ->]. intros [= <- <-]. simpl.
    rewrite app_nil_r in E1. by rewrite E1.
  - destruct (write_until _ buf r scs) as [[p1 out2]|] eqn:Ew; simpl; [|done].
    intros [= <- <-]. apply IH in Ew as (-> & -> & ->); [|by apply E2]. simpl. by rewrite E1.
Qed.

Lemma write_until_spec scs p buf r p' out :
  call_ok buf r → 0 <= send_nonce (state p) → send_nonce (state p) + 4 < 2 ^ 64 →
  to_write_buf p = [] → write_until p buf r scs = Some (p', out) →
  to_write_buf p' = [] ∧ encrypt (state p) buf [] r = Ok (state p', out).
Proof.
  intros [Hl Hr] Hn0 Hn Hp. destruct scs as [|sc scs]; cbn [write_until]; [done|].
  unfold poll_write. rewrite decide_True by done. rewrite encrypt_Ok by done.
  set (ms := encrypt_hunks (state p) buf r). cbn [app].
  destruct (write_loop sc _ _) as [[o tw] out1] eqn:E.
  apply write_loop_spec in E as (E1 & E2 & E3); [|apply hunks_nonempty].
  destruct o as [[n|e|]|]; try done.
  - destruct (E3 n eq_refl) as [-> ->]. intros [= <- <-]. cbn [state to_write_buf].
    split; [done|]. rewrite app_nil_r in E1. by rewrite E1.
  - destruct (write_until _ buf r scs) as [[p1 out2]|] eqn:Ew; [|done]. cbn [mbind option_bind].
    intros [= <- <-]. apply write_until_rest in Ew as (-> & -> & ->); [|by apply E2].
    cbn [state to_write_buf]. split; [done|]. by rewrite E1.
Qed.

(** The hunks of a sequence of writes. *)
Definition writes_hunks (st : State) (l : list (list byte * Z * list (list (poll (res io_error Z)))))
    : list (bool * list byte) :=
  concat (map (λ '(buf, r, _), encrypt_hunks st buf r) l).

Lemma length_encrypt_hunks st buf r : (1 <= length (encrypt_hunks st buf r) <= 2)%nat.
Proof. unfold encrypt_hunks. simpl. case_match; simpl; lia. Qed.

Lemma writes_hunks_payload st l :
  concat (map payload (writes_hunks st l)) = concat (map (λ '(buf, _, _), buf) l).
Proof.
  unfold writes_hunks. induction l as [|[[buf r] scs] l IH]; [done|]. cbn [map concat].
  rewrite map_app, concat_app, IH. by rewrite encrypt_hunks_payload.
Qed.

Lemma writes_hunks_small st l :
  Forall (λ '(buf, r, _), call_ok buf r) l → Forall small (writes_hunks st l).
Proof.
  unfold writes_hunks. induction 1 as [|[[buf r] scs] l [Hb Hr] _ IH]; [done|]. cbn [map concat].
  apply Forall_app. split; [by apply encrypt_hunks_small|done].
Qed.

Lemma length_writes_hunks st l : (length (writes_hunks st l) <= 2 * length l)%nat.
Proof.
  unfold writes_hunks. induction l as [|[[buf r] scs] l IH]; [done|]. cbn [map concat length].
  rewrite length_app. pose proof (length_encrypt_hunks st buf r). lia.
Qed.

Lemma writes_spec l p p' wire :
  Forall (λ '(buf, r, _), call_ok buf r) l → to_write_buf p = [] →
  0 <= send_nonce (state p) → send_nonce (state p) + 4 * Z.of_nat (length l) < 2 ^ 64 →
  writes p l = Some (p', wire) →
  wire = hunks (send_aead (state p)) (send_nonce (state p)) (writes_hunks (state p) l).
Proof.
  intros Hl. revert p p' wire. induction Hl as [|[[buf r] scs] l Hc _ IH];
    intros p p' wire Htw Hn0 Hn; cbn [writes].
  { by intros [= <- <-]. }
  cbn [length] in Hn.
  destruct (write_until p buf r scs) as [[p1 out1]|] eqn:Ew; [|done]. cbn [mbind option_bind].
  destruct (writes p1 l) as [[p2 out2]|] eqn:Ew2; [|done]. cbn [mbind option_bind].
  intros [= <- <-].
  apply write_until_spec in Ew as [Htw1 Ew]; [|done|lia|lia|done]. destruct Hc as [Hb Hr].
  rewrite encrypt_Ok in Ew by (done || lia). cbn zeta in Ew.
  pose proof (length_encrypt_hunks (state p) buf r) as Lh.
  assert (Est : state p1 = set_send (state p) (send_nonce (state p) +
    2 * Z.of_nat (length (encrypt_hunks (state p) buf r)))) by congruence.
  assert (Eo : out1 = hunks (send_aead (state p)) (send_nonce (state p))
    (encrypt_hunks (state p) buf r)) by (cbn [app] in Ew; congruence).
  apply IH in Ew2; [|done|rewrite Est; cbn [set_send send_nonce]; lia..].
  rewrite Est in Ew2. cbn [set_send send_nonce send_aead] in Ew2.
  unfold writes_hunks in *. cbn [map concat]. by rewrite hunks_app, Eo, Ew2.
Qed.

(** ** What a reader gets off the wire *)

(** The raw bytes at hand do not contain a whole hunk. *)
Definition incomplete (raw : list byte) (ms : list (bool * list byte)) : Prop :=
  match ms with [] => True | (_, b) :: _ => (length raw < 36 + length b)%nat end.

Lemma decrypt_incomplete st raw wire ms :
  raw ++ wire = hunks (recv_aead st) (recv_nonce st) ms → Forall small ms →
  0 <= recv_nonce st → recv_nonce st + 2 * Z.of_nat (length ms) < 2 ^ 64 →
  incomplete raw ms → decrypt st raw = Err too_short ∨ decrypt st raw = Err need_more.
Proof.
  intros E Hs Hn0 Hn Hi. destruct ms as [|[q b] ms]; simpl in E, Hi.
  { apply app_nil in E as [-> _]. by left. }
  apply Forall_cons in Hs as [Hs _]. cbn [length] in Hn.
  apply app_eq_inv in E as [(k & E1 & E2)|(k & E1 & E2)].
  - apply (f_equal length) in E1. rewrite length_app, length_hunk in E1. lia.
  - eapply decrypt_partial; [exact Hs|done|lia|exact E1|]. intros ->.
    apply (f_equal length) in E1. rewrite app_nil_r, length_hunk in E1. lia.
Qed.

Lemma decrypt_loop_spec fuel st raw rbuf wire ms :
  raw ++ wire = hunks (recv_aead st) (recv_nonce st) ms → Forall small ms →
  0 <= recv_nonce st → recv_nonce st + 2 * Z.of_nat (length ms) < 2 ^ 64 →
  (length raw < fuel)%nat →
  ∃ dn ms' raw', ms = dn ++ ms' ∧
    let st' := set_recv st (recv_nonce st + 2 * Z.of_nat (length dn)) in
    decrypt_loop fuel st raw rbuf = (Ok tt, st', raw', rbuf ++ concat (map payload dn)) ∧
    raw' ++ wire = hunks (recv_aead st') (recv_nonce st') ms' ∧ incomplete raw' ms'.
Proof.
  revert st raw rbuf ms. induction fuel as [|fuel IH]; intros st raw rbuf ms E Hs Hn0 Hn Hf; [lia|].
  assert (Hdec : incomplete raw ms ∨ ∃ q b ms1 raw1, ms = (q, b) :: ms1 ∧
    raw = hunk (recv_aead st) (recv_nonce st) q b ++ raw1 ∧
    raw1 ++ wire = hunks (recv_aead st) (recv_nonce st + 2) ms1).
  { destruct ms as [|[q b] ms]; [by left|]. simpl in E.
    destruct (decide (length raw < 36 + length b)%nat) as [|Hge]; [by left|]. right.
    apply app_eq_inv in E as [(k & E1 & E2)|(k & E1 & E2)].
    - exists q, b, ms, k. by subst.
    - assert (k = []) as ->.
      { apply nil_length_inv. apply (f_equal length) in E1. rewrite length_app, length_hunk in E1. lia. }
      rewrite app_nil_r in E1. exists q, b, ms, []. by rewrite app_nil_r, <- E1, E2. }
  destruct Hdec as [Hi|(q & b & ms1 & raw1 & -> & -> & E1)].
  - exists [], ms, raw. cbn [app length map concat]. split; [done|].
    rewrite Z.mul_0_r, Z.add_0_r, app_nil_r.
    assert (set_recv st (recv_nonce st) = st) as -> by (by destruct st).
    split; [|done]. cbn [decrypt_loop].
    destruct (decrypt_incomplete st raw wire ms E Hs Hn0 Hn Hi) as [-> | ->]; done.
  - apply Forall_cons in Hs as [Hs1 Hs]. cbn [length] in Hn.
    rewrite length_app, length_hunk in Hf. cbn [decrypt_loop].
    rewrite decrypt_hunk by (done || lia).
    rewrite drop_app_exact by (rewrite length_hunk; lia).
    destruct (IH (set_recv st (recv_nonce st + 2)) raw1 (rbuf ++ payload (q, b)) ms1)
      as (dn & ms' & raw' & -> & Hl & Hw & Hi); cbn [set_recv recv_nonce recv_aead]; [done|done|lia|lia|lia|].
    exists ((q, b) :: dn), ms', raw'. split; [done|]. cbn [length map concat].
    cbn [set_recv recv_nonce recv_aead] in Hl, Hw |- *.
    replace (recv_nonce st + 2 * Z.of_nat (S (length dn)))
      with (recv_nonce st + 2 + 2 * Z.of_nat (length dn)) by lia.
    split_and!; [|done|done]. rewrite Hl, <- app_assoc. done.
Qed.

(** What is still to come out of the pipe, given what is on the wire. *)
Definition read_inv (p : SosistabPipe) (wire rest : list byte) : Prop :=
  ∃ ms, let st := state p in
    raw_read_buf p ++ wire = hunks (recv_aead st) (recv_nonce st) ms ∧ Forall small ms ∧
    0 <= recv_nonce st ∧ recv_nonce st + 2 * Z.of_nat (length ms) < 2 ^ 64 ∧
    incomplete (raw_read_buf p) ms ∧ rest = read_buf p ++ concat (map payload ms).

Lemma poll_read_spec tail evs wire p blen rest o p' wire' evs' :
  read_inv p (wire ++ tail) rest → poll_read evs wire p blen = (o, p', wire', evs') →
  evs' `suffix_of` evs ∧
  match o with
  | Ready (Ok l) => ∃ rest', rest = l ++ rest' ∧ read_inv p' (wire' ++ tail) rest'
  | Pending => read_inv p' (wire' ++ tail) rest
  | Ready (Err e) => LFail e ∈ evs ∧ read_inv p' (wire' ++ tail) rest
  | Ready Panic => False
  end.
Proof.
  revert wire p o p' wire' evs'. induction evs as [|ev evs IH];
    intros wire p o p' wire' evs' Hinv; cbn [poll_read];
    destruct (negb (bool_decide (read_buf p = [])) || read_closed p) eqn:Ec.
  1,3: unfold deque_read; set (n := Nat.min blen (front (read_buf p))); intros [= <- <- <- <-];
    destruct Hinv as (ms & I1 & I2 & I3 & I4 & I5 & ->); split; [done|];
    exists (drop n (read_buf p) ++ concat (map payload ms)); split;
    [by rewrite app_assoc, take_drop|by exists ms].
  { intros [= <- <- <- <-]. done. }
  assert (Hrb : read_buf p = []).
  { destruct (decide (read_buf p = [])); [done|]. by rewrite bool_decide_false in Ec. }
  assert (Hclose : ∀ w', w' = wire →
    poll_read evs w' (mkPipe (state p) (read_buf p) true (raw_read_buf p) (to_write_buf p)) blen
      = (o, p', wire', evs') →
    evs' `suffix_of` ev :: evs ∧
    match o with
    | Ready (Ok l) => ∃ rest', rest = l ++ rest' ∧ read_inv p' (wire' ++ tail) rest'
    | Pending => read_inv p' (wire' ++ tail) rest
    | Ready (Err e) => LFail e ∈ ev :: evs ∧ read_inv p' (wire' ++ tail) rest
    | Ready Panic => False
    end).
  { intros w' -> Ep. apply IH in Ep as [Es Ho]; [|exact Hinv]. split; [by apply suffix_cons_r|].
    destruct o as [[l|e|]|]; try done. destruct Ho as [Ho1 Ho2]. split; [by apply elem_of_cons; right|done]. }
  destruct ev as [|k|e|]; cbn [lower_read].
  - intros [= <- <- <- <-]. split; [by exists [LWait]|done].
  - destruct wire as [|x wire]; [intros [= <- <- <- <-]; split; [by eexists [_]|done]|].
    set (n := Nat.min (S k) blen).
    destruct (take n (x :: wire)) as [|y data] eqn:Et.
    { apply Hclose. destruct n; [done|]. simpl in Et. done. }
    destruct Hinv as (ms & I1 & I2 & I3 & I4 & I5 & ->).
    destruct (decrypt_loop_spec (S (length (raw_read_buf p ++ y :: data))) (state p)
      (raw_read_buf p ++ y :: data) (read_buf p) (drop n (x :: wire) ++ tail) ms)
      as (dn & ms' & raw' & -> & Hl & Hw & Hi); [|done|done|done|lia|].
    { by rewrite <- app_assoc, <- Et, (app_assoc (take n (x :: wire))), take_drop. }
    rewrite Hl. rewrite length_app in I4. apply Forall_app in I2 as [_ I2].
    intros Ep. apply (IH _ (mkPipe _ _ _ _ _)) in Ep as [Es Ho].
    { split; [by apply suffix_cons_r|].
      destruct o as [[l|e|]|]; try done. destruct Ho as [Ho1 Ho2]; split; [by apply elem_of_cons; right|done]. }
    exists ms'. cbn [state raw_read_buf read_buf].
    split_and!; [done|done|cbn [set_recv recv_nonce]; lia|cbn [set_recv recv_nonce]; lia|done|].
    by rewrite map_app, concat_app, app_assoc.
  - intros [= <- <- <- <-]. split; [by eexists [_]|]. split; [by left|done].
  - by apply Hclose.
Qed.

Lemma reads_spec tail blens evs wire p rest out r q wire' :
  read_inv p (wire ++ tail) rest → reads blens evs wire p = (out, r, q, wire') →
  (∃ rest', rest = out ++ rest' ∧ read_inv q (wire' ++ tail) rest') ∧
  (r = Ok tt ∨ ∃ e, r = Err e ∧ LFail e ∈ evs).
Proof.
  revert evs wire p rest out. induction blens as [|blen blens IH];
    intros evs wire p rest out Hinv; cbn [reads].
  { intros [= <- <- <- <-]. split; [by exists rest|by left]. }
  destruct (poll_read evs wire p blen) as [[[o p1] wire1] evs1] eqn:Ep.
  apply (poll_read_spec tail _ _ _ _ rest) in Ep as [[pre ->] Ho]; [|done].
  assert (Hmono : ∀ e, LFail e ∈ evs1 → LFail e ∈ pre ++ evs1) by set_solver.
  destruct o as [[l|e|]|]; [|..|].
  - destruct Ho as (rest1 & -> & Hinv1).
    destruct (reads blens evs1 wire1 p1) as [[[l' r'] p'] w'] eqn:Er. intros [= <- <- <- <-].
    apply (IH _ _ _ rest1) in Er as [(rest' & -> & Hq) Hr]; [|done].
    split; [exists rest'; by rewrite app_assoc|]. naive_solver.
  - intros [= <- <- <- <-]. destruct Ho as [He Hi]. split; [by exists rest|]. right. eauto.
  - done.
  - intros Er. apply (IH _ _ _ rest) in Er as [Ha Hb]; [|done]. split; [done|]. naive_solver.
Qed.

(** The reader at a point where the first bytes of what was written, [wire], have
    reached it and the others, [tail], have not. *)
Lemma sosistab_delivers st st' l p' wire tail blens evs out r q wire' :
  recv_aead st' = send_aead st → recv_nonce st' = send_nonce st →
  0 <= send_nonce st → send_nonce st + 4 * Z.of_nat (length l) < 2 ^ 64 →
  Forall (λ '(buf, r, _), call_ok buf r) l →
  writes (SosistabPipe_new st) l = Some (p', wire ++ tail) →
  reads blens evs wire (SosistabPipe_new st') = (out, r, q, wire') →
  let written := concat (map (λ '(buf, _, _), buf) l) in
  out `prefix_of` written ∧
  (tail = [] → wire' = [] → read_buf q = [] → out = written) ∧
  (r = Ok tt ∨ ∃ e, r = Err e ∧ LFail e ∈ evs).
Proof.
  intros Ek En Hn0 Hn Hl Hw Hr written.
  pose proof (writes_spec l (SosistabPipe_new st) p' (wire ++ tail) Hl eq_refl Hn0 Hn Hw) as Ew.
  cbn [SosistabPipe_new state] in Ew. pose proof (length_writes_hunks st l) as Hlen.
  destruct (reads_spec tail blens evs wire (SosistabPipe_new st') written out r q wire')
    as [(rest & E & Hq) Hr']; [|exact Hr|].
  { exists (writes_hunks st l). cbn [SosistabPipe_new state raw_read_buf read_buf app].
      rewrite Ek, En. split_and!; [done|by apply writes_hunks_small|done|lia| |].
      - destruct (writes_hunks st l) as [|[? ?] ?]; simpl; lia.
      - by rewrite writes_hunks_payload. }
  split_and!; [by exists rest| |done]. intros -> -> Hrb.
  destruct Hq as (ms & E1 & _ & _ & _ & Hi & Er). rewrite app_nil_r in E1.
  destruct ms as [|[p b] ms].
  - rewrite Er, Hrb in E. simpl in E. by rewrite app_nil_r in E.
  - apply (f_equal length) in E1. simpl in E1, Hi. rewrite length_app, length_hunk in E1. lia.
Qed.

(** A sosistab3 pipe is a reliable byte pipe over any lower pipe.  The
    bytes a reader gets, whatever its buffer sizes and however the lower pipe
    cuts, delays or ends the stream, are a prefix of what the writer wrote
    (padding removed), with the lower pipe free to take any part of a write at
    each poll; they are all of it once the wire and the read buffer are empty;
    and the only error a reader sees is one of the lower pipe. *)
Theorem sosistab_stream st st' l p' wire blens evs out r q wire' :
  recv_aead st' = send_aead st → recv_nonce st' = send_nonce st →
  0 <= send_nonce st → send_nonce st + 4 * Z.of_nat (length l) < 2 ^ 64 →
  Forall (λ '(buf, r, _), call_ok buf r) l →
  writes (SosistabPipe_new st) l = Some (p', wire) →
  reads blens evs wire (SosistabPipe_new st') = (out, r, q, wire') →
  let written := concat (map (λ '(buf, _, _), buf) l) in
  out `prefix_of` written ∧
  (wire' = [] → read_buf q = [] → out = written) ∧
  (r = Ok tt ∨ ∃ e, r = Err e ∧ LFail e ∈ evs).
Proof.
  intros Ek En Hn0 Hn Hl Hw Hr written. rewrite <-(app_nil_r wire) in Hw.
  destruct (sosistab_delivers st st' l p' wire [] blens evs out r q wire' Ek En Hn0 Hn Hl Hw Hr) as (P1 & P2 & P3). auto.
Qed.

(** A read with an empty buffer ends the connection.  When nothing is
    buffered, polling with a zero-length buffer while data is on the wire marks
    the pipe as closed: that read and every later one report end of file,
    whatever arrives. *)
Theorem empty_read_closes k evs wire p blen evs' :
  read_buf p = [] → read_closed p = false → wire ≠ [] →
  ∃ p', poll_read (LData k :: evs) wire p 0 = (Ready (Ok []), p', wire, evs) ∧
    poll_read evs' wire p' blen = (Ready (Ok []), p', wire, evs').
Proof.
  intros Hrb Hc Hw. destruct wire as [|x wire]; [done|].
  exists (mkPipe (state p) [] true (raw_read_buf p) (to_write_buf p)). split.
  - cbn [poll_read]. rewrite Hrb, Hc. rewrite bool_decide_true by done. cbn [negb orb lower_read].
    rewrite Nat.min_0_r. cbn [take drop].
    destruct evs; cbn [poll_read read_buf read_closed]; rewrite orb_true_r; unfold deque_read;
      by rewrite take_nil, drop_nil.
  - destruct evs'; cbn [poll_read read_buf read_closed]; rewrite orb_true_r; unfold deque_read;
      by rewrite take_nil, drop_nil.
Qed.

(** A flush that could only write a part returns [Pending] although the lower
    pipe was ready, so nothing is left to wake the task. *)
Lemma poll_flush_partial p n fl :
  0 <= n < Z.of_nat (length (to_write_buf p)) →
  fst (fst (poll_flush p (Ready (Ok n)) fl)) = Pending.
Proof.
  intros Hn. unfold poll_flush. rewrite decide_False by (intros E; rewrite E in Hn; simpl in Hn; lia).
  destruct (Z.ltb_spec n 0), (Z.ltb_spec (Z.of_nat (length (to_write_buf p))) n); try lia.
  cbn [orb fst]. rewrite decide_False; [done|]. intros E. apply (f_equal length) in E.
  rewrite length_drop in E. simpl in E. lia.
Qed.
End with_crypto.

Import Toy.

(** Two writes, the first taken in three parts over two polls; the reader
    polls with two-byte buffers. *)
Lemma sosistab_stream_witness :
  let st := State_new [x07] false (mkObfs true true) in
  let st' := State_new [x07] true (mkObfs true true) in
  let l := [([x41; x42; x43], 3, [[Ready (Ok 10); Pending]; [Ready (Ok 20); Ready (Ok 101)]]);
            ([x44], 0, [[Ready (Ok 128)]])] in
  ∃ p' wire q,
    writes (SosistabPipe_new st) l = Some (p', wire) ∧
    reads length (replicate 200 2%nat) (replicate 500 (LData 6)) wire (SosistabPipe_new st')
      = ([x41; x42; x43; x44], Ok tt, q, []) ∧
    [x41; x42; x43; x44] `prefix_of` [x41; x42; x43; x44].
Proof.
  cbn zeta.
  destruct (writes (SosistabPipe_new (State_new [x07] false (mkObfs true true)))
    [([x41; x42; x43], 3, [[Ready (Ok 10); Pending]; [Ready (Ok 20); Ready (Ok 101)]]);
     ([x44], 0, [[Ready (Ok 128)]])]) as [[p' wire]|] eqn:Ew; [|vm_compute in Ew; discriminate].
  destruct (reads length (replicate 200 2%nat) (replicate 500 (LData 6)) wire
    (SosistabPipe_new (State_new [x07] true (mkObfs true true)))) as [[[out r] q] wire'] eqn:Er.
  assert (Hp : out `prefix_of` [x41; x42; x43; x44]).
  { apply (sosistab_stream length (State_new [x07] false (mkObfs true true))
      (State_new [x07] true (mkObfs true true)) _ _ _ _ _ _ _ _ _) with (6 := Ew) (7 := Er).
    - reflexivity.
    - reflexivity.
    - vm_compute; discriminate.
    - vm_compute; reflexivity.
    - repeat constructor; vm_compute; congruence. }
  vm_compute in Ew. injection Ew as <- <-. vm_compute in Er. injection Er as <- <- <- <-.
  eexists _, _, _. split_and!; [reflexivity|vm_compute; reflexivity|exact Hp].
Defined.

Lemma empty_read_closes_witness :
  ∃ p', poll_read length [LData 0] [x01] (SosistabPipe_new (State_new [] true ObfsParams_default)) 0
    = (Ready (Ok []), p', [x01], []) ∧
    poll_read length [LData 9] [x01] p' 64 = (Ready (Ok []), p', [x01], [LData 9]).
Proof. by apply (empty_read_closes length 0 [] [x01] _ 64 [LData 9]). Defined.
