(* ===== verification/SosHandshake.v ===== *)
(** * Sosistab3 handshake (libraries/sillad-sosistab3/src/{lib,handshake,dedup,dialer,listener}.rs)

    The cookie, the encrypted handshake message, the dialer's and the
    listener's side of the exchange, and the replay filter.  Randomness
    (nonces, ephemeral keys, padding) and clock readings are arguments; the
    network is the byte string that will arrive. *)
From Stdlib Require Import ZArith Lia.
From S2P Require Import Prelude Crypto SosState.
Local Open Scope Z_scope.

(** ** Cookies *)

Record Cookie := mkCookie { key : list byte; params : ObfsParams }.

Definition string_bytes (s : string) : list byte := String.list_byte_of_string s.

(** [str::split_once]. *)
Fixpoint split_once (sep s : string) : option (string * string) :=
  if String.prefix sep s
  then Some (""%string, String.substring (String.length sep) (String.length s) s)
  else match s with
       | EmptyString => None
       | String a s => '(x, y) ← split_once sep s; Some (String a x, y)
       end.

(** ** The replay filter *)

Record Dedup := mkDedup {
  bucket : gmap (list byte) Z;     (* key to the instant of its insertion, ns *)
  last_size : Z;
  expiry : Z                       (* ns *)
}.

Definition Dedup_new (e : Z) : Dedup := mkDedup ∅ 1 e.

Definition Dedup_cleanup (d : Dedup) (now : Z) : Dedup :=
  let b := filter (λ kv, now - kv.2 < expiry d) (bucket d) in
  mkDedup b (Z.of_nat (size b)) (expiry d).

Definition Dedup_insert (d : Dedup) (k : list byte) (now : Z) : Dedup :=
  let d := mkDedup (<[k := now]> (bucket d)) (last_size d) (expiry d) in
  if last_size d * 2 <? Z.of_nat (size (bucket d)) then Dedup_cleanup d now else d.

Definition Dedup_contains (d : Dedup) (k : list byte) : bool :=
  bool_decide (is_Some (bucket d !! k)).

Definition WAIT_INTERVAL : Z := 30.
Definition secs : Z := 1000000000.

(** ** The handshake message *)

Record Handshake := mkHandshake {
  eph_pk : list byte;
  timestamp : Z;
  padding_len : Z;
  padding_hash : list byte;
  responding_to : list byte
}.

Definition Handshake_wf (h : Handshake) : Prop :=
  length (eph_pk h) = 32%nat ∧ 0 <= timestamp h < 2 ^ 64 ∧ 0 <= padding_len h < 2 ^ 64 ∧
  length (padding_hash h) = 32%nat ∧ length (responding_to h) = 32%nat.

Definition Handshake_bytes (h : Handshake) : list byte :=
  eph_pk h ++ be_bytes 8 (timestamp h) ++ be_bytes 8 (padding_len h) ++
  padding_hash h ++ responding_to h.

Definition Handshake_from_bytes (bs : list byte) : Handshake :=
  mkHandshake (take 32 bs) (be_val (take 8 (drop 32 bs))) (be_val (take 8 (drop 40 bs)))
    (take 32 (drop 48 bs)) (take 32 (drop 80 bs)).

(** [vec![0u8; n]] panics when [n] exceeds [isize::MAX]. *)
Definition alloc (n : Z) : res io_error nat :=
  if n <? 2 ^ 63 then Ok (Z.to_nat n) else Panic.

Section with_crypto.
Context `{AeadLaws} `{Blake3Laws} `{X25519Laws}.
(** [serde_json::from_str] on [ObfsParams]. *)
Context (parse_params : string → option ObfsParams).

Definition Cookie_new (s : string) : Cookie :=
  let '(cookie, params) :=
    match split_once "---" s with
    | Some (a, b) => (a, default ObfsParams_default (parse_params b))
    | None => (s, ObfsParams_default)
    end in
  mkCookie (derive_key "cookie" (string_bytes cookie)) params.

Definition Cookie_derive_key (c : Cookie) (is_server : bool) : list byte :=
  derive_key (if is_server then "server" else "client") (key c).

Definition Handshake_encrypt (h : Handshake) (c : Cookie) (is_server : bool)
    (nonce : list byte) : list byte :=
  let '(ct, tag) := seal (Cookie_derive_key c is_server) nonce (Handshake_bytes h) in
  nonce ++ ct ++ tag.

Definition Handshake_decrypt (enc : list byte) (c : Cookie) (is_server : bool)
    : res io_error Handshake :=
  let nonce := take 12 enc in
  let encrypted_data := take 112 (drop 12 enc) in
  let tag := take 16 (drop 124 enc) in
  pt ← ok_or (open (Cookie_derive_key c is_server) nonce encrypted_data tag)
         (IoError InvalidData "Decryption failed");
  Ok (Handshake_from_bytes pt).

(** ** The dialer *)

(** What a side draws at random for one handshake. *)
Record Draw := mkDraw { eph_sk : list byte; padding : list byte; hs_nonce : list byte }.

Definition Draw_wf (r : Draw) : Prop :=
  (length (padding r) <= 1024)%nat ∧ length (hs_nonce r) = 12%nat.

Definition make_handshake (r : Draw) (ts : Z) (resp : list byte) : Handshake :=
  mkHandshake (public (eph_sk r)) ts (Z.of_nat (length (padding r))) (hash (padding r)) resp.

Definition dial_handshake (c : Cookie) (r : Draw) (now : Z) : list byte :=
  Handshake_encrypt (make_handshake r now (hash [])) c false (hs_nonce r).

Definition dial_send (c : Cookie) (r : Draw) (now : Z) : list byte :=
  dial_handshake c r now ++ padding r.

(** Reading a handshake of the other side with its padding; shared by both
    sides, with their own checks in between and their own messages. *)
Definition read_padding (h : Handshake) (s : list byte) (e : io_error)
    : res io_error (list byte) :=
  n ← alloc (padding_len h);
  '(buff, s) ← read_exact n s;
  if decide (hash buff = padding_hash h) then Ok s else Err e.

Definition dial_recv (c : Cookie) (r : Draw) (now : Z) (s : list byte)
    : res io_error (State * list byte) :=
  '(enc, s) ← read_exact 140 s;
  h ← Handshake_decrypt enc c true;
  if decide (responding_to h = hash (dial_handshake c r now)) then
    s ← read_padding h s
          (IoError InvalidData "the server handshake gave us an incorrect padding hash");
    Ok (State_new (diffie_hellman (eph_sk r) (eph_pk h)) false (params c), s)
  else Err (IoError InvalidData "the server handshake does not correctly respond to my handshake").

(** ** The listener *)

(** One accepted connection: the wall clock in seconds when its task starts,
    the bytes that arrive, the instant (ns) at which they have been read and
    checked against the filter, the listener's draw and the outcome of the
    final write. *)
Record Conn := mkConn {
  accepted_at : Z;
  incoming : list byte;
  checked_at : Z;
  draw : Draw;
  write_ok : bool
}.

(** The checks before the replay filter. *)
Definition listen_read (c : Cookie) (s : list byte)
    : res io_error (Handshake * list byte * list byte) :=
  '(enc, s) ← read_exact 140 s;
  h ← Handshake_decrypt enc c false;
  s ← read_padding h s
        (IoError InvalidData "the client handshake gave us an incorrect padding hash");
  Ok (h, hash enc, s).

Definition listen_conn (c : Cookie) (d : Dedup) (x : Conn)
    : Dedup * res io_error (list byte * State * list byte) :=
  match listen_read c (incoming x) with
  | Err e => (d, Err e)
  | Panic => (d, Panic)
  | Ok (h, hh, rest) =>
      if WAIT_INTERVAL <? Z.abs (timestamp h - accepted_at x)
      then (d, Err (IoError InvalidData "the client handshake has a bad timestamp"))
      else if Dedup_contains d hh
      then (d, Err (IoError InvalidData "handshake already seen"))
      else
        let d := Dedup_insert d hh (checked_at x) in
        let my := Handshake_encrypt (make_handshake (draw x) (accepted_at x) hh) c true
                    (hs_nonce (draw x)) in
        let st := State_new (diffie_hellman (eph_sk (draw x)) (eph_pk h)) true (params c) in
        (d, if write_ok x then Ok (my ++ padding (draw x), st, rest)
            else Err (IoError BrokenPipe "write failed"))
  end.

Fixpoint listen_all (c : Cookie) (d : Dedup) (xs : list Conn) : Dedup :=
  match xs with
  | [] => d
  | x :: xs => listen_all c (fst (listen_conn c d x)) xs
  end.

(** [listen_loop] starts with an empty filter that remembers for twice the
    interval. *)
Definition listen_dedup : Dedup := Dedup_new (WAIT_INTERVAL * 2 * secs).

(** ** Messages *)

Lemma length_Handshake_bytes h : Handshake_wf h → length (Handshake_bytes h) = 112%nat.
Proof. intros (? & _ & _ & ? & ?). unfold Handshake_bytes. len. Qed.

Lemma Handshake_from_to h : Handshake_wf h → Handshake_from_bytes (Handshake_bytes h) = h.
Proof.
  intros (L1 & R1 & R2 & L2 & L3). destruct h as [pk ts pl ph rt]; simpl in *.
  unfold Handshake_from_bytes, Handshake_bytes; cbn [eph_pk timestamp padding_len padding_hash responding_to].
  rewrite (take_app_exact 32) by done.
  rewrite (drop_app_exact 32), (take_app_exact 8) by len.
  rewrite (app_assoc pk), (drop_app_exact 40), (take_app_exact 8) by len.
  rewrite (app_assoc _ (be_bytes 8 pl)), (drop_app_exact 48), (take_app_exact 32) by len.
  rewrite (app_assoc _ ph), (drop_app_exact 80), (take_ge rt) by len.
  by rewrite !be_val_small by (simpl; lia).
Qed.

Lemma length_Handshake_encrypt h c b nonce :
  Handshake_wf h → length nonce = 12%nat → length (Handshake_encrypt h c b nonce) = 140%nat.
Proof.
  intros Hh Hn. unfold Handshake_encrypt.
  pose proof (length_ct (Cookie_derive_key c b) nonce (Handshake_bytes h)) as L1.
  pose proof (length_tag (Cookie_derive_key c b) nonce (Handshake_bytes h)) as L2.
  rewrite length_Handshake_bytes in L1 by done. destruct (seal _ _ _) as [ct tag].
  cbn [fst snd] in *. len.
Qed.

Lemma Handshake_decrypt_encrypt h c b nonce :
  Handshake_wf h → length nonce = 12%nat →
  Handshake_decrypt (Handshake_encrypt h c b nonce) c b = Ok h.
Proof.
  intros Hh Hn. unfold Handshake_encrypt, Handshake_decrypt.
  pose proof (length_ct (Cookie_derive_key c b) nonce (Handshake_bytes h)) as L1.
  pose proof (length_tag (Cookie_derive_key c b) nonce (Handshake_bytes h)) as L2.
  pose proof (open_seal (Cookie_derive_key c b) nonce (Handshake_bytes h)) as Ho.
  rewrite length_Handshake_bytes in L1 by done. destruct (seal _ _ _) as [ct tag].
  cbn [fst snd] in *. rewrite (take_app_exact 12), (drop_app_exact 12), (take_app_exact 112) by done.
  rewrite (app_assoc nonce), (drop_app_exact 124), (take_ge tag) by len.
  rewrite Ho. cbn [ok_or mbind res_bind]. by rewrite Handshake_from_to.
Qed.

Lemma make_handshake_wf r ts resp :
  Draw_wf r → 0 <= ts < 2 ^ 64 → length resp = 32%nat → Handshake_wf (make_handshake r ts resp).
Proof.
  intros [Hp Hn] Ht Hr. unfold Handshake_wf, make_handshake; simpl.
  rewrite length_public, length_hash. split_and!; try done; lia.
Qed.

Lemma read_padding_Ok r ts resp rest e :
  Draw_wf r → read_padding (make_handshake r ts resp) (padding r ++ rest) e = Ok rest.
Proof.
  intros [Hp Hn]. unfold read_padding, alloc; cbn [make_handshake padding_len padding_hash].
  destruct (Z.ltb_spec (Z.of_nat (length (padding r))) (2 ^ 63)); [|lia].
  cbn [mbind res_bind]. rewrite Nat2Z.id, read_exact_app by done. cbn [mbind res_bind].
  by rewrite decide_True.
Qed.

(** What the listener makes of a dialer's message. *)
Lemma listen_read_dial c r now rest :
  Draw_wf r → 0 <= now < 2 ^ 64 →
  listen_read c (dial_send c r now ++ rest) =
    Ok (make_handshake r now (hash []), hash (dial_handshake c r now), rest).
Proof.
  intros Hr Hn. pose proof (make_handshake_wf r now (hash []) Hr Hn (length_hash _)) as Hwf.
  unfold listen_read, dial_send. rewrite <- app_assoc.
  rewrite read_exact_app by (apply length_Handshake_encrypt; [done|apply Hr]).
  cbn [mbind res_bind]. unfold dial_handshake.
  rewrite Handshake_decrypt_encrypt by (done || apply Hr). cbn [mbind res_bind].
  by rewrite read_padding_Ok.
Qed.

(** C18: an honest dialer and an honest listener with the same cookie agree.
    If the dialer's clock is within 30 seconds of the listener's and its
    message has not been seen, the listener answers, the dialer accepts the
    answer, both hold the same shared secret and obfuscation parameters, each
    side's sending key is the other's receiving key with all counters at
    zero, and neither touches the bytes behind the handshake. *)
Theorem handshake_agreement c d r x now rest rest' :
  Draw_wf r → Draw_wf (draw x) → 0 <= now < 2 ^ 64 → 0 <= accepted_at x < 2 ^ 64 →
  Z.abs (now - accepted_at x) <= WAIT_INTERVAL →
  Dedup_contains d (hash (dial_handshake c r now)) = false →
  incoming x = dial_send c r now ++ rest → write_ok x = true →
  ∃ reply srv cli,
    listen_conn c d x = (Dedup_insert d (hash (dial_handshake c r now)) (checked_at x),
                         Ok (reply, srv, rest)) ∧
    dial_recv c r now (reply ++ rest') = Ok (cli, rest') ∧
    shared_secret cli = shared_secret srv ∧ obfs_params cli = obfs_params srv ∧
    send_aead cli = recv_aead srv ∧ send_aead srv = recv_aead cli ∧
    send_nonce cli = 0 ∧ recv_nonce cli = 0 ∧ send_nonce srv = 0 ∧ recv_nonce srv = 0.
Proof.
  intros Hr Hx Hn Ha Ht Hd Hi Hw. unfold listen_conn.
  rewrite Hi, listen_read_dial by done. cbn [make_handshake timestamp eph_pk].
  destruct (Z.ltb_spec WAIT_INTERVAL (Z.abs (now - accepted_at x))); [lia|].
  rewrite Hd, Hw. set (hh := hash (dial_handshake c r now)).
  pose proof (make_handshake_wf (draw x) (accepted_at x) hh Hx Ha (length_hash _)) as Hwf.
  eexists _, _, (State_new (diffie_hellman (eph_sk r) (public (eph_sk (draw x)))) false (params c)).
  split; [done|]. split.
  - unfold dial_recv. rewrite <- app_assoc.
    rewrite read_exact_app by (apply length_Handshake_encrypt; [done|apply Hx]).
    cbn [mbind res_bind]. rewrite Handshake_decrypt_encrypt by (done || apply Hx).
    cbn [mbind res_bind]. rewrite decide_True by done. by rewrite read_padding_Ok.
  - unfold State_new; simpl. rewrite dh_comm. done.
Qed.

(** ** The replay filter *)

Lemma cleanup_lookup d now k t :
  bucket d !! k = Some t → now - t < expiry d → bucket (Dedup_cleanup d now) !! k = Some t.
Proof. intros E Ht. simpl. by apply map_lookup_filter_Some. Qed.

(** [k] was inserted no earlier than [t0]. *)
Definition seen_since (d : Dedup) (k : list byte) (t0 : Z) : Prop :=
  ∃ t, t0 <= t ∧ bucket d !! k = Some t.

Lemma Dedup_insert_expiry d k now : expiry (Dedup_insert d k now) = expiry d.
Proof. unfold Dedup_insert. by case_match. Qed.

Lemma seen_cleanup d k t0 now :
  seen_since d k t0 → now < t0 + expiry d → seen_since (Dedup_cleanup d now) k t0.
Proof. intros (t & Ht & E) Hn. exists t. split; [done|]. apply cleanup_lookup; [done|lia]. Qed.

Lemma seen_insert d k k' t0 now :
  seen_since d k t0 ∨ k' = k → t0 <= now < t0 + expiry d →
  seen_since (Dedup_insert d k' now) k t0.
Proof.
  intros Hk Hn. unfold Dedup_insert.
  set (d' := mkDedup (<[k' := now]> (bucket d)) (last_size d) (expiry d)).
  assert (Hd : seen_since d' k t0).
  { unfold d'. destruct (decide (k' = k)) as [->|Hne].
    - exists now. simpl. rewrite lookup_insert_eq. split; [lia|done].
    - destruct Hk as [(t & Ht & E)|]; [|done]. exists t. simpl. by rewrite lookup_insert_ne. }
  case_match; [|done]. apply seen_cleanup; [done|]. simpl. lia.
Qed.

Lemma seen_listen c d x k t0 :
  seen_since d k t0 → t0 <= checked_at x < t0 + expiry d →
  let d' := fst (listen_conn c d x) in expiry d' = expiry d ∧ seen_since d' k t0.
Proof.
  intros E Ht. unfold listen_conn.
  destruct (listen_read c (incoming x)) as [[[h hh] rest]| |]; [|done..].
  case_match; [done|]. case_match; [done|]. cbn [fst].
  split; [apply Dedup_insert_expiry|]. apply seen_insert; auto.
Qed.

Lemma seen_listen_all c xs d k t0 :
  seen_since d k t0 → Forall (λ x, t0 <= checked_at x < t0 + expiry d) xs →
  seen_since (listen_all c d xs) k t0.
Proof.
  revert d. induction xs as [|x xs IH]; intros d E Hxs; simpl; [done|].
  apply Forall_cons in Hxs as [Hx Hxs].
  destruct (seen_listen c d x k t0 E Hx) as [Ee Ek]. apply IH; [done|]. by rewrite Ee.
Qed.

Lemma listen_conn_seen c d x y :
  listen_conn c d x = y → is_ok (snd y) = true →
  ∃ h hh rest, listen_read c (incoming x) = Ok (h, hh, rest) ∧
    fst y = Dedup_insert d hh (checked_at x).
Proof.
  intros <-. unfold listen_conn.
  destruct (listen_read c (incoming x)) as [[[h hh] rest]| |]; [|done..].
  case_match; [done|]. case_match; [done|]. eauto.
Qed.

(** The hash the filter keys on is that of the first 140 bytes. *)
Lemma listen_read_hash c s h hh rest :
  listen_read c s = Ok (h, hh, rest) → hh = hash (take 140 s).
Proof.
  unfold listen_read. intros E. apply bind_Ok in E as ([enc s1] & Er & E).
  apply bind_Ok in E as (h' & _ & E). apply bind_Ok in E as (s2 & _ & [= <- <- <-]).
  apply read_exact_Ok in Er as [-> Hl]. by rewrite take_app_exact.
Qed.

(** A handshake cannot be replayed within the filter's memory.  Once a
    connection has been accepted, whatever connections follow, one that starts
    with the same 140 bytes and is checked less than 60 seconds later is
    refused. *)
Theorem replay_refused c d x y xs :
  expiry d = WAIT_INTERVAL * 2 * secs →
  is_ok (snd (listen_conn c d x)) = true →
  take 140 (incoming y) = take 140 (incoming x) →
  Forall (λ z, checked_at x <= checked_at z < checked_at x + 60 * secs) (y :: xs) →
  is_ok (snd (listen_conn c (listen_all c (fst (listen_conn c d x)) xs) y)) = false.
Proof.
  intros He Hok Hsame Ht. apply Forall_cons in Ht as [Hy Hxs].
  destruct (listen_conn_seen c d x _ eq_refl Hok) as (h & hh & rest & Er & ->).
  assert (Hs : seen_since (Dedup_insert d hh (checked_at x)) hh (checked_at x)).
  { apply seen_insert; [by right|]. rewrite He. unfold WAIT_INTERVAL, secs. lia. }
  assert (Hs' : seen_since (listen_all c (Dedup_insert d hh (checked_at x)) xs) hh (checked_at x)).
  { apply seen_listen_all; [done|]. rewrite Dedup_insert_expiry, He.
    eapply Forall_impl; [exact Hxs|]. simpl. unfold WAIT_INTERVAL, secs. lia. }
  destruct Hs' as (t & _ & E).
  unfold listen_conn. destruct (listen_read c (incoming y)) as [[[h' hh'] rest']| |] eqn:Ey; [|done..].
  assert (hh' = hh) as ->.
  { by rewrite (listen_read_hash _ _ _ _ _ Ey), (listen_read_hash _ _ _ _ _ Er), Hsame. }
  case_match; [done|]. unfold Dedup_contains. rewrite bool_decide_true by eauto. done.
Qed.

(** A connection that passes the checks before the filter. *)
Definition admissible (c : Cookie) (x : Conn) (hh : list byte) : Prop :=
  write_ok x = true ∧
  ∃ h rest, listen_read c (incoming x) = Ok (h, hh, rest) ∧
    Z.abs (timestamp h - accepted_at x) <= WAIT_INTERVAL.

Lemma listen_conn_admissible c d x hh :
  admissible c x hh → Dedup_contains d hh = false →
  fst (listen_conn c d x) = Dedup_insert d hh (checked_at x) ∧
  is_ok (snd (listen_conn c d x)) = true.
Proof.
  intros (Hw & h & rest & Er & Ht) Hd. unfold listen_conn. rewrite Er.
  destruct (Z.ltb_spec WAIT_INTERVAL (Z.abs (timestamp h - accepted_at x))); [lia|].
  by rewrite Hd, Hw.
Qed.

(** A stalled connection defeats the replay filter.  The timestamp is
    compared with the clock read when the connection was accepted, the filter
    is consulted when the handshake has arrived: bytes recorded from an
    accepted connection are accepted again on a connection opened in the same
    minute and left idle until two other handshakes, the second one sixty
    seconds or more after the first use, have made the filter forget. *)
Theorem stalled_replay_accepted c x x2 x3 y hh hh2 hh3 :
  admissible c x hh → admissible c x2 hh2 → admissible c x3 hh3 →
  hh ≠ hh2 → hh ≠ hh3 → hh2 ≠ hh3 →
  incoming y = incoming x → accepted_at y = accepted_at x → write_ok y = true →
  checked_at x + 60 * secs <= checked_at x3 →
  is_ok (snd (listen_conn c listen_dedup x)) = true ∧
  is_ok (snd (listen_conn c (listen_all c listen_dedup [x; x2; x3]) y)) = true.
Proof.
  intros Hx Hx2 Hx3 N1 N2 N3 Ey Ea Hw Ht. cbn [listen_all].
  destruct (listen_conn_admissible c listen_dedup x hh Hx) as [-> Hok].
  { unfold Dedup_contains. by rewrite bool_decide_false by (simpl; rewrite lookup_empty; by intros []). }
  split; [done|].
  assert (E1 : Dedup_insert listen_dedup hh (checked_at x) =
    mkDedup {[hh := checked_at x]} 1 (60 * secs)).
  { unfold Dedup_insert, listen_dedup, Dedup_new; cbn [bucket last_size expiry].
    rewrite insert_empty, map_size_singleton. done. }
  rewrite E1.
  destruct (listen_conn_admissible c (mkDedup {[hh := checked_at x]} 1 (60 * secs)) x2 hh2 Hx2) as [-> _].
  { unfold Dedup_contains; simpl. rewrite lookup_singleton_ne by done.
    rewrite bool_decide_false; [done|]. by intros []. }
  set (b2 := <[hh2 := checked_at x2]> ({[hh := checked_at x]} : gmap (list byte) Z)).
  assert (Hsz2 : size b2 = 2%nat).
  { unfold b2. rewrite map_size_insert_None, map_size_singleton; [done|]. by rewrite lookup_singleton_ne. }
  assert (E2 : Dedup_insert (mkDedup {[hh := checked_at x]} 1 (60 * secs)) hh2 (checked_at x2) =
    mkDedup b2 1 (60 * secs)).
  { unfold Dedup_insert; cbn [bucket last_size]. fold b2. by rewrite Hsz2. }
  rewrite E2.
  assert (Hb3 : b2 !! hh3 = None).
  { unfold b2. by rewrite lookup_insert_ne, lookup_singleton_ne. }
  destruct (listen_conn_admissible c (mkDedup b2 1 (60 * secs)) x3 hh3 Hx3) as [-> _].
  { unfold Dedup_contains; simpl. rewrite Hb3. rewrite bool_decide_false; [done|]. by intros []. }
  unfold Dedup_insert; cbn [bucket last_size].
  rewrite map_size_insert_None, Hsz2 by done. cbn [Z.ltb]. change (1 * 2 <? Z.of_nat 3) with true.
  apply (listen_conn_admissible c _ y hh).
  - destruct Hx as (_ & h & rest & Er & Hts). split; [done|].
    exists h, rest. by rewrite Ey, Ea.
  - unfold Dedup_contains, Dedup_cleanup. cbn [bucket expiry].
    rewrite bool_decide_false; [done|]. intros [t E]. apply map_lookup_filter_Some in E as [E Hlt].
    unfold b2 in E. rewrite !lookup_insert_ne, lookup_singleton_eq in E by done. simplify_eq. simpl in Hlt. lia.
Qed.

(** Whoever knows the cookie can abort the listener.  A correctly sealed
    handshake that announces [2^63] or more bytes of padding makes the
    listener's [vec!] panic, for any listener state and any bytes behind it. *)
Theorem oversized_padding_aborts c d x h nonce rest :
  Handshake_wf h → length nonce = 12%nat → 2 ^ 63 <= padding_len h →
  incoming x = Handshake_encrypt h c false nonce ++ rest →
  snd (listen_conn c d x) = Panic.
Proof.
  intros Hh Hn Hp Hi. unfold listen_conn, listen_read. rewrite Hi.
  rewrite read_exact_app by (by apply length_Handshake_encrypt). cbn [mbind res_bind].
  rewrite Handshake_decrypt_encrypt by done. cbn [mbind res_bind].
  unfold read_padding, alloc. destruct (Z.ltb_spec (padding_len h) (2 ^ 63)); [lia|done].
Qed.
End with_crypto.

(** ** Concrete handshakes *)
Import Toy.

Module HandshakeDemo.
Definition cookie : Cookie := Cookie_new (λ _, None) "secret---{}".
Definition cli (b : byte) : Draw := mkDraw [b] [x01; x02] (replicate 12 b).
Definition srv : Draw := mkDraw [x77] [x03] (replicate 12 x99).
Definition conn (b : byte) (t : Z) : Conn :=
  mkConn 1000 (dial_send cookie (cli b) 1010 ++ [xee]) t srv true.
Definition huge : Handshake :=
  mkHandshake (replicate 32 x00) 1000 (2 ^ 63) (replicate 32 x00) (replicate 32 x00).

Lemma cli_wf b : Draw_wf (cli b).
Proof. split; [simpl; lia|done]. Qed.

Lemma conn_admissible b t :
  admissible cookie (conn b t) (hash (dial_handshake cookie (cli b) 1010)).
Proof.
  split; [done|]. exists (make_handshake (cli b) 1010 (hash [])), [xee]. split.
  - apply listen_read_dial; [apply cli_wf|lia].
  - simpl. unfold WAIT_INTERVAL. lia.
Qed.
End HandshakeDemo.
Import HandshakeDemo.

Lemma handshake_agreement_witness :
  ∃ reply s k, listen_conn cookie listen_dedup (conn x05 7) =
      (Dedup_insert listen_dedup (hash (dial_handshake cookie (cli x05) 1010)) 7, Ok (reply, s, [xee])) ∧
    dial_recv cookie (cli x05) 1010 (reply ++ [xaa]) = Ok (k, [xaa]) ∧ send_aead k = recv_aead s.
Proof.
  destruct (handshake_agreement cookie listen_dedup (cli x05) (conn x05 7) 1010 [xee] [xaa])
    as (reply & s & k & H1 & H2 & _ & _ & H3 & _).
  - apply cli_wf.
  - split; [simpl; lia|done].
  - lia.
  - simpl; lia.
  - simpl; unfold WAIT_INTERVAL; lia.
  - by vm_compute.
  - reflexivity.
  - reflexivity.
  - exists reply, s, k. split_and!; [exact H1|exact H2|exact H3].
Defined.

Lemma replay_refused_witness :
  is_ok (snd (listen_conn cookie listen_dedup (conn x05 7))) = true ∧
  is_ok (snd (listen_conn cookie
    (listen_all cookie (fst (listen_conn cookie listen_dedup (conn x05 7))) [conn x06 8])
    (conn x05 (59 * secs)))) = false.
Proof.
  split; [by vm_compute|]. apply replay_refused.
  - reflexivity.
  - by vm_compute.
  - reflexivity.
  - repeat constructor; vm_compute; congruence.
Defined.

Lemma stalled_replay_accepted_witness :
  is_ok (snd (listen_conn cookie
    (listen_all cookie listen_dedup [conn x05 7; conn x06 8; conn x07 (61 * secs)])
    (conn x05 (62 * secs)))) = true.
Proof.
  apply (stalled_replay_accepted cookie (conn x05 7) (conn x06 8) (conn x07 (61 * secs))
    (conn x05 (62 * secs)) _ _ _ (conn_admissible x05 7) (conn_admissible x06 8)
    (conn_admissible x07 (61 * secs))); try reflexivity; vm_compute; congruence.
Defined.

Lemma oversized_padding_aborts_witness :
  snd (listen_conn cookie listen_dedup
    (mkConn 1000 (Handshake_encrypt huge cookie false (replicate 12 x00) ++ []) 7 srv true)) = Panic.
Proof.
  apply (oversized_padding_aborts _ _ _ huge (replicate 12 x00) []).
  - unfold Handshake_wf, huge; simpl. split_and!; (done || lia).
  - reflexivity.
  - simpl. lia.
  - reflexivity.
Defined.
