(* ===== verification/Mizaru.v ===== *)
(** * Mizaru2 (libraries/mizaru2/src/lib.rs)

    One RSA key per day, committed to by the root of a Merkle tree over their
    public keys; tokens are blindly signed with the key of the day, and a
    signature carries the Merkle branch of its key.  The tree is computed with
    blake3 ([hash] on leaves, [keyed_hash] on pairs); blind RSA is an
    interface. *)
From Stdlib Require Import ZArith Lia.
From S2P Require Import Prelude Crypto.

Definition KEY_COUNT : Z := 65536.

Definition unix_to_epoch (unix : Z) : Z := cast_u 16 (unix / 86400).

Record BlindedSignature := mkBlinded {
  b_epoch : Z;
  b_used_key : list byte;
  b_merkle_branch : list (list byte);
  blinded_sig : list byte
}.

Record UnblindedSignature := mkUnblinded {
  epoch : Z;
  used_key : list byte;
  merkle_branch : list (list byte);
  unblinded_sig : list byte
}.

Record SecretKey := mkSecretKey {
  rsa_keys_der : list (list byte);
  merkle_tree : list (list (list byte))
}.

Section with_crypto.
Context `{Blake3Laws} `{BlindRsaLaws}.

(** ** The tree *)

(** One level from the one below: an odd last element is dropped. *)
Fixpoint decimate (l : list (list byte)) : list (list byte) :=
  match l with
  | a :: b :: l => keyed_hash a b :: decimate l
  | _ => []
  end.

(** The [while] loop of [generate]; a level at least halves, so as many
    rounds as there are leaves are enough. *)
Fixpoint build (fuel : nat) (level : list (list byte)) : list (list (list byte)) :=
  match fuel with
  | O => [level]
  | S fuel =>
      if decide (1 < length level) then level :: build fuel (decimate level) else [level]
  end.

Definition generate (rsa_keys : list rsa_sk) : SecretKey :=
  let first := map (λ k, hash (pk_to_pkcs1_der (sk_public k))) rsa_keys in
  mkSecretKey (map sk_to_der rsa_keys) (build (length first) first).

Definition other (i : nat) : nat := i / 2 * 2 + (i + 1) mod 2.

(** The branch of a leaf: on every level but the last, the sibling. *)
Fixpoint branch (levels : list (list (list byte))) (idx : nat)
    : res string (list (list byte)) :=
  match levels with
  | [] | [_] => Ok []
  | level :: levels =>
      h ← unwrap (level !! other idx);
      t ← branch levels (idx / 2);
      Ok (h :: t)
  end.

Definition SecretKey_branch (k : SecretKey) (idx : Z) : res string (list (list byte)) :=
  branch (merkle_tree k) (Z.to_nat idx).

Definition to_public_key (k : SecretKey) : res string (list byte) :=
  level ← unwrap (last (merkle_tree k)); unwrap (level !! 0).

Definition get_subkey (k : SecretKey) (e : Z) : res string rsa_sk :=
  der ← unwrap (rsa_keys_der k !! Z.to_nat e); unwrap (sk_from_der der).

(** ** Verification of membership *)

(** [epoch >> i] on a [u16] panics for [i >= 16]. *)
Fixpoint climb (e : Z) (i : nat) (accumulator : list byte) (br : list (list byte))
    : res string (list byte) :=
  match br with
  | [] => Ok accumulator
  | h :: br =>
      if decide (16 <= i) then Panic
      else climb e (S i)
             (if Z.testbit e (Z.of_nat i) then keyed_hash h accumulator
              else keyed_hash accumulator h) br
  end.

Definition verify_member (root : list byte) (e : Z) (subkey : list byte)
    (br : list (list byte)) : res string unit :=
  a ← climb e 0 (hash subkey) br;
  if decide (a = root) then Ok tt else Err "merkle proof is wrong"%string.

(** ** Blind signatures *)

Definition blind_sign (k : SecretKey) (e : Z) (blinded_token : list byte) (r : rsa_rand)
    : res string BlindedSignature :=
  key ← get_subkey k e;
  bare ← unwrap (rsa_blind_sign key blinded_token r);
  br ← SecretKey_branch k e;
  Ok (mkBlinded e (pk_to_pkcs1_der (sk_public key)) br bare).

Definition unblind (s : BlindedSignature) (secret : rsa_secret) (msg : list byte)
    : res string UnblindedSignature :=
  pk ← ok_or (pk_from_der (b_used_key s)) "bad key"%string;
  u ← ok_or (rsa_finalize pk (blinded_sig s) secret msg) "cannot finalize"%string;
  Ok (mkUnblinded (b_epoch s) (b_used_key s) (b_merkle_branch s) u).

Definition blind_verify (root : list byte) (token : list byte) (s : UnblindedSignature)
    : res string unit :=
  _ ← verify_member root (epoch s) (used_key s) (merkle_branch s);
  pk ← ok_or (pk_from_der (used_key s)) "bad key"%string;
  if rsa_verify pk (unblinded_sig s) token then Ok tt else Err "bad signature"%string.

Definition token_blind (token : list byte) (subkey : rsa_pk) (r : rsa_rand)
    : list byte * rsa_secret := rsa_blind subkey token r.

(** ** The shape of a tree over [2^d] leaves *)

Lemma decimate_lookup l i a b :
  l !! (2 * i) = Some a → l !! (2 * i + 1) = Some b → decimate l !! i = Some (keyed_hash a b).
Proof.
  revert l; induction i as [|i IH]; intros l Ha Hb.
  - destruct l as [|x [|y l]]; simplify_eq/=. done.
  - replace (2 * S i) with (S (S (2 * i))) in Ha by lia.
    replace (2 * S i + 1) with (S (S (2 * i + 1))) in Hb by lia.
    destruct l as [|x [|y l]]; [done..|]. by apply IH.
Qed.

Lemma length_decimate l n : length l = 2 * n → length (decimate l) = n.
Proof.
  revert l; induction n as [|n IH]; intros l Hl.
  - by apply nil_length_inv in Hl as ->.
  - destruct l as [|x [|y l]]; simpl in *; [lia..|]. rewrite (IH l); lia.
Qed.

(** Level [j] of the tree over [first]. *)
Fixpoint level (j : nat) (first : list (list byte)) : list (list byte) :=
  match j with O => first | S j => decimate (level j first) end.

Lemma level_decimate j l : level j (decimate l) = decimate (level j l).
Proof. induction j as [|j IH]; simpl; [done|]. by rewrite IH. Qed.

Lemma length_level j d l : length l = 2 ^ d → j <= d → length (level j l) = 2 ^ (d - j).
Proof.
  intros Hl. induction j as [|j IH]; intros Hj; simpl; [by rewrite Nat.sub_0_r|].
  apply length_decimate. rewrite IH by lia.
  replace (d - j) with (S (d - S j)) by lia. simpl. lia.
Qed.

(** [build] stops at the root: the tree has levels [0..d]. *)
Lemma build_levels d : ∀ fuel l, length l = 2 ^ d → d <= fuel →
  build fuel l = map (λ j, level j l) (seq 0 (S d)).
Proof.
  induction d as [|d IH]; intros fuel l Hl Hf.
  - destruct fuel; simpl; [done|]. rewrite decide_False; [done|]. simpl in Hl. lia.
  - destruct fuel as [|fuel]; [lia|]. cbn [build].
    pose proof (Nat.pow_nonzero 2 d). simpl in Hl.
    rewrite decide_True by lia.
    rewrite (IH fuel) by (lia || apply length_decimate; lia).
    change (seq 0 (S (S d))) with (0 :: seq 1 (S d)). cbn [map]. f_equal.
    rewrite <- (seq_shift (S d) 0), map_map. apply map_ext. intros j.
    simpl. apply level_decimate.
Qed.

Lemma pow2_ge d : d <= 2 ^ d.
Proof. induction d as [|d IH]; simpl; [lia|]. pose proof (Nat.pow_nonzero 2 d). lia. Qed.

Definition leaves (keys : list rsa_sk) : list (list byte) :=
  map (λ k, hash (pk_to_pkcs1_der (sk_public k))) keys.

Lemma generate_tree d keys :
  length keys = 2 ^ d →
  merkle_tree (generate keys) = map (λ j, level j (leaves keys)) (seq 0 (S d)).
Proof.
  intros Hl. unfold generate; cbn [merkle_tree].
  assert (length (leaves keys) = 2 ^ d) as Hl' by (unfold leaves; by rewrite length_map).
  fold (leaves keys). rewrite Hl'. apply build_levels; [done|]. apply pow2_ge.
Qed.

Lemma root_exists d keys :
  length keys = 2 ^ d →
  ∃ r, to_public_key (generate keys) = Ok r ∧ level d (leaves keys) = [r].
Proof.
  intros Hl. unfold to_public_key. rewrite (generate_tree d) by done.
  rewrite seq_S, map_app. cbn [map]. rewrite last_snoc. cbn [unwrap mbind res_bind Nat.add].
  assert (length (level d (leaves keys)) = 1) as L.
  { rewrite (length_level d d); [by rewrite Nat.sub_diag|unfold leaves; by rewrite length_map|lia]. }
  destruct (level d (leaves keys)) as [|r [|]]; simpl in L; try lia. by exists r.
Qed.

(** ** Completeness of branches *)

Lemma other_even q : other (2 * q) = 2 * q + 1.
Proof.
  unfold other. pose proof (Nat.div_mod_eq (2 * q) 2). pose proof (Nat.mod_upper_bound (2 * q) 2).
  pose proof (Nat.div_mod_eq (2 * q + 1) 2). pose proof (Nat.mod_upper_bound (2 * q + 1) 2). lia.
Qed.
Lemma other_odd q : other (2 * q + 1) = 2 * q.
Proof.
  unfold other. pose proof (Nat.div_mod_eq (2 * q + 1) 2). pose proof (Nat.mod_upper_bound (2 * q + 1) 2).
  pose proof (Nat.div_mod_eq (2 * q + 1 + 1) 2). pose proof (Nat.mod_upper_bound (2 * q + 1 + 1) 2). lia.
Qed.

Lemma branch_cons l l' ls idx :
  branch (l :: l' :: ls) idx =
    (h ← unwrap (l !! other idx); t ← branch (l' :: ls) (idx / 2); Ok (h :: t)).
Proof. done. Qed.

Lemma climb_branch e first d n : ∀ j idx acc,
  length first = 2 ^ d → d <= 16 → j + n = d → level j first !! idx = Some acc →
  (∀ i, Z.testbit e (Z.of_nat (j + i)) = Nat.testbit idx i) →
  ∃ br r, branch (map (λ j, level j first) (seq j (S n))) idx = Ok br ∧ length br = n ∧
    climb e j acc br = Ok r ∧ level d first !! (idx / 2 ^ n) = Some r.
Proof.
  induction n as [|n IH]; intros j idx acc Hl Hd Hj Hacc Hb.
  { exists [], acc. cbn [seq map branch length climb]. rewrite Nat.pow_0_r, Nat.div_1_r. replace d with j by lia. done. }
  assert (Hlen : length (level j first) = 2 * 2 ^ n).
  { rewrite (length_level j d) by (done || lia). replace (d - j) with (S n) by lia. done. }
  apply lookup_lt_Some in Hacc as Hlt.
  set (q := idx / 2).
  assert (Hq : idx = 2 * q + idx mod 2) by (unfold q; apply Nat.div_mod; lia).
  pose proof (Nat.mod_upper_bound idx 2 ltac:(lia)) as Hm.
  destruct (level j first !! (2 * q)) as [a|] eqn:Ea; [|apply lookup_ge_None in Ea; lia].
  destruct (level j first !! (2 * q + 1)) as [b|] eqn:Eb; [|apply lookup_ge_None in Eb; lia].
  pose proof (decimate_lookup _ _ _ _ Ea Eb) as Hnode. change (decimate (level j first)) with (level (S j) first) in Hnode.
  destruct (IH (S j) q (keyed_hash a b)) as (br & r & H1' & H2' & H3' & H4'); [done|done|lia|done| |].
  { intros i. replace (S j + i) with (j + S i) by lia. rewrite Hb. unfold q.
    rewrite <- Nat.div2_div, Nat.div2_spec. by rewrite Nat.shiftr_spec', Nat.add_1_r. }
  set (h := if Nat.odd idx then a else b).
  exists (h :: br), r. split_and!.
  - change (seq j (S (S n))) with (j :: S j :: seq (S (S j)) n). cbn [map]. rewrite branch_cons.
    assert (level j first !! other idx = Some h) as ->.
    { unfold h. destruct (Nat.Even_or_Odd idx) as [[q' E]|[q' E]].
      - assert (q' = q) as -> by lia. rewrite E, other_even.
        rewrite <- Nat.negb_even, Nat.even_mul. done.
      - assert (q' = q) as -> by lia. rewrite E, other_odd.
        rewrite Nat.odd_add, Nat.odd_mul. done. }
    cbn [unwrap mbind res_bind]. fold q.
    change (level j first) with (level j first). change (S j :: seq (S (S j)) n) with (seq (S j) (S n)) in *.
    cbn [seq map] in H1'. by rewrite H1'.
  - simpl. by rewrite H2'.
  - cbn [climb]. rewrite decide_False by lia. rewrite <- H3'. f_equal.
    specialize (Hb 0). rewrite Nat.add_0_r in Hb. rewrite Hb, Nat.bit0_odd. unfold h.
    destruct (Nat.Even_or_Odd idx) as [[q' E]|[q' E]].
    + assert (q' = q) as -> by lia. rewrite E in Hacc |- *.
      rewrite <- Nat.negb_even, Nat.even_mul. simpl orb. simpl negb. cbn match. simplify_eq. done.
    + assert (q' = q) as -> by lia. rewrite E in Hacc |- *.
      rewrite Nat.odd_add, Nat.odd_mul. simplify_eq/=. done.
  - rewrite <- H4'. f_equal. unfold q. rewrite Nat.pow_succ_r', Nat.Div0.div_div. done.
Qed.

Lemma testbit_nat n i : Z.testbit (Z.of_nat n) (Z.of_nat i) = Nat.testbit n i.
Proof.
  revert n; induction i as [|i IH]; intros n.
  - rewrite Z.bit0_odd, Nat.bit0_odd. rewrite <- Z.negb_even, <- Nat.negb_even. f_equal.
    apply eq_true_iff_eq. rewrite Z.even_spec, Nat.even_spec. split; intros [q E].
    + exists (Z.to_nat q). lia.
    + exists (Z.of_nat q). lia.
  - rewrite Nat2Z.inj_succ, <- Z.add_1_r, <- Z.shiftr_spec, <- Z.div2_spec, Z.div2_div by lia.
    rewrite <- Nat.add_1_r, <- Nat.shiftr_spec', <- Nat.div2_spec, Nat.div2_div, <- IH.
    by rewrite Nat2Z.inj_div.
Qed.

Lemma testbit_small a n m :
  (0 <= a < 2 ^ n)%Z → (0 <= n <= m)%Z → Z.testbit a m = false.
Proof.
  intros Ha Hn. destruct (decide (a = 0)%Z) as [->|]; [apply Z.bits_0|].
  apply Z.bits_above_log2; [lia|]. apply Z.log2_lt_pow2; [lia|].
  pose proof (Z.pow_le_mono_r 2 n m). lia.
Qed.

Lemma member_complete d keys e k :
  length keys = 2 ^ d → d <= 16 → (0 <= e)%Z → keys !! Z.to_nat e = Some k →
  ∃ root br, to_public_key (generate keys) = Ok root ∧ SecretKey_branch (generate keys) e = Ok br ∧
    verify_member root e (pk_to_pkcs1_der (sk_public k)) br = Ok tt.
Proof.
  intros Hl Hd He Hk. destruct (root_exists d keys Hl) as (root & Hr & Hlev).
  assert (Hll : length (leaves keys) = 2 ^ d) by (unfold leaves; by rewrite length_map).
  destruct (climb_branch e (leaves keys) d d 0 (Z.to_nat e) (hash (pk_to_pkcs1_der (sk_public k))))
    as (br & r & Hb & _ & Hc & Hroot); [done|done|lia| | |].
  { simpl. unfold leaves. by rewrite list_lookup_fmap, Hk. }
  { intros i. rewrite <- testbit_nat. by rewrite Z2Nat.id. }
  exists root, br. split_and!; [done| |].
  - unfold SecretKey_branch. by rewrite (generate_tree d).
  - unfold verify_member. rewrite Hc. cbn [mbind res_bind]. rewrite decide_True; [done|].
    apply lookup_lt_Some in Hk. rewrite Nat.div_small, Hlev in Hroot by lia. simpl in Hroot.
    by simplify_eq.
Qed.

(** A blindly signed token verifies.  With one RSA key per epoch (a power
    of two of them, at most [2^16] as in [KEY_COUNT]), a token that a client
    blinds for the key of an epoch, that the holder of the secret key signs and
    the client unblinds, is accepted under the Merkle root alone: the branch
    is found, the signature finalizes and no step panics. *)
Lemma token_roundtrip d keys e k token r r' :
  length keys = 2 ^ d → d <= 16 → (0 <= e)%Z → keys !! Z.to_nat e = Some k →
  get_subkey (generate keys) e = Ok k ∧
  ∃ root sig u,
    to_public_key (generate keys) = Ok root ∧
    blind_sign (generate keys) e (fst (token_blind token (sk_public k) r)) r' = Ok sig ∧
    unblind sig (snd (token_blind token (sk_public k) r)) token = Ok u ∧
    blind_verify root token u = Ok tt.
Proof.
  intros Hl Hd He Hk.
  destruct (member_complete d keys e k Hl Hd He Hk) as (root & br & Hroot & Hbr & Hv).
  destruct (blind_sign_total k token r r') as [bs Hbs].
  destruct (finalize_verify k token r r' bs Hbs) as (s & Hf & Hvf).
  assert (Hsub : get_subkey (generate keys) e = Ok k).
  { unfold get_subkey, generate; cbn [rsa_keys_der]. rewrite list_lookup_fmap, Hk.
    cbn [fmap option_fmap option_map unwrap mbind res_bind]. by rewrite sk_der. }
  split; [done|].
  exists root, (mkBlinded e (pk_to_pkcs1_der (sk_public k)) br bs),
    (mkUnblinded e (pk_to_pkcs1_der (sk_public k)) br s).
  split_and!; [done| | |].
  - unfold blind_sign, token_blind. rewrite Hsub. cbn [mbind res_bind].
    rewrite Hbs. cbn [unwrap mbind res_bind]. by rewrite Hbr.
  - unfold unblind; cbn [b_used_key blinded_sig b_epoch b_merkle_branch].
    rewrite pk_pkcs1_der. cbn [ok_or mbind res_bind]. unfold token_blind. by rewrite Hf.
  - unfold blind_verify; cbn [epoch used_key merkle_branch unblinded_sig].
    rewrite Hv. cbn [mbind res_bind]. rewrite pk_pkcs1_der. cbn [ok_or mbind res_bind]. by rewrite Hvf.
Qed.

(** ** Soundness of branches *)

(** What blake3 is applied to: a leaf, or two nodes. *)
Inductive preimage := Leaf (key : list byte) | Node (l r : list byte).
Definition blake (x : preimage) : list byte :=
  match x with Leaf key => hash key | Node l r => keyed_hash l r end.

(** The inputs hashed by [verify_member], and those hashed by [generate]. *)
Fixpoint climb_inputs (e : Z) (i : nat) (accumulator : list byte) (br : list (list byte)) : list preimage :=
  match br with
  | [] => []
  | h :: br =>
      let x := if Z.testbit e (Z.of_nat i) then Node h accumulator else Node accumulator h in
      x :: climb_inputs e (S i) (blake x) br
  end.
Definition verify_inputs (e : Z) (subkey : list byte) (br : list (list byte)) : list preimage :=
  Leaf subkey :: climb_inputs e 0 (hash subkey) br.

Fixpoint pair_inputs (l : list (list byte)) : list preimage :=
  match l with a :: b :: l => Node a b :: pair_inputs l | _ => [] end.
Definition generate_inputs (keys : list rsa_sk) : list preimage :=
  map (λ k, Leaf (pk_to_pkcs1_der (sk_public k))) keys ++ concat (map pair_inputs (merkle_tree (generate keys))).

(** Two different inputs with one hash, the first hashed in this verification and the
    second when the tree was made. *)
Definition collides (e : Z) (subkey : list byte) (br : list (list byte)) (keys : list rsa_sk) : Prop :=
  ∃ x y, x ∈ verify_inputs e subkey br ∧ y ∈ generate_inputs keys ∧ x ≠ y ∧ blake x = blake y.

Lemma level_succ_lookup j first q h :
  level (S j) first !! q = Some h →
  ∃ a b, level j first !! (2 * q) = Some a ∧ level j first !! (2 * q + 1) = Some b ∧
    h = keyed_hash a b.
Proof.
  cbn [level]. generalize (level j first). clear. revert h.
  induction q as [|q IH]; intros h l.
  - destruct l as [|a [|b l]]; simpl; [done..|]. intros [= <-]. eauto.
  - destruct l as [|a [|b l]]; simpl decimate; [done..|]. cbn [lookup list_lookup].
    intros Hq. apply IH in Hq as (a' & b' & Ha & Hb & ->). exists a', b'.
    replace (2 * S q + 1) with (S (S (2 * q + 1))) by lia.
    by replace (2 * S q) with (S (S (2 * q))) by lia.
Qed.

Lemma pair_inputs_lookup l q a b :
  l !! (2 * q) = Some a → l !! (2 * q + 1) = Some b → Node a b ∈ pair_inputs l.
Proof.
  revert l. induction q as [|q IH]; intros l Ha Hb.
  - destruct l as [|x [|y l]]; simplify_eq/=. left.
  - replace (2 * S q) with (S (S (2 * q))) in Ha by lia. replace (2 * S q + 1) with (S (S (2 * q + 1))) in Hb by lia.
    destruct l as [|x [|y l]]; [done..|]. right. by apply IH.
Qed.

(** The inputs behind the nodes and the leaves of the tree. *)
Lemma node_input d keys j q a b :
  length keys = 2 ^ d → j < d → level j (leaves keys) !! (2 * q) = Some a → level j (leaves keys) !! (2 * q + 1) = Some b →
  Node a b ∈ generate_inputs keys.
Proof.
  intros Hl Hj Ha Hb. apply elem_of_app. right. rewrite (generate_tree d) by done. apply list_elem_of_In, in_concat.
  exists (pair_inputs (level j (leaves keys))). split; [|by apply list_elem_of_In, (pair_inputs_lookup _ q)].
  apply in_map, in_map_iff. exists j. split; [done|]. apply in_seq. lia.
Qed.
Lemma leaf_input keys i h :
  leaves keys !! i = Some h → ∃ k, keys !! i = Some k ∧ h = hash (pk_to_pkcs1_der (sk_public k)) ∧
    Leaf (pk_to_pkcs1_der (sk_public k)) ∈ generate_inputs keys.
Proof.
  unfold leaves. rewrite list_lookup_fmap. destruct (keys !! i) as [k|] eqn:Ek; [|done]. intros [= <-].
  exists k. split_and!; [done..|]. apply elem_of_app. left. apply list_elem_of_fmap. exists k.
  split; [done|]. by eapply list_elem_of_lookup_2.
Qed.

(** A collision between what is hashed while climbing from [acc] and the tree. *)
Definition climb_collides (e : Z) (j : nat) (acc : list byte) (br : list (list byte)) (keys : list rsa_sk) : Prop :=
  ∃ x y, x ∈ climb_inputs e j acc br ∧ y ∈ generate_inputs keys ∧ x ≠ y ∧ blake x = blake y.

(** Climbing to the root from an accumulator, the accumulator is the node the
    epoch's bits lead to, unless a collision has been met on the way. *)
Lemma climb_sound e keys d root br : ∀ j acc,
  length keys = 2 ^ d → level d (leaves keys) = [root] → climb e j acc br = Ok root →
  climb_collides e j acc br keys ∨
  (length br <= d ∧ ∃ i, level (d - length br) (leaves keys) !! i = Some acc ∧
     ∀ m, m < length br → Nat.testbit i m = Z.testbit e (Z.of_nat (j + m))).
Proof.
  induction br as [|h br IH]; intros j acc Hl Hroot Hc; cbn [climb] in Hc.
  { right. split; [simpl; lia|]. exists 0. simpl. injection Hc as ->.
    rewrite Nat.sub_0_r, Hroot. split; [done|lia]. }
  case_decide; [done|].
  set (x := if Z.testbit e (Z.of_nat j) then Node h acc else Node acc h).
  assert (Ex : (if Z.testbit e (Z.of_nat j) then keyed_hash h acc else keyed_hash acc h) = blake x)
    by (unfold x; by destruct (Z.testbit _ _)).
  rewrite Ex in Hc. apply IH in Hc as [(y & z & Hy & Hz & Hn & He)|(Hle & i & Hi & Hbits)]; [| |done..].
  { left. exists y, z. split_and!; [|done..]. cbn [climb_inputs]. fold x. by right. }
  assert (Hx : x ∈ climb_inputs e j acc (h :: br)) by (cbn [climb_inputs]; fold x; left).
  destruct (decide (length br = d)) as [E|Hne].
  { left. rewrite E, Nat.sub_diag in Hi. apply leaf_input in Hi as (k & _ & Ek & Hk).
    exists x, (Leaf (pk_to_pkcs1_der (sk_public k))). split_and!; [done..| |done]. unfold x. by destruct (Z.testbit _ _). }
  destruct (d - length br) as [|j'] eqn:Ej; [lia|].
  apply level_succ_lookup in Hi as (a & b & Ha & Hb & E).
  assert (x = Node a b ∨ climb_collides e j acc (h :: br) keys) as [Exy|]; [|clear E|by left].
  { pose proof (node_input d keys j' i a b Hl ltac:(lia) Ha Hb) as Hab.
    assert (x = Node a b ∨ x ≠ Node a b) as [|Hn]; [|by left|right; exists x, (Node a b); done].
    unfold x. destruct (Z.testbit _ _); [destruct (decide (h = a)), (decide (acc = b))|destruct (decide (acc = a)), (decide (h = b))];
      first [left; congruence|right; congruence]. }
  right. cbn [length]. replace (d - S (length br)) with j' by lia. split; [lia|]. unfold x in Exy.
  destruct (Z.testbit e (Z.of_nat j)) eqn:Et; injection Exy as -> ->.
  - exists (2 * i + 1). split; [done|]. intros [|m] Hm.
    + rewrite Nat.add_0_r, Et, Nat.testbit_odd_0. done.
    + rewrite Nat.testbit_odd_succ by lia. rewrite Hbits by lia. do 2 f_equal. lia.
  - exists (2 * i). split; [done|]. intros [|m] Hm.
    + rewrite Nat.add_0_r, Et, Nat.testbit_even_0. done.
    + rewrite Nat.testbit_even_succ by lia. rewrite Hbits by lia. do 2 f_equal. lia.
Qed.

(** C9: membership proofs are sound.  If any key and branch pass
    [verify_member] against the root of [2^d] keys for an epoch below [2^d],
    then either the key is the public key of that epoch and the branch has
    full length, or one of the inputs hashed in this very verification and one
    of those hashed when the tree was made are different and have the same
    blake3 hash.  A shortened or lengthened branch is covered. *)
Theorem member_sound d keys root e sk br :
  length keys = 2 ^ d → (0 <= e < 2 ^ Z.of_nat d)%Z →
  to_public_key (generate keys) = Ok root →
  verify_member root e sk br = Ok tt →
  collides e sk br keys ∨
  (length br = d ∧ ∃ k, keys !! Z.to_nat e = Some k ∧ sk = pk_to_pkcs1_der (sk_public k)).
Proof.
  intros Hl He Hr Hv. destruct (root_exists d keys Hl) as (root' & Hr' & Hlev).
  rewrite Hr' in Hr. injection Hr as ->. unfold verify_member in Hv.
  apply bind_Ok in Hv as (a & Hc & Hv). case_decide; [|done]. subst a.
  apply (climb_sound e keys d) in Hc as [(x & y & Hx & Hc)|(Hle & i & Hi & Hbits)]; [left; exists x, y; split; [by right|done]| |done..].
  destruct (d - length br) as [|j] eqn:Ej.
  - assert (length br = d) as Hd by lia. rewrite Hd in Hbits.
    cbn [level] in Hi. apply leaf_input in Hi as (k & Ek & Eh & Hk).
    destruct (decide (sk = pk_to_pkcs1_der (sk_public k))) as [->|Hne];
      [|left; exists (Leaf sk), (Leaf (pk_to_pkcs1_der (sk_public k))); split_and!; [left|done|congruence|done]].
    right. split; [done|]. exists k. split; [|done]. rewrite <- Ek. f_equal.
    apply Nat.bits_inj. intros m. apply lookup_lt_Some in Ek.
    rewrite <- testbit_nat, Z2Nat.id by lia.
    destruct (decide (m < d)) as [Hm|Hm]; [by rewrite Hbits|].
    rewrite <- testbit_nat.
    rewrite Hl in Ek. apply Nat2Z.inj_lt in Ek. rewrite Nat2Z.inj_pow in Ek.
    change (Z.of_nat 2) with 2%Z in Ek.
    rewrite (testbit_small e (Z.of_nat d)), (testbit_small (Z.of_nat i) (Z.of_nat d)) by lia. done.
  - apply level_succ_lookup in Hi as (a & b & Ha & Hb & E). left. exists (Leaf sk), (Node a b).
    split_and!; [left|by apply (node_input d keys j i); [|lia|..]|done|done].
Qed.
End with_crypto.

(** ** Long branches *)

(** A branch of more than 16 hashes aborts the verifier.  Whatever the
    root, the epoch, the key and the hashes, [epoch >> i] is evaluated for
    [i = 16] on a 16-bit integer. *)
Theorem long_branch_aborts `{Blake3} `{BlindRsa} root token s :
  16 < length (merkle_branch s) → blind_verify root token s = Panic.
Proof.
  intros Hl. unfold blind_verify, verify_member.
  assert (Hp : ∀ br i acc, i <= 16 → 16 < i + length br → climb (epoch s) i acc br = Panic).
  { clear. induction br as [|h br IH]; intros i acc Hi Hl; simpl in *; [lia|].
    case_decide; [done|]. apply IH; lia. }
  by rewrite Hp by lia.
Qed.

Import Toy.

Module MizaruDemo.
Definition key3 : @rsa_sk Toy.rsa := [x03].
Definition keys : list (@rsa_sk Toy.rsa) := [[x01]; [x02]; key3; [x04]].
Definition rand : @rsa_rand Toy.rsa := tt.
Definition secret : @rsa_secret Toy.rsa := tt.
End MizaruDemo.
Import MizaruDemo.

Lemma member_sound_witness :
  ∃ root br, to_public_key (generate keys) = Ok root ∧ length br = 2 ∧
    verify_member root 2 [x01; x03] br = Ok tt ∧
    (collides 2 [x01; x03] br keys ∨ length br = 2 ∧ ∃ k, keys !! 2 = Some k ∧ [x01; x03] = pk_to_pkcs1_der (sk_public k)).
Proof.
  destruct (to_public_key (generate keys)) as [root| |] eqn:E; [|vm_compute in E; discriminate..].
  destruct (SecretKey_branch (generate keys) 2) as [br| |] eqn:Eb; [|vm_compute in Eb; discriminate..].
  assert (Hv : verify_member root 2 [x01; x03] br = Ok tt).
  { vm_compute in E, Eb. injection E as <-. injection Eb as <-. by vm_compute. }
  exists root, br. split_and!; [done| |done|].
  - vm_compute in Eb. by injection Eb as <-.
  - apply (member_sound 2 keys root 2 [x01; x03] br); [done|lia|done|done].
Defined.

Lemma long_branch_aborts_witness :
  blind_verify [] [] (mkUnblinded 0 [] (replicate 17 []) []) = Panic.
Proof. apply long_branch_aborts. simpl. lia. Defined.
