(* ===== verification/CryptPipe.v ===== *)
(** * Length-prefixed messages and the client-exit crypt pipe
    (libraries/geph5-misc-rpc/src/{lib,exit}.rs)

    [ClientExitCryptPipe] runs two tasks.  The write task cuts what the
    application writes into chunks, seals chunk [i] with nonce [i] and writes
    it with a length in front; the read task undoes this.  A task is a function
    of what its side reads; a [read] that returns no bytes is end of file. *)
From Stdlib Require Import ZArith Lia.
From S2P Require Import Prelude Crypto SosState.
Local Open Scope Z_scope.

(** ** Length-prefixed messages *)

Definition write_prepend_length (value : list byte) : list byte :=
  be_bytes 4 (cast_u 32 (Z.of_nat (length value))) ++ value.

Definition read_prepend_length (input : list byte) : res io_error (list byte * list byte) :=
  '(len_buf, input) ← read_exact 4 input;
  read_exact (Z.to_nat (be_val len_buf)) input.

Lemma read_write_prepend value rest :
  Z.of_nat (length value) < 2 ^ 32 →
  read_prepend_length (write_prepend_length value ++ rest) = Ok (value, rest).
Proof.
  intros Hl. unfold read_prepend_length, write_prepend_length. rewrite <- app_assoc.
  rewrite read_exact_app by apply length_be_bytes. cbn [mbind res_bind].
  rewrite cast_u_small by lia. rewrite be_val_small by (simpl; lia).
  rewrite Nat2Z.id. by apply read_exact_app.
Qed.

Section with_crypto.
Context `{AeadLaws}.

(** [Aead::encrypt] and [decrypt]: the tag is behind the ciphertext. *)
Definition aead_encrypt (k n m : list byte) : list byte :=
  let '(c, t) := seal k n m in c ++ t.

Definition aead_decrypt (k n msg : list byte) : option (list byte) :=
  if decide (length msg < 16)%nat then None
  else open k n (take (length msg - 16) msg) (drop (length msg - 16) msg).

Lemma aead_roundtrip k n m : aead_decrypt k n (aead_encrypt k n m) = Some m.
Proof.
  unfold aead_decrypt, aead_encrypt.
  pose proof (length_ct k n m) as L1. pose proof (length_tag k n m) as L2.
  pose proof (open_seal k n m) as Ho. destruct (seal k n m) as [c t]; cbn [fst snd] in *.
  rewrite decide_False by len.
  rewrite length_app, L2. replace (length c + 16 - 16)%nat with (length c) by lia.
  by rewrite take_app_length, drop_app_length.
Qed.

Lemma length_aead_encrypt k n m : length (aead_encrypt k n m) = (length m + 16)%nat.
Proof.
  unfold aead_encrypt. pose proof (length_ct k n m). pose proof (length_tag k n m).
  destruct (seal k n m); cbn [fst snd] in *. len.
Qed.

(** ** The write task

    [reads] are the results of its successive reads of at most 8192 bytes,
    the empty one included: the loop does not look at the length.  The frames
    written are returned. *)
Fixpoint write_task (write_key : list byte) (n : Z) (reads : list (list byte))
    : res string (list byte) :=
  match reads with
  | [] => Ok []
  | chunk :: reads =>
      if decide (n < 2 ^ 64) then
        out ← write_task write_key (n + 1) reads;
        Ok (write_prepend_length (aead_encrypt write_key (nonce_bytes n) chunk) ++ out)
      else Panic
  end.

(** ** The read task

    [fuel] bounds the number of messages; each one takes at least four bytes
    of input, so one more than the input's length is always enough.  Returns
    what has been written into the pipe and why the task ended. *)
Fixpoint read_task (fuel : nat) (read_key : list byte) (n : Z) (input : list byte)
    : list byte * res io_error unit :=
  match fuel with
  | O => ([], Ok tt)
  | S fuel =>
      match read_prepend_length input with
      | Ok (msg, input) =>
          match aead_decrypt read_key (nonce_bytes n) msg with
          | Some plaintext =>
              let '(out, r) := read_task fuel read_key (n + 1) input in (plaintext ++ out, r)
          | None => ([], Err (IoError Other "cannot decrypt"))
          end
      | Err e => ([], Err e)
      | Panic => ([], Panic)
      end
  end.

Lemma length_write_prepend v : length (write_prepend_length v) = (4 + length v)%nat.
Proof. unfold write_prepend_length. len. Qed.

Lemma write_task_cons k n c reads w :
  write_task k n (c :: reads) = Ok w →
  n < 2 ^ 64 ∧ ∃ out, write_task k (n + 1) reads = Ok out ∧
    w = write_prepend_length (aead_encrypt k (nonce_bytes n) c) ++ out.
Proof.
  cbn [write_task]. case_decide; [|done]. intros E. apply bind_Ok in E as (out & Ho & E).
  split; [done|]. exists out. split; [done|congruence].
Qed.

Lemma write_task_length k n reads w :
  write_task k n reads = Ok w → (20 * length reads <= length w)%nat.
Proof.
  revert n w. induction reads as [|c reads IH]; intros n w; [simpl; lia|].
  intros (_ & out & Ho & ->)%write_task_cons. cbn [length].
  apply IH in Ho. rewrite length_app, length_write_prepend, length_aead_encrypt. lia.
Qed.

Lemma read_write_tasks k reads : ∀ n w fuel,
  Forall (λ c, Z.of_nat (length c) <= 8192) reads → write_task k n reads = Ok w →
  (length reads < fuel)%nat →
  read_task fuel k n w = (concat reads, Err eof_error).
Proof.
  induction reads as [|c reads IH]; intros n w fuel Hc Hw Hf.
  - injection Hw as <-. destruct fuel; [simpl in Hf; lia|]. done.
  - apply write_task_cons in Hw as (_ & out & Ho & ->).
    apply Forall_cons in Hc as [Hc1 Hc]. destruct fuel as [|fuel]; [simpl in Hf; lia|].
    cbn [read_task]. rewrite read_write_prepend by (rewrite length_aead_encrypt; lia).
    rewrite aead_roundtrip. rewrite (IH (n + 1) out fuel) by (done || simpl in Hf; lia). done.
Qed.

(** The crypt pipe delivers what was written.  Whatever chunks the write
    task reads (at most 8192 bytes each), the read task of the other end, with
    the same key, writes out their concatenation and stops only at the end of
    the input; the fuel used is enough for any input of that length. *)
Theorem crypt_pipe_roundtrip k reads w :
  Forall (λ c, Z.of_nat (length c) <= 8192) reads → write_task k 0 reads = Ok w →
  read_task (S (length w)) k 0 w = (concat reads, Err eof_error).
Proof.
  intros Hc Hw. apply read_write_tasks; [done|done|].
  pose proof (write_task_length _ _ _ _ Hw). lia.
Qed.

Lemma write_task_empty k m : ∀ n, n + Z.of_nat m <= 2 ^ 64 →
  ∃ tail, write_task k n (replicate m []) = Ok tail ∧ length tail = (20 * m)%nat.
Proof.
  induction m as [|m IH]; intros n Hn; [by exists []|].
  destruct (IH (n + 1) ltac:(lia)) as (t & Ht & Hl). cbn [replicate write_task].
  rewrite decide_True by lia. rewrite Ht. cbn [mbind res_bind]. eexists. split; [done|].
  rewrite length_app, length_write_prepend, length_aead_encrypt. simpl. lia.
Qed.

Lemma write_task_more k m reads : ∀ n w, n + Z.of_nat (length reads + m) <= 2 ^ 64 →
  write_task k n reads = Ok w →
  ∃ tail, write_task k n (reads ++ replicate m []) = Ok (w ++ tail) ∧ length tail = (20 * m)%nat.
Proof.
  induction reads as [|c reads IH]; intros n w Hn Hw.
  - injection Hw as <-. apply write_task_empty. simpl in Hn. lia.
  - apply write_task_cons in Hw as (_ & out & Ho & ->). simpl in Hn.
    destruct (IH (n + 1) out ltac:(lia) Ho) as (tail & Ht & Hl). exists tail. split; [|done].
    cbn [app write_task]. rewrite decide_True by lia. rewrite Ht. cbn [mbind res_bind].
    by rewrite app_assoc.
Qed.

(** The write task does not stop at end of file.  Once the application
    side is closed every further read yields no bytes, and each of them makes
    the task seal and write another empty message: [m] more turns write
    exactly [20 * m] more bytes, for every [m]. *)
Theorem write_task_never_ends k reads m w :
  Z.of_nat (length reads + m) < 2 ^ 64 → write_task k 0 reads = Ok w →
  ∃ tail, write_task k 0 (reads ++ replicate m []) = Ok (w ++ tail) ∧ length tail = (20 * m)%nat.
Proof. intros Hm Hw. apply write_task_more; [lia|done]. Qed.
End with_crypto.

Import Toy.

Lemma crypt_pipe_roundtrip_witness :
  ∃ w, write_task [x01] 0 [[x0a; x0b]; []; [x0c]] = Ok w ∧
    read_task (S (length w)) [x01] 0 w = ([x0a; x0b; x0c], Err eof_error).
Proof.
  destruct (write_task [x01] 0 [[x0a; x0b]; []; [x0c]]) as [w| |] eqn:E; [|vm_compute in E; discriminate..].
  exists w. split; [done|]. apply (crypt_pipe_roundtrip [x01] [[x0a; x0b]; []; [x0c]] w); [|done].
  repeat constructor; simpl; lia.
Defined.

Lemma write_task_never_ends_witness :
  ∃ w, write_task [x01] 0 ([[x0a]] ++ replicate 3 []) = Ok w.
Proof.
  destruct (write_task [x01] 0 [[x0a]]) as [w| |] eqn:E; [|vm_compute in E; discriminate..].
  destruct (write_task_never_ends [x01] [[x0a]] 3 w) as (tail & Ht & _); [simpl; lia|done|].
  by exists (w ++ tail).
Defined.
