(* ===== verification/Protocol.v ===== *)
(** * The broker protocol's data (libraries/geph5-broker-protocol/src) and the
    bridge protocol's (libraries/geph5-misc-rpc/src/bridge.rs)

    The types the programs exchange, and the two envelopes: [Mac] (blake3
    keyed hash under a preshared secret) and [Signed] (ed25519 over a domain
    separated hash). *)
From Stdlib Require Import ZArith Lia Floats.SpecFloat.
From S2P Require Import Prelude Crypto.
Local Open Scope Z_scope.

(** ** Addresses *)

(** Addresses are numbers: 32 bits for IPv4, 128 for IPv6. *)
Inductive IpAddr := V4 (a : Z) | V6 (a : Z).
Record SocketAddr := mkAddr { ip : IpAddr; port : Z }.

#[export] Instance IpAddr_eq_dec : EqDecision IpAddr.
Proof. solve_decision. Defined.
#[export] Instance SocketAddr_eq_dec : EqDecision SocketAddr.
Proof. solve_decision. Defined.
#[export] Instance IpAddr_countable : Countable IpAddr.
Proof.
  refine (inj_countable' (λ a, match a with V4 x => inl x | V6 x => inr x end)
    (λ s, match s with inl x => V4 x | inr x => V6 x end) _). by intros [].
Defined.
#[export] Instance SocketAddr_countable : Countable SocketAddr.
Proof.
  refine (inj_countable' (λ a, (ip a, port a)) (λ p, mkAddr p.1 p.2) _). by intros [].
Defined.

(** The octets of an IPv4 address and the groups of an IPv6 address. *)
Definition octet (i : Z) (a : Z) : Z := Z.land (Z.shiftr a (8 * (3 - i))) 255.
Definition segment (i : Z) (a : Z) : Z := Z.land (Z.shiftr a (16 * (7 - i))) 65535.

(** ** Accounts *)

Inductive AccountLevel := Free | Plus.
#[export] Instance AccountLevel_eq_dec : EqDecision AccountLevel.
Proof. solve_decision. Defined.

Inductive AuthError := RateLimited | Forbidden | WrongLevel.
#[export] Instance AuthError_eq_dec : EqDecision AuthError.
Proof. solve_decision. Defined.

Inductive Credential :=
| TestDummy
| LegacyUsernamePassword (username password : string)
| Secret (s : string).
#[export] Instance Credential_eq_dec : EqDecision Credential.
Proof. solve_decision. Defined.

Record UserInfo := mkUserInfo {
  user_id : Z;
  plus_expires_unix : option Z;
  recurring : bool
}.

(** ** Exits, bridges and routes *)

#[export] Instance spec_float_eq_dec : EqDecision spec_float.
Proof. solve_decision. Defined.

Record ExitDescriptor := mkExit {
  c2e_listen : SocketAddr;
  b2e_listen : SocketAddr;
  country : string;
  city : string;
  load : spec_float;       (* an f32 *)
  exit_expiry : Z
}.
#[export] Instance ExitDescriptor_eq_dec : EqDecision ExitDescriptor.
Proof. solve_decision. Defined.

(** Exits with their public keys; the table of city names is not modelled. *)
Record ExitList := mkExitList { all_exits : list (list byte * ExitDescriptor) }.

(** [ExitList::expiry]: the earliest expiry, 0 for an empty list. *)
Definition ExitList_expiry (l : ExitList) : Z :=
  match map (λ e, exit_expiry e.2) (all_exits l) with
  | [] => 0
  | x :: xs => foldr Z.min x xs
  end.

Record BridgeDescriptor := mkBridge {
  control_listen : SocketAddr;
  control_cookie : string;
  pool : string;
  bridge_expiry : Z
}.

#[warnings="-register-all"]
Inductive RouteDescriptor :=
| Tcp (a : SocketAddr)
| Sosistab3 (cookie : string) (lower : RouteDescriptor)
| PlainTls (sni_domain : option string) (lower : RouteDescriptor)
| Race (l : list RouteDescriptor)
| Fallback (l : list RouteDescriptor)
| Timeout (milliseconds : Z) (lower : RouteDescriptor)
| Delay (milliseconds : Z) (lower : RouteDescriptor)
| ConnTest (ping_count : Z) (lower : RouteDescriptor)
| OtherRoute (json : string).

Inductive ObfsProtocol :=
| ObfsSosistab3 (cookie : string)
| ObfsNone
| ObfsConnTest (inner : ObfsProtocol)
| ObfsPlainTls (inner : ObfsProtocol)
| ObfsSosistab3New (cookie : string) (inner : ObfsProtocol).

#[export] Instance ObfsProtocol_eq_dec : EqDecision ObfsProtocol.
Proof. solve_decision. Defined.

Record B2eMetadata := mkB2e { b2e_protocol : ObfsProtocol; b2e_expiry : Z }.

(** ** Envelopes *)

Record Mac (A : Type) := mkMac { mac_inner : A; khash : list byte }.
Arguments mkMac {A}. Arguments mac_inner {A}. Arguments khash {A}.

Record Signed (A : Type) := mkSigned { signed_inner : A; signature : list byte; pubkey : list byte }.
Arguments mkSigned {A}. Arguments signed_inner {A}. Arguments signature {A}. Arguments pubkey {A}.

Inductive MacError := InvalidMac.
Inductive VerifyError := InvalidPublicKey | InvalidSignature.

Definition DOMAIN_EXIT_DESCRIPTOR : string := "exit-descriptor".
Definition str_bytes (s : string) : list byte := String.list_byte_of_string s.

Section envelopes.
Context `{Blake3} `{Ed25519} {A : Type} `{Stdcode A}.

Definition Mac_new (inner : A) (preshared_secret : list byte) : Mac A :=
  mkMac inner (keyed_hash preshared_secret (stdcode inner)).

Definition Mac_verify (m : Mac A) (preshared_secret : list byte) : res MacError A :=
  let expected_hash := keyed_hash preshared_secret (stdcode (mac_inner m)) in
  if decide (khash m = expected_hash) then Ok (mac_inner m) else Err InvalidMac.

Definition to_sign (domain : string) (inner : A) : list byte :=
  keyed_hash (hash (str_bytes domain)) (stdcode inner).

Definition Signed_new (inner : A) (domain : string) (seckey : list byte) : Signed A :=
  mkSigned inner (sign seckey (to_sign domain inner)) (verifying_key seckey).

Definition Signed_verify (s : Signed A) (domain : string) (is_valid_pk : list byte → bool)
    : res VerifyError A :=
  if is_valid_pk (pubkey s) then
    if verify_strict (pubkey s) (to_sign domain (signed_inner s)) (signature s)
    then Ok (signed_inner s) else Err InvalidSignature
  else Err InvalidPublicKey.

Lemma Mac_verify_Ok m k a :
  Mac_verify m k = Ok a ↔ a = mac_inner m ∧ khash m = keyed_hash k (stdcode a).
Proof.
  unfold Mac_verify. case_decide as E; split.
  - by intros [= <-].
  - by intros [-> _].
  - done.
  - by intros [-> ?].
Qed.

Lemma Mac_verify_new a k : Mac_verify (Mac_new a k) k = Ok a.
Proof. by apply Mac_verify_Ok. Qed.

Lemma Signed_verify_Ok s d valid a :
  Signed_verify s d valid = Ok a ↔
  a = signed_inner s ∧ valid (pubkey s) = true ∧
  verify_strict (pubkey s) (to_sign d a) (signature s) = true.
Proof.
  unfold Signed_verify. destruct (valid (pubkey s)) eqn:E1.
  - destruct (verify_strict _ _ _) eqn:E2; split.
    + by intros [= <-].
    + by intros [-> _].
    + done.
    + intros (-> & _ & ?). congruence.
  - split; [done|]. by intros (_ & ? & _).
Qed.

Lemma Signed_verify_new `{!Ed25519Laws} a d sk valid :
  valid (verifying_key sk) = true → Signed_verify (Signed_new a d sk) d valid = Ok a.
Proof. intros. apply Signed_verify_Ok. split_and!; [done|done|]. apply verify_sign. Qed.
End envelopes.
