(* ===== verification/Text.v ===== *)
(** * Text encodings: hexadecimal and the textual form of IP addresses

    [hex::encode]/[hex::decode] and [IpAddr::to_string] as the programs use
    them: keys and cookies travel as hexadecimal, and a hostname constraint is
    compared with the printed address of an exit. *)
From Stdlib Require Import ZArith Lia.
From stdpp Require Import pretty.
From S2P Require Import Prelude Protocol.
Local Open Scope Z_scope.

(** ** Hexadecimal *)

Definition hex_digit (c : Ascii.ascii) : option Z :=
  let n := Z.of_N (Ascii.N_of_ascii c) in
  if (48 <=? n) && (n <=? 57) then Some (n - 48)
  else if (97 <=? n) && (n <=? 102) then Some (n - 87)
  else if (65 <=? n) && (n <=? 70) then Some (n - 55)
  else None.

Fixpoint hex_decode (s : string) : option (list byte) :=
  match s with
  | EmptyString => Some []
  | String a (String b s) =>
      x ← hex_digit a; y ← hex_digit b; l ← hex_decode s; Some (byte_of_Z (16 * x + y) :: l)
  | _ => None
  end.

Definition digit_hex (z : Z) : Ascii.ascii :=
  Ascii.ascii_of_N (Z.to_N (if z <? 10 then 48 + z else 87 + z)).

Fixpoint hex_encode (l : list byte) : string :=
  match l with
  | [] => EmptyString
  | b :: l =>
      String (digit_hex (byte_to_Z b / 16)) (String (digit_hex (byte_to_Z b mod 16)) (hex_encode l))
  end.

Lemma hex_digit_hex z : 0 <= z < 16 → hex_digit (digit_hex z) = Some z.
Proof.
  intros Hz. assert (Hin : z ∈ seqZ 0 16) by (apply elem_of_seqZ; lia). revert Hin.
  change (seqZ 0 16) with ([0;1;2;3;4;5;6;7;8;9;10;11;12;13;14;15]). clear Hz.
  rewrite !elem_of_cons, elem_of_nil. intros.
  repeat match goal with H : _ ∨ _ |- _ => destruct H as [->|H]; [reflexivity|] end. done.
Qed.

Lemma hex_decode_encode l : hex_decode (hex_encode l) = Some l.
Proof.
  induction l as [|b l IH]; [done|]. cbn [hex_encode hex_decode].
  pose proof (byte_to_Z_range b).
  rewrite !hex_digit_hex, IH by (try apply Z.mod_pos_bound; try split; try apply Z.div_pos; try apply Z.div_lt_upper_bound; lia).
  cbn [mbind option_bind].
  rewrite <- Z.div_mod by lia. by rewrite byte_of_to_Z.
Qed.

#[export] Instance hex_encode_inj : Inj (=) (=) hex_encode.
Proof. intros l l' E. apply (f_equal hex_decode) in E. rewrite !hex_decode_encode in E. by simplify_eq. Qed.

Lemma length_hex_encode l : String.length (hex_encode l) = (2 * length l)%nat.
Proof. induction l as [|b l IH]; simpl; [done|]. rewrite IH. lia. Qed.

(** ** Splitting and numbers *)

(** [str::split_once] and [str::rsplit_once] of a character. *)
Fixpoint split_once_char (c : Ascii.ascii) (s : string) : option (string * string) :=
  match s with
  | EmptyString => None
  | String a s =>
      if decide (a = c) then Some (EmptyString, s)
      else '(l, r) ← split_once_char c s; Some (String a l, r)
  end.
Fixpoint rsplit_once_char (c : Ascii.ascii) (s : string) : option (string * string) :=
  match s with
  | EmptyString => None
  | String a s =>
      match rsplit_once_char c s with
      | Some (l, r) => Some (String a l, r)
      | None => if decide (a = c) then Some (EmptyString, s) else None
      end
  end.

(** [str::parse] of an unsigned number below [bound]: digits, a plus sign
    before them allowed. *)
Fixpoint parse_digits (acc : Z) (s : string) : option Z :=
  match s with
  | EmptyString => Some acc
  | String a s =>
      let n := Z.of_N (Ascii.N_of_ascii a) in
      if (48 <=? n) && (n <=? 57) then parse_digits (10 * acc + (n - 48)) s else None
  end.
Definition parse_uint (bound : Z) (s : string) : option Z :=
  let s := match s with
           | String a s' => if decide (a = Ascii.ascii_of_nat 43) then s' else s
           | EmptyString => s
           end in
  match s with
  | EmptyString => None
  | _ => n ← parse_digits 0 s; if n <? bound then Some n else None
  end.

(** ** Printed addresses *)

Definition dec (z : Z) : string := pretty (Z.to_N z).

(** [{:x}]: no leading zeros. *)
Fixpoint hex_go (fuel : nat) (z : Z) (acc : string) : string :=
  match fuel with
  | O => acc
  | S fuel => if z <=? 0 then acc else hex_go fuel (z / 16) (String (digit_hex (z mod 16)) acc)
  end.
Definition hex16 (z : Z) : string := if z =? 0 then "0"%string else hex_go 4 z EmptyString.

Definition ipv4_to_string (a : Z) : string :=
  String.concat "." (map (λ i, dec (octet i a)) [0; 1; 2; 3]).

(** The longest run of zero groups (the first of them), as (start, length). *)
Fixpoint zero_runs (i : nat) (cur : nat * nat) (best : nat * nat) (l : list Z) : nat * nat :=
  match l with
  | [] => best
  | s :: l =>
      if s =? 0 then
        let cur := if (cur.2 =? 0)%nat then (i, 1%nat) else (cur.1, S cur.2) in
        zero_runs (S i) cur (if (best.2 <? cur.2)%nat then cur else best) l
      else zero_runs (S i) (0, 0)%nat best l
  end.

Definition ipv6_to_string (a : Z) : string :=
  let segs := map (λ i, segment i a) [0; 1; 2; 3; 4; 5; 6; 7] in
  if a / 2 ^ 32 =? 65535 then String.append "::ffff:" (ipv4_to_string (a mod 2 ^ 32))
  else
    let '(start, len) := zero_runs 0 (0, 0)%nat (0, 0)%nat segs in
    if (1 <? len)%nat then
      String.append (String.concat ":" (map hex16 (take start segs)))
        (String.append "::" (String.concat ":" (map hex16 (drop (start + len) segs))))
    else String.concat ":" (map hex16 segs).

Definition ip_to_string (a : IpAddr) : string :=
  match a with V4 a => ipv4_to_string a | V6 a => ipv6_to_string a end.

Example ip_to_string_examples :
  map ip_to_string [V4 2130706433; V6 1; V6 0; V6 (2 ^ 125 + 255); V6 (65535 * 2 ^ 32 + 1)]
  = ["127.0.0.1"; "::1"; "::"; "2000::ff"; "::ffff:0.0.0.1"]%string.
Proof. vm_compute. reflexivity. Qed.

Example parse_uint_examples :
  map (parse_uint 65536) ["80"; "+443"; ""; "65536"; "-1"; "+"]%string
  = [Some 80; Some 443; None; None; None; None].
Proof. vm_compute. reflexivity. Qed.

Example split_examples :
  split_once_char (Ascii.ascii_of_nat 36) "tcp$a$b" = Some ("tcp", "a$b")%string ∧
  rsplit_once_char (Ascii.ascii_of_nat 58) "::1:80" = Some ("::1", "80")%string.
Proof. vm_compute. split; reflexivity. Qed.
