(* ===== verification/IpText.v ===== *)
(** * Textual addresses, as std parses and prints them

    [FromStr] and [Display] of [Ipv4Addr], [Ipv6Addr], [IpAddr] and
    [SocketAddr]: the programs pass destinations between their parts as text
    ([open_conn], the stream metadata of a tunnel), so what one part prints
    another one must parse.  The parser reads prefixes, as the one of std does. *)
From Stdlib Require Import ZArith Lia.
From stdpp Require Import pretty.
From S2P Require Import Prelude Protocol Text.
Local Open Scope Z_scope.

(** ** Characters *)

Definition ascii_Z (a : Ascii.ascii) : Z := Z.of_N (Ascii.N_of_ascii a).
Definition is_digit (a : Ascii.ascii) : bool := (48 <=? ascii_Z a) && (ascii_Z a <=? 57).
Definition dot : Ascii.ascii := Ascii.ascii_of_nat 46.
Definition colon : Ascii.ascii := Ascii.ascii_of_nat 58.
Definition lbracket : Ascii.ascii := Ascii.ascii_of_nat 91.
Definition rbracket : Ascii.ascii := Ascii.ascii_of_nat 93.

(** The longest prefix of characters that satisfy [p], and the rest. *)
Fixpoint span (p : Ascii.ascii → bool) (s : string) : string * string :=
  match s with
  | EmptyString => (EmptyString, EmptyString)
  | String a s' => if p a then let '(l, r) := span p s' in (String a l, r) else (EmptyString, s)
  end.

Definition read_char (c : Ascii.ascii) (s : string) : option string :=
  match s with
  | String a s' => if decide (a = c) then Some s' else None
  | EmptyString => None
  end.

(** ** IPv4 *)

(** One to three digits without a leading zero, at most 255. *)
Definition octet_of (s : string) : option Z :=
  match s with
  | EmptyString => None
  | String a s' =>
      if decide (a = Ascii.ascii_of_nat 48 ∧ s' ≠ EmptyString) then None
      else if (3 <? String.length s)%nat then None
      else n ← parse_digits 0 s; if n <? 256 then Some n else None
  end.
Definition read_octet (s : string) : option (Z * string) :=
  let '(d, rest) := span is_digit s in n ← octet_of d; Some (n, rest).

Definition read_ipv4 (s : string) : option (Z * string) :=
  '(a, s) ← read_octet s; s ← read_char dot s;
  '(b, s) ← read_octet s; s ← read_char dot s;
  '(c, s) ← read_octet s; s ← read_char dot s;
  '(d, s) ← read_octet s;
  Some (((a * 256 + b) * 256 + c) * 256 + d, s).

Definition at_end {A} (o : option (A * string)) : option A :=
  match o with Some (a, EmptyString) => Some a | _ => None end.

Definition parse_ipv4 (s : string) : option Z := at_end (read_ipv4 s).

(** ** IPv6 *)

Definition is_hex (a : Ascii.ascii) : bool := match hex_digit a with Some _ => true | None => false end.
Fixpoint hex_val (acc : Z) (s : string) : Z :=
  match s with
  | EmptyString => acc
  | String a s => hex_val (16 * acc + default 0 (hex_digit a)) s
  end.
(** One to four hexadecimal digits. *)
Definition read_group (s : string) : option (Z * string) :=
  let '(d, rest) := span is_hex s in
  if (String.length d =? 0)%nat || (4 <? String.length d)%nat then None else Some (hex_val 0 d, rest).

(** The separator in front of every group but the first. *)
Definition read_sep (i : nat) (s : string) : option string :=
  match i with O => Some s | S _ => read_char colon s end.

(** [read_groups]: at most [limit] groups; the last two may be written as an
    IPv4 address.  Returns the groups, whether an IPv4 address ended them, and
    the rest. *)
Fixpoint read_groups (limit i : nat) (s : string) : list Z * bool * string :=
  match limit with
  | O => ([], false, s)
  | S limit' =>
      match (match limit' with
             | O => None
             | S _ => s ← read_sep i s; read_ipv4 s
             end) with
      | Some (a, rest) => ([a / 65536; a mod 65536], true, rest)
      | None =>
          match (s ← read_sep i s; read_group s) with
          | Some (g, rest) =>
              let '(gs, v4, rest) := read_groups limit' (S i) rest in (g :: gs, v4, rest)
          | None => ([], false, s)
          end
      end
  end.

Definition ipv6_of_groups (gs : list Z) : Z := fold_left (λ acc g, acc * 65536 + g) gs 0.

Definition read_ipv6 (s : string) : option (Z * string) :=
  let '(head, head_v4, rest) := read_groups 8 0 s in
  if (length head =? 8)%nat then Some (ipv6_of_groups head, rest)
  else if head_v4 then None
  else
    rest ← read_char colon rest; rest ← read_char colon rest;
    let '(tail, _, rest) := read_groups (8 - (length head + 1)) 0 rest in
    Some (ipv6_of_groups (head ++ replicate (8 - length head - length tail) 0 ++ tail), rest).

Definition parse_ipv6 (s : string) : option Z := at_end (read_ipv6 s).

Definition parse_ip (s : string) : option IpAddr :=
  match parse_ipv4 s with
  | Some a => Some (V4 a)
  | None => V6 <$> parse_ipv6 s
  end.

(** ** Socket addresses *)

Definition read_port (s : string) : option (Z * string) :=
  let '(d, rest) := span is_digit s in
  match d with
  | EmptyString => None
  | _ => n ← parse_digits 0 d; if n <? 65536 then Some (n, rest) else None
  end.
Definition read_sockaddr_v4 (s : string) : option (SocketAddr * string) :=
  '(a, s) ← read_ipv4 s; s ← read_char colon s; '(p, s) ← read_port s; Some (mkAddr (V4 a) p, s).
(** Scope ids are left out: an [Authority] and the printed form never have one. *)
Definition read_sockaddr_v6 (s : string) : option (SocketAddr * string) :=
  s ← read_char lbracket s; '(a, s) ← read_ipv6 s; s ← read_char rbracket s;
  s ← read_char colon s; '(p, s) ← read_port s; Some (mkAddr (V6 a) p, s).
Definition parse_addr (s : string) : option SocketAddr :=
  match at_end (read_sockaddr_v4 s) with
  | Some a => Some a
  | None => at_end (read_sockaddr_v6 s)
  end.

Definition addr_to_string (a : SocketAddr) : string :=
  match ip a with
  | V4 x => String.append (ipv4_to_string x) (String colon (dec (port a)))
  | V6 x => String lbracket (String.append (ipv6_to_string x)
              (String rbracket (String colon (dec (port a)))))
  end.

Example parse_ip_examples :
  map parse_ip ["127.0.0.1"; "01.2.3.4"; "1.2.3"; "256.1.1.1"; "::1"; "::"; "2000::ff"; "::ffff:1.2.3.4";
                "1:2:3:4:5:6:7:8"; "1:2:3:4:5:6:7"; "1::2::3"; "12345::"; "1.2.3.4."]%string
  = [Some (V4 2130706433); None; None; None; Some (V6 1); Some (V6 0); Some (V6 (2 ^ 125 + 255));
     Some (V6 (65535 * 2 ^ 32 + 16909060)); Some (V6 0x00010002000300040005000600070008);
     None; None; None; None].
Proof. vm_compute. reflexivity. Qed.

Example parse_addr_examples :
  map parse_addr ["1.2.3.4:80"; "[::1]:443"; "1.2.3.4"; "::1:80"; "1.2.3.4:65536"; "a.com:1"; "1.2.3.4:"]%string
  = [Some (mkAddr (V4 16909060) 80); Some (mkAddr (V6 1) 443); None; None; None; None; None] ∧
  map addr_to_string [mkAddr (V4 16909060) 80; mkAddr (V6 1) 443] = ["1.2.3.4:80"; "[::1]:443"]%string.
Proof. vm_compute. split; reflexivity. Qed.

(** ** What is printed is parsed back *)

Definition all_chars (p : Ascii.ascii → bool) (s : string) : bool := forallb p (String.list_ascii_of_string s).
Definition no_char (c : Ascii.ascii) (s : string) : bool := all_chars (λ a, negb (bool_decide (a = c))) s.
(** The text ends here, or goes on with a character outside [p]. *)
Definition stops (p : Ascii.ascii → bool) (s : string) : bool :=
  match s with EmptyString => true | String a _ => negb (p a) end.

Lemma span_app p s rest : all_chars p s = true → stops p rest = true → span p (String.append s rest) = (s, rest).
Proof.
  intros Hs Hr. induction s as [|a s IH].
  - destruct rest as [|b rest]; [done|]. simpl in *. by destruct (p b).
  - cbn in Hs. apply andb_true_iff in Hs as [Ha Hs]. simpl. by rewrite Ha, (IH Hs).
Qed.

Lemma read_char_eq c s : read_char c (String c s) = Some s.
Proof. unfold read_char. by rewrite decide_True. Qed.

Lemma digit_char n : (n < 10)%N → is_digit (pretty_N_char n) = true ∧ ascii_Z (pretty_N_char n) - 48 = Z.of_N n.
Proof.
  intros Hn. assert (Hin : Z.of_N n ∈ [0;1;2;3;4;5;6;7;8;9]).
  { rewrite !elem_of_cons. lia. }
  rewrite !elem_of_cons, elem_of_nil in Hin. rewrite <- (N2Z.id n).
  repeat match goal with H : _ ∨ _ |- _ => destruct H as [->|H]; [done|] end. done.
Qed.

Lemma pretty_go_digits n : ∀ s, all_chars is_digit s = true → all_chars is_digit (pretty_N_go n s) = true.
Proof.
  induction (N.lt_wf_0 n) as [n _ IH]. intros s Hs. destruct (decide (0 < n)%N) as [Hn|].
  - rewrite pretty_N_go_step by done. apply IH; [apply N.div_lt; lia|].
    cbn. rewrite (proj1 (digit_char (n mod 10) ltac:(apply N.mod_lt; lia))). exact Hs.
  - assert (n = 0%N) as -> by lia. by rewrite pretty_N_go_0.
Qed.

Lemma parse_pretty_go n : ∀ s, parse_digits 0 (pretty_N_go n s) = parse_digits (Z.of_N n) s.
Proof.
  induction (N.lt_wf_0 n) as [n _ IH]. intros s. destruct (decide (0 < n)%N) as [Hn|].
  - rewrite pretty_N_go_step by done. rewrite IH by (apply N.div_lt; lia). cbn [parse_digits].
    destruct (digit_char (n mod 10) ltac:(apply N.mod_lt; lia)) as [Hd Hv].
    unfold is_digit, ascii_Z in *. rewrite Hd, Hv. f_equal.
    pose proof (N.div_mod n 10 ltac:(lia)). lia.
  - assert (n = 0%N) as -> by lia. by rewrite pretty_N_go_0.
Qed.

Lemma dec_digits z : all_chars is_digit (dec z) = true.
Proof.
  unfold dec, pretty, pretty_N. case_decide; [done|]. by apply pretty_go_digits.
Qed.

Lemma parse_dec z : 0 <= z → parse_digits 0 (dec z) = Some z.
Proof.
  intros Hz. unfold dec, pretty, pretty_N. case_decide as E.
  - assert (z = 0) as -> by lia. done.
  - rewrite parse_pretty_go. simpl. f_equal. lia.
Qed.

Lemma dec_nonempty z : dec z ≠ EmptyString.
Proof.
  unfold dec, pretty, pretty_N. case_decide as E; [done|].
  generalize EmptyString at 1. revert E. generalize (Z.to_N z) as n. intros n Hn s.
  rewrite pretty_N_go_step by lia.
  assert (H : ∀ k s', s' ≠ EmptyString → pretty_N_go k s' ≠ EmptyString).
  { intros k. induction (N.lt_wf_0 k) as [k _ IH]. intros s' Hs'.
    destruct (decide (0 < k)%N); [rewrite pretty_N_go_step by done; apply IH; [apply N.div_lt; lia|done]|].
    assert (k = 0%N) as -> by lia. by rewrite pretty_N_go_0. }
  by apply H.
Qed.

Lemma octet_of_dec z : 0 <= z < 256 → octet_of (dec z) = Some z.
Proof.
  intros Hz. assert (Hall : forallb (λ z, bool_decide (octet_of (dec z) = Some z)) (seqZ 0 256) = true)
    by (vm_compute; reflexivity).
  rewrite forallb_forall in Hall. eapply bool_decide_eq_true, Hall, list_elem_of_In, elem_of_seqZ. lia.
Qed.

Lemma read_octet_dec z rest : 0 <= z < 256 → stops is_digit rest = true →
  read_octet (String.append (dec z) rest) = Some (z, rest).
Proof.
  intros Hz Hr. unfold read_octet. rewrite span_app by (done || apply dec_digits). by rewrite octet_of_dec.
Qed.

Lemma read_port_dec z rest : 0 <= z < 65536 → stops is_digit rest = true →
  read_port (String.append (dec z) rest) = Some (z, rest).
Proof.
  intros Hz Hr. unfold read_port. rewrite span_app by (done || apply dec_digits).
  rewrite parse_dec by lia. pose proof (dec_nonempty z). destruct (dec z); [done|]. cbn [mbind option_bind].
  destruct (Z.ltb_spec z 65536); [done|lia].
Qed.

Lemma octet_range i a : 0 <= octet i a < 256.
Proof. unfold octet. rewrite (Z.land_ones _ 8) by lia. by apply Z.mod_pos_bound. Qed.

Lemma octets_value a : 0 <= a < 2 ^ 32 →
  ((octet 0 a * 256 + octet 1 a) * 256 + octet 2 a) * 256 + octet 3 a = a.
Proof.
  intros Ha. unfold octet. rewrite !(Z.land_ones _ 8), !Z.shiftr_div_pow2 by lia.
  change (2 ^ (8 * (3 - 0))) with 16777216. change (2 ^ (8 * (3 - 1))) with 65536.
  change (2 ^ (8 * (3 - 2))) with 256. change (2 ^ (8 * (3 - 3))) with 1. change (2 ^ 8) with 256.
  rewrite (Z.mod_small (a / 16777216)) by (split; [apply Z.div_pos|apply Z.div_lt_upper_bound]; lia).
  pose proof (Z.div_mod a 256 ltac:(lia)). pose proof (Z.div_mod (a / 256) 256 ltac:(lia)).
  pose proof (Z.div_mod (a / 65536) 256 ltac:(lia)). rewrite Z.div_1_r.
  rewrite Z.div_div in * by lia. change (256 * 256) with 65536 in *. change (65536 * 256) with 16777216 in *. lia.
Qed.

Lemma ipv4_to_string_octets a :
  ipv4_to_string a = String.append (dec (octet 0 a)) (String dot (String.append (dec (octet 1 a))
    (String dot (String.append (dec (octet 2 a)) (String dot (dec (octet 3 a))))))).
Proof. reflexivity. Qed.

Lemma append_assoc s1 s2 s3 : String.append (String.append s1 s2) s3 = String.append s1 (String.append s2 s3).
Proof. induction s1 as [|a s1 IH]; [done|]. exact (f_equal (String a) IH). Qed.
Lemma append_cons a s1 s2 : String.append (String a s1) s2 = String a (String.append s1 s2).
Proof. reflexivity. Qed.
Lemma append_nil_r s : String.append s EmptyString = s.
Proof. induction s as [|a s IH]; [done|]. exact (f_equal (String a) IH). Qed.

Lemma read_ipv4_to_string a rest : 0 <= a < 2 ^ 32 → stops is_digit rest = true →
  read_ipv4 (String.append (ipv4_to_string a) rest) = Some (a, rest).
Proof.
  intros Ha Hr. rewrite ipv4_to_string_octets.
  rewrite !append_assoc, !append_cons, !append_assoc, !append_cons, !append_assoc, !append_cons.
  unfold read_ipv4.
  do 3 (rewrite read_octet_dec by (apply octet_range || done); cbn [mbind option_bind];
    rewrite read_char_eq; cbn [mbind option_bind]).
  rewrite read_octet_dec by (apply octet_range || done). cbn [mbind option_bind].
  by rewrite octets_value.
Qed.

Definition valid_v4_addr (a : SocketAddr) : Prop :=
  ∃ x, ip a = V4 x ∧ 0 <= x < 2 ^ 32 ∧ 0 <= port a < 65536.

Lemma parse_addr_to_string a : valid_v4_addr a → parse_addr (addr_to_string a) = Some a.
Proof.
  intros (x & Ex & Hx & Hp). destruct a as [i p]; simpl in *; subst i.
  unfold parse_addr, addr_to_string, read_sockaddr_v4. cbn [ip port].
  rewrite read_ipv4_to_string by done. cbn [mbind option_bind]. rewrite read_char_eq. cbn [mbind option_bind].
  rewrite <- (append_nil_r (dec p)). by rewrite read_port_dec.
Qed.

Lemma parse_ipv4_to_string a : 0 <= a < 2 ^ 32 → parse_ipv4 (ipv4_to_string a) = Some a.
Proof.
  intros Ha. unfold parse_ipv4. rewrite <- (append_nil_r (ipv4_to_string a)). by rewrite read_ipv4_to_string.
Qed.

(** ** Splitting *)

Lemma rsplit_once_app c h t : no_char c t = true →
  rsplit_once_char c (String.append h (String c t)) = Some (h, t).
Proof.
  intros Ht. assert (Hn : rsplit_once_char c t = None).
  { induction t as [|b t IH]; [done|]. unfold no_char, all_chars in Ht. cbn in Ht.
    apply andb_true_iff in Ht as [Hb Ht]. cbn [rsplit_once_char]. rewrite IH by done.
    rewrite decide_False; [done|]. intros ->. by rewrite bool_decide_eq_true_2 in Hb. }
  induction h as [|b h IH].
  - change (String.append EmptyString ?x) with x. cbn [rsplit_once_char]. by rewrite Hn, decide_True.
  - rewrite append_cons. cbn [rsplit_once_char]. by rewrite IH.
Qed.

Lemma digits_no_char c s : is_digit c = false → all_chars is_digit s = true → no_char c s = true.
Proof.
  intros Hc. unfold no_char, all_chars. rewrite !forallb_forall. intros Hs x Hx. specialize (Hs x Hx).
  rewrite bool_decide_eq_false_2; [done|]. intros ->. congruence.
Qed.

Lemma split_once_app c h t : no_char c h = true → split_once_char c (String.append h (String c t)) = Some (h, t).
Proof.
  induction h as [|b h IH]; intros Hh.
  - change (String.append EmptyString ?x) with x. cbn [split_once_char]. by rewrite decide_True.
  - unfold no_char, all_chars in Hh. cbn in Hh. apply andb_true_iff in Hh as [Hb Hh]. rewrite append_cons. cbn [split_once_char].
    rewrite decide_False; [by rewrite IH|]. intros ->. by rewrite bool_decide_eq_true_2 in Hb.
Qed.

Lemma split_once_absent c s : no_char c s = true → split_once_char c s = None.
Proof.
  induction s as [|b s IH]; [done|]. unfold no_char, all_chars. cbn. intros [Hb Hs]%andb_true_iff.
  rewrite decide_False; [by rewrite IH|]. intros ->. by rewrite bool_decide_eq_true_2 in Hb.
Qed.

Lemma no_char_app c s1 s2 : no_char c s1 = true → no_char c s2 = true → no_char c (String.append s1 s2) = true.
Proof.
  intros H1 H2. induction s1 as [|b s1 IH]; [done|]. rewrite append_cons. unfold no_char, all_chars in *. cbn in *.
  apply andb_true_iff in H1 as [Hb H1]. by rewrite Hb, IH.
Qed.

Lemma parse_uint_digits t n : all_chars is_digit t = true → t ≠ EmptyString →
  parse_digits 0 t = Some n → 0 <= n < 65536 → parse_uint 65536 t = Some n.
Proof.
  intros Hd Ht Hn Hr. destruct t as [|a t]; [done|]. unfold parse_uint.
  rewrite decide_False.
  - rewrite Hn. cbn [mbind option_bind]. by destruct (Z.ltb_spec n 65536); [|lia].
  - intros ->. by cbn in Hd.
Qed.

Lemma parse_uint_dec n : 0 <= n < 65536 → parse_uint 65536 (dec n) = Some n.
Proof. intros. apply parse_uint_digits; [apply dec_digits|apply dec_nonempty|by apply parse_dec; lia|done]. Qed.
