(* ===== verification/ExitAuth.v ===== *)
(** * Authentication between client and exit
    (libraries/geph5-misc-rpc/src/exit.rs, binaries/geph5-exit/src/{auth,listen}.rs,
    binaries/geph5-client/src/client_inner.rs)

    The client sends a hello with its credentials and either a challenge for
    the transport's shared secret or an ephemeral key; the exit checks the
    credentials and answers with a signed reply.  The network is the bytes that
    arrive; ephemeral secrets and challenges are arguments. *)
From Stdlib Require Import ZArith Lia.
From S2P Require Import Prelude Crypto Mizaru CryptPipe Protocol Text.
Local Open Scope Z_scope.

(** ** Messages *)

Inductive ClientCryptHello :=
| SharedSecretChallenge (key : list byte)
| HelloX25519 (epk : list byte).

Record ClientHello := mkHello { credentials : list byte; crypt_hello : ClientCryptHello }.

Inductive ExitHelloInner :=
| Reject (reason : string)
| SharedSecretResponse (mac : list byte)
| InnerX25519 (epk : list byte).

Record ExitHello := mkExitHello { hello_inner : ExitHelloInner; hello_signature : list byte }.

(** The public keys compiled into the exit. *)
Definition level_key_hex (level : AccountLevel) : string :=
  match level with
  | Free => "0558216cbab7a9c46f298f4c26e171add9af87d0694988b8a8fe52ee932aa754"
  | Plus => "cf6f58868c6d9459b3a63bc2bd86165631b3e916bad7f62b578cd9614e0bcb3b"
  end.

(** [try_into] a [[u8; 32]] after [unwrap]. *)
Definition level_key (level : AccountLevel) : res string (list byte) :=
  bts ← unwrap (hex_decode (level_key_hex level));
  if decide (length bts = 32%nat) then Ok bts else Panic.

Section with_crypto.
Context `{Blake3Laws} `{X25519Laws} `{Ed25519Laws} `{BlindRsaLaws}.
Context `{StdcodeLaws ClientHello} `{StdcodeLaws ExitHello}.
Context `{StdcodeLaws (ClientHello * ExitHelloInner)}.
Context `{StdcodeLaws (AccountLevel * list byte * UnblindedSignature)}.

(** ** The exit *)

(** [verify_user]; [now] is [mizaru2::current_epoch()]. *)
Definition verify_user (now : Z) (level : AccountLevel) (token : list byte)
    (sig : UnblindedSignature) : res string unit :=
  if 2 <? Z.abs (epoch sig - now) then Err "signature from wrong epoch"%string
  else
    key ← level_key level;
    blind_verify key token sig.

(** The credential check of [handle_client]: whether the user is a free one.
    [broker] says that a broker is configured, [accept_free] is
    [ACCEPT_FREE]. *)
Definition check_credentials (broker accept_free : bool) (now : Z) (creds : list byte)
    : res string bool :=
  if broker then
    '(level, token, sig) ← ok_or (deserialize creds) "cannot deserialize credentials"%string;
    if bool_decide (level = Free) && negb accept_free then Err "free users rejected here"%string
    else
      _ ← verify_user now level token sig;
      Ok (bool_decide (level = Free))
  else Ok false.

Definition io_msg (e : io_error) : string := msg e.

(** The exit's part of the key agreement: the keys (read, write) of the crypt
    pipe and the answer.  [ss] is [client.shared_secret()]. *)
Definition exit_response (ss : option (list byte)) (my_esk : list byte) (c : ClientCryptHello)
    : res string (option (list byte * list byte) * ExitHelloInner) :=
  match c with
  | SharedSecretChallenge key =>
      real_ss ← ok_or ss "no shared secret"%string;
      Ok (None, SharedSecretResponse (keyed_hash key real_ss))
  | HelloX25519 their_epk =>
      let shared_secret := diffie_hellman my_esk their_epk in
      Ok (Some (derive_key "c2e" shared_secret, derive_key "e2c" shared_secret),
          InnerX25519 (public my_esk))
  end.

Definition exit_hello (signing_secret : list byte) (h : ClientHello) (inner : ExitHelloInner)
    : ExitHello := mkExitHello inner (sign signing_secret (stdcode (h, inner))).

(** The first half of [handle_client], up to the reply: the reply's bytes, the
    keys (read, write) of the crypt pipe if there is one, whether the user is
    free, and the rest of the input. *)
Definition handle_client (broker accept_free : bool) (now : Z) (ss : option (list byte))
    (signing_secret my_esk : list byte) (input : list byte)
    : res string (list byte * option (list byte * list byte) * bool * list byte) :=
  '(raw, input) ← map_err io_msg (read_prepend_length input);
  client_hello ← ok_or (deserialize raw) "bad client hello"%string;
  '(keys, inner) ← exit_response ss my_esk (crypt_hello client_hello);
  is_free ← check_credentials broker accept_free now (credentials client_hello);
  Ok (write_prepend_length (stdcode (exit_hello signing_secret client_hello inner)),
      keys, is_free, input).

(** ** The client *)

(** The hello [client_auth] sends: [ss] is the transport's shared secret. *)
Definition client_hello (creds : list byte) (ss : option (list byte))
    (challenge my_esk : list byte) : ClientHello :=
  mkHello creds (match ss with
                 | Some _ => SharedSecretChallenge challenge
                 | None => HelloX25519 (public my_esk)
                 end).

Definition client_send (h : ClientHello) : list byte := write_prepend_length (stdcode h).

(** The rest of [client_auth]: the keys (read, write) of the crypt pipe, if
    one is put on top, and the rest of the input. *)
Definition client_auth (pubkey : list byte) (h : ClientHello) (ss : option (list byte))
    (challenge my_esk : list byte) (input : list byte)
    : res string (option (list byte * list byte) * list byte) :=
  '(raw, input) ← map_err io_msg (read_prepend_length input);
  match ss with
  | Some ss =>
      let mac := keyed_hash challenge ss in
      resp ← ok_or (deserialize raw) "cannot deserialize exit hello"%string;
      match hello_inner resp with
      | SharedSecretResponse response_mac =>
          if decide (mac = response_mac) then Ok (None, input)
          else Err "authentication failed with shared secret"%string
      | _ => Err "unexpected response from server"%string
      end
  | None =>
      resp ← ok_or (deserialize raw) "could not deserialize exit hello"%string;
      if verify_strict pubkey (stdcode (h, hello_inner resp)) (hello_signature resp) then
        match hello_inner resp with
        | Reject _ => Err "exit rejected our authentication attempt"%string
        | SharedSecretResponse _ => Err "exit sent a shared-secret response"%string
        | InnerX25519 their_epk =>
            let shared_secret := diffie_hellman my_esk their_epk in
            Ok (Some (derive_key "e2c" shared_secret, derive_key "c2e" shared_secret), input)
        end
      else Err "exit hello failed validation"%string
  end.

(** ** Properties *)

Lemma read_stdcode {A} `{StdcodeLaws A} (a : A) rest :
  Z.of_nat (length (stdcode a)) < 2 ^ 32 →
  map_err io_msg (read_prepend_length (write_prepend_length (stdcode a) ++ rest)) =
    Ok (stdcode a, rest).
Proof. intros. by rewrite read_write_prepend. Qed.

Definition swap_keys (k : option (list byte * list byte)) : option (list byte * list byte) :=
  (λ p, (p.2, p.1)) <$> k.

(** C11: an honest client and an honest exit authenticate each other.  If both
    ends see the same transport secret (or none), the client knows the exit's
    verifying key and the exit admits the credentials, then the exit answers
    the hello and the client accepts the answer; on the X25519 path the read
    key of each side is the write key of the other, on the shared-secret path
    neither adds a layer; bytes behind the messages are untouched. *)
Theorem auth_agreement broker free now ss sk esk esk' challenge creds is_free rest rest' :
  let h := client_hello creds ss challenge esk in
  Z.of_nat (length (stdcode h)) < 2 ^ 32 →
  (∀ keys inner, exit_response ss esk' (crypt_hello h) = Ok (keys, inner) →
     Z.of_nat (length (stdcode (exit_hello sk h inner))) < 2 ^ 32) →
  check_credentials broker free now creds = Ok is_free →
  ∃ reply keys,
    handle_client broker free now ss sk esk' (client_send h ++ rest) = Ok (reply, keys, is_free, rest) ∧
    client_auth (verifying_key sk) h ss challenge esk (reply ++ rest') = Ok (swap_keys keys, rest') ∧
    (keys = None ↔ is_Some ss).
Proof.
  intros h Hh Hr Hc. unfold handle_client, client_send.
  rewrite read_stdcode by done. cbn [mbind res_bind]. rewrite deserialize_stdcode.
  cbn [ok_or mbind res_bind]. change (credentials h) with creds.
  destruct ss as [ss|].
  - specialize (Hr None (SharedSecretResponse (keyed_hash challenge ss)) eq_refl).
    cbn [h client_hello crypt_hello exit_response ok_or mbind res_bind].
    rewrite Hc. cbn [mbind res_bind]. eexists _, _. split; [done|]. split.
    + unfold client_auth. rewrite read_stdcode by apply Hr. cbn [mbind res_bind].
      rewrite deserialize_stdcode. cbn [ok_or mbind res_bind hello_inner exit_hello].
      by rewrite decide_True.
    + split; [eauto|done].
  - specialize (Hr _ (InnerX25519 (public esk')) eq_refl).
    cbn [h client_hello crypt_hello exit_response mbind res_bind]. rewrite Hc. cbn [mbind res_bind].
    eexists _, _. split; [done|]. split.
    + unfold client_auth. rewrite read_stdcode by apply Hr. cbn [mbind res_bind].
      rewrite deserialize_stdcode. cbn [ok_or mbind res_bind hello_inner hello_signature exit_hello].
      rewrite verify_sign. unfold swap_keys; simpl. by rewrite (dh_comm esk' esk).
    + split; [done|]. by intros [].
Qed.

(** Runs of an exit: what [handle_client] was given each time. *)
Record exit_run := mkRun {
  x_broker : bool; x_free : bool; x_now : Z; x_ss : option (list byte); x_esk : list byte; x_input : list byte
}.
Definition run_exit (sk : list byte) (x : exit_run) :=
  handle_client (x_broker x) (x_free x) (x_now x) (x_ss x) sk (x_esk x) (x_input x).
Definition run_hello (x : exit_run) : option ClientHello :=
  match read_prepend_length (x_input x) with Ok (raw, _) => deserialize raw | _ => None end.

(** The message that a run signs: only one that gets as far as its reply does. *)
Definition run_signs (sk : list byte) (x : exit_run) (m : list byte) : Prop :=
  ∃ h keys inner r, run_hello x = Some h ∧ exit_response (x_ss x) (x_esk x) (crypt_hello h) = Ok (keys, inner) ∧
    run_exit sk x = Ok r ∧ m = stdcode (h, inner).

(** The signature in the answer is no forgery: what it is valid for was signed in one
    of the runs. *)
Definition no_forgery (sk : list byte) (runs : list exit_run) (input : list byte) : Prop :=
  ∀ raw rest resp m, read_prepend_length input = Ok (raw, rest) → deserialize raw = Some resp →
    verify_strict (verifying_key sk) m (hello_signature resp) = true → ∃ x, x ∈ runs ∧ run_signs sk x m.

Lemma run_exit_keys sk x h keys inner r :
  run_hello x = Some h → exit_response (x_ss x) (x_esk x) (crypt_hello h) = Ok (keys, inner) → run_exit sk x = Ok r → r.1.1.2 = keys.
Proof.
  unfold run_hello, run_exit, handle_client. intros Eh Ex E.
  destruct (read_prepend_length (x_input x)) as [[raw inp]| |]; [|done..]. cbn in E. rewrite Eh in E. cbn in E. rewrite Ex in E. cbn in E.
  destruct (check_credentials _ _ _ _) as [f| |]; [|done..]. cbn in E. by injection E as <-.
Qed.

Lemma client_auth_Ok pk h challenge esk input keys rest :
  client_auth pk h None challenge esk input = Ok (keys, rest) →
  ∃ raw resp epk, read_prepend_length input = Ok (raw, rest) ∧ deserialize raw = Some resp ∧ hello_inner resp = InnerX25519 epk ∧
    verify_strict pk (stdcode (h, InnerX25519 epk)) (hello_signature resp) = true ∧
    keys = Some (derive_key "e2c" (diffie_hellman esk epk), derive_key "c2e" (diffie_hellman esk epk)).
Proof.
  unfold client_auth. destruct (read_prepend_length input) as [[raw inp]| |]; [|done..]. cbn.
  destruct (deserialize raw) as [[inner sig]|] eqn:Ed; [|done]. cbn. destruct (verify_strict _ _ _) eqn:Ev; [|done].
  destruct inner as [| |epk]; [done..|]. intros [= <- <-]. by eexists raw, _, epk.
Qed.

(** C16: over a transport without a shared secret the client talks only to the
    exit.  If [client_auth] succeeds, then the answer it read carries a key of the
    peer and a signature that is valid under the exit's key for exactly this
    client's hello (its credentials and its ephemeral key) and that key, and the
    session keys are those of the exchange.  If in addition that signature is none
    that somebody forged, the exit itself has handled a client with this very hello,
    has admitted its credentials and has derived the same two keys, with the
    directions exchanged. *)
Theorem client_auth_sound sk runs creds challenge esk input keys rest :
  client_auth (verifying_key sk) (client_hello creds None challenge esk) None challenge esk input = Ok (keys, rest) →
  (∃ raw resp epk, read_prepend_length input = Ok (raw, rest) ∧ deserialize raw = Some resp ∧ hello_inner resp = InnerX25519 epk ∧
     verify_strict (verifying_key sk) (stdcode (client_hello creds None challenge esk, InnerX25519 epk)) (hello_signature resp) = true ∧
     keys = Some (derive_key "e2c" (diffie_hellman esk epk), derive_key "c2e" (diffie_hellman esk epk))) ∧
  (no_forgery sk runs input →
   ∃ x reply keys' is_free rest', x ∈ runs ∧ run_hello x = Some (client_hello creds None challenge esk) ∧
     run_exit sk x = Ok (reply, keys', is_free, rest') ∧ keys = swap_keys keys').
Proof.
  intros E. pose proof (client_auth_Ok _ _ _ _ _ _ _ E) as Hk. split; [done|]. intros Hnf.
  destruct Hk as (raw & resp & epk & Hr & Hd & Hi & Hv & ->).
  destruct (Hnf _ _ _ _ Hr Hd Hv) as (x & Hx & h' & keys' & inner & r & Eh & Ex & Er & Em).
  apply (f_equal (deserialize (A := ClientHello * ExitHelloInner))) in Em. rewrite !deserialize_stdcode in Em. injection Em as <- <-.
  pose proof (run_exit_keys _ _ _ _ _ _ Eh Ex Er) as Ek. destruct r as [[[reply keys''] is_free] rest']. cbn in Ek. subst keys''.
  exists x, reply, keys', is_free, rest'. split_and!; [done..|]. cbn in Ex. injection Ex as <- <-. cbn. by rewrite (dh_comm (x_esk x) esk).
Qed.

(** Over a transport with a shared secret the exit's key plays no part.
    The client accepts any answer that contains the keyed hash of the
    transport's secret, whatever the signature and whatever verifying key it
    was given: whoever terminates the transport passes for the exit. *)
Theorem shared_secret_skips_signature pk h ss challenge esk sig rest :
  Z.of_nat (length (stdcode (mkExitHello (SharedSecretResponse (keyed_hash challenge ss)) sig))) < 2 ^ 32 →
  client_auth pk h (Some ss) challenge esk
    (write_prepend_length (stdcode (mkExitHello (SharedSecretResponse (keyed_hash challenge ss)) sig)) ++ rest)
  = Ok (None, rest).
Proof.
  intros Hl. unfold client_auth. rewrite read_stdcode by done. cbn [mbind res_bind].
  rewrite deserialize_stdcode. cbn [ok_or mbind res_bind hello_inner]. by rewrite decide_True.
Qed.

(** The compiled-in keys decode. *)
Lemma level_key_Ok level : ∃ k, level_key level = Ok k ∧ length k = 32%nat.
Proof. destruct level; eexists; split; [reflexivity|done|reflexivity|done]. Qed.

(** C10: whom an exit admits.  With a broker configured, the credential check
    succeeds exactly for a token of a level the exit accepts whose epoch is
    within two days of today's and whose signature verifies under that level's
    root; with no broker everyone is admitted as a paying user. *)
Theorem check_credentials_iff broker free now creds is_free :
  check_credentials broker free now creds = Ok is_free ↔
  (broker = false ∧ is_free = false) ∨
  (broker = true ∧ ∃ level token sig root,
     deserialize creds = Some (level, token, sig) ∧ is_free = bool_decide (level = Free) ∧
     (level = Free → free = true) ∧ Z.abs (epoch sig - now) <= 2 ∧
     level_key level = Ok root ∧ blind_verify root token sig = Ok tt).
Proof.
  unfold check_credentials, verify_user. destruct broker; [|split; [naive_solver|]].
  2:{ intros [[_ ->]|[? _]]; done. }
  split.
  - intros E. right. split; [done|]. apply bind_Ok in E as ([[level token] sig] & Ed & E).
    destruct (bool_decide (level = Free) && negb free) eqn:Ef; [done|].
    apply bind_Ok in E as ([] & Ev & [= <-]).
    destruct (Z.ltb_spec 2 (Z.abs (epoch sig - now))); [done|].
    apply bind_Ok in Ev as (root & Hk & Hb). apply ok_or_Ok in Ed.
    exists level, token, sig, root. split_and!; try done.
    intros ->. rewrite bool_decide_true in Ef by done. by destruct free.
  - intros [[? _]|[_ (level & token & sig & root & Ed & -> & Hf & He & Hk & Hb)]]; [done|].
    rewrite Ed. cbn [ok_or mbind res_bind].
    assert (bool_decide (level = Free) && negb free = false) as ->.
    { destruct level; [|done]. by rewrite Hf. }
    destruct (Z.ltb_spec 2 (Z.abs (epoch sig - now))); [lia|].
    rewrite Hk. cbn [mbind res_bind]. by rewrite Hb.
Qed.
End with_crypto.

(** ** Concrete exchanges *)
Import Toy.

Module AuthDemo.
#[export] Instance crypt_hello_eq : EqDecision ClientCryptHello.
Proof. solve_decision. Defined.
#[export] Instance crypt_hello_countable : Countable ClientCryptHello.
Proof.
  refine (inj_countable'
    (λ c, match c with SharedSecretChallenge k => inl k | HelloX25519 k => inr k end)
    (λ s, match s with inl k => SharedSecretChallenge k | inr k => HelloX25519 k end) _).
  by intros [].
Defined.
#[export] Instance hello_eq : EqDecision ClientHello.
Proof. solve_decision. Defined.
#[export] Instance hello_countable : Countable ClientHello.
Proof.
  refine (inj_countable' (λ h, (credentials h, crypt_hello h)) (λ p, mkHello p.1 p.2) _). by intros [].
Defined.
#[export] Instance inner_eq : EqDecision ExitHelloInner.
Proof. solve_decision. Defined.
#[export] Instance inner_countable : Countable ExitHelloInner.
Proof.
  refine (inj_countable'
    (λ c, match c with Reject s => inl s | SharedSecretResponse k => inr (inl k)
                     | InnerX25519 k => inr (inr k) end)
    (λ s, match s with inl s => Reject s | inr (inl k) => SharedSecretResponse k
                     | inr (inr k) => InnerX25519 k end) _).
  by intros [].
Defined.
#[export] Instance exit_hello_eq : EqDecision ExitHello.
Proof. solve_decision. Defined.
#[export] Instance exit_hello_countable : Countable ExitHello.
Proof.
  refine (inj_countable' (λ h, (hello_inner h, hello_signature h)) (λ p, mkExitHello p.1 p.2) _).
  by intros [].
Defined.
#[export] Instance level_countable : Countable AccountLevel.
Proof.
  refine (inj_countable' (λ l, match l with Free => true | Plus => false end)
    (λ b, if b then Free else Plus) _). by intros [].
Defined.
#[export] Instance unblinded_eq : EqDecision UnblindedSignature.
Proof. solve_decision. Defined.
#[export] Instance unblinded_countable : Countable UnblindedSignature.
Proof.
  refine (inj_countable' (λ s, (epoch s, used_key s, merkle_branch s, unblinded_sig s))
    (λ '(e, k, b, u), mkUnblinded e k b u) _). by intros [].
Defined.
End AuthDemo.
Import AuthDemo.

Lemma auth_agreement_witness :
  ∃ reply keys,
    handle_client false false 20000 None [x05] [x06]
      (client_send (client_hello [] None [] [x07]) ++ [xaa]) = Ok (reply, keys, false, [xaa]) ∧
    client_auth (verifying_key [x05]) (client_hello [] None [] [x07]) None [] [x07] (reply ++ [xbb])
      = Ok (swap_keys keys, [xbb]) ∧ (keys = None ↔ is_Some (@None (list byte))).
Proof.
  apply (auth_agreement false false 20000 None [x05] [x07] [x06] [] [] false [xaa] [xbb]).
  - by vm_compute.
  - intros keys inner E. injection E as <- <-. by vm_compute.
  - reflexivity.
Defined.

(** The exit with the key [[x05]] has handled this client's hello once. *)
Lemma client_auth_sound_witness :
  let h := client_hello [] None [] [x07] in
  let x := mkRun false false 20000 None [x06] (client_send h) in
  ∃ reply keys keys' is_free rest, run_exit [x05] x = Ok (reply, keys', is_free, rest) ∧
    client_auth [x05] h None [] [x07] reply = Ok (keys, []) ∧ keys = swap_keys keys'.
Proof.
  intros h x. destruct (run_exit [x05] x) as [[[[reply keys'] is_free] rest]| |] eqn:Er; [|vm_compute in Er; discriminate..].
  destruct (client_auth [x05] h None [] [x07] reply) as [[keys rest']| |] eqn:E;
    [|vm_compute in Er; injection Er as <- <- <- <-; vm_compute in E; discriminate..].
  destruct (client_auth_sound [x05] [x] [] [] [x07] reply keys rest' E) as [_ Hs].
  destruct Hs as (x' & reply' & keys'' & f' & r' & Hx & _ & Er' & Ek).
  { intros raw rst resp m Hraw Hresp Hv. exists x. split; [left|].
    assert (Hm : m = stdcode (h, InnerX25519 (public [x06]))).
    { vm_compute in Er. injection Er as <- _ _ _. vm_compute in Hraw. injection Hraw as <- _. vm_compute in Hresp. injection Hresp as <-.
      cbn in Hv. apply bool_decide_eq_true in Hv. by injection Hv as <-. }
    eexists h, _, _, _. split_and!; [by vm_compute|reflexivity|exact Er|exact Hm]. }
  apply list_elem_of_singleton in Hx as ->. rewrite Er in Er'. injection Er' as <- <- <- <-.
  exists reply, keys, keys', is_free, rest. split_and!; [done| |done]. rewrite E. assert (rest' = []) as ->; [|done].
  vm_compute in Er. injection Er as <- _ _ _. vm_compute in E. by injection E.
Defined.

Lemma shared_secret_skips_signature_witness :
  client_auth [x01; x02] (client_hello [] (Some [x0a]) [x0b] []) (Some [x0a]) [x0b] []
    (write_prepend_length
       (stdcode (mkExitHello (SharedSecretResponse (keyed_hash [x0b] [x0a])) [])) ++ [])
  = Ok (None, []).
Proof. apply shared_secret_skips_signature. by vm_compute. Defined.
