(* ===== verification/Dialer.v ===== *)
(** * Dialers and connection tests (libraries/sillad/src/{dialer,listener,tcp}.rs,
    libraries/sillad-conntest/src/lib.rs)

    A dialer is a function from the time it is started to how and when it
    ends.  The combinators of [DialerExt] act on these timed outcomes;
    [select] and [timeout] poll their first future first, which decides ties. *)
From Stdlib Require Import ZArith Lia.
From S2P Require Import Prelude Crypto Protocol.
Local Open Scope Z_scope.

(** ** Timed outcomes *)

Inductive outcome (A : Type) : Type :=
| Done (at_ : Z) (r : A + io_error)
| Never.
Arguments Done {A}.
Arguments Never {A}.

(** A dialer; time is in milliseconds. *)
Definition dialer (A : Type) : Type := Z → outcome A.

Definition failing_error : io_error := IoError BrokenPipe "failing dialer always fails".
(** The message also prints the duration, which no one parses. *)
Definition timeout_error : io_error := IoError TimedOut "dial timed out".

Section combinators.
Context {A : Type}.
Implicit Types d : dialer A.

Definition FailingDialer : dialer A := λ t, Done t (inr failing_error).

Definition delay (ms : Z) d : dialer A := λ t, d (t + ms).

Definition timeout (ms : Z) d : dialer A := λ t,
  match d t with
  | Done t' r => if t' <=? t + ms then Done t' r else Done (t + ms) (inr timeout_error)
  | Never => Done (t + ms) (inr timeout_error)
  end.

Definition fallback d1 d2 : dialer A := λ t,
  match d1 t with
  | Done t' (inl a) => Done t' (inl a)
  | Done t' (inr _) => d2 t'
  | Never => Never
  end.

(** [race_ok]: the first to finish decides if it succeeded, otherwise the
    other one's result stands. *)
Definition race d1 d2 : dialer A := λ t,
  match d1 t, d2 t with
  | Done t1 r1, Done t2 r2 =>
      if t1 <=? t2
      then match r1 with inl a => Done t1 (inl a) | inr _ => Done t2 r2 end
      else match r2 with inl a => Done t2 (inl a) | inr _ => Done t1 r1 end
  | Done t1 (inl a), Never => Done t1 (inl a)
  | Done _ (inr _), Never => Never
  | Never, Done t2 (inl a) => Done t2 (inl a)
  | Never, Done _ (inr _) => Never
  | Never, Never => Never
  end.

(** Wrapping every connection of a dialer in a further handshake. *)
Definition wrap {B} (f : A → Z → outcome B) d : dialer B := λ t,
  match d t with
  | Done t' (inl a) => f a t'
  | Done t' (inr e) => Done t' (inr e)
  | Never => Never
  end.

(** [Iterator::reduce]. *)
Definition reduce (op : dialer A → dialer A → dialer A) (l : list (dialer A)) : option (dialer A) :=
  match l with [] => None | d :: l => Some (foldl op d l) end.

(** [TcpListener::accept]: four attempts ([attempts i] is what attempt [i]
    gives), the last error is returned. *)
Fixpoint accept_retry (n i : nat) (attempts : nat → A + io_error) (err : option io_error)
    : res io_error A :=
  match n with
  | O => match err with Some e => Err e | None => Panic end
  | S n =>
      match attempts i with
      | inl a => Ok a
      | inr e => accept_retry n (S i) attempts (Some e)
      end
  end.

Definition tcp_accept (attempts : nat → A + io_error) : res io_error A :=
  accept_retry 4 0 attempts None.

(** ** When a race succeeds *)

Definition succeeds_at d t t' : Prop := ∃ a, d t = Done t' (inl a).

Lemma race_succeeds d1 d2 t t' a :
  race d1 d2 t = Done t' (inl a) ↔
  (d1 t = Done t' (inl a) ∧ (∀ t2, succeeds_at d2 t t2 → t' <= t2)) ∨
  (d2 t = Done t' (inl a) ∧ (∀ t1, succeeds_at d1 t t1 → t' < t1)).
Proof.
  unfold race, succeeds_at.
  destruct (d1 t) as [t1 [a1|e1]|], (d2 t) as [t2 [a2|e2]|]; try destruct (Z.leb_spec t1 t2);
    split; intros Hs;
    repeat match goal with
    | H : Done _ _ = Done _ _ |- _ => injection H as ? ?; subst
    | H : Never = Done _ _ |- _ => discriminate H
    | H : Done _ _ = Never |- _ => discriminate H
    | H : _ ∨ _ |- _ => destruct H as [[? ?]|[? ?]]
    end; try discriminate; try done;
    try (left; split; [done|intros ? [? [= <- <-]]; lia]);
    try (left; split; [done|intros ? [? ?]; done]);
    try (right; split; [done|intros ? [? [= <- <-]]; lia]);
    try (right; split; [done|intros ? [? ?]; done]).
  all: try (match goal with H : ∀ t2, _ → _ <= t2 |- _ => specialize (H _ (ex_intro _ _ eq_refl)) end; lia).
  all: try (match goal with H : ∀ t2, _ → _ < t2 |- _ => specialize (H _ (ex_intro _ _ eq_refl)) end; lia).
Qed.

Lemma race_total d1 d2 t t1 :
  succeeds_at d1 t t1 ∨ succeeds_at d2 t t1 → ∃ t', succeeds_at (race d1 d2) t t'.
Proof.
  unfold race, succeeds_at. intros [[a E]|[a E]]; rewrite E.
  - destruct (d2 t) as [t2 [a2|e2]|]; try case_match; eauto.
  - destruct (d1 t) as [t2 [a2|e2]|]; try case_match; eauto.
Qed.

Lemma races_sound l : ∀ d t t' a,
  foldl race d l t = Done t' (inl a) →
  (∃ d0, d0 ∈ d :: l ∧ d0 t = Done t' (inl a)) ∧
  ∀ d0 t0, d0 ∈ d :: l → succeeds_at d0 t t0 → t' <= t0.
Proof.
  induction l as [|d2 l IH]; intros d t t' a E; simpl in E.
  { split; [exists d; split; [by left|done]|].
    intros d0 t0 Hin [a0 E0]. apply list_elem_of_singleton in Hin as ->. rewrite E in E0. by simplify_eq. }
  apply IH in E as [(d0 & Hin & E0) Hmin].
  assert (Hle : ∀ t0, succeeds_at d t t0 ∨ succeeds_at d2 t t0 → t' <= t0).
  { intros t0 Hs. destruct (race_total d d2 t t0 Hs) as [t3 [a3 E3]].
    specialize (Hmin (race d d2) t3 ltac:(by left) (ex_intro _ a3 E3)).
    apply race_succeeds in E3 as [[E3 H3]|[E3 H3]].
    - destruct Hs as [[a4 E4]|Hs]; [rewrite E3 in E4; simplify_eq; done|].
      specialize (H3 _ Hs). lia.
    - destruct Hs as [Hs|[a4 E4]]; [specialize (H3 _ Hs); lia|].
      rewrite E3 in E4. simplify_eq. done. }
  split.
  - apply elem_of_cons in Hin as [->|Hin].
    + apply race_succeeds in E0 as [[E0 _]|[E0 _]]; eexists; (split; [|exact E0]); set_solver.
    + exists d0. split; [set_solver|done].
  - intros d1 t0 Hin1 Hs. apply elem_of_cons in Hin1 as [->|Hin1]; [apply Hle; by left|].
    apply elem_of_cons in Hin1 as [->|Hin1]; [apply Hle; by right|].
    apply (Hmin d1); [by right|done].
Qed.

Lemma races_total l : ∀ d t,
  (∃ d0 t0, d0 ∈ d :: l ∧ succeeds_at d0 t t0) → ∃ t', succeeds_at (foldl race d l) t t'.
Proof.
  induction l as [|d2 l IH]; intros d t (d0 & t0 & Hin & Hs); simpl.
  { apply list_elem_of_singleton in Hin as ->. eauto. }
  apply IH. apply elem_of_cons in Hin as [->|Hin].
  { destruct (race_total d d2 t t0) as [t' ?]; [by left|]. exists (race d d2), t'. split; [by left|done]. }
  apply elem_of_cons in Hin as [->|Hin].
  { destruct (race_total d d2 t t0) as [t' ?]; [by right|]. exists (race d d2), t'. split; [by left|done]. }
  exists d0, t0. split; [by right|done].
Qed.

(** Attempts started one after the other, [ms] apart: a race of them succeeds
    exactly when one does, at the moment the earliest does. *)
Definition staggered (ms : Z) (attempts : list (dialer A)) : option (dialer A) :=
  reduce race (imap (λ idx d, delay (ms * Z.of_nat idx) d) attempts).

Lemma staggered_nil ms attempts : staggered ms attempts = None ↔ attempts = [].
Proof. unfold staggered, reduce. by destruct attempts; cbn. Qed.

Lemma staggered_earliest ms attempts g t : staggered ms attempts = Some g →
  (∀ t' a, g t = Done t' (inl a) →
     (∃ i d, attempts !! i = Some d ∧ d (t + ms * Z.of_nat i) = Done t' (inl a)) ∧
     ∀ j d t'', attempts !! j = Some d → succeeds_at d (t + ms * Z.of_nat j) t'' → t' <= t'') ∧
  (∀ j d t'', attempts !! j = Some d → succeeds_at d (t + ms * Z.of_nat j) t'' → ∃ t', succeeds_at g t t').
Proof.
  unfold staggered, succeeds_at. intros Eg. remember (imap _ attempts) as att eqn:Hd.
  assert (Hatt : ∀ j d, attempts !! j = Some d → delay (ms * Z.of_nat j) d ∈ att).
  { intros j d Hj. apply list_elem_of_lookup. exists j. by rewrite Hd, list_lookup_imap, Hj. }
  destruct att as [|d0 l]; [done|]. simpl in Eg. injection Eg as <-. split.
  - intros t' a E. apply races_sound in E as [(d & Hin & E0) Hmin]. split.
    + rewrite Hd in Hin. apply list_elem_of_lookup in Hin as [i Hi].
      rewrite list_lookup_imap in Hi. destruct (attempts !! i) as [d'|] eqn:Ei; simplify_eq/=. by exists i, d'.
    + intros j d' t'' Hj Hs. apply (Hmin _ _ (Hatt _ _ Hj)). exact Hs.
  - intros j d t'' Hj Hs. apply races_total. eexists _, t''. split; [by apply Hatt|exact Hs].
Qed.

(** ** Happy eyeballs

    [tcp] is the operating system's connect. *)
Context (tcp : SocketAddr → dialer A).

Definition HappyEyeballsTcpDialer (addrs : list SocketAddr) : dialer A := λ t,
  match staggered 250 (map tcp addrs) with
  | None => Done t (inr (IoError Other "no addresses given"))
  | Some d => d t
  end.

(** Happy eyeballs finds the fastest address.  Address number [i] is tried
    250 [i] milliseconds after the start; the dial succeeds exactly when one of
    these attempts does, at the moment the earliest of them succeeds and with
    its connection, whatever the others do (fail, hang, succeed later). *)
Theorem happy_eyeballs_fastest addrs t :
  (∀ t' a, HappyEyeballsTcpDialer addrs t = Done t' (inl a) →
     (∃ i addr, addrs !! i = Some addr ∧ tcp addr (t + 250 * Z.of_nat i) = Done t' (inl a)) ∧
     ∀ j addr' t'', addrs !! j = Some addr' →
       succeeds_at (tcp addr') (t + 250 * Z.of_nat j) t'' → t' <= t'') ∧
  (∀ j addr' t'', addrs !! j = Some addr' →
     succeeds_at (tcp addr') (t + 250 * Z.of_nat j) t'' →
     ∃ t', succeeds_at (HappyEyeballsTcpDialer addrs) t t').
Proof.
  unfold HappyEyeballsTcpDialer. destruct (staggered 250 (map tcp addrs)) as [g|] eqn:Eg.
  - destruct (staggered_earliest _ _ _ t Eg) as [H1 H2]. split.
    + intros t' a E. destruct (H1 _ _ E) as [(i & d & Hi & Ed) Hmin]. rewrite list_lookup_fmap in Hi.
      destruct (addrs !! i) as [addr|] eqn:Ei; simplify_eq/=. split; [by exists i, addr|].
      intros j addr' t'' Hj. apply Hmin. by rewrite list_lookup_fmap, Hj.
    + intros j addr' t'' Hj. apply H2. by rewrite list_lookup_fmap, Hj.
  - apply staggered_nil, map_eq_nil in Eg as ->. by split.
Qed.
End combinators.

Lemma happy_eyeballs_fastest_witness :
  let tcp a t := if bool_decide (port a = 1) then Done (t + 5000) (inl 1) else Done (t + 20) (inl 2) in
  HappyEyeballsTcpDialer tcp [mkAddr (V4 0) 1; mkAddr (V4 0) 2] 0 = Done 270 (inl 2) ∧
  ∃ i addr, [mkAddr (V4 0) 1; mkAddr (V4 0) 2] !! i = Some addr ∧
    tcp addr (0 + 250 * Z.of_nat i) = Done 270 (inl 2).
Proof.
  intros tcp. split; [reflexivity|].
  destruct (happy_eyeballs_fastest tcp [mkAddr (V4 0) 1; mkAddr (V4 0) 2] 0) as [H _].
  by destruct (H 270 2 eq_refl) as [? _].
Defined.
