(* ===== verification/ConnTest.v ===== *)
(** * Connection tests (libraries/sillad-conntest/src/lib.rs)

    Before a pipe is used the dialer sends random payloads and expects them
    back; a length of zero ends the test.  The payloads are arguments; each
    side is a function of the bytes that arrive to the bytes it writes and how
    it ends. *)
From Stdlib Require Import ZArith Lia.
From S2P Require Import Prelude.
Local Open Scope Z_scope.

Definition ping_msg (payload : list byte) : list byte :=
  be_bytes 2 (Z.of_nat (length payload)) ++ payload.

(** [ConnTestDialer::dial] after the inner dial: what is written, and the
    bytes left for the user of the pipe. *)
Fixpoint conntest_dial (pings : list (list byte)) (input : list byte)
    : list byte * res io_error (list byte) :=
  match pings with
  | [] => ([x00; x00], Ok input)
  | buf :: pings =>
      match read_exact (length buf) input with
      | Ok (echo, input) =>
          if decide (buf = echo) then
            let '(out, r) := conntest_dial pings input in (ping_msg buf ++ out, r)
          else (ping_msg buf, Err (IoError InvalidData "ping returned incorrect data"))
      | Err e => (ping_msg buf, Err e)
      | Panic => (ping_msg buf, Panic)
      end
  end.

(** The per-connection task of [ConnTestListener]: what is echoed, and the
    connection handed over (the bytes not yet read) or the error.  Every round
    reads at least two bytes, so one more round than there are bytes is
    enough. *)
Fixpoint conntest_serve (fuel : nat) (input : list byte) : list byte * res io_error (list byte) :=
  match fuel with
  | O => ([], Panic)
  | S fuel =>
      match read_exact 2 input with
      | Ok (size_buf, input) =>
          let size := be_val size_buf in
          if size =? 0 then ([], Ok input)
          else
            match read_exact (Z.to_nat size) input with
            | Ok (payload, input) =>
                let '(out, r) := conntest_serve fuel input in (payload ++ out, r)
            | Err e => ([], Err e)
            | Panic => ([], Panic)
            end
      | Err e => ([], Err e)
      | Panic => ([], Panic)
      end
  end.

(** Payload sizes are drawn from [1..50000]. *)
Definition ping_ok (p : list byte) : Prop := 1 <= Z.of_nat (length p) < 50000.

Definition conntest_sent (pings : list (list byte)) : list byte :=
  concat (map ping_msg pings) ++ [x00; x00].

Lemma conntest_dial_honest pings rest :
  conntest_dial pings (concat pings ++ rest) = (conntest_sent pings, Ok rest).
Proof.
  induction pings as [|p pings IH]; [done|]. cbn [concat conntest_dial].
  rewrite <- app_assoc, read_exact_app by done. rewrite decide_True by done.
  rewrite IH. unfold conntest_sent. cbn [map concat]. by rewrite <- app_assoc.
Qed.

Lemma conntest_dial_sound pings input out rest :
  conntest_dial pings input = (out, Ok rest) → input = concat pings ++ rest.
Proof.
  revert input out. induction pings as [|p pings IH]; intros input out; cbn [conntest_dial concat].
  { by intros [= <- <-]. }
  destruct (read_exact (length p) input) as [[echo inp]| |] eqn:E; [|done..].
  case_decide as Hp; [|done]. destruct (conntest_dial pings inp) as [o r] eqn:Ed.
  intros Heq. assert (r = Ok rest) as -> by congruence.
  apply IH in Ed as ->. apply read_exact_Ok in E as [-> _]. by rewrite Hp, <- app_assoc.
Qed.

Lemma conntest_serve_honest pings : ∀ fuel rest,
  Forall ping_ok pings → (length pings < fuel)%nat →
  conntest_serve fuel (conntest_sent pings ++ rest) = (concat pings, Ok rest).
Proof.
  induction pings as [|p pings IH]; intros fuel rest Hp Hf; (destruct fuel as [|fuel]; [simpl in Hf; lia|]).
  { done. }
  apply Forall_cons in Hp as [Hp1 Hp]. unfold ping_ok in Hp1.
  unfold conntest_sent. cbn [map concat conntest_serve]. unfold ping_msg at 1. rewrite <- !app_assoc.
  rewrite read_exact_app by apply length_be_bytes. cbn zeta.
  rewrite be_val_small by (simpl; lia).
  destruct (Z.eqb_spec (Z.of_nat (length p)) 0); [lia|].
  rewrite Nat2Z.id, read_exact_app by done.
  rewrite (app_assoc (concat (map ping_msg pings))).
  change (concat (map ping_msg pings) ++ [x00; x00]) with (conntest_sent pings).
  rewrite IH by (done || simpl in Hf; lia). done.
Qed.

Lemma length_conntest_sent pings : (length pings <= length (conntest_sent pings))%nat.
Proof.
  unfold conntest_sent. induction pings as [|p pings IH]; [simpl; lia|].
  cbn [map concat length]. unfold ping_msg at 1. rewrite !length_app, length_be_bytes in *. lia.
Qed.

(** The connection test passes on an honest pipe and leaves it clean.
    For any payloads of admissible size the listener echoes exactly the
    payloads and hands over the connection with the bytes behind the test
    unread, the dialer accepts that echo and leaves the bytes behind it; and
    conversely the dialer accepts nothing else: a successful test means the
    input began with the exact payloads. *)
Theorem conntest_agreement pings rest rest' :
  Forall ping_ok pings →
  let sent := fst (conntest_dial pings (concat pings ++ rest')) in
  conntest_serve (S (length (sent ++ rest))) (sent ++ rest) = (concat pings, Ok rest) ∧
  (∀ input left, snd (conntest_dial pings input) = Ok left ↔ input = concat pings ++ left).
Proof.
  intros Hp. rewrite conntest_dial_honest. cbn [fst]. split.
  - apply conntest_serve_honest; [done|]. rewrite length_app.
    pose proof (length_conntest_sent pings). lia.
  - intros input left. split.
    + destruct (conntest_dial pings input) as [out r] eqn:E. cbn [snd]. intros ->.
      by eapply conntest_dial_sound.
    + intros ->. by rewrite conntest_dial_honest.
Qed.

Lemma conntest_agreement_witness :
  conntest_serve 20 (conntest_sent [[x01; x02]; [x03]] ++ [xaa]) = ([x01; x02; x03], Ok [xaa]) ∧
  snd (conntest_dial [[x01; x02]; [x03]] ([x01; x02; x03] ++ [xbb])) = Ok [xbb].
Proof.
  split; [reflexivity|].
  apply (conntest_agreement [[x01; x02]; [x03]] [xaa] [xbb]); [|reflexivity].
  repeat constructor; vm_compute; congruence.
Defined.
