(* ===== verification/Cache.v ===== *)
(** * Time-limited caches

    The programs memoise through two crates, [moka] ([Cache::get_with] with
    [time_to_live]) and [cached] (the [#[cached(time = ...)]] attribute).  The
    crates are an interface: a lookup returns only a value that was inserted
    under that key less than [ttl] ago, and an inserted value is found again
    until then unless a later insertion replaces it. *)
From Stdlib Require Import ZArith Lia.
From S2P Require Import Prelude.
Local Open Scope Z_scope.

Class TtlCache (K V : Type) := {
  cache_t : Type;
  cempty : cache_t;
  clookup : cache_t → Z → K → option V;
  cinsert : cache_t → Z → K → V → cache_t
}.
Arguments cache_t K V {_}.

Class TtlCacheLaws (K V : Type) `{EqDecision K} `{TtlCache K V} (ttl : Z) := {
  clookup_empty t k : clookup cempty t k = None;
  clookup_insert c t k v t' :
    clookup (cinsert c t k v) t' k = if decide (t' < t + ttl) then Some v else None;
  clookup_insert_ne c t k k' v t' : k ≠ k' → clookup (cinsert c t k v) t' k' = clookup c t' k'
}.

Section get_with.
Context {K V : Type} `{TtlCache K V}.

(** [get_with]: every outcome of [init] is stored, errors included when they
    are part of [V]. *)
Definition get_with (c : cache_t K V) (now : Z) (k : K) (init : V) : cache_t K V * V :=
  match clookup c now k with
  | Some v => (c, v)
  | None => (cinsert c now k init, init)
  end.

(** [get_with] of a cache with [time_to_idle]: a hit starts the time anew. *)
Definition get_with_idle (c : cache_t K V) (now : Z) (k : K) (init : V) : cache_t K V * V :=
  let v := default init (clookup c now k) in (cinsert c now k v, v).

(** [#[cached(result = true)]]: only successful results are stored. *)
Definition cached_result {E} (c : cache_t K V) (now : Z) (k : K) (init : res E V)
    : cache_t K V * res E V :=
  match clookup c now k with
  | Some v => (c, Ok v)
  | None => match init with Ok v => (cinsert c now k v, Ok v) | r => (c, r) end
  end.

(** Everything a cache can answer satisfies [P]. *)
Definition cache_forall (P : K → V → Prop) (c : cache_t K V) : Prop :=
  ∀ t k v, clookup c t k = Some v → P k v.

Context `{EqDecision K} (ttl : Z) {CL : TtlCacheLaws K V ttl}.

Lemma cache_forall_empty P : cache_forall P cempty.
Proof. intros t k v. by rewrite clookup_empty. Qed.

Lemma cache_forall_insert P c t k v :
  cache_forall P c → P k v → cache_forall P (cinsert c t k v).
Proof.
  intros HP Hk t' k' v' E. destruct (decide (k = k')) as [<-|Hne].
  - rewrite clookup_insert in E. case_decide; by simplify_eq.
  - rewrite clookup_insert_ne in E by done. by eapply HP.
Qed.

Lemma get_with_forall P c now k init c' v :
  cache_forall P c → P k init → get_with c now k init = (c', v) → cache_forall P c' ∧ P k v.
Proof.
  intros HP Hi. unfold get_with. destruct (clookup c now k) as [w|] eqn:E; intros [= <- <-].
  - split; [done|]. by eapply HP.
  - split; [|done]. by apply cache_forall_insert.
Qed.

Lemma cached_result_forall {E} P c now k (init : res E V) c' r :
  cache_forall P c → (∀ v, init = Ok v → P k v) → cached_result c now k init = (c', r) →
  cache_forall P c' ∧ (∀ v, r = Ok v → P k v).
Proof.
  intros HP Hi. unfold cached_result. destruct (clookup c now k) as [w|] eqn:Ec.
  - intros [= <- <-]. split; [done|]. intros v [= <-]. by eapply HP.
  - destruct init as [v|e|]; intros [= <- <-]; (split; [|naive_solver]); try done.
    by apply cache_forall_insert, Hi.
Qed.

Lemma get_with_again c now k init c' v now' init' :
  get_with c now k init = (c', v) → clookup c now k = None → now' < now + ttl →
  get_with c' now' k init' = (c', init).
Proof.
  unfold get_with. intros E En Ht. rewrite En in E. simplify_eq.
  by rewrite clookup_insert, decide_True.
Qed.
End get_with.

(** ** A cache that satisfies the laws: an association list, newest first *)

Module ListCache.
Section list_cache.
Context {K V : Type} `{EqDecision K} (ttl : Z).

Fixpoint find_entry (l : list (K * (Z * V))) (k : K) : option (Z * V) :=
  match l with
  | [] => None
  | (k', e) :: l => if decide (k' = k) then Some e else find_entry l k
  end.

Definition list_cache : TtlCache K V := {|
  cache_t := list (K * (Z * V));
  cempty := [];
  clookup l t k := '(t0, v) ← find_entry l k; if decide (t < t0 + ttl) then Some v else None;
  cinsert l t k v := (k, (t, v)) :: l
|}.

Lemma list_cache_laws : @TtlCacheLaws K V _ list_cache ttl.
Proof.
  split; intros; simpl; [done| |].
  - by rewrite decide_True.
  - by rewrite decide_False.
Qed.
End list_cache.
End ListCache.
