(* ===== verification/Routes.v ===== *)
(** * Routes: from the broker's obfuscation protocols to the client's dialers
    (binaries/geph5-broker/src/routes.rs, binaries/geph5-exit/src/listen/b2e_process.rs,
    binaries/geph5-client/src/get_dialer.rs)

    The broker asks a bridge to forward connections to an exit under an
    [ObfsProtocol] and hands the client a [RouteDescriptor]; the client turns
    the descriptor into a dialer, the exit turns the protocol into a listener.
    A pipe is the address it was opened to and the layers put over it,
    outermost first. *)
From Stdlib Require Import ZArith Lia.
From S2P Require Import Prelude Crypto Protocol Text Cache Dialer.
Local Open Scope Z_scope.

(** ** Layers and pipes *)

Inductive client_layer :=
| CltConnTest (ping_count : Z)
| CltTls (use_sni : bool) (domain : string)
| CltSosistab3 (cookie : string).

Inductive server_layer := SrvConnTest | SrvTls | SrvSosistab3 (cookie : string).

(** The server layer that answers a client layer's handshake. *)
Definition peer_layer (l : client_layer) : server_layer :=
  match l with
  | CltConnTest _ => SrvConnTest
  | CltTls _ _ => SrvTls
  | CltSosistab3 c => SrvSosistab3 c
  end.

Record pipe := mkPipe { endpoint : SocketAddr; layers : list client_layer }.
Definition push (l : client_layer) (p : pipe) : pipe := mkPipe (endpoint p) (l :: layers p).

(** The exit's listener for a protocol: the layers it unwraps, outermost first. *)
Fixpoint create_listener (protocol : ObfsProtocol) : list server_layer :=
  match protocol with
  | ObfsSosistab3 cookie => [SrvSosistab3 cookie]
  | ObfsConnTest p => SrvConnTest :: create_listener p
  | ObfsNone => []
  | ObfsPlainTls p => SrvTls :: create_listener p
  | ObfsSosistab3New cookie p => SrvSosistab3 cookie :: create_listener p
  end.

(** ** The broker's side *)

Fixpoint protocol_to_descriptor (protocol : ObfsProtocol) (addr : SocketAddr) : RouteDescriptor :=
  match protocol with
  | ObfsSosistab3 cookie => Sosistab3 cookie (Tcp addr)
  | ObfsNone => Tcp addr
  | ObfsConnTest p => ConnTest 1 (protocol_to_descriptor p addr)
  | ObfsPlainTls p => PlainTls (Some "labooyah-squish.be"%string) (protocol_to_descriptor p addr)
  | ObfsSosistab3New cookie p => Sosistab3 cookie (protocol_to_descriptor p addr)
  end.

#[export] Instance BridgeDescriptor_eq_dec : EqDecision BridgeDescriptor.
Proof. solve_decision. Defined.

(** [str::contains]. *)
Definition str_contains (pat s : string) : bool :=
  match String.index 0 pat s with Some _ => true | None => false end.

Definition gencookie (b : list byte) : string := hex_encode b.

Section broker.
(** Times are in milliseconds.  The [tcp_forward] call to a bridge's control port: [None] when its four
    seconds run out. *)
Context (tcp_forward : BridgeDescriptor → SocketAddr → B2eMetadata → option (res string SocketAddr)).

Definition bridge_to_leaf_route_inner (now : Z) (bridge : BridgeDescriptor) (exit_b2e : SocketAddr)
    (protocol : ObfsProtocol) : res string RouteDescriptor :=
  match tcp_forward bridge exit_b2e (mkB2e protocol (now + 86400000)) with
  | None => Err "timeout when sosistab"%string
  | Some r => sosistab_addr ← r; Ok (protocol_to_descriptor protocol sosistab_addr)
  end.

(** The uncached body; [rnd] are the sixteen random bytes of the cookie. *)
Definition leaf_route_init (now : Z) (rnd : list byte) (bridge : BridgeDescriptor) (delay_ms : Z)
    (exit_b2e : SocketAddr) : res string RouteDescriptor :=
  if str_contains "waw" (pool bridge) then
    plain_route ← bridge_to_leaf_route_inner now bridge exit_b2e
      (ObfsConnTest (ObfsSosistab3New (gencookie rnd) (ObfsPlainTls ObfsNone)));
    Ok (Delay delay_ms plain_route)
  else if str_contains "rbxa" (pool bridge) then
    plain_route ← bridge_to_leaf_route_inner now bridge exit_b2e (ObfsConnTest ObfsNone);
    Ok (Delay delay_ms plain_route)
  else
    plain_route ← bridge_to_leaf_route_inner now bridge exit_b2e
      (ObfsConnTest (ObfsSosistab3New (gencookie rnd) ObfsNone));
    legacy_route ← bridge_to_leaf_route_inner now bridge exit_b2e ObfsNone;
    Ok (Delay delay_ms (Fallback [plain_route; legacy_route])).

Definition erase_expiry (b : BridgeDescriptor) : BridgeDescriptor :=
  mkBridge (control_listen b) (control_cookie b) (pool b) 0.

Abbreviation cache_key := (BridgeDescriptor * SocketAddr)%type.
Abbreviation route_result := (res string RouteDescriptor).
Definition ROUTE_TTL : Z := 600000.

Context `{TtlCache cache_key route_result} {CL : TtlCacheLaws cache_key route_result ROUTE_TTL}.
Abbreviation route_cache := (cache_t cache_key route_result).

Definition bridge_to_leaf_route (now : Z) (rnd : list byte) (c : route_cache)
    (bridge : BridgeDescriptor) (delay_ms : Z) (exit_b2e : SocketAddr)
    : route_cache * route_result :=
  let bridge := erase_expiry bridge in
  get_with c now (bridge, exit_b2e) (leaf_route_init now rnd bridge delay_ms exit_b2e).

(** A broker's life: requests in order, each with its time, random bytes,
    bridge, delay and exit. *)
Record route_request := mkRouteReq {
  rq_now : Z; rq_rnd : list byte; rq_bridge : BridgeDescriptor; rq_delay : Z; rq_exit : SocketAddr
}.
Fixpoint serve_routes (c : route_cache) (reqs : list route_request) : list route_result :=
  match reqs with
  | [] => []
  | q :: reqs =>
      let '(c, r) := bridge_to_leaf_route (rq_now q) (rq_rnd q) c (rq_bridge q) (rq_delay q) (rq_exit q) in
      r :: serve_routes c reqs
  end.
End broker.

(** ** The client's side *)

Section client.
(** The operating system's connect, and the client's half of a layer's
    handshake over a pipe. *)
Context (tcp : SocketAddr → dialer unit) (handshake : client_layer → pipe → Z → outcome unit).

Definition TcpDialer (addr : SocketAddr) : dialer pipe :=
  wrap (λ _ t, Done t (inl (mkPipe addr []))) (tcp addr).

Definition LayerDialer (l : client_layer) (inner : dialer pipe) : dialer pipe :=
  wrap (λ p t,
    match handshake l p t with
    | Done t' (inl _) => Done t' (inl (push l p))
    | Done t' (inr e) => Done t' (inr e)
    | Never => Never
    end) inner.

Definition tls_layer (sni_domain : option string) : client_layer :=
  CltTls (match sni_domain with Some _ => true | None => false end) (default "example.com"%string sni_domain).

(** The addresses whitelisted along the way, and the dialer. *)
Fixpoint route_to_dialer (route : RouteDescriptor) : list IpAddr * dialer pipe :=
  match route with
  | Tcp addr => ([ip addr], TcpDialer addr)
  | Sosistab3 cookie lower =>
      let '(w, d) := route_to_dialer lower in (w, LayerDialer (CltSosistab3 cookie) d)
  | Race inside =>
      let ds := map route_to_dialer inside in
      (concat (map fst ds), default FailingDialer (reduce race (map snd ds)))
  | Fallback a =>
      let ds := map route_to_dialer a in
      (concat (map fst ds), default FailingDialer (reduce fallback (map snd ds)))
  | Timeout milliseconds lower =>
      let '(w, d) := route_to_dialer lower in (w, timeout milliseconds d)
  | Delay milliseconds lower =>
      let '(w, d) := route_to_dialer lower in (w, delay milliseconds d)
  | ConnTest ping_count lower =>
      let '(w, d) := route_to_dialer lower in (w, LayerDialer (CltConnTest ping_count) d)
  | OtherRoute _ => ([], FailingDialer)
  | PlainTls sni_domain lower =>
      let '(w, d) := route_to_dialer lower in (w, LayerDialer (tls_layer sni_domain) d)
  end.
End client.

(** ** The pipes a route can lead to *)

Fixpoint leaves (route : RouteDescriptor) : list pipe :=
  match route with
  | Tcp addr => [mkPipe addr []]
  | Sosistab3 cookie lower => push (CltSosistab3 cookie) <$> leaves lower
  | PlainTls sni lower => push (tls_layer sni) <$> leaves lower
  | ConnTest n lower => push (CltConnTest n) <$> leaves lower
  | Race l | Fallback l => concat (map leaves l)
  | Timeout _ lower | Delay _ lower => leaves lower
  | OtherRoute _ => []
  end.

Lemma elem_of_concat_map {A B} (f : A → list B) l x y :
  x ∈ l → y ∈ f x → y ∈ concat (map f l).
Proof. induction l as [|a l IH]; simpl; set_solver. Qed.

(** Induction over routes, with the hypothesis for every member of a list. *)
Section route_ind.
Context (P : RouteDescriptor → Prop).
Context (PTcp : ∀ a, P (Tcp a)) (PSos : ∀ c l, P l → P (Sosistab3 c l))
  (PTls : ∀ s l, P l → P (PlainTls s l)) (PRace : ∀ l, Forall P l → P (Race l))
  (PFallback : ∀ l, Forall P l → P (Fallback l)) (PTimeout : ∀ m l, P l → P (Timeout m l))
  (PDelay : ∀ m l, P l → P (Delay m l)) (PConn : ∀ n l, P l → P (ConnTest n l))
  (POther : ∀ j, P (OtherRoute j)).

Fixpoint route_nested_ind (r : RouteDescriptor) : P r :=
  let fix all (l : list RouteDescriptor) : Forall P l :=
    match l with
    | [] => Forall_nil_2 P
    | r :: l => Forall_cons_2 P r l (route_nested_ind r) (all l)
    end in
  match r with
  | Tcp a => PTcp a
  | Sosistab3 c l => PSos c l (route_nested_ind l)
  | PlainTls s l => PTls s l (route_nested_ind l)
  | Race l => PRace l (all l)
  | Fallback l => PFallback l (all l)
  | Timeout m l => PTimeout m l (route_nested_ind l)
  | Delay m l => PDelay m l (route_nested_ind l)
  | ConnTest n l => PConn n l (route_nested_ind l)
  | OtherRoute j => POther j
  end.
End route_ind.

Section dialing.
Context (tcp : SocketAddr → dialer unit) (handshake : client_layer → pipe → Z → outcome unit).
Abbreviation to_dialer := (route_to_dialer tcp handshake).

(** A dialer yields only pipes satisfying [Q]. *)
Definition yields (Q : pipe → Prop) (d : dialer pipe) : Prop :=
  ∀ t t' p, d t = Done t' (inl p) → Q p.

Lemma yields_mono (Q R : pipe → Prop) d : (∀ p, Q p → R p) → yields Q d → yields R d.
Proof. intros HQR Hd t t' p E. eauto. Qed.

Lemma yields_Failing Q : yields Q FailingDialer.
Proof. intros t t' p E. discriminate E. Qed.
Lemma yields_tcp addr : yields (λ p, p = mkPipe addr []) (TcpDialer tcp addr).
Proof. intros t t' p. unfold TcpDialer, wrap. destruct (tcp addr t) as [? [?|?]|]; by intros [=]. Qed.
Lemma yields_layer Q l d :
  yields Q d → yields (λ p, ∃ q, Q q ∧ p = push l q) (LayerDialer handshake l d).
Proof.
  intros Hd t t' p. unfold LayerDialer, wrap. destruct (d t) as [t1 [q|?]|] eqn:E; try done.
  destruct (handshake l q t1) as [? [?|?]|]; intros [=]; subst. eauto.
Qed.
Lemma yields_timeout Q ms d : yields Q d → yields Q (timeout ms d).
Proof. intros Hd t t' p. unfold timeout. destruct (d t) eqn:E; [case_match|]; naive_solver. Qed.
Lemma yields_delay Q ms d : yields Q d → yields Q (delay ms d).
Proof. intros Hd t t' p. apply Hd. Qed.
Lemma yields_race Q d1 d2 : yields Q d1 → yields Q d2 → yields Q (race d1 d2).
Proof. intros H1 H2 t t' p [[E _]|[E _]]%race_succeeds; eauto. Qed.
Lemma yields_fallback Q d1 d2 : yields Q d1 → yields Q d2 → yields Q (fallback d1 d2).
Proof.
  intros H1 H2 t t' p. unfold fallback. destruct (d1 t) as [t1 [q|?]|] eqn:E; intros [=]; subst; eauto.
Qed.
Lemma yields_reduce Q op l :
  (∀ d1 d2, yields Q d1 → yields Q d2 → yields Q (op d1 d2)) →
  Forall (yields Q) l → yields Q (default FailingDialer (reduce op l)).
Proof.
  intros Hop Hl. destruct Hl as [|d l Hd Hl]; simpl; [apply yields_Failing|].
  revert d Hd. induction Hl as [|d2 l H2 Hl IH]; simpl; auto.
Qed.

Lemma yields_list op l :
  (∀ Q d1 d2, yields Q d1 → yields Q d2 → yields Q (op d1 d2)) →
  Forall (λ r, yields (.∈ leaves r) (to_dialer r).2) l →
  yields (.∈ concat (map leaves l))
    (default FailingDialer (reduce op (map snd (map to_dialer l)))).
Proof.
  intros Hop Hl. apply yields_reduce; [apply Hop|]. rewrite map_map.
  apply Forall_map, Forall_forall. intros r Hr.
  eapply yields_mono; [|exact (proj1 (Forall_forall _ _) Hl r Hr)].
  intros p Hp. by eapply elem_of_concat_map.
Qed.

(** Every pipe a route's dialer yields is one of the route's leaves. *)
Lemma route_yields_leaves r : yields (.∈ leaves r) (to_dialer r).2.
Proof.
  induction r as [a|c r IH|s r IH|l IH|l IH|m r IH|m r IH|n r IH|j] using route_nested_ind; simpl.
  1: eapply yields_mono; [|apply yields_tcp]; set_solver.
  1,2,7: destruct (to_dialer r) as [w d]; simpl in *;
      (eapply yields_mono; [|apply yields_layer, IH]); intros p (q & Hq & ->); by apply list_elem_of_fmap_2.
  1: apply yields_list; [intros; by apply yields_race|done].
  1: apply yields_list; [intros; by apply yields_fallback|done].
  1: destruct (to_dialer r) as [w d]; by apply yields_timeout.
  1: destruct (to_dialer r) as [w d]; by apply yields_delay.
  apply yields_Failing.
Qed.

(** What is whitelisted: the address of every leaf, in order. *)
Lemma route_whitelist r : (to_dialer r).1 = map (λ p, ip (endpoint p)) (leaves r).
Proof.
  assert (Hl : ∀ l, Forall (λ r, (to_dialer r).1 = map (λ p, ip (endpoint p)) (leaves r)) l →
    concat (map fst (map to_dialer l)) = map (λ p, ip (endpoint p)) (concat (map leaves l))).
  { induction 1 as [|r' l Hr _ IH]; simpl; [done|]. by rewrite map_app, Hr, IH. }
  assert (Hp : ∀ f l, map (λ p, ip (endpoint p)) (push f <$> l) = map (λ p, ip (endpoint p)) l).
  { intros f l. rewrite map_map. done. }
  induction r as [a|c r IH|s r IH|l IH|l IH|m r IH|m r IH|n r IH|j] using route_nested_ind;
    simpl; rewrite ?Hp; auto; by destruct (to_dialer r).
Qed.
End dialing.

(** ** Both ends of a route speak the same layers *)

Lemma protocol_leaves proto addr : ∃ ls,
  leaves (protocol_to_descriptor proto addr) = [mkPipe addr ls] ∧
  map peer_layer ls = create_listener proto.
Proof.
  induction proto as [c| |p (ls & E & M)|p (ls & E & M)|c p (ls & E & M)]; simpl;
    [eexists; (split; [reflexivity|done])..| | |]; rewrite E; eexists;
    (split; [reflexivity|]); simpl; by rewrite M.
Qed.

Section agreement.
Context (tcp_forward : BridgeDescriptor → SocketAddr → B2eMetadata → option (res string SocketAddr)).
Abbreviation cache_key := (BridgeDescriptor * SocketAddr)%type.
Context `{TtlCache cache_key (res string RouteDescriptor)}
  {CL : TtlCacheLaws cache_key (res string RouteDescriptor) ROUTE_TTL}.

(** Every leaf of the route is an address the bridge forwards to the exit
    under a protocol whose listener has the leaf's layers. *)
Definition fits (bridge : BridgeDescriptor) (exit_b2e : SocketAddr) (p : pipe) : Prop :=
  ∃ proto expiry, tcp_forward bridge exit_b2e (mkB2e proto expiry) = Some (Ok (endpoint p)) ∧
    map peer_layer (layers p) = create_listener proto.

Definition route_fits (k : cache_key) (r : res string RouteDescriptor) : Prop :=
  ∀ route, r = Ok route → Forall (fits k.1 k.2) (leaves route).

Lemma leaf_inner_fits now bridge exit proto :
  route_fits (bridge, exit) (bridge_to_leaf_route_inner tcp_forward now bridge exit proto).
Proof.
  intros route. unfold bridge_to_leaf_route_inner.
  destruct (tcp_forward _ _ _) as [r|] eqn:E; [|done]. intros. res_inv.
  destruct (protocol_leaves proto x) as (ls & -> & M).
  apply Forall_singleton. by exists proto, (now + 86400000).
Qed.

Lemma leaf_init_fits now rnd bridge delay_ms exit :
  route_fits (bridge, exit) (leaf_route_init tcp_forward now rnd bridge delay_ms exit).
Proof.
  intros route. unfold leaf_route_init. repeat case_match; intros Hr; res_inv;
    repeat match goal with
    | E : bridge_to_leaf_route_inner _ _ _ _ _ = Ok _ |- _ => apply leaf_inner_fits in E
    end; rewrite ?app_nil_r; try apply Forall_app; eauto.
Qed.

Lemma serve_routes_fit reqs : ∀ c, cache_forall route_fits c →
  ∀ i q r, reqs !! i = Some q → serve_routes tcp_forward c reqs !! i = Some r →
  route_fits (erase_expiry (rq_bridge q), rq_exit q) r.
Proof.
  induction reqs as [|q0 reqs IH]; intros c Hc i q r Hi Hr; [done|]. simpl in Hr.
  destruct (bridge_to_leaf_route _ _ _ _ _ _ _) as [c' r0] eqn:E.
  apply (get_with_forall ROUTE_TTL route_fits) in E as [Hc' Hr0]; [|done|apply leaf_init_fits].
  destruct i as [|i]; simplify_eq/=; [done|]. by eapply IH.
Qed.

Context (tcp : SocketAddr → dialer unit) (handshake : client_layer → pipe → Z → outcome unit).

(** C4: client and exit speak the same layers, and bypass the VPN to do it.  Over
    any history of route requests (each with its own time, randomness and
    delay, answered from the cache or not), whenever the client dials through
    a route it was served and obtains a pipe, the bridge really forwards the
    pipe's address to the requested exit under some obfuscation protocol, the
    layers of the pipe are, one by one, the peers of those the exit's listener
    unwraps for that protocol, and the address was whitelisted. *)
Theorem dialed_stack_matches_exit reqs i q r t t' p :
  reqs !! i = Some q →
  serve_routes tcp_forward cempty reqs !! i = Some (Ok r) →
  (route_to_dialer tcp handshake r).2 t = Done t' (inl p) →
  (∃ proto expiry,
     tcp_forward (erase_expiry (rq_bridge q)) (rq_exit q) (mkB2e proto expiry)
       = Some (Ok (endpoint p)) ∧
     map peer_layer (layers p) = create_listener proto) ∧
  ip (endpoint p) ∈ (route_to_dialer tcp handshake r).1.
Proof.
  intros Hq Hr Hp%route_yields_leaves.
  assert (Hf := serve_routes_fit reqs cempty (cache_forall_empty ROUTE_TTL _) i q _ Hq Hr r eq_refl).
  split; [exact (proj1 (Forall_forall _ _) Hf p Hp)|].
  rewrite route_whitelist. by apply (list_elem_of_fmap_2 (λ p, ip (endpoint p))).
Qed.

(** The delay of a route is the one of whoever asked first.  The cache key is
    the bridge (without its expiry) and the exit, but the cached value carries
    the first caller's delay: for ten minutes every caller gets the first
    answer, whatever delay it asked for, and an error is served as long. *)
Theorem route_delay_of_first_caller now rnd c bridge delay_ms exit c' r now' rnd' expiry' delay' :
  bridge_to_leaf_route tcp_forward now rnd c bridge delay_ms exit = (c', r) →
  clookup c now (erase_expiry bridge, exit) = None →
  now' < now + ROUTE_TTL →
  bridge_to_leaf_route tcp_forward now' rnd' c'
    (mkBridge (control_listen bridge) (control_cookie bridge) (pool bridge) expiry') delay' exit
  = (c', leaf_route_init tcp_forward now rnd (erase_expiry bridge) delay_ms exit).
Proof. intros E Hn Ht. exact (get_with_again ROUTE_TTL _ _ _ _ _ _ _ _ E Hn Ht). Qed.
End agreement.

Module RoutesDemo.
Definition bridge : BridgeDescriptor := mkBridge (mkAddr (V4 7) 1) "c" "main" 5.
Definition exit : SocketAddr := mkAddr (V4 9) 443.
Definition forward (_ : BridgeDescriptor) (_ : SocketAddr) (m : B2eMetadata)
    : option (res string SocketAddr) :=
  Some (Ok (mkAddr (V4 7) (match b2e_protocol m with ObfsNone => 1000 | _ => 2000 end))).
Definition tcp (a : SocketAddr) : dialer unit := λ t,
  if port a =? 1000 then Done (t + 3) (inl tt) else Done (t + 5) (inr failing_error).
Definition handshake (l : client_layer) (p : pipe) (t : Z) : outcome unit := Done (t + 1) (inl tt).
#[export] Instance rcache : TtlCache (BridgeDescriptor * SocketAddr) (res string RouteDescriptor) :=
  ListCache.list_cache ROUTE_TTL.
#[export] Instance rcache_laws :
  TtlCacheLaws (BridgeDescriptor * SocketAddr) (res string RouteDescriptor) ROUTE_TTL :=
  ListCache.list_cache_laws ROUTE_TTL.
Definition request (now delay : Z) : route_request := mkRouteReq now [] bridge delay exit.
Definition route (delay : Z) : RouteDescriptor :=
  Delay delay (Fallback [ConnTest 1 (Sosistab3 "" (Tcp (mkAddr (V4 7) 2000))); Tcp (mkAddr (V4 7) 1000)]).
End RoutesDemo.
Import RoutesDemo.

Lemma dialed_stack_matches_exit_witness :
  serve_routes RoutesDemo.forward cempty [RoutesDemo.request 0 10; RoutesDemo.request 5 20] !! 1%nat
    = Some (Ok (RoutesDemo.route 10)) ∧
  ip (mkAddr (V4 7) 1000) ∈
    (route_to_dialer RoutesDemo.tcp RoutesDemo.handshake (RoutesDemo.route 10)).1.
Proof.
  assert (E : serve_routes RoutesDemo.forward cempty
    [RoutesDemo.request 0 10; RoutesDemo.request 5 20] !! 1%nat = Some (Ok (RoutesDemo.route 10)))
    by (vm_compute; reflexivity).
  split; [exact E|].
  apply (dialed_stack_matches_exit RoutesDemo.forward RoutesDemo.tcp RoutesDemo.handshake
    [RoutesDemo.request 0 10; RoutesDemo.request 5 20] 1 (RoutesDemo.request 5 20) (RoutesDemo.route 10) 0 18 (mkPipe (mkAddr (V4 7) 1000) [])
    eq_refl E eq_refl).
Defined.

Lemma route_delay_of_first_caller_witness :
  (bridge_to_leaf_route RoutesDemo.forward 599000 []
    (bridge_to_leaf_route RoutesDemo.forward 0 [] cempty RoutesDemo.bridge 10 RoutesDemo.exit).1
    (mkBridge (mkAddr (V4 7) 1) "c" "main" 77) 2500 RoutesDemo.exit).2
  = leaf_route_init RoutesDemo.forward 0 [] (erase_expiry RoutesDemo.bridge) 10 RoutesDemo.exit.
Proof.
  exact (f_equal snd (route_delay_of_first_caller (H:=rcache) RoutesDemo.forward 0 [] cempty
    RoutesDemo.bridge 10 RoutesDemo.exit _ _ 599000 [] 77 2500 (surjective_pairing _)
    ltac:(reflexivity) ltac:(reflexivity))).
Defined.
