(* ===== verification/GetDialer.v ===== *)
(** * Choosing an exit and building its dialer
    (binaries/geph5-client/src/get_dialer.rs, the configuration of client.rs)

    [get_dialer_inner] turns the configuration and the broker's answers into a
    dialer and the exit's key; [get_dialer] keeps the last one.  The broker,
    name resolution and the validity of a public key are parameters. *)
From Stdlib Require Import ZArith Lia Floats.SpecFloat.
From S2P Require Import Prelude Crypto Mizaru Protocol Text Dialer Routes.
Local Open Scope Z_scope.

Inductive ExitConstraint :=
| AutoExit
| Direct (dir : string)
| Hostname (host : string)
| Country (c : string)
| CountryCity (c : string) (city : string).

Inductive BridgeMode := AutoBridges | ForceBridges | ForceDirect.

Record BrokerKeys := mkBrokerKeys { master : string; mizaru_free : string; mizaru_plus : string }.

Record Config := mkConfig {
  exit_constraint : ExitConstraint;
  bridge_mode : BridgeMode;
  broker_keys : option BrokerKeys;
  credentials_json : list byte      (* serde_json::to_string of the credentials *)
}.

(** [Iterator::min_by_key]: the first of the least elements. *)
Fixpoint min_by_key {A} (f : A → Z) (l : list A) : option A :=
  match l with
  | [] => None
  | a :: l =>
      match min_by_key f l with
      | None => Some a
      | Some b => if f b <? f a then Some b else Some a
      end
  end.

Lemma min_by_key_spec {A} (f : A → Z) l :
  match min_by_key f l with
  | None => l = []
  | Some a => a ∈ l ∧ ∀ b, b ∈ l → f a <= f b
  end.
Proof.
  induction l as [|a l IH]; simpl; [done|]. destruct (min_by_key f l) as [b|].
  - destruct IH as [Hb Hmin]. destruct (Z.ltb_spec (f b) (f a)); split; try set_solver;
      intros c [->|Hc]%elem_of_cons; try lia; specialize (Hmin c Hc); lia.
  - subst l. split; [set_solver|]. intros c ->%list_elem_of_singleton. lia.
Qed.

Section pick.
Context `{Blake3}.
(** The place of the f64 [-ln(hash / 2^64 - 1) / (1 - load)^2] in the order of
    [OrderedFloat], from the first eight bytes of the hash and the load. *)
Context (rank : Z → spec_float → Z).

Definition country_of (c : ExitConstraint) : option string :=
  match c with Country c | CountryCity c _ => Some c | _ => None end.
Definition city_of (c : ExitConstraint) : option string :=
  match c with CountryCity _ city => Some city | _ => None end.
Definition hostname_of (c : ExitConstraint) : option string :=
  match c with Hostname h => Some h | _ => None end.

Definition passes (want : option string) (have : string) : bool :=
  match want with Some w => bool_decide (have = w) | None => true end.

Definition exit_matches (c : ExitConstraint) (e : ExitDescriptor) : bool :=
  passes (country_of c) (country e) && passes (city_of c) (city e)
  && passes (hostname_of c) (ip_to_string (ip (b2e_listen e))).

Definition picker (rendezvous_key : list byte) (rh : list byte * ExitDescriptor) : Z :=
  rank (be_val (take 8 (keyed_hash rendezvous_key rh.1))) (load rh.2).

Definition pick_exit_with_constraint (rendezvous_key : list byte) (constraint : ExitConstraint)
    (exits_verified : ExitList) : res string (list byte * ExitDescriptor) :=
  match constraint with
  | Direct _ => Panic
  | _ =>
      let filtered := filter (λ e, exit_matches constraint e.2) (all_exits exits_verified) in
      match filtered with
      | [] => Err "no exits match the constraints"%string
      | _ => unwrap (min_by_key (picker rendezvous_key) filtered)
      end
  end.

Lemma pick_exit_Ok key c l pk e :
  pick_exit_with_constraint key c l = Ok (pk, e) →
  (pk, e) ∈ all_exits l ∧ exit_matches c e = true ∧
  ∀ x, x ∈ all_exits l → exit_matches c x.2 = true → picker key (pk, e) <= picker key x.
Proof.
  assert (Hgo : ∀ f `{∀ x, Decision (f x)}, unwrap (min_by_key (picker key) (filter f (all_exits l))) = @Ok string _ (pk, e) →
    (pk, e) ∈ filter f (all_exits l) ∧
    ∀ x, x ∈ filter f (all_exits l) → picker key (pk, e) <= picker key x).
  { intros f Hdec E. pose proof (min_by_key_spec (picker key) (filter f (all_exits l))) as M.
    destruct (min_by_key _ _); simplify_eq/=. done. }
  unfold pick_exit_with_constraint. destruct c; try done;
    (destruct (filter _ _) eqn:F; [done|]; rewrite <- F; intros [Hin Hmin]%Hgo;
     apply list_elem_of_filter in Hin as [Hm Hin]; split_and!; [done|by apply Is_true_true in Hm|];
     intros x Hx Hmx; apply Hmin, list_elem_of_filter; split; [by apply Is_true_true|done]).
Qed.

(** When no exit meets the constraint there is no exit: the constraint is never
    given up (a comment in the source speaks of the least load of all exits). *)
Lemma pick_exit_no_match key c l :
  (∀ dir, c ≠ Direct dir) → (∀ x, x ∈ all_exits l → exit_matches c x.2 = false) →
  pick_exit_with_constraint key c l = Err "no exits match the constraints"%string.
Proof.
  intros Hnd Hno. assert (E : filter (λ x : list byte * ExitDescriptor, exit_matches c x.2) (all_exits l) = []).
  { clear Hnd. induction (all_exits l) as [|x xs IH]; [done|]. rewrite filter_cons, decide_False, IH; [done|set_solver|].
    rewrite (Hno x) by left. auto. }
  unfold pick_exit_with_constraint. destruct c; try (by rewrite E). by destruct (Hnd dir).
Qed.
End pick.

(** ** Getting a dialer *)

Section get_dialer.
Context `{Blake3} `{Ed25519} `{Stdcode ExitList}.
Context (rank : Z → spec_float → Z).
Context (tcp : SocketAddr → dialer unit) (handshake : client_layer → pipe → Z → outcome unit).
(** [VerifyingKey::from_bytes] and [smol::net::resolve]; [choice] is the index
    drawn from the resolved addresses. *)
Context (vk_valid : list byte → bool) (resolve : string → res string (list SocketAddr)).

(** The broker's answers (transport and application errors alike are [Err]). *)
Record broker_api := mkBrokerApi {
  get_connect_token : res string (AccountLevel * list byte * UnblindedSignature);
  broker_client : res string unit;
  get_exits : res string (Signed ExitList);
  get_free_exits : res string (Signed ExitList);
  get_routes : list byte → UnblindedSignature → SocketAddr → res string RouteDescriptor
}.

Abbreviation dialed := (list byte * ExitDescriptor * dialer pipe)%type.

Definition slash : Ascii.ascii := Ascii.ascii_of_nat 47.

Definition dummy_exit : ExitDescriptor :=
  mkExit (mkAddr (V4 0) 0) (mkAddr (V4 0) 0) "ABW" "" (S754_zero false) 0.

Definition direct_parts (choice : nat) (dir : string) : res string (list byte * SocketAddr) :=
  '(dir, pubkey_hex) ← ok_or (split_once_char slash dir) "did not find / in a direct constraint"%string;
  bts ← ok_or (hex_decode pubkey_hex) "cannot decode pubkey as hex"%string;
  (if decide (length bts = 32%nat) then Ok tt else Err "pubkey wrong length"%string) ;;
  (if vk_valid bts then Ok tt else Err "bad verifying key"%string) ;;
  addrs ← resolve dir;
  dest_addr ← ok_or (addrs !! (choice mod length addrs)%nat)
    "could not resolve destination for direct exit connection"%string;
  Ok (bts, dest_addr).

Definition direct_dialer (dest : SocketAddr) : dialer pipe :=
  LayerDialer handshake (CltConnTest 1) (TcpDialer tcp dest).

Definition key_accepted (keys : option BrokerKeys) (their_pk : list byte) : bool :=
  match keys with Some k => bool_decide (hex_encode their_pk = master k) | None => true end.

(** The exit to use, with the token for its routes. *)
Definition choose_exit (cfg : Config) (b : broker_api)
    : res string (list byte * ExitDescriptor * list byte * UnblindedSignature) :=
  '(level, conn_token, sig) ← get_connect_token b;
  broker_client b ;;
  exits_response ← match level with Plus => get_exits b | Free => get_free_exits b end;
  exits_verified ← map_err (λ _, "could not verify exits"%string)
    (Signed_verify exits_response DOMAIN_EXIT_DESCRIPTOR (key_accepted (broker_keys cfg)));
  '(pubkey, exit) ← pick_exit_with_constraint rank (hash (credentials_json cfg))
    (exit_constraint cfg) exits_verified;
  Ok (pubkey, exit, conn_token, sig).

Definition final_dialer (mode : BridgeMode) (direct bridge : dialer pipe) : dialer pipe :=
  match mode with
  | AutoBridges => race direct (delay 1000 bridge)
  | ForceBridges => bridge
  | ForceDirect => direct
  end.

(** The addresses whitelisted, and the result. *)
Definition get_dialer_inner (choice : nat) (cfg : Config) (b : broker_api)
    : list IpAddr * res string dialed :=
  match exit_constraint cfg with
  | Direct dir =>
      match direct_parts choice dir with
      | Ok (pubkey, dest_addr) => ([ip dest_addr], Ok (pubkey, dummy_exit, direct_dialer dest_addr))
      | Err e => ([], Err e)
      | Panic => ([], Panic)
      end
  | _ =>
      match choose_exit cfg b with
      | Ok (pubkey, exit, conn_token, sig) =>
          let w := [ip (c2e_listen exit)] in
          match get_routes b conn_token sig (b2e_listen exit) with
          | Ok bridge_routes =>
              let '(w', bridge_dialer) := route_to_dialer tcp handshake bridge_routes in
              (w ++ w', Ok (pubkey, exit,
                 final_dialer (bridge_mode cfg) (direct_dialer (c2e_listen exit)) bridge_dialer))
          | Err e => (w, Err e)
          | Panic => (w, Panic)
          end
      | Err e => ([], Err e)
      | Panic => ([], Panic)
      end
  end.

(** ** What a dialer stands for *)

Lemma choose_exit_Ok cfg b pk e tok sig :
  choose_exit cfg b = Ok (pk, e, tok, sig) →
  ∃ level s, get_connect_token b = Ok (level, tok, sig) ∧
    (match level with Plus => get_exits b | Free => get_free_exits b end) = Ok s ∧
    key_accepted (broker_keys cfg) (pubkey s) = true ∧
    verify_strict (pubkey s) (to_sign DOMAIN_EXIT_DESCRIPTOR (signed_inner s)) (signature s) = true ∧
    (pk, e) ∈ all_exits (signed_inner s) ∧ exit_matches (exit_constraint cfg) e = true ∧
    ∀ x, x ∈ all_exits (signed_inner s) → exit_matches (exit_constraint cfg) x.2 = true →
      picker rank (hash (credentials_json cfg)) (pk, e) <= picker rank (hash (credentials_json cfg)) x.
Proof.
  unfold choose_exit. intros E. res_inv. destruct x as [[level tok'] sig']. res_inv.
  match goal with E : pick_exit_with_constraint _ _ _ _ = Ok ?x |- _ => destruct x as [pk' e'] end.
  res_inv.
  match goal with E : Signed_verify _ _ _ = Ok _ |- _ => apply Signed_verify_Ok in E as (-> & Hk & Hv) end.
  match goal with E : pick_exit_with_constraint _ _ _ _ = Ok _ |- _ => apply pick_exit_Ok in E as (Hin & Hm & Hmin) end.
  by eexists _, _.
Qed.

Lemma direct_yields dest :
  yields (λ p, p = mkPipe dest [CltConnTest 1]) (direct_dialer dest).
Proof.
  eapply yields_mono; [|apply yields_layer, yields_tcp]. by intros p (q & -> & ->).
Qed.

Lemma final_yields mode dest routes w' bd :
  route_to_dialer tcp handshake routes = (w', bd) →
  ∀ t t' p, final_dialer mode (direct_dialer dest) bd t = Done t' (inl p) →
    ip (endpoint p) ∈ [ip dest] ++ w' ∧
    ((mode ≠ ForceBridges ∧ p = mkPipe dest [CltConnTest 1]) ∨
     (mode ≠ ForceDirect ∧ p ∈ leaves routes)).
Proof.
  intros Ed t t' p Hp.
  assert (Hbridge : yields (.∈ leaves routes) bd)
    by (pose proof (route_yields_leaves tcp handshake routes) as Hy; by rewrite Ed in Hy).
  assert (Hw : ∀ q, q ∈ leaves routes → ip (endpoint q) ∈ w').
  { pose proof (route_whitelist tcp handshake routes) as Hw. rewrite Ed in Hw. simpl in Hw.
    intros q Hq. rewrite Hw. by apply (list_elem_of_fmap_2 (λ p, ip (endpoint p))). }
  assert (Hcases : (mode ≠ ForceBridges ∧ p = mkPipe dest [CltConnTest 1]) ∨
     (mode ≠ ForceDirect ∧ p ∈ leaves routes)).
  { destruct mode; simpl in Hp.
    - apply race_succeeds in Hp as [[Hp _]|[Hp _]]; [left|right]; (split; [done|]).
      + by eapply direct_yields. + by eapply Hbridge.
    - right. split; [done|]. by eapply Hbridge.
    - left. split; [done|]. by eapply direct_yields. }
  split; [|done]. destruct Hcases as [[_ ->]|[_ Hq]]; simpl; [left|right; by apply Hw].
Qed.

Lemma direct_parts_Ok choice dir pk dest :
  direct_parts choice dir = Ok (pk, dest) →
  ∃ host hex addrs, split_once_char slash dir = Some (host, hex) ∧ hex_decode hex = Some pk ∧ length pk = 32%nat ∧
    vk_valid pk = true ∧ resolve host = Ok addrs ∧ dest ∈ addrs.
Proof.
  unfold direct_parts. intros E. destruct (split_once_char slash dir) as [[host hex]|]; [|done]. cbn in E.
  destruct (hex_decode hex) as [bts|] eqn:Eh; [|done]. cbn in E. case_decide; [|done]. cbn in E.
  destruct (vk_valid bts) eqn:Ev; [|done]. cbn in E. destruct (resolve host) as [addrs| |] eqn:Er; [|done..]. cbn in E.
  destruct (addrs !! _) as [a|] eqn:Ea; [|done]. cbn in E. injection E as <- <-.
  exists host, hex, addrs. split_and!; try done. by eapply list_elem_of_lookup_2.
Qed.


End get_dialer.

Section cached.
Abbreviation dialed := (list byte * ExitDescriptor * dialer pipe)%type.

(** ** The cached dialer *)

(** [None]: the five seconds ran out. *)
Definition with_timeout {A} (o : option (res string A)) : res string A :=
  match o with Some r => r | None => Err "get_dialer_inner timed out"%string end.

(** [now] is the time of the call in milliseconds, [done] the time when the inner call returned. *)
Definition get_dialer (now done : Z) (cached_value : option (dialed * Z))
    (inner : option (res string dialed)) : option (dialed * Z) * res string dialed :=
  let refresh :=
    match with_timeout inner with
    | Ok val => (Some (val, done), Ok val)
    | Err err => (cached_value, match cached_value with Some (val, _) => Ok val | None => Err err end)
    | Panic => (cached_value, Panic)
    end in
  match cached_value with
  | Some (val, at_) =>
      if now <? at_ then (cached_value, Err "second time provided was later than self"%string)
      else if now - at_ <? 10000 then (cached_value, Ok val)
      else refresh
  | None => refresh
  end.

(** ** A dialer once found is never lost *)

Record dialer_call := mkDialerCall {
  dc_now : Z; dc_done : Z; dc_inner : option (res string dialed)
}.

Fixpoint get_dialers (c : option (dialed * Z)) (calls : list dialer_call) : list (res string dialed) :=
  match calls with
  | [] => []
  | q :: calls =>
      let '(c, r) := get_dialer (dc_now q) (dc_done q) c (dc_inner q) in
      r :: get_dialers c calls
  end.

(** The clock does not run backwards: each call starts when the previous has
    ended at the earliest.  No inner call panics. *)
Fixpoint clock_ok (t : Z) (calls : list dialer_call) : Prop :=
  match calls with
  | [] => True
  | q :: calls =>
      t <= dc_now q <= dc_done q ∧ with_timeout (dc_inner q) ≠ Panic ∧ clock_ok (dc_done q) calls
  end.

Lemma get_dialer_cached now done val at_ inner :
  at_ <= now <= done → with_timeout inner ≠ Panic →
  ∃ val' at', get_dialer now done (Some (val, at_)) inner = (Some (val', at'), Ok val') ∧
    at' <= done ∧ (val' = val ∨ inner = Some (Ok val')).
Proof.
  intros Ht Hp. unfold get_dialer. destruct (Z.ltb_spec now at_); [lia|].
  destruct (now - at_ <? 10000); [exists val, at_; split_and!; [done|lia|by left]|].
  destruct (with_timeout inner) as [v|e|] eqn:E; [|exists val, at_; split_and!; [done|lia|by left]|done].
  exists v, done. split_and!; [done|lia|right]. destruct inner; by simplify_eq/=.
Qed.

Lemma get_dialers_cached calls : ∀ val at_,
  clock_ok at_ calls → ∀ j, (j < length calls)%nat →
  ∃ v, get_dialers (Some (val, at_)) calls !! j = Some (Ok v) ∧
    (v = val ∨ ∃ k q, (k <= j)%nat ∧ calls !! k = Some q ∧ dc_inner q = Some (Ok v)).
Proof.
  induction calls as [|q calls IH]; intros val at_ Hc j Hj; simpl in Hj, Hc; [lia|].
  cbn [get_dialers].
  destruct Hc as (Ht & Hp & Hc).
  destruct (get_dialer_cached (dc_now q) (dc_done q) val at_ (dc_inner q)) as (v & a' & E & Ha & Hv); [lia|done|].
  rewrite E. destruct j as [|j]; simpl.
  { exists v. split; [done|]. destruct Hv as [->|Hv]; [by left|]. right. exists 0%nat, q. split_and!; [lia|done|done]. }
  assert (Hc' : clock_ok a' calls) by (destruct calls; simpl in *; intuition lia).
  destruct (IH v a' Hc' j ltac:(lia)) as (v' & E' & Hv'). exists v'. split; [done|].
  destruct Hv' as [->|(k & q' & Hk & Hq & Hi)].
  - destruct Hv as [->|Hv]; [by left|]. right. exists 0%nat, q. split_and!; [lia|done|done].
  - right. exists (S k), q'. split_and!; [lia|done|done].
Qed.

(** A dialer once found is never lost.  If the clock does not run backwards
    and some call returned a dialer, every later call returns one too, whatever
    the broker answers meanwhile (errors and timeouts included), and it is a
    dialer that an inner call of that or an earlier call produced. *)
Theorem get_dialers_sticky t calls i j v :
  clock_ok t calls → (i <= j < length calls)%nat →
  get_dialers None calls !! i = Some (Ok v) →
  ∃ v' k q, get_dialers None calls !! j = Some (Ok v') ∧
    (k <= j)%nat ∧ calls !! k = Some q ∧ dc_inner q = Some (Ok v').
Proof.
  revert t i j. induction calls as [|q calls IH]; intros t i j Hc Hij Hi; [done|].
  simpl in Hc, Hij. cbn [get_dialers] in Hi |- *.
  destruct Hc as (Ht & Hp & Hc).
  destruct (get_dialer (dc_now q) (dc_done q) None (dc_inner q)) as [c r] eqn:E.
  unfold get_dialer in E. destruct (with_timeout (dc_inner q)) as [v0|e|] eqn:Ei; simplify_eq.
  - assert (Hq : dc_inner q = Some (Ok v0)) by (destruct (dc_inner q); by simplify_eq/=).
    destruct j as [|j]; simpl; [exists v0, 0%nat, q; split_and!; [done|lia|done|done]|].
    destruct (get_dialers_cached calls v0 (dc_done q) Hc j ltac:(lia)) as (v' & E' & [->|(k & q' & Hk & Hq' & Hi')]).
    + exists v0, 0%nat, q. split_and!; [done|lia|done|done].
    + exists v', (S k), q'. split_and!; [done|lia|done|done].
  - destruct i as [|i]; [done|]. destruct j as [|j]; [lia|].
    destruct (IH (dc_done q) i j Hc ltac:(lia) Hi) as (v' & k & q' & E' & Hk & Hq' & Hi').
    exists v', (S k), q'. split_and!; [done|lia|done|done].
Qed.
End cached.

Import Toy.
Module GetDialerDemo.
#[export] Instance exits_codec : Stdcode ExitList := {| stdcode _ := [x07]; deserialize _ := None |}.
Definition ex : ExitDescriptor :=
  mkExit (mkAddr (V4 9) 1) (mkAddr (V4 9) 2) "CAN" "Montreal" (S754_zero false) 0.
Definition l : ExitList := mkExitList [([x01], ex)].
Definition signed : Signed ExitList := Signed_new l DOMAIN_EXIT_DESCRIPTOR [x05].
Definition api : broker_api := mkBrokerApi (Ok (Plus, [], mkUnblinded 0 [] [] [])) (Ok tt) (Ok signed)
  (Err "no"%string) (λ _ _ _, Ok (Tcp (mkAddr (V4 7) 5))).
Definition cfg : Config :=
  mkConfig (CountryCity "CAN" "Montreal") AutoBridges (Some (mkBrokerKeys "05" "" "")) [].
Definition tcp (a : SocketAddr) : dialer unit := λ t,
  if port a =? 5 then Done (t + 3) (inl tt) else Done (t + 5) (inr failing_error).
Definition handshake (l : client_layer) (p : pipe) (t : Z) : outcome unit := Done (t + 1) (inl tt).
Definition inner := get_dialer_inner (λ _ _, 0) tcp handshake (λ _, true) (λ _, Err ""%string) 0 cfg api.
Definition val : list byte * ExitDescriptor * dialer pipe :=
  match inner.2 with Ok v => v | _ => ([], ex, FailingDialer) end.
Definition calls : list dialer_call :=
  [mkDialerCall 0 10 (Some (Ok val)); mkDialerCall 50000 55000 None].
End GetDialerDemo.
Import GetDialerDemo.


Lemma get_dialers_sticky_witness :
  ∃ v', get_dialers None GetDialerDemo.calls !! 1%nat = Some (Ok v').
Proof.
  destruct (get_dialers_sticky 0 GetDialerDemo.calls 0 1 GetDialerDemo.val) as (v & ? & ? & H & _);
    [simpl; split_and!; done || lia|simpl; lia|reflexivity|]. by exists v.
Defined.
