(* ===== verification/BrokerDb.v ===== *)
(** * The broker's world (binaries/geph5-broker/src/{database,payments}.rs)

    The broker is a set of request handlers over a Postgres database, a handful
    of process-wide caches and a payment service.  A handler is a function from
    the world to the world and a result; every query may fail, as told by the
    list of faults.  Rows keep addresses and countries as parsed values. *)
From Stdlib Require Import ZArith Lia.
From S2P Require Import Prelude Crypto Protocol Cache.
Local Open Scope Z_scope.

(** ** Tables *)

Record ExitRow := mkExitRow {
  row_c2e : SocketAddr; row_b2e : SocketAddr; row_country : string; row_city : string;
  row_load : Floats.SpecFloat.spec_float; row_expiry : Z
}.
Record BridgeRow := mkBridgeRow {
  row_cookie : string; row_pool : string; row_bexpiry : Z; alloc_count : Z
}.
Record VoucherRow := mkVoucher { voucher_id : Z; voucher_code : string; visible_after : Z }.

Record Db := mkDb {
  next_user_id : Z;                               (* the sequence behind users.id *)
  users : list Z;
  auth_secret : list (Z * string);
  auth_password : list (string * (Z * string));   (* username, user_id, pwdhash *)
  auth_tokens : list (string * Z);
  subscriptions : list (Z * (Z * bool));          (* joined with recurring_subs *)
  last_payment : Z;                               (* max(payment_events.created_at), seconds *)
  free_vouchers : list VoucherRow;
  used_puzzles : gset string;
  exits_new : gmap (list byte) ExitRow;           (* unique pubkey *)
  bridges_new : gmap SocketAddr BridgeRow;        (* unique listen *)
  bridge_group_delays : gmap string (Z * bool);   (* delay_ms, is_plus *)
  last_login : gmap Z Z
}.

Definition set_users (n : Z) (l : list Z) (d : Db) : Db :=
  mkDb n l (auth_secret d) (auth_password d) (auth_tokens d) (subscriptions d) (last_payment d)
    (free_vouchers d) (used_puzzles d) (exits_new d) (bridges_new d) (bridge_group_delays d) (last_login d).
Definition set_auth_secret (l : list (Z * string)) (d : Db) : Db :=
  mkDb (next_user_id d) (users d) l (auth_password d) (auth_tokens d) (subscriptions d) (last_payment d)
    (free_vouchers d) (used_puzzles d) (exits_new d) (bridges_new d) (bridge_group_delays d) (last_login d).
Definition set_auth_tokens (l : list (string * Z)) (d : Db) : Db :=
  mkDb (next_user_id d) (users d) (auth_secret d) (auth_password d) l (subscriptions d) (last_payment d)
    (free_vouchers d) (used_puzzles d) (exits_new d) (bridges_new d) (bridge_group_delays d) (last_login d).
Definition set_free_vouchers (l : list VoucherRow) (d : Db) : Db :=
  mkDb (next_user_id d) (users d) (auth_secret d) (auth_password d) (auth_tokens d) (subscriptions d)
    (last_payment d) l (used_puzzles d) (exits_new d) (bridges_new d) (bridge_group_delays d) (last_login d).
Definition set_used_puzzles (s : gset string) (d : Db) : Db :=
  mkDb (next_user_id d) (users d) (auth_secret d) (auth_password d) (auth_tokens d) (subscriptions d)
    (last_payment d) (free_vouchers d) s (exits_new d) (bridges_new d) (bridge_group_delays d) (last_login d).
Definition set_exits_new (m : gmap (list byte) ExitRow) (d : Db) : Db :=
  mkDb (next_user_id d) (users d) (auth_secret d) (auth_password d) (auth_tokens d) (subscriptions d)
    (last_payment d) (free_vouchers d) (used_puzzles d) m (bridges_new d) (bridge_group_delays d) (last_login d).
Definition set_bridges_new (m : gmap SocketAddr BridgeRow) (d : Db) : Db :=
  mkDb (next_user_id d) (users d) (auth_secret d) (auth_password d) (auth_tokens d) (subscriptions d)
    (last_payment d) (free_vouchers d) (used_puzzles d) (exits_new d) m (bridge_group_delays d) (last_login d).
Definition set_last_login (m : gmap Z Z) (d : Db) : Db :=
  mkDb (next_user_id d) (users d) (auth_secret d) (auth_password d) (auth_tokens d) (subscriptions d)
    (last_payment d) (free_vouchers d) (used_puzzles d) (exits_new d) (bridges_new d) (bridge_group_delays d) m.

(** ** The process-wide caches *)

Abbreviation bridge_list := (list (BridgeDescriptor * Z * bool)).
Abbreviation route_key := (BridgeDescriptor * SocketAddr)%type.

Class BrokerCaches := {
  bc_cred :: TtlCache Credential Z;
  bc_token :: TtlCache string (option Z);
  bc_ts :: TtlCache Z Z;
  bc_subs :: TtlCache Z (gmap Z (Z * bool));
  bc_exits :: TtlCache unit ExitList;
  bc_bridges :: TtlCache string bridge_list;
  bc_routes :: TtlCache route_key (res string RouteDescriptor)
}.

(** ** The payment service *)

Class Payment := {
  pay_state : Type;
  raw_start_session : pay_state → Z → pay_state * res string string;
  start_stripe_url : pay_state → string → Z → pay_state * res string string;
  start_aliwechat : pay_state → string → Z → string → pay_state * res string string;
  create_giftcard : pay_state → Z → pay_state * res string string;
  spend_giftcard : pay_state → string → string → pay_state * res string Z
}.

Section world.
Context `{BrokerCaches} `{Payment}.

(** The world a handler runs in; [now] is in milliseconds and [faults] says,
    query by query, which ones the database refuses (none beyond its end). *)
Record World := mkWorld {
  db : Db;
  faults : list bool;
  now : Z;
  pay : pay_state;
  cred_cache : cache_t Credential Z;
  token_cache : cache_t string (option Z);
  ts_cache : cache_t Z Z;
  subs_cache : cache_t Z (gmap Z (Z * bool));
  exit_cache : cache_t unit ExitList;
  bridges_cache : cache_t string bridge_list;
  routes_cache : cache_t route_key (res string RouteDescriptor)
}.

Definition set_db (d : Db) (w : World) : World :=
  mkWorld d (faults w) (now w) (pay w) (cred_cache w) (token_cache w) (ts_cache w) (subs_cache w)
    (exit_cache w) (bridges_cache w) (routes_cache w).
Definition set_faults (l : list bool) (w : World) : World :=
  mkWorld (db w) l (now w) (pay w) (cred_cache w) (token_cache w) (ts_cache w) (subs_cache w)
    (exit_cache w) (bridges_cache w) (routes_cache w).
Definition set_pay (p : pay_state) (w : World) : World :=
  mkWorld (db w) (faults w) (now w) p (cred_cache w) (token_cache w) (ts_cache w) (subs_cache w)
    (exit_cache w) (bridges_cache w) (routes_cache w).
Definition set_cred_cache (c : cache_t Credential Z) (w : World) : World :=
  mkWorld (db w) (faults w) (now w) (pay w) c (token_cache w) (ts_cache w) (subs_cache w)
    (exit_cache w) (bridges_cache w) (routes_cache w).
Definition set_token_cache (c : cache_t string (option Z)) (w : World) : World :=
  mkWorld (db w) (faults w) (now w) (pay w) (cred_cache w) c (ts_cache w) (subs_cache w)
    (exit_cache w) (bridges_cache w) (routes_cache w).
Definition set_ts_cache (c : cache_t Z Z) (w : World) : World :=
  mkWorld (db w) (faults w) (now w) (pay w) (cred_cache w) (token_cache w) c (subs_cache w)
    (exit_cache w) (bridges_cache w) (routes_cache w).
Definition set_subs_cache (c : cache_t Z (gmap Z (Z * bool))) (w : World) : World :=
  mkWorld (db w) (faults w) (now w) (pay w) (cred_cache w) (token_cache w) (ts_cache w) c
    (exit_cache w) (bridges_cache w) (routes_cache w).
Definition set_exit_cache (c : cache_t unit ExitList) (w : World) : World :=
  mkWorld (db w) (faults w) (now w) (pay w) (cred_cache w) (token_cache w) (ts_cache w) (subs_cache w)
    c (bridges_cache w) (routes_cache w).
Definition set_bridges_cache (c : cache_t string bridge_list) (w : World) : World :=
  mkWorld (db w) (faults w) (now w) (pay w) (cred_cache w) (token_cache w) (ts_cache w) (subs_cache w)
    (exit_cache w) c (routes_cache w).
Definition set_routes_cache (c : cache_t route_key (res string RouteDescriptor)) (w : World) : World :=
  mkWorld (db w) (faults w) (now w) (pay w) (cred_cache w) (token_cache w) (ts_cache w) (subs_cache w)
    (exit_cache w) (bridges_cache w) c.

(** ** Handlers *)

Definition M (E A : Type) : Type := World → World * res E A.

#[export] Instance M_ret {E} : MRet (M E) := λ A a w, (w, Ok a).
#[export] Instance M_bind {E} : MBind (M E) := λ A B k m w,
  match m w with
  | (w, Ok a) => k a w
  | (w, Err e) => (w, Err e)
  | (w, Panic) => (w, Panic)
  end.

Definition lift {E A} (r : res E A) : M E A := λ w, (w, r).
Definition fail {E A} (e : E) : M E A := λ w, (w, Err e).
Definition get {E A} (f : World → A) : M E A := λ w, (w, Ok (f w)).
Definition map_errM {E F A} (f : E → F) (m : M E A) : M F A := λ w, let '(w, r) := m w in (w, map_err f r).
Definition payment {A} (f : pay_state → pay_state * res string A) : M string A := λ w,
  let '(p, r) := f (pay w) in (set_pay p w, r).

Definition database_failed : string := "database failed".

(** One query: a read, and a write that may be refused by a constraint. *)
Definition query {A} (f : Db → A) : M string A := λ w,
  match faults w with
  | true :: l => (set_faults l w, Err database_failed)
  | false :: l => (set_faults l w, Ok (f (db w)))
  | [] => (w, Ok (f (db w)))
  end.
Definition execute (f : Db → option Db) : M string unit := λ w,
  let try w :=
    match f (db w) with Some d => (set_db d w, Ok tt) | None => (w, Err database_failed) end in
  match faults w with
  | true :: l => (set_faults l w, Err database_failed)
  | false :: l => try (set_faults l w)
  | [] => try w
  end.

(** A transaction ([begin], the body, [commit]): what the body wrote stays only if the body ends well; the
    sequence of user ids is never rolled back. *)
Definition transaction {A} (body : M string A) : M string A := λ w,
  match (query (λ _, tt) ;; a ← body; query (λ _, tt) ;; mret a) w with
  | (w', Ok a) => (w', Ok a)
  | (w', r) => (set_db (set_users (next_user_id (db w')) (users (db w)) (db w)) w', r)
  end.

(** Memoised queries: [#[cached(result = true)]] and [try_get_with] keep
    successes only; an idle cache restarts its clock at every hit. *)
Definition memo {E K V} `{TtlCache K V} (cache : World → cache_t K V)
    (set : cache_t K V → World → World) (k : K) (init : M E V) : M E V := λ w,
  match clookup (cache w) (now w) k with
  | Some v => (w, Ok v)
  | None =>
      match init w with
      | (w', Ok v) => (set (cinsert (cache w') (now w') k v) w', Ok v)
      | r => r
      end
  end.
Definition memo_idle {E K V} `{TtlCache K V} (cache : World → cache_t K V)
    (set : cache_t K V → World → World) (k : K) (init : M E V) : M E V := λ w,
  match clookup (cache w) (now w) k with
  | Some v => (set (cinsert (cache w) (now w) k v) w, Ok v)
  | None =>
      match init w with
      | (w', Ok v) => (set (cinsert (cache w') (now w') k v) w', Ok v)
      | r => r
      end
  end.

(** ** Reasoning about handlers *)

Lemma M_bind_Ok {E A B} (m : M E A) (k : A → M E B) w w' b :
  (m ≫= k) w = (w', Ok b) ↔ ∃ w1 a, m w = (w1, Ok a) ∧ k a w1 = (w', Ok b).
Proof.
  unfold mbind, M_bind. destruct (m w) as [w1 [a|e|]]; split.
  - eauto.
  - intros (? & ? & [= <- <-] & ?). done.
  - done.
  - by intros (? & ? & ? & ?).
  - done.
  - by intros (? & ? & ? & ?).
Qed.

(** ** A program logic for handlers

    [hoare P m I Q]: started where [P] holds, [m] ends where [I] holds,
    whatever it answers, and where [Q] holds of its answer if it succeeds. *)
Definition hoare {E A} (P : World → Prop) (m : M E A) (I : World → Prop) (Q : A → World → Prop) : Prop :=
  ∀ w, P w → I (fst (m w)) ∧ ∀ a, snd (m w) = Ok a → Q a (fst (m w)).

(** [m] keeps [I]. *)
Definition preserves {E A} (I : World → Prop) (m : M E A) : Prop := hoare I m I (λ _ _, True).

Lemma hoare_bind {E A B} P I Q R (m : M E A) (k : A → M E B) :
  hoare P m I Q → (∀ a, hoare (λ w, I w ∧ Q a w) (k a) I R) → hoare P (m ≫= k) I R.
Proof.
  intros Hm Hk w Hw. destruct (Hm w Hw) as [HI HQ]. unfold mbind, M_bind.
  destruct (m w) as [w1 [a|e|]]; simpl in *; [|done..]. apply Hk. auto.
Qed.
Lemma hoare_conseq {E A} P P' I Q Q' (m : M E A) :
  hoare P' m I Q' → (∀ w, P w → P' w) → (∀ a w, I w → Q' a w → Q a w) → hoare P m I Q.
Proof. intros Hm HP HQ w Hw. destruct (Hm w (HP w Hw)) as [HI Ha]. eauto. Qed.
Lemma hoare_ret {E A} (P I : World → Prop) (Q : A → World → Prop) (a : A) :
  (∀ w, P w → I w ∧ Q a w) → hoare (E:=E) P (mret a) I Q.
Proof. intros HPQ w Hw. destruct (HPQ w Hw). split; [done|]. by intros a' [= <-]. Qed.
Lemma hoare_lift {E A} (P I : World → Prop) (Q : A → World → Prop) (r : res E A) :
  (∀ w, P w → I w ∧ ∀ a, r = Ok a → Q a w) → hoare P (lift r) I Q.
Proof. intros HPQ w Hw. by destruct (HPQ w Hw). Qed.
Lemma hoare_fail {E A} (P I : World → Prop) (Q : A → World → Prop) (e : E) :
  (∀ w, P w → I w) → hoare P (fail e) I Q.
Proof. intros HPQ w Hw. split; [by apply HPQ|done]. Qed.
Lemma hoare_get {E A} (P I : World → Prop) (Q : A → World → Prop) (f : World → A) :
  (∀ w, P w → I w ∧ Q (f w) w) → hoare (E:=E) P (get f) I Q.
Proof. intros HPQ w Hw. destruct (HPQ w Hw). split; [done|]. by intros a' [= <-]. Qed.
Lemma hoare_map_err {E F A} P I Q (f : E → F) (m : M E A) :
  hoare P m I Q → hoare P (map_errM f m) I Q.
Proof.
  intros Hm w Hw. unfold map_errM. destruct (Hm w Hw) as [HI HQ]. destruct (m w) as [w' r].
  simpl in *. split; [done|]. intros a E'%map_err_Ok. by apply HQ.
Qed.

(** A relation between worlds that a handler always respects, kept under
    composition when it is a preorder. *)
Definition framed {E A} (R : World → World → Prop) (m : M E A) : Prop := ∀ w, R w (fst (m w)).

Lemma framed_bind {E A B} R `{!Transitive R} (m : M E A) (k : A → M E B) :
  framed R m → (∀ a, framed R (k a)) → framed R (m ≫= k).
Proof.
  intros Hm Hk w. specialize (Hm w). unfold mbind, M_bind.
  destruct (m w) as [w1 [a|e|]]; simpl in *; [|done..]. etrans; [done|apply Hk].
Qed.
Lemma framed_hoare {E A} R I (m : M E A) :
  framed R m → (∀ w w', R w w' → I w → I w') → preserves I m.
Proof. intros Hm HR w Hw. split; [|done]. eapply HR; [apply Hm|done]. Qed.

Lemma query_Ok {A} (f : Db → A) w w' a :
  query f w = (w', Ok a) → a = f (db w) ∧ ∃ l, w' = set_faults l w.
Proof.
  unfold query. destruct (faults w) as [|[] l] eqn:E; intros [= <- <-]; eauto.
  split; [done|]. exists []. destruct w; simpl in *. by subst.
Qed.
End world.

