(* ===== verification/Broker.v ===== *)
(** * The broker (binaries/geph5-broker/src/{auth,rpc_impl,database,free_voucher,puzzle,payments}.rs)

    The request handlers over the world of [BrokerDb]: accounts and their
    secrets, auth tokens, blind-signed connect tokens, the exit list, routes,
    vouchers and payments.  Random draws are arguments. *)
From Stdlib Require Import ZArith Lia.
From S2P Require Import Prelude Crypto Mizaru Protocol Text Cache Dialer Routes GetDialer BrokerDb.
Local Open Scope Z_scope.

(** What [GenericError]s and [anyhow] errors carry: the text. *)
Definition auth_msg (e : AuthError) : string :=
  match e with
  | RateLimited => "rate limit" | Forbidden => "forbidden" | WrongLevel => "wrong level"
  end.

Section broker.
Context `{BC : BrokerCaches} `{PS : Payment}.
Context `{Blake3Laws} `{Ed25519Laws} `{BlindRsaLaws}.
Context `{Stdcode ExitList} `{Stdcode ExitDescriptor} `{Stdcode (Signed ExitDescriptor)}
  `{Stdcode BridgeDescriptor}.

(** The configuration file and the keys it names. *)
Record BrokerConfig := mkBrokerConfig {
  free_sk : SecretKey;
  plus_sk : SecretKey;
  master_secret : list byte;
  exit_token : list byte;
  bridge_token : list byte;
  puzzle_difficulty : Z
}.
Context (cfg : BrokerConfig).

Definition level_sk (level : AccountLevel) : SecretKey :=
  match level with Free => free_sk cfg | Plus => plus_sk cfg end.

(** Argon2's verification of a password against a stored hash (parsing the
    hash first), the proof of work of puzzles, the order sha256 puts on
    listen addresses for a key, [{:?}] of a token and the bridges' control port. *)
Context (phc_parse : string → bool) (verify_password : string → string → bool).
Context (pow_valid : string → Z → string → bool).
Context (bridge_rank : SocketAddr → string → Z) (token_debug : list byte → string).
Context (tcp_forward : BridgeDescriptor → SocketAddr → B2eMetadata → option (res string SocketAddr)).

(** ** Accounts *)

Definition find_first {A} (f : A → bool) (l : list A) : option A := head (filter (λ a, f a) l).

Definition secret_of (uid : Z) (d : Db) : option string :=
  snd <$> find_first (λ r, r.1 =? uid) (auth_secret d).
Definition secret_owner (s : string) (d : Db) : option Z :=
  fst <$> find_first (λ r, bool_decide (r.2 = s)) (auth_secret d).
Definition password_row (name : string) (d : Db) : option (Z * string) :=
  snd <$> find_first (λ r, bool_decide (r.1 = name)) (auth_password d).
Definition token_owner (tok : string) (d : Db) : option Z :=
  snd <$> find_first (λ r, bool_decide (r.1 = tok)) (auth_tokens d).

(** The 24 digits of a secret: a 9 and 23 drawn ones. *)
Definition make_secret (digits : list Z) : string :=
  String.append "9" (foldl (λ a b, String.append a (dec b)) EmptyString digits).

(** [coalesce(max(visible_after) + '1 second', now())]. *)
Definition next_visible (now_s : Z) (l : list VoucherRow) : Z :=
  match map visible_after l with [] => now_s | x :: xs => foldr Z.max x xs + 1 end.

Definition insert_voucher (now_s uid : Z) (code : string) (d : Db) : option Db :=
  Some (set_free_vouchers (free_vouchers d ++ [mkVoucher uid code (next_visible now_s (free_vouchers d))]) d).

Definition create_user : M string Z :=
  uid ← get (λ w, next_user_id (db w));
  execute (λ d, Some (set_users (next_user_id d + 1) (users d ++ [next_user_id d]) d)) ;;
  mret uid.

Definition register_secret (digits : list Z) (user_id : option Z) : M string string :=
  transaction (
    user_id ← match user_id with Some uid => mret uid | None => create_user end;
    existing_secret ← query (secret_of user_id);
    match existing_secret with
    | Some secret => mret secret
    | None =>
        let secret := make_secret digits in
        execute (λ d, Some (set_auth_secret (auth_secret d ++ [(user_id, secret)]) d)) ;;
        code ← payment (λ p, create_giftcard p 1);
        now_s ← get (λ w, now w / 1000);
        execute (insert_voucher now_s user_id code) ;;
        mret secret
    end).

Definition rate_limited {A} (m : M string A) : M AuthError A := map_errM (λ _, RateLimited) m.

Definition validate_secret (secret : string) : M AuthError Z :=
  r ← rate_limited (query (secret_owner secret));
  lift (ok_or r Forbidden).

Definition validate_username_pwd (username password : string) : M AuthError Z :=
  r ← rate_limited (query (password_row username));
  '(user_id, phc_string) ← lift (ok_or r Forbidden);
  if phc_parse phc_string then
    if verify_password password phc_string then mret user_id else fail Forbidden
  else fail Forbidden.

Definition validate_credential (credential : Credential) : M AuthError Z :=
  memo cred_cache set_cred_cache credential (
    match credential with
    | TestDummy => fail Forbidden
    | LegacyUsernamePassword username password => validate_username_pwd username password
    | Secret s => validate_secret s
    end).

(** [rnd]: the thirty alphanumeric characters drawn. *)
Definition new_auth_token (rnd : string) (user_id : Z) : M string string :=
  execute (λ d, Some (set_auth_tokens (auth_tokens d ++ [(rnd, user_id)]) d)) ;; mret rnd.

Definition get_user_id_from_token (token : string) : M string (option Z) :=
  memo token_cache set_token_cache token (query (token_owner token)).

Definition subscription_map (l : list (Z * (Z * bool))) : gmap Z (Z * bool) :=
  list_to_map (reverse l).

Definition get_subscription_expiry (user_id : Z) : M string (option (Z * bool)) :=
  bucket ← get (λ w, now w / 50);
  last_payment_timestamp ← memo_idle ts_cache set_ts_cache bucket (query last_payment);
  all_subscriptions ← memo_idle subs_cache set_subs_cache last_payment_timestamp
    (query (λ d, subscription_map (subscriptions d)));
  mret (all_subscriptions !! user_id).

(** [record_auth] runs detached: its failure reaches no one. *)
Definition record_auth (user_id : Z) : M string unit := λ w,
  (fst (execute (λ d, Some (set_last_login (<[user_id := now w]> (last_login d)) d)) w), Ok tt).

Definition valid_auth_token (token : string) : M string (option (Z * AccountLevel)) :=
  user_id ← get_user_id_from_token token;
  match user_id with
  | None => mret None
  | Some user_id =>
      expiry ← get_subscription_expiry user_id;
      record_auth user_id ;;
      mret (Some (user_id, match expiry with None => Free | Some _ => Plus end))
  end.

Definition user_info_of (user_id : Z) : M AuthError (option UserInfo) :=
  s ← rate_limited (get_subscription_expiry user_id);
  mret (Some (mkUserInfo (cast_u 64 user_id) (cast_u 64 <$> (fst <$> s)) (default false (snd <$> s)))).

(** ** Handlers: accounts and tokens *)

Definition get_auth_token (rnd : string) (credential : Credential) : M AuthError string :=
  user_id ← validate_credential credential; rate_limited (new_auth_token rnd user_id).

Definition get_mizaru_subkey (level : AccountLevel) (e : Z) : M string (list byte) :=
  lift (key ← get_subkey (level_sk level) e; Ok (pk_to_der (sk_public key))).

(** Signing itself only succeeds or panics. *)
Definition get_connect_token (r : rsa_rand) (auth_token : string) (level : AccountLevel) (e : Z)
    (blind_token : list byte) : M AuthError BlindedSignature :=
  auth ← rate_limited (valid_auth_token auth_token);
  '(_, user_level) ← lift (ok_or auth Forbidden);
  if bool_decide (level = Plus) && bool_decide (user_level ≠ level) then fail WrongLevel
  else lift (map_err (λ _, Forbidden) (blind_sign (level_sk level) e blind_token r)).

Definition get_user_info (auth_token : string) : M AuthError (option UserInfo) :=
  auth ← rate_limited (valid_auth_token auth_token);
  match auth with Some (user_id, _) => user_info_of user_id | None => mret None end.

Definition get_user_info_by_cred (cred : Credential) : M AuthError (option UserInfo) := λ w,
  match validate_credential cred w with
  | (w, Ok user_id) => user_info_of user_id w
  | (w, Err Forbidden) => (w, Ok None)
  | (w, Err e) => (w, Err e)
  | (w, Panic) => (w, Panic)
  end.

(** Any puzzle may be solved once. *)
Definition verify_puzzle_solution (puzzle solution : string) : M string unit :=
  (if pow_valid puzzle (puzzle_difficulty cfg) solution then mret tt
   else fail "invalid solution to puzzle"%string) ;;
  execute (λ d, if decide (puzzle ∈ used_puzzles d) then None
                else Some (set_used_puzzles ({[puzzle]} ∪ used_puzzles d) d)).

Definition register_user_secret (digits : list Z) (puzzle solution : string) : M string string :=
  verify_puzzle_solution puzzle solution ;; register_secret digits None.

Definition upgrade_to_secret (digits : list Z) (cred : Credential) : M AuthError string :=
  user_id ← validate_credential cred; rate_limited (register_secret digits (Some user_id)).

(** ** Handlers: exits *)

Definition row_exit (pk : list byte) (r : ExitRow) : list byte * ExitDescriptor :=
  (pk, mkExit (row_c2e r) (row_b2e r) (row_country r) (row_city r) (row_load r) (cast_u 64 (row_expiry r))).

Definition get_all_exits : M string ExitList :=
  memo exit_cache set_exit_cache tt
    (query (λ d, mkExitList (map (λ p, row_exit p.1 p.2) (map_to_list (exits_new d))))).

Definition is_plus_exit (e : ExitDescriptor) : bool :=
  negb (bool_decide (country e ∈ ["CAN"; "NLD"; "FRA"; "POL"; "DEU"]%string)).

Definition broker_get_exits : M string (Signed ExitList) :=
  exit_list ← get_all_exits;
  mret (Signed_new exit_list DOMAIN_EXIT_DESCRIPTOR (master_secret cfg)).

Definition broker_get_free_exits : M string (Signed ExitList) :=
  exit_list ← get_all_exits;
  mret (Signed_new (mkExitList (filter (λ e, negb (is_plus_exit e.2)) (all_exits exit_list)))
    DOMAIN_EXIT_DESCRIPTOR (master_secret cfg)).

Definition mac_error {A} (r : res MacError A) : res string A := map_err (λ _, "invalid MAC"%string) r.
Definition sig_error {A} (r : res VerifyError A) : res string A :=
  map_err (λ e, match e with InvalidPublicKey => "invalid public key"%string
                | InvalidSignature => "invalid signature"%string end) r.

(** The row expires ten seconds from now, whatever the descriptor says. *)
Definition insert_exit (descriptor : Mac (Signed ExitDescriptor)) : M string unit :=
  s ← lift (mac_error (Mac_verify descriptor (hash (exit_token cfg))));
  d ← lift (sig_error (Signed_verify s DOMAIN_EXIT_DESCRIPTOR (λ _, true)));
  now_s ← get (λ w, now w / 1000);
  if exit_expiry d <? now_s then
    fail "Exit info timestamp is before current time (potential replay attack)"%string
  else
    execute (λ x, Some (set_exits_new (<[pubkey s :=
      mkExitRow (c2e_listen d) (b2e_listen d) (country d) (city d) (load d) (now_s + 10)]> (exits_new x)) x)).

Definition insert_bridge (descriptor : Mac BridgeDescriptor) : M string unit :=
  d ← lift (mac_error (Mac_verify descriptor (hash (bridge_token cfg))));
  execute (λ x, Some (set_bridges_new (<[control_listen d :=
    mkBridgeRow (control_cookie d) (pool d) (cast_i 64 (bridge_expiry d))
      (default 0 (alloc_count <$> bridges_new x !! control_listen d))]> (bridges_new x)) x)).

(** Expiries are in seconds.  One round of the garbage collector. *)
Definition database_gc : M string unit :=
  now_ms ← get now;
  execute (λ d, Some (set_exits_new (filter (λ p, now_ms <= 1000 * row_expiry p.2) (exits_new d)) d)) ;;
  execute (λ d, Some (set_bridges_new (filter (λ p, now_ms <= 1000 * row_bexpiry p.2) (bridges_new d)) d)).

(** ** Handlers: routes *)

(** [select distinct on (pool)]: in every pool the bridge whose address hashes
    least with the key; each choice is counted. *)
Definition pools (d : Db) : list string := remove_dups (map (λ p, row_pool p.2) (map_to_list (bridges_new d))).
Definition chosen (key : string) (d : Db) : list (SocketAddr * BridgeRow) :=
  omap (λ pl, min_by_key (λ p, bridge_rank p.1 key)
          (filter (λ p, row_pool p.2 = pl) (map_to_list (bridges_new d)))) (pools d).
Definition chosen_bridge (d : Db) (p : SocketAddr * BridgeRow) : BridgeDescriptor * Z * bool :=
  let '(delay, is_plus) := default (0, false) (bridge_group_delays d !! row_pool p.2) in
  (mkBridge p.1 (row_cookie p.2) (row_pool p.2) (cast_u 64 (row_bexpiry p.2)), cast_u 32 delay, is_plus).
Definition count_alloc (l : list (SocketAddr * BridgeRow)) (d : Db) : Db :=
  set_bridges_new (foldr (λ p m, <[p.1 :=
    mkBridgeRow (row_cookie p.2) (row_pool p.2) (row_bexpiry p.2) (alloc_count p.2 + 1)]> m)
    (bridges_new d) l) d.

(** One statement selects, counts and returns. *)
Definition query_bridges (key : string) : M string bridge_list :=
  memo bridges_cache set_bridges_cache key (
    d ← get db;
    execute (λ d, Some (count_alloc (chosen key d) d)) ;;
    mret (map (chosen_bridge d) (chosen key d))).

Definition token_level (token : list byte) (sig : UnblindedSignature) : res string AccountLevel :=
  plus_pk ← to_public_key (plus_sk cfg);
  match blind_verify plus_pk token sig with
  | Ok _ => Ok Plus
  | Err _ => free_pk ← to_public_key (free_sk cfg); blind_verify free_pk token sig ;; Ok Free
  | Panic => Panic
  end.

(** The calls to the bridges, with the successes collected; [rnd i] are the
    random bytes of call [i]. *)
Fixpoint leaf_routes (rnd : nat → list byte) (i : nat) (l : bridge_list) (exit : SocketAddr)
    : M string (list RouteDescriptor) :=
  match l with
  | [] => mret []
  | (desc, delay_ms, _) :: l =>
      r ← (λ w, let '(c, r) := bridge_to_leaf_route tcp_forward (now w) (rnd i)
                    (routes_cache w) desc delay_ms exit in (set_routes_cache c w, Ok r));
      rs ← leaf_routes rnd (S i) l exit;
      mret (match r with Ok route => route :: rs | _ => rs end)
  end.

Definition broker_get_routes (rnd : nat → list byte) (token : list byte) (sig : UnblindedSignature)
    (exit : SocketAddr) : M string RouteDescriptor :=
  account_level ← lift (token_level token sig);
  raw_descriptors ← query_bridges (token_debug token);
  let raw_descriptors :=
    match account_level with
    | Free => filter (λ d, negb d.2) raw_descriptors
    | Plus => raw_descriptors
    end in
  routes ← leaf_routes rnd 0 raw_descriptors exit;
  mret (Race routes).

(** ** Handlers: vouchers and payments *)

Definition get_free_voucher (user_id : Z) : M string (option string) :=
  query (λ d, if decide (user_id ∈ users d)
              then voucher_code <$> find_first (λ v, voucher_id v =? user_id) (free_vouchers d)
              else None).

Definition delete_free_voucher (user_id : Z) : M string bool :=
  had ← get (λ w, match find_first (λ v, voucher_id v =? user_id) (free_vouchers (db w)) with
                  | Some _ => true | None => false end);
  execute (λ d, Some (set_free_vouchers (filter (λ v, voucher_id v ≠ user_id) (free_vouchers d)) d)) ;;
  mret had.

Definition broker_get_free_voucher (secret : string) : M string (option string) :=
  user_id ← map_errM auth_msg (validate_credential (Secret secret)); get_free_voucher user_id.

Definition redeem_voucher (secret code : string) : M string Z :=
  user_id ← map_errM auth_msg (validate_credential (Secret secret));
  sessid ← payment (λ p, raw_start_session p user_id);
  days ← payment (λ p, spend_giftcard p sessid code);
  delete_free_voucher user_id ;;
  mret days.

(** [days as i32]. *)
Definition create_payment (secret : string) (days : Z) (method : string) : M string string :=
  user_id ← map_errM auth_msg (validate_credential (Secret secret));
  sessid ← payment (λ p, raw_start_session p user_id);
  if String.eqb method "credit-card" then payment (λ p, start_stripe_url p sessid (cast_i 32 days))
  else if String.eqb method "wechat" then payment (λ p, start_aliwechat p sessid (cast_i 32 days) "wxpay")
  else if String.eqb method "alipay" then payment (λ p, start_aliwechat p sessid (cast_i 32 days) "alipay")
  else fail "no support for this method here"%string.

(** A user with a voucher already is skipped (its transaction is dropped). *)
Definition one_day_voucher (user_id : Z) : M string bool :=
  existing_voucher ← query (λ d, find_first (λ v, voucher_id v =? user_id) (free_vouchers d));
  match existing_voucher with
  | Some _ => mret false
  | None =>
      code ← payment (λ p, create_giftcard p 1);
      now_s ← get (λ w, now w / 1000);
      execute (insert_voucher now_s user_id code) ;;
      mret true
  end.

Fixpoint vouchers_for (uids : list Z) (created_count : Z) : M string Z :=
  match uids with
  | [] => mret created_count
  | uid :: uids =>
      created ← transaction (one_day_voucher uid);
      vouchers_for uids (if (created : bool) then created_count + 1 else created_count)
  end.

Definition create_one_day_vouchers_for_all_users : M string Z :=
  user_ids ← query (λ d, map fst (auth_secret d)); vouchers_for user_ids 0.
End broker.
