(* ===== verification/BrokerSafety.v ===== *)
(** * Who the broker signs for

    The handlers of [Broker] run in any order, interleaved with the passing of
    time, failing queries, garbage collection and what the payment service
    writes; what the caches remember stays backed by the database. *)
From Stdlib Require Import ZArith Lia.
From S2P Require Import Prelude Crypto Mizaru Protocol Text Cache Dialer Routes GetDialer BrokerDb Broker.
Local Open Scope Z_scope.

Create HintDb frame.

(** ** Frames: what a handler may change *)

Section frame.
Context `{BC : BrokerCaches} `{PS : Payment}.

(** A relation between the worlds before and after that knows nothing of
    faults and payments and survives a rollback. *)
Class WorldFrame (R : World → World → Prop) := {
  frame_preorder :: PreOrder R;
  frame_faults l w : R w (set_faults l w);
  frame_pay p w : R w (set_pay p w);
  frame_rollback w w' : R w w' → R w (set_db (set_users (next_user_id (db w')) (users (db w)) (db w)) w')
}.

Context (R : World → World → Prop) `{!WorldFrame R}.

Lemma framed_ret {E A} (a : A) : framed (E:=E) R (mret a).
Proof. intros w. done. Qed.
Lemma framed_lift {E A} (r : res E A) : framed R (lift r).
Proof. intros w. done. Qed.
Lemma framed_fail {E A} (e : E) : framed (A:=A) R (fail e).
Proof. intros w. done. Qed.
Lemma framed_get {E A} (f : World → A) : framed (E:=E) R (get f).
Proof. intros w. done. Qed.
Lemma framed_payment {A} (f : pay_state → pay_state * res string A) : framed R (payment f).
Proof. intros w. unfold payment. destruct (f (pay w)). apply frame_pay. Qed.
Lemma framed_map_err {E F A} (f : E → F) (m : M E A) : framed R m → framed R (map_errM f m).
Proof. intros Hm w. specialize (Hm w). unfold map_errM. by destruct (m w). Qed.
Lemma framed_query {A} (f : Db → A) : framed R (query f).
Proof. intros w. unfold query. destruct (faults w) as [|[] ?]; simpl; [done|apply frame_faults..]. Qed.
Lemma framed_execute f : (∀ w d, f (db w) = Some d → R w (set_db d w)) → framed R (execute f).
Proof.
  intros Hf w. unfold execute. destruct (faults w) as [|[] l]; simpl; [|apply frame_faults|].
  - destruct (f (db w)) as [d|] eqn:E; [by apply Hf|done].
  - transitivity (set_faults l w); [apply frame_faults|].
    destruct (f (db w)) as [d|] eqn:E; [by apply Hf|done].
Qed.
Lemma framed_bind' {E A B} (m : M E A) (k : A → M E B) :
  framed R m → (∀ a, framed R (k a)) → framed R (m ≫= k).
Proof. apply framed_bind, _. Qed.

Lemma framed_transaction {A} (body : M string A) : framed R body → framed R (transaction body).
Proof.
  intros Hb w. unfold transaction.
  assert (Hf : framed R (query (λ _, tt) ≫= λ _, body ≫= λ a, query (λ _, tt) ≫= λ _, mret a)).
  { repeat (apply framed_bind'; [|intros]); auto using framed_query, framed_ret. }
  specialize (Hf w). match type of Hf with R _ (?x.1) => destruct x as [w' [a|e|]] end;
    simpl in *; [done|by apply frame_rollback..].
Qed.

Lemma framed_memo {E K V} `{TtlCache K V} cache set (k : K) (init : M E V) :
  framed R init → (∀ c w, R w (set c w)) → framed R (memo cache set k init).
Proof.
  intros Hi Hs w. unfold memo. destruct (clookup _ _ _); [done|]. specialize (Hi w).
  destruct (init w) as [w' [v|e|]]; simpl in *; [|done..]. by etrans.
Qed.
Lemma framed_memo_idle {E K V} `{TtlCache K V} cache set (k : K) (init : M E V) :
  framed R init → (∀ c w, R w (set c w)) → framed R (memo_idle cache set k init).
Proof.
  intros Hi Hs w. unfold memo_idle. destruct (clookup _ _ _); [apply Hs|]. specialize (Hi w).
  destruct (init w) as [w' [v|e|]]; simpl in *; [|done..]. by etrans.
Qed.
End frame.

#[export] Hint Resolve framed_ret framed_lift framed_fail framed_get framed_payment framed_map_err
  framed_query framed_transaction : frame.
#[export] Hint Extern 1 (framed _ (mbind _ _)) => apply framed_bind'; [try apply _|..] : frame.
#[export] Hint Extern 1 (framed _ (execute _)) =>
  apply framed_execute; [try apply _|]; intros ? ? [= <-]; split; simpl; first [done | set_solver] : frame.
#[export] Hint Extern 2 (framed _ (match ?x with _ => _ end)) => destruct x : frame.
#[export] Hint Extern 1 (WorldFrame _) => apply _ : frame.

Ltac solve_frame := solve [eauto 40 with frame].

(** What most handlers leave alone: the caches of credentials, tokens and
    subscriptions; secrets only grow. *)
Section auth_frame.
Context `{BC : BrokerCaches} `{PS : Payment}.

Record frame (w w' : World) : Prop := mkFrame {
  fr_secret : auth_secret (db w) ⊆ auth_secret (db w');
  fr_password : auth_password (db w') = auth_password (db w);
  fr_tokens : auth_tokens (db w') = auth_tokens (db w);
  fr_subs : subscriptions (db w') = subscriptions (db w);
  fr_cred_cache : cred_cache w' = cred_cache w;
  fr_token_cache : token_cache w' = token_cache w;
  fr_subs_cache : subs_cache w' = subs_cache w
}.

#[local] Instance auth_frame : WorldFrame frame.
Proof.
  split.
  - split; [done|]. intros w1 w2 w3 [] []. split; [by etrans|congruence..].
  - intros l w. by split.
  - intros p w. by split.
  - intros w w' []. by split.
Qed.
End auth_frame.
#[export] Existing Instance auth_frame.

Section safety.
Context `{BC : BrokerCaches} `{PS : Payment}.
Context `{Blake3Laws} `{Ed25519Laws} `{BlindRsaLaws}.
Context `{Stdcode ExitList} `{Stdcode ExitDescriptor} `{Stdcode (Signed ExitDescriptor)}
  `{Stdcode BridgeDescriptor}.
Context (cfg : BrokerConfig).
Context (phc_parse : string → bool) (verify_password : string → string → bool).
Context (pow_valid : string → Z → string → bool).
Context (bridge_rank : SocketAddr → string → Z) (token_debug : list byte → string).
Context (tcp_forward : BridgeDescriptor → SocketAddr → B2eMetadata → option (res string SocketAddr)).
Context {CLcred : TtlCacheLaws Credential Z 86400000} {CLtok : TtlCacheLaws string (option Z) 86400000}.
Context {CLsubs : TtlCacheLaws Z (gmap Z (Z * bool)) 60000}.

Abbreviation validate_credential := (validate_credential phc_parse verify_password).

(** A credential that the database says belongs to the user. *)
Definition backed (c : Credential) (uid : Z) (d : Db) : Prop :=
  match c with
  | TestDummy => False
  | Secret s => (uid, s) ∈ auth_secret d
  | LegacyUsernamePassword u p =>
      ∃ h, (u, (uid, h)) ∈ auth_password d ∧ phc_parse h = true ∧ verify_password p h = true
  end.

Lemma backed_frame c uid w w' : frame w w' → backed c uid (db w) → backed c uid (db w').
Proof. intros []. destruct c; simpl; [done| |set_solver]. by rewrite fr_password0. Qed.

(** [S]: the users that ever had a subscription. *)
Context (S : Z → Prop).

Record auth_inv (w : World) : Prop := mkAuthInv {
  inv_cred : cache_forall (λ c uid, backed c uid (db w)) (cred_cache w);
  inv_token : cache_forall (λ tok o, ∀ uid, o = Some uid → (tok, uid) ∈ auth_tokens (db w)) (token_cache w);
  inv_subs_cache : cache_forall (λ _ m, ∀ uid, is_Some (m !! uid) → S uid) (subs_cache w);
  inv_tokens : ∀ tok uid, (tok, uid) ∈ auth_tokens (db w) → ∃ c, backed c uid (db w);
  inv_subs : ∀ uid x, (uid, x) ∈ subscriptions (db w) → S uid
}.

Lemma auth_inv_frame w w' : frame w w' → auth_inv w → auth_inv w'.
Proof.
  intros F [I1 I2 I3 I4 I5]. split.
  - rewrite (fr_cred_cache _ _ F). intros t c uid E. eapply backed_frame; [done|by eapply I1].
  - by rewrite (fr_token_cache _ _ F), (fr_tokens _ _ F).
  - by rewrite (fr_subs_cache _ _ F).
  - rewrite (fr_tokens _ _ F). intros tok uid Hin. destruct (I4 _ _ Hin) as [c Hc].
    exists c. by eapply backed_frame.
  - by rewrite (fr_subs _ _ F).
Qed.

Lemma framed_inv {E A} (m : M E A) : framed frame m → preserves auth_inv m.
Proof. intros Hm. eapply framed_hoare; [done|]. apply auth_inv_frame. Qed.

(** ** Finding rows *)

Lemma find_first_Some {A} (f : A → bool) l a : find_first f l = Some a → a ∈ l ∧ f a = true.
Proof.
  unfold find_first. destruct (filter _ l) as [|x xs] eqn:E; [done|]. intros [= ->].
  assert (Hin : a ∈ filter (λ a, f a) l) by (rewrite E; by left).
  apply list_elem_of_filter in Hin as [Hf Hin]. split; [done|]. by apply Is_true_true.
Qed.

Lemma secret_owner_Some s d uid : secret_owner s d = Some uid → (uid, s) ∈ auth_secret d.
Proof.
  unfold secret_owner. destruct (find_first _ _) as [[u s']|] eqn:E; [|done]. intros [= <-].
  apply find_first_Some in E as [Hin Hb]. by apply bool_decide_eq_true_1 in Hb as <-.
Qed.
Lemma password_row_Some u d r : password_row u d = Some r → (u, r) ∈ auth_password d.
Proof.
  unfold password_row. destruct (find_first _ _) as [[u' r']|] eqn:E; [|done]. intros [= <-].
  apply find_first_Some in E as [Hin Hb]. by apply bool_decide_eq_true_1 in Hb as <-.
Qed.
Lemma token_owner_Some tok d uid : token_owner tok d = Some uid → (tok, uid) ∈ auth_tokens d.
Proof.
  unfold token_owner. destruct (find_first _ _) as [[u' r']|] eqn:E; [|done]. intros [= <-].
  apply find_first_Some in E as [Hin Hb]. by apply bool_decide_eq_true_1 in Hb as <-.
Qed.

(** ** Credentials and tokens *)

Lemma validate_secret_spec s :
  framed frame (validate_secret s) ∧
  ∀ w w' uid, validate_secret s w = (w', Ok uid) → backed (Secret s) uid (db w').
Proof.
  split; [unfold validate_secret, rate_limited; solve_frame|].
  intros w w' uid E. apply M_bind_Ok in E as (w1 & r & E1 & E2).
  unfold rate_limited, map_errM in E1. destruct (query _ w) as [w2 r2] eqn:Eq. simplify_eq.
  destruct r2 as [o| |]; simplify_eq/=. apply query_Ok in Eq as [-> [l ->]].
  unfold lift in E2. destruct (secret_owner s (db w)) as [u|] eqn:Eo; simplify_eq/=.
  by apply secret_owner_Some.
Qed.

Lemma validate_username_pwd_spec u p :
  framed frame (validate_username_pwd phc_parse verify_password u p) ∧
  ∀ w w' uid, validate_username_pwd phc_parse verify_password u p w = (w', Ok uid) →
    backed (LegacyUsernamePassword u p) uid (db w').
Proof.
  split; [unfold validate_username_pwd, rate_limited; solve_frame|].
  intros w w' uid E. apply M_bind_Ok in E as (w1 & r & E1 & E2).
  unfold rate_limited, map_errM in E1. destruct (query _ w) as [w2 r2] eqn:Eq. simplify_eq.
  destruct r2 as [o| |]; simplify_eq/=. apply query_Ok in Eq as [-> [l ->]].
  apply M_bind_Ok in E2 as (w3 & [uid' h] & E2 & E3). unfold lift in E2.
  destruct (password_row u (db w)) as [row|] eqn:Eo; simplify_eq/=.
  apply password_row_Some in Eo. destruct (phc_parse h) eqn:Ep; [|done].
  destruct (verify_password p h) eqn:Ev; [|done]. injection E3 as <- <-. eauto.
Qed.

Lemma cred_memo_spec c (init : M AuthError Z) :
  framed frame init → (∀ w w' uid, init w = (w', Ok uid) → backed c uid (db w')) →
  hoare auth_inv (memo cred_cache set_cred_cache c init) auth_inv (λ uid w, backed c uid (db w)).
Proof.
  intros Hf Hi w Hw. unfold memo. destruct (clookup _ _ _) as [uid|] eqn:E.
  { split; [done|]. intros a [= <-]. simpl. by eapply (inv_cred w Hw). }
  assert (Hw' := auth_inv_frame _ _ (Hf w) Hw).
  destruct (init w) as [w' [uid|e|]] eqn:Ei; simpl in *; [|split; [done|by intros]..].
  assert (Hb := Hi _ _ _ Ei). split; [|by intros a [= <-]].
  destruct Hw' as [I1 I2 I3 I4 I5]. split; try done. simpl.
  by apply (cache_forall_insert 86400000).
Qed.

Lemma validate_credential_spec c :
  hoare auth_inv (validate_credential c) auth_inv (λ uid w, backed c uid (db w)).
Proof.
  apply cred_memo_spec; destruct c as [|u p|s].
  - apply (framed_fail frame).
  - apply validate_username_pwd_spec.
  - apply validate_secret_spec.
  - done.
  - apply validate_username_pwd_spec.
  - apply validate_secret_spec.
Qed.

Lemma new_auth_token_spec rnd uid c :
  hoare (λ w, auth_inv w ∧ backed c uid (db w)) (new_auth_token rnd uid) auth_inv (λ _ _, True).
Proof.
  assert (Hadd : ∀ w l, auth_inv w → backed c uid (db w) → auth_inv (set_db
    (set_auth_tokens (auth_tokens (db w) ++ [(rnd, uid)]) (db w)) (set_faults l w))).
  { intros w l [I1 I2 I3 I4 I5] Hb. split; simpl; try done.
    - intros t tok o E uid' ->. apply elem_of_app. left. by eapply I2.
    - intros tok uid' [Hin|Hin]%elem_of_app; [by apply (I4 tok)|].
      apply list_elem_of_singleton in Hin. simplify_eq. by exists c. }
  intros w [Hw Hb]. split; [|done]. unfold new_auth_token, mbind, M_bind, execute.
  destruct (faults w) as [|[] l] eqn:Ef; simpl.
  - specialize (Hadd w [] Hw Hb). destruct w; simpl in *. by subst.
  - by destruct Hw.
  - by apply Hadd.
Qed.

Lemma get_user_id_spec tok :
  hoare auth_inv (get_user_id_from_token tok) auth_inv
    (λ o w, ∀ uid, o = Some uid → (tok, uid) ∈ auth_tokens (db w)).
Proof.
  intros w Hw. unfold get_user_id_from_token, memo. destruct (clookup _ _ _) as [o|] eqn:E.
  { split; [done|]. intros a [= <-]. simpl. by eapply (inv_token w Hw). }
  assert (Hf := (framed_query frame) (token_owner tok) w).
  assert (Hw' := auth_inv_frame _ _ Hf Hw).
  destruct (query _ w) as [w' [o|e|]] eqn:Eq; simpl in *; [|split; [done|by intros]..].
  apply query_Ok in Eq as [-> [l ->]].
  assert (Hb : ∀ uid, token_owner tok (db w) = Some uid → (tok, uid) ∈ auth_tokens (db w))
    by apply token_owner_Some.
  split; [|by intros a [= <-]].
  destruct Hw' as [I1 I2 I3 I4 I5]. split; try done. simpl in *.
  by apply (cache_forall_insert 86400000).
Qed.

(** ** Subscriptions *)

Lemma subscription_map_elem l uid x : subscription_map l !! uid = Some x → (uid, x) ∈ l.
Proof. intros E%elem_of_list_to_map_2. by rewrite elem_of_reverse in E. Qed.

Lemma subs_memo_spec ts :
  hoare auth_inv (memo_idle subs_cache set_subs_cache ts (query (λ d, subscription_map (subscriptions d))))
    auth_inv (λ m _, ∀ uid, is_Some (m !! uid) → S uid).
Proof.
  assert (Hins : ∀ w t k m, auth_inv w → (∀ uid, is_Some (m !! uid) → S uid) →
    auth_inv (set_subs_cache (cinsert (subs_cache w) t k m) w)).
  { intros w t k m [I1 I2 I3 I4 I5] Hm. split; simpl; try done. by apply (cache_forall_insert 60000). }
  intros w Hw. unfold memo_idle. destruct (clookup _ _ _) as [m|] eqn:E; simpl.
  { assert (Hm : ∀ uid, is_Some (m !! uid) → S uid) by (by eapply (inv_subs_cache w Hw)).
    split; [by apply Hins|]. by intros a [= <-]. }
  assert (Hw' := auth_inv_frame _ _ ((framed_query frame) (λ d, subscription_map (subscriptions d)) w) Hw).
  destruct (query _ w) as [w' [m|e|]] eqn:Eq; simpl in *; [|split; [done|by intros]..].
  apply query_Ok in Eq as [-> [l ->]].
  assert (Hm : ∀ uid, is_Some (subscription_map (subscriptions (db w)) !! uid) → S uid).
  { intros uid [x Hx%subscription_map_elem]. by eapply (inv_subs w Hw). }
  split; [by apply Hins|]. by intros a [= <-].
Qed.

Lemma get_subscription_expiry_spec uid :
  hoare auth_inv (get_subscription_expiry uid) auth_inv (λ o _, is_Some o → S uid).
Proof.
  unfold get_subscription_expiry.
  eapply hoare_bind; [apply (framed_inv (get _)), (framed_get frame)|]. intros bucket.
  eapply hoare_bind.
  { eapply hoare_conseq; [apply (framed_inv (memo_idle ts_cache set_ts_cache bucket (query last_payment)))| |done].
    - by apply (framed_memo_idle frame); [apply (framed_query frame)|].
    - by intros w [Hw _]. }
  intros ts. eapply hoare_bind; [eapply hoare_conseq; [apply subs_memo_spec|by intros w [Hw _]|by auto]|].
  intros m. apply hoare_ret. intros w [Hw Hm]. split; [done|]. apply Hm.
Qed.

(** Reading a subscription leaves the rows of tokens where they are. *)
Lemma subscription_tokens uid :
  framed (λ w w', auth_tokens (db w') = auth_tokens (db w)) (get_subscription_expiry uid).
Proof.
  set (R := λ w w' : World, auth_tokens (db w') = auth_tokens (db w)).
  assert (WorldFrame R) by (split; [split; [done|intros ? ? ? ? ?; unfold R in *; congruence]|done..]).
  unfold get_subscription_expiry. apply (framed_bind' R); [done|]. intros bucket.
  apply (framed_bind' R); [by apply (framed_memo_idle R); [apply (framed_query R)|]|]. intros ts.
  by apply (framed_bind' R); [apply (framed_memo_idle R); [apply (framed_query R)|]|].
Qed.

Lemma record_auth_framed uid : framed frame (record_auth uid).
Proof. intros w. unfold record_auth. simpl. apply (framed_execute frame). by intros d d' [= <-]. Qed.

Lemma valid_auth_token_spec tok :
  hoare auth_inv (valid_auth_token tok) auth_inv
    (λ o w, ∀ uid level, o = Some (uid, level) →
       (tok, uid) ∈ auth_tokens (db w) ∧ (level = Plus → S uid)).
Proof.
  unfold valid_auth_token. eapply hoare_bind; [apply get_user_id_spec|]. intros [uid|].
  2:{ apply hoare_ret. intros w [Hw _]. by split. }
  intros w [Hw Htok]. specialize (Htok uid eq_refl).
  destruct (get_subscription_expiry_spec uid w Hw) as [Hw1 Hs]. pose proof (subscription_tokens uid w) as Hstay.
  unfold mbind, M_bind. destruct (get_subscription_expiry uid w) as [w1 [o|e|]]; simpl in *; [|done..].
  assert (Hf := record_auth_framed uid w1). assert (Hw2 := auth_inv_frame _ _ Hf Hw1).
  unfold record_auth in *. simpl in *. split; [done|]. intros a [= <-] uid' level [= <- <-]. split.
  - rewrite (fr_tokens _ _ Hf). by rewrite Hstay.
  - destruct o; [|done]. intros _. apply (Hs _ eq_refl). eauto.
Qed.

(** ** Runs of the broker *)

Inductive request :=
| RqAuthToken (rnd : string) (c : Credential)
| RqSubkey (level : AccountLevel) (e : Z)
| RqConnect (r : rsa_rand) (tok : string) (level : AccountLevel) (e : Z) (blind_token : list byte)
| RqUserInfo (tok : string)
| RqUserInfoByCred (c : Credential)
| RqRegister (digits : list Z) (puzzle solution : string)
| RqUpgrade (digits : list Z) (c : Credential)
| RqExits
| RqFreeExits
| RqInsertExit (d : Mac (Signed ExitDescriptor))
| RqInsertBridge (d : Mac BridgeDescriptor)
| RqRoutes (rnd : nat → list byte) (token : list byte) (sig : UnblindedSignature) (exit : SocketAddr)
| RqFreeVoucher (s : string)
| RqRedeem (s code : string)
| RqPayment (s : string) (days : Z) (method : string)
| RqGc
| RqVouchersForAll.

Abbreviation user_info_by_cred := (get_user_info_by_cred phc_parse verify_password).

Definition handle (q : request) (w : World) : World :=
  match q with
  | RqAuthToken rnd c => fst (get_auth_token phc_parse verify_password rnd c w)
  | RqSubkey level e => fst (get_mizaru_subkey cfg level e w)
  | RqConnect r tok level e bt => fst (get_connect_token cfg r tok level e bt w)
  | RqUserInfo tok => fst (get_user_info tok w)
  | RqUserInfoByCred c => fst (user_info_by_cred c w)
  | RqRegister digits puzzle solution => fst (register_user_secret cfg pow_valid digits puzzle solution w)
  | RqUpgrade digits c => fst (upgrade_to_secret phc_parse verify_password digits c w)
  | RqExits => fst (broker_get_exits cfg w)
  | RqFreeExits => fst (broker_get_free_exits cfg w)
  | RqInsertExit d => fst (insert_exit cfg d w)
  | RqInsertBridge d => fst (insert_bridge cfg d w)
  | RqRoutes rnd token sig exit =>
      fst (broker_get_routes cfg bridge_rank token_debug tcp_forward rnd token sig exit w)
  | RqFreeVoucher s => fst (broker_get_free_voucher phc_parse verify_password s w)
  | RqRedeem s code => fst (redeem_voucher phc_parse verify_password s code w)
  | RqPayment s days method => fst (create_payment phc_parse verify_password s days method w)
  | RqGc => fst (database_gc w)
  | RqVouchersForAll => fst (create_one_day_vouchers_for_all_users w)
  end.

(** What happens around the requests: time passes, the database and the
    payment service fail or not, the payment service writes subscriptions (of
    users in [S]), bridges and exits come and go. *)
Record env_step (w w' : World) : Prop := mkEnvStep {
  env_secret : auth_secret (db w') = auth_secret (db w);
  env_password : auth_password (db w') = auth_password (db w);
  env_tokens : auth_tokens (db w') = auth_tokens (db w);
  env_subs : ∀ uid x, (uid, x) ∈ subscriptions (db w') → S uid;
  env_cred_cache : cred_cache w' = cred_cache w;
  env_token_cache : token_cache w' = token_cache w;
  env_subs_cache : subs_cache w' = subs_cache w
}.

Inductive broker_step (w : World) : World → Prop :=
| step_handle q : broker_step w (handle q w)
| step_env w' : env_step w w' → broker_step w w'.

(** ** Every step keeps the invariant *)

Lemma preserves_handle {E A} (m : M E A) w : preserves auth_inv m → auth_inv w → auth_inv (fst (m w)).
Proof. intros Hm Hw. by apply Hm. Qed.

Lemma inv_bind {E A B} (m : M E A) (k : A → M E B) :
  preserves auth_inv m → (∀ a, preserves auth_inv (k a)) → preserves auth_inv (m ≫= k).
Proof.
  intros Hm Hk. eapply hoare_bind; [done|]. intros a.
  eapply hoare_conseq; [apply Hk|by intros w [Hw _]|done].
Qed.
Lemma inv_validate c : preserves auth_inv (validate_credential c).
Proof. eapply hoare_conseq; [apply validate_credential_spec|done..]. Qed.
Lemma inv_validate_str c : preserves auth_inv (map_errM auth_msg (validate_credential c)).
Proof. apply hoare_map_err, inv_validate. Qed.
Lemma inv_rate_limited {A} (m : M string A) : preserves auth_inv m → preserves auth_inv (rate_limited m).
Proof. apply hoare_map_err. Qed.
Lemma inv_valid_auth_token tok : preserves auth_inv (rate_limited (valid_auth_token tok)).
Proof. apply inv_rate_limited. eapply hoare_conseq; [apply valid_auth_token_spec|done..]. Qed.
Lemma inv_user_info uid : preserves auth_inv (user_info_of uid).
Proof.
  apply inv_bind; [|intros; by apply framed_inv, (framed_ret frame)].
  apply inv_rate_limited. eapply hoare_conseq; [apply get_subscription_expiry_spec|done..].
Qed.

Lemma framed_register digits o : framed frame (register_secret digits o).
Proof. unfold register_secret, create_user, insert_voucher. solve_frame. Qed.

Lemma framed_all_exits : framed frame get_all_exits.
Proof. apply (framed_memo frame); [apply (framed_query frame)|done]. Qed.

Lemma framed_leaf_routes rnd exit l : ∀ i, framed frame (leaf_routes tcp_forward rnd i l exit).
Proof.
  induction l as [|[[desc delay_ms] plus] l IH]; intros i; cbn [leaf_routes]; [apply (framed_ret frame)|].
  apply (framed_bind' frame); [|intros r; apply (framed_bind' frame); [apply IH|intros; apply (framed_ret frame)]].
  intros w. by destruct (bridge_to_leaf_route _ _ _ _ _ _ _).
Qed.

Lemma framed_vouchers uids : ∀ n, framed frame (vouchers_for uids n).
Proof.
  induction uids as [|uid uids IH]; intros n; cbn [vouchers_for]; [apply (framed_ret frame)|].
  apply (framed_bind' frame); [|intros; apply IH]. apply (framed_transaction frame).
  unfold one_day_voucher, insert_voucher. solve_frame.
Qed.

Lemma handle_inv q w : auth_inv w → auth_inv (handle q w).
Proof.
  destruct q; cbn [handle]; apply preserves_handle;
    unfold get_mizaru_subkey, get_connect_token, get_user_info, register_user_secret, verify_puzzle_solution,
      upgrade_to_secret, broker_get_exits, broker_get_free_exits, broker_get_routes, query_bridges,
      broker_get_free_voucher, get_free_voucher, redeem_voucher, create_payment,
      create_one_day_vouchers_for_all_users.
  - unfold get_auth_token. eapply hoare_bind; [apply validate_credential_spec|]. intros uid.
    eapply hoare_conseq; [apply hoare_map_err, (new_auth_token_spec _ _ c)|done..].
  - apply framed_inv, (framed_lift frame).
  - apply inv_bind; [apply inv_valid_auth_token|]. intros o.
    apply inv_bind; [apply framed_inv, (framed_lift frame)|]. intros [? ?].
    apply framed_inv. solve_frame.
  - apply inv_bind; [apply inv_valid_auth_token|]. intros [[? ?]|];
      [apply inv_user_info|apply framed_inv, (framed_ret frame)].
  - intros w' Hw'. pose proof (inv_validate c w' Hw') as [Hw'' _]. unfold get_user_info_by_cred.
    destruct (Broker.validate_credential _ _ c w') as [w1 [uid|[]|]]; simpl in *; try (by split).
    by apply inv_user_info.
  - apply framed_inv. apply (framed_bind' frame); [|intros; apply framed_register].
    apply (framed_bind' frame); [solve_frame|]. intros _. apply (framed_execute frame).
    intros d d'. case_decide; intros [= <-]. by split.
  - apply inv_bind; [apply inv_validate|]. intros uid. apply inv_rate_limited, framed_inv, framed_register.
  - apply framed_inv, (framed_bind' frame); [apply framed_all_exits|solve_frame].
  - apply framed_inv, (framed_bind' frame); [apply framed_all_exits|solve_frame].
  - apply framed_inv. unfold insert_exit. solve_frame.
  - apply framed_inv. unfold insert_bridge. solve_frame.
  - apply framed_inv, (framed_bind' frame); [apply (framed_lift frame)|]. intros level.
    apply (framed_bind' frame); [apply (framed_memo frame); [solve_frame|done]|]. intros l.
    apply (framed_bind' frame); [apply framed_leaf_routes|solve_frame].
  - apply inv_bind; [apply inv_validate_str|]. intros. apply framed_inv, (framed_query frame).
  - apply inv_bind; [apply inv_validate_str|]. intros. apply framed_inv.
    unfold delete_free_voucher. solve_frame.
  - apply inv_bind; [apply inv_validate_str|]. intros. apply framed_inv. solve_frame.
  - apply framed_inv. unfold database_gc. solve_frame.
  - apply framed_inv, (framed_bind' frame); [apply (framed_query frame)|]. intros. apply framed_vouchers.
Qed.

Lemma env_inv w w' : env_step w w' → auth_inv w → auth_inv w'.
Proof.
  intros [E1 E2 E3 E4 E5 E6 E7] [I1 I2 I3 I4 I5].
  assert (Hb : ∀ c uid, backed c uid (db w) → backed c uid (db w')).
  { intros [|u p|s] uid; simpl; rewrite ?E1, ?E2; done. }
  split; rewrite ?E3, ?E5, ?E6, ?E7; try done.
  - intros t c uid E. apply Hb. by eapply I1.
  - intros tok uid Hin. destruct (I4 _ _ Hin) as [c Hc]. exists c. by apply Hb.
Qed.

Lemma broker_reachable_inv w0 w : rtc broker_step w0 w → auth_inv w0 → auth_inv w.
Proof.
  induction 1 as [w|w1 w2 w3 Hs _ IH]; [done|]. intros Hi. apply IH.
  destruct Hs as [q|w' He]; [by apply handle_inv|by eapply env_inv].
Qed.

(** A broker that has just started. *)
Record initial (w : World) : Prop := mkInitial {
  init_cred : cred_cache w = cempty;
  init_token : token_cache w = cempty;
  init_subs_cache : subs_cache w = cempty;
  init_tokens : ∀ tok uid, (tok, uid) ∈ auth_tokens (db w) → ∃ c, backed c uid (db w);
  init_subs : ∀ uid x, (uid, x) ∈ subscriptions (db w) → S uid
}.

Lemma initial_inv w : initial w → auth_inv w.
Proof.
  intros [E1 E2 E3 I4 I5]. split; rewrite ?E1, ?E2, ?E3; try done.
  - apply (cache_forall_empty 86400000).
  - apply (cache_forall_empty 86400000).
  - apply (cache_forall_empty 60000).
Qed.

(** C2: the broker signs only for accounts.  Start from empty caches with every
    auth token belonging to an account, and let the broker serve any requests
    in any order while time passes, queries fail and the payment service
    writes subscriptions of users in [S].  Whenever a connect token is signed,
    the auth token belongs to a user whose credential the database holds, the
    signature is the one of the requested level's key for the requested epoch,
    and at level Plus the user is in [S]: one that never had a subscription
    never gets a Plus signature. *)
Theorem connect_token_authentic w0 w r tok level e bt w' sig :
  initial w0 → rtc broker_step w0 w →
  get_connect_token cfg r tok level e bt w = (w', Ok sig) →
  (∃ uid c, (tok, uid) ∈ auth_tokens (db w') ∧ backed c uid (db w') ∧ (level = Plus → S uid)) ∧
  blind_sign (level_sk cfg level) e bt r = Ok sig.
Proof.
  intros Hi Hr E. apply broker_reachable_inv in Hr; [|by apply initial_inv].
  apply M_bind_Ok in E as (w1 & o & E1 & E2).
  pose proof (hoare_map_err _ _ _ (λ _, RateLimited) _ (valid_auth_token_spec tok) w Hr) as [Hw1 Hq].
  unfold rate_limited in E1. rewrite E1 in Hw1, Hq. simpl in Hw1, Hq. specialize (Hq o eq_refl).
  apply M_bind_Ok in E2 as (w2 & [uid ul] & E2 & E3). unfold lift in E2. injection E2 as <- E2.
  apply ok_or_Ok in E2 as ->. destruct (Hq uid ul eq_refl) as [Htok Hplus].
  destruct (bool_decide (level = Plus) && bool_decide (ul ≠ level)) eqn:Eb; [done|].
  injection E3 as <- E3. apply map_err_Ok in E3. split; [|done].
  destruct (inv_tokens _ Hw1 _ _ Htok) as [c Hc]. exists uid, c. split_and!; [done..|].
  intros ->. apply Hplus. destruct ul; [done|done].
Qed.
End safety.

(** ** A small broker *)

Module BrokerDemo.
Import Toy.
#[export] Instance caches : BrokerCaches := {|
  bc_cred := ListCache.list_cache 86400000;
  bc_token := ListCache.list_cache 86400000;
  bc_ts := ListCache.list_cache 60000;
  bc_subs := ListCache.list_cache 60000;
  bc_exits := ListCache.list_cache 10000;
  bc_bridges := ListCache.list_cache 300000;
  bc_routes := ListCache.list_cache ROUTE_TTL
|}.
#[export] Instance cred_laws : TtlCacheLaws Credential Z 86400000 := ListCache.list_cache_laws _.
#[export] Instance token_laws : TtlCacheLaws string (option Z) 86400000 := ListCache.list_cache_laws _.
#[export] Instance subs_laws : TtlCacheLaws Z (gmap Z (Z * bool)) 60000 := ListCache.list_cache_laws _.
#[export] Instance ts_laws : TtlCacheLaws Z Z 60000 := ListCache.list_cache_laws _.
#[export] Instance exits_laws : TtlCacheLaws unit ExitList 10000 := ListCache.list_cache_laws _.
(** Encodings are not read back here. *)
#[export] Instance exits_code : Stdcode ExitList := {| stdcode _ := [x01]; deserialize _ := None |}.
#[export] Instance exit_code : Stdcode ExitDescriptor := {| stdcode _ := [x02]; deserialize _ := None |}.
#[export] Instance signed_code : Stdcode (Signed ExitDescriptor) := {| stdcode _ := [x03]; deserialize _ := None |}.
#[export] Instance bridge_code : Stdcode BridgeDescriptor := {| stdcode _ := [x04]; deserialize _ := None |}.
#[export] Instance payments : Payment := {|
  pay_state := Z;
  raw_start_session p uid := (p, Ok "session"%string);
  start_stripe_url p s days := (p, Ok "url"%string);
  start_aliwechat p s days m := (p, Ok "url"%string);
  create_giftcard p days := (p + 1, Ok "card"%string);
  spend_giftcard p s code := (p, Ok 1)
|}.
Definition keys : list (@rsa_sk Toy.rsa) := [[x01]; [x02]; [x03]; [x04]].
Definition rand : @rsa_rand Toy.rsa := tt.
Definition config : BrokerConfig :=
  mkBrokerConfig (generate keys) (generate keys) [x05] [x06] [x07] 1.
Definition db0 : Db :=
  mkDb 8 [7] [(7, "abc"%string)] [] [] [(7, (900, false))] 3 [] ∅ ∅ ∅ ∅ ∅.
Definition w0 : World :=
  mkWorld db0 [] 0 0 cempty cempty cempty cempty cempty cempty cempty.
Definition parse (s : string) : bool := true.
Definition verify (p h : string) : bool := bool_decide (p = h).
Definition w1 : World := fst (get_auth_token parse verify "tok" (Secret "abc") w0).
Definition pow (p : string) (d : Z) (s : string) : bool := true.
End BrokerDemo.
Import Toy BrokerDemo.

Lemma connect_token_authentic_witness :
  ∃ w' sig, get_connect_token BrokerDemo.config BrokerDemo.rand "tok" Plus 2 [x0a] BrokerDemo.w1 = (w', Ok sig) ∧
    blind_sign (generate BrokerDemo.keys) 2 [x0a] BrokerDemo.rand = Ok sig.
Proof.
  destruct (get_connect_token BrokerDemo.config BrokerDemo.rand "tok" Plus 2 [x0a] BrokerDemo.w1) as [w' [sig|e|]] eqn:E;
    [|vm_compute in E; discriminate..].
  exists w', sig. split; [done|].
  refine (proj2 (connect_token_authentic BrokerDemo.config BrokerDemo.parse BrokerDemo.verify BrokerDemo.pow
    (λ _ _, 0) (λ _, ""%string) (λ _ _ _, None) (λ uid, uid = 7) BrokerDemo.w0 BrokerDemo.w1
    BrokerDemo.rand "tok" Plus 2 [x0a] w' sig _ _ E)).
  - split; [done..| |]; [by intros ? ? ?%elem_of_nil|].
    intros uid x Hin. apply list_elem_of_singleton in Hin. by simplify_eq.
  - apply rtc_once. exact (step_handle _ _ _ _ _ _ _ _ _ (RqAuthToken "tok" (Secret "abc"))).
Defined.
