(* ===== verification/BrokerLive.v ===== *)
(** * What the broker's answers are good for

    A user can register and obtain a connect token that the exits accept; a
    registration happens entirely or not at all; the published exits are the
    ones that announced themselves; free users get no Plus bridges; and what
    the subscription cache misses. *)
From Stdlib Require Import ZArith Lia.
From S2P Require Import Prelude Crypto Mizaru Protocol Text Cache Dialer Routes GetDialer BrokerDb Broker BrokerSafety.
Local Open Scope Z_scope.

Section live.
Context `{BC : BrokerCaches} `{PS : Payment}.
Context `{Blake3Laws} `{Ed25519Laws} `{BlindRsaLaws}.
Context `{Stdcode ExitList} `{Stdcode ExitDescriptor} `{Stdcode (Signed ExitDescriptor)}
  `{Stdcode BridgeDescriptor}.
Context (cfg : BrokerConfig).
Context (phc_parse : string → bool) (verify_password : string → string → bool).
Context (pow_valid : string → Z → string → bool).
Context {CLcred : TtlCacheLaws Credential Z 86400000} {CLtok : TtlCacheLaws string (option Z) 86400000}.
Context {CLexits : TtlCacheLaws unit ExitList 10000}.
Context (bridge_rank : SocketAddr → string → Z) (token_debug : list byte → string).
Context (tcp_forward : BridgeDescriptor → SocketAddr → B2eMetadata → option (res string SocketAddr)).

(** ** Without faults *)

Lemma query_calm {A} (f : Db → A) w : faults w = [] → query f w = (w, Ok (f (db w))).
Proof. intros E. unfold query. by rewrite E. Qed.
Lemma execute_calm f w d : faults w = [] → f (db w) = Some d → execute f w = (set_db d w, Ok tt).
Proof. intros E Ef. unfold execute. by rewrite E, Ef. Qed.

Lemma find_first_app_r {A} (f : A → bool) l a :
  find_first f l = None → f a = true → find_first f (l ++ [a]) = Some a.
Proof.
  unfold find_first. intros E Ha. rewrite filter_app. destruct (filter _ l); [|done]. simpl.
  rewrite filter_cons_True by by apply Is_true_true. done.
Qed.

(** What a successful registration leaves behind. *)
Lemma register_calm digits puzzle solution w p code :
  faults w = [] → pow_valid puzzle (puzzle_difficulty cfg) solution = true →
  puzzle ∉ used_puzzles (db w) → secret_of (next_user_id (db w)) (db w) = None →
  create_giftcard (pay w) 1 = (p, Ok code) →
  ∃ d, register_user_secret cfg pow_valid digits puzzle solution w
         = (set_pay p (set_db d w), Ok (make_secret digits)) ∧
    auth_secret d = auth_secret (db w) ++ [(next_user_id (db w), make_secret digits)] ∧
    auth_tokens d = auth_tokens (db w) ∧ subscriptions d = subscriptions (db w) ∧
    users d = users (db w) ++ [next_user_id (db w)] ∧ puzzle ∈ used_puzzles d.
Proof.
  intros Ef Ep Hp Hs Hc. destruct w as [d fl n py cc tc tsc sc ec bc rc]. simpl in *. subst fl.
  unfold register_user_secret, verify_puzzle_solution, register_secret, create_user, transaction.
  unfold mbind, M_bind, get, query, execute. rewrite Ep. simpl.
  rewrite decide_False by done. simpl.
  change (secret_of (next_user_id d) _) with (secret_of (next_user_id d) d). rewrite Hs. simpl.
  unfold payment. simpl. rewrite Hc. simpl.
  eexists. split; [reflexivity|]. simpl. split_and!; [done..|set_solver].
Qed.

Lemma auth_token_calm rnd s w uid :
  faults w = [] → clookup (cred_cache w) (now w) (Secret s) = None → secret_owner s (db w) = Some uid →
  ∃ w', get_auth_token phc_parse verify_password rnd (Secret s) w = (w', Ok rnd) ∧
    faults w' = [] ∧ now w' = now w ∧ token_cache w' = token_cache w ∧
    auth_tokens (db w') = auth_tokens (db w) ++ [(rnd, uid)].
Proof.
  intros Ef Ec Es. unfold get_auth_token, validate_credential, memo, validate_secret, rate_limited,
    new_auth_token, map_errM, lift.
  unfold mbind, M_bind. rewrite Ec, query_calm, Es by done. simpl.
  unfold execute. simpl. rewrite Ef. simpl. eexists. split; [reflexivity|]. by split_and!.
Qed.

Lemma memo_idle_calm {E K V} `{TtlCache K V} cache set (k : K) (init : M E V) w v w' :
  (∀ c w, faults w = [] → faults (set c w) = []) →
  faults w = [] → init w = (w', Ok v) → faults w' = [] →
  ∃ v' w'', memo_idle cache set k init w = (w'', Ok v') ∧ faults w'' = [].
Proof.
  intros Hset Ef Ei Ef'. unfold memo_idle. destruct (clookup _ _ _) as [v0|]; [by eauto|].
  rewrite Ei. eauto.
Qed.

Lemma subscription_calm uid w : faults w = [] →
  ∃ w' o, get_subscription_expiry uid w = (w', Ok o) ∧ faults w' = [].
Proof.
  intros Ef. unfold get_subscription_expiry, mbind, M_bind, get.
  destruct (memo_idle_calm ts_cache set_ts_cache (now w / 50) (query last_payment) w _ _
    ltac:(done) Ef (query_calm _ _ Ef) Ef) as (ts & w1 & -> & E1).
  destruct (memo_idle_calm subs_cache set_subs_cache ts (query (λ d, subscription_map (subscriptions d)))
    w1 _ _ ltac:(done) E1 (query_calm _ _ E1) E1) as (m & w2 & -> & E2).
  by eexists _, _.
Qed.

Lemma connect_token_calm r tok e bt w uid sig :
  faults w = [] → clookup (token_cache w) (now w) tok = None → token_owner tok (db w) = Some uid →
  blind_sign (free_sk cfg) e bt r = Ok sig →
  ∃ w', get_connect_token cfg r tok Free e bt w = (w', Ok sig).
Proof.
  intros Ef Ec Eo Eb. unfold get_connect_token, valid_auth_token, get_user_id_from_token, memo,
    rate_limited, map_errM, lift, record_auth.
  unfold mbind, M_bind. rewrite Ec, query_calm, Eo by done. simpl.
  match goal with |- context [get_subscription_expiry uid ?w1] =>
    destruct (subscription_calm uid w1) as (w2 & o & E2 & Ef2); [exact Ef|] end.
  rewrite E2. simpl. rewrite Eb. eauto.
Qed.

(** C12: a new user gets in.  On a broker whose database answers and whose
    payment service issues cards, a solved fresh puzzle registers a secret; the
    secret gives an auth token; the auth token gives a blind signature at level
    Free for any epoch the keys cover; and the unblinded token verifies under
    the Merkle root of the broker's free keys, which is what the exits check. *)
Theorem new_user_gets_in digits puzzle solution rnd w p code d keys e k token r r' :
  faults w = [] → pow_valid puzzle (puzzle_difficulty cfg) solution = true →
  puzzle ∉ used_puzzles (db w) → secret_of (next_user_id (db w)) (db w) = None →
  create_giftcard (pay w) 1 = (p, Ok code) →
  secret_owner (make_secret digits) (db w) = None →
  clookup (cred_cache w) (now w) (Secret (make_secret digits)) = None →
  token_owner rnd (db w) = None → clookup (token_cache w) (now w) rnd = None →
  free_sk cfg = generate keys → length keys = (2 ^ d)%nat → (d <= 16)%nat → 0 <= e →
  keys !! Z.to_nat e = Some k →
  ∃ w1 w2 w3 sig u root,
    register_user_secret cfg pow_valid digits puzzle solution w = (w1, Ok (make_secret digits)) ∧
    get_auth_token phc_parse verify_password rnd (Secret (make_secret digits)) w1 = (w2, Ok rnd) ∧
    get_mizaru_subkey cfg Free e w2 = (w2, Ok (pk_to_der (sk_public k))) ∧
    get_connect_token cfg r' rnd Free e (fst (token_blind token (sk_public k) r)) w2 = (w3, Ok sig) ∧
    unblind sig (snd (token_blind token (sk_public k) r)) token = Ok u ∧
    to_public_key (free_sk cfg) = Ok root ∧ blind_verify root token u = Ok tt.
Proof.
  intros Ef Ep Hp Hs Hc Hso Hcc Hto Htc Hk Hl Hd He Hkey.
  destruct (register_calm digits puzzle solution w p code Ef Ep Hp Hs Hc) as (d1 & E1 & A1 & A2 & A3 & A4 & A5).
  assert (Hown : secret_owner (make_secret digits) (db (set_pay p (set_db d1 w))) = Some (next_user_id (db w))).
  { unfold secret_owner in *. simpl. rewrite A1.
    rewrite (find_first_app_r _ _ (next_user_id (db w), make_secret digits)); [done| |by apply bool_decide_true].
    by apply fmap_None in Hso. }
  destruct (auth_token_calm rnd _ (set_pay p (set_db d1 w)) _ Ef Hcc Hown) as (w2 & E2 & F2 & N2 & T2 & B2).
  assert (Htok : token_owner rnd (db w2) = Some (next_user_id (db w))).
  { unfold token_owner in *. rewrite B2. simpl. rewrite A2.
    rewrite (find_first_app_r _ _ (rnd, next_user_id (db w))); [done| |by apply bool_decide_true].
    by apply fmap_None in Hto. }
  destruct (token_roundtrip d keys e k token r r' Hl Hd He Hkey)
    as (Hsub & root & sig & u & Hroot & Hsign & Hun & Hver).
  rewrite <- Hk in Hsub, Hroot, Hsign.
  assert (Htc2 : clookup (token_cache w2) (now w2) rnd = None) by (rewrite T2, N2; exact Htc).
  destruct (connect_token_calm r' rnd e _ w2 _ sig F2 Htc2 Htok Hsign) as [w3 E3].
  exists (set_pay p (set_db d1 w)), w2, w3, sig, u, root. split_and!; try done.
  unfold get_mizaru_subkey, lift, level_sk. rewrite Hsub. done.
Qed.

(** ** The published exits *)

(** Exits leave the table, and the cached list stays. *)
Record exit_frame (w w' : World) : Prop := mkExitFrame {
  ef_rows : exits_new (db w') ⊆ exits_new (db w);
  ef_cache : exit_cache w' = exit_cache w
}.
#[local] Instance exit_frame_frame : WorldFrame exit_frame.
Proof.
  split.
  - split; [done|]. intros w1 w2 w3 [] []. split; [by etrans|congruence].
  - intros l w. by split.
  - intros p w. by split.
  - intros w w' []. by split.
Qed.

Abbreviation handle := (handle cfg phc_parse verify_password pow_valid bridge_rank token_debug tcp_forward).

Lemma exits_validate c : framed exit_frame (validate_credential phc_parse verify_password c).
Proof.
  apply (framed_memo exit_frame); [|done].
  destruct c; unfold validate_username_pwd, validate_secret, rate_limited; solve_frame.
Qed.
Lemma exits_subscription uid : framed exit_frame (get_subscription_expiry uid).
Proof.
  unfold get_subscription_expiry. apply (framed_bind' exit_frame); [solve_frame|]. intros.
  apply (framed_bind' exit_frame); [by apply (framed_memo_idle exit_frame); [apply (framed_query exit_frame)|]|].
  intros. by apply (framed_bind' exit_frame); [apply (framed_memo_idle exit_frame); [apply (framed_query exit_frame)|]|].
Qed.
Lemma exits_auth_token tok : framed exit_frame (valid_auth_token tok).
Proof.
  unfold valid_auth_token. apply (framed_bind' exit_frame).
  { by apply (framed_memo exit_frame); [apply (framed_query exit_frame)|]. }
  intros [uid|]; [|solve_frame]. apply (framed_bind' exit_frame); [apply exits_subscription|]. intros o.
  apply (framed_bind' exit_frame); [|solve_frame]. intros w. unfold record_auth. simpl.
  apply (framed_execute exit_frame). by intros w' d [= <-].
Qed.
Lemma exits_routes rnd exit l : ∀ i, framed exit_frame (leaf_routes tcp_forward rnd i l exit).
Proof.
  induction l as [|[[desc delay_ms] plus] l IH]; intros i; cbn [leaf_routes]; [solve_frame|].
  apply (framed_bind' exit_frame); [|intros r; apply (framed_bind' exit_frame); [apply IH|solve_frame]].
  intros w. by destruct (bridge_to_leaf_route _ _ _ _ _ _ _).
Qed.
Lemma exits_vouchers uids : ∀ n, framed exit_frame (vouchers_for uids n).
Proof.
  induction uids as [|uid uids IH]; intros n; cbn [vouchers_for]; [solve_frame|].
  apply (framed_bind' exit_frame); [|intros; apply IH]. apply (framed_transaction exit_frame).
  unfold one_day_voucher, insert_voucher. solve_frame.
Qed.
Lemma exits_register digits o : framed exit_frame (register_secret digits o).
Proof. unfold register_secret, create_user, insert_voucher. solve_frame. Qed.
Lemma exits_user_info uid : framed exit_frame (user_info_of uid).
Proof.
  apply (framed_bind' exit_frame); [apply (framed_map_err exit_frame), exits_subscription|solve_frame].
Qed.

(** Requests that do not touch the exits. *)
Definition exits_aside (q : request) : Prop :=
  match q with RqExits | RqFreeExits | RqInsertExit _ => False | _ => True end.

Lemma exits_handle q w : exits_aside q → exit_frame w (handle q w).
Proof.
  assert (Hbv : ∀ {E} c (f : AuthError → E) A (k : Z → M E A), (∀ uid, framed exit_frame (k uid)) →
    framed exit_frame (map_errM f (validate_credential phc_parse verify_password c) ≫= k)).
  { intros. apply (framed_bind' exit_frame); [apply (framed_map_err exit_frame), exits_validate|done]. }
  destruct q; cbn [BrokerSafety.handle]; intros Hq; try destruct Hq;
    unfold get_mizaru_subkey, get_connect_token, get_user_info, register_user_secret, verify_puzzle_solution,
      upgrade_to_secret, broker_get_routes, query_bridges, broker_get_free_voucher, get_free_voucher,
      redeem_voucher, create_payment, create_one_day_vouchers_for_all_users, get_auth_token.
  - apply (framed_bind' exit_frame); [apply exits_validate|]. unfold rate_limited, new_auth_token. solve_frame.
  - apply (framed_lift exit_frame).
  - apply (framed_bind' exit_frame); [apply (framed_map_err exit_frame), exits_auth_token|]. solve_frame.
  - apply (framed_bind' exit_frame); [apply (framed_map_err exit_frame), exits_auth_token|].
    intros [[? ?]|]; [apply exits_user_info|solve_frame].
  - unfold get_user_info_by_cred. pose proof (exits_validate c w) as Hv.
    destruct (validate_credential _ _ c w) as [w1 [uid|[]|]]; simpl in *; try done.
    etrans; [exact Hv|apply exits_user_info].
  - apply (framed_bind' exit_frame); [|intros; apply exits_register].
    apply (framed_bind' exit_frame); [solve_frame|]. intros _. apply (framed_execute exit_frame).
    intros w' d'. case_decide; by intros [= <-].
  - apply (framed_bind' exit_frame); [apply exits_validate|]. intros. apply (framed_map_err exit_frame), exits_register.
  - unfold insert_bridge. apply (framed_bind' exit_frame); solve_frame.
  - apply (framed_bind' exit_frame); [solve_frame|]. intros level.
    apply (framed_bind' exit_frame); [apply (framed_memo exit_frame); [solve_frame|done]|]. intros l.
    apply (framed_bind' exit_frame); [apply exits_routes|solve_frame].
  - apply Hbv. solve_frame.
  - apply Hbv. unfold delete_free_voucher. solve_frame.
  - apply Hbv. solve_frame.
  - unfold database_gc. apply (framed_bind' exit_frame); [solve_frame|]. intros t.
    apply (framed_bind' exit_frame); [|solve_frame]. apply (framed_execute exit_frame).
    intros w' d [= <-]. split; [|done]. simpl. apply map_filter_subseteq.
  - apply (framed_bind' exit_frame); [solve_frame|]. intros. apply exits_vouchers.
Qed.

(** The announcements that were sent to the broker. *)
Context (sent : Mac (Signed ExitDescriptor) → Prop).

(** An entry that an announcement accounts for: authenticated with the exit
    token, signed by the exit's own key, not expired when it came in at [t];
    only the expiry is replaced. *)
Definition announced (pk : list byte) (d : ExitDescriptor) : Prop :=
  ∃ m s d0 t, sent m ∧ Mac_verify m (hash (exit_token cfg)) = Ok s ∧ pubkey s = pk ∧
    Signed_verify s DOMAIN_EXIT_DESCRIPTOR (λ _, true) = Ok d0 ∧ t <= exit_expiry d0 ∧
    d = mkExit (c2e_listen d0) (b2e_listen d0) (country d0) (city d0) (load d0) (cast_u 64 (t + 10)).

Record exit_inv (w : World) : Prop := mkExitInv {
  ei_rows : ∀ pk r, exits_new (db w) !! pk = Some r → announced pk (row_exit pk r).2;
  ei_cache : cache_forall (λ _ l, ∀ pk d, (pk, d) ∈ all_exits l → announced pk d) (exit_cache w)
}.

Lemma exit_inv_frame w w' : exit_frame w w' → exit_inv w → exit_inv w'.
Proof.
  intros [F1 F2] [I1 I2]. split; [|by rewrite F2].
  intros pk r E. apply I1. by eapply lookup_weaken.
Qed.

Lemma all_exits_spec :
  hoare exit_inv get_all_exits exit_inv (λ l _, ∀ pk d, (pk, d) ∈ all_exits l → announced pk d).
Proof.
  intros w Hw. unfold get_all_exits, memo. destruct (clookup _ _ _) as [l|] eqn:E.
  { split; [done|]. intros a [= <-]. by eapply (ei_cache w Hw). }
  assert (Hw' : exit_inv (fst (query (λ d, mkExitList (map (λ p, row_exit p.1 p.2) (map_to_list (exits_new d)))) w))).
  { eapply exit_inv_frame; [apply (framed_query exit_frame)|done]. }
  destruct (query _ w) as [w' [l|e|]] eqn:Eq; simpl in *; [|split; [done|by intros]..].
  apply query_Ok in Eq as [-> [f ->]].
  assert (Hl : ∀ pk d, (pk, d) ∈ map (λ p, row_exit p.1 p.2) (map_to_list (exits_new (db w))) → announced pk d).
  { intros pk d Hin. apply list_elem_of_fmap in Hin as ([pk' r] & Ep & Hin%elem_of_map_to_list).
    pose proof (ei_rows w Hw _ _ Hin) as Ha. unfold row_exit in *. simpl in *. by simplify_eq. }
  split; [|by intros a [= <-]]. destruct Hw' as [I1 I2]. split; [done|]. simpl.
  by apply (cache_forall_insert 10000).
Qed.

Lemma insert_exit_inv m : sent m → preserves exit_inv (insert_exit cfg m).
Proof.
  intros Hm w Hw. split; [|done]. unfold insert_exit, mbind, M_bind, lift, get.
  destruct (Mac_verify m (hash (exit_token cfg))) as [s|e|] eqn:Em; simpl; [|done..].
  destruct (Signed_verify s _ _) as [d0|e|] eqn:Es; simpl; [|done..].
  destruct (Z.ltb_spec (exit_expiry d0) (now w / 1000)); [done|].
  assert (Hins : ∀ f, exit_inv (set_db (set_exits_new (<[pubkey s :=
      mkExitRow (c2e_listen d0) (b2e_listen d0) (country d0) (city d0) (load d0) (now w / 1000 + 10)]>
      (exits_new (db w))) (db w)) (set_faults f w))).
  { intros f. split; simpl; [|by apply Hw]. intros pk r [[<- <-]|[Hne Hr]]%lookup_insert_Some.
    - unfold row_exit. simpl. by exists m, s, d0, (now w / 1000).
    - by apply (ei_rows w Hw). }
  unfold execute. destruct (faults w) as [|[] f] eqn:Ef; simpl; [|by destruct Hw|apply Hins].
  specialize (Hins []). destruct w; simpl in *. by subst.
Qed.

(** Runs in which only announcements in [sent] arrive; around the requests
    anything may happen that adds no exits. *)
Inductive exit_step (w : World) : World → Prop :=
| exit_handle q : (∀ m, q = RqInsertExit m → sent m) → exit_step w (handle q w)
| exit_env w' : exit_frame w w' → exit_step w w'.

Lemma list_exits_inv {A} (f : ExitList → A) : preserves exit_inv (l ← get_all_exits; mret (f l)).
Proof.
  eapply hoare_bind; [apply all_exits_spec|]. intros l. apply hoare_ret. by intros w [Hw _].
Qed.

Lemma exit_reachable_inv w0 w : rtc exit_step w0 w → exit_inv w0 → exit_inv w.
Proof.
  induction 1 as [w|w1 w2 w3 Hs _ IH]; [done|]. intros Hi. apply IH.
  destruct Hs as [q Hq|w' He]; [|by eapply exit_inv_frame].
  destruct q; try (eapply exit_inv_frame; [by apply exits_handle|done]); cbn [BrokerSafety.handle].
  - by apply list_exits_inv.
  - by apply list_exits_inv.
  - apply insert_exit_inv; [|done]. by apply Hq.
Qed.

(** C7: the published exit list is authentic.  On any run from an empty exit
    table, whatever else the broker serves meanwhile, both lists verify under
    the master key, and every exit in them, cached or not, announced itself
    with a descriptor that carried the exit token's MAC and the signature of
    the exit's own key; the list for free users has no Plus exit. *)
Theorem exit_list_authentic w0 w (free : bool) w' s :
  exits_new (db w0) = ∅ → exit_cache w0 = cempty → rtc exit_step w0 w →
  (if free then broker_get_free_exits cfg w else broker_get_exits cfg w) = (w', Ok s) →
  Signed_verify s DOMAIN_EXIT_DESCRIPTOR (λ pk, bool_decide (pk = verifying_key (master_secret cfg)))
    = Ok (signed_inner s) ∧
  ∀ pk d, (pk, d) ∈ all_exits (signed_inner s) →
    announced pk d ∧ (free = true → is_plus_exit d = false).
Proof.
  intros E0 C0 Hr E. apply exit_reachable_inv in Hr.
  2:{ split; [by intros pk r; rewrite E0, lookup_empty|]. rewrite C0. apply (cache_forall_empty 10000). }
  destruct (all_exits_spec w Hr) as [_ Hl].
  destruct free; (apply M_bind_Ok in E as (w1 & l & E1 & E2); rewrite E1 in Hl; specialize (Hl l eq_refl);
    injection E2 as <- <-; split; [apply Signed_verify_new; by apply bool_decide_true|]); simpl.
  - intros pk d [Hf Hin]%list_elem_of_filter. split; [by apply Hl|]. intros _. simpl in Hf.
    by destruct (is_plus_exit d).
  - intros pk d Hin. split; [by apply Hl|done].
Qed.

(** ** Routes by account level *)

Context {CLroutes : TtlCacheLaws route_key (res string RouteDescriptor) ROUTE_TTL}.

Lemma leaf_routes_fit rnd exit l : ∀ i w w' rs,
  cache_forall (route_fits tcp_forward) (routes_cache w) →
  leaf_routes tcp_forward rnd i l exit w = (w', Ok rs) →
  ∀ r p, r ∈ rs → p ∈ leaves r → ∃ x, x ∈ l ∧ fits tcp_forward (erase_expiry x.1.1) exit p.
Proof.
  induction l as [|[[b delay_ms] plus] l IH]; intros i w w' rs Hc E r p Hr Hp; cbn [leaf_routes] in E.
  { injection E as _ <-. by apply elem_of_nil in Hr. }
  apply M_bind_Ok in E as (w1 & r0 & E1 & E2).
  destruct (bridge_to_leaf_route _ _ _ _ b delay_ms exit) as [c rr] eqn:Eb. injection E1 as <- <-.
  apply (get_with_forall ROUTE_TTL (route_fits tcp_forward)) in Eb as [Hc' Hr0];
    [|done|apply leaf_init_fits].
  apply M_bind_Ok in E2 as (w2 & rs' & E2 & E3). injection E3 as <- <-.
  assert (Hrest : r ∈ rs' → ∃ x, x ∈ (b, delay_ms, plus) :: l ∧ fits tcp_forward (erase_expiry x.1.1) exit p).
  { intros Hin. destruct (IH _ (set_routes_cache c w) _ _ Hc' E2 r p Hin Hp) as (x & Hx & Hf).
    exists x. split; [by right|done]. }
  destruct rr as [route|e|]; [|by apply Hrest..].
  apply elem_of_cons in Hr as [->|Hr]; [|by apply Hrest].
  exists (b, delay_ms, plus). split; [by left|].
  exact (proj1 (Forall_forall _ _) (Hr0 route eq_refl) p Hp).
Qed.

(** C30: routes by account level.  The routes served for a valid token lead only
    through bridges the key chose, every address in them is one the bridge
    forwards to the requested exit under a protocol with the same layers, and
    a token of level Free is never led through a Plus bridge. *)
Theorem routes_by_level rnd token sig exit w w' route level :
  cache_forall (route_fits tcp_forward) (routes_cache w) →
  token_level cfg token sig = Ok level →
  broker_get_routes cfg bridge_rank token_debug tcp_forward rnd token sig exit w = (w', Ok route) →
  ∃ w1 l, query_bridges bridge_rank (token_debug token) w = (w1, Ok l) ∧
    ∀ p, p ∈ leaves route → ∃ b delay_ms is_plus, (b, delay_ms, is_plus) ∈ l ∧
      (level = Free → is_plus = false) ∧ fits tcp_forward (erase_expiry b) exit p.
Proof.
  intros Hc Hl E. apply M_bind_Ok in E as (w0 & level' & E1 & E). unfold lift in E1.
  rewrite Hl in E1. injection E1 as <- <-.
  apply M_bind_Ok in E as (w1 & l & Eq & E). exists w1, l. split; [done|].
  assert (Hc1 : routes_cache w1 = routes_cache w).
  { unfold query_bridges, memo in Eq. destruct (clookup _ _ _); [by injection Eq as <- _|].
    unfold mbind, M_bind, get, execute in Eq. destruct (faults w) as [|[] f]; simplify_eq/=; done. }
  apply M_bind_Ok in E as (w2 & rs & E2 & E3). injection E3 as <- <-. simpl.
  intros p Hp. assert (Hin : ∃ r, r ∈ rs ∧ p ∈ leaves r).
  { clear -Hp. induction rs as [|r rs IH]; simpl in Hp; [by apply elem_of_nil in Hp|].
    apply elem_of_app in Hp as [Hp|Hp]; [exists r; split; [by left|done]|].
    destruct (IH Hp) as (r' & ? & ?). exists r'. split; [by right|done]. }
  destruct Hin as (r & Hr & Hpr). rewrite <- Hc1 in Hc.
  destruct (leaf_routes_fit _ _ _ _ _ _ _ Hc E2 r p Hr Hpr) as ([[b dl] pl] & Hx & Hf).
  exists b, dl, pl. simpl in Hf. destruct level.
  - apply list_elem_of_filter in Hx as [Hpl Hx]. simpl in Hpl. split_and!; [done| |done].
    by destruct pl.
  - by split_and!.
Qed.

(** ** Registration is atomic *)

(** The user a registration is for: the given one, or the next of the sequence. *)
Definition registered_id (o : option Z) (d : Db) : Z := default (next_user_id d) o.

(** C29: a registration happens entirely or not at all.  Whatever query fails, an
    error leaves every table as it was (the sequence of user ids apart); on
    success the user has the returned secret, either the one it had (and
    nothing was written but possibly the new user), or the fresh one, and then
    exactly one voucher came with it. *)
Theorem registration_atomic digits o w w' r :
  register_secret digits o w = (w', r) →
  match r with
  | Ok s =>
      (secret_of (registered_id o (db w)) (db w) = Some s ∧ auth_secret (db w') = auth_secret (db w) ∧
       free_vouchers (db w') = free_vouchers (db w)) ∨
      (secret_of (registered_id o (db w)) (db w) = None ∧ s = make_secret digits ∧
       auth_secret (db w') = auth_secret (db w) ++ [(registered_id o (db w), s)] ∧
       ∃ code, free_vouchers (db w') = free_vouchers (db w) ++
         [mkVoucher (registered_id o (db w)) code (next_visible (now w / 1000) (free_vouchers (db w)))])
  | _ => db w' = set_users (next_user_id (db w')) (users (db w)) (db w)
  end.
Proof.
  unfold register_secret, transaction, registered_id. intros E.
  match type of E with context [mbind ?k ?m w] => destruct (mbind k m w) as [w1 r1] eqn:E1 end.
  destruct r1 as [s|e|]; injection E as <- <-; [|done..].
  apply M_bind_Ok in E1 as (wa & [] & Ea & E1). apply query_Ok in Ea as [_ [l1 ->]].
  apply M_bind_Ok in E1 as (wb & s' & Eb & E1).
  apply M_bind_Ok in E1 as (wc & [] & Ec & E1). injection E1 as <- <-.
  apply query_Ok in Ec as [_ [l2 ->]]. simpl.
  apply M_bind_Ok in Eb as (wd & uid & Ed & Eb).
  assert (Hd : uid = default (next_user_id (db w)) o ∧ now wd = now w ∧
    auth_secret (db wd) = auth_secret (db w) ∧ free_vouchers (db wd) = free_vouchers (db w)).
  { destruct o as [u|]; [by injection Ed as <- <-|].
    unfold create_user, mbind, M_bind, mret, M_ret, get, execute in Ed. simpl in Ed.
    destruct l1 as [|[] l1]; simplify_eq/=; done. }
  destruct Hd as (-> & Hn & Hs & Hv).
  apply M_bind_Ok in Eb as (we & ex & Ee & Eb). apply query_Ok in Ee as [-> [l3 ->]].
  assert (Hsec : ∀ u, secret_of u (db wd) = secret_of u (db w)) by (intros; unfold secret_of; by rewrite Hs).
  rewrite Hsec in Eb. destruct (secret_of _ (db w)) as [s0|] eqn:Es.
  { injection Eb as <- <-. left. by split_and!. }
  right. unfold mbind, M_bind, mret, M_ret, execute, payment, get, insert_voucher in Eb. simpl in Eb.
  destruct l3 as [|[] l3]; simpl in Eb; [|done|];
    (destruct (create_giftcard _ _) as [p [code|e|]]; simpl in Eb; [|done..]).
  - injection Eb as <- <-. simpl. rewrite Hs, Hv, Hn. split_and!; [done..|by exists code].
  - destruct l3 as [|[] l3]; simpl in Eb; [|done|];
      injection Eb as <- <-; simpl; rewrite Hs, Hv, Hn; (split_and!; [done..|by exists code]).
Qed.

(** ** What the subscription cache misses *)

Context {CLts : TtlCacheLaws Z Z 60000} {CLsubs : TtlCacheLaws Z (gmap Z (Z * bool)) 60000}.

(** The same process later, over a database that has moved on. *)
Definition later (t : Z) (d : Db) (w : World) : World :=
  mkWorld d [] t (pay w) (cred_cache w) (token_cache w) (ts_cache w) (subs_cache w)
    (exit_cache w) (bridges_cache w) (routes_cache w).

Fixpoint subscription_reads (w : World) (reads : list (Z * Db * Z)) : list (res string (option (Z * bool))) :=
  match reads with
  | [] => []
  | (t, d, uid) :: reads =>
      let '(w, r) := get_subscription_expiry uid (later t d w) in r :: subscription_reads w reads
  end.

(** Reads less than a minute apart, from a database whose last payment was in
    second [ts]. *)
Fixpoint steady (ts t0 : Z) (reads : list (Z * Db * Z)) : Prop :=
  match reads with
  | [] => True
  | (t, d, _) :: reads => t0 <= t < t0 + 60000 ∧ last_payment d = ts ∧ steady ts t reads
  end.

Lemma subscription_read_hit w ts m uid :
  faults w = [] → last_payment (db w) = ts → cache_forall (λ _ v, v = ts) (ts_cache w) →
  clookup (subs_cache w) (now w) ts = Some m →
  ∃ w', get_subscription_expiry uid w = (w', Ok (m !! uid)) ∧
    cache_forall (λ _ v, v = ts) (ts_cache w') ∧
    subs_cache w' = cinsert (subs_cache w) (now w) ts m.
Proof.
  intros Ef El Hts Hm. unfold get_subscription_expiry, mbind, M_bind, get, memo_idle.
  destruct (clookup (ts_cache w) (now w) (now w / 50)) as [v|] eqn:Et.
  - assert (v = ts) as -> by (by eapply Hts). simpl. rewrite Hm. eexists. split; [reflexivity|].
    split; [|done]. by apply (cache_forall_insert 60000).
  - rewrite query_calm by done. simpl. rewrite El, Hm. eexists. split; [reflexivity|].
    split; [|done]. by apply (cache_forall_insert 60000).
Qed.

(** A subscription paid in the second of the last snapshot is not seen.  The
    snapshot of all subscriptions is cached under the second of the last
    payment, and every read keeps it alive for another minute.  As long as no
    payment falls in a later second and reads come less than a minute apart,
    all answers are those of the first snapshot, whatever the table holds by
    then: a user whose payment was recorded in the same second stays Free. *)
Theorem same_second_payment_unseen w ts t0 m reads :
  cache_forall (λ _ v, v = ts) (ts_cache w) →
  (∀ t, t < t0 + 60000 → clookup (subs_cache w) t ts = Some m) →
  steady ts t0 reads →
  subscription_reads w reads = map (λ x, Ok (m !! x.2)) reads.
Proof.
  revert w t0. induction reads as [|[[t d] uid] reads IH]; intros w t0 Hts Hm Hs; [done|].
  destruct Hs as (Ht & Hl & Hs). cbn [subscription_reads map].
  destruct (subscription_read_hit (later t d w) ts m uid) as (w' & E & Hts' & Hsc);
    [done..|apply Hm; simpl; lia|].
  rewrite E. f_equal. apply (IH w' t); [done| |done].
  intros t' Ht'. rewrite Hsc. simpl. by rewrite clookup_insert, decide_True.
Qed.
End live.

(** ** Witnesses *)

Import Toy BrokerDemo.

Lemma new_user_gets_in_witness :
  ∃ w1 w2 w3 sig u root,
    register_user_secret BrokerDemo.config BrokerDemo.pow [1; 2; 3] "p" "s" BrokerDemo.w0
      = (w1, Ok "9123"%string) ∧
    get_auth_token BrokerDemo.parse BrokerDemo.verify "fresh" (Secret "9123") w1 = (w2, Ok "fresh"%string) ∧
    get_connect_token BrokerDemo.config BrokerDemo.rand "fresh" Free 2
      (fst (token_blind [x0a] [x03] BrokerDemo.rand)) w2 = (w3, Ok sig) ∧
    to_public_key (free_sk BrokerDemo.config) = Ok root ∧ blind_verify root [x0a] u = Ok tt.
Proof.
  assert (E : make_secret [1; 2; 3] = "9123"%string) by (vm_compute; reflexivity).
  destruct (new_user_gets_in BrokerDemo.config BrokerDemo.parse BrokerDemo.verify BrokerDemo.pow
    [1; 2; 3] "p" "s" "fresh" BrokerDemo.w0 1 "card" 2 BrokerDemo.keys 2 [x03] [x0a]
    BrokerDemo.rand BrokerDemo.rand) as (w1 & w2 & w3 & sig & u & root & E1 & E2 & _ & E3 & _ & E4 & E5);
    try (vm_compute; reflexivity); [set_solver|lia|lia|].
  rewrite E in E1, E2. exists w1, w2, w3, sig, u, root. by split_and!.
Defined.

Module LiveDemo.
Definition sk : list byte := [x09].
Definition descriptor : ExitDescriptor :=
  mkExit (mkAddr (V4 9) 1) (mkAddr (V4 9) 2) "CAN" "Montreal" (Floats.SpecFloat.S754_zero false) 100.
Definition announcement : Mac (Signed ExitDescriptor) :=
  Mac_new (Signed_new descriptor DOMAIN_EXIT_DESCRIPTOR sk) (hash (exit_token BrokerDemo.config)).
Definition w1 : World := fst (insert_exit BrokerDemo.config announcement BrokerDemo.w0).
Definition route_db : Db :=
  mkDb 8 [7] [] [] [] [] 3 [] ∅ ∅ {[ mkAddr (V4 7) 1 := mkBridgeRow "c" "main" 100 0 ]} ∅ ∅.
Definition route_w : World := mkWorld route_db [] 0 0 cempty cempty cempty cempty cempty cempty cempty.
#[export] Instance routes_laws : TtlCacheLaws route_key (res string RouteDescriptor) ROUTE_TTL :=
  ListCache.list_cache_laws _.
(** A free token, signed with the key of epoch 2. *)
Definition plus_keys : list (@rsa_sk Toy.rsa) := [[x11]; [x12]; [x13]; [x14]].
Definition config : BrokerConfig :=
  mkBrokerConfig (generate BrokerDemo.keys) (generate plus_keys) [x05] [x06] [x07] 1.
Definition sig : UnblindedSignature :=
  match blind_sign (generate BrokerDemo.keys) 2 [x0a] BrokerDemo.rand with
  | Ok s => match unblind s tt [x0a] with Ok u => u | _ => mkUnblinded 0 [] [] [] end
  | _ => mkUnblinded 0 [] [] []
  end.
Definition snapshot : gmap Z (Z * bool) := {[ 7 := (900, false) ]}.
Definition snap_w : World := fst (get_subscription_expiry 7 BrokerDemo.w0).
Definition late_db : Db := mkDb 8 [7] [] [] [] [(7, (900, false)); (8, (950, false))] 3 [] ∅ ∅ ∅ ∅ ∅.
End LiveDemo.
Import LiveDemo.

Lemma exit_list_authentic_witness :
  ∃ s, (broker_get_free_exits BrokerDemo.config LiveDemo.w1).2 = Ok s ∧
    ∀ pk d, (pk, d) ∈ all_exits (signed_inner s) →
      announced BrokerDemo.config (λ m, m = LiveDemo.announcement) pk d ∧ (true = true → is_plus_exit d = false).
Proof.
  destruct (broker_get_free_exits BrokerDemo.config LiveDemo.w1) as [w' [s|e|]] eqn:E;
    [|vm_compute in E; discriminate..].
  exists s. split; [done|].
  refine (proj2 (exit_list_authentic BrokerDemo.config BrokerDemo.parse BrokerDemo.verify BrokerDemo.pow
    (λ _ _, 0) (λ _, ""%string) (λ _ _ _, None) (λ m, m = LiveDemo.announcement)
    BrokerDemo.w0 LiveDemo.w1 true w' s eq_refl eq_refl _ E)).
  apply rtc_once. apply (exit_handle BrokerDemo.config BrokerDemo.parse BrokerDemo.verify BrokerDemo.pow
    (λ _ _, 0) (λ _, ""%string) (λ _ _ _, None) _ BrokerDemo.w0 (RqInsertExit LiveDemo.announcement)).
  by intros m [= <-].
Defined.

Lemma routes_by_level_witness :
  ∃ w' route, broker_get_routes LiveDemo.config (λ _ _, 0) (λ _, ""%string) RoutesDemo.forward (λ _, [])
      [x0a] LiveDemo.sig RoutesDemo.exit LiveDemo.route_w = (w', Ok route) ∧
    leaves route ≠ [] ∧
    ∀ p, p ∈ leaves route → ∃ b, fits RoutesDemo.forward (erase_expiry b) RoutesDemo.exit p.
Proof.
  destruct (broker_get_routes LiveDemo.config (λ _ _, 0) (λ _, ""%string) RoutesDemo.forward (λ _, [])
      [x0a] LiveDemo.sig RoutesDemo.exit LiveDemo.route_w) as [w' [route|e|]] eqn:E; [|vm_compute in E; discriminate..].
  exists w', route. split; [done|]. split.
  { vm_compute in E. injection E as _ <-. discriminate. }
  destruct (routes_by_level LiveDemo.config (λ _ _, 0) (λ _, ""%string) RoutesDemo.forward (λ _, [])
    [x0a] LiveDemo.sig RoutesDemo.exit LiveDemo.route_w w' route Free) as (w1 & l & _ & Hl);
    [apply (cache_forall_empty ROUTE_TTL)|vm_compute; reflexivity|exact E|].
  intros p Hp. destruct (Hl p Hp) as (b & _ & _ & _ & _ & Hf). by exists b.
Defined.

Lemma registration_atomic_witness :
  ∃ w' s, register_secret [4; 5] None BrokerDemo.w0 = (w', Ok s) ∧
    ((secret_of 8 (db BrokerDemo.w0) = Some s ∧ auth_secret (db w') = auth_secret (db BrokerDemo.w0) ∧
       free_vouchers (db w') = free_vouchers (db BrokerDemo.w0)) ∨
     (secret_of 8 (db BrokerDemo.w0) = None ∧ s = make_secret [4; 5] ∧
       auth_secret (db w') = auth_secret (db BrokerDemo.w0) ++ [(8, s)] ∧
       ∃ code, free_vouchers (db w') = free_vouchers (db BrokerDemo.w0) ++
         [mkVoucher 8 code (next_visible 0 (free_vouchers (db BrokerDemo.w0)))])).
Proof.
  destruct (register_secret [4; 5] None BrokerDemo.w0) as [w' [s|e|]] eqn:E; [|vm_compute in E; discriminate..].
  exists w', s. split; [done|]. exact (registration_atomic [4; 5] None BrokerDemo.w0 w' (Ok s) E).
Defined.

Lemma same_second_payment_unseen_witness :
  subscription_reads LiveDemo.snap_w [(30000, LiveDemo.late_db, 8); (80000, LiveDemo.late_db, 8)]
  = [Ok None; Ok None].
Proof.
  refine (same_second_payment_unseen LiveDemo.snap_w 3 0 LiveDemo.snapshot
    [(30000, LiveDemo.late_db, 8); (80000, LiveDemo.late_db, 8)] _ _ _).
  - intros t k v. vm_compute. intros Hx. repeat case_match; by simplify_eq.
  - intros t Ht. change (clookup (subs_cache LiveDemo.snap_w) t 3) with
      (if decide (t < 0 + 60000) then Some LiveDemo.snapshot else None). by rewrite decide_True.
  - simpl. split_and!; done || lia.
Defined.
