(* ===== verification/ExitNet.v ===== *)
(** * What an exit connects to, and from where
    (binaries/geph5-exit/src/{allow,proxy,ipv6,dns}.rs)

    [proxy_allowed] keeps clients off private networks, [proxy_stream] decides
    what a stream's metadata asks for, [random_ipv6_in_net] draws the session's
    own address.  Name resolution is a parameter; addresses are numbers. *)
From Stdlib Require Import ZArith Lia Btauto.
From S2P Require Import Prelude Crypto Protocol Text Cache.
Local Open Scope Z_scope.

(** ** The standard library's classes of addresses *)

Definition v4_is_private (a : Z) : bool :=
  (octet 0 a =? 10) || ((octet 0 a =? 172) && (16 <=? octet 1 a) && (octet 1 a <=? 31))
  || ((octet 0 a =? 192) && (octet 1 a =? 168)).
Definition v4_is_loopback (a : Z) : bool := octet 0 a =? 127.
Definition v4_is_link_local (a : Z) : bool := (octet 0 a =? 169) && (octet 1 a =? 254).
Definition v4_is_broadcast (a : Z) : bool := a =? 2 ^ 32 - 1.
Definition v4_is_documentation (a : Z) : bool :=
  ((octet 0 a =? 192) && (octet 1 a =? 0) && (octet 2 a =? 2))
  || ((octet 0 a =? 198) && (octet 1 a =? 51) && (octet 2 a =? 100))
  || ((octet 0 a =? 203) && (octet 1 a =? 0) && (octet 2 a =? 113)).
Definition v4_is_unspecified (a : Z) : bool := a =? 0.
Definition v6_is_loopback (a : Z) : bool := a =? 1.
Definition v6_is_unspecified (a : Z) : bool := a =? 0.
Definition v6_is_multicast (a : Z) : bool := Z.land (segment 0 a) 65280 =? 65280.

(** ** allow.rs *)

Definition is_ipv4_shared_address (a : Z) : bool :=
  (octet 0 a =? 100) && (Z.land (octet 1 a) 192 =? 64).
Definition is_ipv4_ietf_protocol_assignment (a : Z) : bool :=
  (octet 0 a =? 192) && (octet 1 a =? 0) && (octet 2 a =? 0).
Definition is_ipv4_reserved (a : Z) : bool :=
  (Z.land (octet 0 a) 240 =? 240) && negb (v4_is_broadcast a).
Definition is_ipv4_benchmarking (a : Z) : bool :=
  (octet 0 a =? 198) && (Z.land (octet 1 a) 254 =? 18).
Definition is_ipv6_unique_local (a : Z) : bool := Z.land (segment 0 a) 65024 =? 64512.
Definition is_ipv6_link_local (a : Z) : bool := Z.land (segment 0 a) 65472 =? 65152.

Definition is_ipv4_globally_routable (a : Z) : bool :=
  negb (v4_is_private a) && negb (v4_is_loopback a) && negb (v4_is_link_local a)
  && negb (v4_is_broadcast a) && negb (v4_is_documentation a) && negb (v4_is_unspecified a)
  && negb (is_ipv4_shared_address a) && negb (is_ipv4_ietf_protocol_assignment a)
  && negb (is_ipv4_reserved a) && negb (is_ipv4_benchmarking a).
Definition is_ipv6_globally_routable (a : Z) : bool :=
  negb (v6_is_loopback a) && negb (v6_is_unspecified a) && negb (v6_is_multicast a)
  && negb (is_ipv6_unique_local a) && negb (is_ipv6_link_local a).
Definition is_globally_routable (a : IpAddr) : bool :=
  match a with V4 a => is_ipv4_globally_routable a | V6 a => is_ipv6_globally_routable a end.

Definition proxy_allowed (free_port_whitelist : list Z) (addr : SocketAddr) (is_free : bool) : bool :=
  if is_free && negb (bool_decide (port addr ∈ free_port_whitelist)) then false
  else is_globally_routable (ip addr).

(** ** The same in CIDR notation *)

(** [a] is in the block of [len] leading bits of [net] ([w]-bit addresses). *)
Definition in_block (w : Z) (a : Z) (b : Z * Z) : bool :=
  a / 2 ^ (w - b.2) =? b.1 / 2 ^ (w - b.2).

Definition v4 (a b c d : Z) : Z := ((a * 256 + b) * 256 + c) * 256 + d.
Definition v6 (s : Z) : Z := s * 2 ^ 112.

Definition forbidden_v4 : list (Z * Z) :=
  [ (v4 10 0 0 0, 8); (v4 172 16 0 0, 12); (v4 192 168 0 0, 16);       (* private *)
    (v4 127 0 0 0, 8); (v4 169 254 0 0, 16);                          (* loopback, link local *)
    (v4 192 0 2 0, 24); (v4 198 51 100 0, 24); (v4 203 0 113 0, 24);   (* documentation *)
    (v4 0 0 0 0, 32); (v4 100 64 0 0, 10); (v4 192 0 0 0, 24);         (* unspecified, shared, IETF *)
    (v4 240 0 0 0, 4); (v4 198 18 0 0, 15) ].                         (* reserved, benchmarking *)
Definition forbidden_v6 : list (Z * Z) :=
  [ (1, 128); (0, 128); (v6 65280, 8); (v6 64512, 7); (v6 65152, 10) ].

Definition forbidden (a : IpAddr) : bool :=
  match a with
  | V4 a => existsb (in_block 32 a) forbidden_v4
  | V6 a => existsb (in_block 128 a) forbidden_v6
  end.

Definition valid_ip (a : IpAddr) : Prop :=
  match a with V4 a => 0 <= a < 2 ^ 32 | V6 a => 0 <= a < 2 ^ 128 end.

(** Octets and groups by division. *)
Lemma octet_div i a : 0 <= i <= 3 → octet i a = (a / 2 ^ (8 * (3 - i))) mod 256.
Proof.
  intros Hi. unfold octet. rewrite Z.shiftr_div_pow2 by lia.
  change 255 with (Z.ones 8). by rewrite Z.land_ones by lia.
Qed.
Lemma segment_div i a : 0 <= i <= 7 → segment i a = (a / 2 ^ (16 * (7 - i))) mod 65536.
Proof.
  intros Hi. unfold segment. rewrite Z.shiftr_div_pow2 by lia.
  change 65535 with (Z.ones 16). by rewrite Z.land_ones by lia.
Qed.

(** A mask of leading bits compares quotients. *)
Lemma land_mask k n s : 0 <= n <= k → 0 <= s < 2 ^ k →
  Z.land s (Z.shiftl (Z.ones (k - n)) n) = s / 2 ^ n * 2 ^ n.
Proof.
  intros Hn Hs. rewrite <- Z.shiftl_mul_pow2, <- Z.shiftr_div_pow2 by lia.
  apply Z.bits_inj'. intros i Hi. rewrite Z.land_spec, !Z.shiftl_spec by lia.
  destruct (decide (i < n)) as [Hl|Hl].
  { rewrite !(Z.testbit_neg_r _ (i - n)) by lia. by rewrite andb_false_r. }
  rewrite Z.shiftr_spec by lia. replace (i - n + n) with i by lia.
  destruct (decide (i < k)) as [Hk|Hk].
  - rewrite Z.ones_spec_low by lia. by rewrite andb_true_r.
  - rewrite Z.ones_spec_high by lia. rewrite andb_false_r. symmetry.
    destruct (decide (s = 0)) as [->|Hz]; [apply Z.testbit_0_l|].
    apply Z.bits_above_log2; [lia|]. apply Z.log2_lt_pow2; [lia|].
    apply (Z.lt_le_trans _ (2 ^ k)); [lia|]. apply Z.pow_le_mono_r; lia.
Qed.

Lemma mask_eqb k n q s : 0 <= n <= k → 0 <= s < 2 ^ k →
  (Z.land s (Z.shiftl (Z.ones (k - n)) n) =? q * 2 ^ n) = (s / 2 ^ n =? q).
Proof.
  intros Hn Hs. rewrite land_mask by done. apply eq_true_iff_eq. rewrite !Z.eqb_eq. nia.
Qed.

Lemma v4_octets a : 0 <= a < 2 ^ 32 → ∃ o0 o1 o2 o3,
  a = v4 o0 o1 o2 o3 ∧ 0 <= o0 < 256 ∧ 0 <= o1 < 256 ∧ 0 <= o2 < 256 ∧ 0 <= o3 < 256.
Proof.
  intros Ha. exists (a / 2 ^ 24), (a / 2 ^ 16 mod 256), (a / 2 ^ 8 mod 256), (a mod 256).
  unfold v4. split_and!; Z.to_euclidean_division_equations; lia.
Qed.

Section v4_blocks.
Context (o0 o1 o2 o3 : Z) (H0 : 0 <= o0 < 256) (H1 : 0 <= o1 < 256) (H2 : 0 <= o2 < 256) (H3 : 0 <= o3 < 256).
Abbreviation a := (v4 o0 o1 o2 o3).

Lemma octet0 : octet 0 a = o0.
Proof. rewrite octet_div by lia. unfold v4. Z.to_euclidean_division_equations; lia. Qed.
Lemma octet1 : octet 1 a = o1.
Proof. rewrite octet_div by lia. unfold v4. Z.to_euclidean_division_equations; lia. Qed.
Lemma octet2 : octet 2 a = o2.
Proof. rewrite octet_div by lia. unfold v4. Z.to_euclidean_division_equations; lia. Qed.

(** The quotients the block tests are about. *)
Lemma quot24 : a / 2 ^ 24 = o0.
Proof. unfold v4. Z.to_euclidean_division_equations; lia. Qed.
Lemma quot16 : a / 2 ^ 16 = o0 * 256 + o1.
Proof. unfold v4. Z.to_euclidean_division_equations; lia. Qed.
Lemma quot8 : a / 2 ^ 8 = (o0 * 256 + o1) * 256 + o2.
Proof. unfold v4. Z.to_euclidean_division_equations; lia. Qed.
Lemma quot28 : a / 2 ^ 28 = o0 / 16.
Proof. unfold v4. Z.to_euclidean_division_equations; lia. Qed.
Lemma quot22 : a / 2 ^ 22 = o0 * 4 + o1 / 64.
Proof. unfold v4. Z.to_euclidean_division_equations; lia. Qed.
Lemma quot20 : a / 2 ^ 20 = o0 * 16 + o1 / 16.
Proof. unfold v4. Z.to_euclidean_division_equations; lia. Qed.
Lemma quot17 : a / 2 ^ 17 = o0 * 128 + o1 / 2.
Proof. unfold v4. Z.to_euclidean_division_equations; lia. Qed.
End v4_blocks.

(** Numbers written with a last digit agree digit by digit. *)
Lemma digit_eqb k a b x y : 0 <= b < k → 0 <= y < k → (a * k + b =? x * k + y) = (a =? x) && (b =? y).
Proof.
  intros Hb Hy. apply eq_true_iff_eq. rewrite andb_true_iff, !Z.eqb_eq. split; [|by intros [-> ->]].
  intros E. assert (a = x) as ->; [|lia].
  apply (f_equal (λ z, z / k)) in E. rewrite !Z.div_add_l, !Z.div_small in E by lia. lia.
Qed.

Lemma div16_range o : 0 <= o < 256 → (o / 16 =? 1) = (16 <=? o) && (o <=? 31).
Proof.
  intros Ho. apply eq_true_iff_eq. rewrite andb_true_iff, Z.eqb_eq, !Z.leb_le.
  Z.to_euclidean_division_equations; lia.
Qed.

Lemma div_digit o d : 0 <= o < 256 → 0 < d → 0 <= o / d <= o.
Proof. intros. split; [apply Z.div_pos; lia|]. apply Z.div_le_upper_bound; nia. Qed.

Lemma routable_v4 a : 0 <= a < 2 ^ 32 →
  is_ipv4_globally_routable a = negb (existsb (in_block 32 a) forbidden_v4).
Proof.
  intros (o0 & o1 & o2 & o3 & -> & H0 & H1 & H2 & H3)%v4_octets.
  assert (M192 : (Z.land o1 192 =? 64) = (o1 / 64 =? 1))
    by exact (mask_eqb 8 6 1 o1 ltac:(lia) H1).
  assert (M240 : (Z.land o0 240 =? 240) = (o0 / 16 =? 15))
    by exact (mask_eqb 8 4 15 o0 ltac:(lia) H0).
  assert (M254 : (Z.land o1 254 =? 18) = (o1 / 2 =? 9))
    by exact (mask_eqb 8 1 9 o1 ltac:(lia) H1).
  unfold is_ipv4_globally_routable, v4_is_private, v4_is_loopback, v4_is_link_local, v4_is_broadcast,
    v4_is_documentation, v4_is_unspecified, is_ipv4_shared_address, is_ipv4_ietf_protocol_assignment,
    is_ipv4_reserved, is_ipv4_benchmarking, v4_is_broadcast, in_block, forbidden_v4, existsb.
  rewrite octet0, octet1, octet2, M192, M240, M254 by lia. cbn [fst snd].
  rewrite !Z.sub_diag. change (32 - 8) with 24. change (32 - 12) with 20. change (32 - 16) with 16.
  change (32 - 24) with 8. change (32 - 10) with 22. change (32 - 4) with 28. change (32 - 15) with 17.
  rewrite !quot24, !quot16, !quot8, !quot28, !quot22, !quot20, !quot17 by lia.
  change (2 ^ 0) with 1. rewrite !Z.div_1_r.
  change (16 / 16) with 1. change (64 / 64) with 1. change (18 / 2) with 9.
  rewrite (digit_eqb 16), (digit_eqb 4), (digit_eqb 128), div16_range, !(digit_eqb 256)
    by (try lia; Z.to_euclidean_division_equations; lia).
  assert (Bc : (v4 o0 o1 o2 o3 =? 2 ^ 32 - 1) = true → (o0 / 16 =? 15) = true).
  { unfold v4. intros E%Z.eqb_eq. assert (o0 = 255) as -> by lia. done. }
  change (v4 0 0 0 0) with 0. change (240 / 16) with 15.
  destruct (v4 o0 o1 o2 o3 =? 2 ^ 32 - 1); [rewrite Bc by done|]; btauto.
Qed.

Lemma routable_v6 a : 0 <= a < 2 ^ 128 →
  is_ipv6_globally_routable a = negb (existsb (in_block 128 a) forbidden_v6).
Proof.
  intros Ha. set (s := a / 2 ^ 112). assert (Hs : 0 <= s < 65536).
  { unfold s. Z.to_euclidean_division_equations; lia. }
  assert (Hseg : segment 0 a = s).
  { rewrite segment_div by lia. change (16 * (7 - 0)) with 112. fold s. by apply Z.mod_small. }
  assert (Hq : ∀ n, 0 <= n → a / 2 ^ (112 + n) = s / 2 ^ n).
  { intros n Hn. unfold s. rewrite Z.pow_add_r, Z.div_div by lia. done. }
  unfold is_ipv6_globally_routable, v6_is_loopback, v6_is_unspecified, v6_is_multicast,
    is_ipv6_unique_local, is_ipv6_link_local, in_block, forbidden_v6, existsb. cbn [fst snd].
  rewrite Hseg, !Z.sub_diag. change (128 - 8) with (112 + 8). change (128 - 7) with (112 + 9).
  change (128 - 10) with (112 + 6). rewrite !Hq by lia. change (2 ^ 0) with 1. rewrite !Z.div_1_r.
  assert (M8 : (Z.land s 65280 =? 65280) = (s / 256 =? 255)) by exact (mask_eqb 16 8 255 s ltac:(lia) Hs).
  assert (M9 : (Z.land s 65024 =? 64512) = (s / 512 =? 126)) by exact (mask_eqb 16 9 126 s ltac:(lia) Hs).
  assert (M6 : (Z.land s 65472 =? 65152) = (s / 64 =? 1018)) by exact (mask_eqb 16 6 1018 s ltac:(lia) Hs).
  rewrite M8, M9, M6.
  change (v6 65280 / 2 ^ (112 + 8)) with 255. change (v6 64512 / 2 ^ (112 + 9)) with 126.
  change (v6 65152 / 2 ^ (112 + 6)) with 1018.
  change (2 ^ 8) with 256. change (2 ^ 9) with 512. change (2 ^ 6) with 64. btauto.
Qed.

(** A valid address is routable exactly when no forbidden block contains it. *)
Lemma routable_forbidden a : valid_ip a → is_globally_routable a = negb (forbidden a).
Proof. destruct a; simpl; [apply routable_v4|apply routable_v6]. Qed.

(** ** Resolution and proxying *)

Definition colon : Ascii.ascii := Ascii.ascii_of_nat 58.
Definition dollar : Ascii.ascii := Ascii.ascii_of_nat 36.

(** The record data of an answer. *)
Inductive RData := RA (address : Z) | RAAAA (address : Z) | ROther.

Definition parse_dns_response (answers : list RData) (port : Z) : list SocketAddr :=
  omap (λ r, match r with
             | RA a => Some (mkAddr (V4 a) port)
             | RAAAA a => Some (mkAddr (V6 a) port)
             | ROther => None
             end) answers.

Inductive proxy_action :=
| ProxyTcp (addrs : list SocketAddr)
| ProxyUdp (addr : SocketAddr)
| ProxyDns.

Section proxy.
(** [SocketAddr::from_str]; the filter lists; the answers of the DNS server to
    an A query (errors and parse failures included). *)
Context (parse_addr : string → option SocketAddr) (check_host : string → res string unit).
Context (query_a : string → res string (list RData)).
Context `{TtlCache string (list SocketAddr)} {CL : TtlCacheLaws string (list SocketAddr) 240000}.
Abbreviation dns_cache := (cache_t string (list SocketAddr)).

Definition dns_resolve (now : Z) (c : dns_cache) (name : string) : dns_cache * res string (list SocketAddr) :=
  match parse_addr name with
  | Some addr => (c, Ok [addr])
  | None =>
      match rsplit_once_char colon name with
      | None => (c, Err "could not split into host:port"%string)
      | Some (host, port_str) =>
          match parse_uint 65536 port_str with
          | None => (c, Err "invalid port"%string)
          | Some port =>
              match check_host host with
              | Ok _ =>
                  let '(c, r) := cached_result c now name
                    (answers ← query_a host; Ok (parse_dns_response answers port)) in
                  (c, addrs ← r;
                      match addrs with [] => Err "no addrs"%string | _ => Ok addrs end)
              | Err e => (c, Err e)
              | Panic => (c, Panic)
              end
          end
      end
  end.

Definition is_ipv4 (a : SocketAddr) : bool := match ip a with V4 _ => true | V6 _ => false end.

(** What a stream with this metadata gets. *)
Definition proxy_stream (free_port_whitelist : list Z) (now : Z) (c : dns_cache) (metadata : string)
    (is_free : bool) : dns_cache * res string proxy_action :=
  let '(protocol, dest_host) := default ("tcp"%string, metadata) (split_once_char dollar metadata) in
  let '(c, r) := dns_resolve now c dest_host in
  (c, dest_addrs ← r;
      if forallb (λ a, proxy_allowed free_port_whitelist a is_free) dest_addrs then
        if String.eqb protocol "tcp" then Ok (ProxyTcp dest_addrs)
        else if String.eqb protocol "udp" then
          addr ← ok_or (head (filter (λ a, is_ipv4 a) dest_addrs)) "UDP only supports ipv4 for now"%string;
          if port addr =? 53 then Ok ProxyDns
          else if port addr =? 443 then
            Err "special-case banning QUIC to improve traffic management"%string
          else Ok (ProxyUdp addr)
        else Err "unknown protocol"%string
      else Err "proxying is not allowed"%string).

(** The addresses an action connects to. *)
Definition contacts (a : proxy_action) : list SocketAddr :=
  match a with ProxyTcp l => l | ProxyUdp a => [a] | ProxyDns => [] end.

Definition valid_rdata (r : RData) : Prop :=
  match r with RA a => 0 <= a < 2 ^ 32 | RAAAA a => 0 <= a < 2 ^ 128 | ROther => True end.
Context (Hparse : ∀ s a, parse_addr s = Some a → valid_ip (ip a)).
Context (Hquery : ∀ h l, query_a h = Ok l → Forall valid_rdata l).

Definition valid_addrs (l : list SocketAddr) : Prop := Forall (λ a, valid_ip (ip a)) l.

Lemma parse_dns_valid l port : Forall valid_rdata l → valid_addrs (parse_dns_response l port).
Proof. unfold valid_addrs. induction 1 as [|[a|a|] l Hr _ IH]; simpl; auto. Qed.

Lemma dns_resolve_valid now c name c' addrs :
  cache_forall (λ _ l, valid_addrs l) c → dns_resolve now c name = (c', Ok addrs) →
  cache_forall (λ _ l, valid_addrs l) c' ∧ valid_addrs addrs ∧ addrs ≠ [].
Proof.
  intros Hc E. unfold dns_resolve in E. destruct (parse_addr name) as [a|] eqn:Ep.
  { simplify_eq. split_and!; [done| |done]. apply Forall_singleton. by eapply Hparse. }
  repeat (case_match; try discriminate). simplify_eq. res_inv.
  match goal with E : cached_result _ _ _ _ = _ |- _ =>
    apply (cached_result_forall 240000 (λ _ l, valid_addrs l)) in E as [Hc' Hr] end; [|done|].
  - case_match; simplify_eq. split_and!; [done|by apply (Hr _ eq_refl)|done].
  - intros v Ev. res_inv. apply parse_dns_valid. by eapply Hquery.
Qed.

(** C5: clients stay out of the exit's own networks.  Whatever a stream's metadata
    asks for and whatever DNS answers, every address the exit connects to lies
    outside all forbidden blocks (private, loopback, link local, shared,
    documentation, reserved, ...), a free user's only at a whitelisted port; a
    TCP request has at least one address to try, and UDP goes to an IPv4
    address at neither port 53 nor 443. *)
Theorem proxy_confined whitelist now c metadata is_free c' act :
  cache_forall (λ _ l, valid_addrs l) c →
  proxy_stream whitelist now c metadata is_free = (c', Ok act) →
  Forall (λ a, forbidden (ip a) = false ∧ (is_free = true → port a ∈ whitelist)) (contacts act) ∧
  cache_forall (λ _ l, valid_addrs l) c' ∧
  match act with
  | ProxyTcp l => l ≠ []
  | ProxyUdp a => is_ipv4 a = true ∧ port a ≠ 53 ∧ port a ≠ 443
  | ProxyDns => True
  end.
Proof.
  intros Hc E. unfold proxy_stream in E.
  destruct (default _ (split_once_char dollar metadata)) as [protocol dest_host].
  destruct (dns_resolve now c dest_host) as [c1 r] eqn:Ed. injection E as -> E. res_inv.
  match goal with Ed : dns_resolve _ _ _ = (_, Ok ?l) |- _ => rename l into addrs end.
  apply dns_resolve_valid in Ed as (Hc' & Hv & Hne); [|done].
  destruct (forallb _ addrs) eqn:Ea; [|done].
  assert (Hall : ∀ a, a ∈ addrs → forbidden (ip a) = false ∧ (is_free = true → port a ∈ whitelist)).
  { intros a Hin. rewrite forallb_forall in Ea. specialize (Ea a ltac:(by apply list_elem_of_In)).
    unfold proxy_allowed in Ea.
    destruct (is_free && negb (bool_decide (port a ∈ whitelist))) eqn:Ef; [done|].
    rewrite routable_forbidden in Ea by exact (proj1 (Forall_forall _ _) Hv a Hin).
    split; [by destruct (forbidden (ip a))|]. intros ->. simpl in Ef.
    apply negb_false_iff in Ef. by apply bool_decide_eq_true_1 in Ef. }
  destruct (String.eqb protocol "tcp").
  { res_inv. split_and!; [by apply Forall_forall|done|done]. }
  destruct (String.eqb protocol "udp"); [|done]. res_inv.
  match goal with E : head _ = Some ?a |- _ => rename a into addr; rename E into Eh end.
  assert (Haddr : addr ∈ filter (λ a, is_ipv4 a) addrs).
  { destruct (filter _ addrs); simplify_eq/=. by left. }
  apply list_elem_of_filter in Haddr as [H4 Hin].
  destruct (Z.eqb_spec (port addr) 53); [by simplify_eq|].
  destruct (Z.eqb_spec (port addr) 443); simplify_eq.
  split_and!; [by apply Forall_singleton, Hall|done|by apply Is_true_true|done|done].
Qed.
End proxy.

(** An IPv4 multicast address is in none of the blocks. *)
Lemma multicast_routable a : 0 <= a < 2 ^ 32 → a / 2 ^ 28 = 14 → is_globally_routable (V4 a) = true.
Proof.
  intros (o0 & o1 & o2 & o3 & -> & H0 & H1 & H2 & H3)%v4_octets E. rewrite quot28 in E by done.
  assert (Ho : 224 <= o0 < 240) by (Z.to_euclidean_division_equations; lia).
  assert (Hv : 0 < v4 o0 o1 o2 o3 < 2 ^ 32 - 1) by (unfold v4; lia).
  assert (M240 : (Z.land o0 240 =? 240) = (o0 / 16 =? 15)) by exact (mask_eqb 8 4 15 o0 ltac:(lia) H0).
  assert (Hne : ∀ c, c < 224 → (o0 =? c) = false) by (intros; apply Z.eqb_neq; lia).
  unfold is_globally_routable, is_ipv4_globally_routable, v4_is_private, v4_is_loopback, v4_is_link_local,
    v4_is_broadcast, v4_is_documentation, v4_is_unspecified, is_ipv4_shared_address,
    is_ipv4_ietf_protocol_assignment, is_ipv4_reserved, is_ipv4_benchmarking, v4_is_broadcast.
  rewrite octet0, M240, E, !Hne by lia.
  replace (v4 o0 o1 o2 o3 =? 2 ^ 32 - 1) with false by (symmetry; apply Z.eqb_neq; lia).
  replace (v4 o0 o1 o2 o3 =? 0) with false by (symmetry; apply Z.eqb_neq; lia). reflexivity.
Qed.

(** Addresses of the exit's own networks in disguise are let through.  Every
    IPv4 address, loopback and private ones included, counts as routable in
    its IPv4-mapped IPv6 form ([::ffff:a.b.c.d], which a socket connects to
    the IPv4 address), and every IPv4 multicast address does as it is. *)
Theorem mapped_addresses_allowed whitelist a p is_free :
  0 <= a < 2 ^ 32 → (is_free = true → p ∈ whitelist) →
  proxy_allowed whitelist (mkAddr (V6 (65535 * 2 ^ 32 + a)) p) is_free = true ∧
  (in_block 32 a (v4 224 0 0 0, 4) = true → proxy_allowed whitelist (mkAddr (V4 a) p) is_free = true).
Proof.
  intros Ha Hp.
  assert (Hport : is_free && negb (bool_decide (p ∈ whitelist)) = false).
  { destruct is_free; [|done]. simpl. by rewrite bool_decide_true by auto. }
  unfold proxy_allowed. cbn [port ip]. rewrite Hport. split.
  - rewrite routable_forbidden by (simpl; lia). unfold forbidden, forbidden_v6, existsb, in_block. cbn [fst snd].
    set (m := 65535 * 2 ^ 32 + a).
    assert (Hq : ∀ n, 48 <= n → m / 2 ^ n = 0).
    { intros n Hn. apply Z.div_small. split; [lia|]. apply (Z.lt_le_trans _ (2 ^ 48)); [lia|].
      apply Z.pow_le_mono_r; lia. }
    rewrite !Z.sub_diag. change (2 ^ 0) with 1. rewrite !Z.div_1_r, !Hq by lia.
    replace (m =? 1) with false by (symmetry; apply Z.eqb_neq; lia).
    replace (m =? 0) with false by (symmetry; apply Z.eqb_neq; lia). reflexivity.
  - unfold in_block. cbn [fst snd]. change (32 - 4) with 28. change (v4 224 0 0 0 / 2 ^ 28) with 14.
    intros E%Z.eqb_eq. by apply multicast_routable.
Qed.

(** ** The exit's own addresses *)

(** A subnet as configured: an address, not necessarily the first, and the
    prefix length. *)
Record Ipv6Net := mkNet { net_addr : Z; prefix_len : Z }.

#[export] Instance Ipv6Net_eq_dec : EqDecision Ipv6Net.
Proof. solve_decision. Defined.

(** [Ipv6Net::default()] is [::/0]. *)
Definition default_net : Ipv6Net := mkNet 0 0.

Definition network (n : Ipv6Net) : Z :=
  let h := 2 ^ (128 - prefix_len n) in net_addr n / h * h.

(** [draw] gives a number in [0..=max]; shifting a [u128] by 128 panics, and so
    does a sum beyond 128 bits. *)
Definition random_ipv6_in_net (draw : Z → Z) (n : Ipv6Net) : res string Z :=
  let host_bits := 128 - prefix_len n in
  max_offset ← (if host_bits =? 0 then Ok 0
                else if 128 <=? host_bits then Panic
                else Ok (Z.shiftl 1 host_bits - 1));
  let random_offset := if max_offset =? 0 then 0 else draw max_offset in
  let addr := network n + random_offset in
  if addr <? 2 ^ 128 then Ok addr else Panic.

Definition EyeballDialer_new (draw : Z → Z) (subnet : Ipv6Net) : res string (option Z) :=
  if decide (subnet = default_net) then Ok None else a ← random_ipv6_in_net draw subnet; Ok (Some a).

(** A session's address lies in the configured subnet.  For every subnet and
    every draw, the dialer is created without a panic exactly when the prefix
    is not empty or the subnet is the default; with the default it uses the
    system's address, otherwise one with the subnet's prefix. *)
Theorem eyeball_address_in_subnet draw n :
  (∀ m, 0 <= m → 0 <= draw m <= m) → 0 <= net_addr n < 2 ^ 128 → 0 <= prefix_len n <= 128 →
  EyeballDialer_new draw n =
    (if decide (n = default_net) then Ok None
     else if decide (prefix_len n = 0) then Panic
     else Ok (Some (network n + (if prefix_len n =? 128 then 0 else draw (2 ^ (128 - prefix_len n) - 1))))) ∧
  ∀ a, EyeballDialer_new draw n = Ok (Some a) → in_block 128 a (net_addr n, prefix_len n) = true.
Proof.
  intros Hd Ha Hp. set (h := 128 - prefix_len n).
  assert (Hh : 0 <= h <= 128) by (unfold h; lia).
  assert (Hpow : 0 < 2 ^ h) by (apply Z.pow_pos_nonneg; lia).
  assert (Hnet : network n = net_addr n / 2 ^ h * 2 ^ h) by done.
  assert (Hsplit : 2 ^ 128 = 2 ^ prefix_len n * 2 ^ h).
  { rewrite <- Z.pow_add_r by lia. f_equal. unfold h. lia. }
  assert (Hlt : net_addr n / 2 ^ h < 2 ^ prefix_len n) by (apply Z.div_lt_upper_bound; lia).
  assert (Hoff : ∀ o, 0 <= o < 2 ^ h → (network n + o <? 2 ^ 128) = true ∧
    (network n + o) / 2 ^ h = net_addr n / 2 ^ h).
  { intros o Ho. rewrite Hnet. split; [apply Z.ltb_lt; nia|].
    rewrite Z.div_add_l, (Z.div_small o) by lia. lia. }
  assert (Hdraw := Hd (2 ^ h - 1) ltac:(lia)).
  assert (E : EyeballDialer_new draw n =
    if decide (n = default_net) then Ok None
    else if decide (prefix_len n = 0) then Panic
    else Ok (Some (network n + (if prefix_len n =? 128 then 0 else draw (2 ^ h - 1))))).
  { unfold EyeballDialer_new, random_ipv6_in_net. fold h. case_decide; [done|].
    destruct (Z.eqb_spec h 0) as [Eh|Eh].
    - rewrite decide_False by (unfold h in Eh; lia). cbn [mbind res_bind Z.eqb].
      rewrite (proj1 (Hoff 0 ltac:(lia))). by replace (prefix_len n =? 128) with true by (symmetry; apply Z.eqb_eq; unfold h in Eh; lia).
    - destruct (Z.leb_spec 128 h) as [E1|E1].
      + by rewrite decide_True by (unfold h in E1; lia).
      + rewrite decide_False by (unfold h in E1; lia). cbn [mbind res_bind]. rewrite Z.shiftl_1_l.
        assert (2 <= 2 ^ h) by (change 2 with (2 ^ 1) at 1; apply Z.pow_le_mono_r; lia).
        destruct (Z.eqb_spec (2 ^ h - 1) 0); [lia|].
        rewrite (proj1 (Hoff (draw (2 ^ h - 1)) ltac:(lia))).
        by replace (prefix_len n =? 128) with false by (symmetry; apply Z.eqb_neq; unfold h in Eh; lia). }
  split; [exact E|]. intros a Ea. rewrite E in Ea. repeat case_decide; simplify_eq.
  unfold in_block. cbn [fst snd]. fold h. apply Z.eqb_eq.
  destruct (prefix_len n =? 128); [apply (Hoff 0); lia|apply Hoff; lia].
Qed.

(** ** Witnesses *)

Module ExitNetDemo.
Definition parse (s : string) : option SocketAddr :=
  if String.eqb s "1.1.1.1:443" then Some (mkAddr (V4 (v4 1 1 1 1)) 443) else None.
Definition query (h : string) : res string (list RData) := Ok [RA (v4 8 8 8 8)].
#[export] Instance dcache : TtlCache string (list SocketAddr) := ListCache.list_cache 240000.
#[export] Instance dcache_laws : TtlCacheLaws string (list SocketAddr) 240000 :=
  ListCache.list_cache_laws 240000.
End ExitNetDemo.
Import ExitNetDemo.

Lemma proxy_confined_witness :
  (proxy_stream ExitNetDemo.parse (λ _, Ok tt) ExitNetDemo.query [80; 443] 0 cempty "tcp$example.com:80" true).2
    = Ok (ProxyTcp [mkAddr (V4 (v4 8 8 8 8)) 80]) ∧
  Forall (λ a, forbidden (ip a) = false ∧ (true = true → port a ∈ [80; 443]))
    (contacts (ProxyTcp [mkAddr (V4 (v4 8 8 8 8)) 80])).
Proof.
  destruct (proxy_stream ExitNetDemo.parse (λ _, Ok tt) ExitNetDemo.query [80; 443] 0 cempty
    "tcp$example.com:80" true) as [c' r] eqn:E.
  assert (r = Ok (ProxyTcp [mkAddr (V4 (v4 8 8 8 8)) 80])) as -> by (vm_compute in E; by injection E as _ <-).
  split; [done|].
  refine (proj1 (proxy_confined (H:=dcache) ExitNetDemo.parse (λ _, Ok tt) ExitNetDemo.query _ _ [80; 443] 0 cempty
    "tcp$example.com:80" true c' (ProxyTcp [mkAddr (V4 (v4 8 8 8 8)) 80])
    (cache_forall_empty 240000 _) E)).
  - intros s a. unfold ExitNetDemo.parse. case_match; intros [= <-]. simpl. unfold v4. lia.
  - intros h l [= <-]. apply Forall_singleton. simpl. unfold v4. lia.
Defined.

Lemma mapped_addresses_allowed_witness :
  forbidden (V4 (v4 127 0 0 1)) = true ∧
  proxy_allowed [22] (mkAddr (V6 (65535 * 2 ^ 32 + v4 127 0 0 1)) 22) true = true.
Proof.
  split; [reflexivity|].
  apply (mapped_addresses_allowed [22] (v4 127 0 0 1) 22 true); [unfold v4; lia|set_solver].
Defined.

Lemma eyeball_address_in_subnet_witness :
  EyeballDialer_new (λ m, m / 2) (mkNet (v6 8193) 64) = Ok (Some (v6 8193 + (2 ^ 64 - 1) / 2)) ∧
  in_block 128 (v6 8193 + (2 ^ 64 - 1) / 2) (v6 8193, 64) = true.
Proof.
  split; [vm_compute; reflexivity|].
  apply (eyeball_address_in_subnet (λ m, m / 2) (mkNet (v6 8193) 64)).
  - intros m Hm. Z.to_euclidean_division_equations; lia.
  - unfold v6, net_addr. lia.
  - simpl. lia.
  - vm_compute. reflexivity.
Defined.
