(* ===== verification/Bridge.v ===== *)
(** * The bridge (binaries/geph5-bridge/src/{asn_count,listen_forward}.rs), and the
    exit's address table (binaries/geph5-exit/src/asn.rs)

    The table that maps an IPv4 address to its network and country, the byte
    counters per network, and the listeners that forward to exits.  The text of
    the table, the random ports and the connections are inputs. *)
From Stdlib Require Import ZArith Lia.
From S2P Require Import Prelude Crypto Protocol Text Cache Dialer Routes GetDialer.
Local Open Scope Z_scope.

(** ** The table *)

Abbreviation asn_map := (gmap Z (Z * string)).

Definition tab : Ascii.ascii := Ascii.ascii_of_nat 9.

(** [split('\t')]. *)
Fixpoint split_tab (s : string) : list string :=
  match s with
  | EmptyString => [EmptyString]
  | String a s =>
      if decide (a = tab) then EmptyString :: split_tab s
      else match split_tab s with
           | [] => [String a EmptyString]
           | f :: fs => String a f :: fs
           end
  end.

(** Rows are keyed by the end of their range; lines with fewer than four
    fields are skipped. *)
Definition add_line (line : string) (m : asn_map) : res string asn_map :=
  match split_tab line with
  | _ :: f1 :: f2 :: f3 :: _ =>
      range_end ← ok_or (parse_uint (2 ^ 32) f1) "invalid digit found in string"%string;
      as_number ← ok_or (parse_uint (2 ^ 32) f2) "invalid digit found in string"%string;
      Ok (<[range_end := (as_number, f3)]> m)
  | _ => Ok m
  end.

Fixpoint add_lines (lines : list string) (m : asn_map) : res string asn_map :=
  match lines with
  | [] => Ok m
  | l :: ls => m ← add_line l m; add_lines ls m
  end.

Definition parse_asn_map (lines : list string) : res string asn_map := add_lines lines ∅.

(** [map.range(ip..).next()]: the entry with the least key from [ip] on. *)
Definition range_next (m : asn_map) (ip : Z) : option (Z * (Z * string)) :=
  min_by_key fst (filter (λ p, ip <= p.1) (map_to_list m)).

(** The exit's lookup. *)
Definition ip_to_asn_country (m : asn_map) (ip : Z) : res string (Z * string) :=
  e ← ok_or (range_next m ip) "ASN lookup failed"%string; Ok e.2.

(** The bridge's, which also remembers the country of the network. *)
Definition ip_to_asn (m : asn_map) (countries : gmap Z string) (a : IpAddr)
    : gmap Z string * res string Z :=
  match a with
  | V6 _ => (countries, Err "IPv6 not supported"%string)
  | V4 ip =>
      match range_next m ip with
      | None => (countries, Err "ASN lookup failed"%string)
      | Some (_, (asn, country)) => (<[asn := country]> countries, Ok asn)
      end
  end.

(** *** What the table means *)

Record asn_row := mkRow { r_start : Z; r_end : Z; r_asn : Z; r_country : string }.

(** A line that says so; the start of the range is not read by the code. *)
Definition says (line : string) (r : asn_row) : Prop :=
  ∃ f0 f1 f2 rest, split_tab line = f0 :: f1 :: f2 :: r_country r :: rest ∧
    parse_uint (2 ^ 32) f1 = Some (r_end r) ∧ parse_uint (2 ^ 32) f2 = Some (r_asn r).

Definition disjoint_rows (rows : list asn_row) : Prop :=
  ∀ i j r s, rows !! i = Some r → rows !! j = Some s → i ≠ j → r_end r < r_start s ∨ r_end s < r_start r.

Lemma add_lines_spec lines rows : Forall2 says lines rows →
  (∀ r, r ∈ rows → r_start r <= r_end r) → disjoint_rows rows →
  ∀ m0, (∀ r, r ∈ rows → m0 !! r_end r = None) →
  ∃ m, add_lines lines m0 = Ok m ∧
    ∀ k v, m !! k = Some v ↔ m0 !! k = Some v ∨ ∃ r, r ∈ rows ∧ k = r_end r ∧ v = (r_asn r, r_country r).
Proof.
  induction 1 as [|line r lines rows Hs Hrest IH]; intros Hle Hdis m0 Hm0.
  { exists m0. split; [done|]. intros k v. split; [by left|]. intros [?|(r & Hr & _)]; [done|].
    by apply elem_of_nil in Hr. }
  destruct Hs as (f0 & f1 & f2 & rest & Ef & E1 & E2).
  assert (Hdis' : disjoint_rows rows).
  { intros i j a b Ha Hb Hij. apply (Hdis (S i) (S j)); [done..|congruence]. }
  assert (Hfresh : ∀ s, s ∈ rows → r_end s ≠ r_end r).
  { intros s [j Hj]%list_elem_of_lookup. specialize (Hdis 0%nat (S j) r s eq_refl Hj ltac:(done)).
    pose proof (Hle r ltac:(by left)). pose proof (Hle s ltac:(right; by apply list_elem_of_lookup; exists j)). lia. }
  destruct (IH (λ s Hs, Hle s ltac:(by right)) Hdis' (<[r_end r := (r_asn r, r_country r)]> m0)) as (m & Em & Hm).
  { intros s Hs. rewrite lookup_insert_ne by (by apply not_eq_sym, Hfresh). apply Hm0. by right. }
  exists m. split.
  - cbn [add_lines]. unfold add_line. rewrite Ef, E1, E2. cbn [ok_or mbind res_bind]. exact Em.
  - intros k v. rewrite Hm, lookup_insert_Some. split.
    + intros [[[<- <-]|[Hne E]]|(s & Hs & -> & ->)]; [|by left|]; right.
      * exists r. split; [by left|done].
      * exists s. split; [by right|done].
    + intros [E|(s & [->|Hs]%elem_of_cons & -> & ->)].
      * left. destruct (decide (r_end r = k)) as [<-|]; [|by right].
        by rewrite Hm0 in E by by left.
      * left. by left.
      * right. by exists s.
Qed.

Lemma range_next_spec m ip :
  match range_next m ip with
  | Some (k, v) => m !! k = Some v ∧ ip <= k ∧ ∀ k' v', m !! k' = Some v' → ip <= k' → k <= k'
  | None => ∀ k v, m !! k = Some v → k < ip
  end.
Proof.
  unfold range_next. pose proof (min_by_key_spec fst (filter (λ p, ip <= p.1) (map_to_list m))) as Hs.
  assert (Hin : ∀ k v, m !! k = Some v → ip <= k → (k, v) ∈ filter (λ p, ip <= p.1) (map_to_list m)).
  { intros k v E Hk. apply list_elem_of_filter. split; [done|]. by apply elem_of_map_to_list. }
  destruct (min_by_key _ _) as [[k v]|].
  - destruct Hs as [[Hk E%elem_of_map_to_list]%list_elem_of_filter Hmin].
    split_and!; [done|done|]. intros k' v' E' Hk'. exact (Hmin (k', v') (Hin k' v' E' Hk')).
  - intros k v E. destruct (decide (k < ip)); [done|]. specialize (Hin k v E ltac:(lia)).
    rewrite Hs in Hin. by apply elem_of_nil in Hin.
Qed.

(** The table is looked up right.  If the lines describe pairwise disjoint
    ranges, in any order, the table is parsed without error and every address
    inside a range is mapped to that range's network and country, although
    only the ends of ranges are kept. *)
Theorem asn_lookup_correct lines rows :
  Forall2 says lines rows → (∀ r, r ∈ rows → r_start r <= r_end r) → disjoint_rows rows →
  ∃ m, parse_asn_map lines = Ok m ∧
    ∀ r ip, r ∈ rows → r_start r <= ip <= r_end r →
      ip_to_asn_country m ip = Ok (r_asn r, r_country r) ∧
      ∀ c, ip_to_asn m c (V4 ip) = (<[r_asn r := r_country r]> c, Ok (r_asn r)).
Proof.
  intros Hs Hle Hdis. destruct (add_lines_spec lines rows Hs Hle Hdis ∅ ltac:(done)) as (m & Em & Hm).
  exists m. split; [done|]. intros r ip Hr Hip.
  assert (Er : m !! r_end r = Some (r_asn r, r_country r)) by (apply Hm; right; by exists r).
  assert (E : range_next m ip = Some (r_end r, (r_asn r, r_country r))).
  { pose proof (range_next_spec m ip) as Hn. destruct (range_next m ip) as [[k v]|].
    - destruct Hn as (Ek & Hk & Hmin). pose proof (Hmin _ _ Er ltac:(lia)) as Hk2.
      pose proof Ek as Ek'. apply Hm in Ek' as [Ek'|(s & Hs' & -> & ->)]; [done|].
      destruct (decide (r_end s = r_end r)) as [Ee|Hne]; [congruence|]. exfalso.
      pose proof (Hle s Hs') as Hles. apply list_elem_of_lookup in Hr as [i Hi], Hs' as [j Hj].
      assert (i ≠ j) by (intros <-; congruence).
      destruct (Hdis i j r s Hi Hj ltac:(done)); [lia|]. lia.
    - specialize (Hn _ _ Er). lia. }
  unfold ip_to_asn_country, ip_to_asn. by rewrite E.
Qed.

(** ** Counting bytes *)

Definition FLUSH_THRESHOLD : Z := 1000000.

(** The counters, and what was handed to the task that sends lines to the statistics
    server; [endpoint] says that one is configured ([INFLUXDB_ENDPOINT]). *)
Record counters := mkCounters { byte_counts : gmap Z Z; flushed : list (Z * Z) }.

Definition flush_asn_data (endpoint : bool) (asn : Z) (c : counters) : counters :=
  if endpoint then
    match byte_counts c !! asn with
    | Some bytes => mkCounters (delete asn (byte_counts c)) (flushed c ++ [(asn, bytes)])
    | None => c
    end
  else c.

(** The [u64] sum panics beyond 64 bits. *)
Definition incr_bytes_asn (endpoint : bool) (asn bytes : Z) (c : counters) : res string counters :=
  if negb endpoint then Ok c
  else
    let n := default 0 (byte_counts c !! asn) + bytes in
    if n <? 2 ^ 64 then
      let c := mkCounters (<[asn := n]> (byte_counts c)) (flushed c) in
      Ok (if FLUSH_THRESHOLD <=? n then flush_asn_data endpoint asn c else c)
    else Panic.

Definition sum_for (asn : Z) (l : list (Z * Z)) : Z :=
  foldr (λ p acc, (if p.1 =? asn then p.2 else 0) + acc) 0 l.

Fixpoint count_all (endpoint : bool) (l : list (Z * Z)) (c : counters) : res string counters :=
  match l with
  | [] => Ok c
  | (asn, bytes) :: l => c ← incr_bytes_asn endpoint asn bytes c; count_all endpoint l c
  end.

Lemma sum_for_app asn l l' : sum_for asn (l ++ l') = sum_for asn l + sum_for asn l'.
Proof. induction l as [|p l IH]; simpl; [done|]. rewrite IH. lia. Qed.

Definition below_threshold (c : counters) : Prop :=
  ∀ k n, byte_counts c !! k = Some n → 0 <= n < FLUSH_THRESHOLD.

Lemma incr_bytes_spec endpoint asn bytes c : 0 <= bytes < 2 ^ 32 → below_threshold c →
  ∃ c', incr_bytes_asn endpoint asn bytes c = Ok c' ∧ below_threshold c' ∧
    ∀ k, sum_for k (flushed c') + default 0 (byte_counts c' !! k)
       = sum_for k (flushed c) + default 0 (byte_counts c !! k) + (if endpoint && (asn =? k) then bytes else 0).
Proof.
  intros Hb Hc. unfold incr_bytes_asn. destruct endpoint; cbn [negb andb].
  2:{ exists c. split_and!; [done..|lia]. }
  set (old := default 0 (byte_counts c !! asn)).
  assert (Hold : 0 <= old < FLUSH_THRESHOLD).
  { unfold old. destruct (byte_counts c !! asn) eqn:E; [by eapply Hc|]. unfold FLUSH_THRESHOLD. simpl. lia. }
  unfold FLUSH_THRESHOLD in *. rewrite (proj2 (Z.ltb_lt (old + bytes) (2 ^ 64))) by lia.
  destruct (Z.leb_spec 1000000 (old + bytes)); eexists; (split; [reflexivity|]); split.
  - unfold flush_asn_data. cbn [byte_counts]. rewrite lookup_insert_eq, delete_insert_eq.
    intros k n. cbn [byte_counts]. intros [_ E]%lookup_delete_Some. by eapply Hc.
  - intros k. unfold flush_asn_data. cbn [byte_counts flushed]. rewrite lookup_insert_eq. cbn [byte_counts flushed].
    rewrite sum_for_app, delete_insert_eq. simpl. destruct (Z.eqb_spec asn k) as [<-|Hne].
    + rewrite lookup_delete_eq. simpl. unfold old. lia.
    + rewrite lookup_delete_ne by done. lia.
  - intros k n. cbn [byte_counts]. intros [[<- <-]|[_ E]]%lookup_insert_Some; [unfold FLUSH_THRESHOLD; lia|by eapply Hc].
  - intros k. cbn [byte_counts flushed]. destruct (Z.eqb_spec asn k) as [<-|Hne].
    + rewrite lookup_insert_eq. simpl. unfold old. lia.
    + rewrite lookup_insert_ne by done. lia.
Qed.

(** No byte is lost or counted twice.  With a statistics server, counting any chunks never panics, keeps
    every counter below the threshold, and for every network what was sent to
    the statistics server and what is still counted add up to the chunks. *)
Theorem asn_bytes_conserved l :
  Forall (λ p, 0 <= p.2 < 2 ^ 32) l →
  ∃ c, count_all true l (mkCounters ∅ []) = Ok c ∧ below_threshold c ∧
    ∀ k, sum_for k (flushed c) + default 0 (byte_counts c !! k) = sum_for k l.
Proof.
  assert (Hgo : ∀ l c, Forall (λ p, 0 <= p.2 < 2 ^ 32) l → below_threshold c →
    ∃ c', count_all true l c = Ok c' ∧ below_threshold c' ∧
      ∀ k, sum_for k (flushed c') + default 0 (byte_counts c' !! k)
         = sum_for k (flushed c) + default 0 (byte_counts c !! k) + sum_for k l).
  { clear l. induction l as [|[asn bytes] l IH]; intros c Hl Hc.
    { exists c. split_and!; [done|done|]. intros k. simpl. lia. }
    apply Forall_cons in Hl as [Hb Hl]. destruct (incr_bytes_spec true asn bytes c Hb Hc) as (c1 & E1 & Hc1 & S1).
    destruct (IH c1 Hl Hc1) as (c2 & E2 & Hc2 & S2). exists c2. split_and!; [|done|].
    - cbn [count_all]. rewrite E1. cbn [mbind res_bind]. exact E2.
    - intros k. rewrite S2, S1. simpl. lia. }
  intros Hl. destruct (Hgo l (mkCounters ∅ []) Hl) as (c & E & Hc & Hs); [intros k n; cbn [byte_counts]; by rewrite lookup_empty|].
  exists c. split_and!; [done|done|]. intros k. rewrite Hs. cbn [byte_counts flushed]. rewrite lookup_empty. simpl. lia.
Qed.

(** ** Forwarding *)

(** What the listener of a bridge meets: a connection from an address, or an
    error of [accept]. *)
Inductive accepted := Conn (from : IpAddr) | AcceptError.

(** [handle_one_listener]: the addresses whose connections are handed on, and
    how the task ends ([None]: it still waits). *)
Fixpoint handle_one_listener (lookup : IpAddr → res string Z) (l : list accepted)
    : list IpAddr * option string :=
  match l with
  | [] => ([], None)
  | AcceptError :: _ => ([], Some "accept failed"%string)
  | Conn from :: l =>
      match lookup from with
      | Ok _ => let '(served, e) := handle_one_listener lookup l in (from :: served, e)
      | Err e => ([], Some e)
      | Panic => ([], Some "panic"%string)
      end
  end.

Section forward.
(** The listeners' cache, alive for an hour after the last use. *)
Abbreviation mapping_key := (SocketAddr * B2eMetadata)%type.
Context `{EqDecision mapping_key}.
Context `{TtlCache mapping_key SocketAddr} {CL : TtlCacheLaws mapping_key SocketAddr 3600000}.
Abbreviation mapping := (cache_t mapping_key SocketAddr).

(** [random_tcp_listener]: the first drawn port that can be bound. *)
Fixpoint random_tcp_listener (can_bind : Z → bool) (draws : list Z) : option Z :=
  match draws with
  | [] => None
  | p :: draws => if can_bind p then Some p else random_tcp_listener can_bind draws
  end.

(** [tcp_forward], given the port a new listener would get; a hit renews the
    entry. *)
Definition tcp_forward (my_ip : IpAddr) (new_port : Z) (now : Z) (c : mapping) (b2e_dest : SocketAddr)
    (metadata : B2eMetadata) : mapping * SocketAddr :=
  match clookup c now (b2e_dest, metadata) with
  | Some a => (cinsert c now (b2e_dest, metadata) a, a)
  | None => let a := mkAddr my_ip new_port in (cinsert c now (b2e_dest, metadata) a, a)
  end.

(** Asking again and again, less than an hour apart, each time offering
    another port. *)
Fixpoint forward_again (my_ip : IpAddr) (c : mapping) (b2e_dest : SocketAddr) (metadata : B2eMetadata)
    (reqs : list (Z * Z)) : list SocketAddr :=
  match reqs with
  | [] => []
  | (now, new_port) :: reqs =>
      let '(c, a) := tcp_forward my_ip new_port now c b2e_dest metadata in
      a :: forward_again my_ip c b2e_dest metadata reqs
  end.
Fixpoint within_hours (t : Z) (reqs : list (Z * Z)) : Prop :=
  match reqs with [] => True | (now, _) :: reqs => t <= now < t + 3600000 ∧ within_hours now reqs end.

(** One failed lookup takes a forwarding address out of service.  A connection
    whose source network cannot be looked up (any IPv6 client, an address past
    the table, a failed download) ends the whole listener: the connections
    before it are served, none after it; yet the bridge goes on handing out the
    address of the dead listener for the same exit and metadata, for as long as
    it is asked at least hourly. *)
Theorem failed_lookup_kills_listener lookup before from e after my_ip port now c b2e_dest metadata reqs :
  Forall (λ a, is_ok (lookup a) = true) before → lookup from = Err e →
  clookup c now (b2e_dest, metadata) = None → within_hours now reqs →
  handle_one_listener lookup (map Conn before ++ Conn from :: after) = (before, Some e) ∧
  forward_again my_ip c b2e_dest metadata ((now, port) :: reqs)
    = replicate (S (length reqs)) (mkAddr my_ip port).
Proof.
  intros Hb He Hn Hr. split.
  - induction Hb as [|a before Ha _ IH]; simpl; [by rewrite He|].
    destruct (lookup a); [|done..]. by rewrite IH.
  - cbn [forward_again length replicate]. unfold tcp_forward at 1. rewrite Hn. f_equal.
    assert (Hgo : ∀ reqs c t, within_hours t reqs →
      (∀ t', t' < t + 3600000 → clookup c t' (b2e_dest, metadata) = Some (mkAddr my_ip port)) →
      forward_again my_ip c b2e_dest metadata reqs = replicate (length reqs) (mkAddr my_ip port)).
    { clear -CL. induction reqs as [|[t2 p2] reqs IH]; intros c t Hr Hc; [done|].
      destruct Hr as [Ht Hr]. cbn [forward_again length replicate]. unfold tcp_forward.
      rewrite Hc by lia. f_equal. apply (IH _ t2); [done|].
      intros t' Ht'. by rewrite clookup_insert, decide_True. }
    apply (Hgo reqs _ now); [done|]. intros t' Ht'. by rewrite clookup_insert, decide_True.
Qed.
End forward.

(** ** Witnesses *)

Module BridgeDemo.
Definition lines : list string := ["5	9	64500	CA	x"; "0	4	64501	US	y"]%string.
Definition rows : list asn_row := [mkRow 5 9 64500 "CA"; mkRow 0 4 64501 "US"].
#[export] Instance meta_eq : EqDecision B2eMetadata.
Proof. solve_decision. Defined.
#[export] Instance mcache : TtlCache (SocketAddr * B2eMetadata) SocketAddr := ListCache.list_cache 3600000.
#[export] Instance mcache_laws : TtlCacheLaws (SocketAddr * B2eMetadata) SocketAddr 3600000 :=
  ListCache.list_cache_laws 3600000.
Definition lookup (a : IpAddr) : res string Z := (ip_to_asn {[ 9 := (1, "CA"%string) ]} ∅ a).2.
End BridgeDemo.
Import BridgeDemo.

Lemma asn_lookup_correct_witness :
  ∃ m, parse_asn_map BridgeDemo.lines = Ok m ∧ ip_to_asn_country m 7 = Ok (64500, "CA"%string).
Proof.
  destruct (asn_lookup_correct BridgeDemo.lines BridgeDemo.rows) as (m & Em & Hm).
  - repeat constructor; eexists _, _, _, _; (split; [vm_compute; reflexivity|split; vm_compute; reflexivity]).
  - intros r Hr. unfold BridgeDemo.rows in Hr. rewrite !elem_of_cons, elem_of_nil in Hr.
    destruct Hr as [->|[->|[]]]; simpl; lia.
  - intros i j r s Hi Hj Hij. destruct i as [|[|i]], j as [|[|j]]; simplify_eq/=; lia || done.
  - exists m. split; [exact Em|]. apply (Hm (mkRow 5 9 64500 "CA") 7); [by left|simpl; lia].
Defined.

Lemma asn_bytes_conserved_witness :
  ∃ c, count_all true [(7, 999999); (8, 5); (7, 2)] (mkCounters ∅ []) = Ok c ∧
    sum_for 7 (flushed c) + default 0 (byte_counts c !! 7) = 1000001.
Proof.
  destruct (asn_bytes_conserved [(7, 999999); (8, 5); (7, 2)]) as (c & E & _ & Hc);
    [repeat constructor; simpl; lia|]. exists c. split; [exact E|]. exact (Hc 7).
Defined.

Lemma failed_lookup_kills_listener_witness :
  handle_one_listener BridgeDemo.lookup [Conn (V4 3); Conn (V6 1); Conn (V4 3)]
    = ([V4 3], Some "IPv6 not supported"%string) ∧
  forward_again (V4 1) cempty (mkAddr (V4 2) 3) (mkB2e ObfsNone 0) [(0, 5000); (3000000, 6000)]
    = replicate 2 (mkAddr (V4 1) 5000).
Proof.
  apply (failed_lookup_kills_listener BridgeDemo.lookup [V4 3] (V6 1) "IPv6 not supported" [Conn (V4 3)]
    (V4 1) 5000 0 cempty (mkAddr (V4 2) 3) (mkB2e ObfsNone 0) [(3000000, 6000)]).
  - by repeat constructor.
  - reflexivity.
  - reflexivity.
  - simpl. split; [lia|done].
Defined.
