(* ===== verification/ClientAuth.v ===== *)
(** * The client's tokens (binaries/geph5-client/src/{auth,database}.rs)

    The client keeps a blind-signed connect token per epoch in its local
    database and refreshes those of today and tomorrow.  The broker is an
    interface: the client's theorems hold against any broker, and
    [broker_issuer] shows that the handlers of [Broker] are one. *)
From Stdlib Require Import ZArith Lia.
From stdpp Require Import pretty.
From S2P Require Import Prelude Crypto Mizaru Protocol Text Cache Dialer Routes GetDialer BrokerDb Broker BrokerSafety ExitAuth.
Local Open Scope Z_scope.

(** ** What the client asks of a broker

    The outer result is the transport's. *)
Class TokenIssuer (W : Type) := {
  ti_user_info : string → W → W * res string (res AuthError (option UserInfo));
  ti_subkey : AccountLevel → Z → W → W * res string (list byte);
  ti_connect : string → AccountLevel → Z → list byte → W → W * res string (res AuthError BlindedSignature)
}.

(** Nobody is told that the level Free is the wrong one. *)
Class TokenIssuerLaws (W : Type) `{TokenIssuer W} := {
  free_is_never_wrong tok e bt w : (ti_connect tok Free e bt w).2 ≠ Ok (Err WrongLevel)
}.

Section client.
Context {W : Type} `{TokenIssuer W} `{Blake3Laws} `{BlindRsaLaws}.
Context `{StdcodeLaws (AccountLevel * list byte * UnblindedSignature)}.

(** The broker's world, the table [misc] and which of its accesses fail. *)
Record cstate := mkCstate { cs_world : W; misc : gmap string (list byte); sql_faults : list bool }.

Definition C (A : Type) : Type := cstate → cstate * res string A.
#[export] Instance C_ret : MRet C := λ A a s, (s, Ok a).
#[export] Instance C_bind : MBind C := λ A B k m s,
  match m s with
  | (s, Ok a) => k a s
  | (s, Err e) => (s, Err e)
  | (s, Panic) => (s, Panic)
  end.
Definition c_lift {A} (r : res string A) : C A := λ s, (s, r).
Definition c_fail {A} (e : string) : C A := λ s, (s, Err e).
Definition c_call {A} (f : W → W * res string A) : C A := λ s,
  let '(w, r) := f (cs_world s) in (mkCstate w (misc s) (sql_faults s), r).

(** ** database.rs *)

Definition sql_failed : string := "sqlite error".
Definition sql {A} (f : gmap string (list byte) → gmap string (list byte) * A) : C A := λ s,
  match sql_faults s with
  | true :: l => (mkCstate (cs_world s) (misc s) l, Err sql_failed)
  | l => let '(m, a) := f (misc s) in (mkCstate (cs_world s) m (tail l), Ok a)
  end.
Definition db_write (key : string) (value : list byte) : C unit := sql (λ m, (<[key := value]> m, tt)).
Definition db_read (key : string) : C (option (list byte)) := sql (λ m, (m, m !! key)).
Definition db_remove (key : string) : C unit := sql (λ m, (delete key m, tt)).

(** ** auth.rs *)

Definition conn_token_key (e : Z) : string := String.append "conn_token_" (dec e).

(** [get_conn_token_inner] without waiting. *)
Definition get_conn_token_inner (e : Z) : C (AccountLevel * list byte * UnblindedSignature) :=
  o ← db_read (conn_token_key e);
  data ← c_lift (ok_or o "absent right now"%string);
  c_lift (ok_or (deserialize data) "cannot decode"%string).

Definition get_auth_token (get : Credential → W → W * res string (res AuthError string))
    (utf8 : list byte → string) (cred : Credential) : C string :=
  o ← db_read "auth_token";
  match o with
  | Some token => mret (utf8 token)
  | None =>
      r ← c_call (get cred);
      auth_token ← c_lift (map_err auth_msg r);
      db_write "auth_token" (str_bytes auth_token) ;;
      mret auth_token
  end.

(** The broker's keys, if configured, must vouch for the key that signed. *)
Definition check_member (keys : option BrokerKeys) (level : AccountLevel) (e : Z) (s : BlindedSignature)
    : res string unit :=
  match keys with
  | None => Ok tt
  | Some keys =>
      let mizaru_hex := match level with Plus => mizaru_plus keys | Free => mizaru_free keys end in
      bts ← ok_or (hex_decode mizaru_hex) "cannot decode mizaru hex"%string;
      if decide (length bts = 32%nat) then verify_member bts e (b_used_key s) (b_merkle_branch s)
      else Err "cannot convert"%string
  end.

(** One attempt at one level: [true] to stop trying. *)
Definition try_level (keys : option BrokerKeys) (auth_token : string) (e : Z) (token : list byte)
    (r : rsa_rand) (level : AccountLevel) : C bool :=
  der ← c_call (ti_subkey level e);
  subkey ← c_lift (ok_or (pk_from_der der) "cannot decode subkey"%string);
  let '(blind_token, secret) := token_blind token subkey r in
  conn_token ← c_call (ti_connect auth_token level e blind_token);
  match conn_token with
  | Ok res =>
      if decide (b_epoch res = e) then
        c_lift (check_member keys level e res) ;;
        u_sig ← c_lift (unblind res secret token);
        db_write (conn_token_key e) (stdcode (level, token, u_sig)) ;;
        mret true
      else c_fail "wrong epoch in response"%string
  | Err WrongLevel => mret false
  | Err e => c_fail (auth_msg e)
  | Panic => c_lift Panic
  end.

(** Plus first, then Free. *)
Definition refresh_epoch (keys : option BrokerKeys) (auth_token : string) (e : Z) (token : list byte)
    (r : AccountLevel → rsa_rand) : C unit :=
  o ← db_read (conn_token_key e);
  match o with
  | Some _ => mret tt
  | None =>
      stop ← try_level keys auth_token e token (r Plus) Plus;
      if (stop : bool) then mret tt
      else try_level keys auth_token e token (r Free) Free ;; mret tt
  end.

(** [epoch + 1] of a [u16]. *)
Definition next_epoch (e : Z) : res string Z := if e + 1 <? 65536 then Ok (e + 1) else Panic.

Definition currently_plus (e : Z) : C bool := λ s,
  match get_conn_token_inner e s with
  | (s, Ok (level, _, _)) => (s, Ok (bool_decide (level = Plus)))
  | (s, Err _) => (s, Ok false)
  | (s, Panic) => (s, Panic)
  end.

(** The account is looked up; tokens from before a subscription are dropped. *)
Definition check_status (auth_token : string) (e : Z) : C unit :=
  i ← c_call (ti_user_info auth_token);
  i ← c_lift (map_err auth_msg i);
  info ← c_lift (ok_or i "no such user"%string);
  let plus_expiry := default 0 (plus_expires_unix info) in
  plus ← currently_plus e;
  if (0 <? plus_expiry) && negb plus then
    db_remove (conn_token_key e) ;;
    e' ← c_lift (next_epoch e);
    db_remove (conn_token_key e')
  else mret tt.

(** The tokens of this epoch and the next. *)
Definition refresh_epochs (keys : option BrokerKeys) (auth_token : string) (e : Z)
    (tokens : Z → list byte) (r : Z → AccountLevel → rsa_rand) : C unit :=
  e' ← c_lift (next_epoch e);
  refresh_epoch keys auth_token e (tokens e) (r e) ;;
  refresh_epoch keys auth_token e' (tokens e') (r e').

(** The whole refresh.  Its 30-second limit drops the work at an await, that is
    at a call of the broker or an access to the database: what it leaves behind
    is what a run leaves in which that call or access fails. *)
Definition refresh_conn_token (keys : option BrokerKeys) (auth_token : string) (e : Z)
    (tokens : Z → list byte) (r : Z → AccountLevel → rsa_rand) : C unit :=
  check_status auth_token e ;; refresh_epochs keys auth_token e tokens r.

(** ** What the database holds *)

Context (keys : BrokerKeys) (root : AccountLevel → list byte).
Context (Hroot : ∀ level, hex_decode (match level with Plus => mizaru_plus keys | Free => mizaru_free keys end)
                          = Some (root level)).
(** [finalize] only returns signatures that verify. *)
Context (finalize_sound : ∀ pk bs sec m s, rsa_finalize pk bs sec m = Some s → rsa_verify pk s m = true).

(** Data that an exit of its level accepts in epoch [e]. *)
Definition good_token (e : Z) (data : list byte) : Prop :=
  ∃ level token sig, deserialize data = Some (level, token, sig) ∧ epoch sig = e ∧
    blind_verify (root level) token sig = Ok tt.

Definition db_inv (s : cstate) : Prop :=
  ∀ e data, 0 <= e → misc s !! conn_token_key e = Some data → good_token e data.

#[export] Instance conn_token_key_inj : Inj (=) (=) (λ n : N, conn_token_key (Z.of_N n)).
Proof.
  intros a b E. unfold conn_token_key, dec in E. rewrite !N2Z.id in E.
  apply (inj (String.append "conn_token_")) in E. by apply (inj pretty) in E.
Qed.
Lemma conn_token_key_eq a b : 0 <= a → 0 <= b → conn_token_key a = conn_token_key b → a = b.
Proof.
  intros Ha Hb E. rewrite <- (Z2N.id a), <- (Z2N.id b) in E |- * by done.
  f_equal. by apply (inj (λ n : N, conn_token_key (Z.of_N n))).
Qed.

(** What a successful exchange stores is accepted. *)
Lemma signed_token_good level e token subkey r s u :
  b_epoch s = e → check_member (Some keys) level e s = Ok tt →
  unblind s (snd (token_blind token subkey r)) token = Ok u →
  good_token e (stdcode (level, token, u)).
Proof.
  intros He Hc Hu. unfold check_member in Hc. rewrite Hroot in Hc. cbn [ok_or mbind res_bind] in Hc.
  case_decide; [|done]. unfold unblind in Hu.
  destruct (pk_from_der (b_used_key s)) as [pk|] eqn:Epk; [|done]. cbn [ok_or mbind res_bind] in Hu.
  destruct (rsa_finalize pk _ _ token) as [us|] eqn:Ef; [|done]. cbn [ok_or mbind res_bind] in Hu.
  injection Hu as <-. exists level, token, (mkUnblinded (b_epoch s) (b_used_key s) (b_merkle_branch s) us).
  split; [apply deserialize_stdcode|]. split; [done|].
  unfold blind_verify. cbn [epoch used_key merkle_branch unblinded_sig]. rewrite He, Hc.
  cbn [mbind res_bind]. rewrite Epk. cbn [ok_or mbind res_bind]. by rewrite (finalize_sound _ _ _ _ _ Ef).
Qed.

(** ** Refreshing keeps the database good *)

Definition keeps {A} (m : C A) : Prop := ∀ s, db_inv s → db_inv (fst (m s)).

Lemma keeps_bind {A B} (m : C A) (k : A → C B) : keeps m → (∀ a, keeps (k a)) → keeps (m ≫= k).
Proof.
  intros Hm Hk s Hs. specialize (Hm s Hs). unfold mbind, C_bind.
  destruct (m s) as [s1 [a|e|]]; simpl in *; [|done..]. by apply Hk.
Qed.
Lemma keeps_ret {A} (a : A) : keeps (mret a).
Proof. by intros s Hs. Qed.
Lemma keeps_lift {A} (r : res string A) : keeps (c_lift r).
Proof. by intros s Hs. Qed.
Lemma keeps_fail {A} e : keeps (c_fail (A:=A) e).
Proof. by intros s Hs. Qed.
Lemma keeps_call {A} (f : W → W * res string A) : keeps (c_call f).
Proof. intros s Hs. unfold c_call. by destruct (f (cs_world s)). Qed.
Lemma keeps_sql {A} f :
  (∀ m, (∀ e data, 0 <= e → m !! conn_token_key e = Some data → good_token e data) →
     ∀ e data, 0 <= e → (f m).1 !! conn_token_key e = Some data → good_token e data) →
  keeps (sql (A:=A) f).
Proof.
  intros Hf s Hs. unfold sql. specialize (Hf (misc s) Hs).
  destruct (sql_faults s) as [|[] l]; [|done|]; by destruct (f (misc s)).
Qed.
Lemma keeps_read k : keeps (db_read k).
Proof. by apply keeps_sql. Qed.
Lemma keeps_remove k : keeps (db_remove k).
Proof.
  apply keeps_sql. intros m Hm e data He. cbn [fst].
  intros [_ E]%lookup_delete_Some. by apply Hm.
Qed.
Lemma keeps_write e data : 0 <= e → good_token e data → keeps (db_write (conn_token_key e) data).
Proof.
  intros He Hg. apply keeps_sql. intros m Hm e' data' He'. cbn [fst].
  intros [[E <-]|[_ E]]%lookup_insert_Some; [|by apply Hm].
  by apply conn_token_key_eq in E as ->.
Qed.

Lemma keeps_try_level auth_token e token r level :
  0 <= e → keeps (try_level (Some keys) auth_token e token r level).
Proof.
  intros He. unfold try_level. apply keeps_bind; [apply keeps_call|]. intros der.
  apply keeps_bind; [apply keeps_lift|]. intros subkey.
  destruct (token_blind token subkey r) as [bt secret] eqn:Eb.
  apply keeps_bind; [apply keeps_call|]. intros [s|[]|]; try apply keeps_fail; try apply keeps_ret; [|apply keeps_lift].
  case_decide as Ee; [|apply keeps_fail]. intros st Hst. unfold mbind, C_bind, c_lift.
  destruct (check_member (Some keys) level e s) as [[]| |] eqn:Ec; [|done..].
  destruct (unblind s secret token) as [u| |] eqn:Eu; [|done..].
  assert (Hg : good_token e (stdcode (level, token, u))).
  { eapply (signed_token_good level e token subkey r s u); [done|done|]. by rewrite Eb. }
  pose proof (keeps_write e _ He Hg st Hst) as Hw.
  destruct (db_write (conn_token_key e) _ st) as [st' [[]| |]]; done.
Qed.

Lemma keeps_refresh_epoch auth_token e token r : 0 <= e → keeps (refresh_epoch (Some keys) auth_token e token r).
Proof.
  intros He. unfold refresh_epoch. apply keeps_bind; [apply keeps_read|]. intros [?|]; [apply keeps_ret|].
  apply keeps_bind; [by apply keeps_try_level|]. intros [|]; [apply keeps_ret|].
  apply keeps_bind; [by apply keeps_try_level|]. intros _. apply keeps_ret.
Qed.

Lemma keeps_currently_plus e : keeps (currently_plus e).
Proof.
  intros s Hs. unfold currently_plus. assert (Hk : keeps (get_conn_token_inner e)).
  { apply keeps_bind; [apply keeps_read|]. intros o. apply keeps_bind; [apply keeps_lift|].
    intros d. apply keeps_lift. }
  specialize (Hk s Hs). by destruct (get_conn_token_inner e s) as [s' [[[? ?] ?]| |]].
Qed.

Lemma next_epoch_Ok e e' : next_epoch e = Ok e' → e' = e + 1.
Proof. unfold next_epoch. case_match; congruence. Qed.

Lemma keeps_check_status auth_token e : keeps (check_status auth_token e).
Proof.
  unfold check_status. apply keeps_bind; [apply keeps_call|]. intros i.
  apply keeps_bind; [apply keeps_lift|]. intros i'. apply keeps_bind; [apply keeps_lift|]. intros info.
  apply keeps_bind; [apply keeps_currently_plus|]. intros plus.
  case_match; [|apply keeps_ret]. apply keeps_bind; [apply keeps_remove|]. intros _.
  apply keeps_bind; [apply keeps_lift|]. intros. apply keeps_remove.
Qed.

Lemma keeps_refresh_epochs auth_token e tokens r :
  0 <= e → keeps (refresh_epochs (Some keys) auth_token e tokens r).
Proof.
  intros He s Hs. unfold refresh_epochs. unfold mbind, C_bind at 1, c_lift at 1.
  destruct (next_epoch e) as [e'| |] eqn:En; [|done..]. apply next_epoch_Ok in En as ->.
  revert s Hs. apply keeps_bind; [by apply keeps_refresh_epoch|]. intros _. apply keeps_refresh_epoch. lia.
Qed.

Lemma keeps_refresh auth_token e tokens r :
  0 <= e → keeps (refresh_conn_token (Some keys) auth_token e tokens r).
Proof. intros He. apply keeps_bind; [apply keeps_check_status|]. intros _. by apply keeps_refresh_epochs. Qed.

(** ** Refreshing leaves nothing missing *)

Lemma sql_Ok {A} f s s' (a : A) : sql f s = (s', Ok a) → (misc s', a) = f (misc s).
Proof.
  unfold sql. destruct (sql_faults s) as [|[] l]; [| |]; destruct (f (misc s)) as [m a']; by intros [= <- <-].
Qed.

Lemma C_bind_Ok {A B} (m : C A) (k : A → C B) s s' b :
  (m ≫= k) s = (s', Ok b) ↔ ∃ s1 a, m s = (s1, Ok a) ∧ k a s1 = (s', Ok b).
Proof.
  unfold mbind, C_bind. destruct (m s) as [s1 [a|e|]]; split; try (by intros (? & ? & ? & ?));
    try done; eauto. by intros (? & ? & [= <- <-] & ?).
Qed.

Lemma try_level_Ok auth_token e token r level s s' b :
  try_level (Some keys) auth_token e token r level s = (s', Ok b) →
  (b = true ∧ ∃ data, misc s' = <[conn_token_key e := data]> (misc s)) ∨
  (b = false ∧ misc s' = misc s ∧ ∃ bt w, (ti_connect auth_token level e bt w).2 = Ok (Err WrongLevel)).
Proof.
  unfold try_level. intros E. apply C_bind_Ok in E as (s1 & der & E1 & E).
  assert (M1 : misc s1 = misc s) by (unfold c_call in E1; destruct (ti_subkey _ _ _); by simplify_eq).
  apply C_bind_Ok in E as (s2 & subkey & E2 & E). injection E2 as <- _.
  destruct (token_blind token subkey r) as [bt secret].
  apply C_bind_Ok in E as (s3 & ct & E3 & E). unfold c_call in E3.
  destruct (ti_connect auth_token level e bt (cs_world s1)) as [w rr] eqn:Ew. injection E3 as <- ->.
  destruct ct as [sg|[]|]; try done.
  - left. case_decide; [|done]. apply C_bind_Ok in E as (s4 & [] & E4 & E). injection E4 as <- _.
    apply C_bind_Ok in E as (s5 & u & E5 & E). injection E5 as <- _.
    apply C_bind_Ok in E as (s6 & [] & E6 & E). injection E as <- <-.
    apply sql_Ok in E6. simplify_eq/=. split; [done|]. rewrite <- M1. eauto.
  - right. injection E as <- <-. split_and!; [done|done|]. exists bt, (cs_world s1). by rewrite Ew.
Qed.

(** The broker never tells this client that Free is the wrong level. *)
Definition grants_free (auth_token : string) : Prop :=
  ∀ e bt w, (ti_connect auth_token Free e bt w).2 ≠ Ok (Err WrongLevel).

Lemma refresh_epoch_present auth_token e token r s s' :
  grants_free auth_token →
  refresh_epoch (Some keys) auth_token e token r s = (s', Ok tt) →
  is_Some (misc s' !! conn_token_key e) ∧ ∀ k, is_Some (misc s !! k) → is_Some (misc s' !! k).
Proof.
  unfold refresh_epoch. intros Hfree E. apply C_bind_Ok in E as (s1 & o & E1 & E). apply sql_Ok in E1.
  injection E1 as M1 ->. destruct (misc s !! conn_token_key e) eqn:Eo.
  { injection E as <-. rewrite M1. split; [by rewrite Eo|done]. }
  assert (Hins : ∀ s0 data k, misc s0 = <[conn_token_key e := data]> (misc s) →
    is_Some (misc s !! k) → is_Some (misc s0 !! k)).
  { intros s0 data k -> Hk. destruct (decide (conn_token_key e = k)) as [<-|Hne];
      [rewrite lookup_insert_eq; eauto|by rewrite lookup_insert_ne]. }
  apply C_bind_Ok in E as (s2 & b & E2 & E). apply try_level_Ok in E2 as [[-> (data & M2)]|(-> & M2 & _)].
  - injection E as <-. rewrite M1 in M2. split; [rewrite M2, lookup_insert_eq; eauto|intros k; by eapply Hins].
  - apply C_bind_Ok in E as (s3 & b & E3 & E). injection E as <-.
    apply try_level_Ok in E3 as [[-> (data & M3)]|(_ & _ & bt & w & Hw)];
      [|by apply Hfree in Hw].
    rewrite M2, M1 in M3. split; [rewrite M3, lookup_insert_eq; eauto|intros k; by eapply Hins].
Qed.

Lemma refresh_epochs_present auth_token e tokens r s s' :
  grants_free auth_token →
  refresh_epochs (Some keys) auth_token e tokens r s = (s', Ok tt) →
  is_Some (misc s' !! conn_token_key e) ∧ is_Some (misc s' !! conn_token_key (e + 1)).
Proof.
  unfold refresh_epochs. intros Hfree E. apply C_bind_Ok in E as (s1 & e' & E1 & E). injection E1 as <- E1.
  apply next_epoch_Ok in E1 as ->. apply C_bind_Ok in E as (s2 & [] & E2 & E3).
  apply refresh_epoch_present in E2 as [P2 _]; [|done]. apply refresh_epoch_present in E3 as [P3 K3]; auto.
Qed.

(** C3: the tokens a client keeps are good, whatever the broker does.  With the
    Merkle roots of the broker configured, every connect token in the database is
    one that the exits accept at its level for the epoch it is filed under, and a
    refresh keeps this against any broker and at any point of failure.  A refresh
    that succeeds against a broker that does not call Free the wrong level leaves
    a token for this epoch and one for the next. *)
Theorem refreshed_tokens_good auth_token e tokens r s s' res :
  0 <= e → db_inv s → refresh_conn_token (Some keys) auth_token e tokens r s = (s', res) →
  db_inv s' ∧
  (grants_free auth_token → res = Ok tt →
   ∃ d1 d2, misc s' !! conn_token_key e = Some d1 ∧ good_token e d1 ∧
     misc s' !! conn_token_key (e + 1) = Some d2 ∧ good_token (e + 1) d2).
Proof.
  intros He Hs E. pose proof (keeps_refresh auth_token e tokens r He s Hs) as Hs'. rewrite E in Hs'.
  split; [done|]. intros Hfree ->. simpl in Hs'. unfold refresh_conn_token in E.
  apply C_bind_Ok in E as (s1 & [] & _ & E). apply refresh_epochs_present in E as [[d1 D1] [d2 D2]]; [|done].
  exists d1, d2. split_and!; [done|by apply Hs'|done|apply Hs'; [lia|done]].
Qed.
End client.

(** ** The broker is such an issuer *)

Section broker.
Context `{BC : BrokerCaches} `{PS : Payment} `{Blake3Laws} `{BlindRsaLaws}.
Context (cfg : BrokerConfig) (r : rsa_rand).

Definition delivered {E A} (m : M E A) (w : World) : World * res string (res E A) :=
  let '(w, a) := m w in (w, Ok a).

#[export] Instance broker_issuer : TokenIssuer World := {|
  ti_user_info tok := delivered (get_user_info tok);
  ti_subkey level e := get_mizaru_subkey cfg level e;
  ti_connect tok level e bt := delivered (Broker.get_connect_token cfg r tok level e bt)
|}.

#[export] Instance broker_issuer_laws : TokenIssuerLaws World.
Proof.
  split. intros tok e bt w. simpl. unfold delivered.
  assert (E : (Broker.get_connect_token cfg r tok Free e bt w).2 ≠ Err WrongLevel).
  { unfold Broker.get_connect_token, rate_limited, map_errM, mbind, M_bind, lift.
    destruct (valid_auth_token tok w) as [w1 [[[uid ul]|]|e1|]]; simpl; try done.
    by destruct (blind_sign _ _ _ _). }
  destruct (Broker.get_connect_token cfg r tok Free e bt w) as [w' a]. simpl in *. congruence.
Qed.
End broker.

Module ClientAuthDemo.
Import Toy BrokerDemo AuthDemo.
Definition root : list byte :=
  match to_public_key (generate BrokerDemo.keys) with Ok r => r | _ => [] end.
Definition keys : BrokerKeys := mkBrokerKeys "" (hex_encode root) (hex_encode root).
Definition issuer : TokenIssuer World := broker_issuer BrokerDemo.config BrokerDemo.rand.
Definition s0 : @cstate World := mkCstate BrokerDemo.w1 ∅ [].
End ClientAuthDemo.
Import Toy BrokerDemo AuthDemo.
Abbreviation demo_refresh := (@refresh_conn_token World ClientAuthDemo.issuer _ Toy.rsa _
  (Some ClientAuthDemo.keys) "tok" 2 (λ _, [x0a]) (λ _ _, BrokerDemo.rand) ClientAuthDemo.s0).

Lemma refreshed_tokens_good_witness :
  demo_refresh.2 = Ok tt ∧
  ∃ d1, misc demo_refresh.1 !! conn_token_key 2 = Some d1 ∧
    good_token (λ _, ClientAuthDemo.root) 2 d1.
Proof.
  assert (Hres : demo_refresh.2 = Ok tt) by (vm_compute; reflexivity).
  split; [exact Hres|]. revert Hres. generalize (surjective_pairing demo_refresh).
  generalize demo_refresh at 2 3 4 5; intros [s' res] E Hres. cbn [fst snd] in *.
  assert (Hk : ∀ level, hex_decode (match level with
      | Plus => mizaru_plus ClientAuthDemo.keys | Free => mizaru_free ClientAuthDemo.keys end)
    = Some ClientAuthDemo.root) by (intros []; vm_compute; reflexivity).
  assert (Hf : ∀ (pk : @rsa_pk Toy.rsa) bs sec m s, rsa_finalize pk bs sec m = Some s → rsa_verify pk s m = true).
  { intros pk bs sec m s. simpl. case_decide; intros [= <-]. by apply bool_decide_true. }
  assert (Hi : db_inv (λ _, ClientAuthDemo.root) ClientAuthDemo.s0).
  { intros e data _. change (misc ClientAuthDemo.s0) with (∅ : gmap string (list byte)). by rewrite lookup_empty. }
  pose proof (@refreshed_tokens_good World ClientAuthDemo.issuer _ Toy.rsa _ _ ClientAuthDemo.keys
    (λ _, ClientAuthDemo.root) Hk Hf "tok" 2 (λ _, [x0a]) (λ _ _, BrokerDemo.rand)
    ClientAuthDemo.s0 s' res ltac:(lia) Hi E) as [_ Hd].
  destruct (Hd (free_is_never_wrong (TokenIssuerLaws := broker_issuer_laws BrokerDemo.config BrokerDemo.rand) "tok") Hres) as (d1 & d2 & D1 & G1 & _). exists d1. exact (conj D1 G1).
Defined.

(** The case left out: a broker that calls both levels wrong lets a refresh succeed
    without a token. *)
Module RefusingBroker.
Definition info : UserInfo := mkUserInfo 1 None false.
Definition issuer : TokenIssuer unit := {|
  ti_user_info _ w := (w, Ok (Ok (Some info)));
  ti_subkey _ _ w := (w, Ok (pk_to_der [x01]));
  ti_connect _ _ _ _ w := (w, Ok (Err WrongLevel))
|}.
Lemma refused_levels_leave_nothing :
  let r := @refresh_conn_token unit issuer _ Toy.rsa _ None "tok" 2 (λ _, [x0a]) (λ _ _, BrokerDemo.rand) (mkCstate tt ∅ []) in
  r.2 = Ok tt ∧ misc r.1 = ∅.
Proof. split; vm_compute; reflexivity. Qed.
End RefusingBroker.
