(* ===== verification/ClientNet.v ===== *)
(** * The client's local network side
    (binaries/geph5-client/src/{spoof_dns,client_inner,china/mod,traffcount,taskpool}.rs)

    Spoofed DNS hands out addresses of 240.0.0.0/4 and translates them back
    when a connection is opened; [open_conn] sends it through the tunnel or
    lets it pass; traffic is counted per second.  The public suffix list, the
    lists of Chinese domains and networks, address parsing and resolution are
    parameters. *)
From Stdlib Require Import ZArith Lia.
From S2P Require Import Prelude Crypto Protocol Text ExitNet.
Local Open Scope Z_scope.

(** ** spoof_dns.rs *)

Record fake_dns := mkFakeDns { forward : gmap string Z; backward : gmap Z string }.
Definition fake_dns_empty : fake_dns := mkFakeDns ∅ ∅.

Definition fake_dns_backtranslate (d : fake_dns) (fake : Z) : option string := backward d !! fake.

(** [offset] is drawn from [0..=!mask]. *)
Definition fake_dns_allocate (d : fake_dns) (offset : Z) (dns_name : string) : fake_dns * Z :=
  match forward d !! dns_name with
  | Some a => (d, a)
  | None =>
      let ip_addr := Z.lor (v4 240 0 0 0) offset in
      (mkFakeDns (<[dns_name := ip_addr]> (forward d)) (<[ip_addr := dns_name]> (backward d)), ip_addr)
  end.

Inductive QType := QA | QOther.

(** The answers to a packet's questions; [offsets] are the draws. *)
Fixpoint fake_dns_respond (d : fake_dns) (offsets : list Z) (questions : list (QType * string))
    : fake_dns * list (string * Z) :=
  match questions with
  | [] => (d, [])
  | (QOther, _) :: qs => fake_dns_respond d offsets qs
  | (QA, name) :: qs =>
      let '(d, a) := fake_dns_allocate d (default 0 (head offsets)) name in
      let '(d, answers) := fake_dns_respond d (tail offsets) qs in
      (d, (name, a) :: answers)
  end.

(** Every address handed out is in 240.0.0.0/4, and both tables belong
    together. *)
Record fake_dns_inv (d : fake_dns) : Prop := mkFakeInv {
  fi_range : ∀ n a, forward d !! n = Some a → in_block 32 a (v4 240 0 0 0, 4) = true;
  fi_back : ∀ n a, forward d !! n = Some a → is_Some (backward d !! a);
  fi_forth : ∀ a n, backward d !! a = Some n → forward d !! n = Some a
}.

Lemma fake_base offset : 0 <= offset < 2 ^ 28 → Z.lor (v4 240 0 0 0) offset = v4 240 0 0 0 + offset.
Proof.
  intros Ho. symmetry. rewrite <- Z.lxor_lor, <- Z.add_nocarry_lxor; [done| |];
    (apply Z.bits_inj'; intros i Hi; rewrite Z.land_spec, Z.bits_0;
     change (v4 240 0 0 0) with (15 * 2 ^ 28); destruct (decide (i < 28)) as [Hl|Hl];
     [rewrite Z.mul_pow2_bits_low by lia; done|];
     destruct (decide (offset = 0)) as [->|Hz]; [by rewrite Z.bits_0, andb_false_r|];
     rewrite (Z.bits_above_log2 offset); [by rewrite andb_false_r|lia|];
     assert (Z.log2 offset < 28) by (apply Z.log2_lt_pow2; lia); lia).
Qed.

Lemma allocate_inv d offset name d' a :
  0 <= offset < 2 ^ 28 → fake_dns_inv d → fake_dns_allocate d offset name = (d', a) →
  fake_dns_inv d' ∧ forward d' !! name = Some a.
Proof.
  intros Ho [I1 I2 I3]. unfold fake_dns_allocate. destruct (forward d !! name) as [a0|] eqn:E.
  { intros [= <- <-]. by split. }
  intros [= <- <-]. split; [|apply lookup_insert_eq]. rewrite fake_base by done. split; cbn [forward backward].
  - intros n a [[<- <-]|[_ Hn]]%lookup_insert_Some; [|by eapply I1].
    unfold in_block. cbn [fst snd]. apply Z.eqb_eq. change (v4 240 0 0 0) with (15 * 2 ^ 28).
    change (32 - 4) with 28. rewrite Z.div_add_l, (Z.div_small offset) by lia. done.
  - intros n a [[<- <-]|[Hne Hn]]%lookup_insert_Some; [rewrite lookup_insert_eq; eauto|].
    destruct (decide (v4 240 0 0 0 + offset = a)) as [<-|]; [rewrite lookup_insert_eq; eauto|].
    rewrite lookup_insert_ne by done. by eapply I2.
  - intros a n [[<- <-]|[Hne Hn]]%lookup_insert_Some; [apply lookup_insert_eq|].
    apply I3 in Hn. rewrite lookup_insert_ne; [done|]. by intros <-; rewrite E in Hn.
Qed.

Lemma respond_inv questions : ∀ d offsets d' answers,
  Forall (λ o, 0 <= o < 2 ^ 28) offsets → fake_dns_inv d →
  fake_dns_respond d offsets questions = (d', answers) → fake_dns_inv d'.
Proof.
  induction questions as [|[[] name] qs IH]; intros d offsets d' answers Ho Hd E; cbn [fake_dns_respond] in E.
  - by injection E as <- _.
  - destruct (fake_dns_allocate d _ name) as [d1 a] eqn:Ea.
    destruct (fake_dns_respond d1 (tail offsets) qs) as [d2 ans] eqn:Er. injection E as <- _.
    apply allocate_inv in Ea as [Hd1 _]; [|destruct Ho; simpl; lia|done].
    eapply IH; [|exact Hd1|exact Er]. by destruct Ho.
  - by eapply IH.
Qed.

(** ** Opening connections (client_inner.rs, china/mod.rs) *)

Definition v6_loopback (a : Z) : bool := a =? 1.

(** All suffixes of a list of labels. *)
Fixpoint suffixes {A} (l : list A) : list (list A) :=
  match l with [] => [] | _ :: l' => l :: suffixes l' end.

Section open.
(** [IpAddr::from_str], [SocketAddr::from_str] and its inverse;
    [psl::domain_str] split at dots; whether the public suffix is a known one. *)
Context (parse_ip : string → option IpAddr) (parse_addr : string → option SocketAddr).
Context (domain_labels : string → option (list string)) (suffix_known : string → option bool).
Context (china_domain : list string → bool) (china_net : Z → bool).
Context (resolve : string → res string (list SocketAddr)).
Context (passthrough_china : bool).

Definition is_chinese_host (host : string) : bool :=
  match parse_ip host with
  | Some (V4 a) => china_net a
  | _ =>
      match domain_labels host with
      | Some labels => existsb china_domain (suffixes labels)
      | None => false
      end
  end.

Definition bracket : string := "[".

Definition contains_bracket (s : string) : bool :=
  match String.index 0 bracket s with Some _ => true | None => false end.

Definition whitelist_host (host : string) : bool :=
  if String.eqb host "" || contains_bracket host then false
  else if passthrough_china && is_chinese_host host then true
  else match parse_ip host with
       | Some (V4 a) => v4_is_private a || v4_is_loopback a || v4_is_link_local a
       | Some (V6 a) => v6_loopback a
       | None => match suffix_known host with None => false | Some known => negb known end
       end.

(** Where a connection goes: out directly (the addresses are whitelisted for
    the VPN) or into the tunnel. *)
Inductive opened := Passthrough (addrs : list SocketAddr) | Tunnel (metadata : string).

Definition real_dest (d : fake_dns) (dest_addr : string) : string :=
  match parse_addr dest_addr with
  | Some sock_addr =>
      match ip sock_addr with
      | V4 a =>
          match fake_dns_backtranslate d a with
          | Some orig => String.append orig (String.append ":" (dec (port sock_addr)))
          | None => dest_addr
          end
      | V6 _ => dest_addr
      end
  | None => dest_addr
  end.

Definition tunnel_metadata (protocol dest : string) : string :=
  String.append protocol (String.append "$" dest).

Definition open_conn (d : fake_dns) (protocol dest_addr : string) : res string opened :=
  let dest_addr := real_dest d dest_addr in
  match rsplit_once_char colon dest_addr with
  | Some (dest_host, _) =>
      if whitelist_host dest_host then addrs ← resolve dest_addr; Ok (Passthrough addrs)
      else Ok (Tunnel (tunnel_metadata protocol dest_addr))
  | None => Ok (Tunnel (tunnel_metadata protocol dest_addr))
  end.

(** A spoofed name reaches its host.  After any number of answered packets,
    every name that was answered has one address in 240.0.0.0/4; opening a
    connection to that address opens one to a name that was given this very
    address, and to the name itself if no other name drew the same address. *)
Theorem fake_dns_reaches d offsets questions answers name a text p :
  Forall (λ o, 0 <= o < 2 ^ 28) offsets →
  fake_dns_respond fake_dns_empty offsets questions = (d, answers) →
  forward d !! name = Some a → parse_addr text = Some (mkAddr (V4 a) p) →
  in_block 32 a (v4 240 0 0 0, 4) = true ∧
  ∃ name', forward d !! name' = Some a ∧
    real_dest d text = String.append name' (String.append ":" (dec p)) ∧
    ((∀ n, forward d !! n = Some a → n = name) → name' = name).
Proof.
  intros Ho Er Hf Hp. assert (Hi : fake_dns_inv d).
  { eapply respond_inv; [exact Ho| |exact Er]. by split; intros ? ?; rewrite ?lookup_empty. }
  destruct Hi as [I1 I2 I3]. split; [by eapply I1|]. destruct (I2 _ _ Hf) as [name' Hn].
  exists name'. split_and!; [by apply I3| |].
  - unfold real_dest, fake_dns_backtranslate. rewrite Hp. cbn [ip port]. by rewrite Hn.
  - intros Huniq. by apply Huniq, I3.
Qed.
End open.

(** ** traffcount.rs

    Bytes are counted as integers (an [f64] is exact below [2^53]), times in
    milliseconds. *)
Record TraffCount := mkTraff { bins : list Z; window_start : Z; max_history_seconds : nat }.

Definition traff_with_history (now : Z) (max_seconds : nat) : TraffCount := mkTraff [] now max_seconds.
Definition traff_new (now : Z) : TraffCount := traff_with_history now 600.

Definition push_bin (limit : nat) (l : list Z) : list Z :=
  (if decide (limit <= length l)%nat then tail l else l) ++ [0].

Definition ensure_bins_updated (now : Z) (t : TraffCount) : TraffCount :=
  let seconds_elapsed := Z.max 0 (now - window_start t) / 1000 in
  match bins t with
  | [] => mkTraff [0] (window_start t) (max_history_seconds t)
  | _ =>
      if seconds_elapsed =? 0 then t
      else mkTraff (Nat.iter (Z.to_nat seconds_elapsed) (push_bin (max_history_seconds t)) (bins t))
             (window_start t + 1000 * seconds_elapsed) (max_history_seconds t)
  end.

Definition add_last (bytes : Z) (l : list Z) : list Z :=
  match last l with
  | Some x => take (length l - 1) l ++ [x + bytes]
  | None => if 0 <? bytes then [bytes] else []
  end.

Definition traff_incr (now bytes : Z) (t : TraffCount) : TraffCount :=
  let t := ensure_bins_updated now t in
  mkTraff (add_last bytes (bins t)) (window_start t) (max_history_seconds t).

Definition speed_history (t : TraffCount) : list Z := bins t.

Lemma push_bin_length limit l : (1 <= limit)%nat → (1 <= length l <= limit)%nat →
  (1 <= length (push_bin limit l) <= limit)%nat.
Proof.
  intros Hl Hn. unfold push_bin. rewrite length_app. simpl. case_decide; [|lia].
  destruct l; simpl in *; lia.
Qed.

(** The history never holds more than [max_history_seconds] bins, and never
    none once something was counted. *)
Lemma traff_bounded calls : ∀ t, (1 <= max_history_seconds t)%nat →
  (length (bins t) <= max_history_seconds t)%nat →
  let t' := foldl (λ t c, traff_incr c.1 c.2 t) t calls in
  max_history_seconds t' = max_history_seconds t ∧
  (length (speed_history t') <= max_history_seconds t)%nat ∧
  (calls ≠ [] → (1 <= length (speed_history t'))%nat).
Proof.
  assert (Hstep : ∀ t now bytes, (1 <= max_history_seconds t)%nat →
    (length (bins t) <= max_history_seconds t)%nat →
    max_history_seconds (traff_incr now bytes t) = max_history_seconds t ∧
    (1 <= length (bins (traff_incr now bytes t)) <= max_history_seconds t)%nat).
  { intros t now bytes Hm Hl.
    assert (He : max_history_seconds (ensure_bins_updated now t) = max_history_seconds t ∧
      (1 <= length (bins (ensure_bins_updated now t)) <= max_history_seconds t)%nat).
    { unfold ensure_bins_updated. destruct (bins t) as [|b l] eqn:Eb; [simpl; lia|].
      case_match; [rewrite Eb; simpl in *; lia|]. cbn [bins max_history_seconds]. split; [done|].
      assert (Hi : ∀ n, (1 <= length (Nat.iter n (push_bin (max_history_seconds t)) (b :: l))
        <= max_history_seconds t)%nat).
      { induction n as [|n IH]; [simpl in *; lia|]. cbn [Nat.iter]. by apply push_bin_length. }
      apply Hi. }
    destruct He as [E1 E2]. unfold traff_incr. cbn [bins max_history_seconds]. split; [done|].
    unfold add_last. destruct (last (bins _)) as [x|] eqn:El.
    - rewrite length_app, length_take. simpl. lia.
    - apply last_None in El. rewrite El in E2. simpl in E2. lia. }
  induction calls as [|[now bytes] calls IH]; intros t Hm Hl t'; simpl in t'; [done|].
  destruct (Hstep t now bytes Hm Hl) as [E1 E2].
  destruct (IH (traff_incr now bytes t)) as (F1 & F2 & F3); [by rewrite E1|rewrite E1; lia|].
  subst t'. split_and!; [congruence|by rewrite <- E1|]. intros _.
  destruct calls; [exact (proj1 E2)|]. by apply F3.
Qed.

(** Two bytes three seconds apart with a history of two seconds leave two bins. *)
Example traff_cleanup_bins :
  speed_history (traff_incr 3000 200 (traff_incr 0 100 (traff_with_history 0 2))) = [0; 200].
Proof. vm_compute. reflexivity. Qed.

(** ** taskpool.rs *)

Definition add_task {T} (task_limit : nat) (task : T) (pool : list T) : list T :=
  (if decide (task_limit <= length pool)%nat then tail pool else pool) ++ [task].

(** The pool keeps the newest tasks, at most [task_limit] of them. *)
Lemma add_task_bounded {T} limit (task : T) pool :
  (1 <= limit)%nat → (length pool <= limit)%nat →
  (length (add_task limit task pool) <= limit)%nat ∧ last (add_task limit task pool) = Some task.
Proof.
  intros Hl Hp. unfold add_task. split; [|apply last_snoc].
  rewrite length_app. simpl. case_decide; [destruct pool; simpl in *; lia|lia].
Qed.

Lemma fake_dns_reaches_witness :
  let parse s := if String.eqb s "x" then Some (mkAddr (V4 (v4 240 0 0 5)) 80) else None in
  real_dest parse (fake_dns_respond fake_dns_empty [5] [(QA, "a.com"%string)]).1 "x" = "a.com:80"%string.
Proof.
  intros parse.
  destruct (fake_dns_reaches parse (fake_dns_respond fake_dns_empty [5] [(QA, "a.com"%string)]).1 [5]
    [(QA, "a.com"%string)] [("a.com"%string, v4 240 0 0 5)] "a.com" (v4 240 0 0 5) "x" 80) as (_ & n & _ & E & Hn);
    [by repeat constructor|reflexivity|reflexivity|reflexivity|].
  rewrite E, Hn; [vm_compute; reflexivity|].
  intros m.
  change (forward (fake_dns_respond fake_dns_empty [5] [(QA, "a.com"%string)]).1) with
    (<["a.com"%string := v4 240 0 0 5]> (∅ : gmap string Z)).
  by intros [[<- _]|[_ ?]]%lookup_insert_Some.
Defined.
