(* ===== verification/Float32.v ===== *)
(** * binary32 arithmetic

    [f32] as computed by the executable operations of [SpecFloat] at precision
    24: the operators, the comparisons [min] and [max] of Rust (which prefer a
    number over NaN) and the saturating casts.  Comparisons are by value, so
    they need no canonical mantissa.  The last section shows that rounding does
    not take a number below an integer of at most 24 bits, which the rate
    limiter relies on. *)
From Stdlib Require Import ZArith Lia Floats.SpecFloat.
From S2P Require Import Prelude.
Local Open Scope Z_scope.

Abbreviation f32 := spec_float.

Definition f32_add : f32 → f32 → f32 := SFadd 24 128.
Definition f32_sub : f32 → f32 → f32 := SFsub 24 128.
Definition f32_mul : f32 → f32 → f32 := SFmul 24 128.
Definition f32_div : f32 → f32 → f32 := SFdiv 24 128.
Definition f32_of_Z (z : Z) : f32 := binary_normalize 24 128 z 0 false.
(** The decimal literal [n / 10 ^ k]. *)
Definition f32_dec (n : Z) (k : Z) : f32 := f32_div (f32_of_Z n) (f32_of_Z (10 ^ k)).

(** The value of a finite number times [2 ^ s]. *)
Definition scaled (s : Z) (x : f32) : Z :=
  match x with
  | S754_finite false m e => Z.pos m * 2 ^ (e + s)
  | S754_finite true m e => - (Z.pos m * 2 ^ (e + s))
  | _ => 0
  end.
Definition exponent (x : f32) : Z := match x with S754_finite _ _ e => e | _ => 0 end.

Definition f32_ltb (x y : f32) : bool :=
  match x, y with
  | S754_nan, _ | _, S754_nan => false
  | S754_infinity sx, S754_infinity sy => sx && negb sy
  | S754_infinity sx, _ => sx
  | _, S754_infinity sy => negb sy
  | _, _ =>
      let s := Z.max 0 (- Z.min (exponent x) (exponent y)) in scaled s x <? scaled s y
  end.

(** [f32::max] and [f32::min]: of a number and NaN, the number. *)
Definition f32_max (x y : f32) : f32 :=
  match x, y with
  | S754_nan, _ => y
  | _, S754_nan => x
  | _, _ => if f32_ltb x y then y else x
  end.
Definition f32_min (x y : f32) : f32 :=
  match x, y with
  | S754_nan, _ => y
  | _, S754_nan => x
  | _, _ => if f32_ltb y x then y else x
  end.

(** [x as u32]: truncation toward zero, saturating, NaN to 0. *)
Definition f32_as_u32 (x : f32) : Z :=
  match x with
  | S754_zero _ | S754_nan | S754_infinity true | S754_finite true _ _ => 0
  | S754_infinity false => 2 ^ 32 - 1
  | S754_finite false m e =>
      Z.min (2 ^ 32 - 1) (if 0 <=? e then Z.pos m * 2 ^ e else Z.pos m / 2 ^ (- e))
  end.

(** ** Rounding and integers *)

(** [b <= m * 2 ^ e]. *)
Definition at_least (b m e : Z) : Prop := 0 <= e ∧ b <= m * 2 ^ e ∨ e < 0 ∧ b * 2 ^ (- e) <= m.
(** [b * 2 ^ e0 <= x]. *)
Definition f32_geq (b e0 : Z) (x : f32) : Prop :=
  match x with
  | S754_infinity false => True
  | S754_finite false m e => at_least b (Z.pos m) (e - e0)
  | _ => False
  end.
Definition f32_ge (b : Z) (x : f32) : Prop := f32_geq b 0 x.

Lemma digits2_bounds p : 2 ^ (Z.pos (digits2_pos p) - 1) <= Z.pos p < 2 ^ Z.pos (digits2_pos p).
Proof.
  induction p as [p IH|p IH|]; cbn [digits2_pos]; [| |done]; rewrite Pos2Z.inj_succ;
    replace (Z.succ (Z.pos (digits2_pos p)) - 1) with (Z.succ (Z.pos (digits2_pos p) - 1)) by lia;
    rewrite !Z.pow_succ_r by lia; lia.
Qed.

Lemma shr_1_m r : 0 <= shr_m r → shr_m (shr_1 r) = shr_m r / 2.
Proof.
  destruct r as [[|[p|p|]|p] r s]; cbn; intros; try done; try lia.
  - change (Z.pos p = Z.pos p~1 / 2). Z.to_euclidean_division_equations; lia.
  - change (Z.pos p = Z.pos p~0 / 2). Z.to_euclidean_division_equations; lia.
Qed.

Lemma shr_iter_m p : ∀ r, 0 <= shr_m r → shr_m (SpecFloat.iter_pos shr_1 p r) = shr_m r / 2 ^ Z.pos p.
Proof.
  induction p as [p IH|p IH|]; intros r Hr; cbn [SpecFloat.iter_pos].
  - assert (H1 : 0 <= shr_m (shr_1 r)) by (rewrite shr_1_m by done; apply Z.div_pos; lia).
    assert (H2 : 0 <= shr_m (SpecFloat.iter_pos shr_1 p (shr_1 r))) by (rewrite IH by done; apply Z.div_pos; lia).
    rewrite IH, IH, shr_1_m, !Z.div_div by (done || lia). f_equal.
    replace (Z.pos p~1) with (1 + Z.pos p + Z.pos p) by lia. rewrite !Z.pow_add_r by lia. lia.
  - assert (H2 : 0 <= shr_m (SpecFloat.iter_pos shr_1 p r)) by (rewrite IH by done; apply Z.div_pos; lia).
    rewrite IH, IH, !Z.div_div by (done || lia). f_equal.
    replace (Z.pos p~0) with (Z.pos p + Z.pos p) by lia. rewrite !Z.pow_add_r by lia. lia.
  - by rewrite shr_1_m.
Qed.

Lemma shr_record_m m l : shr_m (shr_record_of_loc m l) = m.
Proof. by destruct l as [|[]]. Qed.

Lemma pow_pos_2 n : 0 <= n → 0 < 2 ^ n.
Proof. intros. by apply Z.pow_pos_nonneg. Qed.

Lemma at_least_pos b m e : 1 <= b → at_least b m e → 1 <= m.
Proof.
  intros Hb [[He H]|[He H]]; [pose proof (pow_pos_2 e He)|pose proof (pow_pos_2 (- e) ltac:(lia))]; nia.
Qed.

Lemma at_least_digits b p e : 1 <= b → at_least b (Z.pos p) e → 1 <= Z.pos (digits2_pos p) + e.
Proof.
  intros Hb. pose proof (digits2_bounds p) as [_ Hp]. intros [[He _]|[He H]]; [lia|].
  assert (2 ^ (- e) < 2 ^ Z.pos (digits2_pos p)) as H2 by (pose proof (pow_pos_2 (- e) ltac:(lia)); nia).
  apply Z.pow_lt_mono_r_iff in H2; lia.
Qed.

(** Shifting right rounds down, but not below a number [b * 2 ^ e0] of 24 bits. *)
Lemma shr_fexp_ge b e0 p e l r e' : -100 <= e0 → 1 <= b <= 2 ^ 24 → at_least b (Z.pos p) (e - e0) →
  shr_fexp 24 128 (Z.pos p) e l = (r, e') → at_least b (shr_m r) (e' - e0).
Proof.
  intros H0 Hb H E. pose proof (at_least_digits b p (e - e0) ltac:(lia) H) as Hd. pose proof (digits2_bounds p) as Hp.
  unfold shr_fexp, shr in E. set (d := Z.pos (digits2_pos p)) in *. cbn [Zdigits2] in E. fold d in E.
  unfold fexp, emin in E. destruct (Z.max (d + e - 24) (3 - 128 - 24) - e) as [|n|n] eqn:En; simplify_eq;
    rewrite ?shr_record_m; [done| |done].
  rewrite shr_iter_m by (rewrite shr_record_m; lia). rewrite shr_record_m.
  assert (Hn : Z.pos n = d - 24) by lia. rewrite Hn in *. clear En.
  replace (e + (d - 24) - e0) with (e - e0 + (d - 24)) by lia. set (f := e - e0) in *. clearbody f.
  assert (Hm : 2 ^ 23 <= Z.pos p / 2 ^ (d - 24)).
  { apply Z.div_le_lower_bound; [apply pow_pos_2; lia|]. rewrite <- Z.pow_add_r by lia.
    replace (d - 24 + 23) with (d - 1) by lia. lia. }
  destruct (decide (0 < f + (d - 24))) as [He'|He'].
  - left. split; [lia|]. assert (2 ^ 1 <= 2 ^ (f + (d - 24))) by (apply Z.pow_le_mono_r; lia).
    transitivity (2 ^ 23 * 2 ^ 1); [lia|]. apply Z.mul_le_mono_nonneg; lia.
  - destruct H as [[He H]|[He H]]; [lia|]. assert (Hq : b * 2 ^ (- (f + (d - 24))) <= Z.pos p / 2 ^ (d - 24)).
    { apply Z.div_le_lower_bound; [apply pow_pos_2; lia|]. etrans; [|exact H].
      replace (- f) with (d - 24 + - (f + (d - 24))) by lia. rewrite Z.pow_add_r by lia. lia. }
    destruct (decide (f + (d - 24) = 0)) as [E0|]; [left; rewrite E0 in *; lia|right; lia].
Qed.

Lemma round_even_ge m l : m <= round_nearest_even m l.
Proof. destruct l as [|[]]; cbn [round_nearest_even]; try lia. destruct (Z.even m); lia. Qed.

Lemma at_least_mono b m m' e : m <= m' → at_least b m e → at_least b m' e.
Proof. intros Hm [[He H]|[]]; [left; pose proof (pow_pos_2 e He); nia|right; lia]. Qed.

Lemma round_ge b e0 p e l : -100 <= e0 → 1 <= b <= 2 ^ 24 → at_least b (Z.pos p) (e - e0) →
  f32_geq b e0 (binary_round_aux 24 128 false (Z.pos p) e l).
Proof.
  intros H0 Hb H. unfold binary_round_aux. destruct (shr_fexp 24 128 (Z.pos p) e l) as [r1 e1] eqn:E1.
  apply (shr_fexp_ge b e0) in E1; [|done..].
  set (m2 := round_nearest_even (shr_m r1) (loc_of_shr_record r1)).
  assert (H2 : at_least b m2 (e1 - e0)) by (eapply at_least_mono; [apply round_even_ge|done]).
  pose proof (at_least_pos b m2 (e1 - e0) ltac:(lia) H2). destruct m2 as [|p2|p2]; [lia| |lia].
  destruct (shr_fexp 24 128 (Z.pos p2) e1 loc_Exact) as [r2 e2] eqn:E2. apply (shr_fexp_ge b e0) in E2; [|done..].
  pose proof (at_least_pos b (shr_m r2) (e2 - e0) ltac:(lia) E2). destruct (shr_m r2) as [|p3|p3] eqn:Em; [lia| |lia].
  by destruct (e2 <=? 128 - 24).
Qed.

Lemma iter_xO k : ∀ p, Z.pos (Pos.iter xO p k) = Z.pos p * 2 ^ Z.pos k.
Proof.
  induction k as [|k IH] using Pos.peano_ind; intros p; [simpl; lia|].
  rewrite Pos.iter_succ, Pos2Z.inj_succ, Z.pow_succ_r by lia. rewrite Pos2Z.inj_xO, IH. lia.
Qed.

Lemma normalize_ge b e0 m e : -100 <= e0 → 1 <= b <= 2 ^ 24 → at_least b m (e - e0) →
  f32_geq b e0 (binary_normalize 24 128 m e false).
Proof.
  intros H0 Hb H. pose proof (at_least_pos b m (e - e0) ltac:(lia) H). destruct m as [|p|p]; [lia| |lia].
  unfold binary_normalize, binary_round, shl_align.
  destruct (fexp 24 128 (Z.pos (digits2_pos p) + e) - e) as [|k|k] eqn:Ek; apply round_ge; try done.
  rewrite iter_xO. replace (fexp 24 128 _) with (e - Z.pos k) by lia. clear Ek.
  replace (e - Z.pos k - e0) with (e - e0 - Z.pos k) by lia. revert H. generalize (e - e0). intros f [[He H]|[He H]].
  - destruct (decide (0 <= f - Z.pos k)); [left|right]; (split; [lia|]).
    + rewrite <- Z.mul_assoc, <- Z.pow_add_r by lia. by replace (Z.pos k + (f - Z.pos k)) with f by lia.
    + replace (Z.pos k) with (f + - (f - Z.pos k)) at 2 by lia. rewrite Z.pow_add_r, Z.mul_assoc by lia.
      apply Z.mul_le_mono_nonneg_r; [apply Z.pow_nonneg; lia|done].
  - right. split; [lia|]. replace (- (f - Z.pos k)) with (- f + Z.pos k) by lia. rewrite Z.pow_add_r, Z.mul_assoc by lia.
    apply Z.mul_le_mono_nonneg_r; [apply Z.pow_nonneg; lia|done].
Qed.

Lemma f32_of_Z_ge z : 1 <= z <= 2 ^ 24 → f32_ge z (f32_of_Z z).
Proof. intros Hz. apply normalize_ge; [lia|lia|left; lia]. Qed.

Lemma at_least_mul b m1 e1 m2 e2 : 1 <= b → at_least b m1 e1 → at_least 1 m2 e2 → at_least b (m1 * m2) (e1 + e2).
Proof.
  intros Hb H1 H2. pose proof (at_least_pos b m1 e1 Hb H1) as P1. pose proof (at_least_pos 1 m2 e2 ltac:(lia) H2) as P2.
  (* everything times [2 ^ k] *)
  set (k := Z.max 0 (Z.max (- e1) 0 + Z.max (- e2) 0)).
  assert (K : ∀ b m e k, 0 <= k → 0 <= e + k → at_least b m e ↔ b * 2 ^ k <= m * 2 ^ (e + k)).
  { clear. intros b m e k Hk He. pose proof (pow_pos_2 k Hk). pose proof (pow_pos_2 (e + k) He). split.
    - intros [[He' H']|[He' H']].
      + rewrite Z.pow_add_r by lia. pose proof (pow_pos_2 e He'). nia.
      + replace k with (- e + (e + k)) at 1 by lia. rewrite Z.pow_add_r by lia. pose proof (pow_pos_2 (- e) ltac:(lia)). nia.
    - intros H'. destruct (decide (0 <= e)); [left|right]; (split; [lia|]).
      + rewrite Z.pow_add_r in H' by lia. apply (Z.mul_le_mono_pos_r _ _ (2 ^ k)); lia.
      + replace k with (- e + (e + k)) in H' at 1 by lia. rewrite Z.pow_add_r in H' by lia.
        apply (Z.mul_le_mono_pos_r _ _ (2 ^ (e + k))); lia. }
  set (k1 := Z.max (- e1) 0). set (k2 := Z.max (- e2) 0).
  apply (K _ _ _ k1) in H1; [|lia..]. apply (K _ _ _ k2) in H2; [|lia..].
  apply (K _ _ _ (k1 + k2)); [lia..|]. replace (e1 + e2 + (k1 + k2)) with (e1 + k1 + (e2 + k2)) by lia.
  rewrite (Z.pow_add_r 2 k1), (Z.pow_add_r 2 (e1 + k1)) by lia.
  pose proof (pow_pos_2 k1 ltac:(lia)). pose proof (pow_pos_2 k2 ltac:(lia)).
  replace (m1 * m2 * (2 ^ (e1 + k1) * 2 ^ (e2 + k2))) with (m1 * 2 ^ (e1 + k1) * (m2 * 2 ^ (e2 + k2))) by lia.
  rewrite Z.mul_assoc. apply Z.mul_le_mono_nonneg; lia.
Qed.

Lemma f32_mul_ge b x y : 1 <= b <= 2 ^ 24 → f32_ge b x → f32_ge 1 y → f32_ge b (f32_mul x y).
Proof.
  intros Hb. destruct x as [|[]| |[] m1 e1]; try done; destruct y as [|[]| |[] m2 e2]; try done.
  unfold f32_ge. cbn [f32_geq]. rewrite !Z.sub_0_r. intros H1 H2. cbn [f32_mul SFmul xorb]. apply round_ge; [lia|done|].
  rewrite Pos2Z.inj_mul, Z.sub_0_r. apply at_least_mul; [lia|done..].
Qed.

Definition f32_one : f32 := S754_finite false 8388608 (-23).

Lemma f32_max_ge_one x : f32_ge 1 (f32_max x f32_one).
Proof.
  assert (H1 : f32_ge 1 f32_one) by (right; split; [done|vm_compute; done]).
  destruct x as [[]|[]| |s m e]; try exact H1; try done.
  unfold f32_max. destruct (f32_ltb _ _) eqn:E; [done|]. unfold f32_ltb, f32_one, exponent, scaled in E.
  apply Z.ltb_ge in E. set (k := Z.max 0 (- Z.min e (-23))) in *.
  assert (Hk : 23 <= k ∧ - e <= k) by lia. destruct s.
  { pose proof (pow_pos_2 (-23 + k) ltac:(lia)). pose proof (pow_pos_2 (e + k) ltac:(lia)). nia. }
  assert (E2 : 2 ^ k <= Z.pos m * 2 ^ (e + k)).
  { etrans; [|exact E]. replace k with (23 + (-23 + k)) at 1 by lia. rewrite Z.pow_add_r by lia. apply Z.eq_le_incl. done. }
  pose proof (pow_pos_2 (e + k) ltac:(lia)). change (at_least 1 (Z.pos m) (e - 0)). rewrite Z.sub_0_r.
  destruct (decide (0 <= e)); [left|right]; (split; [lia|]).
  - rewrite Z.pow_add_r in E2 by lia. pose proof (pow_pos_2 k ltac:(lia)). apply (Z.mul_le_mono_pos_r _ _ (2 ^ k)); lia.
  - assert (Hkk : 2 ^ k = 2 ^ (- e) * 2 ^ (e + k)) by (rewrite <- Z.pow_add_r by lia; f_equal; lia).
    rewrite Hkk in E2. apply (Z.mul_le_mono_pos_r _ _ (2 ^ (e + k))); lia.
Qed.

(** A number of at least [b], cut off at 100000, truncates to something between
    both. *)
Lemma f32_capped b x : 1 <= b <= 100000 → f32_ge b x → b <= f32_as_u32 (f32_min x (f32_of_Z 100000)) <= 100000.
Proof.
  intros Hb. change (f32_of_Z 100000) with (S754_finite false 12800000 (-7)). set (cap := S754_finite false 12800000 (-7)).
  assert (Hc : f32_as_u32 cap = 100000) by done.
  destruct x as [|[]| |[] m e]; try done; [intros _; change (f32_min (S754_infinity false) cap) with cap; lia|].
  unfold f32_ge, f32_geq. rewrite Z.sub_0_r. intros H. unfold f32_min. destruct (f32_ltb cap _) eqn:E; [unfold cap; fold cap; lia|].
  unfold cap, f32_ltb, exponent, scaled in E. apply Z.ltb_ge in E.
  set (k := Z.max 0 (- Z.min (-7) e)) in *. assert (Hk : 7 <= k ∧ - e <= k) by lia.
  assert (E2 : Z.pos m * 2 ^ (e + k) <= 100000 * 2 ^ k).
  { etrans; [exact E|]. replace k with (7 + (-7 + k)) at 2 by lia. rewrite (Z.pow_add_r 2 7) by lia. lia. }
  pose proof (pow_pos_2 (e + k) ltac:(lia)).
  change (b <= f32_as_u32 (S754_finite false m e) <= 100000). unfold f32_as_u32. destruct (Z.leb_spec 0 e) as [He|He].
  - pose proof (pow_pos_2 k ltac:(lia)). rewrite Z.pow_add_r in E2 by lia. destruct H as [[_ H]|[]]; [|lia].
    assert (Z.pos m * 2 ^ e <= 100000) by (apply (Z.mul_le_mono_pos_r _ _ (2 ^ k)); lia). lia.
  - destruct H as [[]|[_ H]]; [lia|].
    assert (Hkk : 2 ^ k = 2 ^ (- e) * 2 ^ (e + k)) by (rewrite <- Z.pow_add_r by lia; f_equal; lia).
    rewrite Hkk in E2. pose proof (pow_pos_2 (- e) ltac:(lia)).
    assert (b <= Z.pos m / 2 ^ (- e)) by (apply Z.div_le_lower_bound; lia).
    assert (Z.pos m <= 2 ^ (- e) * 100000) by (apply (Z.mul_le_mono_pos_r _ _ (2 ^ (e + k))); lia).
    assert (Z.pos m / 2 ^ (- e) <= 100000) by (apply Z.div_le_upper_bound; lia). lia.
Qed.

(** ** Sums of delays *)

(** A number without a sign. *)
Definition f32_nonneg (x : f32) : Prop :=
  match x with S754_zero _ | S754_infinity false | S754_finite false _ _ => True | _ => False end.

(** [m * 2 ^ e <= b] and [m * 2 ^ e < b]. *)
Definition at_most (b m e : Z) : Prop := m * 2 ^ Z.max e 0 <= b * 2 ^ Z.max (- e) 0.
Definition below (b m e : Z) : Prop := m * 2 ^ Z.max e 0 < b * 2 ^ Z.max (- e) 0.

(** [x <= b * 2 ^ e0], and the same without equality. *)
Definition f32_leq (b e0 : Z) (x : f32) : Prop :=
  match x with
  | S754_zero _ => True | S754_finite false m e => at_most b (Z.pos m) (e - e0) | _ => False
  end.
Definition f32_lt (b e0 : Z) (x : f32) : Prop :=
  match x with
  | S754_zero _ => True | S754_finite false m e => below b (Z.pos m) (e - e0) | _ => False
  end.

Lemma pow_split e k : 0 <= k → 0 <= e + k →
  ∃ c, 0 < c ∧ 2 ^ k = c * 2 ^ Z.max (- e) 0 ∧ 2 ^ (e + k) = c * 2 ^ Z.max e 0.
Proof.
  intros Hk He. exists (2 ^ (k - Z.max (- e) 0)). rewrite <- !Z.pow_add_r by lia.
  split; [apply pow_pos_2; lia|]. split; f_equal; lia.
Qed.
Lemma at_most_scale b m e k : 0 <= k → 0 <= e + k → at_most b m e ↔ m * 2 ^ (e + k) <= b * 2 ^ k.
Proof.
  intros Hk He. destruct (pow_split e k Hk He) as (c & Hc & -> & ->). unfold at_most.
  rewrite (Z.mul_le_mono_pos_l _ _ c) by done. rewrite !Z.mul_assoc, !(Z.mul_comm c). done.
Qed.
Lemma below_scale b m e k : 0 <= k → 0 <= e + k → below b m e ↔ m * 2 ^ (e + k) < b * 2 ^ k.
Proof.
  intros Hk He. destruct (pow_split e k Hk He) as (c & Hc & -> & ->). unfold below.
  rewrite (Z.mul_lt_mono_pos_l c) by done. rewrite !Z.mul_assoc, !(Z.mul_comm c). done.
Qed.
Lemma below_at_most b m e : below b m e → at_most b m e.
Proof. unfold below, at_most. lia. Qed.

(** A shift to the right keeps a number under a bound. *)
Lemma div_le_pow m n f : 0 <= m → 0 <= n → 0 <= f → m / 2 ^ n * 2 ^ (f + n) <= m * 2 ^ f.
Proof.
  intros Hm Hn Hf. pose proof (pow_pos_2 n Hn). pose proof (pow_pos_2 f Hf). rewrite Z.pow_add_r by lia.
  pose proof (Z.mul_div_le m (2 ^ n) ltac:(lia)). nia.
Qed.

Lemma at_most_div b m e n : 0 <= m → 0 <= n → at_most b m e → at_most b (m / 2 ^ n) (e + n).
Proof.
  intros Hm Hn H. apply (at_most_scale b m e (Z.max (- e) 0)) in H; [|lia..].
  apply (at_most_scale _ _ _ (Z.max (- e) 0)); [lia..|]. etrans; [|exact H].
  replace (e + n + Z.max (- e) 0) with (e + Z.max (- e) 0 + n) by lia. apply div_le_pow; lia.
Qed.
Lemma below_div b m e n : 0 <= m → 0 <= n → below b m e → below b (m / 2 ^ n) (e + n).
Proof.
  intros Hm Hn H. apply (below_scale b m e (Z.max (- e) 0)) in H; [|lia..].
  apply (below_scale _ _ _ (Z.max (- e) 0)); [lia..|]. eapply Z.le_lt_trans; [|exact H].
  replace (e + n + Z.max (- e) 0) with (e + Z.max (- e) 0 + n) by lia. apply div_le_pow; lia.
Qed.

Lemma at_most_digits b p e : b <= 2 ^ 24 → at_most b (Z.pos p) e → Z.pos (digits2_pos p) + e <= 25.
Proof.
  intros Hb H. pose proof (digits2_bounds p) as [Hp _]. apply (at_most_scale _ _ _ (Z.max (- e) 0)) in H; [|lia..].
  assert (L : 2 ^ (Z.pos (digits2_pos p) - 1 + (e + Z.max (- e) 0)) <= 2 ^ (24 + Z.max (- e) 0)).
  { rewrite (Z.pow_add_r 2 _ (e + _)), (Z.pow_add_r 2 24) by lia. etrans; [|etrans; [exact H|]];
      (apply Z.mul_le_mono_nonneg_r; [apply Z.pow_nonneg; lia|lia]). }
  apply Z.pow_le_mono_r_iff in L; lia.
Qed.
Lemma below_digits b p e : b <= 2 ^ 24 → below b (Z.pos p) e → Z.pos (digits2_pos p) + e <= 24.
Proof.
  intros Hb H. pose proof (digits2_bounds p) as [Hp _]. apply (below_scale _ _ _ (Z.max (- e) 0)) in H; [|lia..].
  assert (L : 2 ^ (Z.pos (digits2_pos p) - 1 + (e + Z.max (- e) 0)) < 2 ^ (24 + Z.max (- e) 0)).
  { rewrite (Z.pow_add_r 2 _ (e + _)), (Z.pow_add_r 2 24) by lia.
    eapply Z.le_lt_trans; [|eapply Z.lt_le_trans; [exact H|]];
      (apply Z.mul_le_mono_nonneg_r; [apply Z.pow_nonneg; lia|lia]). }
  apply Z.pow_lt_mono_r_iff in L; lia.
Qed.

(** The exponent after [shr_fexp], and the mantissa. *)
Lemma shr_fexp_inv p e l r e' : shr_fexp 24 128 (Z.pos p) e l = (r, e') →
  e' = e ∧ r = shr_record_of_loc (Z.pos p) l ∨
  e < e' ∧ e' = Z.max (Z.pos (digits2_pos p) + e - 24) (-149) ∧ shr_m r = Z.pos p / 2 ^ (e' - e).
Proof.
  unfold shr_fexp, shr. cbn [Zdigits2]. unfold fexp, emin. change (3 - 128 - 24) with (-149).
  destruct (Z.max _ _ - e) as [|n|n] eqn:En; intros E; simplify_eq; [by left| |by left].
  right. split; [lia|]. split; [lia|]. replace (e + Z.pos n - e) with (Z.pos n) by lia.
  rewrite shr_iter_m by (rewrite shr_record_m; lia). by rewrite shr_record_m.
Qed.

Lemma shr_fexp_0 e : shr_m (fst (shr_fexp 24 128 0 e loc_Exact)) = 0.
Proof.
  unfold shr_fexp, shr. destruct (fexp _ _ _ - e) as [|n|n]; try done. cbn [fst]. by rewrite shr_iter_m.
Qed.

Lemma round_le b e0 p e : -100 <= e0 <= 80 → 1 <= b <= 2 ^ 24 → below b (Z.pos p) (e - e0) →
  f32_leq b e0 (binary_round_aux 24 128 false (Z.pos p) e loc_Exact).
Proof.
  intros H0 Hb H. unfold binary_round_aux. destruct (shr_fexp 24 128 (Z.pos p) e loc_Exact) as [r1 e1] eqn:E1.
  set (m2 := round_nearest_even (shr_m r1) (loc_of_shr_record r1)).
  assert (H2 : 0 <= m2 ∧ at_most b m2 (e1 - e0)).
  { subst m2. apply shr_fexp_inv in E1 as [[-> ->]|(Hlt & Ee & Em)].
    { cbn. split; [lia|by apply below_at_most]. }
    assert (Hq : 0 <= shr_m r1) by (rewrite Em; apply Z.div_pos; [lia|apply pow_pos_2; lia]).
    pose proof (round_even_ge (shr_m r1) (loc_of_shr_record r1)). split; [lia|].
    assert (Hr : round_nearest_even (shr_m r1) (loc_of_shr_record r1) <= shr_m r1 + 1).
    { destruct (loc_of_shr_record r1) as [|[]]; cbn [round_nearest_even]; try lia. destruct (Z.even _); lia. }
    pose proof (below_digits b p (e - e0) ltac:(lia) H) as Hd.
    apply (below_div _ _ _ (e1 - e)) in H; [|lia..]. rewrite <- Em in H.
    replace (e - e0 + (e1 - e)) with (e1 - e0) in H by lia. revert H. unfold below, at_most.
    replace (Z.max (e1 - e0) 0) with 0 by lia. lia. }
  destruct H2 as [Hm2 H2]. destruct m2 as [|p2|p2]; [|  |lia].
  { pose proof (shr_fexp_0 e1) as Z0. destruct (shr_fexp 24 128 0 e1 loc_Exact) as [r2 e2]. cbn in Z0. by rewrite Z0. }
  destruct (shr_fexp 24 128 (Z.pos p2) e1 loc_Exact) as [r2 e2] eqn:E2.
  assert (H3 : 0 <= shr_m r2 ∧ at_most b (shr_m r2) (e2 - e0)).
  { apply shr_fexp_inv in E2 as [[-> ->]|(Hlt & Ee & Em)]; [done|]. rewrite Em.
    split; [apply Z.div_pos; [lia|apply pow_pos_2; lia]|].
    replace (e2 - e0) with (e1 - e0 + (e2 - e1)) by lia. apply at_most_div; [lia..|done]. }
  destruct H3 as [Hm3 H3]. destruct (shr_m r2) as [|p3|p3]; [done| |lia].
  pose proof (at_most_digits b p3 (e2 - e0) ltac:(lia) H3). destruct (Z.leb_spec e2 (128 - 24)); [done|lia].
Qed.

Lemma normalize_le b e0 p e : -100 <= e0 <= 80 → 1 <= b <= 2 ^ 24 → below b (Z.pos p) (e - e0) →
  f32_leq b e0 (binary_normalize 24 128 (Z.pos p) e false).
Proof.
  intros H0 Hb H. unfold binary_normalize, binary_round, shl_align.
  destruct (fexp 24 128 (Z.pos (digits2_pos p) + e) - e) as [|k|k] eqn:Ek; apply round_le; try done.
  rewrite iter_xO. replace (fexp 24 128 _) with (e - Z.pos k) by lia. clear Ek.
  apply (below_scale _ _ _ (Z.max (- (e - e0)) 0 + Z.pos k)); [lia..|].
  apply (below_scale _ _ _ (Z.max (- (e - e0)) 0 + Z.pos k)) in H; [|lia..].
  rewrite <- Z.mul_assoc, <- Z.pow_add_r by lia.
  by replace (Z.pos k + _) with (e - e0 + (Z.max (- (e - e0)) 0 + Z.pos k)) by lia.
Qed.

Lemma shl_align_val m e ez : ez <= e → Z.pos (fst (shl_align m e ez)) = Z.pos m * 2 ^ (e - ez).
Proof.
  intros H. unfold shl_align. destruct (ez - e) as [|k|k] eqn:Ek; [|lia|].
  - replace (e - ez) with 0 by lia. simpl; lia.
  - cbn [fst]. rewrite iter_xO. f_equal. f_equal. lia.
Qed.

(** Adding a non-negative number does not fall below a summand, and the sum
    stays below the sum of the bounds. *)
Lemma f32_add_geq b e0 x y : -100 <= e0 → 1 <= b <= 2 ^ 24 →
  f32_geq b e0 x → f32_nonneg y → f32_geq b e0 (f32_add x y).
Proof.
  intros H0 Hb Hx Hy. destruct x as [|[]| |[] mx ex]; try done; destruct y as [|[]| |[] my ey]; try done.
  cbn [f32_add SFadd cond_Zopp]. unfold f32_geq in Hx. apply normalize_ge; [done..|].
  rewrite !shl_align_val by lia. set (ez := Z.min ex ey). assert (He : ez <= ex) by lia.
  eapply (at_least_mono _ (Z.pos mx * 2 ^ (ex - ez))).
  { pose proof (pow_pos_2 (ey - ez) ltac:(lia)). nia. }
  revert Hx. clear -He. intros [[He' H]|[He' H]].
  - destruct (decide (0 <= ez - e0)); [left|right]; (split; [lia|]).
    + rewrite <- Z.mul_assoc, <- Z.pow_add_r by lia. by replace (ex - ez + (ez - e0)) with (ex - e0) by lia.
    + replace (ex - ez) with (ex - e0 + - (ez - e0)) by lia. rewrite (Z.pow_add_r 2 (ex - e0)), Z.mul_assoc by lia.
      apply Z.mul_le_mono_nonneg_r; [apply Z.pow_nonneg; lia|done].
  - right. split; [lia|]. replace (- (ez - e0)) with (- (ex - e0) + (ex - ez)) by lia.
    rewrite Z.pow_add_r, Z.mul_assoc by lia. apply Z.mul_le_mono_nonneg_r; [apply Z.pow_nonneg; lia|done].
Qed.

Lemma f32_lt_leq b e0 x : f32_lt b e0 x → f32_leq b e0 x.
Proof. destruct x as [| | |[]]; try done. apply below_at_most. Qed.
Lemma f32_leq_mono b b' e0 x : b <= b' → f32_leq b e0 x → f32_leq b' e0 x.
Proof.
  intros Hb. destruct x as [| | |[]]; try done. unfold f32_leq, at_most.
  pose proof (pow_pos_2 (Z.max (- (e - e0)) 0) ltac:(lia)). nia.
Qed.

Lemma f32_add_leq b c e0 x y : -100 <= e0 <= 80 → 0 <= b → 0 <= c → 1 <= b + c <= 2 ^ 24 →
  f32_leq b e0 x → f32_lt c e0 y → f32_leq (b + c) e0 (f32_add x y).
Proof.
  intros H0 Hb Hc Hbc Hx Hy. destruct x as [sx| | |[] mx ex]; try done; destruct y as [sy| | |[] my ey]; try done.
  - by destruct sx, sy.
  - apply (f32_leq_mono c); [lia|]. by apply (f32_lt_leq c e0 (S754_finite false my ey)).
  - apply (f32_leq_mono b); [lia|done].
  - cbn [f32_add SFadd cond_Zopp]. set (ez := Z.min ex ey). unfold f32_leq in Hx. unfold f32_lt in Hy.
    rewrite <- Pos2Z.inj_add. apply normalize_le; [done..|]. rewrite Pos2Z.inj_add, !shl_align_val by lia.
    set (k := Z.max (- (ez - e0)) 0). apply (at_most_scale _ _ _ k) in Hx; [|lia..].
    apply (below_scale _ _ _ k) in Hy; [|lia..]. apply (below_scale _ _ _ k); [lia..|].
    rewrite Z.mul_add_distr_r, <- !Z.mul_assoc, <- !Z.pow_add_r by lia.
    replace (ex - ez + (ez - e0 + k)) with (ex - e0 + k) by lia.
    replace (ey - ez + (ez - e0 + k)) with (ey - e0 + k) by lia. lia.
Qed.
