(* ===== verification/HttpProxy.v ===== *)
(** * The client's HTTP proxy (binaries/geph5-client/src/http_proxy)

    What the proxy makes of a request: where it connects to, which headers it
    passes on and whether it keeps the connection open.  hyper parses requests
    and sends them on; [http]'s [HeaderMap], [Uri] and [Authority] are modelled
    as far as the proxy uses them. *)
From Stdlib Require Import ZArith Lia Recdef.
From stdpp Require Import pretty.
From S2P Require Import Prelude Protocol Text IpText.
Local Open Scope Z_scope.

(** ** Text *)

Definition lower_char (a : Ascii.ascii) : Ascii.ascii :=
  if (65 <=? ascii_Z a) && (ascii_Z a <=? 90) then Ascii.ascii_of_N (Z.to_N (ascii_Z a + 32)) else a.
Fixpoint lower (s : string) : string :=
  match s with EmptyString => EmptyString | String a s => String (lower_char a) (lower s) end.
Definition eq_ignore_ascii_case (a b : string) : bool := String.eqb (lower a) (lower b).

(** [str::split] at a character. *)
Fixpoint split_char (c : Ascii.ascii) (s : string) : list string :=
  match s with
  | EmptyString => [EmptyString]
  | String a s =>
      if decide (a = c) then EmptyString :: split_char c s
      else match split_char c s with
           | [] => [String a EmptyString]
           | p :: ps => String a p :: ps
           end
  end.

(** [str::trim]; the values it is used on are ASCII. *)
Definition is_space (a : Ascii.ascii) : bool := ((9 <=? ascii_Z a) && (ascii_Z a <=? 13)) || (ascii_Z a =? 32).
Fixpoint trim_start (p : Ascii.ascii → bool) (s : string) : string :=
  match s with String a s' => if p a then trim_start p s' else s | EmptyString => s end.
Definition rev_string (s : string) : string :=
  String.string_of_list_ascii (rev (String.list_ascii_of_string s)).
Definition trim_end (p : Ascii.ascii → bool) (s : string) : string := rev_string (trim_start p (rev_string s)).
Definition trim (s : string) : string := trim_end is_space (trim_start is_space s).

Definition starts_with (c : Ascii.ascii) (s : string) : bool :=
  match s with String a _ => bool_decide (a = c) | EmptyString => false end.
Definition ends_with (c : Ascii.ascii) (s : string) : bool := starts_with c (rev_string s).

(** ** Addresses (address.rs) *)

Inductive Address :=
| SocketAddress (a : SocketAddr)
| DomainNameAddress (name : string) (port : Z).

Definition Address_to_string (a : Address) : string :=
  match a with
  | SocketAddress a => addr_to_string a
  | DomainNameAddress name port => String.append name (String colon (dec port))
  end.

(** [http::uri::Authority]: [userinfo@host:port] with the text of the port. *)
Record Authority := mkAuthority { userinfo : option string; host : string; port_text : option string }.

Definition as_str (a : Authority) : string :=
  let h := match port_text a with
           | Some p => String.append (host a) (String colon p)
           | None => host a
           end in
  match userinfo a with Some u => String.append u (String (Ascii.ascii_of_nat 64) h) | None => h end.
Definition port_u16 (a : Authority) : option Z := p ← port_text a; parse_uint 65536 p.

Record Uri := mkUri { scheme : option string; authority : option Authority; path_and_query : option string }.

Definition default_port (scheme : option string) : option Z :=
  match scheme with
  | None => Some 80
  | Some s => if String.eqb s "http" then Some 80 else if String.eqb s "https" then Some 443 else None
  end.

Definition host_addr (uri : Uri) : option Address :=
  match authority uri with
  | None => None
  | Some authority =>
      match port_u16 authority with
      | Some port =>
          match parse_addr (as_str authority) with
          | Some saddr => Some (SocketAddress saddr)
          | None => Some (DomainNameAddress (host authority) port)
          end
      | None =>
          port ← default_port (scheme uri);
          let authority_str := as_str authority in
          if starts_with lbracket authority_str && ends_with rbracket authority_str then
            let addr := trim_end (λ a, bool_decide (a = rbracket))
                          (trim_start (λ a, bool_decide (a = lbracket)) authority_str) in
            a ← parse_ip addr; Some (SocketAddress (mkAddr a port))
          else
            match parse_ip authority_str with
            | Some a => Some (SocketAddress (mkAddr a port))
            | None => Some (DomainNameAddress authority_str port)
            end
      end
  end.

(** [&host_str[1..host_str.len() - 1]]. *)
Definition inner_str (s : string) : string :=
  match s with
  | String _ s => match rev_string s with String _ r => rev_string r | EmptyString => EmptyString end
  | EmptyString => EmptyString
  end.

Definition authority_addr (scheme_str : option string) (authority : Authority) : option Address :=
  port ← match port_u16 authority with Some port => Some port | None => default_port scheme_str end;
  let host_str := host authority in
  if starts_with lbracket host_str && ends_with rbracket host_str then
    a ← parse_ipv6 (inner_str host_str); Some (SocketAddress (mkAddr (V6 a) port))
  else
    match parse_ipv4 host_str with
    | Some a => Some (SocketAddress (mkAddr (V4 a) port))
    | None => Some (DomainNameAddress host_str port)
    end.

(** ** Headers *)

(** Names are kept in lower case; a name can have several values. *)
Abbreviation HeaderMap := (list (string * string)).

Definition get_all (key : string) (h : HeaderMap) : list string :=
  omap (λ '(n, v), if decide (n = lower key) then Some v else None) h.
(** [HeaderMap::remove]: the first value, all of them are gone. *)
Definition remove (key : string) (h : HeaderMap) : option string * HeaderMap :=
  (head (get_all key h), filter (λ p, p.1 ≠ lower key) h).
(** [HeaderMap::insert]: replaces the values of the name. *)
Definition insert (key value : string) (h : HeaderMap) : HeaderMap :=
  filter (λ p, p.1 ≠ lower key) h ++ [(lower key, value)].
(** [HeaderValue::to_str]: visible ASCII and tabs. *)
Definition to_str (v : string) : option string :=
  if all_chars (λ a, ((32 <=? ascii_Z a) && (ascii_Z a <? 127)) || (ascii_Z a =? 9)) v then Some v else None.

Inductive Version := HTTP_09 | HTTP_10 | HTTP_11 | HTTP_2 | HTTP_3.

(** What one header value says: nothing, or whether to keep the connection. *)
Definition value_keep_alive (keep : bool) (value : string) : bool :=
  match to_str value with
  | None => keep
  | Some value =>
      if eq_ignore_ascii_case value "close" then false
      else if existsb (λ part, eq_ignore_ascii_case (trim part) "keep-alive") (split_char (Ascii.ascii_of_nat 44) value)
      then true else keep
  end.

Definition check_keep_alive (version : Version) (headers : HeaderMap) (check_proxy : bool) : res io_error bool :=
  keep ← match version with HTTP_10 => Ok false | HTTP_11 => Ok true | _ => Panic end;
  let keep := if check_proxy then fold_left value_keep_alive (get_all "Proxy-Connection" headers) keep else keep in
  Ok (fold_left value_keep_alive (get_all "Connection" headers) keep).

(** [while headers.remove(&header).is_some() {}]. *)
Lemma omap_nil_filter (key : string) (h : HeaderMap) v :
  head (get_all key h) = Some v → (length (filter (λ p, p.1 ≠ lower key) h) < length h)%nat.
Proof.
  unfold get_all. induction h as [|[n x] h IH]; cbn [omap list_omap]; [done|].
  rewrite filter_cons. cbn [fst]. case_decide as E.
  - rewrite decide_False by (intros Hn; by apply Hn). intros _.
    pose proof (length_filter (λ p, p.1 ≠ lower key) h). simpl. lia.
  - rewrite decide_True by done. intros Hv. specialize (IH Hv). simpl. lia.
Qed.

Function remove_loop (key : string) (h : HeaderMap) {measure length h} : HeaderMap :=
  match head (get_all key h) with
  | Some _ => remove_loop key (filter (λ p, p.1 ≠ lower key) h)
  | None => h
  end.
Proof. intros key h v E. by eapply omap_nil_filter. Defined.

Definition connection_tokens (value : string) : list string :=
  match to_str value with
  | None => []
  | Some conn =>
      if eq_ignore_ascii_case conn "close" then []
      else filter (λ t, eq_ignore_ascii_case t "keep-alive" = false) (map trim (split_char (Ascii.ascii_of_nat 44) conn))
  end.

Definition HOP_BY_HOP_HEADERS : list string :=
  ["Keep-Alive"; "Transfer-Encoding"; "TE"; "Connection"; "Trailer"; "Upgrade"; "Proxy-Authorization";
   "Proxy-Authenticate"; "Proxy-Connection"].

Definition extra_headers (headers : HeaderMap) : list string :=
  concat (map connection_tokens (get_all "Connection" headers)) ++
  concat (map connection_tokens (get_all "Proxy-Connection" headers)).

Definition clear_hop_headers (headers : HeaderMap) : HeaderMap :=
  let headers := fold_left (λ h header, remove_loop header h) (extra_headers headers) headers in
  fold_left (λ h header, remove_loop header h) HOP_BY_HOP_HEADERS headers.

Definition set_conn_keep_alive (version : Version) (headers : HeaderMap) (keep_alive : bool) : res io_error HeaderMap :=
  match version with
  | HTTP_10 => Ok (if keep_alive then insert "Connection" "keep-alive" headers else headers)
  | HTTP_11 => Ok (if keep_alive then headers else insert "Connection" "close" headers)
  | _ => Panic
  end.

(** ** Requests (mod.rs, http_client.rs) *)

Record Request := mkRequest { method : string; uri : Uri; version : Version; headers : HeaderMap }.
Record Response := mkResponse { status : Z; res_version : Version; res_headers : HeaderMap }.

Definition make_bad_request : Response := mkResponse 400 HTTP_11 [].

(** [Uri::from_parts] with a scheme. *)
Definition from_parts (u : Uri) : option Uri :=
  match scheme u, authority u, path_and_query u with
  | Some _, Some _, Some _ => Some u
  | _, _, _ => None
  end.

Section dispatch.
(** [Authority::from_str]. *)
Context (parse_authority : string → option Authority).

(** The destination of a request and the request with its URI completed from
    the [Host] header; [None] is answered with 400. *)
Definition request_host (req : Request) : res io_error (option (Address * Request)) :=
  match host_addr (uri req) with
  | Some h => Ok (Some (h, req))
  | None =>
      match authority (uri req) with
      | Some _ => Ok None
      | None =>
          match (hhost ← head (get_all "Host" (headers req)); shost ← to_str hhost;
                 a ← parse_authority shost; h ← authority_addr (scheme (uri req)) a; Some (a, h)) with
          | None => Ok None
          | Some (a, h) =>
              let scheme := match scheme (uri req) with None => Some "http"%string | s => s end in
              u ← unwrap (from_parts (mkUri scheme (Some a) (path_and_query (uri req))));
              Ok (Some (h, mkRequest (method req) u (version req) (headers req)))
          end
      end
  end.

(** What is done for a request: a tunnel to a destination after the upgrade, or
    a request sent on. *)
Inductive dispatched :=
| Refused
| Connect (host : Address)
| Forward (host : Address) (req : Request) (conn_keep_alive : bool).

Definition dispatch (req : Request) : res io_error dispatched :=
  o ← request_host req;
  match o with
  | None => Ok Refused
  | Some (h, req) =>
      if String.eqb (method req) "CONNECT" then Ok (Connect h)
      else
        conn_keep_alive ← check_keep_alive (version req) (headers req) true;
        hs ← set_conn_keep_alive (version req) (clear_hop_headers (headers req)) conn_keep_alive;
        Ok (Forward h (mkRequest (method req) (uri req) (version req) hs) conn_keep_alive)
  end.

(** The answer to the client.  [body_ok]: the body of the request could be read;
    [send]: what the HTTP client returns for the request sent on. *)
Definition server_dispatch (body_ok : bool) (send : Request → option Response) (req : Request)
    : res io_error Response :=
  d ← dispatch req;
  match d with
  | Refused => Ok make_bad_request
  | Connect _ => Ok (mkResponse 200 HTTP_11 [])
  | Forward _ req conn_keep_alive =>
      if body_ok then
        match send req with
        | None => Ok (mkResponse 500 HTTP_11 [])
        | Some r =>
            res_keep_alive ← check_keep_alive (res_version r) (res_headers r) false;
            hs ← set_conn_keep_alive (res_version r) (clear_hop_headers (res_headers r))
                   (conn_keep_alive && res_keep_alive);
            Ok (mkResponse (status r) (res_version r) hs)
        end
      else Ok make_bad_request
  end.
End dispatch.

(** [Connector::call]: what the HTTP client connects to for a URI. *)
Definition connector_call (dst : Uri) : res io_error string :=
  match host_addr dst with
  | None => Err (IoError Other "URI must be a valid Address")
  | Some addr => Ok (Address_to_string addr)
  end.

(** ** The headers that are passed on *)

Definition without (key : string) (h : HeaderMap) : HeaderMap := filter (λ p, p.1 ≠ lower key) h.

Lemma without_fresh key h : head (get_all key h) = None → without key h = h.
Proof.
  unfold get_all, without. induction h as [|[n v] h IH]; cbn [omap list_omap]; [done|].
  rewrite filter_cons. cbn [fst]. case_decide as E; [done|].
  rewrite decide_True by done. intros H. by rewrite IH.
Qed.

Lemma remove_loop_without key h : remove_loop key h = without key h.
Proof.
  functional induction (remove_loop key h) as [h v Hv IH|h Hn].
  - rewrite IH. unfold without. rewrite list_filter_filter.
    apply list_filter_iff. intros p. tauto.
  - by rewrite without_fresh.
Qed.

(** A name that must not be passed on: hop-by-hop by itself, or named by a
    [Connection] or [Proxy-Connection] header. *)
Definition hop (h : HeaderMap) (name : string) : Prop :=
  name ∈ map lower (extra_headers h) ∨ name ∈ map lower HOP_BY_HOP_HEADERS.
#[export] Instance hop_dec h name : Decision (hop h name).
Proof. unfold hop. apply _. Defined.

Lemma fold_remove keys : ∀ h,
  fold_left (λ h k, remove_loop k h) keys h = filter (λ p, p.1 ∉ map lower keys) h.
Proof.
  induction keys as [|k keys IH]; intros h; simpl.
  - induction h as [|p h IH]; [done|]. rewrite filter_cons, decide_True by apply not_elem_of_nil. by f_equal.
  - rewrite IH, remove_loop_without. unfold without. rewrite list_filter_filter.
    apply list_filter_iff. intros p. rewrite not_elem_of_cons. tauto.
Qed.

Lemma clear_hop_filter h : clear_hop_headers h = filter (λ p, ¬ hop h p.1) h.
Proof.
  unfold clear_hop_headers. rewrite !fold_remove, list_filter_filter.
  apply list_filter_iff. intros p. unfold hop. tauto.
Qed.

Lemma get_all_cons key n v h :
  get_all key ((n, v) :: h) = if decide (n = lower key) then v :: get_all key h else get_all key h.
Proof. unfold get_all. cbn [omap list_omap]. by case_decide. Qed.

Lemma get_all_app key h1 h2 : get_all key (h1 ++ h2) = get_all key h1 ++ get_all key h2.
Proof. apply omap_app. Qed.

Lemma get_all_filter (P : string * string → Prop) `{!∀ p, Decision (P p)} (Q : Prop) `{!Decision Q} key h :
  (∀ v, P (lower key, v) ↔ Q) → get_all key (filter P h) = if decide Q then get_all key h else [].
Proof.
  intros HQ. induction h as [|[n v] h IH]; [by case_decide|].
  rewrite filter_cons. destruct (decide (P (n, v))) as [E|E]; rewrite !get_all_cons, ?IH; clear IH.
  - destruct (decide (n = lower key)) as [->|]; [|done]. destruct (decide Q) as [|HQn]; [done|]. by apply HQ in E.
  - destruct (decide (n = lower key)) as [->|]; [|done]. destruct (decide Q) as [HQ'|]; [|done]. by apply (HQ v) in HQ'.
Qed.

Lemma get_all_without key name h :
  get_all name (without key h) = if decide (lower name ≠ lower key) then get_all name h else [].
Proof. by apply get_all_filter. Qed.

Lemma get_all_clear name h :
  get_all name (clear_hop_headers h) = if decide (hop h (lower name)) then [] else get_all name h.
Proof.
  rewrite clear_hop_filter, (get_all_filter _ (¬ hop h (lower name))) by done.
  destruct (decide (hop h (lower name))); [by rewrite decide_False by tauto|by rewrite decide_True].
Qed.

#[local] Opaque clear_hop_headers.

Lemma get_all_insert key value name h :
  get_all name (insert key value h) = if decide (lower name = lower key) then [value] else get_all name h.
Proof.
  unfold insert. rewrite get_all_app, get_all_cons.
  change (filter _ h) with (without key h). rewrite get_all_without.
  destruct (decide (lower name = lower key)) as [->|E].
  - rewrite decide_False by (intros H; by apply H). by rewrite decide_True.
  - rewrite decide_True, decide_False by congruence. apply app_nil_r.
Qed.

(** The [Connection] header the proxy sends for a keep-alive decision. *)
Definition connection_value (v : Version) (keep_alive : bool) : list string :=
  match v, keep_alive with
  | HTTP_10, true => ["keep-alive"%string]
  | HTTP_11, false => ["close"%string]
  | _, _ => []
  end.

Lemma hop_connection h : hop h (lower "Connection").
Proof. right. apply list_elem_of_fmap. exists "Connection"%string. split; [done|]. unfold HOP_BY_HOP_HEADERS. rewrite !elem_of_cons. tauto. Qed.

Lemma set_keep_alive_get v h0 keep h' name :
  set_conn_keep_alive v h0 keep = Ok h' → get_all "Connection" h0 = [] →
  get_all name h' = if decide (lower name = lower "Connection") then connection_value v keep else get_all name h0.
Proof.
  intros E Hn. assert (Hn' : lower name = lower "Connection" → get_all name h0 = []).
  { intros En. rewrite <- Hn. unfold get_all. by rewrite En. }
  generalize (get_all_insert "Connection" "keep-alive" name h0) (get_all_insert "Connection" "close" name h0).
  destruct (decide (lower name = lower "Connection")) as [En|En]; intros I1 I2.
  - specialize (Hn' En). destruct v, keep; cbn in E; try discriminate E; injection E as <-; cbn; congruence.
  - destruct v, keep; cbn in E; try discriminate E; injection E as <-; cbn; congruence.
Qed.

Lemma passed_on v h keep h' name :
  set_conn_keep_alive v (clear_hop_headers h) keep = Ok h' →
  get_all name h' =
    if decide (hop h (lower name))
    then if decide (lower name = lower "Connection") then connection_value v keep else []
    else get_all name h.
Proof.
  intros E. rewrite (set_keep_alive_get _ _ _ _ _ E), get_all_clear.
  2: { rewrite get_all_clear. by rewrite (decide_True _ _ (hop_connection h)). }
  destruct (decide (hop h (lower name))) as [Hp|Hp]; [done|].
  rewrite decide_False; [done|]. intros En. apply Hp. rewrite En. apply hop_connection.
Qed.

(** The proxy passes on end-to-end headers and nothing else.  A request that
    is sent on keeps its method and version; every header that is not
    hop-by-hop, neither by itself nor because a [Connection] or
    [Proxy-Connection] header names it, is passed on with all its values in
    order; of the others only the proxy's own [Connection] header is left.  The
    same holds for the response that comes back. *)
Theorem forwarded_headers parse_authority req h req' keep send r r' name :
  dispatch parse_authority req = Ok (Forward h req' keep) →
  send req' = Some r → server_dispatch parse_authority true send req = Ok r' →
  (method req' = method req ∧ version req' = version req ∧
   get_all name (headers req') =
     if decide (hop (headers req) (lower name))
     then if decide (lower name = lower "Connection") then connection_value (version req) keep else []
     else get_all name (headers req)) ∧
  status r' = status r ∧ ∃ keep', (keep' = true → keep = true) ∧
  get_all name (res_headers r') =
    if decide (hop (res_headers r) (lower name))
    then if decide (lower name = lower "Connection") then connection_value (res_version r) keep' else []
    else get_all name (res_headers r).
Proof.
  intros Ed Es Er. split.
  - unfold dispatch in Ed. res_inv. destruct x as [[h0 req0]|]; [|done].
    assert (Hq : method req0 = method req ∧ version req0 = version req ∧ headers req0 = headers req).
    { unfold request_host in *. repeat case_match; res_inv; done. }
    destruct Hq as (Hm & Hv & Hh). case_match; [done|]. res_inv. rewrite <- Hm, <- Hv, <- Hh.
    split_and!; [done..|]. by eapply passed_on.
  - unfold server_dispatch in Er. rewrite Ed in Er. cbn [mbind res_bind] in Er. rewrite Es in Er. res_inv.
    split; [done|]. exists (keep && x). split; [by destruct keep|]. by eapply passed_on.
Qed.

(** ** Where a forwarded request goes *)

(** An authority without user information whose host is a name or an IPv4
    address, and whose port, if any, is a number. *)
Definition plain_authority (a : Authority) : Prop :=
  userinfo a = None ∧ no_char colon (host a) = true ∧ no_char lbracket (host a) = true ∧
  ∀ t, port_text a = Some t → all_chars is_digit t = true ∧ t ≠ EmptyString ∧
    ∃ n, parse_digits 0 t = Some n ∧ 0 <= n < 65536.

(** The readers look no further than where they stop. *)
Lemma span_ext p s rest : stops p rest = true →
  span p (String.append s rest) = let '(l, r) := span p s in (l, String.append r rest).
Proof.
  intros Hr. induction s as [|a s IH].
  - destruct rest as [|b rest]; [done|]. simpl in *. by destruct (p b).
  - rewrite append_cons. cbn [span]. rewrite IH.
    destruct (p a); [|done]. by destruct (span p s).
Qed.

Lemma read_octet_ext s rest : stops is_digit rest = true →
  read_octet (String.append s rest) = '(n, r) ← read_octet s; Some (n, String.append r rest).
Proof.
  intros Hr. unfold read_octet. rewrite span_ext by done. destruct (span is_digit s) as [d r].
  by destruct (octet_of d).
Qed.

Lemma read_char_ext c d s rest : c ≠ d →
  read_char c (String.append s (String d rest)) = r ← read_char c s; Some (String.append r (String d rest)).
Proof.
  intros Hc. destruct s as [|a s].
  - change (String.append EmptyString ?x) with x. unfold read_char. by rewrite decide_False by done.
  - rewrite append_cons. unfold read_char. by case_decide.
Qed.

Lemma read_ipv4_ext d s rest : is_digit d = false → dot ≠ d →
  read_ipv4 (String.append s (String d rest)) = '(n, r) ← read_ipv4 s; Some (n, String.append r (String d rest)).
Proof.
  intros Hd Hdot. assert (Hs : stops is_digit (String d rest) = true) by (simpl; by rewrite Hd).
  unfold read_ipv4.
  repeat (rewrite ?read_octet_ext, ?read_char_ext by done;
    match goal with
    | |- context [read_octet ?s ≫= _] => destruct (read_octet s) as [[? ?]|]; cbn [mbind option_bind]; [|done]
    | |- context [read_char ?c ?s ≫= _] => destruct (read_char c s); cbn [mbind option_bind]; [|done]
    end). done.
Qed.

(** Suffixes keep the absence of a character. *)
Lemma span_no_char p c s l r : span p s = (l, r) → no_char c s = true → no_char c r = true.
Proof.
  revert l. induction s as [|a s IH]; intros l; [intros [= _ <-]; done|]. simpl.
  destruct (p a); [|by intros [= _ <-]]. destruct (span p s) as [l' r'] eqn:E. intros [= _ <-].
  unfold no_char, all_chars. cbn. intros [_ H]%andb_true_iff. by eapply IH.
Qed.

Lemma read_octet_no_char c s n r : read_octet s = Some (n, r) → no_char c s = true → no_char c r = true.
Proof.
  unfold read_octet. destruct (span is_digit s) as [d r'] eqn:E. destruct (octet_of d); [|done].
  intros [= _ <-]. by eapply span_no_char.
Qed.

Lemma read_char_no_char c d s r : read_char d s = Some r → no_char c s = true → no_char c r = true.
Proof.
  destruct s as [|a s]; [done|]. unfold read_char. case_decide; [|done]. intros [= <-].
  unfold no_char, all_chars. cbn. by intros [_ H0]%andb_true_iff.
Qed.

Lemma read_ipv4_no_char c s n r : read_ipv4 s = Some (n, r) → no_char c s = true → no_char c r = true.
Proof.
  unfold read_ipv4. intros E Hs.
  repeat match goal with
  | H : context [read_octet ?s ≫= _] |- _ =>
      let E' := fresh in destruct (read_octet s) as [[? ?]|] eqn:E'; cbn [mbind option_bind] in H; [|done];
      apply (read_octet_no_char c) in E'; [|assumption]
  | H : context [read_char ?d ?s ≫= _] |- _ =>
      let E' := fresh in destruct (read_char d s) eqn:E'; cbn [mbind option_bind] in H; [|done];
      apply (read_char_no_char c) in E'; [|assumption]
  end. by injection E as _ <-.
Qed.

Lemma read_char_absent c s : no_char c s = true → read_char c s = None.
Proof.
  destruct s as [|a s]; [done|]. unfold no_char, all_chars, read_char. cbn. intros [H _]%andb_true_iff.
  rewrite decide_False; [done|]. intros ->. by rewrite bool_decide_eq_true_2 in H.
Qed.

(** An IPv6 address has a colon. *)
Lemma parse_ipv6_colon s : no_char colon s = true → parse_ipv6 s = None.
Proof.
  intros Hs. unfold parse_ipv6, read_ipv6. cbn [read_groups read_sep mbind option_bind].
  destruct (read_ipv4 s) as [[a r]|] eqn:E4; [done|].
  destruct (read_group s) as [[g r]|] eqn:Eg; cbn [app length Nat.eqb].
  - assert (Hr : no_char colon r = true).
    { unfold read_group in Eg. destruct (span is_hex s) as [d r'] eqn:E. case_match; [done|]. simplify_eq.
      by eapply span_no_char. }
    rewrite !(read_char_absent colon r) by done. cbn [mbind option_bind length Nat.eqb]. by rewrite read_char_absent.
  - by rewrite (read_char_absent colon s).
Qed.

Lemma read_port_digits t n : all_chars is_digit t = true → t ≠ EmptyString →
  parse_digits 0 t = Some n → 0 <= n < 65536 → read_port t = Some (n, EmptyString).
Proof.
  intros Hd Ht Hn Hr. unfold read_port.
  assert (span is_digit t = (t, EmptyString)) as -> by (rewrite <- (append_nil_r t) at 1; by apply span_app).
  destruct t as [|a t]; [done|]. rewrite Hn. cbn [mbind option_bind].
  by destruct (Z.ltb_spec n 65536); [|lia].
Qed.

Lemma parse_addr_host_port h t n : no_char colon h = true → no_char lbracket h = true →
  all_chars is_digit t = true → t ≠ EmptyString → parse_digits 0 t = Some n → 0 <= n < 65536 →
  parse_addr (String.append h (String colon t)) = (λ a, mkAddr (V4 a) n) <$> parse_ipv4 h.
Proof.
  intros Hc Hb Hd Ht Hn Hr. unfold parse_addr, parse_ipv4, read_sockaddr_v4, read_sockaddr_v6.
  rewrite read_ipv4_ext, (read_char_ext lbracket), (read_char_absent lbracket h) by done.
  destruct (read_ipv4 h) as [[v r]|] eqn:E4; cbn [mbind option_bind]; [|done].
  destruct r as [|b r]; cbn [at_end].
  - change (String.append EmptyString ?x) with x. rewrite read_char_eq. cbn [mbind option_bind].
    by rewrite (read_port_digits _ _ Hd Ht Hn Hr).
  - apply (read_ipv4_no_char colon) in E4; [|done]. apply read_char_absent in E4.
    rewrite append_cons. unfold read_char in *. case_decide; [done|]. done.
Qed.

Lemma not_bracketed h : no_char lbracket h = true → starts_with lbracket h = false.
Proof.
  destruct h as [|a h]; [done|]. unfold no_char, all_chars. cbn. intros [H _]%andb_true_iff.
  by destruct (bool_decide (a = lbracket)).
Qed.

(** The two routines that find the address of an authority agree on plain ones. *)
Lemma host_addr_authority s a pq x : plain_authority a → authority_addr s a = Some x →
  host_addr (mkUri (match s with None => Some "http"%string | _ => s end) (Some a) pq) = Some x.
Proof.
  intros (Hu & Hc & Hb & Hp). unfold authority_addr, host_addr, port_u16, as_str. cbn [authority scheme].
  rewrite Hu, (not_bracketed _ Hb). cbn [andb].
  assert (Hs : default_port (match s with None => Some "http"%string | _ => s end) = default_port s) by (by destruct s).
  rewrite Hs. destruct (port_text a) as [t|] eqn:Et; cbn [mbind option_bind].
  - destruct (Hp t eq_refl) as (Hd & Ht & n & Hn & Hr).
    rewrite (parse_uint_digits _ _ Hd Ht Hn Hr), (parse_addr_host_port _ _ _ Hc Hb Hd Ht Hn Hr).
    cbn [mbind option_bind]. by destruct (parse_ipv4 (host a)).
  - destruct (default_port s) as [n|]; cbn [mbind option_bind]; [|done].
    rewrite (not_bracketed _ Hb). cbn [andb]. unfold parse_ip. rewrite (parse_ipv6_colon _ Hc).
    by destruct (parse_ipv4 (host a)).
Qed.

(** A forwarded request goes to the host the proxy has resolved.  The
    destination is computed twice, by the dispatcher (from the URI or the [Host]
    header) and by the connector from the URI sent on; for authorities without
    user information and IPv6 literals both find the same. *)
Theorem forward_reaches_host parse_authority req h req' keep :
  dispatch parse_authority req = Ok (Forward h req' keep) →
  (∀ a, authority (uri req) = None → authority (uri req') = Some a → plain_authority a) →
  connector_call (uri req') = Ok (Address_to_string h).
Proof.
  intros Ed Hpl. unfold dispatch in Ed. destruct (request_host _ req) as [[[h0 req0]|]| |] eqn:Er;
    cbn [mbind res_bind] in Ed; try discriminate Ed.
  destruct (String.eqb (method req0) "CONNECT"); [discriminate Ed|].
  apply bind_Ok in Ed as (k & _ & Ed). apply bind_Ok in Ed as (hs & _ & Ed). injection Ed as <- <- _.
  cbn [uri]. cbn [uri] in Hpl. unfold request_host in Er.
  destruct (host_addr (uri req)) as [h1|] eqn:Eh.
  { injection Er as <- <-. unfold connector_call. by rewrite Eh. }
  destruct (authority (uri req)) as [a|] eqn:Ea; [discriminate Er|].
  match type of Er with match ?o with _ => _ end = _ => destruct o as [[a h1]|] eqn:Eo end; [|discriminate Er].
  assert (Hh : authority_addr (scheme (uri req)) a = Some h1).
  { destruct (head _); cbn [mbind option_bind] in Eo; [|done]. destruct (to_str _); cbn [mbind option_bind] in Eo; [|done].
    destruct (parse_authority _) as [a'|]; cbn [mbind option_bind] in Eo; [|done].
    destruct (authority_addr _ a') eqn:E; cbn [mbind option_bind] in Eo; [|done]. by injection Eo as -> ->. }
  unfold from_parts in Er. cbn [scheme authority path_and_query] in Er.
  destruct (path_and_query (uri req)) as [pq|]; [|by destruct (scheme (uri req))].
  assert (Hr : h1 = h0 ∧ uri req0 = mkUri (match scheme (uri req) with None => Some "http"%string | s => s end) (Some a) (Some pq)).
  { destruct (scheme (uri req)); cbn [unwrap mbind res_bind] in Er; by injection Er as <- <-. }
  destruct Hr as [<- Hr]. rewrite Hr in *. pose proof (host_addr_authority _ _ (Some pq) _ (Hpl a eq_refl eq_refl) Hh) as E.
  unfold connector_call. destruct (scheme (uri req)); by rewrite E.
Qed.

(** With user information in the [Host] header they do not agree: the dispatcher
    leaves it out, the connector takes it for a part of the name. *)
Definition with_userinfo : Authority := mkAuthority (Some "user"%string) "example.com" None.
Lemma userinfo_disagrees :
  Address_to_string <$> authority_addr None with_userinfo = Some "example.com:80"%string ∧
  connector_call (mkUri (Some "http"%string) (Some with_userinfo) (Some "/"%string)) = Ok "user@example.com:80"%string.
Proof. vm_compute. split; reflexivity. Qed.

(** ** A run *)

Module HttpDemo.
Definition parse_authority (s : string) : option Authority :=
  if String.eqb s "example.com:8080" then Some (mkAuthority None "example.com" (Some "8080"%string)) else None.
Definition req : Request := mkRequest "GET" (mkUri None None (Some "/"%string)) HTTP_11
  [("host", "example.com:8080"); ("proxy-connection", "keep-alive"); ("x-trace", "1"); ("accept", "a");
   ("connection", "close, X-Trace"); ("accept", "b")]%string.
Definition answer : Response := mkResponse 204 HTTP_11 [("connection", "close"); ("server", "s")]%string.
Definition send (_ : Request) : option Response := Some answer.
End HttpDemo.

Example http_run :
  (match dispatch HttpDemo.parse_authority HttpDemo.req with
   | Ok (Forward h r keep) => Some (Address_to_string h, headers r, keep)
   | _ => None
   end) = Some ("example.com:8080", [("host", "example.com:8080"); ("accept", "a"); ("accept", "b")], true)%string ∧
  server_dispatch HttpDemo.parse_authority true HttpDemo.send HttpDemo.req
  = Ok (mkResponse 204 HTTP_11 [("server", "s"); ("connection", "close")]%string).
Proof. vm_compute. split; reflexivity. Qed.

Lemma forwarded_headers_witness :
  ∃ h req' keep r', dispatch HttpDemo.parse_authority HttpDemo.req = Ok (Forward h req' keep) ∧
    server_dispatch HttpDemo.parse_authority true HttpDemo.send HttpDemo.req = Ok r' ∧
    get_all "accept" (headers req') = ["a"; "b"]%string ∧ status r' = 204.
Proof.
  destruct (dispatch HttpDemo.parse_authority HttpDemo.req) as [[| |h req' keep]| |] eqn:Ed; try (vm_compute in Ed; discriminate Ed).
  destruct (server_dispatch HttpDemo.parse_authority true HttpDemo.send HttpDemo.req) as [r'| |] eqn:Er;
    [|vm_compute in Er; discriminate Er..].
  destruct (forwarded_headers HttpDemo.parse_authority HttpDemo.req h req' keep HttpDemo.send HttpDemo.answer r' "accept"
    Ed eq_refl Er) as [(_ & _ & Ha) (Hs & _)].
  exists h, req', keep, r'. split_and!; [done|done|rewrite Ha; vm_compute; reflexivity|exact Hs].
Defined.

Lemma forward_reaches_host_witness :
  ∃ h req' keep, dispatch HttpDemo.parse_authority HttpDemo.req = Ok (Forward h req' keep) ∧
    connector_call (uri req') = Ok (Address_to_string h).
Proof.
  destruct (dispatch HttpDemo.parse_authority HttpDemo.req) as [[| |h req' keep]| |] eqn:Ed; try (vm_compute in Ed; discriminate Ed).
  exists h, req', keep. split; [done|]. apply (forward_reaches_host HttpDemo.parse_authority HttpDemo.req h req' keep Ed).
  vm_compute in Ed. injection Ed as _ <- _. intros a _ [= <-]. split_and!; try done.
  intros t [= <-]. split_and!; [done..|]. exists 8080. split; [done|lia].
Defined.
