(* ===== verification/Vpn.v ===== *)
(** * Captured traffic: VPN, SOCKS5 and tunnelled datagrams
    (binaries/geph5-client/src/{vpn,socks5,litecopy,client}.rs, the UDP loops of
    binaries/geph5-exit/src/proxy.rs)

    The client captures IP packets (through the system, or handed over by an
    embedding program), a user-space stack turns them into streams, and each
    stream is answered by the spoofed DNS or opened through [open_conn].
    Datagrams travel through a stream as a 16-bit length and the payload.  The
    stack and the SOCKS5 codec are other crates: what they hand over is input. *)
From Stdlib Require Import ZArith Lia.
From stdpp Require Import pretty.
From S2P Require Import Prelude Crypto Protocol Text IpText Cache ExitNet ClientNet.
Local Open Scope Z_scope.

(** ** Packet queues (vpn.rs) *)

Definition VPN_CAPACITY : nat := 100.

(** [ArrayQueue::push]: a full queue refuses the element, and the caller ignores it. *)
Definition array_push {A} (a : A) (q : list A) : list A :=
  if decide (length q < VPN_CAPACITY)%nat then q ++ [a] else q.
Definition array_pop {A} (q : list A) : option A * list A :=
  match q with [] => (None, []) | a :: q => (Some a, q) end.

Record vpn_queues := mkQueues { VPN_CAPTURE : list (list byte * Z); VPN_INJECT : list (list byte) }.

Definition send_vpn_packet (now : Z) (bts : list byte) (q : vpn_queues) : vpn_queues :=
  mkQueues (array_push (bts, now) (VPN_CAPTURE q)) (VPN_INJECT q).
(** [None]: nothing to receive yet. *)
Definition recv_vpn_packet (q : vpn_queues) : option (list byte) * vpn_queues :=
  let '(o, l) := array_pop (VPN_INJECT q) in (o, mkQueues (VPN_CAPTURE q) l).

(** The loops that run when the system is not captured: [send_captured] and
    [recv_injected] are the stack's channels. *)
Definition shuffle_up (q : vpn_queues) : option (list byte) * vpn_queues :=
  let '(o, l) := array_pop (VPN_CAPTURE q) in (fst <$> o, mkQueues l (VPN_INJECT q)).
Definition shuffle_down (bts : list byte) (q : vpn_queues) : vpn_queues :=
  mkQueues (VPN_CAPTURE q) (array_push bts (VPN_INJECT q)).

(** A packet file descriptor (client.rs): packets read from it are captured until
    end of file or an error. *)
Fixpoint vpn_fd_read (now : Z) (reads : list (res io_error (list byte))) (q : vpn_queues) : vpn_queues :=
  match reads with
  | Ok (b :: bs) :: reads => vpn_fd_read now reads (send_vpn_packet now (b :: bs) q)
  | _ => q
  end.

(** ** Copying (litecopy.rs) *)

(** What a copy writes and what it returns, for the results of its reads. *)
Fixpoint litecopy (reads : list (res io_error (list byte))) : list byte * res io_error Z :=
  match reads with
  | [] => ([], Ok 0)
  | Ok [] :: _ => ([], Ok 0)
  | Ok val :: reads =>
      let '(out, r) := litecopy reads in (val ++ out, n ← r; Ok (n + Z.of_nat (length val)))
  | Err e :: _ => ([], Err e)
  | Panic :: _ => ([], Panic)
  end.

(** ** Captured streams (vpn.rs) *)

Inductive captured := CapTcp (peer_addr : SocketAddr) | CapUdp (peer_addr : SocketAddr) | CapUnknown.

(** What a captured stream gets. *)
Inductive vpn_action :=
| VpnTcp (o : opened)
| VpnUdp (o : opened)
| VpnFakeDns
| VpnNothing.

Definition public_dns : SocketAddr := mkAddr (V4 (v4 1 1 1 1)) 53.

Section vpn.
Context (domain_labels : string → option (list string)) (suffix_known : string → option bool).
Context (china_domain : list string → bool) (china_net : Z → bool).
Context (resolve : string → res string (list SocketAddr)).
Context (passthrough_china spoof_dns : bool).
Abbreviation open_conn := (open_conn parse_ip parse_addr domain_labels suffix_known china_domain china_net
  resolve passthrough_china).

Definition vpn_stream (d : fake_dns) (c : captured) : res string vpn_action :=
  match c with
  | CapTcp peer_addr => o ← open_conn d "tcp" (addr_to_string peer_addr); Ok (VpnTcp o)
  | CapUdp peer_addr =>
      let peer_addr := if port peer_addr =? 53 then public_dns else peer_addr in
      if (port peer_addr =? 53) && spoof_dns then Ok VpnFakeDns
      else o ← open_conn d "udp" (addr_to_string peer_addr); Ok (VpnUdp o)
  | CapUnknown => Ok VpnNothing
  end.

(** ** SOCKS5 requests (socks5.rs) *)

Inductive SocksV5Host := SocksDomain (name : string) | SocksIpv4 (a : Z) | SocksIpv6 (a : Z).

Definition socks5_remote (host : SocksV5Host) (port : Z) : res string string :=
  domain ← match host with
           | SocksDomain dom => Ok dom
           | SocksIpv4 a => Ok (ipv4_to_string a)
           | SocksIpv6 _ => Err "IPv6 not supported"%string
           end;
  Ok (String.append domain (String IpText.colon (dec port))).

Definition socks5_request (d : fake_dns) (host : SocksV5Host) (port : Z) : res string opened :=
  remote_addr ← socks5_remote host port; open_conn d "tcp" remote_addr.

End vpn.

(** ** Datagrams in a stream *)

(** [(len as u16).to_le_bytes()] and the payload. *)
Definition datagram (p : list byte) : list byte := le_bytes 2 (cast_u 16 (Z.of_nat (length p))) ++ p.

(** [up_loop] of the client: one write per captured datagram. *)
Definition vpn_udp_up (packets : list (list byte)) : list byte := concat (map datagram packets).

(** The reading loops ([dn_loop] of the client, [up_loop] of the exit,
    [proxy_dns]): the datagrams found in a stream and how the loop ends. *)
Fixpoint read_datagrams (fuel : nat) (input : list byte) : list (list byte) * res io_error (list byte) :=
  match fuel with
  | O => ([], Ok input)
  | S fuel =>
      match read_exact 2 input with
      | Ok (len_buf, rest) =>
          match read_exact (Z.to_nat (le_val len_buf)) rest with
          | Ok (buf, rest) => let '(l, r) := read_datagrams fuel rest in (buf :: l, r)
          | Err e => ([], Err e)
          | Panic => ([], Panic)
          end
      | Err e => ([], Err e)
      | Panic => ([], Panic)
      end
  end.
Definition datagrams (input : list byte) : list (list byte) * res io_error (list byte) :=
  read_datagrams (S (length input)) input.

Definition vpn_udp_down (input : list byte) : list (list byte) := (datagrams input).1.
(** [up_loop] of the exit: the datagrams it sends. *)
Definition exit_udp_up (input : list byte) : list (list byte) := (datagrams input).1.
(** [dn_loop] of the exit: [recv] into [buf[2..]] of an 8192-byte buffer cuts a
    datagram off; length and data are written in one call. *)
Definition exit_udp_down (received : list (list byte)) : list byte :=
  concat (map (λ d, datagram (take (Z.to_nat 8190) d)) received).
(** [proxy_dns]: the requests of the stream; answers are written one at a time
    under a lock, in the order they come. *)
Definition proxy_dns_requests (input : list byte) : list (list byte) := (datagrams input).1.
Definition proxy_dns_answers (responses : list (list byte)) : list byte := concat (map datagram responses).

(** ** What the tunnel delivers *)

Definition small (p : list byte) : Prop := Z.of_nat (length p) < 2 ^ 16.

Lemma length_datagram p : length (datagram p) = (2 + length p)%nat.
Proof. unfold datagram. by rewrite length_app, length_le_bytes. Qed.

(** One turn of a reading loop on a datagram that has arrived. *)
Lemma read_datagrams_cons fuel p rest : small p →
  read_datagrams (S fuel) (datagram p ++ rest) =
    let '(l, r) := read_datagrams fuel rest in (p :: l, r).
Proof.
  intros Hp. cbn [read_datagrams]. unfold datagram. rewrite <- app_assoc.
  rewrite read_exact_app by apply length_le_bytes. rewrite le_val_small; [|split; [by apply Z.mod_pos_bound|]].
  - rewrite cast_u_small by (unfold small in Hp; lia). rewrite Nat2Z.id, read_exact_app; done.
  - change (256 ^ Z.of_nat 2) with (2 ^ 16). by apply Z.mod_pos_bound.
Qed.

(** ... and on one that is not complete yet. *)
Lemma read_datagrams_partial fuel p w : small p → w `prefix_of` datagram p → w ≠ datagram p →
  (read_datagrams fuel w).1 = [].
Proof.
  intros Hp [k Hk] Hne. destruct fuel as [|fuel]; [done|]. cbn [read_datagrams].
  destruct (decide (length w < 2)%nat) as [Hl|Hl]; [by rewrite read_exact_short|].
  unfold datagram in Hk.
  assert (Hw : ∃ w', w = le_bytes 2 (cast_u 16 (Z.of_nat (length p))) ++ w' ∧ p = w' ++ k).
  { exists (drop 2 w). rewrite <- (take_drop 2 w) in Hk at 1. rewrite <- app_assoc in Hk.
    apply app_inj_1 in Hk as [H1 H2]; [|rewrite length_le_bytes, length_take; lia].
    split; [|done]. by rewrite H1, take_drop. }
  destruct Hw as (w' & -> & ->). rewrite read_exact_app by apply length_le_bytes.
  rewrite le_val_small; [|split; [by apply Z.mod_pos_bound|by apply Z.mod_pos_bound]].
  rewrite cast_u_small by (unfold small in Hp; lia). rewrite Nat2Z.id.
  rewrite read_exact_short; [done|]. rewrite length_app. destruct k as [|x k]; [|simpl; lia].
  exfalso. apply Hne. by rewrite app_nil_r.
Qed.

Lemma datagrams_prefix packets : ∀ fuel w, Forall small packets → (length w < fuel)%nat →
  w `prefix_of` concat (map datagram packets) →
  (read_datagrams fuel w).1 `prefix_of` packets ∧
  (w = concat (map datagram packets) → (read_datagrams fuel w).1 = packets).
Proof.
  induction packets as [|p packets IH]; intros fuel w Hs Hf Hw.
  - apply prefix_nil_inv in Hw as ->. destruct fuel as [|fuel]; [simpl in Hf; lia|]. done.
  - apply Forall_cons in Hs as [Hp Hs]. cbn [map concat] in *.
    destruct (decide (length w < length (datagram p))%nat) as [Hl|Hl].
    + assert (Hd : w `prefix_of` datagram p).
      { destruct Hw as [k Hk]. exists (drop (length w) (datagram p)).
        rewrite <- (take_drop (length w) (datagram p)) at 1. f_equal.
        apply (f_equal (take (length w))) in Hk. rewrite take_app_le in Hk by lia.
        by rewrite take_app_length in Hk. }
      rewrite (read_datagrams_partial _ p) by (done || intros ->; lia).
      split; [apply prefix_nil|]. intros ->. rewrite length_app in Hl. lia.
    + destruct Hw as [k Hk].
      assert (Hw : ∃ w', w = datagram p ++ w' ∧ concat (map datagram packets) = w' ++ k).
      { exists (drop (length (datagram p)) w). rewrite <- (take_drop (length (datagram p)) w) in Hk at 1.
        rewrite <- app_assoc in Hk. apply app_inj_1 in Hk as [H1 H2]; [|rewrite length_take; lia].
        split; [|done]. by rewrite H1 at 1; rewrite take_drop. }
      destruct Hw as (w' & -> & Hk'). rewrite length_app, length_datagram in Hf.
      destruct fuel as [|fuel]; [lia|]. rewrite read_datagrams_cons by done.
      destruct (IH fuel w' Hs ltac:(lia) (ex_intro _ k Hk')) as [IH1 IH2].
      destruct (read_datagrams fuel w') as [l r]. cbn [fst] in *. split; [by apply prefix_cons|].
      intros Hw%app_inv_head. by rewrite IH2.
Qed.

(** Datagrams pass through a tunnelled stream whole and in order.  Whatever
    prefix of the stream has arrived, the exit sends out the first of the
    captured datagrams and nothing else, all of them once all bytes are there;
    in the other direction likewise, with answers cut to 8190 bytes. *)
Theorem udp_tunnel packets received w w' :
  Forall small packets → w `prefix_of` vpn_udp_up packets → w' `prefix_of` exit_udp_down received →
  exit_udp_up w `prefix_of` packets ∧ (w = vpn_udp_up packets → exit_udp_up w = packets) ∧
  vpn_udp_down w' `prefix_of` map (take (Z.to_nat 8190)) received ∧
  (w' = exit_udp_down received → vpn_udp_down w' = map (take (Z.to_nat 8190)) received).
Proof.
  intros Hs Hw Hw'. destruct (datagrams_prefix packets (S (length w)) w Hs ltac:(lia) Hw) as [U1 U2].
  unfold exit_udp_down in *. rewrite <- (map_map (take (Z.to_nat 8190)) datagram) in *.
  destruct (datagrams_prefix (map (take (Z.to_nat 8190)) received) (S (length w')) w') as [D1 D2]; [|lia|done|by split_and!].
  apply Forall_fmap, Forall_true. intros p. unfold small. simpl. rewrite length_take. lia.
Qed.

(** ** A spoofed name reaches the exit *)

Section reach.
Context (domain_labels : string → option (list string)) (suffix_known : string → option bool).
Context (china_domain : list string → bool) (china_net : Z → bool).
Context (resolve : string → res string (list SocketAddr)).
Context (passthrough_china spoof_dns : bool).
Context (check_host : string → res string unit) (query_a : string → res string (list RData)).
Context `{TtlCache string (list SocketAddr)}.

(** C26: a spoofed address stands for a name from end to end.  An application looks
    a name up, gets a spoofed address and connects to it, through the VPN or with a
    SOCKS5 request.  Then the connection is one to a name that was given this very
    address: the looked-up name itself, unless another name drew the same address.
    If the client passes that name through, the name is resolved and connected
    to directly; otherwise a stream is opened through the tunnel, and what the exit
    does with it is what it does for a TCP connection to that name and port.  No
    part between reads the spoofed address as a real one. *)
Theorem spoofed_name_reaches_exit d offsets questions answers name a p
    whitelist now (c : cache_t string (list SocketAddr)) is_free :
  Forall (λ o, 0 <= o < 2 ^ 28) offsets →
  fake_dns_respond fake_dns_empty offsets questions = (d, answers) →
  forward d !! name = Some a → 0 <= p < 65536 →
  ∃ name', forward d !! name' = Some a ∧ ((∀ n, forward d !! n = Some a → n = name) → name' = name) ∧
    if whitelist_host parse_ip domain_labels suffix_known china_domain china_net passthrough_china name' then
      vpn_stream domain_labels suffix_known china_domain china_net resolve passthrough_china spoof_dns d
        (CapTcp (mkAddr (V4 a) p)) =
        (addrs ← resolve (String.append name' (String IpText.colon (dec p))); Ok (VpnTcp (Passthrough addrs))) ∧
      socks5_request domain_labels suffix_known china_domain china_net resolve passthrough_china d (SocksIpv4 a) p =
        (addrs ← resolve (String.append name' (String IpText.colon (dec p))); Ok (Passthrough addrs))
    else
      ∃ m,
        vpn_stream domain_labels suffix_known china_domain china_net resolve passthrough_china spoof_dns d
          (CapTcp (mkAddr (V4 a) p)) = Ok (VpnTcp (Tunnel m)) ∧
        socks5_request domain_labels suffix_known china_domain china_net resolve passthrough_china d
          (SocksIpv4 a) p = Ok (Tunnel m) ∧
        (no_char dollar name' = true →
         proxy_stream parse_addr check_host query_a whitelist now c m is_free =
         proxy_stream parse_addr check_host query_a whitelist now c
           (String.append name' (String IpText.colon (dec p))) is_free).
Proof.
  intros Ho Er Hf Hp. assert (Hi : fake_dns_inv d).
  { eapply respond_inv; [exact Ho| |exact Er]. by split; intros ? ?; rewrite ?lookup_empty. }
  destruct Hi as [I1 I2 I3]. destruct (I2 _ _ Hf) as [name' Hn]. exists name'. split; [by apply I3|]. split; [intros Hu; by apply Hu, I3|].
  set (dest := String.append name' (String IpText.colon (dec p))).
  assert (Ha : 0 <= a < 2 ^ 32).
  { specialize (I1 _ _ Hf). unfold in_block in I1. cbn [fst snd] in I1. apply Z.eqb_eq in I1.
    change (v4 240 0 0 0 / 2 ^ (32 - 4)) with 15 in I1. change (32 - 4) with 28 in I1.
    pose proof (Z.div_mod a (2 ^ 28) ltac:(lia)). pose proof (Z.mod_pos_bound a (2 ^ 28) ltac:(lia)). lia. }
  assert (Ht : addr_to_string (mkAddr (V4 a) p) = String.append (ipv4_to_string a) (String IpText.colon (dec p))) by done.
  assert (Hr : real_dest parse_addr d (addr_to_string (mkAddr (V4 a) p)) = dest).
  { unfold real_dest. rewrite parse_addr_to_string by (exists a; done). cbn [ip port].
    unfold fake_dns_backtranslate. by rewrite Hn. }
  assert (Hc : rsplit_once_char ExitNet.colon dest = Some (name', dec p)).
  { unfold dest. change ExitNet.colon with IpText.colon. by rewrite rsplit_once_app by (apply digits_no_char; [done|apply dec_digits]). }
  unfold vpn_stream, socks5_request, socks5_remote. cbn [mbind res_bind]. rewrite <- Ht. unfold open_conn. rewrite Hr, Hc.
  destruct (whitelist_host _ _ _ _ _ _ name'). { split; [|done]. by destruct (resolve dest). }
  exists (tunnel_metadata "tcp" dest). split_and!; [done..|]. intros Hd.
  assert (Hdd : no_char dollar dest = true).
  { apply no_char_app; [done|]. change (String IpText.colon (dec p)) with (String.append (String IpText.colon EmptyString) (dec p)).
    apply no_char_app; [done|]. apply digits_no_char; [done|apply dec_digits]. }
  unfold proxy_stream. rewrite (split_once_absent _ _ Hdd).
  change (split_once_char dollar (tunnel_metadata "tcp" dest)) with (Some ("tcp"%string, dest)). done.
Qed.
End reach.

(** ** Queues and copies *)

Lemma array_push_bounded {A} (a : A) q : (length q <= VPN_CAPACITY)%nat →
  (length (array_push a q) <= VPN_CAPACITY)%nat ∧ q `prefix_of` array_push a q.
Proof.
  intros Hq. unfold array_push. case_decide; [|done]. rewrite length_app. simpl. split; [lia|by eexists].
Qed.

(** A copy writes exactly what was read before the end or the error, and counts it. *)
Lemma litecopy_spec chunks rest :
  Forall (λ c : list byte, c ≠ []) chunks →
  litecopy (map Ok chunks ++ rest) =
    (concat chunks ++ (litecopy rest).1, n ← (litecopy rest).2; Ok (n + Z.of_nat (length (concat chunks)))).
Proof.
  induction 1 as [|c chunks Hc _ IH]; cbn [map app concat litecopy].
  - destruct (litecopy rest) as [out [n|e|]]; cbn; by rewrite ?Z.add_0_r.
  - destruct c as [|b c]; [done|]. rewrite IH. destruct (litecopy rest) as [out [n|e|]]; cbn [fst snd mbind res_bind];
      rewrite <- ?app_assoc; [|done..]. do 2 f_equal. rewrite !length_app. lia.
Qed.

Module VpnDemo.
#[export] Instance vcache : TtlCache string (list SocketAddr) := ListCache.list_cache 240000.
Definition d : fake_dns := (fake_dns_respond fake_dns_empty [5] [(QA, "a.com"%string)]).1.
Definition suffix_known (_ : string) : option bool := Some true.
End VpnDemo.
Import VpnDemo.

Lemma udp_tunnel_witness :
  exit_udp_up (vpn_udp_up [[x01; x02]; []; [x03]]) = [[x01; x02]; []; [x03]] ∧
  vpn_udp_down (exit_udp_down [[x07]]) = [[x07]].
Proof.
  destruct (udp_tunnel [[x01; x02]; []; [x03]] [[x07]] (vpn_udp_up [[x01; x02]; []; [x03]]) (exit_udp_down [[x07]]))
    as (_ & U & _ & D); [by repeat constructor|done|done|].
  split; [by apply U|]. rewrite D by done. reflexivity.
Defined.

Lemma spoofed_name_reaches_exit_witness : ∃ m,
  vpn_stream (λ _, None) VpnDemo.suffix_known (λ _, false) (λ _, false) (λ _, Ok []) false true VpnDemo.d
    (CapTcp (mkAddr (V4 (v4 240 0 0 5)) 80)) = Ok (VpnTcp (Tunnel m)) ∧
  proxy_stream parse_addr (λ _, Ok tt) (λ _, Ok [RA (v4 1 2 3 4)]) [] 0 cempty m false =
  proxy_stream parse_addr (λ _, Ok tt) (λ _, Ok [RA (v4 1 2 3 4)]) [] 0 cempty "a.com:80" false.
Proof.
  destruct (spoofed_name_reaches_exit (λ _, None) VpnDemo.suffix_known (λ _, false) (λ _, false) (λ _, Ok []) false true
    (λ _, Ok tt) (λ _, Ok [RA (v4 1 2 3 4)]) VpnDemo.d [5] [(QA, "a.com"%string)] [("a.com"%string, v4 240 0 0 5)]
    "a.com" (v4 240 0 0 5) 80 [] 0 cempty false) as (name' & _ & Hu & Hm);
    [by repeat constructor|reflexivity|reflexivity|lia|].
  assert (name' = "a.com"%string) as ->.
  { apply Hu. intros n. change (forward VpnDemo.d) with (<["a.com"%string := v4 240 0 0 5]> (∅ : gmap string Z)).
    by intros [[<- _]|[_ ?]]%lookup_insert_Some. }
  destruct Hm as (m & Hv & _ & He). exists m. split; [exact Hv|]. exact (He eq_refl).
Defined.
