(* ===== verification/RateLimit.v ===== *)
(** * Rate limits, load and task limit of an exit
    (binaries/geph5-exit/src/{ratelimit,tasklimit}.rs)

    Every user of an exit has a token bucket of the crate [governor], an
    interface here, shared by all sessions with the same token.  Before a chunk
    of bytes is passed on, [wait] charges it to the bucket, at a higher price
    when the exit is loaded, and retries with growing delays until the bucket
    allows it.  The price and the delays are computed in [f32].  Clock readings,
    random draws and how late a timer fires are arguments; times are in
    nanoseconds. *)
From Stdlib Require Import ZArith Lia Floats.SpecFloat.
From S2P Require Import Prelude Crypto Protocol Cache Float32.
Local Open Scope Z_scope.

(** ** The token bucket *)

(** [RateLimiter::direct] and [check_n] of [governor]; [None] is
    [InsufficientCapacity]. *)
Class Governor := {
  gov : Type;
  gov_direct : Z → Z → gov;
  gov_check_n : gov → Z → Z → option (bool * gov);
  gov_burst : gov → Z;
  gov_cell : gov → Z;
  gov_full : gov → Z
}.

(** [Quota::per_second(limit).allow_burst(burst)] holds [burst] cells, one comes
    back every [gov_cell] nanoseconds; [gov_full] is the time at which the
    bucket is full again if nothing more is taken, up to one cell.  A batch of at
    most [burst] cells is never refused for good, a refused batch changes
    nothing, and an accepted batch of [n] cells was in the bucket and moves the
    time of fullness by [n] cells. *)
Class GovernorLaws `{Governor} := {
  direct_quota l b : gov_burst (gov_direct l b) = b ∧ gov_cell (gov_direct l b) = 10 ^ 9 / l;
  direct_full l b : gov_full (gov_direct l b) <= 0;
  check_capacity g now n : 0 <= now → 0 <= gov_cell g → 1 <= n <= gov_burst g → gov_check_n g now n ≠ None;
  check_quota g now n b g' :
    gov_check_n g now n = Some (b, g') → gov_burst g' = gov_burst g ∧ gov_cell g' = gov_cell g;
  check_refused g now n g' : gov_check_n g now n = Some (false, g') → g' = g;
  check_when_full g now n b g' :
    0 <= now → 0 <= gov_cell g → 1 <= n <= gov_burst g → gov_full g <= now → gov_check_n g now n = Some (b, g') → b = true;
  check_cost g now n g' : 0 <= now → 0 <= gov_cell g → 1 <= n → gov_check_n g now n = Some (true, g') →
    Z.max (gov_full g) (now - gov_cell g) + n * gov_cell g <= gov_full g' <= now + gov_burst g * gov_cell g
}.

(** ** Load *)

Record exit_load := mkLoad {
  CPU_USAGE : f32;
  CURRENT_SPEED : f32;
  TOTAL_BYTE_COUNT : Z
}.

(** [get_load]; [total_ratelimit] of the configuration is in kB/s. *)
Definition get_load (total_ratelimit : Z) (s : exit_load) : f32 :=
  let cpu := f32_mul (CPU_USAGE s) (CPU_USAGE s) in
  let speed := f32_div (CURRENT_SPEED s) (f32_mul (f32_of_Z total_ratelimit) (f32_of_Z 1000)) in
  f32_max cpu speed.

Definition get_kbps (s : exit_load) : f32 := f32_div (CURRENT_SPEED s) (f32_of_Z 1000).

(** The local variables of [update_load_loop]. *)
Record load_vars := mkLoadVars { cpu_accum : f32; last_byte_count : Z; last_speed : f32 }.
Definition load_vars_init : load_vars := mkLoadVars (S754_zero false) 0 (S754_zero false).

Definition decayed (old new : f32) : f32 :=
  f32_add (f32_mul old (f32_dec 99 2)) (f32_mul new (f32_dec 1 2)).

(** One turn of the inner loop: [cpus] are the usages in percent, [elapsed] the
    seconds since the previous turn. *)
Definition update_load (cpus : list f32) (elapsed : f32) (v : load_vars) (s : exit_load)
    : res unit (load_vars * exit_load) :=
  let cpu_usage := f32_div (f32_div (foldl f32_add (S754_zero false) cpus) (f32_of_Z (Z.of_nat (length cpus))))
                           (f32_of_Z 100) in
  let cpu_accum' := decayed (cpu_accum v) cpu_usage in
  let new_byte_count := TOTAL_BYTE_COUNT s in
  byte_diff ← sub_u 64 new_byte_count (last_byte_count v);
  let byte_rate := f32_div (f32_of_Z byte_diff) elapsed in
  let last_speed' := decayed (last_speed v) byte_rate in
  Ok (mkLoadVars cpu_accum' new_byte_count last_speed', mkLoad cpu_accum' last_speed' new_byte_count).

(** ** Waiting *)

(** [multiplier] and the bytes charged, of [wait]. *)
Definition multiplier (load : f32) : f32 :=
  f32_div (f32_sub (f32_div (f32_of_Z 1) (f32_sub (f32_of_Z 1) (f32_min load (f32_dec 999 3)))) (f32_of_Z 1))
          (f32_of_Z 2).
Definition charge (load : f32) (bytes : Z) : Z :=
  f32_as_u32 (f32_min (f32_mul (f32_of_Z bytes) (f32_max (multiplier load) (f32_of_Z 1))) (f32_of_Z 100000)).

(** [Duration::from_secs_f32] in nanoseconds, rounded to the nearest; it panics
    on what is negative, not finite or has more than [2 ^ 64] seconds. *)
Definition from_secs_f32 (x : f32) : res unit Z :=
  match x with
  | S754_zero _ => Ok 0
  | S754_finite false m e =>
      if 0 <=? e then
        if Z.pos m * 2 ^ e <? 2 ^ 64 then Ok (Z.pos m * 2 ^ e * 10 ^ 9) else Panic
      else
        let d := 2 ^ (- e) in
        let q := Z.pos m * 10 ^ 9 / d in
        let r := Z.pos m * 10 ^ 9 mod d in
        Ok (if (d <? 2 * r) || ((2 * r =? d) && Z.odd q) then q + 1 else q)
  | _ => Panic
  end.

(** What [rand::random::<f32>()] can return: [0 <= r < 1]. *)
Definition unit_f32 (r : f32) : bool :=
  match r with
  | S754_zero _ => true
  | S754_finite false _ _ => f32_ltb r (f32_of_Z 1)
  | _ => false
  end.

Section with_governor.
Context `{GovernorLaws}.

Definition RateLimiter_new (limit_kb burst_kb : Z) : res unit gov :=
  limit ← add_u 32 limit_kb 1 ≫= λ x, mul_u 32 x 1024;
  burst ← mul_u 32 burst_kb 1024;
  if (limit =? 0) || (burst =? 0) then Panic else Ok (gov_direct limit burst).

(** One evaluation of the condition of the loop. *)
Definition check_once (g : gov) (now n : Z) : res unit (bool * gov) :=
  if n =? 0 then Panic else unwrap (gov_check_n g now n).

(** The loop of [wait]: [late] says how long after the delay the timer fires,
    [Err tt] that the loop is still waiting when [env] ends. *)
Fixpoint wait_loop (g : gov) (n : Z) (delay : f32) (now : Z) (env : list (f32 * Z)) : res unit (gov * Z) :=
  match check_once g now n with
  | Ok (true, g') => Ok (g', now)
  | Ok (false, g') =>
      match env with
      | [] => Err tt
      | (r, late) :: env =>
          d ← from_secs_f32 delay;
          wait_loop g' n (f32_add delay (f32_mul r (f32_dec 5 2))) (now + d + late) env
      end
  | Err e => Err e
  | Panic => Panic
  end.

(** [wait]; [None] is the unlimited limiter.  The load is read after the bytes
    were counted. *)
Definition wait (total_ratelimit : Z) (inner : option gov) (s : exit_load) (bytes now : Z) (env : list (f32 * Z))
    : res unit (option gov * exit_load * Z) :=
  let s := mkLoad (CPU_USAGE s) (CURRENT_SPEED s) (cast_u 64 (TOTAL_BYTE_COUNT s + bytes)) in
  if bytes =? 0 then Ok (inner, s, now)
  else
    let n := charge (get_load total_ratelimit s) bytes in
    match inner with
    | None => Ok (None, s, now)
    | Some g => '(g', now') ← wait_loop g n (f32_dec 5 3) now env; Ok (Some g', s, now')
    end.

(** [io_copy]: what a read returns, and what happens in the [wait] and the
    write that follow it; a failing write may have passed on some bytes. *)
Inductive read_event :=
| ReadChunk (bts : list byte) (delays : list (f32 * Z)) (failed : option (nat * io_error))
| ReadEof
| ReadError (e : io_error)
| ReadTimeout.

(** The limiter, the load, what was written and the outcome, [None] while the
    copy goes on. *)
Fixpoint io_copy (total_ratelimit : Z) (inner : option gov) (s : exit_load) (now total : Z) (evs : list read_event)
    : option gov * exit_load * list byte * option (res io_error Z) :=
  match evs with
  | [] => (inner, s, [], None)
  | ReadEof :: _ => (inner, s, [], Some (Ok total))
  | ReadError e :: _ => (inner, s, [], Some (Err e))
  | ReadTimeout :: _ => (inner, s, [], Some (Err (IoError TimedOut "timeout in TCP read")))
  | ReadChunk bts delays failed :: evs =>
      match wait total_ratelimit inner s (Z.of_nat (length bts)) now delays with
      | Panic => (inner, s, [], Some Panic)
      | Err _ => (inner, s, [], None)
      | Ok (inner, s, now) =>
          match failed, add_u (E := io_error) 64 total (Z.of_nat (length bts)) with
          | Some (k, e), _ => (inner, s, take k bts, Some (Err e))
          | None, Ok total =>
              let '(inner, s, out, r) := io_copy total_ratelimit inner s now total evs in
              (inner, s, bts ++ out, r)
          | None, _ => (inner, s, bts, Some Panic)
          end
      end
  end.

(** A session: calls of [wait] one after another, [gap] after the previous one
    returned. *)
Fixpoint waits (total_ratelimit : Z) (inner : option gov) (s : exit_load) (now : Z)
    (calls : list (Z * Z * list (f32 * Z))) : res unit (option gov * exit_load * Z) :=
  match calls with
  | [] => Ok (inner, s, now)
  | (gap, bytes, env) :: calls =>
      '(inner, s, now) ← wait total_ratelimit inner s bytes (now + gap) env;
      waits total_ratelimit inner s now calls
  end.

(** Several sessions on one bucket, a turn of [wait] between two await points per
    event.  A waiter has computed its price, has been refused and sleeps until
    [w_due]; [passed] are the calls that have returned, with their times. *)
Record waiter := mkWaiter { w_bytes : Z; w_charge : Z; w_delay : f32; w_due : Z }.
Record shared := mkShared {
  bucket : gov; shared_load : exit_load; waiters : gmap nat waiter; clock : Z; passed : list (Z * Z)
}.

Inductive shared_event :=
| WaitCalled (sid : nat) (bytes at_ : Z)
| TimerFired (sid : nat) (r : f32) (at_ : Z)
| LoadUpdated (cpu speed : f32).

(** The condition of the loop at [at_]: the call returns, or sleeps for [delay]. *)
Definition shared_check (s : shared) (sid : nat) (bytes n : Z) (delay : f32) (at_ : Z) : res unit shared :=
  '(b, g) ← check_once (bucket s) at_ n;
  if (b : bool) then Ok (mkShared g (shared_load s) (delete sid (waiters s)) at_ ((at_, bytes) :: passed s))
  else
    d ← from_secs_f32 delay;
    Ok (mkShared g (shared_load s) (<[sid := mkWaiter bytes n delay (at_ + d)]> (waiters s)) at_ (passed s)).

(** [None]: the event cannot happen, because of the clock or of the session. *)
Definition shared_step (total_ratelimit : Z) (s : shared) (ev : shared_event) : option (res unit shared) :=
  match ev with
  | WaitCalled sid bytes at_ =>
      if (clock s <=? at_) && (0 <=? bytes) && bool_decide (waiters s !! sid = None) then
        let l := mkLoad (CPU_USAGE (shared_load s)) (CURRENT_SPEED (shared_load s)) (cast_u 64 (TOTAL_BYTE_COUNT (shared_load s) + bytes)) in
        let s := mkShared (bucket s) l (waiters s) (clock s) (passed s) in
        if bytes =? 0 then Some (Ok (mkShared (bucket s) l (waiters s) at_ ((at_, 0) :: passed s)))
        else Some (shared_check s sid bytes (charge (get_load total_ratelimit l) bytes) (f32_dec 5 3) at_)
      else None
  | TimerFired sid r at_ =>
      match waiters s !! sid with
      | Some w => if (clock s <=? at_) && (w_due w <=? at_)
                  then Some (shared_check s sid (w_bytes w) (w_charge w) (f32_add (w_delay w) (f32_mul r (f32_dec 5 2))) at_)
                  else None
      | None => None
      end
  | LoadUpdated cpu speed =>
      Some (Ok (mkShared (bucket s) (mkLoad cpu speed (TOTAL_BYTE_COUNT (shared_load s))) (waiters s) (clock s) (passed s)))
  end.

Fixpoint shared_run (total_ratelimit : Z) (s : shared) (evs : list shared_event) : option (res unit shared) :=
  match evs with
  | [] => Some (Ok s)
  | ev :: evs =>
      match shared_step total_ratelimit s ev with
      | Some (Ok s) => shared_run total_ratelimit s evs
      | o => o
      end
  end.

(** The bytes let through between two moments, as far as they are charged: a single
    call counts with at most 100000. *)
Fixpoint passed_in (t0 t1 : Z) (l : list (Z * Z)) : Z :=
  match l with
  | [] => 0
  | (t, bytes) :: l => (if (t0 <=? t) && (t <=? t1) then Z.min bytes 100000 else 0) + passed_in t0 t1 l
  end.

(** ** The price *)

(** Between the number of bytes and 100000, whatever the load, NaN included. *)
Lemma charge_bounds load bytes : 1 <= bytes → Z.min bytes 100000 <= charge load bytes <= 100000.
Proof.
  intros Hb. unfold charge. pose proof (f32_max_ge_one (multiplier load)) as Hm.
  change (f32_of_Z 1) with f32_one. apply f32_capped; [lia|].
  apply f32_mul_ge; [lia| |done]. apply normalize_ge; [lia|lia|left; lia].
Qed.

(** ** The delays *)

Lemma f32_leq_nonneg b e0 x : f32_leq b e0 x → f32_nonneg x.
Proof. by destruct x as [| | |[]]. Qed.

Lemma unit_below m e : f32_ltb (S754_finite false m e) (f32_of_Z 1) = true → below 1 (Z.pos m) e.
Proof.
  change (f32_of_Z 1) with f32_one. unfold f32_ltb, f32_one, exponent, scaled. intros E%Z.ltb_lt.
  set (k := Z.max 0 (- Z.min e (-23))) in *. apply (below_scale _ _ _ k); [lia..|].
  replace (8388608 * 2 ^ (-23 + k)) with (1 * 2 ^ k) in E; [done|].
  change 8388608 with (2 ^ 23). rewrite <- Z.pow_add_r by lia. rewrite Z.mul_1_l. f_equal. lia.
Qed.

(** [rand::random::<f32>() * 0.05] is below an eighth. *)
Lemma draw_small r : unit_f32 r = true → f32_lt 1 (-3) (f32_mul r (f32_dec 5 2)).
Proof.
  change (f32_dec 5 2) with (S754_finite false 13421773 (-28)). destruct r as [s| | |[] m e]; try done.
  cbn [unit_f32]. intros Hu%unit_below. cbn [f32_mul SFmul xorb].
  assert (Hr : f32_leq 1 (-4) (binary_round_aux 24 128 false (Z.pos (m * 13421773)) (e + -28) loc_Exact)).
  { apply round_le; [lia..|]. rewrite Pos2Z.inj_mul.
    apply (below_scale _ _ _ (Z.max (- e) 0 + 24)) in Hu; [|lia..].
    apply (below_scale _ _ _ (Z.max (- e) 0 + 24)); [lia..|].
    replace (e + (Z.max (- e) 0 + 24)) with (e + -28 - -4 + (Z.max (- e) 0 + 24) + 24) in Hu by lia.
    rewrite Z.pow_add_r in Hu by lia. change (2 ^ 24) with 16777216 in Hu.
    pose proof (pow_pos_2 (e + -28 - -4 + (Z.max (- e) 0 + 24)) ltac:(lia)). nia. }
  destruct (binary_round_aux _ _ _ _ _ _) as [| | |[] m' e']; try done. unfold f32_leq in Hr. unfold f32_lt.
  set (k := Z.max (- (e' - -3)) 0 + 1). apply (at_most_scale _ _ _ k) in Hr; [|lia..].
  apply (below_scale _ _ _ k); [lia..|]. replace (e' - -4 + k) with (e' - -3 + k + 1) in Hr by lia.
  rewrite (Z.pow_add_r 2 (e' - -3 + k)) in Hr by lia.
  pose proof (pow_pos_2 (e' - -3 + k) ltac:(lia)). nia.
Qed.

(** A delay of at least 0.005 and at most [i / 8] seconds. *)
Definition delay_ok (i : Z) (x : f32) : Prop := f32_geq 10737418 (-31) x ∧ f32_leq i (-3) x.

Lemma delay_first : delay_ok 1 (f32_dec 5 3).
Proof. split; [left; split|]; vm_compute; done. Qed.

Lemma delay_next i x r : 1 <= i < 2 ^ 24 → delay_ok i x → unit_f32 r = true →
  delay_ok (i + 1) (f32_add x (f32_mul r (f32_dec 5 2))).
Proof.
  intros Hi [Hlo Hhi] Hr%draw_small. split.
  - apply f32_add_geq; [lia|lia|done|]. by eapply f32_leq_nonneg, f32_lt_leq.
  - apply f32_add_leq; [lia..|done|done].
Qed.

Lemma delay_duration i x : 1 <= i < 2 ^ 24 → delay_ok i x → ∃ d, from_secs_f32 x = Ok d ∧ 4999999 <= d.
Proof.
  intros Hi [Hlo Hhi]. destruct x as [| | |[] m e]; try done. unfold f32_geq in Hlo. unfold f32_leq, at_most in Hhi.
  unfold from_secs_f32. destruct (Z.leb_spec 0 e) as [He|He].
  - replace (Z.max (e - -3) 0) with (e + 3) in Hhi by lia. replace (Z.max (- (e - -3)) 0) with 0 in Hhi by lia.
    rewrite Z.pow_add_r in Hhi by lia. change (2 ^ 3) with 8 in Hhi. change (2 ^ 0) with 1 in Hhi.
    pose proof (pow_pos_2 e He). destruct (Z.ltb_spec (Z.pos m * 2 ^ e) (2 ^ 64)); [|lia]. eexists. split; [done|]. nia.
  - eexists. split; [done|]. cbv zeta. enough (4999999 <= Z.pos m * 10 ^ 9 / 2 ^ (- e)) by (destruct (_ || _); lia).
    pose proof (pow_pos_2 (- e) ltac:(lia)). apply Z.div_le_lower_bound; [lia|].
    destruct Hlo as [[L1 L2]|[L1 L2]].
    + replace (e - -31) with (31 - - e) in L2 by lia.
      assert (E31 : 2 ^ (31 - - e) * 2 ^ (- e) = 2 ^ 31) by (rewrite <- Z.pow_add_r by lia; f_equal; lia).
      change (2 ^ 31) with 2147483648 in E31. pose proof (pow_pos_2 (31 - - e) ltac:(lia)). nia.
    + replace (- e) with (31 + - (e - -31)) in * by lia. rewrite Z.pow_add_r in * by lia.
      change (2 ^ 31) with 2147483648 in *. lia.
Qed.

(** ** Waiting ends *)

(** Alone on the bucket, the loop ends at the latest with the first check after
    the bucket is full again, and never panics. *)
Lemma wait_loop_ends n g : 0 <= gov_cell g → 1 <= n <= gov_burst g → ∀ env i delay now,
  0 <= now → 1 <= i → i + Z.of_nat (length env) < 2 ^ 24 → delay_ok i delay →
  Forall (λ rl, unit_f32 rl.1 = true ∧ 0 <= rl.2) env →
  gov_full g <= now + 4999999 * Z.of_nat (length env) →
  ∃ g' t, wait_loop g n delay now env = Ok (g', t) ∧ gov_check_n g t n = Some (true, g') ∧ now <= t.
Proof.
  intros Hcell Hn. induction env as [|[r late] env IH]; intros i delay now Hnow Hi Hlen Hd Henv Hf;
    cbn [wait_loop]; unfold check_once; (replace (n =? 0) with false by lia);
    pose proof (check_capacity g now n Hnow Hcell Hn) as Hc; destruct (gov_check_n g now n) as [[b g']|] eqn:E; try done; cbn.
  - pose proof (check_when_full g now n b g' Hnow Hcell Hn ltac:(cbn in Hf; lia) E) as ->. eauto with lia.
  - destruct b; [eauto with lia|]. apply check_refused in E as ->. inversion_clear Henv as [|? ? [Hr Hl] Henv'].
    cbn [length fst snd] in *. destruct (delay_duration i delay) as (d & Ed & Hdl); [lia|done|]. rewrite Ed. cbn.
    destruct (IH (i + 1) (f32_add delay (f32_mul r (f32_dec 5 2))) (now + d + late)) as (g' & t & Ew & Ec & Ht);
      [lia|lia|lia|by apply delay_next; [lia|..]|done|lia|]. exists g', t. split; [done|]. split; [done|lia].
Qed.

(** What holds of a bucket of [get_ratelimiter] at any time. *)
Definition limiter_ok (now : Z) (g : gov) : Prop :=
  gov_burst g = 102400 ∧ 0 <= gov_cell g <= 976562 ∧ gov_full g <= now + gov_burst g * gov_cell g.

Lemma limiter_ok_later now t g : now <= t → limiter_ok now g → limiter_ok t g.
Proof. unfold limiter_ok. lia. Qed.

Lemma RateLimiter_new_ok limit_kb g : 0 <= limit_kb → RateLimiter_new limit_kb 100 = Ok g → limiter_ok 0 g.
Proof.
  intros Hl. unfold RateLimiter_new. change (mul_u 32 100 1024) with (Ok (E := unit) 102400).
  destruct (add_u 32 limit_kb 1) as [x| |] eqn:Ex; try done. cbn. destruct (mul_u 32 x 1024) as [l| |] eqn:El; try done. cbn.
  unfold add_u in Ex. unfold mul_u in El. destruct (fits_u _ _); [|done]. destruct (fits_u _ _); simplify_eq.
  destruct ((limit_kb + 1) * 1024 =? 0) eqn:E0; [done|]. intros [= <-]. unfold limiter_ok.
  destruct (direct_quota ((limit_kb + 1) * 1024) 102400) as [-> ->]. pose proof (direct_full ((limit_kb + 1) * 1024) 102400).
  assert (Hd : 0 <= 10 ^ 9 / ((limit_kb + 1) * 1024) <= 976562).
  { split; [apply Z.div_pos; lia|]. change 976562 with (10 ^ 9 / 1024). apply Z.div_le_compat_l; lia. }
  lia.
Qed.

Lemma limiter_ok_check now g n b g' : 0 <= now → 1 <= n → limiter_ok now g →
  gov_check_n g now n = Some (b, g') → limiter_ok now g'.
Proof.
  intros Hnow Hn (Hb & Hc & Hf) E. destruct (check_quota _ _ _ _ _ E) as [Eb Ec]. unfold limiter_ok. rewrite Eb, Ec.
  split; [done|]. split; [done|]. destruct b; [|by apply check_refused in E as ->].
  by apply check_cost in E as [_ ?]; [|lia..].
Qed.

(** 20000 delays are enough for an empty bucket to fill up. *)
Definition enough (env : list (f32 * Z)) : Prop :=
  20000 <= Z.of_nat (length env) < 2 ^ 23 ∧ Forall (λ rl, unit_f32 rl.1 = true ∧ 0 <= rl.2) env.

Lemma wait_ok total g s bytes now env : limiter_ok now g → 0 <= now → 0 <= bytes → enough env →
  ∃ g' s' t, wait total (Some g) s bytes now env = Ok (Some g', s', t) ∧ limiter_ok t g' ∧ now <= t ∧
    gov_cell g' = gov_cell g ∧ gov_full g + Z.min bytes 100000 * gov_cell g <= gov_full g'.
Proof.
  intros Hg Hnow Hb [Hl Henv]. pose proof Hg as (Eb & Hc & Hf). unfold wait. destruct (Z.eqb_spec bytes 0).
  { subst bytes. do 3 eexists. split_and!; [done..|lia|done|]. rewrite Z.min_l; lia. }
  set (s1 := mkLoad _ _ _). pose proof (charge_bounds (get_load total s1) bytes ltac:(lia)) as Hn.
  destruct (wait_loop_ends (charge (get_load total s1) bytes) g ltac:(lia) ltac:(lia) env 1 (f32_dec 5 3) now)
    as (g' & t & -> & Ec & Ht); [lia|lia|lia|apply delay_first|done|nia|]. cbn.
  do 3 eexists. split; [done|]. split; [eapply limiter_ok_check; [| |by eapply limiter_ok_later|done]; lia|]. split; [done|].
  split; [by destruct (check_quota _ _ _ _ _ Ec)|]. apply check_cost in Ec as [Ec _]; [|lia..].
  pose proof (Z.mul_le_mono_nonneg_r (Z.min bytes 100000) (charge (get_load total s1) bytes) (gov_cell g)). lia.
Qed.

(** What the calls have to be charged at the least: their bytes, up to 100000 each. *)
Fixpoint charged (calls : list (Z * Z * list (f32 * Z))) : Z :=
  match calls with [] => 0 | (_, bytes, _) :: calls => Z.min bytes 100000 + charged calls end.

Lemma waits_ok total calls : ∀ g s now, limiter_ok now g → 0 <= now →
  Forall (λ c, 0 <= c.1.1 ∧ 0 <= c.1.2 ∧ enough c.2) calls →
  ∃ g' s' t, waits total (Some g) s now calls = Ok (Some g', s', t) ∧ limiter_ok t g' ∧
    gov_cell g' = gov_cell g ∧ gov_full g + charged calls * gov_cell g <= gov_full g'.
Proof.
  induction calls as [|[[gap bytes] env] calls IH]; intros g s now Hg Hnow Hc.
  { exists g, s, now. cbn. split_and!; [done..|lia]. }
  inversion_clear Hc as [|? ? (Hgap & Hb & He) Hc']. cbn [fst snd charged] in *.
  destruct (wait_ok total g s bytes (now + gap) env) as (g1 & s1 & t1 & E1 & Hg1 & Ht & Ec1 & Ef1);
    [eapply limiter_ok_later; [|done]; lia|lia|done|done|].
  cbn [waits]. rewrite E1. cbn. destruct (IH g1 s1 t1 Hg1 ltac:(lia) Hc') as (g' & s' & t & -> & Hg' & Ec' & Ef').
  exists g', s', t. rewrite Ec1 in *. split_and!; [done..|lia].
Qed.

(** C20: Waiting for the rate limit terminates, and it charges.  On a bucket made
    with any configured rate and used by one session, every call of [wait] returns,
    without a panic, after at most 20001 checks: whatever the load of the exit
    (also NaN or infinite), the number of bytes, the random draws and the lateness
    of the timers.  A byte costs the bucket the share of a second that the rate
    gives it, and each call has cost at least its bytes, or 100000 of them. *)
Theorem wait_terminates total limit_kb s calls :
  0 <= limit_kb <= 4194302 →
  Forall (λ c, 0 <= c.1.1 ∧ 0 <= c.1.2 ∧ enough c.2) calls →
  ∃ g, RateLimiter_new limit_kb 100 = Ok g ∧ gov_cell g = 10 ^ 9 / ((limit_kb + 1) * 1024) ∧
  ∃ g' s' t, waits total (Some g) s 0 calls = Ok (Some g', s', t) ∧
    gov_full g + charged calls * gov_cell g <= gov_full g' <= t + 102400 * gov_cell g.
Proof.
  intros Hl Hc. exists (gov_direct ((limit_kb + 1) * 1024) 102400).
  assert (E : RateLimiter_new limit_kb 100 = Ok (gov_direct ((limit_kb + 1) * 1024) 102400)).
  { unfold RateLimiter_new. rewrite add_u_Ok by lia. cbn [mbind res_bind]. unfold mul_u.
    rewrite (proj2 (fits_u_iff 32 ((limit_kb + 1) * 1024))) by lia.
    change (fits_u 32 (100 * 1024)) with true. cbn [mbind res_bind].
    by replace ((limit_kb + 1) * 1024 =? 0) with false by lia. }
  split; [done|]. split; [by destruct (direct_quota ((limit_kb + 1) * 1024) 102400)|].
  destruct (waits_ok total calls _ s 0 (RateLimiter_new_ok limit_kb _ ltac:(lia) E) ltac:(lia) Hc) as (g' & s' & t & -> & (Eb & _ & Hf) & Ec & Hc').
  exists g', s', t. rewrite Eb, Ec in Hf. split_and!; done.
Qed.

(** ** The rate *)

Lemma RateLimiter_new_quota limit_kb g : 0 <= limit_kb → RateLimiter_new limit_kb 100 = Ok g →
  gov_burst g = 102400 ∧ gov_cell g = 10 ^ 9 / ((limit_kb + 1) * 1024).
Proof.
  intros Hl. unfold RateLimiter_new. change (mul_u 32 100 1024) with (Ok (E := unit) 102400).
  destruct (add_u 32 limit_kb 1) as [x| |] eqn:Ex; try done. cbn. destruct (mul_u 32 x 1024) as [l| |] eqn:El; try done. cbn.
  unfold add_u in Ex. unfold mul_u in El. destruct (fits_u _ _); [|done]. destruct (fits_u _ _); simplify_eq.
  destruct ((limit_kb + 1) * 1024 =? 0); [done|]. intros [= <-]. apply direct_quota.
Qed.

Lemma passed_in_past t0 t1 t l : Forall (λ p, p.1 <= t) l → t <= t1 → passed_in t0 t1 l = passed_in t0 t l.
Proof. induction 1 as [|[t' n] l Hp _ IH]; intros; cbn in *; [done|]. rewrite IH by done. repeat case_match; lia. Qed.

(** What holds of a shared bucket: quota and prices as they should be, the debt since
    any moment is in the time of fullness, and the bound on every interval. *)
Record shared_ok (cell : Z) (s : shared) : Prop := {
  so_quota : gov_burst (bucket s) = 102400 ∧ gov_cell (bucket s) = cell;
  so_clock : 0 <= clock s ∧ Forall (λ p, p.1 <= clock s) (passed s);
  so_price : map_Forall (λ _ w, 1 <= w_bytes w ∧ Z.min (w_bytes w) 100000 <= w_charge w) (waiters s);
  so_debt t0 : 0 <= t0 → passed_in t0 (clock s) (passed s) = 0 ∨
    t0 - cell + passed_in t0 (clock s) (passed s) * cell <= gov_full (bucket s);
  so_bound t0 t1 : 0 <= t0 <= t1 → passed_in t0 t1 (passed s) * cell <= (t1 - t0) + 102401 * cell
}.

Lemma shared_ok_clock cell s t : shared_ok cell s → clock s <= t →
  0 <= t ∧ Forall (λ p, p.1 <= t) (passed s) ∧ ∀ t0, passed_in t0 t (passed s) = passed_in t0 (clock s) (passed s).
Proof.
  intros [_ [Hc0 Hc1] _ _ _] Ht. split_and!; [lia|eapply Forall_impl; [done|]; cbn; lia|]. intros t0. by apply passed_in_past.
Qed.

Lemma shared_check_ok cell s sid bytes n delay at_ s' :
  0 <= cell → shared_ok cell s → clock s <= at_ → 1 <= bytes → Z.min bytes 100000 <= n →
  shared_check s sid bytes n delay at_ = Ok s' → shared_ok cell s'.
Proof.
  intros Hcell Hs Ht Hb Hn E. destruct (shared_ok_clock _ _ _ Hs Ht) as (Hc0 & Hpast & Hin).
  destruct Hs as [[Eb Ec] _ Hpr Hd Hbd]. unfold shared_check in E. apply bind_Ok in E as ([b g] & E0 & E).
  unfold check_once in E0. destruct (n =? 0); [done|]. destruct (gov_check_n (bucket s) at_ n) as [[b' g']|] eqn:E1; [|done].
  cbn in E0. injection E0 as -> ->. destruct (check_quota _ _ _ _ _ E1) as [Eb' Ec']. destruct b; cbn in E.
  2:{ apply check_refused in E1 as ->. destruct (from_secs_f32 delay); [|done..]. cbn in E. injection E as <-. split; cbn; [done|by split| |intros t0 Ht0; rewrite Hin; auto|done].
      apply map_Forall_insert_2; [done|done]. }
  injection E as <-. apply check_cost in E1 as [L U]; [|lia..]. rewrite Ec, ?Eb in L, U.
  assert (Hcost : Z.min bytes 100000 * gov_cell (bucket s) <= n * gov_cell (bucket s)) by (apply Z.mul_le_mono_nonneg_r; lia).
  rewrite Ec in Hcost. split; cbn.
  - by rewrite Eb', Ec', Eb, Ec.
  - split; [done|]. constructor; [cbn; lia|done].
  - by apply map_Forall_delete.
  - intros t0 Ht0. rewrite Hin. destruct (Z.leb_spec t0 at_); cbn [andb]; [rewrite (proj2 (Z.leb_le at_ at_)) by lia|];
      destruct (Hd t0 Ht0) as [->|Hd']; rewrite ?Ec in *; try lia; right; lia.
  - intros t0 t1 Ht1. destruct (Z.leb_spec at_ t1); [|rewrite andb_false_r; by apply Hbd]. rewrite (passed_in_past t0 t1 at_), Hin by done.
    destruct (Z.leb_spec t0 at_); cbn [andb]; destruct (Hd t0 ltac:(lia)) as [->|Hd']; rewrite ?Ec in *; try lia.
Qed.

Lemma shared_step_ok total cell s ev s' : 0 <= cell → shared_ok cell s → shared_step total s ev = Some (Ok s') → shared_ok cell s'.
Proof.
  intros Hcell Hs. destruct ev as [sid bytes at_|sid r at_|cpu speed]; cbn [shared_step].
  - destruct (Z.leb_spec (clock s) at_); [|done]. destruct (Z.leb_spec 0 bytes); [|done]. cbn [andb]. case_bool_decide; [|done].
    set (l := mkLoad _ _ _). destruct (Z.eqb_spec bytes 0); intros [= E].
    + subst s'. destruct (shared_ok_clock _ _ at_ Hs) as (Hc0 & Hpast & Hin); [done|]. destruct Hs as [Hq _ Hpr Hd Hbd]. split; cbn; try done.
      * split; [done|]. constructor; [cbn; lia|done].
      * intros t0 Ht0. rewrite Hin. destruct (_ && _); cbn; by apply Hd.
      * intros t0 t1 Ht. destruct (_ && _); cbn; by apply Hbd.
    + refine (shared_check_ok cell (mkShared (bucket s) l (waiters s) (clock s) (passed s)) sid bytes _ _ at_ s' Hcell _ _ _ _ E); [by destruct Hs; split|done|lia|].
      pose proof (charge_bounds (get_load total l) bytes). lia.
  - destruct (waiters s !! sid) as [w|] eqn:Ew; [|done]. destruct (Z.leb_spec (clock s) at_); [|done]. cbn [andb]. case_match; [|done].
    intros [= E]. pose proof (so_price _ _ Hs sid w Ew) as [? ?]. by eapply shared_check_ok.
  - intros [= <-]. destruct Hs. by split.
Qed.

Lemma shared_run_ok total cell evs : 0 <= cell → ∀ s s', shared_ok cell s → shared_run total s evs = Some (Ok s') → shared_ok cell s'.
Proof.
  intros Hcell. induction evs as [|ev evs IH]; intros s s' Hs E; cbn in E; [by simplify_eq|].
  destruct (shared_step total s ev) as [[s1| |]|] eqn:E1; try done. eapply IH; [|done]. by eapply shared_step_ok.
Qed.

End with_governor.

(** ** One bucket per token *)

Section get_ratelimiter.
Context `{GovernorLaws} `{Blake3Laws} `{StdcodeLaws (AccountLevel * list byte)}.
(** The caches hold references ([Arc]): the index of the bucket among those made
    so far. *)
Context (day : Z) `{TC : TtlCache (list byte) nat} {TL : TtlCacheLaws (list byte) nat day}.

Record limiters := mkLimiters {
  FREE_RL_CACHE : cache_t (list byte) nat;
  PLUS_RL_CACHE : cache_t (list byte) nat;
  buckets : list gov
}.

Definition limiter_key (level : AccountLevel) (token : list byte) : list byte := hash (stdcode (level, token)).

Definition get_ratelimiter (free_ratelimit plus_ratelimit : Z) (w : limiters) (now : Z)
    (level : AccountLevel) (token : list byte) : res unit (limiters * nat) :=
  let key := limiter_key level token in
  let cache := match level with Free => FREE_RL_CACHE w | Plus => PLUS_RL_CACHE w end in
  buckets' ← match clookup cache now key with
             | Some _ => Ok (buckets w)
             | None => g ← RateLimiter_new (match level with Free => free_ratelimit | Plus => plus_ratelimit end) 100;
                       Ok (buckets w ++ [g])
             end;
  let '(cache', v) := get_with_idle cache now key (length (buckets w)) in
  Ok (match level with
      | Free => mkLimiters cache' (PLUS_RL_CACHE w) buckets'
      | Plus => mkLimiters (FREE_RL_CACHE w) cache' buckets'
      end, v).

(** The sessions that start at an exit, one after another: time, level, token. *)
Fixpoint sessions (free plus : Z) (w : limiters) (reqs : list (Z * AccountLevel * list byte))
    : res unit (limiters * list nat) :=
  match reqs with
  | [] => Ok (w, [])
  | (now, level, token) :: reqs =>
      '(w, v) ← get_ratelimiter free plus w now level token;
      '(w, vs) ← sessions free plus w reqs;
      Ok (w, v :: vs)
  end.

Definition cache_of (w : limiters) (level : AccountLevel) : cache_t (list byte) nat :=
  match level with Free => FREE_RL_CACHE w | Plus => PLUS_RL_CACHE w end.

Lemma get_ratelimiter_cache free plus w now level token w' v :
  get_ratelimiter free plus w now level token = Ok (w', v) →
  v = default (length (buckets w)) (clookup (cache_of w level) now (limiter_key level token)) ∧
  cache_of w' level = cinsert (cache_of w level) now (limiter_key level token) v ∧
  ∀ l, l ≠ level → cache_of w' l = cache_of w l.
Proof.
  unfold get_ratelimiter, get_with_idle, cache_of. intros E. apply bind_Ok in E as (bs & _ & E).
  destruct level; simplify_eq/=; (split; [done|]; split; [done|]); by intros [].
Qed.

(** A live entry survives the sessions that start while it is live. *)
Lemma sessions_keep free plus t1 level key v reqs : ∀ w w' vs,
  (∀ t, t < t1 + day → clookup (cache_of w level) t key = Some v) →
  Forall (λ r, t1 <= r.1.1 < t1 + day) reqs → sessions free plus w reqs = Ok (w', vs) →
  ∀ t, t < t1 + day → clookup (cache_of w' level) t key = Some v.
Proof.
  induction reqs as [|[[now l] token] reqs IH]; intros w w' vs Hw Hr E; [cbn in E; naive_solver|].
  inversion_clear Hr as [|? ? Hnow Hr']. cbn [fst snd sessions] in *.
  apply bind_Ok in E as ([w1 v1] & E1 & E). apply bind_Ok in E as ([w2 vs2] & E2 & E). simplify_eq/=.
  eapply IH; [|done|done]. intros t Ht. apply get_ratelimiter_cache in E1 as (Ev & Ec & Eo).
  destruct (decide (l = level)) as [->|]; [|rewrite Eo by done; by apply Hw]. rewrite Ec.
  destruct (decide (limiter_key level token = key)) as [<-|]; [|rewrite clookup_insert_ne by done; by apply Hw].
  rewrite Hw in Ev by lia. rewrite clookup_insert, decide_True by lia. by subst v1.
Qed.

(** Whose bucket is whose. *)
Definition owned (own : list (AccountLevel * list byte)) (w : limiters) : Prop :=
  length own = length (buckets w) ∧ ∀ l, cache_forall (λ k v, own !! v = Some (l, k)) (cache_of w l).

Lemma get_ratelimiter_owned free plus w now level token w' v own :
  owned own w → get_ratelimiter free plus w now level token = Ok (w', v) →
  ∃ own', own `prefix_of` own' ∧ owned own' w' ∧ own' !! v = Some (level, limiter_key level token).
Proof.
  intros [Hlen Hc] E. pose proof (get_ratelimiter_cache _ _ _ _ _ _ _ _ E) as (Ev & Ecache & Eo).
  unfold get_ratelimiter in E. apply bind_Ok in E as (bs & Eb & E). fold (cache_of w level) in Eb.
  assert (Hbs : buckets w' = bs) by (unfold get_with_idle in E; destruct level; by simplify_eq/=).
  assert (K : ∃ own', own `prefix_of` own' ∧ length own' = length bs ∧ own' !! v = Some (level, limiter_key level token)).
  { destruct (clookup (cache_of w level) now (limiter_key level token)) as [x|] eqn:El; simplify_eq/=.
    - exists own. split; [done|]. split; [congruence|]. by eapply Hc.
    - apply bind_Ok in Eb as (g & _ & Eb). simplify_eq/=. exists (own ++ [(level, limiter_key level token)]).
      split; [by apply prefix_app_r|]. split; [rewrite length_app, Hlen; replace (buckets w') with (buckets w ++ [g]) by congruence; by rewrite length_app|].
      rewrite lookup_app_r by lia. by rewrite Hlen, Nat.sub_diag. }
  destruct K as (own' & Hp & Hl & Hv). exists own'. split; [done|]. split; [|done]. split; [by rewrite Hbs|].
  assert (Hold : ∀ l, cache_forall (λ k v, own' !! v = Some (l, k)) (cache_of w l)).
  { intros l t k x Hx. eapply prefix_lookup_Some; [|done]. by eapply Hc. }
  intros l. destruct (decide (l = level)) as [->|]; [|by rewrite Eo].
  rewrite Ecache. by apply (cache_forall_insert day).
Qed.

Lemma sessions_owned free plus reqs : ∀ w w' vs own, owned own w → sessions free plus w reqs = Ok (w', vs) →
  ∃ own', own `prefix_of` own' ∧ Forall2 (λ r v, own' !! v = Some (r.1.2, limiter_key r.1.2 r.2)) reqs vs.
Proof.
  induction reqs as [|[[now l] token] reqs IH]; intros w w' vs own Ho E; [cbn in E; simplify_eq; by exists own|].
  cbn [sessions] in E. apply bind_Ok in E as ([w1 v1] & E1 & E). apply bind_Ok in E as ([w2 vs2] & E2 & E). simplify_eq/=.
  destruct (get_ratelimiter_owned _ _ _ _ _ _ _ _ _ Ho E1) as (own1 & Hp1 & Ho1 & Hv1).
  destruct (IH _ _ _ _ Ho1 E2) as (own2 & Hp2 & Hf). exists own2. split; [by etrans|].
  constructor; [|done]. by eapply prefix_lookup_Some.
Qed.

Lemma sessions_app free plus reqs1 reqs2 : ∀ w w' vs, sessions free plus w (reqs1 ++ reqs2) = Ok (w', vs) →
  ∃ w1 vs1 vs2, sessions free plus w reqs1 = Ok (w1, vs1) ∧ sessions free plus w1 reqs2 = Ok (w', vs2) ∧
    vs = vs1 ++ vs2 ∧ length vs1 = length reqs1.
Proof.
  induction reqs1 as [|[[now l] token] reqs1 IH]; intros w w' vs E; [by exists w, [], vs|].
  cbn [app sessions] in *. apply bind_Ok in E as ([w1 v1] & E1 & E). apply bind_Ok in E as ([w2 vs2] & E2 & E). simplify_eq/=.
  destruct (IH _ _ _ E2) as (w3 & vs3 & vs4 & E3 & E4 & -> & Hl). exists w3, (v1 :: vs3), vs4.
  rewrite E1. cbn. rewrite E3. by rewrite Hl.
Qed.

(** One bucket per token.  At an exit that has just started, two sessions
    with the same level and token that start less than a day apart charge the
    same bucket, so opening more sessions does not raise a user's rate; and two
    sessions that share a bucket have the same level and, up to a collision of
    the hash, the same token. *)
Theorem one_bucket_per_token free plus reqs1 t1 level token mid t2 reqs2 w' vs :
  Forall (λ r, t1 <= r.1.1 <= t2) mid → t1 <= t2 < t1 + day →
  sessions free plus (mkLimiters cempty cempty [])
    (reqs1 ++ [(t1, level, token)] ++ mid ++ [(t2, level, token)] ++ reqs2) = Ok (w', vs) →
  vs !! length reqs1 = vs !! (length reqs1 + S (length mid))%nat ∧
  ∀ i j r r' v, (reqs1 ++ [(t1, level, token)] ++ mid ++ [(t2, level, token)] ++ reqs2) !! i = Some r →
    (reqs1 ++ [(t1, level, token)] ++ mid ++ [(t2, level, token)] ++ reqs2) !! j = Some r' →
    vs !! i = Some v → vs !! j = Some v →
    r.1.2 = r'.1.2 ∧ limiter_key r.1.2 r.2 = limiter_key r'.1.2 r'.2.
Proof.
  intros Hmid Ht E. split.
  - apply sessions_app in E as (w1 & vs1 & vs2 & _ & E & -> & Hl1).
    apply sessions_app in E as (w2 & vs3 & vs4 & E3 & E & -> & Hl3).
    apply sessions_app in E as (w3 & vs5 & vs6 & E5 & E & -> & Hl5).
    cbn [app sessions] in E, E3. apply bind_Ok in E3 as ([w4 v4] & E4 & E3). apply bind_Ok in E as ([w5 v5] & E6 & E).
    apply bind_Ok in E as ([w6 v6] & _ & E). simplify_eq/=.
    apply get_ratelimiter_cache in E4 as (Ev4 & Ec4 & _). apply get_ratelimiter_cache in E6 as (Ev6 & _).
    rewrite (sessions_keep free plus t1 level (limiter_key level token) v4 mid w2 w3 vs5) in Ev6; [| |..|done|lia].
    + transitivity (Some v4); [by apply list_lookup_middle|symmetry]. cbn in Ev6. subst v5.
      change (v4 :: vs5 ++ v4 :: v6) with ((v4 :: vs5) ++ v4 :: v6). rewrite (app_assoc vs1 (v4 :: vs5)). apply list_lookup_middle. rewrite length_app. cbn. lia.
    + intros t Hlt. by rewrite Ec4, clookup_insert, decide_True.
    + eapply Forall_impl; [done|]. cbn. lia.
  - intros i j r r' v Hi Hj Hvi Hvj.
    assert (H0' : owned [] (mkLimiters cempty cempty [])) by (split; [done|]; intros []; apply (cache_forall_empty day)).
    destruct (sessions_owned free plus _ _ _ _ [] H0' E) as (own & _ & Hf).
    pose proof (Forall2_lookup_lr _ _ _ _ _ _ Hf Hi Hvi) as H1'. pose proof (Forall2_lookup_lr _ _ _ _ _ _ Hf Hj Hvj) as H2'.
    cbn in *. rewrite H1' in H2'. by simplify_eq.
Qed.
End get_ratelimiter.

(** ** Copying *)

Definition chunk_of (ev : read_event) : list byte := match ev with ReadChunk bts _ _ => bts | _ => [] end.

(** What [io_copy] writes is a prefix of what it reads, all of it when it ends
    well, and then it returns the number of bytes. *)
Lemma io_copy_spec `{GovernorLaws} trl evs : ∀ inner s now total inner' s' out r,
  io_copy trl inner s now total evs = (inner', s', out, r) →
  out `prefix_of` concat (chunk_of <$> evs) ∧
  (∀ n, r = Some (Ok n) → n = total + Z.of_nat (length out) ∧
     ∃ evs1 evs2, evs = evs1 ++ ReadEof :: evs2 ∧ out = concat (chunk_of <$> evs1)).
Proof.
  induction evs as [|ev evs IH]; intros inner s now total inner' s' out r E; [cbn in E; simplify_eq; split; [done|naive_solver]|].
  destruct ev as [bts delays failed| |e|]; cbn [io_copy] in E.
  2: { simplify_eq. split; [apply prefix_nil|]. intros n [= <-]. split; [cbn; lia|]. by exists [], evs. }
  2,3: simplify_eq; (split; [apply prefix_nil|naive_solver]).
  cbn [fmap list_fmap concat chunk_of]. destruct (wait _ _ _ _ _ _) as [[[inner1 s1] now1]|u|]; simplify_eq;
    [|split; [apply prefix_nil|naive_solver]..].
  destruct failed as [[k e]|]; simplify_eq.
  { split; [|naive_solver]. apply prefix_app_r. exists (drop k bts). by rewrite take_drop. }
  destruct (add_u 64 total _) as [total'| |] eqn:Ea; simplify_eq; [|split; [by apply prefix_app_r|naive_solver]..].
  destruct (io_copy trl inner1 s1 now1 total' evs) as [[[inner2 s2] out2] r2] eqn:E2. simplify_eq.
  destruct (IH _ _ _ _ _ _ _ _ E2) as [Hp Hr]. split; [by apply prefix_app|].
  intros n ->. destruct (Hr n eq_refl) as (-> & evs1 & evs2 & -> & ->).
  unfold add_u in Ea. destruct (fits_u _ _); simplify_eq. split; [rewrite length_app; lia|].
  by exists (ReadChunk bts delays None :: evs1), evs2.
Qed.

(** ** The limit on tasks *)

(** Where a call of [new_task_until_death] is: in its protected period, waiting
    for the event, or woken by it and about to look at the counter. *)
Inductive task_phase := Protected | Waiting | Woken.
#[export] Instance task_phase_eq_dec : EqDecision task_phase.
Proof. solve_decision. Defined.

Record task_pool := mkPool { TASK_COUNT : Z; pool : gmap nat task_phase }.

Inductive task_event :=
| TaskNew (t : nat) (wake : option nat)
| TaskLook (t : nat)
| TaskDropped (t : nat) (wake : option nat).

(** [notify_one] wakes a waiting task; which one is up to the event. *)
Definition notify_one (wake : option nat) (m : gmap nat task_phase) : gmap nat task_phase :=
  match wake with
  | Some u => match m !! u with Some Waiting => <[u := Woken]> m | _ => m end
  | None => m
  end.

(** [TaskNew] is the code up to the first await; [TaskLook] an evaluation of the
    condition of [wait_until], first after the protected period and then when
    woken; [TaskDropped] the end of the other future of the race, which drops
    this one and passes a notification it had received on. *)
Definition task_step (task_limit : Z) (s : task_pool) (ev : task_event) : option task_pool :=
  match ev with
  | TaskNew t wake =>
      match pool s !! t with
      | None => Some (mkPool (TASK_COUNT s + 1) (<[t := Protected]> (notify_one wake (pool s))))
      | Some _ => None
      end
  | TaskLook t =>
      match pool s !! t with
      | Some Protected | Some Woken =>
          Some (if TASK_COUNT s >? task_limit then mkPool (TASK_COUNT s - 1) (delete t (pool s))
                else mkPool (TASK_COUNT s) (<[t := Waiting]> (pool s)))
      | _ => None
      end
  | TaskDropped t wake =>
      match pool s !! t with
      | Some p => Some (mkPool (TASK_COUNT s - 1)
                          (delete t (match p with Woken => notify_one wake (pool s) | _ => pool s end)))
      | None => None
      end
  end.

Inductive task_reachable (task_limit : Z) : task_pool → Prop :=
| task_init : task_reachable task_limit (mkPool 0 ∅)
| task_next s ev s' : task_reachable task_limit s → task_step task_limit s ev = Some s' → task_reachable task_limit s'.

Definition in_phase (p : task_phase) (m : gmap nat task_phase) : Z :=
  Z.of_nat (size (filter (λ kv, kv.2 = p) m)).

Lemma size_insert_new (m : gmap nat task_phase) t p : m !! t = None → Z.of_nat (size (<[t := p]> m)) = Z.of_nat (size m) + 1.
Proof. intros E. rewrite map_size_insert_None by done. lia. Qed.
Lemma size_delete_old (m : gmap nat task_phase) t p : m !! t = Some p → Z.of_nat (size (delete t m)) = Z.of_nat (size m) - 1.
Proof.
  intros E. rewrite map_size_delete_Some by eauto. pose proof (map_size_ne_0_lookup_2 m t ltac:(eauto)). lia.
Qed.

Lemma in_phase_mono p (m m' : gmap nat task_phase) :
  (∀ t, m' !! t = Some p → m !! t = Some p) → in_phase p m' <= in_phase p m.
Proof.
  intros Hm. unfold in_phase. apply inj_le, map_subseteq_size. apply map_subseteq_spec. intros t x.
  rewrite !map_lookup_filter_Some. cbn. intros [E ->]. eauto.
Qed.

Lemma in_phase_size p m : in_phase p m <= Z.of_nat (size m).
Proof. apply inj_le, map_subseteq_size, map_filter_subseteq. Qed.

Lemma notify_one_size wake m : size (notify_one wake m) = size m.
Proof.
  destruct wake as [u|]; [|done]. cbn. destruct (m !! u) as [[]|] eqn:E; try done. apply map_size_insert_Some. eauto.
Qed.
Lemma notify_one_waiting wake m t : notify_one wake m !! t = Some Waiting → m !! t = Some Waiting.
Proof.
  destruct wake as [u|]; [|done]. cbn. destruct (m !! u) as [[]|] eqn:E; try done.
  destruct (decide (u = t)) as [<-|]; [by rewrite lookup_insert_eq|by rewrite lookup_insert_ne].
Qed.
Lemma notify_one_lookup wake m t : m !! t = None → notify_one wake m !! t = None.
Proof.
  destruct wake as [u|]; [|done]. cbn. destruct (m !! u) as [[]|] eqn:E; try done.
  intros. rewrite lookup_insert_ne; [done|]. by intros ->; simplify_eq.
Qed.

Definition task_inv (task_limit : Z) (s : task_pool) : Prop :=
  TASK_COUNT s = Z.of_nat (size (pool s)) ∧ in_phase Waiting (pool s) <= task_limit.

Lemma in_phase_insert p q t m : m !! t = None →
  in_phase p (<[t := q]> m) = in_phase p m + (if decide (q = p) then 1 else 0).
Proof.
  intros E. unfold in_phase. destruct (decide (q = p)) as [->|Hq].
  - rewrite map_filter_insert_True by done. apply size_insert_new. rewrite map_lookup_filter_None. by left.
  - rewrite map_filter_insert_False by done. rewrite delete_id by done. lia.
Qed.

Lemma size_phases m : Z.of_nat (size m) = in_phase Protected m + in_phase Waiting m + in_phase Woken m.
Proof.
  induction m as [|t q m E IH] using map_ind; [done|].
  rewrite size_insert_new, !in_phase_insert by done. destruct q; repeat case_decide; try done; lia.
Qed.

Lemma task_step_inv limit s ev s' : 0 <= limit → task_inv limit s → task_step limit s ev = Some s' → task_inv limit s'.
Proof.
  intros Hl [Hs Hw]. destruct ev as [t wake|t|t wake]; cbn [task_step]; destruct (pool s !! t) as [p|] eqn:Et; try done.
  - intros [= <-]. pose proof (notify_one_lookup wake _ _ Et) as En. split; cbn.
    + rewrite size_insert_new, notify_one_size by done. lia.
    + rewrite in_phase_insert by done. rewrite decide_False, Z.add_0_r by done. etrans; [|exact Hw].
      apply in_phase_mono, notify_one_waiting.
  - assert (Hdel : task_inv limit (mkPool (TASK_COUNT s - 1) (delete t (pool s)))).
    { split; cbn; [by rewrite (size_delete_old _ _ _ Et), Hs|]. etrans; [|exact Hw]. apply in_phase_mono. intros u.
      rewrite lookup_delete_Some. by intros []. }
    assert (Hkeep : TASK_COUNT s <= limit → task_inv limit (mkPool (TASK_COUNT s) (<[t := Waiting]> (pool s)))).
    { intros. split; cbn; [by rewrite map_size_insert_Some by eauto|]. etrans; [apply in_phase_size|].
      rewrite map_size_insert_Some by eauto. lia. }
    destruct p; try done; (destruct (Z.gtb_spec (TASK_COUNT s) limit); intros [= <-]; [done|by apply Hkeep]).
  - intros [= <-]. split; cbn.
    + set (m := match p with Woken => _ | _ => _ end). assert (size m = size (pool s)) by (destruct p; [done|done|apply notify_one_size]).
      assert (is_Some (m !! t)) as [q Hq].
      { destruct p; cbn in m; subst m; [eauto..|]. destruct wake as [u|]; [|eauto]. cbn. destruct (pool s !! u) as [[]|]; try eauto.
        destruct (decide (u = t)) as [->|]; [rewrite lookup_insert_eq; eauto|rewrite lookup_insert_ne; eauto]. }
      rewrite (size_delete_old _ _ _ Hq). lia.
    + etrans; [|exact Hw]. apply in_phase_mono. intros u. rewrite lookup_delete_Some. intros [_ Hu]. destruct p; [done|done|].
      by eapply notify_one_waiting.
Qed.

(** The limit on tasks.  In every run, the counter is the number of tasks
    that live, and it exceeds the limit by no more than the tasks that are in
    their protected first second or have been woken to look at the counter: once
    all of them have looked, at most [task_limit] are left. *)
Theorem task_limit_kept limit s : 0 <= limit → task_reachable limit s →
  TASK_COUNT s = Z.of_nat (size (pool s)) ∧
  TASK_COUNT s <= limit + in_phase Protected (pool s) + in_phase Woken (pool s).
Proof.
  intros Hl Hr. assert (Hi : task_inv limit s).
  { induction Hr as [|s ev s' _ IH Hstep]; [split; cbn; [done|exact Hl]|by eapply task_step_inv]. }
  destruct Hi as [Hs Hw]. split; [done|]. pose proof (size_phases (pool s)). lia.
Qed.

(** ** Concrete runs: the algorithm [governor] documents, GCRA *)

Module Demo.
Record gcra := mkGcra { burst_ : Z; t_ : Z; tat : option Z }.

Definition tat_at (g : gcra) (now : Z) : Z := default (now + t_ g) (tat g).

#[export] Instance gcra_gov : Governor := {|
  gov := gcra;
  gov_direct l b := mkGcra b (10 ^ 9 / l) None;
  gov_check_n g now n :=
    if n * t_ g >? t_ g * burst_ g then None
    else if now <? tat_at g now + (n - 1) * t_ g - t_ g * burst_ g then Some (false, g)
    else Some (true, mkGcra (burst_ g) (t_ g) (Some (Z.max (tat_at g now) now + n * t_ g)));
  gov_burst := burst_;
  gov_cell := t_;
  gov_full g := match tat g with Some x => x - t_ g | None => 0 end
|}.

#[export] Instance gcra_laws : GovernorLaws.
Proof.
  assert (D : ∀ g now, tat_at g now = now + t_ g ∧ tat g = None ∨ tat g = Some (tat_at g now)).
  { intros [? ? [|]] ?; cbn; auto. }
  split; cbn.
  - done.
  - done.
  - intros g now n Hnow Hc Hn. destruct (Z.gtb_spec (n * t_ g) (t_ g * burst_ g)); [nia|]. by destruct (_ <? _).
  - intros g now n b g'. destruct (_ >? _); [done|]. destruct (_ <? _); intros; by simplify_eq.
  - intros g now n g'. destruct (_ >? _); [done|]. destruct (_ <? _); intros; by simplify_eq.
  - intros g now n b g' Hnow Hc Hn Hf. destruct (Z.gtb_spec (n * t_ g) (t_ g * burst_ g)); [done|].
    destruct (Z.ltb_spec now (tat_at g now + (n - 1) * t_ g - t_ g * burst_ g)); intros [= <- <-]; [|done].
    destruct (D g now) as [[E En]|E]; rewrite ?En, ?E in Hf; lia.
  - intros g now n g' Hnow Hc Hn. destruct (Z.gtb_spec (n * t_ g) (t_ g * burst_ g)); [done|].
    destruct (Z.ltb_spec now (tat_at g now + (n - 1) * t_ g - t_ g * burst_ g)); intros [= <-]. cbn.
    destruct (D g now) as [[E En]|E]; rewrite ?En, ?E; rewrite ?E; lia.
Qed.

Definition run_env : list (f32 * Z) := replicate (Z.to_nat 20000) (S754_zero false, 0).
Lemma run_env_enough : enough run_env.
Proof.
  split.
  - unfold run_env. rewrite length_replicate. lia.
  - apply Forall_replicate. split; [done|cbn; lia].
Qed.
End Demo.
Import Demo.

Definition idle_load : exit_load := mkLoad (S754_zero false) (S754_zero false) 0.

(** Three chunks through a bucket of 2 kB/s: the first two empty it, the third
    waits about 32 seconds. *)
Lemma wait_terminates_witness :
  ∃ g, RateLimiter_new 1 100 = Ok g ∧ gov_cell g = 488281 ∧ ∃ g' s' t,
    waits 100 (Some g) idle_load 0
      [(0, 60000, run_env); (0, 42000, run_env); (0, 66000, run_env)] = Ok (Some g', s', t) ∧
    gov_full g + 168000 * gov_cell g <= gov_full g' <= t + 102400 * gov_cell g.
Proof.
  apply (wait_terminates 100 1 idle_load [(0, 60000, run_env); (0, 42000, run_env); (0, 66000, run_env)]); [lia|].
  repeat (apply Forall_cons_2; [cbn [fst snd]; split; [lia|]; split; [lia|]; exact run_env_enough|]). apply Forall_nil_2.
Defined.

(** Four sessions with 40000 bytes each at once, at 1 kB/s: two are let through, the
    others sleep, and one of them is still refused when its timer fires. *)
Definition rush : list shared_event :=
  [WaitCalled 1 40000 1000; WaitCalled 2 40000 1000; WaitCalled 3 40000 1000; WaitCalled 4 40000 1000; TimerFired 3 (S754_zero false) 5001000].

Section demo_cache.
#[local] Existing Instance Toy.blake3.
#[local] Existing Instance Toy.blake3_laws.
#[local] Instance level_bytes : Stdcode (AccountLevel * list byte) := {|
  stdcode a := (match a.1 with Free => x00 | Plus => x01 end) :: a.2;
  deserialize l := match l with x00 :: l => Some (Free, l) | x01 :: l => Some (Plus, l) | _ => None end
|}.
#[local] Instance level_bytes_laws : StdcodeLaws (AccountLevel * list byte).
Proof. split. by intros [[] l]. Qed.
#[local] Instance day_cache : TtlCache (list byte) nat := ListCache.list_cache 86400.
#[local] Instance day_cache_laws : TtlCacheLaws (list byte) nat 86400 := ListCache.list_cache_laws 86400.

(** A user opens two sessions, another one in between. *)
Lemma one_bucket_per_token_witness :
  ∃ w' vs, sessions 300 3000 (mkLimiters cempty cempty [])
    ([(5, Free, [x02])] ++ [(10, Plus, [x01])] ++ [(20, Free, [x01])] ++ [(86000, Plus, [x01])] ++ []) = Ok (w', vs) ∧
    vs !! 1%nat = vs !! 3%nat.
Proof.
  eexists _, _. split; [reflexivity|].
  refine (proj1 (one_bucket_per_token 86400 300 3000 [(5, Free, [x02])] 10 Plus [x01] [(20, Free, [x01])] 86000 [] _ _ _ _ _));
    [repeat constructor; cbn; lia|lia|reflexivity].
Defined.
End demo_cache.

(** Limit 1: a second task arrives and wakes the first, which dies. *)
Lemma task_limit_kept_witness :
  TASK_COUNT (mkPool 1 {[2%nat := Protected]}) <=
    1 + in_phase Protected {[2%nat := Protected]} + in_phase Woken {[2%nat := Protected]}.
Proof.
  refine (proj2 (task_limit_kept 1 (mkPool 1 {[2%nat := Protected]}) _ _)); [lia|].
  apply (task_next _ (mkPool 2 (<[2%nat := Protected]> {[1%nat := Woken]})) (TaskLook 1)); [|reflexivity].
  apply (task_next _ (mkPool 1 {[1%nat := Waiting]}) (TaskNew 2 (Some 1%nat))); [|reflexivity].
  apply (task_next _ (mkPool 1 {[1%nat := Protected]}) (TaskLook 1)); [|reflexivity].
  apply (task_next _ (mkPool 0 ∅) (TaskNew 1 None)); [|reflexivity]. apply task_init.
Defined.
