(* ===== verification/ExitSession.v ===== *)
(** * Sessions of an exit
    (binaries/geph5-exit/src/{listen,dns}.rs, listen/b2e_process.rs)

    What happens to a connection before and after the authentication of
    [ExitAuth]: which direct connections are accepted ([c2e_loop]), how streams
    from bridges reach the listener for their obfuscation ([b2e_loop],
    [b2e_process]), and what the accept loop at the end of [handle_client] does
    with the streams of a session: a stream whose metadata is JSON sets the
    session's metadata, every other one is proxied under the filter this
    metadata asks for.  The parser of JSON, glob patterns and the downloads of
    the block lists are parameters. *)
From Stdlib Require Import ZArith Lia.
From S2P Require Import Prelude Crypto Protocol Text IpText Cache Routes ExitNet Bridge ClientNet.
Local Open Scope Z_scope.

(** ** JSON values *)

#[warnings="-register-all"]
Inductive Json :=
| JNull
| JBool (b : bool)
| JNumber (text : string)
| JString (s : string)
| JArray (l : list Json)
| JObject (m : list (string * Json)).

(** [value[key]] on a shared reference: [Null] when there is nothing. *)
Fixpoint assoc (k : string) (m : list (string * Json)) : option Json :=
  match m with
  | [] => None
  | (k', v) :: m => if String.eqb k' k then Some v else assoc k m
  end.
Definition json_index (v : Json) (k : string) : Json :=
  match v with JObject m => default JNull (assoc k m) | _ => JNull end.

(** ** Filters *)

Record FilterOptions := mkFilter { nsfw : bool; ads : bool }.
Definition no_filter : FilterOptions := mkFilter false false.

(** A field with [serde(default)]: absent is [false], anything but a boolean an
    error. *)
Definition bool_field (v : option Json) : option bool :=
  match v with None => Some false | Some (JBool b) => Some b | Some _ => None end.

(** [serde_json::from_value::<FilterOptions>]: structs are read from objects and
    from arrays. *)
Definition filter_from_value (v : Json) : option FilterOptions :=
  match v with
  | JObject m =>
      n ← bool_field (assoc "nsfw" m); a ← bool_field (assoc "ads" m); Some (mkFilter n a)
  | JArray l =>
      match l with
      | [] => Some no_filter
      | [x] => n ← bool_field (Some x); Some (mkFilter n false)
      | [x; y] => n ← bool_field (Some x); a ← bool_field (Some y); Some (mkFilter n a)
      | _ => None
      end
  | _ => None
  end.

(** The filter of a session, from its metadata. *)
Definition session_filter (sess_metadata : Json) : FilterOptions :=
  default no_filter (filter_from_value (json_index sess_metadata "filter")).

Definition hash_char : Ascii.ascii := Ascii.ascii_of_nat 35.
Definition newline : Ascii.ascii := Ascii.ascii_of_nat 10.
Definition has_char (c : Ascii.ascii) (s : string) : bool := existsb (Ascii.eqb c) (String.list_ascii_of_string s).

(** [str::lines]: the pieces between newlines, a trailing carriage return
    dropped; nothing after a final newline. *)
Definition drop_cr (s : string) : string :=
  match String.list_ascii_of_string s with
  | [] => s
  | l => if bool_decide (last l = Some (Ascii.ascii_of_nat 13)) then String.string_of_list_ascii (removelast l) else s
  end.
Fixpoint split_lines (cur : string) (s : string) : list string :=
  match s with
  | EmptyString => match cur with EmptyString => [] | _ => [cur] end
  | String c s =>
      if bool_decide (c = newline) then drop_cr cur :: split_lines EmptyString s
      else split_lines (String.append cur (String c EmptyString)) s
  end.
Definition str_lines (s : string) : list string := split_lines EmptyString s.

(** [line.replace("*.", "")]. *)
Fixpoint drop_star_dot (s : string) : string :=
  match s with
  | String a s' =>
      match s' with
      | String b s'' =>
          if bool_decide (a = Ascii.ascii_of_nat 42) && bool_decide (b = dot) then drop_star_dot s''
          else String a (drop_star_dot s')
      | EmptyString => s
      end
  | EmptyString => EmptyString
  end.

Section exit.
(** The crate globset: which texts are patterns, and what they match. *)
Context (glob_ok : string → bool) (glob_match : string → string → bool).

Fixpoint add_globs (lines : list string) : res string (list string) :=
  match lines with
  | [] => Ok []
  | line :: lines =>
      if glob_ok line && glob_ok (drop_star_dot line) then
        rest ← add_globs lines; Ok (line :: drop_star_dot line :: rest)
      else Err "bad glob"%string
  end.
Definition parse_oisd (raw : res string string) : res string (list string) :=
  text ← raw; add_globs (filter (λ l, negb (has_char hash_char l)) (str_lines text)).

Definition is_match (set : list string) (name : string) : bool := existsb (λ g, glob_match g name) set.

Context `{TtlCache unit (list string)} {CL : TtlCacheLaws unit (list string) 86400}.
Record block_lists := mkLists { NSFW_LIST : cache_t unit (list string); ADS_LIST : cache_t unit (list string) }.

(** [FilterOptions::check_host]; the downloads are what the two servers answer
    now. *)
Definition check_list (on : bool) (c : cache_t unit (list string)) (now : Z) (raw : res string string)
    (what name : string) : cache_t unit (list string) * res string unit :=
  if on then
    let '(c, r) := cached_result c now tt (parse_oisd raw) in
    (c, set ← r; if is_match set name then Err what else Ok tt)
  else (c, Ok tt).

Definition check_host (f : FilterOptions) (now : Z) (raw_nsfw raw_ads : res string string) (ls : block_lists)
    (name : string) : block_lists * res string unit :=
  let '(c1, r1) := check_list (nsfw f) (NSFW_LIST ls) now raw_nsfw "blocking NSFW domain" name in
  match r1 with
  | Ok _ =>
      let '(c2, r2) := check_list (ads f) (ADS_LIST ls) now raw_ads "blocking ads domain" name in
      (mkLists c1 c2, r2)
  | r => (mkLists c1 (ADS_LIST ls), r)
  end.

(** [raw_dns_respond]: [questions] is [Packet::parse]; a packet that does not
    parse is passed on unchecked. *)
Fixpoint check_all (check : block_lists → string → block_lists * res string unit) (ls : block_lists)
    (names : list string) : block_lists * res string unit :=
  match names with
  | [] => (ls, Ok tt)
  | n :: names =>
      match check ls n with
      | (ls, Ok _) => check_all check ls names
      | r => r
      end
  end.
Definition raw_dns_respond (f : FilterOptions) (now : Z) (raw_nsfw raw_ads : res string string) (ls : block_lists)
    (questions : list byte → option (list string)) (post : list byte → res string (list byte)) (req : list byte)
    : block_lists * res string (list byte) :=
  let '(ls, r) := check_all (check_host f now raw_nsfw raw_ads) ls (default [] (questions req)) in
  (ls, _ ← r; post req).

(** ** Direct connections *)

(** The check of [c2e_loop]: [table] is the address table of the day, [remote]
    what the pipe says of its peer. *)
Definition c2e_test_addr (table : res string asn_map) (country_blacklist : list string) (remote : option string)
    : res string unit :=
  text ← unwrap remote;
  remote_addr ← ok_or (parse_addr text) "invalid socket address syntax"%string;
  match ip remote_addr with
  | V4 a =>
      '(asn, country) ← table ≫= λ m, ip_to_asn_country m a;
      if bool_decide (country ∈ country_blacklist) then Err "rejected connection"%string else Ok tt
  | V6 _ => Ok tt
  end.

(** The loop: for which of the accepted connections [handle_client] is spawned;
    errors of [accept] and rejected connections are passed over. *)
Fixpoint c2e_loop (table : Z → res string asn_map) (country_blacklist : list string)
    (accepts : list (Z * res io_error (option string))) : res unit (list (option string)) :=
  match accepts with
  | [] => Ok []
  | (_, Err _) :: accepts => c2e_loop table country_blacklist accepts
  | (_, Panic) :: _ => Panic
  | (t, Ok remote) :: accepts =>
      match c2e_test_addr (table t) country_blacklist remote with
      | Ok _ => rest ← c2e_loop table country_blacklist accepts; Ok (remote :: rest)
      | Err _ => c2e_loop table country_blacklist accepts
      | Panic => Panic
      end
  end.

(** ** Streams from bridges *)

Section b2e.
Context `{EqDecision B2eMetadata} `{TtlCache B2eMetadata nat} {BL : TtlCacheLaws B2eMetadata nat 1200}.

(** The table of [b2e_loop] and the processes spawned so far, each with the
    metadata it was started for; a sender is the index of its process. *)
Record b2e_state := mkB2eState { b2e_table : cache_t B2eMetadata nat; b2e_processes : list B2eMetadata }.

(** One stream of a bridge's multiplexer; [metadata] is its deserialized
    metadata.  The process the stream is sent to. *)
Definition b2e_accept (now : Z) (s : b2e_state) (metadata : option B2eMetadata) : b2e_state * res string nat :=
  match metadata with
  | None => (s, Err "cannot deserialize"%string)
  | Some m =>
      let procs := match clookup (b2e_table s) now m with
                   | Some _ => b2e_processes s
                   | None => b2e_processes s ++ [m]
                   end in
      let '(table, send) := get_with_idle (b2e_table s) now m (length (b2e_processes s)) in
      (mkB2eState table procs, Ok send)
  end.

(** The streams of all bridges in the order they are accepted. *)
Fixpoint b2e_run (s : b2e_state) (streams : list (Z * option B2eMetadata)) : b2e_state * list (res string nat) :=
  match streams with
  | [] => (s, [])
  | (now, m) :: streams =>
      let '(s, r) := b2e_accept now s m in
      let '(s, rs) := b2e_run s streams in
      (s, r :: rs)
  end.

Definition process_layers (s : b2e_state) (k : nat) : option (list server_layer) :=
  create_listener ∘ b2e_protocol <$> b2e_processes s !! k.

Definition b2e_inv (s : b2e_state) : Prop :=
  cache_forall (λ m k, b2e_processes s !! k = Some m) (b2e_table s).

Lemma b2e_accept_spec now s m s' r : b2e_inv s → b2e_accept now s m = (s', r) →
  b2e_inv s' ∧ b2e_processes s `prefix_of` b2e_processes s' ∧
  match m with None => r = Err "cannot deserialize"%string | Some m => ∃ k, r = Ok k ∧ b2e_processes s' !! k = Some m end.
Proof.
  intros Hi. destruct m as [m|]; [|by intros [= <- <-]]. unfold b2e_accept, get_with_idle.
  destruct (clookup (b2e_table s) now m) as [k|] eqn:E; intros [= <- <-]; cbn.
  - split; [by apply (cache_forall_insert 1200); [|by eapply Hi]|]. split; [done|]. exists k. split; [done|]. by eapply Hi.
  - assert (Hnew : (b2e_processes s ++ [m]) !! length (b2e_processes s) = Some m) by (by apply list_lookup_middle).
    split; [|by split; [apply prefix_app_r|eexists]]. apply (cache_forall_insert 1200); [|done].
    intros t m' k' E'. apply lookup_app_l_Some. by eapply Hi.
Qed.

(** Streams of bridges reach the right listener.  However the streams of
    all bridges interleave and however long the exit has been running, a stream
    with a readable metadata is handed to a process whose listener unwraps
    exactly the layers of the protocol in that metadata; one with an unreadable
    metadata is refused. *)
Theorem b2e_right_listener streams : ∀ s rs,
  b2e_run (mkB2eState cempty []) streams = (s, rs) →
  Forall2 (λ st r, match st.2 with
                   | Some m => ∃ k, r = Ok k ∧ process_layers s k = Some (create_listener (b2e_protocol m))
                   | None => is_ok r = false
                   end) streams rs.
Proof.
  assert (Hgo : ∀ s0 s rs, b2e_inv s0 → b2e_run s0 streams = (s, rs) →
    b2e_processes s0 `prefix_of` b2e_processes s ∧
    Forall2 (λ st r, match st.2 with
                     | Some m => ∃ k, r = Ok k ∧ b2e_processes s !! k = Some m
                     | None => is_ok r = false
                     end) streams rs).
  { induction streams as [|[now m] streams IH]; intros s0 s rs Hi E; cbn [b2e_run] in E; [by simplify_eq|].
    destruct (b2e_accept now s0 m) as [s1 r] eqn:E1. destruct (b2e_run s1 streams) as [s2 rs2] eqn:E2. simplify_eq.
    destruct (b2e_accept_spec _ _ _ _ _ Hi E1) as (Hi1 & Hp1 & Hr). destruct (IH _ _ _ Hi1 E2) as [Hp2 Hrs].
    split; [by etrans|]. constructor; [|done]. destruct m as [m|]; cbn; [|by subst r].
    destruct Hr as (k & -> & Hk). exists k. split; [done|]. by eapply prefix_lookup_Some. }
  intros s rs E. apply Hgo in E as [_ E]; [|apply (cache_forall_empty 1200)].
  eapply Forall2_impl; [done|]. cbn. intros [now [m|]] r; cbn; [|done]. intros (k & -> & Hk).
  exists k. split; [done|]. unfold process_layers. by rewrite Hk.
Qed.
End b2e.
End exit.

(** ** The end of a process *)

(** What [accept] of the listener for a protocol does once the channel below is
    closed: it returns an error ([true]) or never returns.  The tasks behind
    sosistab3 and TLS end with the listener below them, which closes their
    channel; the one behind a connection test tries again every second. *)
Fixpoint accept_closed (protocol : ObfsProtocol) : bool :=
  match protocol with
  | ObfsNone => true
  | ObfsSosistab3 _ => true
  | ObfsConnTest _ => false
  | ObfsPlainTls inner => accept_closed inner
  | ObfsSosistab3New _ inner => accept_closed inner
  end.
Definition b2e_process_ends (m : B2eMetadata) : bool := accept_closed (b2e_protocol m).

(** A process outlives its table entry exactly when a connection test is among
    the layers of its listener. *)
Lemma b2e_process_ends_iff m : b2e_process_ends m = true ↔ SrvConnTest ∉ create_listener (b2e_protocol m).
Proof.
  unfold b2e_process_ends. induction (b2e_protocol m) as [c| |p IH|p IH|c p IH]; cbn; set_solver.
Qed.

(** ** The session loop *)

Section session.
(** [serde_json::from_str] on the lossily decoded metadata of a stream. *)
Context (parse_json : string → option Json).

(** The accept loop of [handle_client]: the streams that are proxied, each with
    the filter [proxy_stream] reads from the session's metadata. *)
Fixpoint session_loop (sess_metadata : Json) (streams : list string) : list (string * FilterOptions) :=
  match streams with
  | [] => []
  | metadata :: streams =>
      match parse_json metadata with
      | Some new_sess_metadata => session_loop new_sess_metadata streams
      | None => (metadata, session_filter sess_metadata) :: session_loop sess_metadata streams
      end
  end.

(** A session of the client ([proxy_loop]): the first stream carries its session
    metadata, the others what [open_conn] asks for. *)
Lemma session_uses_filter sess text reqs sess0 :
  parse_json text = Some sess → Forall (λ r, parse_json r = None) reqs →
  session_loop sess0 (text :: reqs) = map (λ r, (r, session_filter sess)) reqs.
Proof.
  intros Et Hr. cbn [session_loop]. rewrite Et. clear Et. induction Hr as [|r reqs E _ IH]; [done|].
  cbn. rewrite E. by f_equal.
Qed.

(** ** Blocked names *)

Section blocked.
Context (glob_ok : string → bool) (glob_match : string → string → bool).
(** A plain name is a pattern that matches itself, and [*.] before it matches
    every name below it. *)
Context (plain : string → Prop).
Context (Hself : ∀ d, plain d → glob_match d d = true).
Context (Hsub : ∀ s d, plain d → glob_match (String.append "*." d) (String.append s (String dot d)) = true).
Context (Hplain : ∀ d, plain d → drop_star_dot d = d).
Context `{TtlCache unit (list string)} {CL : TtlCacheLaws unit (list string) 86400}.
Context `{TtlCache string (list SocketAddr)}.

Lemma add_globs_elem lines set l : add_globs glob_ok lines = Ok set → l ∈ lines → l ∈ set ∧ drop_star_dot l ∈ set.
Proof.
  revert set. induction lines as [|x lines IH]; intros set E Hin; [by apply elem_of_nil in Hin|].
  cbn [add_globs] in E. destruct (glob_ok x && glob_ok (drop_star_dot x)); [|done].
  destruct (add_globs glob_ok lines) as [rest| |]; [|done..]. cbn in E. injection E as <-.
  apply elem_of_cons in Hin as [->|Hin]; [set_solver|]. specialize (IH _ eq_refl Hin). set_solver.
Qed.

(** The list in force (of the cache, or downloaded now) was made of a text with a rule
    for [d]. *)
Definition listed (raw : res string string) (c : cache_t unit (list string)) (now : Z) (d : string) : Prop :=
  ∀ set, (cached_result c now tt (parse_oisd glob_ok raw)).2 = Ok set →
    ∃ text, parse_oisd glob_ok (Ok text) = Ok set ∧ String.append "*." d ∈ str_lines text ∧ has_char hash_char d = false.

(** The filter asks for a list that has [d] on it. *)
Definition forbidden (f : FilterOptions) (now : Z) (raw_nsfw raw_ads : res string string) (ls : block_lists) (d : string) : Prop :=
  (nsfw f = true ∧ listed raw_nsfw (NSFW_LIST ls) now d) ∨ (ads f = true ∧ listed raw_ads (ADS_LIST ls) now d).

Definition at_or_below (name d : string) : Prop := name = d ∨ ∃ s, name = String.append s (String dot d).

Lemma rule_matches text set d name :
  parse_oisd glob_ok (Ok text) = Ok set → String.append "*." d ∈ str_lines text → has_char hash_char d = false →
  plain d → at_or_below name d → is_match glob_match set name = true.
Proof.
  unfold parse_oisd. cbn [mbind res_bind]. intros Es Hin Hh Hd Hname.
  destruct (add_globs_elem _ _ (String.append "*." d) Es) as [H1 H2].
  { apply list_elem_of_filter. split; [|done]. by change (negb (has_char hash_char d)); rewrite Hh. }
  change (drop_star_dot (String.append "*." d)) with (drop_star_dot d) in H2. rewrite Hplain in H2 by done.
  unfold is_match. apply existsb_exists. destruct Hname as [->|[s ->]].
  - exists d. split; [by apply list_elem_of_In|by apply Hself].
  - exists (String.append "*." d). split; [by apply list_elem_of_In|by apply Hsub].
Qed.

Lemma check_list_refuses c now raw what d name :
  listed raw c now d → plain d → at_or_below name d → is_ok (check_list glob_ok glob_match true c now raw what name).2 = false.
Proof.
  intros Hl Hd Hn. unfold check_list. destruct (cached_result c now tt (parse_oisd glob_ok raw)) as [c' r] eqn:Ec.
  unfold listed in Hl. rewrite Ec in Hl. cbn in *. destruct r as [set| |]; cbn; [|done..].
  destruct (Hl set eq_refl) as (text & Es & Hin & Hh). by rewrite (rule_matches text set d).
Qed.

Lemma check_host_refuses f now raw_nsfw raw_ads ls d name :
  forbidden f now raw_nsfw raw_ads ls d → plain d → at_or_below name d →
  is_ok (check_host glob_ok glob_match f now raw_nsfw raw_ads ls name).2 = false.
Proof.
  intros [[Hf Hl]|[Hf Hl]] Hd Hn; unfold check_host; rewrite Hf.
  - pose proof (check_list_refuses _ _ _ "blocking NSFW domain" d name Hl Hd Hn) as Hc.
    destruct (check_list _ _ true _ _ _ _ _) as [c1 r1]. by destruct r1.
  - destruct (check_list _ _ (nsfw f) _ _ _ _ _) as [c1 [[]| |]]; [|done..].
    pose proof (check_list_refuses _ _ _ "blocking ads domain" d name Hl Hd Hn) as Hc.
    by destruct (check_list _ _ true _ _ _ _ _) as [c2 r2].
Qed.

(** Checking other names leaves the lists in force. *)
Lemma check_list_keeps on c now raw what name d :
  listed raw c now d → listed raw (check_list glob_ok glob_match on c now raw what name).1 now d.
Proof.
  intros Hl. unfold check_list. destruct on; [|done]. unfold listed, cached_result in *.
  destruct (clookup c now tt) as [v|] eqn:Ec; cbn; [by rewrite Ec|].
  destruct (parse_oisd glob_ok raw) as [v| |] eqn:Ep; cbn; [|by rewrite Ec..]. by rewrite clookup_insert, decide_True by lia.
Qed.
Lemma check_host_keeps f now raw_nsfw raw_ads ls name d :
  forbidden f now raw_nsfw raw_ads ls d → forbidden f now raw_nsfw raw_ads (check_host glob_ok glob_match f now raw_nsfw raw_ads ls name).1 d.
Proof.
  unfold check_host. intros [[Hf Hl]|[Hf Hl]].
  - pose proof (check_list_keeps (nsfw f) _ _ _ "blocking NSFW domain" name d Hl) as Hk.
    destruct (check_list _ _ (nsfw f) _ _ _ _ _) as [c1 [[]| |]]; [destruct (check_list _ _ (ads f) _ _ _ _ _) as [c2 r2]|..]; by left.
  - pose proof (check_list_keeps (ads f) _ _ _ "blocking ads domain" name d Hl) as Hk.
    destruct (check_list _ _ (nsfw f) _ _ _ _ _) as [c1 [[]| |]]; [destruct (check_list _ _ (ads f) _ _ _ _ _) as [c2 r2]|..]; by right.
Qed.

Lemma check_all_refuses f now raw_nsfw raw_ads d name names : plain d → at_or_below name d → name ∈ names → ∀ ls,
  forbidden f now raw_nsfw raw_ads ls d → is_ok (check_all (check_host glob_ok glob_match f now raw_nsfw raw_ads) ls names).2 = false.
Proof.
  intros Hd Hn Hin. induction names as [|n names IH]; intros ls Hf; [by apply elem_of_nil in Hin|]. cbn [check_all].
  pose proof (check_host_keeps f now raw_nsfw raw_ads ls n d Hf) as Hk. pose proof (check_host_refuses f now raw_nsfw raw_ads ls d n Hf Hd) as Hr.
  destruct (check_host _ _ f now raw_nsfw raw_ads ls n) as [ls' [[]| |]]; cbn in *; [|done..].
  apply elem_of_cons in Hin as [->|Hin]; [by discriminate Hr|]. by apply IH.
Qed.

End blocked.
End session.

(** ** The country filter *)

(** Whether an IPv4 client may connect directly. *)
Definition admitted (table : res string asn_map) (blacklist : list string) (a : SocketAddr) : bool :=
  match ip a with
  | V4 x =>
      match table with
      | Ok m => match ip_to_asn_country m x with Ok (_, country) => negb (bool_decide (country ∈ blacklist)) | _ => false end
      | _ => false
      end
  | V6 _ => true
  end.

(** What a pipe over TCP says of its peer. *)
Definition printed (c : Z * res io_error SocketAddr) : Z * res io_error (option string) :=
  (c.1, match c.2 with Ok a => Ok (Some (addr_to_string a)) | Err e => Err e | Panic => Panic end).
Definition handed_on (table : Z → res string asn_map) (blacklist : list string) (c : Z * res io_error SocketAddr)
    : list (option string) :=
  match c.2 with
  | Ok a => if admitted (table c.1) blacklist a then [Some (addr_to_string a)] else []
  | _ => []
  end.

(** Direct connections are filtered by country.  Of the IPv4 clients that
    connect, in any order and with errors of [accept] in between, exactly those
    are handed to [handle_client] whose address is in the table of the day with
    a country that is not blacklisted; a failing lookup rejects that client and
    no other. *)
Theorem blacklist_enforced table blacklist (accepts : list (Z * res io_error SocketAddr)) :
  (∀ t m x, table t = Ok m → ip_to_asn_country m x ≠ Panic) → (∀ t, table t ≠ Panic) →
  Forall (λ c, match c.2 with Ok a => valid_v4_addr a | Err _ => True | Panic => False end) accepts →
  c2e_loop table blacklist (map printed accepts) = Ok (concat (map (handed_on table blacklist) accepts)).
Proof.
  intros Hp Ht Ha. induction Ha as [|[t [a|e|]] accepts Hc Ha IH]; [done| |exact IH|done]; cbn [fst snd] in Hc.
  cbn [map printed fst snd c2e_loop concat handed_on]. unfold c2e_test_addr. cbn [unwrap mbind res_bind].
  rewrite parse_addr_to_string by done. cbn [ok_or mbind res_bind]. destruct Hc as (x & Ex & _ & _).
  unfold admitted. rewrite Ex. specialize (Ht t). specialize (Hp t).
  destruct (table t) as [m|e|]; [|exact IH|done]. cbn [mbind res_bind]. specialize (Hp m x eq_refl).
  destruct (ip_to_asn_country m x) as [[asn country]|e|]; [|exact IH|done]. cbn [mbind res_bind].
  destruct (bool_decide (country ∈ blacklist)); [exact IH|]. cbn [negb]. rewrite IH. done.
Qed.

(** An IPv4 client that reaches a listener on an IPv6 socket has a mapped
    address, and no check. *)
Example mapped_client_unchecked :
  c2e_test_addr (Err "no table"%string) ["CN"%string] (Some "[::ffff:1.2.3.4]:5"%string) = Ok tt.
Proof. vm_compute. reflexivity. Qed.

(** ** Concrete runs *)

Module SessionDemo.
Definition json (s : string) : option Json :=
  if String.eqb s "{filter}" then Some (JObject [("filter"%string, JObject [("nsfw"%string, JBool true)])]) else None.
Definition globs (g n : string) : bool :=
  if String.prefix "*" g
  then bool_decide (drop 1 (String.list_ascii_of_string g) `suffix_of` String.list_ascii_of_string n)
  else String.eqb g n.
Definition plain (d : string) : Prop := d = "x.com"%string.
#[export] Instance lists : TtlCache unit (list string) := ListCache.list_cache 86400.
#[export] Instance lists_laws : TtlCacheLaws unit (list string) 86400 := ListCache.list_cache_laws 86400.
#[export] Instance names : TtlCache string (list SocketAddr) := ListCache.list_cache 240.
#[export] Instance b2e_eq_dec : EqDecision B2eMetadata.
Proof. solve_decision. Defined.
#[export] Instance b2e : TtlCache B2eMetadata nat := ListCache.list_cache 1200.
#[export] Instance b2e_laws : TtlCacheLaws B2eMetadata nat 1200 := ListCache.list_cache_laws 1200.
Definition m1 : B2eMetadata := mkB2e (ObfsConnTest (ObfsSosistab3New "a" ObfsNone)) 5.
Definition m2 : B2eMetadata := mkB2e (ObfsPlainTls ObfsNone) 5.

Lemma list_ascii_append s t :
  String.list_ascii_of_string (String.append s t) = String.list_ascii_of_string s ++ String.list_ascii_of_string t.
Proof. induction s as [|a s IH]; [done|]. rewrite append_cons. cbn. by f_equal. Qed.
Lemma globs_sub s d : plain d → globs (String.append "*." d) (String.append s (String dot d)) = true.
Proof.
  intros ->. unfold globs. cbn [String.prefix]. change (String.prefix "*" _) with true. cbn iota.
  apply bool_decide_eq_true. exists (String.list_ascii_of_string s). rewrite (list_ascii_append s). reflexivity.
Qed.
End SessionDemo.
Import SessionDemo.

Lemma b2e_right_listener_witness :
  Forall2 (λ st r, match st.2 with
                   | Some m => ∃ k, r = Ok k ∧ process_layers (b2e_run (mkB2eState cempty []) [(0, Some m1); (5, None); (7, Some m2); (9, Some m1)]).1 k
                                               = Some (create_listener (b2e_protocol m))
                   | None => is_ok r = false
                   end) [(0, Some m1); (5, None); (7, Some m2); (9, Some m1)] [Ok 0%nat; Err "cannot deserialize"%string; Ok 1%nat; Ok 0%nat].
Proof.
  apply (b2e_right_listener [(0, Some m1); (5, None); (7, Some m2); (9, Some m1)]). vm_compute. reflexivity.
Defined.


Lemma blacklist_enforced_witness :
  c2e_loop (λ _, Ok {[ 2 ^ 32 - 1 := (7, "CN"%string); 100 := (8, "CA"%string) ]}) ["CN"%string]
    [(0, Ok (Some "0.0.0.9:5"%string)); (1, Err (IoError Other "x")); (2, Ok (Some "1.2.3.4:5"%string))]
  = Ok [Some "0.0.0.9:5"%string].
Proof.
  refine (blacklist_enforced (λ _, Ok {[ 2 ^ 32 - 1 := (7, "CN"%string); 100 := (8, "CA"%string) ]}) ["CN"%string]
    [(0, Ok (mkAddr (V4 9) 5)); (1, Err (IoError Other "x")); (2, Ok (mkAddr (V4 16909060) 5))] _ _ _).
  - intros _ m x [= <-]. unfold ip_to_asn_country. by destruct (range_next _ x).
  - done.
  - repeat constructor; eexists; (split; [reflexivity|]); cbn; lia.
Defined.
