(* ===== verification/Announce.v ===== *)
(** * Exits and bridges announce themselves
    (binaries/geph5-exit/src/{broker,watchdog}.rs, broker_loop of
    binaries/geph5-bridge/src/main.rs)

    One turn of each upload loop, run against the broker of [Broker].  Every
    call goes over a network that may lose the request or the reply.  Clocks
    are the exit's or bridge's own, in seconds; the values of the statistics
    are arguments. *)
From Stdlib Require Import ZArith Lia Floats.SpecFloat.
From S2P Require Import Prelude Crypto Mizaru Protocol Text Cache Dialer Routes BrokerDb Broker BrokerSafety BrokerLive.
Local Open Scope Z_scope.

(** What becomes of a call. *)
Inductive delivery := Delivered | RequestLost | ReplyLost.

Record exit_config := mkExitConfig {
  cfg_c2e_listen : SocketAddr;
  cfg_b2e_listen : SocketAddr;
  cfg_country : string;
  cfg_alpha2 : string;           (* [country.alpha2().to_lowercase()] *)
  cfg_city : string;
  cfg_free_ratelimit : Z;
  cfg_auth_token : list byte;
  cfg_signing_secret : list byte
}.

(** The values reported in a turn; [f32]s are passed on as [f64]s. *)
Record stat_values := mkStats { st_kbps : spec_float; st_uptime : spec_float; st_load : spec_float; st_tasks : Z; st_lag : spec_float }.
Inductive stat_value := StatFloat (x : spec_float) | StatCount (n : Z).

(** [my_ip.to_string().replace('.', "-")]. *)
Fixpoint dots_to_dashes (s : string) : string :=
  match s with
  | EmptyString => EmptyString
  | String a s => String (if bool_decide (a = Ascii.ascii_of_nat 46) then Ascii.ascii_of_nat 45 else a) (dots_to_dashes s)
  end.
Definition server_name (c : exit_config) (my_ip : IpAddr) : string :=
  String.append (cfg_alpha2 c) (String.append "-" (dots_to_dashes (ip_to_string my_ip))).

Definition set_ip (a : SocketAddr) (my_ip : IpAddr) : SocketAddr := mkAddr my_ip (port a).

Section announce.
Context `{BC : BrokerCaches} `{PS : Payment}.
Context `{Blake3Laws} `{Ed25519Laws} `{BlindRsaLaws}.
Context `{Stdcode ExitList} `{Stdcode ExitDescriptor} `{Stdcode (Signed ExitDescriptor)}
  `{Stdcode BridgeDescriptor}.
Context (cfg : BrokerConfig).
Context {CLexits : TtlCacheLaws unit ExitList 10000}.

(** The broker, the network, and what the exit keeps. *)
Record upload_state := mkUpload {
  u_world : World;
  u_net : list delivery;
  ACCEPT_FREE : bool;
  u_stats : list (string * stat_value);
  u_kicks : nat                        (* of the watchdog *)
}.
Definition U (A : Type) : Type := upload_state → upload_state * res string A.

#[local] Instance U_ret : MRet U := λ A a s, (s, Ok a).
#[local] Instance U_bind : MBind U := λ A B k m s,
  match m s with
  | (s, Ok a) => k a s
  | (s, Err e) => (s, Err e)
  | (s, Panic) => (s, Panic)
  end.

(** A call of the broker. *)
Definition call {A} (m : M string A) : U A := λ s,
  let '(d, net) := match u_net s with [] => (Delivered, []) | d :: net => (d, net) end in
  let put w := mkUpload w net (ACCEPT_FREE s) (u_stats s) (u_kicks s) in
  match d with
  | RequestLost => (put (u_world s), Err "network"%string)
  | Delivered => let '(w, r) := m (u_world s) in (put w, r)
  | ReplyLost => let '(w, _) := m (u_world s) in (put w, Err "network"%string)
  end.

(** [set_stat]: the broker passes the value on to its statistics server. *)
Definition set_stat (name : string) (v : stat_value) : U unit := λ s,
  let '(d, net) := match u_net s with [] => (Delivered, []) | d :: net => (d, net) end in
  let put l := mkUpload (u_world s) net (ACCEPT_FREE s) l (u_kicks s) in
  match d with
  | RequestLost => (put (u_stats s), Err "network"%string)
  | Delivered => (put (u_stats s ++ [(name, v)]), Ok tt)
  | ReplyLost => (put (u_stats s ++ [(name, v)]), Err "network"%string)
  end.

Definition store_accept_free (b : bool) : U unit := λ s,
  (mkUpload (u_world s) (u_net s) b (u_stats s) (u_kicks s), Ok tt).

Definition exit_descriptor (c : exit_config) (my_ip : IpAddr) (now : Z) (load : spec_float) : ExitDescriptor :=
  mkExit (set_ip (cfg_c2e_listen c) my_ip) (set_ip (cfg_b2e_listen c) my_ip) (cfg_country c) (cfg_city c) load (now + 30).

Definition to_upload (c : exit_config) (my_ip : IpAddr) (now : Z) (load : spec_float) : Mac (Signed ExitDescriptor) :=
  Mac_new (Signed_new (exit_descriptor c my_ip now load) DOMAIN_EXIT_DESCRIPTOR (cfg_signing_secret c))
    (hash (cfg_auth_token c)).

(** The block [upload] of the exit's [broker_loop]. *)
Definition upload (c : exit_config) (my_ip : IpAddr) (now : Z) (v : stat_values) : U unit :=
  let name := server_name c my_ip in
  s ← call (broker_get_free_exits cfg);
  let free_exits := all_exits (signed_inner s) in
  (if 0 <? cfg_free_ratelimit c then
     store_accept_free (existsb (λ e, bool_decide (e.1 = verifying_key (cfg_signing_secret c))) free_exits)
   else mret tt) ;;
  set_stat (String.append name ".kbps") (StatFloat (st_kbps v)) ;;
  set_stat (String.append name ".uptime") (StatFloat (st_uptime v)) ;;
  set_stat (String.append name ".load") (StatFloat (st_load v)) ;;
  set_stat (String.append name ".task_count") (StatCount (st_tasks v)) ;;
  set_stat (String.append name ".schedlag") (StatFloat (st_lag v)) ;;
  call (insert_exit cfg (to_upload c my_ip now (st_load v))).

(** A turn of the loop: the watchdog is kicked when the upload went well. *)
Definition exit_broker_turn (c : exit_config) (my_ip : IpAddr) (now : Z) (v : stat_values) (s : upload_state) : upload_state :=
  match upload c my_ip now v s with
  | (s, Ok _) => mkUpload (u_world s) (u_net s) (ACCEPT_FREE s) (u_stats s) (S (u_kicks s))
  | (s, _) => s
  end.

(** The bridge's turn. *)
Definition bridge_broker_turn (auth_token : list byte) (control_listen : SocketAddr) (control_cookie pool : string)
    (now : Z) : U unit :=
  call (insert_bridge cfg (Mac_new (mkBridge control_listen control_cookie pool (now + 120)) (hash auth_token))).

(** The watchdog: whether it lets the process live through these kicks, at
    times in seconds, up to [until]. *)
Fixpoint watchdog_alive (last : Z) (kicks : list Z) (until : Z) : bool :=
  match kicks with
  | [] => until <? last + 600
  | t :: kicks => (t <? last + 600) && watchdog_alive t kicks until
  end.

(** ** A turn without faults *)

Lemma call_calm {A} (m : M string A) s : u_net s = [] →
  call m s = (mkUpload (m (u_world s)).1 [] (ACCEPT_FREE s) (u_stats s) (u_kicks s), (m (u_world s)).2).
Proof. intros E. unfold call. rewrite E. by destruct (m (u_world s)). Qed.

Lemma get_all_exits_calm w : faults w = [] → ∃ c l, get_all_exits w = (set_exit_cache c w, Ok l) ∧
  (clookup (exit_cache w) (now w) tt = None →
   l = mkExitList (map (λ p, row_exit p.1 p.2) (map_to_list (exits_new (db w))))).
Proof.
  intros Ef. unfold get_all_exits, memo. destruct (clookup (exit_cache w) (now w) tt) as [l|] eqn:E.
  - exists (exit_cache w), l. split; [by destruct w|done].
  - rewrite query_calm by done. by eexists _, _.
Qed.

Lemma insert_exit_calm c my_ip t load w : faults w = [] → cfg_auth_token c = exit_token cfg → now w / 1000 <= t + 30 →
  insert_exit cfg (to_upload c my_ip t load) w =
  (set_db (set_exits_new (<[verifying_key (cfg_signing_secret c) :=
     mkExitRow (set_ip (cfg_c2e_listen c) my_ip) (set_ip (cfg_b2e_listen c) my_ip) (cfg_country c) (cfg_city c) load
       (now w / 1000 + 10)]> (exits_new (db w))) (db w)) w, Ok tt).
Proof.
  intros Ef Et Hn. unfold insert_exit, to_upload, mbind, M_bind, lift, get. rewrite Et, Mac_verify_new.
  cbn [mac_error map_err]. rewrite Signed_verify_new by done. cbn [sig_error map_err].
  change (exit_expiry (exit_descriptor c my_ip t load)) with (t + 30).
  destruct (Z.ltb_spec (t + 30) (now w / 1000)); [lia|]. by apply execute_calm.
Qed.

Lemma upload_calm c my_ip t v s sl w1 :
  u_net s = [] → faults (u_world s) = [] → cfg_auth_token c = exit_token cfg → now (u_world s) / 1000 <= t + 30 →
  broker_get_free_exits cfg (u_world s) = (w1, Ok sl) → faults w1 = [] → now w1 = now (u_world s) → db w1 = db (u_world s) →
  ∃ stats w', upload c my_ip t v s =
    (mkUpload w' [] (if 0 <? cfg_free_ratelimit c
                     then existsb (λ e, bool_decide (e.1 = verifying_key (cfg_signing_secret c))) (all_exits (signed_inner sl))
                     else ACCEPT_FREE s) (u_stats s ++ stats) (u_kicks s), Ok tt) ∧
    exits_new (db w') = <[verifying_key (cfg_signing_secret c) :=
      mkExitRow (set_ip (cfg_c2e_listen c) my_ip) (set_ip (cfg_b2e_listen c) my_ip) (cfg_country c) (cfg_city c) (st_load v)
        (now (u_world s) / 1000 + 10)]> (exits_new (db (u_world s))).
Proof.
  intros En Ef Et Hn Es Ef1 En1 Ed1. unfold upload, mbind, U_bind. rewrite call_calm by done. rewrite Es. cbn [fst snd].
  destruct (0 <? cfg_free_ratelimit c); cbn [store_accept_free mret U_ret u_world u_net u_stats u_kicks ACCEPT_FREE].
  all: unfold set_stat; cbn [u_net u_stats u_world u_kicks ACCEPT_FREE];
    rewrite call_calm by done; cbn [u_net u_stats u_world u_kicks ACCEPT_FREE];
    rewrite insert_exit_calm by (done || by rewrite En1); cbn [fst snd]; rewrite <- !app_assoc, En1, Ed1; by eexists _, _.
Qed.

Lemma free_exits_calm w : faults w = [] → ∃ c l,
  broker_get_free_exits cfg w = (set_exit_cache c w,
    Ok (Signed_new (mkExitList (filter (λ e, negb (is_plus_exit e.2)) (all_exits l))) DOMAIN_EXIT_DESCRIPTOR (master_secret cfg))) ∧
  (clookup (exit_cache w) (now w) tt = None →
   l = mkExitList (map (λ p, row_exit p.1 p.2) (map_to_list (exits_new (db w))))).
Proof.
  intros Ef. destruct (get_all_exits_calm w Ef) as (c & l & E & Hl). exists c, l. split; [|done].
  unfold broker_get_free_exits, mbind, M_bind. by rewrite E.
Qed.

(** Whether a key is in the list for free users made from the table. *)
Lemma free_list_row (rows : gmap (list byte) ExitRow) key r : rows !! key = Some r →
  existsb (λ e, bool_decide (e.1 = key))
    (filter (λ e, negb (is_plus_exit e.2)) (map (λ p, row_exit p.1 p.2) (map_to_list rows)))
  = negb (is_plus_exit (row_exit key r).2).
Proof.
  intros Hr. apply eq_true_iff_eq. rewrite existsb_exists. split.
  - intros ([pk d] & Hin & E). apply bool_decide_eq_true in E. cbn in E. subst pk.
    apply list_elem_of_In, list_elem_of_filter in Hin as [Hp Hin].
    apply list_elem_of_fmap in Hin as ([pk' r'] & E & Hin%elem_of_map_to_list).
    unfold row_exit in E. cbn [fst snd] in *. simplify_eq. by apply Is_true_true.
  - intros Hp. exists (row_exit key r). split; [|by apply bool_decide_eq_true].
    apply list_elem_of_In, list_elem_of_filter. split; [by apply Is_true_true|].
    apply list_elem_of_fmap. exists (key, r). split; [done|]. by apply elem_of_map_to_list.
Qed.

(** C28: an exit that announces itself is listed, and learns whether it serves
    free users.  With the broker's exit token, a clock at most 30 seconds
    behind the broker's, and no call lost: a turn of the loop puts exactly this
    exit's row into the broker's table, under its own key, with its external
    address, until ten seconds from now, and kicks the watchdog.  When the
    exit is in the table already and the broker's list is not cached, the exit
    accepts free users from then on if and only if its country is one of those
    for free users (an exit without a rate for free users never changes its
    mind). *)
Theorem exit_announced c my_ip t v s :
  u_net s = [] → faults (u_world s) = [] → cfg_auth_token c = exit_token cfg → now (u_world s) / 1000 <= t + 30 →
  exits_new (db (u_world (exit_broker_turn c my_ip t v s))) =
    <[verifying_key (cfg_signing_secret c) :=
      mkExitRow (set_ip (cfg_c2e_listen c) my_ip) (set_ip (cfg_b2e_listen c) my_ip) (cfg_country c) (cfg_city c) (st_load v)
        (now (u_world s) / 1000 + 10)]> (exits_new (db (u_world s))) ∧
  u_kicks (exit_broker_turn c my_ip t v s) = S (u_kicks s) ∧
  (cfg_free_ratelimit c <= 0 → ACCEPT_FREE (exit_broker_turn c my_ip t v s) = ACCEPT_FREE s) ∧
  (∀ r, 0 < cfg_free_ratelimit c → exits_new (db (u_world s)) !! verifying_key (cfg_signing_secret c) = Some r →
     clookup (exit_cache (u_world s)) (now (u_world s)) tt = None →
     ACCEPT_FREE (exit_broker_turn c my_ip t v s) =
       bool_decide (row_country r ∈ ["CAN"; "NLD"; "FRA"; "POL"; "DEU"]%string)).
Proof.
  intros En Ef Et Hn. destruct (free_exits_calm (u_world s) Ef) as (ec & l & Es & Hl).
  destruct (upload_calm c my_ip t v s _ _ En Ef Et Hn Es) as (stats & w' & E & Hx); [done..|].
  unfold exit_broker_turn. rewrite E. cbn [u_world u_kicks ACCEPT_FREE]. split; [exact Hx|]. split; [done|]. split.
  - intros Hr. by destruct (Z.ltb_spec 0 (cfg_free_ratelimit c)); [lia|].
  - intros r Hr Hrow Hc. destruct (Z.ltb_spec 0 (cfg_free_ratelimit c)); [|lia].
    rewrite (Hl Hc). cbn [all_exits signed_inner Signed_new]. rewrite (free_list_row _ _ _ Hrow).
    unfold is_plus_exit. by rewrite negb_involutive.
Qed.

(** Nothing but the store changes [ACCEPT_FREE]. *)
Definition keeps_accept {A} (m : U A) : Prop := ∀ s, ACCEPT_FREE (m s).1 = ACCEPT_FREE s.
Lemma keeps_bindU {A B} (m : U A) (k : A → U B) : keeps_accept m → (∀ a, keeps_accept (k a)) → keeps_accept (m ≫= k).
Proof.
  intros Hm Hk s. unfold mbind, U_bind. specialize (Hm s). destruct (m s) as [s1 [a|e|]]; cbn in *; [|done..].
  by rewrite Hk.
Qed.
Lemma keeps_callU {A} (m : M string A) : keeps_accept (call m).
Proof.
  intros s. unfold call. destruct (u_net s) as [|[] net]; try done; by destruct (m (u_world s)).
Qed.
Lemma keeps_set_stat name v : keeps_accept (set_stat name v).
Proof. intros s. unfold set_stat. by destruct (u_net s) as [|[] net]. Qed.

(** Lost calls and failing queries never make an exit accept free users whom the
    broker does not send to it: a turn turns [ACCEPT_FREE] on only when the
    broker's answer lists this exit. *)
Lemma accept_free_listed c my_ip t v s :
  ACCEPT_FREE (exit_broker_turn c my_ip t v s) = true → ACCEPT_FREE s = true ∨
  ∃ w' sl d, broker_get_free_exits cfg (u_world s) = (w', Ok sl) ∧
    (verifying_key (cfg_signing_secret c), d) ∈ all_exits (signed_inner sl).
Proof.
  assert (E : ACCEPT_FREE (exit_broker_turn c my_ip t v s) = ACCEPT_FREE (upload c my_ip t v s).1).
  { unfold exit_broker_turn. by destruct (upload c my_ip t v s) as [s' []]. }
  rewrite E. unfold upload, mbind at 1, U_bind at 1.
  pose proof (keeps_callU (broker_get_free_exits cfg) s) as Hk.
  destruct (call (broker_get_free_exits cfg) s) as [s1 [sl|e|]] eqn:Ec; cbn [fst] in *; [|rewrite Hk; auto..].
  assert (Hl : ∃ w', broker_get_free_exits cfg (u_world s) = (w', Ok sl)).
  { unfold call in Ec. destruct (u_net s) as [|[] net]; destruct (broker_get_free_exits cfg (u_world s)); simplify_eq; eauto. }
  unfold mbind at 1, U_bind at 1. intros H'.
  destruct (0 <? cfg_free_ratelimit c); cbn [store_accept_free mret U_ret] in H';
    match type of H' with ACCEPT_FREE (?m ?s0).1 = true =>
      assert (Htail : keeps_accept m) by (repeat (apply keeps_bindU; [apply keeps_set_stat|intros _]); apply keeps_callU);
      rewrite (Htail s0) in H' end.
  - cbn [ACCEPT_FREE] in H'. apply existsb_exists in H' as ([pk d] & Hin & Epk%bool_decide_eq_true). cbn in Epk. subst pk.
    destruct Hl as [w' Hl]. right. exists w', sl, d. split; [done|]. by apply list_elem_of_In.
  - left. by rewrite <- Hk.
Qed.

(** The same for a bridge, whose entry lasts two minutes of its own clock. *)
Lemma bridge_announced auth_token listen cookie pool t s :
  u_net s = [] → faults (u_world s) = [] → auth_token = bridge_token cfg →
  ∃ w', bridge_broker_turn auth_token listen cookie pool t s =
    (mkUpload w' [] (ACCEPT_FREE s) (u_stats s) (u_kicks s), Ok tt) ∧
  bridges_new (db w') = <[listen := mkBridgeRow cookie pool (cast_i 64 (t + 120))
    (default 0 (alloc_count <$> bridges_new (db (u_world s)) !! listen))]> (bridges_new (db (u_world s))).
Proof.
  intros En Ef ->. unfold bridge_broker_turn. rewrite call_calm by done.
  unfold insert_bridge, mbind, M_bind, lift. rewrite Mac_verify_new. cbn [mac_error map_err].
  erewrite execute_calm by done. cbn [fst snd]. by eexists.
Qed.
End announce.

(** ** A concrete run *)

Import Toy BrokerDemo.

Module AnnounceDemo.
Definition conf : exit_config :=
  mkExitConfig (mkAddr (V4 0) 1) (mkAddr (V4 0) 2) "CAN" "ca" "Montreal" 300 [x06] [x09].
Definition zero : spec_float := S754_zero false.
Definition vals : stat_values := mkStats zero zero zero 3 zero.
Definition s0 : upload_state := mkUpload BrokerDemo.w0 [] false [] 0.
(** After a first turn, eleven seconds later. *)
Definition later (s : upload_state) : upload_state :=
  mkUpload (mkWorld (db (u_world s)) [] 11000 0 cempty cempty cempty cempty (exit_cache (u_world s)) cempty cempty)
    [] (ACCEPT_FREE s) (u_stats s) (u_kicks s).
Definition s1 : upload_state := later (exit_broker_turn BrokerDemo.config conf (V4 9) 0 vals s0).
End AnnounceDemo.
Import AnnounceDemo.

Lemma exit_announced_witness :
  u_kicks (exit_broker_turn BrokerDemo.config conf (V4 9) 11 vals s1) = 2%nat ∧
  ACCEPT_FREE (exit_broker_turn BrokerDemo.config conf (V4 9) 11 vals s1) = true.
Proof.
  destruct (exit_announced BrokerDemo.config conf (V4 9) 11 vals s1) as (_ & Hk & _ & Ha);
    [reflexivity|reflexivity|reflexivity|vm_compute; discriminate|].
  split; [rewrite Hk; vm_compute; reflexivity|].
  rewrite (Ha (mkExitRow (mkAddr (V4 9) 1) (mkAddr (V4 9) 2) "CAN" "Montreal" zero 10));
    [vm_compute; reflexivity|reflexivity|vm_compute; reflexivity|vm_compute; reflexivity].
Defined.

(** The second turn reports under the exit's name. *)
Example announce_run :
  head (u_stats (exit_broker_turn BrokerDemo.config conf (V4 9) 11 vals s1)) = Some ("ca-0-0-0-9.kbps"%string, StatFloat zero).
Proof. vm_compute. reflexivity. Qed.

(** Uploads that fail for ten minutes end the process. *)
Example watchdog_run : watchdog_alive 0 [2; 4; 500] 1099 = true ∧ watchdog_alive 0 [2; 4; 500] 1100 = false.
Proof. done. Qed.
