(* ===== verification/Requests.v ===== *)
(** * Connection requests handed to multiplexers
    (dial_pooled, SinglePool, remote_once of
    binaries/geph5-bridge/src/listen_forward.rs; client_inner and proxy_loop of
    binaries/geph5-client/src/client_inner.rs)

    On a bridge and in the client a request for a stream is put into a channel
    together with a one-shot sender, and some worker with a live multiplexer
    takes it out, opens the stream and sends it back.  Both are step functions
    over events that the scheduler and the network choose; an event that cannot
    happen in a state gives [None].  A one-shot sender that is dropped is a
    request that fails. *)
From Stdlib Require Import ZArith Lia.
From S2P Require Import Prelude.
Local Open Scope Z_scope.

(** ** Lists of workers *)

Lemma omap_insert_Some {A B} (f : A → option B) (l : list A) (i : nat) x y b :
  l !! i = Some x → f x = None → f y = Some b → omap f (<[i := y]> l) ≡ₚ b :: omap f l.
Proof.
  revert i. induction l as [|a l IH]; intros [|i] Hl Hx Hy; cbn in *; simplify_eq.
  - by rewrite Hx, Hy.
  - specialize (IH i Hl Hx Hy). destruct (f a); [|done]. rewrite IH. constructor.
Qed.
Lemma omap_insert_None {A B} (f : A → option B) (l : list A) (i : nat) x y b :
  l !! i = Some x → f x = Some b → f y = None → omap f l ≡ₚ b :: omap f (<[i := y]> l).
Proof.
  revert i. induction l as [|a l IH]; intros [|i] Hl Hx Hy; cbn in *; simplify_eq.
  - by rewrite Hx, Hy.
  - specialize (IH i Hl Hx Hy). destruct (f a); [|done]. rewrite IH. constructor.
Qed.
Lemma omap_insert_same {A B} (f : A → option B) (l : list A) (i : nat) x y :
  l !! i = Some x → f x = f y → omap f (<[i := y]> l) = omap f l.
Proof.
  revert i. induction l as [|a l IH]; intros [|i] Hl Hx; cbn in *; simplify_eq; [by rewrite Hx|by rewrite IH].
Qed.

Lemma concat_insert {A B} (f : A → list B) (l : list A) (i : nat) x : l !! i = Some x →
  ∃ rest, concat (map f l) ≡ₚ f x ++ rest ∧ ∀ y, concat (map f (<[i := y]> l)) ≡ₚ f y ++ rest.
Proof.
  revert i. induction l as [|a l IH]; intros [|i] Hl; simpl in *; simplify_eq.
  - exists (concat (map f l)). done.
  - destruct (IH i Hl) as (rest & H1 & H2). exists (f a ++ rest). split.
    + rewrite H1, !app_assoc. apply Permutation_app_tail, Permutation_app_comm.
    + intros y. rewrite H2, !app_assoc. apply Permutation_app_tail, Permutation_app_comm.
Qed.
Lemma perm_ended {A} (a b c l : list A) : a ++ b ++ c ++ l ≡ₚ (l ++ a) ++ b ++ c.
Proof. rewrite !app_assoc, (Permutation_app_comm _ l). by rewrite !app_assoc. Qed.
Lemma perm_done {A} (q l o : list A) r : q ++ l ++ o ++ [r] ≡ₚ q ++ r :: l ++ o.
Proof. apply Permutation_app_head. rewrite app_assoc. symmetry. apply Permutation_cons_append. Qed.

Fixpoint sum_of {A} (f : A → Z) (l : list A) : Z := match l with [] => 0 | a :: l => f a + sum_of f l end.
Lemma sum_of_insert {A} (f : A → Z) (l : list A) (i : nat) x y : l !! i = Some x → sum_of f (<[i := y]> l) = sum_of f l - f x + f y.
Proof.
  revert i. induction l as [|a l IH]; intros [|i] Hl; simpl in *; simplify_eq; [lia|]. rewrite (IH i Hl). lia.
Qed.

(** ** The bridge's pool of connections to an exit *)

Module BridgePool.

(** One of the 32 tasks: dialing, serving requests over a multiplexer (which may
    have died unnoticed, and for which request it is opening a stream), or
    sleeping for 30 seconds. *)
Inductive worker := Dialing | Serving (alive : bool) (opening : option nat) | Sleeping.

(** What [connect] returns: a stream opened with this metadata, the error without
    live workers, or the error when the one-shot sender was dropped. *)
Inductive outcome := Opened (metadata : list byte) | NoLiveWorkers | SenderDropped.

(** [deaths] counts connections that died. *)
Record SinglePool := mkPool {
  workers : list worker;
  live_count : Z;
  queue : list nat;
  requests : gmap nat (list byte);
  outcomes : list (nat * outcome);
  deaths : Z
}.

Definition SinglePool_create : SinglePool := mkPool (replicate 32 Dialing) 0 [] ∅ [] 0.

Inductive pool_event :=
| Connect (r : nat) (metadata : list byte)   (* [connect] up to the send *)
| Dialed (w : nat) (ok : bool)
| MuxDies (w : nat)
| Take (w : nat)                             (* [req.recv()] *)
| OpenDone (w : nat)                         (* [mux.open] returns *)
| Wake (w : nat).

Definition with_workers (p : SinglePool) (l : list worker) : SinglePool :=
  mkPool l (live_count p) (queue p) (requests p) (outcomes p) (deaths p).

(** [connect] fails at once without live workers, and waits while 100 requests
    are queued. *)
Definition pool_step (p : SinglePool) (ev : pool_event) : option SinglePool :=
  match ev with
  | Connect r metadata =>
      match requests p !! r with
      | Some _ => None
      | None =>
          if live_count p =? 0 then
            Some (mkPool (workers p) (live_count p) (queue p) (<[r := metadata]> (requests p))
                    (outcomes p ++ [(r, NoLiveWorkers)]) (deaths p))
          else if (length (queue p) <? 100)%nat then
            Some (mkPool (workers p) (live_count p) (queue p ++ [r]) (<[r := metadata]> (requests p))
                    (outcomes p) (deaths p))
          else None
      end
  | Dialed w ok =>
      match workers p !! w with
      | Some Dialing =>
          Some (if ok then
                  mkPool (<[w := Serving true None]> (workers p)) (live_count p + 1) (queue p) (requests p)
                    (outcomes p) (deaths p)
                else with_workers p (<[w := Sleeping]> (workers p)))
      | _ => None
      end
  | MuxDies w =>
      match workers p !! w with
      | Some (Serving true o) =>
          Some (mkPool (<[w := Serving false o]> (workers p)) (live_count p) (queue p) (requests p)
                  (outcomes p) (deaths p + 1))
      | _ => None
      end
  | Take w =>
      match workers p !! w, queue p with
      | Some (Serving a None), r :: q =>
          Some (mkPool (<[w := Serving a (Some r)]> (workers p)) (live_count p) q (requests p)
                  (outcomes p) (deaths p))
      | _, _ => None
      end
  | OpenDone w =>
      match workers p !! w with
      | Some (Serving true (Some r)) =>
          Some (mkPool (<[w := Serving true None]> (workers p)) (live_count p) (queue p) (requests p)
                  (outcomes p ++ [(r, Opened (default [] (requests p !! r)))]) (deaths p))
      | Some (Serving false (Some r)) =>
          Some (mkPool (<[w := Sleeping]> (workers p)) (live_count p - 1) (queue p) (requests p)
                  (outcomes p ++ [(r, SenderDropped)]) (deaths p))
      | _ => None
      end
  | Wake w =>
      match workers p !! w with
      | Some Sleeping => Some (with_workers p (<[w := Dialing]> (workers p)))
      | _ => None
      end
  end.

Definition pool_run (p : SinglePool) (evs : list pool_event) : option SinglePool := foldl (λ p ev, p ≫= λ p, pool_step p ev) (Some p) evs.

(** ** Invariant *)

Definition opening_of (w : worker) : option nat := match w with Serving _ o => o | _ => None end.
Definition serving (w : worker) : Z := match w with Serving _ _ => 1 | _ => 0 end.
Definition dead (w : worker) : Z := match w with Serving false _ => 1 | _ => 0 end.
Definition dropped (o : nat * outcome) : Z := match o.2 with SenderDropped => 1 | _ => 0 end.

(** Where the requests are. *)
Definition places (p : SinglePool) : list nat := queue p ++ omap opening_of (workers p) ++ map fst (outcomes p).

Record pool_inv (p : SinglePool) : Prop := {
  inv_live : live_count p = sum_of serving (workers p);
  inv_queue : (length (queue p) <= 100)%nat;
  inv_nodup : NoDup (places p);
  inv_dom r : r ∈ places p ↔ is_Some (requests p !! r);
  inv_meta r m : (r, Opened m) ∈ outcomes p → requests p !! r = Some m;
  inv_lost : sum_of dropped (outcomes p) + sum_of dead (workers p) <= deaths p
}.

Lemma sum_of_app {A} (f : A → Z) l1 l2 : sum_of f (l1 ++ l2) = sum_of f l1 + sum_of f l2.
Proof. induction l1 as [|a l1 IH]; cbn; [lia|]. rewrite IH. lia. Qed.

(** Moving a request from one place to another. *)
Lemma pool_inv_moved p p' : pool_inv p → requests p' = requests p → places p' ≡ₚ places p →
  live_count p' = sum_of serving (workers p') → (length (queue p') <= 100)%nat →
  (∀ r m, (r, Opened m) ∈ outcomes p' → requests p' !! r = Some m) →
  sum_of dropped (outcomes p') + sum_of dead (workers p') <= deaths p' → pool_inv p'.
Proof.
  intros Hi Er Hp H1 H2 H3 H4. split; try done.
  - rewrite Hp. apply Hi.
  - intros r. rewrite Hp, Er. apply Hi.
Qed.

(** A new request. *)
Lemma inv_added p p' r m : pool_inv p → requests p !! r = None → requests p' = <[r := m]> (requests p) →
  places p' ≡ₚ r :: places p → workers p' = workers p → live_count p' = live_count p → deaths p' = deaths p →
  (length (queue p') <= 100)%nat → sum_of dropped (outcomes p') = sum_of dropped (outcomes p) →
  (∀ q m', (q, Opened m') ∈ outcomes p' → (q, Opened m') ∈ outcomes p) → pool_inv p'.
Proof.
  intros Hi Hr Er Hp Ew El Ed Hq Es Ho. pose proof Hi as [I1 I2 I3 I4 I5 I6]. split.
  - by rewrite El, Ew.
  - done.
  - rewrite Hp. constructor; [|done]. rewrite I4, Hr. by intros [? ?].
  - intros q. rewrite Hp, Er, elem_of_cons, I4, lookup_insert_is_Some'. naive_solver.
  - intros q m' Hin%Ho. rewrite Er, lookup_insert_ne; [by apply I5|]. intros ->. specialize (I5 _ _ Hin). congruence.
  - by rewrite Es, Ew, Ed.
Qed.

Lemma opened_app p r o q m : (q, Opened m) ∈ outcomes p ++ [(r, o)] → (q, Opened m) ∈ outcomes p ∨ q = r ∧ o = Opened m.
Proof. rewrite elem_of_app, list_elem_of_singleton. naive_solver. Qed.

(** A worker that changes without touching a request. *)
Lemma inv_worker p w x y n k : pool_inv p → workers p !! w = Some x → opening_of x = opening_of y →
  n = live_count p - serving x + serving y → deaths p - dead x + dead y <= k →
  pool_inv (mkPool (<[w := y]> (workers p)) n (queue p) (requests p) (outcomes p) k).
Proof.
  intros Hi Hw Ho -> Hk. pose proof Hi as [I1 I2 I3 I4 I5 I6]. apply (pool_inv_moved p); cbn; try done.
  - unfold places. cbn. by rewrite (omap_insert_same opening_of _ _ _ _ Hw Ho).
  - rewrite (sum_of_insert _ _ _ _ y Hw). lia.
  - rewrite (sum_of_insert _ _ _ _ y Hw). lia.
Qed.

Lemma pool_step_inv p ev p' : pool_inv p → pool_step p ev = Some p' → pool_inv p'.
Proof.
  intros Hi. pose proof Hi as [I1 I2 I3 I4 I5 I6]. destruct ev as [r m|w ok|w|w|w|w]; cbn [pool_step].
  - destruct (requests p !! r) eqn:Er; [done|]. destruct (live_count p =? 0).
    + intros [= <-]. apply (inv_added p _ r m); cbn; try done.
      * unfold places. cbn. rewrite map_app. cbn [map fst]. rewrite !app_assoc. by rewrite <- Permutation_cons_append.
      * rewrite sum_of_app. cbn. lia.
      * intros q m' [?|[_ ?]]%opened_app; done.
    + destruct (Nat.ltb_spec (length (queue p)) 100); [|done]. intros [= <-]. apply (inv_added p _ r m); cbn; try done.
      * unfold places. cbn. rewrite <- app_assoc. symmetry. apply Permutation_middle.
      * rewrite length_app. cbn. lia.
  - destruct (workers p !! w) as [[]|] eqn:Ew; try done. intros [= <-].
    destruct ok; eapply inv_worker; (done || cbn; lia).
  - destruct (workers p !! w) as [[|[] o|]|] eqn:Ew; try done. intros [= <-]. eapply inv_worker; (done || cbn; lia).
  - destruct (workers p !! w) as [[|a [|]|]|] eqn:Ew; try done. destruct (queue p) as [|r q] eqn:Eq; [done|]. intros [= <-].
    apply (pool_inv_moved p); cbn; try done.
    + unfold places. cbn. rewrite (omap_insert_Some opening_of _ _ _ (Serving a (Some r)) r Ew) by done. rewrite Eq.
      cbn. symmetry. apply Permutation_middle.
    + rewrite (sum_of_insert _ _ _ _ (Serving a (Some r)) Ew). cbn. lia.
    + cbn in I2. lia.
    + rewrite (sum_of_insert _ _ _ _ (Serving a (Some r)) Ew). cbn. destruct a; lia.
  - destruct (workers p !! w) as [[|[] [r|]|]|] eqn:Ew; try done; intros [= <-].
    + assert (Hr : is_Some (requests p !! r)).
      { apply I4. unfold places. rewrite (omap_insert_None opening_of _ _ _ (Serving true None) r Ew) by done. set_solver. }
      destruct Hr as [m Hm]. apply (pool_inv_moved p); cbn; try done.
      * unfold places. cbn. rewrite (omap_insert_None opening_of _ _ _ (Serving true None) r Ew) by done.
        rewrite map_app. cbn [map fst app]. apply perm_done.
      * rewrite (sum_of_insert _ _ _ _ (Serving true None) Ew). cbn. lia.
      * intros q m' [?|[-> E]]%opened_app; [by apply I5|]. rewrite Hm in *. cbn in E. congruence.
      * rewrite sum_of_app, (sum_of_insert _ _ _ _ (Serving true None) Ew). cbn. lia.
    + apply (pool_inv_moved p); cbn; try done.
      * unfold places. cbn. rewrite (omap_insert_None opening_of _ _ _ Sleeping r Ew) by done.
        rewrite map_app. cbn [map fst app]. apply perm_done.
      * rewrite (sum_of_insert _ _ _ _ Sleeping Ew). cbn. lia.
      * intros q m' [?|[-> E]]%opened_app; [by apply I5|done].
      * rewrite sum_of_app, (sum_of_insert _ _ _ _ Sleeping Ew). cbn. lia.
  - destruct (workers p !! w) as [[]|] eqn:Ew; try done. intros [= <-]. eapply inv_worker; (done || cbn; lia).
Qed.

Lemma create_inv : pool_inv SinglePool_create.
Proof.
  split; cbn; try done; try lia; [constructor|..]; intros; rewrite ?lookup_empty; [split; [by intros ?%elem_of_nil|by intros [? ?]]|].
  by apply elem_of_nil in H.
Qed.

Lemma pool_run_inv evs p' : pool_run SinglePool_create evs = Some p' → pool_inv p'.
Proof.
  unfold pool_run. assert (Hn : ∀ evs, foldl (λ p ev, p ≫= λ p, pool_step p ev) None evs = None) by (intros l; by induction l).
  assert (Hgo : ∀ p, pool_inv p → foldl (λ p ev, p ≫= λ p, pool_step p ev) (Some p) evs = Some p' → pool_inv p').
  { induction evs as [|ev evs IH]; intros p Hi E; cbn in E; [by simplify_eq|].
    destruct (pool_step p ev) as [p1|] eqn:Es; [|by rewrite Hn in E]. eapply IH; [by eapply pool_step_inv|done]. }
  intros E. eapply Hgo; [apply create_inv|done].
Qed.

(** The bridge's pool.  In every run of a pool, whatever is requested, dies
    and is scheduled: the counter that [connect] looks at is the number of
    tasks that serve, each request is answered at most once and has one place
    until then, a stream that is returned was opened with the metadata of its
    request, the channel holds at most 100 requests, and a connection that
    dies unnoticed costs at most one request. *)
Theorem pool_serves evs p : pool_run SinglePool_create evs = Some p →
  live_count p = sum_of serving (workers p) ∧
  NoDup (queue p ++ omap opening_of (workers p) ++ map fst (outcomes p)) ∧
  (∀ r m, (r, Opened m) ∈ outcomes p → requests p !! r = Some m) ∧
  (length (queue p) <= 100)%nat ∧
  sum_of dropped (outcomes p) <= deaths p.
Proof.
  intros [I1 I2 I3 I4 I5 I6]%pool_run_inv. split; [done|]. split; [done|]. split; [done|]. split; [done|].
  assert (0 <= sum_of dead (workers p)); [|lia].
  clear. induction (workers p) as [|[|[]|] l IH]; cbn; lia.
Qed.

(** One connection serves, dies, and the next request is lost with it. *)
Lemma pool_serves_witness :
  ∃ p, pool_run SinglePool_create [Dialed 0 true; Connect 7 [x01]; Take 0; OpenDone 0; MuxDies 0; Connect 8 [x02]; Take 0; OpenDone 0;
                   Connect 9 [x03]] = Some p ∧
    outcomes p = [(7%nat, Opened [x01]); (8%nat, SenderDropped); (9%nat, NoLiveWorkers)] ∧
    sum_of dropped (outcomes p) <= deaths p.
Proof.
  eexists. split; [vm_compute; reflexivity|]. split; [reflexivity|].
  refine (proj2 (proj2 (proj2 (proj2 (pool_serves [Dialed 0 true; Connect 7 [x01]; Take 0; OpenDone 0; MuxDies 0;
    Connect 8 [x02]; Take 0; OpenDone 0; Connect 9 [x03]] _ _))))). vm_compute. reflexivity.
Defined.
End BridgePool.

(** ** The client's sessions *)

Module ClientPool.

(** One of the [CONCURRENCY] instances: connecting and authenticating, running
    [proxy_loop] over a multiplexer with the requests it is opening streams
    for, or waiting to try again. *)
Inductive instance_state := Connecting | Session (alive : bool) (opening : list nat) | Backoff.

Inductive ConnInfo := ConnConnecting | ConnConnected (i : nat).

(** [answered] are the streams sent back, with the instance and the metadata
    they were opened with; [lost] the requests whose sender was dropped. *)
Record client_state := mkClient {
  instances : list instance_state;
  chan : list nat;
  asked : gmap nat string;
  answered : list (nat * (nat * string));
  lost : list nat;
  CURRENT_CONN_INFO : ConnInfo
}.

Definition CONCURRENCY : nat := 3.
Definition client_start : client_state := mkClient (replicate CONCURRENCY Connecting) [] ∅ [] [] ConnConnecting.

(** How an attempt to connect ends: failed or timed out, established but with a
    peer address that does not parse, or in a session. *)
Inductive dialed := DialFailed | BadAddress | Established.

Inductive client_event :=
| Ask (r : nat) (metadata : string)      (* the end of [open_conn] *)
| DialDone (i : nat) (d : dialed)
| MuxDies (i : nat)
| Recv (i : nat)                         (* the loop of [proxy_loop] *)
| OpenDone (i : nat) (r : nat)           (* [mux.open] in a spawned task *)
| SessionEnds (i : nat)                  (* [wait_until_dead]; the tasks are cancelled *)
| Retry (i : nat).

Definition client_step (c : client_state) (ev : client_event) : option client_state :=
  match ev with
  | Ask r m =>
      match asked c !! r with
      | Some _ => None
      | None => Some (mkClient (instances c) (chan c ++ [r]) (<[r := m]> (asked c)) (answered c) (lost c) (CURRENT_CONN_INFO c))
      end
  | DialDone i d =>
      match instances c !! i with
      | Some Connecting =>
          let st := match d with Established => Session true [] | _ => Backoff end in
          let info := match d with DialFailed => CURRENT_CONN_INFO c | _ => ConnConnected i end in
          Some (mkClient (<[i := st]> (instances c)) (chan c) (asked c) (answered c) (lost c) info)
      | _ => None
      end
  | MuxDies i =>
      match instances c !! i with
      | Some (Session true l) =>
          Some (mkClient (<[i := Session false l]> (instances c)) (chan c) (asked c) (answered c) (lost c) (CURRENT_CONN_INFO c))
      | _ => None
      end
  | Recv i =>
      match instances c !! i, chan c with
      | Some (Session a l), r :: q =>
          Some (mkClient (<[i := Session a (r :: l)]> (instances c)) q (asked c) (answered c) (lost c) (CURRENT_CONN_INFO c))
      | _, _ => None
      end
  | OpenDone i r =>
      match instances c !! i with
      | Some (Session a l) =>
          if bool_decide (r ∈ l) then
            let st := Session a (filter (λ q, q ≠ r) l) in
            Some (if a then
                    mkClient (<[i := st]> (instances c)) (chan c) (asked c)
                      (answered c ++ [(r, (i, default EmptyString (asked c !! r)))]) (lost c) (CURRENT_CONN_INFO c)
                  else
                    mkClient (<[i := st]> (instances c)) (chan c ++ [r]) (asked c) (answered c) (lost c) (CURRENT_CONN_INFO c))
          else None
      | _ => None
      end
  | SessionEnds i =>
      match instances c !! i with
      | Some (Session false l) =>
          Some (mkClient (<[i := Backoff]> (instances c)) (chan c) (asked c) (answered c) (lost c ++ l) (CURRENT_CONN_INFO c))
      | _ => None
      end
  | Retry i =>
      match instances c !! i with
      | Some Backoff =>
          Some (mkClient (<[i := Connecting]> (instances c)) (chan c) (asked c) (answered c) (lost c) ConnConnecting)
      | _ => None
      end
  end.

Definition client_run (c : client_state) (evs : list client_event) : option client_state := foldl (λ c ev, c ≫= λ c, client_step c ev) (Some c) evs.

Definition opening_of (x : instance_state) : list nat := match x with Session _ l => l | _ => [] end.
Definition places (c : client_state) : list nat :=
  chan c ++ concat (map opening_of (instances c)) ++ map fst (answered c) ++ lost c.

Record client_inv (c : client_state) : Prop := {
  inv_nodup : NoDup (places c);
  inv_dom r : r ∈ places c ↔ is_Some (asked c !! r);
  inv_meta r i m : (r, (i, m)) ∈ answered c → asked c !! r = Some m
}.

Lemma client_inv_moved c c' : client_inv c → asked c' = asked c → places c' ≡ₚ places c →
  (∀ r i m, (r, (i, m)) ∈ answered c' → asked c' !! r = Some m) → client_inv c'.
Proof.
  intros [I1 I2 I3] Ea Hp Hm. split; [by rewrite Hp| |done]. intros r. by rewrite Hp, Ea.
Qed.

Lemma filter_absent (r : nat) (l : list nat) : r ∉ l → filter (λ q, q ≠ r) l = l.
Proof.
  induction l as [|a l IH]; [done|]. intros [Ha Hl]%not_elem_of_cons. rewrite filter_cons_True by naive_solver. by rewrite IH.
Qed.
(** Taking one of several distinct requests out. *)
Lemma filter_out (r : nat) (l : list nat) : NoDup l → r ∈ l → l ≡ₚ r :: filter (λ q, q ≠ r) l.
Proof.
  induction l as [|a l IH]; [by rewrite elem_of_nil|]. intros [Ha Hl]%NoDup_cons [->|Hin]%elem_of_cons.
  - rewrite filter_cons_False by naive_solver. by rewrite filter_absent.
  - rewrite filter_cons_True by (by intros ->). rewrite (IH Hl Hin) at 1. constructor.
Qed.

Lemma client_step_inv c ev c' : client_inv c → client_step c ev = Some c' → client_inv c'.
Proof.
  intros Hi. pose proof Hi as [I1 I2 I3]. destruct ev as [r m|i d|i|i|i r|i|i]; cbn [client_step].
  - destruct (asked c !! r) eqn:Er; [done|]. intros [= <-].
    assert (Hp : places (mkClient (instances c) (chan c ++ [r]) (<[r := m]> (asked c)) (answered c) (lost c) (CURRENT_CONN_INFO c))
                 ≡ₚ r :: places c) by (unfold places; cbn; rewrite <- app_assoc; symmetry; apply Permutation_middle).
    split; cbn.
    + rewrite Hp. constructor; [|done]. rewrite I2, Er. by intros [? ?].
    + intros q. rewrite Hp, elem_of_cons, I2, lookup_insert_is_Some'. naive_solver.
    + intros q i m' Hin%I3. rewrite lookup_insert_ne; [done|]. intros ->. congruence.
  - destruct (instances c !! i) as [[]|] eqn:Ei; try done. intros [= <-]. apply (client_inv_moved c); cbn; try done.
    unfold places; cbn. destruct (concat_insert opening_of _ _ _ Ei) as (rest & -> & ->). by destruct d.
  - destruct (instances c !! i) as [[|[] l|]|] eqn:Ei; try done. intros [= <-]. apply (client_inv_moved c); cbn; try done.
    unfold places; cbn. by destruct (concat_insert opening_of _ _ _ Ei) as (rest & -> & ->).
  - destruct (instances c !! i) as [[|a l|]|] eqn:Ei; try done. destruct (chan c) as [|r q] eqn:Ec; [done|]. intros [= <-].
    apply (client_inv_moved c); cbn; try done. unfold places; cbn. rewrite Ec.
    destruct (concat_insert opening_of _ _ _ Ei) as (rest & -> & ->). cbn. symmetry. apply Permutation_middle.
  - destruct (instances c !! i) as [[|a l|]|] eqn:Ei; try done. case_bool_decide as Hr; [|done].
    destruct (concat_insert opening_of _ _ _ Ei) as (rest & E1 & E2). cbn [opening_of] in E1.
    assert (Hl : NoDup l).
    { unfold places in I1. rewrite E1 in I1. apply NoDup_app in I1 as (_ & _ & I1). rewrite <- !app_assoc in I1.
      by apply NoDup_app in I1 as (I1 & _ & _). }
    specialize (E2 (Session a (filter (λ q, q ≠ r) l))). cbn [opening_of] in E2.
    assert (E3 : concat (map opening_of (instances c)) ≡ₚ
      r :: concat (map opening_of (<[i := Session a (filter (λ q, q ≠ r) l)]> (instances c)))).
    { rewrite E1, E2. by rewrite (filter_out r l Hl Hr) at 1. }
    assert (Ha : is_Some (asked c !! r)) by (apply I2; unfold places; rewrite E3; set_solver).
    destruct a; intros [= <-]; apply (client_inv_moved c); cbn; try done.
    + unfold places; cbn. rewrite E3, map_app. cbn [map fst]. rewrite <- app_assoc. cbn.
      rewrite <- (Permutation_middle (map fst (answered c))). apply Permutation_app_head. cbn. symmetry. apply Permutation_middle.
    + intros q j m [Hin|Hin]%elem_of_app; [by eapply I3|]. apply list_elem_of_singleton in Hin. destruct Ha as [x Hx].
      rewrite Hx in Hin. cbn in Hin. by simplify_eq.
    + unfold places; cbn. rewrite E3, <- app_assoc. done.
  - destruct (instances c !! i) as [[|[] l|]|] eqn:Ei; try done. intros [= <-]. apply (client_inv_moved c); cbn; try done.
    unfold places; cbn. destruct (concat_insert opening_of _ _ _ Ei) as (rest & -> & ->). cbn.
    apply Permutation_app_head. apply perm_ended.
  - destruct (instances c !! i) as [[]|] eqn:Ei; try done. intros [= <-]. apply (client_inv_moved c); cbn; try done.
    unfold places; cbn. by destruct (concat_insert opening_of _ _ _ Ei) as (rest & -> & ->).
Qed.

Lemma start_inv : client_inv client_start.
Proof.
  split; cbn; [constructor| |].
  - intros r. rewrite lookup_empty. split; [by intros ?%elem_of_nil|by intros [? ?]].
  - by intros r i m ?%elem_of_nil.
Qed.

Lemma client_run_inv evs c' : client_run client_start evs = Some c' → client_inv c'.
Proof.
  unfold client_run. assert (Hn : ∀ evs, foldl (λ c ev, c ≫= λ c, client_step c ev) None evs = None) by (intros l; by induction l).
  assert (Hgo : ∀ c, client_inv c → foldl (λ c ev, c ≫= λ c, client_step c ev) (Some c) evs = Some c' → client_inv c').
  { induction evs as [|ev evs IH]; intros c Hi E; cbn in E; [by simplify_eq|].
    destruct (client_step c ev) as [c1|] eqn:Es; [|by rewrite Hn in E]. eapply IH; [by eapply client_step_inv|done]. }
  intros E. eapply Hgo; [apply start_inv|done].
Qed.

Lemma client_run_snoc c evs ev : client_run c (evs ++ [ev]) = client_run c evs ≫= λ c, client_step c ev.
Proof. unfold client_run. by rewrite foldl_app. Qed.

Lemma client_step_lost c ev c' : client_step c ev = Some c' →
  lost c' = lost c ∨ ∃ i l, ev = SessionEnds i ∧ instances c !! i = Some (Session false l) ∧ lost c' = lost c ++ l.
Proof.
  destruct ev as [r m|i d|i|i|i r|i|i]; cbn [client_step]; intros E; repeat case_match; simplify_eq/=; eauto 6.
Qed.

(** A lost request was being opened by a session at the moment this session ended. *)
Definition lost_with_session (evs : list client_event) (r : nat) : Prop :=
  ∃ pre post i c l, evs = pre ++ SessionEnds i :: post ∧ client_run client_start pre = Some c ∧
    instances c !! i = Some (Session false l) ∧ r ∈ l.

Lemma lost_explained evs : ∀ c, client_run client_start evs = Some c → ∀ r, r ∈ lost c → lost_with_session evs r.
Proof.
  induction evs as [|ev evs IH] using rev_ind; intros c E r Hr.
  { cbn in E. injection E as <-. by apply elem_of_nil in Hr. }
  rewrite client_run_snoc in E. destruct (client_run client_start evs) as [c0|] eqn:E0; [|done]. cbn in E.
  assert (Hold : r ∈ lost c0 → lost_with_session (evs ++ [ev]) r).
  { intros Hr0. destruct (IH c0 eq_refl r Hr0) as (pre & post & i & c1 & l & -> & ? & ? & ?).
    exists pre, (post ++ [ev]), i, c1, l. by rewrite <- app_assoc. }
  destruct (client_step_lost _ _ _ E) as [El|(i & l & -> & Ei & El)]; rewrite El in Hr; [by apply Hold|].
  apply elem_of_app in Hr as [Hr|Hr]; [by apply Hold|]. by exists evs, [], i, c0, l.
Qed.

(** C25: requests are conserved.  In every run of the client's instances, with
    multiplexers dying at any time, each request that was made is at exactly one
    place: in the channel, being opened by one session, answered, or lost.  So it
    is answered at most once and by one session, the stream that comes back was
    opened with the metadata of the request, and a request is lost only together
    with the session that was opening its stream when it ended; one that waits in
    the channel or was passed on by a dead session is not. *)
Theorem requests_conserved evs c : client_run client_start evs = Some c →
  NoDup (chan c ++ concat (map opening_of (instances c)) ++ map fst (answered c) ++ lost c) ∧
  (∀ r, r ∈ chan c ++ concat (map opening_of (instances c)) ++ map fst (answered c) ++ lost c ↔ is_Some (asked c !! r)) ∧
  (∀ r i m, (r, (i, m)) ∈ answered c → asked c !! r = Some m) ∧
  (∀ r, r ∈ lost c → lost_with_session evs r).
Proof. intros E. pose proof E as [I1 I2 I3]%client_run_inv. split_and!; [done..|]. by apply lost_explained. Qed.

(** A request moves from a dead session to a live one. *)
Lemma requests_conserved_witness :
  ∃ c, client_run client_start [DialDone 0 Established; DialDone 1 Established; Ask 5 "tcp$a:1"; MuxDies 0; Recv 0; OpenDone 0 5; Recv 1;
                  OpenDone 1 5; SessionEnds 0; Retry 0] = Some c ∧
    answered c = [(5%nat, (1%nat, "tcp$a:1"%string))] ∧
    (∀ r i m, (r, (i, m)) ∈ answered c → asked c !! r = Some m).
Proof.
  eexists. split; [vm_compute; reflexivity|]. split; [reflexivity|].
  refine (proj1 (proj2 (proj2 (requests_conserved [DialDone 0 Established; DialDone 1 Established; Ask 5 "tcp$a:1"; MuxDies 0; Recv 0;
    OpenDone 0 5; Recv 1; OpenDone 1 5; SessionEnds 0; Retry 0] _ _)))). vm_compute. reflexivity.
Defined.

(** The instances share one status: with one of them reconnecting, the client
    says that it is connecting while the others serve. *)
Example status_of_one_instance :
  ∃ c, client_run client_start [DialDone 0 Established; DialDone 1 Established; MuxDies 0; SessionEnds 0; Retry 0] = Some c ∧
    instances c !! 1%nat = Some (Session true []) ∧ CURRENT_CONN_INFO c = ConnConnecting.
Proof. eexists. split; [vm_compute; reflexivity|done]. Qed.
End ClientPool.
