(* ===== verification/Transport.v ===== *)
(** * Reaching the broker
    (binaries/geph5-client/src/broker.rs, broker/{race,priority_race}.rs,
    libraries/nanorpc-sillad/src/lib.rs)

    A transport is what a call through it does, as a function of the time the
    call starts: it returns, at some time, a response or an error, or hangs.
    [RaceTransport] remembers the transport that answered last under a lock
    held during the whole call; the HTTP and AWS transports are arguments.  The
    last section is the line protocol of nanorpc-sillad, with the JSON of
    requests and responses as a codec. *)
From Stdlib Require Import ZArith Lia.
From S2P Require Import Prelude Crypto Protocol Dialer.
Local Open Scope Z_scope.

(** ** Transports *)

Inductive called (R : Type) : Type :=
| Returned (at_ : Z) (r : res io_error R)
| Hangs.
Arguments Returned {R}.
Arguments Hangs {R}.

Section transports.
Context {R : Type}.

(** What answered, with its index. *)
Definition tagged (i : nat) (d : dialer R) : dialer (nat * R) := λ t,
  match d t with
  | Done t' (inl a) => Done t' (inl (i, a))
  | Done t' (inr e) => Done t' (inr e)
  | Never => Never
  end.

(** The race of [RaceTransport::call_raw]: every choice for ten seconds; the
    earliest success, or the last error. *)
Definition race_group (choices : list (dialer R)) : option (dialer (nat * R)) :=
  reduce race (imap (λ i d, tagged i (timeout 10000 d)) choices).

(** [RaceTransport::call_raw], started with the lock at [t]: the new selection
    and what the call does. *)
Definition race_call (choices : list (dialer R)) (selected : option nat) (t : Z) : option nat * called R :=
  match selected with
  | Some idx =>
      match choices !! idx with
      | None => (selected, Returned t Panic)
      | Some d =>
          match d t with
          | Done t' (inl a) => (selected, Returned t' (Ok a))
          | Done t' (inr e) => (None, Returned t' (Err e))
          | Never => (selected, Hangs)
          end
      end
  | None =>
      match race_group choices with
      | None => (None, Returned t Panic)
      | Some g =>
          match g t with
          | Done t' (inl (idx, a)) => (Some idx, Returned t' (Ok a))
          | Done t' (inr e) => (None, Returned t' (Err e))
          | Never => (None, Hangs)
          end
      end
  end.

(** Calls that arrive at the given times; each waits for the lock, which a call
    that hangs never gives back. *)
Fixpoint race_run (choices : list (dialer R)) (selected : option nat) (free : option Z) (arrivals : list Z) : list (called R) :=
  match arrivals with
  | [] => []
  | a :: arrivals =>
      match free with
      | None => Hangs :: race_run choices selected None arrivals
      | Some f =>
          let '(selected, c) := race_call choices selected (Z.max a f) in
          c :: race_run choices selected (match c with Returned t' _ => Some t' | Hangs => None end) arrivals
      end
  end.

(** [PriorityRaceTransport::call_raw]: choices in the order of their delays; when
    all fail, the error of the first. *)
Definition first_error (d : dialer R) (t : Z) : option io_error :=
  match d t with Done _ (inr e) => Some e | _ => None end.
Definition priority_race_call (choices : list (Z * dialer R)) (t : Z) : called R :=
  let ds := map (λ c, delay c.1 c.2) choices in
  match reduce race ds with
  | None => Returned t Panic
  | Some g =>
      match g t with
      | Done t' (inl a) => Returned t' (Ok a)
      | Done t' (inr e) => Returned t' (Err (default e (head ds ≫= λ d, first_error d t)))
      | Never => Hangs
      end
  end.

(** ** Races *)

(** A choice that answers every call within ten seconds. *)
Definition answers (d : dialer R) : Prop := ∀ t, ∃ t' a, d t = Done t' (inl a) ∧ t <= t' <= t + 10000.
(** One that always returns. *)
Definition returns (d : dialer R) : Prop := ∀ t, d t ≠ Never.

Lemma tagged_timeout_success i d t t' x :
  tagged i (timeout 10000 d) t = Done t' (inl x) ↔ x.1 = i ∧ d t = Done t' (inl x.2) ∧ t' <= t + 10000.
Proof.
  unfold tagged, timeout. destruct x as [j a]. cbn [fst snd]. destruct (d t) as [t1 [a1|e1]|].
  - destruct (Z.leb_spec t1 (t + 10000)); split; try done; intros Hx; [by simplify_eq|naive_solver|naive_solver lia].
  - destruct (Z.leb_spec t1 (t + 10000)); split; try done; naive_solver.
  - split; [done|naive_solver].
Qed.
Lemma tagged_timeout_done i d t : tagged i (timeout 10000 d) t ≠ Never.
Proof. unfold tagged, timeout. destruct (d t) as [t1 [a1|e1]|]; try destruct (_ <=? _); done. Qed.

Lemma races_done {A} (l : list (dialer A)) : ∀ d t, d t ≠ Never → Forall (λ d, d t ≠ Never) l → foldl race d l t ≠ Never.
Proof.
  induction l as [|d2 l IH]; intros d t Hd Hl; [done|]. inversion_clear Hl as [|? ? H2 Hl']. cbn. apply IH; [|done].
  unfold race. destruct (d t) as [t1 [a1|e1]|], (d2 t) as [t2 [a2|e2]|]; try done; destruct (t1 <=? t2); done.
Qed.

(** The race of a non-empty list returns; a success is a choice's own, the
    earliest, and there is one when some choice answers. *)
Lemma race_group_spec choices t : choices ≠ [] → ∃ g, race_group choices = Some g ∧ g t ≠ Never ∧
  (∀ t' i a, g t = Done t' (inl (i, a)) →
     (∃ d, choices !! i = Some d ∧ d t = Done t' (inl a)) ∧
     ∀ j d t'' b, choices !! j = Some d → d t = Done t'' (inl b) → t'' <= t + 10000 → t' <= t'') ∧
  (∀ i d t' a, choices !! i = Some d → d t = Done t' (inl a) → t' <= t + 10000 → ∃ t1 x, g t = Done t1 (inl x)).
Proof.
  intros Hne. unfold race_group. set (att := imap (λ i d, tagged i (timeout 10000 d)) choices).
  assert (Hatt : ∀ i d, choices !! i = Some d → tagged i (timeout 10000 d) ∈ att).
  { intros i d Hi. apply list_elem_of_lookup. exists i. unfold att. by rewrite list_lookup_imap, Hi. }
  assert (Hinv : ∀ x, x ∈ att → ∃ i d, choices !! i = Some d ∧ x = tagged i (timeout 10000 d)).
  { intros x [i Hi]%list_elem_of_lookup. unfold att in Hi. rewrite list_lookup_imap in Hi.
    destruct (choices !! i) as [d|] eqn:E; simplify_eq/=. eauto. }
  destruct att as [|d l] eqn:Ea.
  { destruct choices as [|d0 choices]; [done|]. by specialize (Hatt 0%nat d0 eq_refl) as ?%elem_of_nil. }
  exists (foldl race d l). split; [done|]. split_and!.
  - apply races_done.
    + destruct (Hinv d ltac:(by left)) as (i & d' & _ & ->). apply tagged_timeout_done.
    + apply Forall_forall. intros x Hx. destruct (Hinv x ltac:(by right)) as (i & d' & _ & ->). apply tagged_timeout_done.
  - intros t' i a E. apply races_sound in E as [(d0 & Hin & E0) Hmin]. split.
    + destruct (Hinv _ Hin) as (j & d' & Hj & ->). apply tagged_timeout_success in E0 as (E1 & E2 & _). cbn in *. subst j. eauto.
    + intros j d' t'' b Hj E1 Ht. apply (Hmin _ _ (Hatt _ _ Hj)). exists (j, b). by apply tagged_timeout_success.
  - intros i d' t' a Hi E Ht.
    destruct (races_total l d t) as (t1 & x & Ex); [|eauto].
    exists (tagged i (timeout 10000 d')), t'. split; [by apply Hatt|]. exists (i, a). apply tagged_timeout_success. cbn. split; [done|]. split; [done|lia].
Qed.

Lemma race_call_selected choices i d t : choices !! i = Some d →
  race_call choices (Some i) t =
  match d t with
  | Done t' (inl a) => (Some i, Returned t' (Ok a))
  | Done t' (inr e) => (None, Returned t' (Err e))
  | Never => (Some i, Hangs)
  end.
Proof. intros E. unfold race_call. by destruct (choices !! i); simplify_eq. Qed.

(** Racing transports recover.  With at least one transport, one of which
    answers every call within ten seconds, and none of which hangs: every call
    through the race returns, whenever it is made; a call after a failed one
    succeeds, so that of two consecutive calls at most one fails. *)
Theorem race_recovers choices d : d ∈ choices → answers d → Forall returns choices →
  ∀ arrivals selected free,
  (∀ i, selected = Some i → (i < length choices)%nat) →
  Forall (λ c, ∃ t r, c = Returned t r ∧ r ≠ Panic) (race_run choices selected (Some free) arrivals) ∧
  ∀ k t e c, race_run choices selected (Some free) arrivals !! k = Some (Returned t (Err e)) →
    race_run choices selected (Some free) arrivals !! S k = Some c → ∃ t' a, c = Returned t' (Ok a).
Proof.
  intros Hd Ha Hr. assert (Hne : choices ≠ []) by (by intros ->; apply elem_of_nil in Hd).
  assert (Hstep : ∀ selected t, (∀ i, selected = Some i → (i < length choices)%nat) →
    ∃ s' t' r, race_call choices selected t = (s', Returned t' r) ∧ r ≠ Panic ∧
      (∀ i, s' = Some i → (i < length choices)%nat) ∧ (∀ e, r = Err e → s' = None) ∧
      (selected = None → ∃ a, r = Ok a)).
  { intros selected t Hs. destruct selected as [i|].
    - destruct (lookup_lt_is_Some_2 choices i (Hs i eq_refl)) as [di Hi].
      pose proof (proj1 (Forall_forall _ _) Hr di (list_elem_of_lookup_2 _ _ _ Hi) t) as Hret.
      destruct (di t) as [t' [a|e]|] eqn:Et; [| |done]; do 3 eexists;
        (split; [rewrite (race_call_selected _ _ di _ Hi), Et; reflexivity|]); naive_solver.
    - destruct (race_group_spec choices t Hne) as (g & Eg & _ & Hsucc & Hans).
      apply list_elem_of_lookup in Hd as [id Hid]. destruct (Ha t) as (ta & aa & Ea & Hta).
      destruct (Hans id d ta aa Hid Ea ltac:(lia)) as (t' & [i a] & E). do 3 eexists. split; [unfold race_call; rewrite Eg, E; reflexivity|].
      split; [done|]. split; [|naive_solver]. intros j [= <-]. destruct (Hsucc _ _ _ E) as [(d' & Hi & _) _]. by eapply lookup_lt_Some. }
  induction arrivals as [|a arrivals IH]; intros selected free Hs; [split; [constructor|done]|].
  cbn [race_run]. destruct (Hstep selected (Z.max a free) Hs) as (s' & t' & r & -> & Hp & Hs' & He & _).
  destruct (IH s' t' Hs') as [IH1 IH2]. split; [constructor; [naive_solver|done]|].
  intros [|k] t e c E1 E2; [|by eapply IH2]. cbn in E1, E2. simplify_eq. specialize (He e eq_refl) as ->.
  destruct arrivals as [|a2 arrivals]; [done|]. cbn [race_run] in E2.
  destruct (Hstep None (Z.max a2 t) ltac:(done)) as (s2 & t2 & r2 & E3 & _ & _ & _ & Hok). rewrite E3 in E2. cbn in E2. simplify_eq.
  destruct (Hok eq_refl) as [b ->]. eauto.
Qed.

(** A selected transport that hangs takes the race with it: no later call
    returns, although other transports would answer. *)
Lemma selected_hang choices i d free arrivals : choices !! i = Some d → (∀ t, d t = Never) →
  race_run choices (Some i) (Some free) arrivals = replicate (length arrivals) Hangs.
Proof.
  intros Hi Hn. destruct arrivals as [|a arrivals]; [done|]. cbn [race_run]. rewrite (race_call_selected _ _ _ _ Hi), Hn. cbn. f_equal.
  induction arrivals as [|b arrivals IH]; [done|]. cbn. by f_equal.
Qed.

(** A race or priority race between no transports ends the process. *)
Lemma empty_race_panics t : (race_call [] None t).2 = Returned t Panic ∧ priority_race_call [] t = Returned t Panic.
Proof. done. Qed.
End transports.

(** ** RPC over a pipe *)

Section lines.
Context {Req Resp S : Type}.
(** The JSON texts, as [serde_json] writes and reads them: without a line
    break, and whitespace around the value is skipped. *)
Context (show_req : Req → list byte) (read_req : list byte → option Req).
Context (show_resp : Resp → list byte) (read_resp : list byte → option Resp).
Context (respond_raw : S → Req → S * Resp).

(** [read_line]: up to and with the next line break, or what is left. *)
Fixpoint read_line (input : list byte) : option (list byte * list byte) :=
  match input with
  | [] => None
  | b :: input =>
      if decide (b = x0a) then Some ([b], input)
      else '(l, rest) ← read_line input; Some (b :: l, rest)
  end.

(** The task of [rpc_serve] for a connection: the service's state, what is
    written, and whether the task has ended.  [closed] says that the peer sends
    nothing more. *)
Fixpoint serve_conn (fuel : nat) (closed : bool) (s : S) (input : list byte) : S * list byte * bool :=
  match fuel with
  | O => (s, [], false)
  | Datatypes.S fuel =>
      let next := match read_line input with
                  | Some (line, rest) => Some (line, rest)
                  | None => if closed then Some (input, []) else None
                  end in
      match next with
      | None => (s, [], false)
      | Some (line, rest) =>
          match read_req line with
          | None => (s, [], true)
          | Some req =>
              let '(s, resp) := respond_raw s req in
              let '(s, out, ended) := serve_conn fuel closed s rest in
              (s, show_resp resp ++ [x0a] ++ out, ended)
          end
      end
  end.
Definition rpc_serve_conn (closed : bool) (s : S) (input : list byte) : S * list byte * bool :=
  serve_conn (Datatypes.S (Datatypes.S (length input))) closed s input.

(** [DialerTransport::call_raw]: what it writes, and what it makes of what it
    reads ([None]: it still waits). *)
Definition call_write (req : Req) : list byte := show_req req ++ [x0a].
Definition call_read (closed : bool) (input : list byte) : option (res string Resp) :=
  match read_line input with
  | Some (line, _) => Some (ok_or (read_resp line) "bad JSON"%string)
  | None => if closed then Some (ok_or (read_resp input) "bad JSON"%string) else None
  end.

Context (Hreq : ∀ r, (x0a ∉ show_req r) ∧ read_req (show_req r ++ [x0a]) = Some r).
Context (Hresp : ∀ r, (x0a ∉ show_resp r) ∧ read_resp (show_resp r ++ [x0a]) = Some r).

Lemma read_line_app l rest : x0a ∉ l → read_line (l ++ x0a :: rest) = Some (l ++ [x0a], rest).
Proof.
  induction l as [|b l IH]; intros Hl; cbn; [done|]. apply not_elem_of_cons in Hl as [Hb Hl].
  rewrite decide_False by done. by rewrite IH.
Qed.

(** The service's answers, one after another. *)
Fixpoint respond_all (s : S) (reqs : list Req) : S * list Resp :=
  match reqs with
  | [] => (s, [])
  | r :: reqs => let '(s, resp) := respond_raw s r in let '(s, resps) := respond_all s reqs in (s, resp :: resps)
  end.

Lemma serve_conn_all reqs : ∀ fuel s, (length reqs < fuel)%nat →
  serve_conn fuel false s (concat (map call_write reqs)) =
  ((respond_all s reqs).1, concat (map (λ r, show_resp r ++ [x0a]) (respond_all s reqs).2), false).
Proof.
  induction reqs as [|r reqs IH]; intros [|fuel] s Hf; cbn in Hf; [lia|done|lia|].
  cbn [map concat]. unfold call_write at 1. rewrite <- app_assoc. cbn [app serve_conn].
  rewrite read_line_app by apply Hreq. cbn. rewrite (proj2 (Hreq r)).
  destruct (respond_raw s r) as [s1 resp]. rewrite IH by lia. destruct (respond_all s1 reqs) as [s2 resps]. cbn.
  by rewrite <- app_assoc.
Qed.

(** Remote calls over a pipe.  The requests a client writes over a
    connection are answered one after another by the service, in order and
    each once, and a client that wrote a request reads back the service's
    response to it. *)
Theorem rpc_over_pipe s reqs req :
  rpc_serve_conn false s (concat (map call_write reqs)) =
    ((respond_all s reqs).1, concat (map (λ r, show_resp r ++ [x0a]) (respond_all s reqs).2), false) ∧
  call_read false (rpc_serve_conn false s (call_write req)).1.2 = Some (Ok (respond_raw s req).2).
Proof.
  split.
  - apply serve_conn_all. assert (length reqs <= length (concat (map call_write reqs)))%nat; [|lia].
    induction reqs as [|r reqs IH]; [done|]. cbn. unfold call_write at 1. rewrite !length_app. cbn. lia.
  - assert (E : rpc_serve_conn false s (call_write req) =
      ((respond_all s [req]).1, concat (map (λ r, show_resp r ++ [x0a]) (respond_all s [req]).2), false)).
    { rewrite <- (serve_conn_all [req] (Datatypes.S (Datatypes.S (length (call_write req))))) by (cbn; lia).
      cbn [map concat]. by rewrite app_nil_r. }
    rewrite E. cbn. destruct (respond_raw s req) as [s1 resp]. cbn. rewrite app_nil_r. unfold call_read.
    rewrite read_line_app by apply Hresp. by rewrite (proj2 (Hresp resp)).
Qed.
End lines.

(** ** Concrete runs *)

Module TransportDemo.
Definition slow : dialer nat := λ t, Done (t + 900) (inl 1%nat).
Definition flaky : dialer nat := λ t, if t <? 5000 then Done (t + 10) (inl 2%nat) else Done (t + 10) (inr failing_error).
Definition show (n : nat) : list byte := replicate n x41.
Definition read (l : list byte) : option nat :=
  match reverse l with x0a :: l => Some (length l) | _ => None end.
Lemma show_read r : (x0a ∉ show r) ∧ read (show r ++ [x0a]) = Some r.
Proof.
  split.
  - unfold show. intros [? ?]%elem_of_replicate. done.
  - unfold read, show. rewrite reverse_app, reverse_replicate. cbn. by rewrite length_replicate.
Qed.
End TransportDemo.
Import TransportDemo.

Lemma race_recovers_witness :
  race_run [flaky; slow] None (Some 0) [0; 6000; 6000; 6000]
    = [Returned 10 (Ok 2%nat); Returned 6010 (Err failing_error); Returned 6910 (Ok 1%nat); Returned 7810 (Ok 1%nat)] ∧
  ∃ t' a, Returned 6910 (Ok 1%nat) = Returned t' (Ok a).
Proof.
  split; [vm_compute; reflexivity|].
  refine (proj2 (race_recovers [flaky; slow] slow _ _ _ [0; 6000; 6000; 6000] None 0 _) 1%nat 6010 failing_error _ _ _);
    [set_solver| | |done|reflexivity|reflexivity].
  - intros t. exists (t + 900), 1%nat. split; [done|lia].
  - repeat constructor; intros t; unfold flaky, slow; try destruct (t <? 5000); done.
Defined.

Lemma rpc_over_pipe_witness :
  call_read read false (rpc_serve_conn read show (λ s r, (s + r, s + r)%nat) false 3%nat (call_write show 2%nat)).1.2
  = Some (Ok 5%nat).
Proof. apply (rpc_over_pipe show read show read (λ s r, (s + r, s + r)%nat) show_read show_read 3%nat [] 2%nat). Defined.
