(* ===== verification/Control.v ===== *)
(** * The client's control protocol and C interface
    (binaries/geph5-client/src/{control_prot,updates,lib}.rs)

    Registration runs in the background against the broker of [Broker], over a
    network that may lose requests and replies; its progress is kept in a table
    the user interface polls.  News come from the update manifest, a signed
    document.  Proof-of-work solutions, dates, YAML, the signature scheme and
    downloads are parameters. *)
From Stdlib Require Import ZArith Lia Floats.SpecFloat.
From S2P Require Import Prelude Crypto Mizaru Protocol Text Cache Routes BrokerDb Broker BrokerSafety BrokerLive ExitSession Announce.
Local Open Scope Z_scope.

(** ** Registration *)

(** [progress] is in the unit of the solver, [Done] is 1.0. *)
Inductive fraction := Part (x : spec_float) | Complete.
Record RegistrationProgress := mkProgress { progress : fraction; secret : option string }.

Section registration.
Context `{BC : BrokerCaches} `{PS : Payment}.
Context `{Blake3Laws} `{Ed25519Laws} `{BlindRsaLaws}.
Context (cfg : BrokerConfig) (pow_valid : string → Z → string → bool).
Context {CLcred : TtlCacheLaws Credential Z 86400000} {CLtok : TtlCacheLaws string (option Z) 86400000}
  {CLexits : TtlCacheLaws unit ExitList 10000}.

(** [REGISTRATIONS]: a slab from which nothing is removed. *)
Record reg_state := mkReg { r_world : World; REGISTRATIONS : list RegistrationProgress }.

(** [start_registration] up to the spawn, with the puzzle the broker gave. *)
Definition start_registration (s : reg_state) : reg_state * nat :=
  (mkReg (r_world s) (REGISTRATIONS s ++ [mkProgress (Part (S754_zero false)) None]), length (REGISTRATIONS s)).

Definition poll_registration (s : reg_state) (idx : nat) : res string RegistrationProgress :=
  ok_or (REGISTRATIONS s !! idx) "no such registration"%string.

(** One turn of the spawned loop: what others did to the broker meanwhile, the
    marks of the solver, the solution, the digits the broker draws and what
    becomes of the call. *)
Record attempt := mkAttempt {
  at_others : World → World;
  at_marks : list spec_float;
  at_solution : string;
  at_digits : list Z;
  at_net : delivery
}.

Definition set_progress (idx : nat) (p : RegistrationProgress) (l : list RegistrationProgress) : res string (list RegistrationProgress) :=
  if decide (idx < length l)%nat then Ok (<[idx := p]> l) else Panic.

(** [true]: the loop is left. *)
Definition registration_turn (puzzle : string) (idx : nat) (a : attempt) (s : reg_state) : res string (reg_state * bool) :=
  regs ← foldl (λ r x, r ≫= set_progress idx (mkProgress (Part x) None)) (Ok (REGISTRATIONS s)) (at_marks a);
  let w := at_others a (r_world s) in
  match at_net a with
  | RequestLost => Ok (mkReg w regs, false)
  | ReplyLost => Ok (mkReg (register_user_secret cfg pow_valid (at_digits a) puzzle (at_solution a) w).1 regs, false)
  | Delivered =>
      match register_user_secret cfg pow_valid (at_digits a) puzzle (at_solution a) w with
      | (w, Ok s) => regs ← set_progress idx (mkProgress Complete (Some s)) regs; Ok (mkReg w regs, true)
      | (w, Err _) => Ok (mkReg w regs, false)
      | (w, Panic) => Panic
      end
  end.

(** The loop, for as many turns as there are attempts. *)
Fixpoint registration_task (puzzle : string) (idx : nat) (l : list attempt) (s : reg_state) : res string (reg_state * bool) :=
  match l with
  | [] => Ok (s, false)
  | a :: l =>
      '(s, ended) ← registration_turn puzzle idx a s;
      if (ended : bool) then Ok (s, true) else registration_task puzzle idx l s
  end.

Lemma marks_ok idx marks : ∀ l, (idx < length l)%nat →
  ∃ l', foldl (λ r x, r ≫= set_progress idx (mkProgress (Part x) None)) (Ok l) marks = Ok l' ∧ length l' = length l ∧
    (marks = [] → l' = l) ∧ (∀ p, l !! idx = Some p → secret p = None → ∃ p', l' !! idx = Some p' ∧ secret p' = None).
Proof.
  induction marks as [|x marks IH]; intros l Hl; cbn; [eexists; naive_solver|].
  unfold set_progress at 2. rewrite decide_True by done.
  destruct (IH (<[idx := mkProgress (Part x) None]> l)) as (l' & E & Hlen & _ & Hp); [by rewrite length_insert|].
  exists l'. rewrite length_insert in Hlen. split; [done|]. split; [done|]. split; [done|].
  intros p _ _. apply (Hp (mkProgress (Part x) None)); [|done]. by apply list_lookup_insert_eq.
Qed.

(** Registration from the user interface.  With a reachable broker whose
    database answers, a puzzle that was not used and a valid solution, the task
    started by [start_registration] ends after its first turn; polling then
    gives progress 1 and a secret, and the broker has this secret on file for a
    new user. *)
Theorem registration_completes puzzle s a l p code :
  at_net a = Delivered → faults (at_others a (r_world s)) = [] →
  pow_valid puzzle (puzzle_difficulty cfg) (at_solution a) = true →
  puzzle ∉ used_puzzles (db (at_others a (r_world s))) →
  secret_of (next_user_id (db (at_others a (r_world s)))) (db (at_others a (r_world s))) = None →
  create_giftcard (pay (at_others a (r_world s))) 1 = (p, Ok code) →
  ∃ s', registration_task puzzle (start_registration s).2 (a :: l) (start_registration s).1 = Ok (s', true) ∧
    poll_registration s' (start_registration s).2 = Ok (mkProgress Complete (Some (make_secret (at_digits a)))) ∧
    (next_user_id (db (at_others a (r_world s))), make_secret (at_digits a)) ∈ auth_secret (db (r_world s')).
Proof.
  intros En Ef Ep Hu Hs Hc. cbn [start_registration fst snd].
  destruct (register_calm cfg (λ _, true) (λ _ _, true) pow_valid (at_digits a) puzzle (at_solution a) (at_others a (r_world s)) p code Ef Ep Hu Hs Hc)
    as (d & E & Ha & _).
  destruct (marks_ok (length (REGISTRATIONS s)) (at_marks a) (REGISTRATIONS s ++ [mkProgress (Part (S754_zero false)) None]))
    as (regs & Em & Hlen & _); [rewrite length_app; cbn; lia|]. rewrite length_app in Hlen. cbn in Hlen.
  cbn [registration_task]. unfold registration_turn. cbn [REGISTRATIONS r_world]. rewrite Em. cbn [mbind res_bind].
  rewrite En, E. unfold set_progress. rewrite decide_True by lia. cbn [mbind res_bind].
  eexists. split; [done|]. split.
  - unfold poll_registration. cbn [REGISTRATIONS]. rewrite list_lookup_insert_eq by lia. done.
  - cbn [r_world]. change (db (set_pay p (set_db d (at_others a (r_world s))))) with d. rewrite Ha. set_solver.
Qed.

(** A used puzzle is refused for good. *)
Lemma used_puzzle_refused digits puzzle solution w : puzzle ∈ used_puzzles (db w) →
  ∃ w' e, register_user_secret cfg pow_valid digits puzzle solution w = (w', Err e) ∧ used_puzzles (db w') = used_puzzles (db w).
Proof.
  intros Hu. unfold register_user_secret, verify_puzzle_solution, mbind, M_bind.
  destruct (pow_valid puzzle (puzzle_difficulty cfg) solution); [|by eexists _, _].
  cbn. unfold execute. destruct (faults w) as [|[] fl]; cbn; rewrite ?decide_True by done; by eexists _, _.
Qed.

Lemma task_refused puzzle idx l : ∀ s,
  puzzle ∈ used_puzzles (db (r_world s)) →
  Forall (λ a, ∀ w, puzzle ∈ used_puzzles (db w) → puzzle ∈ used_puzzles (db (at_others a w))) l →
  (∃ p, REGISTRATIONS s !! idx = Some p ∧ secret p = None) →
  ∃ s', registration_task puzzle idx l s = Ok (s', false) ∧ ∃ p, REGISTRATIONS s' !! idx = Some p ∧ secret p = None.
Proof.
  induction l as [|a l IH]; intros s Hu Hl (p & Hp & Hsec); [cbn; eauto|].
  inversion_clear Hl as [|? ? Ha Hl']. cbn [registration_task]. unfold registration_turn.
  destruct (marks_ok idx (at_marks a) (REGISTRATIONS s)) as (regs & Em & Hlen & _ & Hkeep); [by eapply lookup_lt_Some|].
  destruct (Hkeep p Hp Hsec) as (p' & Hp' & Hsec'). rewrite Em. cbn [mbind res_bind]. specialize (Ha _ Hu).
  destruct (used_puzzle_refused (at_digits a) puzzle (at_solution a) _ Ha) as (w' & e & E & Eu).
  destruct (at_net a); rewrite ?E; cbn [mbind res_bind fst]; (apply IH; [|done|eauto]); cbn [r_world]; by rewrite ?Eu.
Qed.

(** A lost reply strands a registration.  When the broker carried out the
    registration but its reply is lost, the account and its secret are on the
    broker's file, the puzzle is used up, and the loop keeps trying with that
    same puzzle: however often it tries, whatever solutions it finds and however
    well the network works from then on, it is never left, and polling never
    shows a secret. *)
Theorem lost_reply_strands_registration puzzle s a l p code :
  at_net a = ReplyLost → faults (at_others a (r_world s)) = [] →
  pow_valid puzzle (puzzle_difficulty cfg) (at_solution a) = true →
  puzzle ∉ used_puzzles (db (at_others a (r_world s))) →
  secret_of (next_user_id (db (at_others a (r_world s)))) (db (at_others a (r_world s))) = None →
  create_giftcard (pay (at_others a (r_world s))) 1 = (p, Ok code) →
  Forall (λ b, ∀ w, puzzle ∈ used_puzzles (db w) → puzzle ∈ used_puzzles (db (at_others b w))) l →
  ∃ s1, registration_task puzzle (start_registration s).2 [a] (start_registration s).1 = Ok (s1, false) ∧
    (next_user_id (db (at_others a (r_world s))), make_secret (at_digits a)) ∈ auth_secret (db (r_world s1)) ∧
  ∃ s' q, registration_task puzzle (start_registration s).2 l s1 = Ok (s', false) ∧
    poll_registration s' (start_registration s).2 = Ok q ∧ secret q = None.
Proof.
  intros En Ef Ep Hu Hs Hc Hl. cbn [start_registration fst snd].
  destruct (register_calm cfg (λ _, true) (λ _ _, true) pow_valid (at_digits a) puzzle (at_solution a) (at_others a (r_world s)) p code Ef Ep Hu Hs Hc)
    as (d & E & Ha & _ & _ & _ & Hused).
  destruct (marks_ok (length (REGISTRATIONS s)) (at_marks a) (REGISTRATIONS s ++ [mkProgress (Part (S754_zero false)) None]))
    as (regs & Em & Hlen & _ & Hkeep); [rewrite length_app; cbn; lia|].
  destruct (Hkeep (mkProgress (Part (S754_zero false)) None)) as (p' & Hp' & Hsec'); [by apply list_lookup_middle|done|].
  exists (mkReg (set_pay p (set_db d (at_others a (r_world s)))) regs). split.
  { cbn [registration_task]. unfold registration_turn. cbn [REGISTRATIONS r_world]. rewrite Em. cbn [mbind res_bind].
    by rewrite En, E. }
  split; [cbn [r_world]; change (db (set_pay p (set_db d (at_others a (r_world s))))) with d; rewrite Ha; set_solver|].
  destruct (task_refused puzzle (length (REGISTRATIONS s)) l (mkReg (set_pay p (set_db d (at_others a (r_world s)))) regs))
    as (s' & Et & q & Hq & Hsec); [exact Hused|done|cbn; eauto|].
  exists s', q. split; [exact Et|]. split; [|done]. unfold poll_registration. by rewrite Hq.
Qed.
End registration.

(** ** News and updates *)

Definition as_bool (v : Json) : option bool := match v with JBool b => Some b | _ => None end.
Definition as_str (v : Json) : option string := match v with JString s => Some s | _ => None end.
Definition as_array (v : Json) : option (list Json) := match v with JArray l => Some l | _ => None end.
Definition as_object (v : Json) : option (list (string * Json)) := match v with JObject m => Some m | _ => None end.
(** Indexing a map, unlike indexing a value, panics on a missing key. *)
Definition map_index (m : list (string * Json)) (k : string) : res string Json := unwrap (assoc k m).

Record NewsItem := mkNews { title : string; date_unix : Z; contents : string; important : bool }.

Section news.
(** [NaiveDate::parse_from_str] with the format [%Y-%m-%d], as the seconds from
    the epoch to the start of that day. *)
Context (parse_date : string → option Z).

Definition news_item (lang : string) (item : Json) : res string NewsItem :=
  let important := default false (as_bool (json_index item "important")) in
  date_str ← ok_or (as_str (json_index item "date")) "No or invalid 'date' field in news item"%string;
  ts ← ok_or (parse_date date_str) "Invalid date format"%string;
  localized ← ok_or (as_object (json_index item lang)) "No localized data for language"%string;
  t ← map_index localized "title";
  t ← ok_or (as_str t) "Missing 'title' in localized news data"%string;
  c ← map_index localized "contents";
  c ← ok_or (as_str c) "Missing 'contents' in localized news data"%string;
  Ok (mkNews t (cast_u 64 ts) c important).

Fixpoint news_items (lang : string) (l : list Json) : res string (list NewsItem) :=
  match l with
  | [] => Ok []
  | item :: l => n ← news_item lang item; rest ← news_items lang l; Ok (n :: rest)
  end.

Definition latest_news (manifest : res string (Json * string)) (lang : string) : res string (list NewsItem) :=
  '(manifest, _) ← manifest;
  news ← ok_or (as_array (json_index manifest "news")) "No news array"%string;
  news_items lang news.

(** A language object without a title ends the process, where the code has an
    error message for it. *)
Lemma news_without_title before item after lang url l ts m d :
  news_items lang before = Ok l →
  as_str (json_index item "date") = Some d → parse_date d = Some ts →
  json_index item lang = JObject m → assoc "title" m = None →
  latest_news (Ok (JObject [("news"%string, JArray (before ++ item :: after))], url)) lang = Panic.
Proof.
  intros Hb Hd Hp Hm Ht. unfold latest_news. cbn. clear url. revert l Hb.
  induction before as [|b before IH]; intros l Hb; cbn [app news_items].
  - unfold news_item. rewrite Hd. cbn [ok_or mbind res_bind]. rewrite Hp. cbn [ok_or mbind res_bind]. rewrite Hm.
    cbn [as_object ok_or mbind res_bind]. unfold map_index. by rewrite Ht.
  - cbn [news_items] in Hb. apply bind_Ok in Hb as (n & E & Hb). apply bind_Ok in Hb as (rest & E2 & _).
    rewrite E. cbn [mbind res_bind]. by rewrite (IH _ E2).
Qed.
End news.

Section updates.
(** Downloads, the signature scheme with the key compiled in, and YAML. *)
Context (download : string → res string (list byte)) (download_text : string → res string string).
Context (signature : Type) (decode : string → option signature) (verify : list byte → signature → bool).
Context (from_yaml : list byte → option Json).

Definition get_update_manifest_inner (base_url : string) : res string Json :=
  yaml_bytes ← download (String.append base_url "/metadata.yaml");
  signature_str ← download_text (String.append base_url "/metadata.yaml.minisig");
  sig ← ok_or (decode signature_str) "Unable to decode the signature"%string;
  if verify yaml_bytes sig then ok_or (from_yaml yaml_bytes) "bad YAML"%string
  else Err "Signature verification failed"%string.

Fixpoint first_manifest (urls : list string) : res string (Json * string) :=
  match urls with
  | [] => Err "no urls worked for manifest"%string
  | url :: urls =>
      match get_update_manifest_inner url with
      | Ok v => Ok (v, url)
      | Err _ => first_manifest urls
      | Panic => Panic
      end
  end.
Definition manifest_urls : list string :=
  ["https://f001.backblazeb2.com/file/geph4-dl/geph-releases"; "https://sos-ch-dk-2.exo.io/utopia/geph-releases-new"]%string.
Definition get_update_manifest : res string (Json * string) := first_manifest manifest_urls.

(** Updates are signed.  Whatever the two servers deliver, a manifest the
    client uses, for updates or for news, is the parse of bytes whose signature
    verifies under the key compiled in, and it comes from the first of the
    servers that delivers such bytes. *)
Theorem manifest_signed v url : get_update_manifest = Ok (v, url) →
  ∃ before after bytes text sig, manifest_urls = before ++ url :: after ∧
    Forall (λ u, is_ok (get_update_manifest_inner u) = false) before ∧
    download (String.append url "/metadata.yaml") = Ok bytes ∧
    download_text (String.append url "/metadata.yaml.minisig") = Ok text ∧
    decode text = Some sig ∧ verify bytes sig = true ∧ from_yaml bytes = Some v.
Proof.
  unfold get_update_manifest. induction manifest_urls as [|u urls IH]; [done|]. cbn [first_manifest].
  destruct (get_update_manifest_inner u) as [w|e|] eqn:E; [|intros Hf|done].
  - intros [= <- <-]. unfold get_update_manifest_inner in E. apply bind_Ok in E as (bytes & E1 & E).
    apply bind_Ok in E as (text & E2 & E). apply bind_Ok in E as (sig & E3%ok_or_Ok & E).
    destruct (verify bytes sig) eqn:Ev; [|done]. apply ok_or_Ok in E. exists [], urls, bytes, text, sig. by split_and!.
  - destruct (IH Hf) as (before & after & bytes & text & sig & -> & Hb & Hrest). exists (u :: before), after, bytes, text, sig.
    split; [done|]. split; [constructor; [by rewrite E|done]|done].
Qed.
End updates.

(** ** The C interface *)

(** [fill_buffer]: the return value and the caller's buffer afterwards.  An
    output that would fill it is refused. *)
Definition fill_buffer (buffer output : list byte) : Z * list byte :=
  if decide (length output < length buffer)%nat
  then (Z.of_nat (length output), output ++ drop (length output) buffer)
  else (-3, buffer).

(** [daemon_rpc], given the response of the running client, if there is one:
    the JSON text and the terminating zero. *)
Definition daemon_rpc (client : option (option (list byte))) (out_buf : list byte) : Z * list byte :=
  match client with
  | None => (-1, out_buf)
  | Some None => (-2, out_buf)
  | Some (Some json) => fill_buffer out_buf (json ++ [x00])
  end.

(** [recv_pkt]: the packet has left the queue whether it fits or not. *)
Definition recv_pkt (started : bool) (queue : list (list byte)) (out_buf : list byte) : option (Z * list byte * list (list byte)) :=
  if started then
    match queue with
    | [] => None
    | pkt :: queue => let '(n, buf) := fill_buffer out_buf pkt in Some (n, buf, queue)
    end
  else Some (-1, out_buf, queue).

(** The C string in a buffer. *)
Fixpoint c_string (l : list byte) : option (list byte) :=
  match l with
  | [] => None
  | b :: l => if decide (b = x00) then Some [] else s ← c_string l; Some (b :: s)
  end.

Lemma c_string_app l rest : x00 ∉ l → c_string (l ++ x00 :: rest) = Some l.
Proof.
  induction l as [|b l IH]; intros Hl; cbn; [done|]. apply not_elem_of_cons in Hl as [Hb Hl].
  rewrite decide_False by done. by rewrite IH.
Qed.

(** The C interface respects the caller's buffer.  [daemon_rpc] writes
    nothing outside the buffer it was given; it returns a negative number and
    leaves the buffer alone, or a count, the length of the response with its
    terminating zero, and then the buffer holds the response as a C string
    and is unchanged behind it. *)
Theorem c_buffer_respected client out_buf n buf : daemon_rpc client out_buf = (n, buf) →
  length buf = length out_buf ∧
  (n < 0 ∧ buf = out_buf ∨
   ∃ json, client = Some (Some json) ∧ n = Z.of_nat (length json) + 1 ∧
     drop (Z.to_nat n) buf = drop (Z.to_nat n) out_buf ∧ (x00 ∉ json → c_string buf = Some json)).
Proof.
  destruct client as [[json|]|]; cbn [daemon_rpc]; [|intros [= <- <-]; split; [done|left; lia || by split]..].
  unfold fill_buffer. case_decide as Hl; intros [= <- <-]; [|split; [done|left; by split]].
  rewrite length_app in Hl. cbn in Hl. split; [rewrite length_app, length_drop, length_app; cbn; lia|]. right. exists json.
  split; [done|]. rewrite length_app. cbn [length]. split; [lia|]. split.
  - rewrite Nat2Z.id, drop_app_length'; [done|]. rewrite length_app. done.
  - intros Hj. rewrite <- app_assoc. by apply c_string_app.
Qed.

(** ** Concrete runs *)

Import Toy BrokerDemo.

Module ControlDemo.
Definition s0 : reg_state := mkReg BrokerDemo.w0 [].
Definition try (net : delivery) : attempt := mkAttempt (λ w, w) [S754_zero false] "s" [1; 2; 3] net.
Definition download (u : string) : res string (list byte) :=
  if String.eqb u "https://sos-ch-dk-2.exo.io/utopia/geph-releases-new/metadata.yaml" then Ok [x01] else Err "404"%string.
End ControlDemo.
Import ControlDemo.

Lemma registration_completes_witness :
  ∃ s', registration_task BrokerDemo.config BrokerDemo.pow "p" 0 [try Delivered] (start_registration s0).1 = Ok (s', true) ∧
    poll_registration s' 0 = Ok (mkProgress Complete (Some (make_secret [1; 2; 3]))).
Proof.
  destruct (registration_completes BrokerDemo.config BrokerDemo.pow "p" s0 (try Delivered) [] 1 "card") as (s' & E1 & E2 & _);
    [reflexivity|reflexivity|reflexivity|apply not_elem_of_empty|reflexivity|reflexivity|].
  exists s'. split; [exact E1|exact E2].
Defined.

(** The reply to the first call is lost; four perfect calls follow. *)
Lemma lost_reply_strands_registration_witness :
  ∃ s1, registration_task BrokerDemo.config BrokerDemo.pow "p" 0 [try ReplyLost] (start_registration s0).1 = Ok (s1, false) ∧
  ∃ s' q, registration_task BrokerDemo.config BrokerDemo.pow "p" 0 (replicate 4 (try Delivered)) s1 = Ok (s', false) ∧
    poll_registration s' 0 = Ok q ∧ secret q = None.
Proof.
  destruct (lost_reply_strands_registration BrokerDemo.config BrokerDemo.pow "p" s0 (try ReplyLost) (replicate 4 (try Delivered)) 1 "card")
    as (s1 & E1 & _ & E2);
    [reflexivity|reflexivity|reflexivity|apply not_elem_of_empty|reflexivity|reflexivity|by apply Forall_replicate|].
  exists s1. split; [exact E1|exact E2].
Defined.

Lemma manifest_signed_witness :
  ∃ bytes, download "https://sos-ch-dk-2.exo.io/utopia/geph-releases-new/metadata.yaml" = Ok bytes ∧ bytes = [x01].
Proof.
  destruct (manifest_signed download (λ _, Ok "sig"%string) string Some (λ b s, bool_decide (b = [x01])) (λ _, Some JNull)
    JNull "https://sos-ch-dk-2.exo.io/utopia/geph-releases-new") as (before & after & bytes & text & sig & _ & _ & E & _ & _ & Ev & _);
    [vm_compute; reflexivity|]. exists bytes. split; [exact E|]. by apply bool_decide_eq_true in Ev.
Defined.

Lemma c_buffer_respected_witness :
  daemon_rpc (Some (Some [x41; x42])) [x09; x09; x09; x09] = (3, [x41; x42; x00; x09]) ∧
  length [x41; x42; x00; x09] = length [x09; x09; x09; x09].
Proof.
  split; [reflexivity|].
  exact (proj1 (c_buffer_respected (Some (Some [x41; x42])) [x09; x09; x09; x09] 3 [x41; x42; x00; x09] eq_refl)).
Defined.
