(* ===== verification/MuxHandle.v ===== *)
(** * The handle of a picomux session (struct [PicoMux] of
    libraries/picomux/src/lib.rs)

    The application holds a [PicoMux]; [picomux_inner] runs in a task behind it
    and both talk through channels.  [Mux] has the loops of the task, this file
    the channels, the calls of the application and the end of the task.  The
    write half is the only thing whose failure nobody reports: it is noticed
    because [open] forces a ping. *)
From Stdlib Require Import ZArith Lia Recdef.
From S2P Require Import Prelude Frame Bdp BufferTable Mux.
Local Open Scope Z_scope.

(** [open_reqs] holds the request in the channel and behind it the callers that
    wait for the channel; [results] what the finished calls of [open] returned.
    [idle_since] is when the ping loop last fell asleep. *)
Record PicoMux := mkPicoMux {
  session : Mux;
  task : option io_error;
  open_reqs : list (nat * list byte);
  results : list (nat * res io_error Z);
  recv_liveness : list LivenessConfig;
  liveness : LivenessConfig;
  idle_since : Z;
  writer_failed : bool
}.

Definition with_session (h : PicoMux) (m : Mux) : PicoMux :=
  mkPicoMux m (task h) (open_reqs h) (results h) (recv_liveness h) (liveness h) (idle_since h) (writer_failed h).
Definition with_liveness (h : PicoMux) (l : list LivenessConfig) (c : LivenessConfig) : PicoMux :=
  mkPicoMux (session h) (task h) (open_reqs h) (results h) l c (idle_since h) (writer_failed h).

(** [PicoMux::new]: the default configuration is already in the channel. *)
Definition PicoMux_new (now : Z) : PicoMux :=
  mkPicoMux Mux_new None [] [] [LivenessConfig_default] LivenessConfig_default now false.

Definition is_alive (h : PicoMux) : bool := match task h with None => true | Some _ => false end.

Definition last_latency (h : PicoMux) : option Z := last_ping (session h).

Definition set_liveness (h : PicoMux) (c : LivenessConfig) : PicoMux := with_liveness h (recv_liveness h ++ [c]) c.

(** The calls that wait in [wait_error] return when the task ends. *)
Definition wait_error (h : PicoMux) : option io_error := task h.

(** [picomux_inner] returns [e]. *)
Definition die (h : PicoMux) (e : io_error) : PicoMux :=
  mkPicoMux (session h) (Some e) [] (results h ++ map (λ q, (q.1, Err e)) (open_reqs h)) (recv_liveness h) (liveness h)
    (idle_since h) (writer_failed h).

(** [open]: a ping is forced, then the request is sent; when the task is gone
    nothing receives it and [wait_error] answers. *)
Definition mux_open (h : PicoMux) (r : nat) (md : list byte) : PicoMux :=
  let h := with_liveness h (recv_liveness h ++ [liveness h]) (liveness h) in
  match task h with
  | None => mkPicoMux (session h) None (open_reqs h ++ [(r, md)]) (results h) (recv_liveness h) (liveness h) (idle_since h) (writer_failed h)
  | Some e => mkPicoMux (session h) (Some e) (open_reqs h) (results h ++ [(r, Err e)]) (recv_liveness h) (liveness h) (idle_since h) (writer_failed h)
  end.

(** [accept]: when a stream is there and the task has ended, [race] decides with
    a coin.  [None]: the call waits. *)
Definition mux_accept (h : PicoMux) (coin : bool) : option (res io_error Z * PicoMux) :=
  match accepted (session h), wait_error h with
  | sid :: q, None => Some (Ok sid, with_session h (set_accepted (session h) q))
  | sid :: q, Some e => Some (if coin then (Ok sid, with_session h (set_accepted (session h) q)) else (Err e, h))
  | [], Some e => Some (Err e, h)
  | [], None => None
  end.

Section handle.
Context (powf : f64 → f64 → f64).
Context (ping_to_vec : Z → list byte) (ping_from_slice : list byte → option Z).

(** One step of [ping_loop]; [None]: it is blocked, or gone. *)
Definition ping_turn (h : PicoMux) (now : Z) : option PicoMux :=
  match task h with
  | Some _ => None
  | None =>
      match ping_state (session h) with
      | PingIdle =>
          match lc (session h) with
          | Some info =>
              if ping_timer_due (session h) (idle_since h) now
              then Some (with_session h (ping_fire ping_to_vec (session h) info now))
              else match recv_liveness h with
                   | info :: q => Some (with_session (with_liveness h q (liveness h)) (ping_fire ping_to_vec (session h) info now))
                   | [] => None
                   end
          | None =>
              match recv_liveness h with
              | info :: q => Some (with_session (with_liveness h q (liveness h)) (ping_fire ping_to_vec (session h) info now))
              | [] => None
              end
          end
      | PingWait _ _ =>
          match ping_wait (session h) now with
          | Ok (Some m) => Some (mkPicoMux m None (open_reqs h) (results h) (recv_liveness h) (liveness h) now (writer_failed h))
          | Ok None | Panic => None
          | Err e => Some (die h e)
          end
      end
  end.

(** The loop runs until it blocks: each turn ends the session, spends a pong or
    starts a wait. *)
Definition ping_measure (h : PicoMux) : nat :=
  match task h with
  | Some _ => 0
  | None => S (2 * pongs (session h) + match ping_state (session h) with PingIdle => 1 | PingWait _ _ => 0 end)
  end.

Lemma ping_turn_measure h now h' : ping_turn h now = Some h' → (ping_measure h' < ping_measure h)%nat.
Proof.
  unfold ping_turn, ping_measure, ping_wait. destruct (task h) eqn:Et; [done|].
  intros E. repeat case_match; simplify_eq; cbn in *; rewrite ?Et in *; simplify_eq; lia.
Qed.

Function poll_ping (h : PicoMux) (now : Z) {measure ping_measure h} : PicoMux :=
  match ping_turn h now with
  | Some h' => poll_ping h' now
  | None => h
  end.
Proof. intros h now h' E. by eapply ping_turn_measure. Defined.

(** One turn of the open loop. *)
Definition open_req_turn (h : PicoMux) (draws : list Z) (now : Z) : option PicoMux :=
  match task h, open_reqs h with
  | None, (r, md) :: q =>
      '(sid, m) ← handle_open_req (session h) md draws now;
      Some (mkPicoMux m None q (results h ++ [(r, Ok sid)]) (recv_liveness h) (liveness h) (idle_since h) (writer_failed h))
  | _, _ => None
  end.

(** One turn of the receive loop, for what [Frame::read] returned. *)
Definition receive_turn (h : PicoMux) (read : res io_error Frame) (now : Z) : res unit PicoMux :=
  match task h with
  | Some _ => Ok h
  | None =>
      match (f ← read; handle_frame ping_from_slice (session h) f now) with
      | Ok m => Ok (with_session h m)
      | Err e => Ok (die h e)
      | Panic => Panic
      end
  end.

(** ** Runs *)

Inductive mux_event :=
| EvOpen (r : nat) (md : list byte)
| EvSetLiveness (c : LivenessConfig)
| EvAccept (coin : bool)
| EvOpenReq (draws : list Z)
| EvPoll                            (* the ping loop runs until it blocks *)
| EvReceive (read : res io_error Frame)
| EvStreamOut (sid : Z)             (* a turn of [outgoing_task] *)
| EvStreamIn (sid : Z) (bts : list byte)
| EvDrop (sid : Z)
| EvWritten                         (* a turn of [outgoing_loop] *)
| EvWriteFailed.

Definition handle_step (h : PicoMux) (now : Z) (ev : mux_event) : option PicoMux :=
  match ev with
  | EvOpen r md => Some (mux_open h r md)
  | EvSetLiveness c => Some (set_liveness h c)
  | EvAccept coin => snd <$> mux_accept h coin
  | EvOpenReq draws => open_req_turn h draws now
  | EvPoll => Some (poll_ping h now)
  | EvReceive read => match receive_turn h read now with Ok h' => Some h' | _ => None end
  | EvStreamOut sid =>
      match run_outgoing_task powf (session h) sid now with
      | Some (Ok m) => Some (with_session h m)
      | _ => None
      end
  | EvStreamIn sid bts => with_session h <$> run_incoming_task (session h) sid bts
  | EvDrop sid => Some (with_session h (drop_stream (session h) sid))
  | EvWritten => if writer_failed h then None else (λ p, with_session h p.2) <$> outgoing_loop_turn (session h)
  | EvWriteFailed =>
      Some (mkPicoMux (session h) (task h) (open_reqs h) (results h) (recv_liveness h) (liveness h) (idle_since h) true)
  end.

Definition handle_run (h : PicoMux) (evs : list (Z * mux_event)) : option PicoMux :=
  foldl (λ h ev, h ≫= λ h, handle_step h ev.1 ev.2) (Some h) evs.

(** ** Detecting a dead peer *)

Definition ping_timed_out : io_error := IoError TimedOut "ping-pong timed out".

Definition waiting (h : PicoMux) : bool := match ping_state (session h) with PingWait _ _ => true | PingIdle => false end.

(** Every configuration in play has a timeout of at most [T] milliseconds, and a
    wait under way began before [now]. *)
Definition within (T now : Z) (h : PicoMux) : Prop :=
  timeout (liveness h) <= T ∧ Forall (λ c, timeout c <= T) (recv_liveness h) ∧
  match lc (session h) with Some c => timeout c <= T | None => True end ∧
  match ping_state (session h) with PingWait c start => timeout c <= T ∧ start <= now | PingIdle => True end.

(** A ping is due or waited for, and no pong is there that it did not cause. *)
Definition pinging (h : PicoMux) : Prop :=
  recv_liveness h ≠ [] ∧ (pongs (session h) <= if waiting h then 1 else 0)%nat ∨ waiting h = true ∧ pongs (session h) = 0%nat.

Definition armed (h : PicoMux) : Prop := waiting h = true ∧ pongs (session h) = 0%nat.

Definition answered (r : nat) (h : PicoMux) : Prop := r ∈ (open_reqs h).*1 ++ (results h).*1.

(** The session is in state [P], or it has ended by a timeout. *)
Definition or_dead (P : PicoMux → Prop) (h : PicoMux) : Prop :=
  task h = None ∧ P h ∨ task h = Some ping_timed_out ∧ open_reqs h = [].

(** Nothing comes from the peer. *)
Definition quiet (T : Z) (ev : mux_event) : Prop :=
  match ev with EvReceive _ => False | EvSetLiveness c => timeout c <= T | _ => True end.

Definition ping_part (m : Mux) : nat * option LivenessConfig * PingState := (pongs m, lc m, ping_state m).

Lemma run_outgoing_ping m sid now m' : run_outgoing_task powf m sid now = Some (Ok m') → ping_part m' = ping_part m.
Proof.
  unfold run_outgoing_task. intros E. apply bind_Some in E as (t & _ & E). apply bind_Some in E as ([[f ?] bt] & _ & E).
  repeat case_match; by simplify_eq.
Qed.

Lemma run_incoming_ping m sid bts m' : run_incoming_task m sid bts = Some m' → ping_part m' = ping_part m.
Proof.
  unfold run_incoming_task. intros E. apply bind_Some in E as (? & _ & E). apply bind_Some in E as (? & _ & E). by simplify_eq.
Qed.

(** What a step that is not a turn of the ping loop leaves alone. *)
Record same_pings (T : Z) (h h' : PicoMux) : Prop := {
  sp_task : task h' = task h;
  sp_part : ping_part (session h') = ping_part (session h);
  sp_live : timeout (liveness h') <= T;
  sp_recv : ∃ l, recv_liveness h' = recv_liveness h ++ l ∧ Forall (λ c, timeout c <= T) l;
  sp_reqs : task h ≠ None → open_reqs h = [] → open_reqs h' = [];
  sp_answered r : answered r h → answered r h'
}.

Lemma with_session_same T h m : timeout (liveness h) <= T → ping_part m = ping_part (session h) → same_pings T h (with_session h m).
Proof. intros HT E. split; cbn; auto. exists []. by rewrite app_nil_r. Qed.

Lemma quiet_step T h now ev h' :
  quiet T ev → ev ≠ EvPoll → timeout (liveness h) <= T → handle_step h now ev = Some h' → same_pings T h h'.
Proof.
  intros Hq Hp HT E. destruct ev as [r md|c|coin|draws| |read|sid|sid bts|sid| |]; cbn in E, Hq; try done.
  - simplify_eq. unfold mux_open. cbn. destruct (task h) eqn:Et; split; cbn; auto.
    all: try (by exists [liveness h]; split; [done|]; constructor).
    all: intros q; unfold answered; cbn; rewrite ?fmap_app; set_solver.
  - simplify_eq. split; cbn; auto. exists [c]. split; [done|]. by constructor.
  - destruct (mux_accept h coin) as [[x h1]|] eqn:Ea; simplify_eq/=. unfold mux_accept, wait_error in Ea.
    destruct (accepted (session h)), (task h) eqn:Et, coin; simplify_eq; try (by apply with_session_same);
      split; cbn; auto; exists []; by rewrite app_nil_r.
  - unfold open_req_turn in E. destruct (task h) eqn:Et; [done|]. destruct (open_reqs h) as [|[r md] q] eqn:Eq; [done|].
    apply bind_Some in E as ([sid m] & Em & E). simplify_eq. split; cbn; try done.
    + unfold handle_open_req in Em. apply bind_Some in Em as (? & _ & Em). by simplify_eq.
    + exists []. by rewrite app_nil_r.
    + intros r'. unfold answered. rewrite Eq. cbn. rewrite ?fmap_app. cbn. set_solver.
  - destruct (run_outgoing_task _ _ _ _) as [[m| |]|] eqn:Em; simplify_eq.
    apply with_session_same; [done|]. by eapply run_outgoing_ping.
  - destruct (run_incoming_task _ _ _) as [m|] eqn:Em; simplify_eq/=.
    apply with_session_same; [done|]. by eapply run_incoming_ping.
  - simplify_eq. by apply with_session_same.
  - destruct (writer_failed h); [done|]. unfold outgoing_loop_turn in E. destruct (outgoing (session h)); simplify_eq/=.
    by apply with_session_same.
  - simplify_eq. split; cbn; auto. exists []. by rewrite app_nil_r.
Qed.

Lemma within_later T now now' h : now <= now' → within T now h → within T now' h.
Proof. unfold within. intros ? (? & ? & ? & ?). split_and!; try done. case_match; naive_solver lia. Qed.

Lemma same_within T now h h' : same_pings T h h' → within T now h → within T now h'.
Proof.
  intros [Et Ep HT (l & Er & Hl) _ _] (H1 & H2 & H3 & H4). unfold ping_part in Ep. injection Ep as En El Es.
  unfold within. rewrite Er, El, Es. split_and!; try done. by apply Forall_app.
Qed.

Lemma same_pinging T h h' : same_pings T h h' → pinging h → pinging h'.
Proof.
  intros [Et Ep HT (l & Er & Hl) _ _]. unfold ping_part in Ep. injection Ep as En El Es.
  unfold pinging, waiting. rewrite Er, En, Es. intros [[H1 H2]|H]; [left|by right]. split; [|done].
  intros H. by apply app_eq_nil in H as [? _].
Qed.

(** ** Turns of the ping loop *)

Lemma ping_turn_pinging T b now h h' : now <= b → within T b h → pinging h → task h = None → ping_turn h now = Some h' →
  or_dead (λ h, within T b h ∧ pinging h) h'.
Proof.
  unfold ping_turn, within, pinging, waiting. intros Hb (H1 & H2 & H3 & H4) Hp Et E. rewrite Et in E.
  destruct (ping_state (session h)) as [|info start] eqn:Es.
  - destruct Hp as [[Hr Hn]|[? _]]; [|done]. destruct (recv_liveness h) as [|c q] eqn:Er; [done|].
    apply Forall_cons in H2 as [Hc H2].
    assert (pongs (session h) = 0%nat) as Hn' by lia.
    destruct (lc (session h)) as [c0|]; [destruct (ping_timer_due _ _ _)|]; simplify_eq; left; (split; [done|]);
      cbn; rewrite ?Er, ?Hn'; split_and!; try done; try lia; try (by constructor); by right.
  - unfold ping_wait in E. rewrite Es in E. destruct (pongs (session h)) as [|n] eqn:En.
    + destruct (_ <=? _); simplify_eq. by right.
    + simplify_eq. destruct Hp as [[Hr Hn]|[_ ?]]; [|done]. left. split; [done|].
      cbn. split_and!; try done. left. split; [done|lia].
Qed.

Lemma ping_turn_blocked now h : pinging h → task h = None → ping_turn h now = None → armed h.
Proof.
  unfold ping_turn, pinging, armed, waiting, ping_wait. intros Hp -> E.
  destruct (ping_state (session h)) as [|info start] eqn:Es.
  - destruct Hp as [[Hr Hn]|[? _]]; [|done]. by destruct (lc (session h)), (recv_liveness h); try destruct (ping_timer_due _ _ _).
  - split; [done|]. by destruct (pongs (session h)).
Qed.

(** Polling keeps the configuration and every request. *)
Lemma poll_ping_keeps h now r : liveness (poll_ping h now) = liveness h ∧ (answered r h → answered r (poll_ping h now)).
Proof.
  functional induction (poll_ping h now) as [h now h' E IH|h now E]; [|done].
  assert (liveness h' = liveness h ∧ (answered r h → answered r h')) as [H1 H2]; [|destruct IH; split; [congruence|auto]].
  unfold ping_turn in E. repeat case_match; simplify_eq; try done.
  split; [done|]. unfold answered. cbn. rewrite fmap_app, <-list_fmap_compose. set_solver.
Qed.

Lemma poll_ping_armed T b h now : now <= b → or_dead (λ h, within T b h ∧ pinging h) h →
  or_dead (λ h, within T b h ∧ armed h) (poll_ping h now).
Proof.
  functional induction (poll_ping h now) as [h now h' E IH|h now E]; intros Hb [[Et [Hw Hp]]|[Et Hd]].
  - apply IH; [done|]. by eapply ping_turn_pinging.
  - unfold ping_turn in E. by rewrite Et in E.
  - left. split_and!; try done. by eapply ping_turn_blocked.
  - by right.
Qed.

(** Once armed, a poll at any time leaves the session waiting or ends it; after
    the timeout it ends it. *)
Lemma poll_ping_waiting T b h now : or_dead (λ h, within T b h ∧ armed h) h →
  or_dead (λ h, within T b h ∧ armed h) (poll_ping h now) ∧
  (b + T * 1000000 <= now → task (poll_ping h now) = Some ping_timed_out ∧ open_reqs (poll_ping h now) = []).
Proof.
  intros [[Et [Hw [Ha Hn]]]|[Et Hr]]; rewrite poll_ping_equation.
  - unfold ping_turn. rewrite Et. unfold waiting in Ha. destruct (ping_state (session h)) as [|info start] eqn:Es; [done|].
    unfold ping_wait. rewrite Es, Hn. destruct (Z.leb_spec (timeout info * 1000000) (now - start)).
    + rewrite poll_ping_equation. cbn. split; [by right|done].
    + split; [left; split_and!; try done; split; [|done]; unfold waiting; by rewrite Es|].
      destruct Hw as (_ & _ & _ & Hs). rewrite Es in Hs. lia.
  - unfold ping_turn. rewrite Et. split; [by right|done].
Qed.

Definition phase (P : PicoMux → Prop) (T b : Z) (r : nat) (h : PicoMux) : Prop :=
  timeout (liveness h) <= T ∧ or_dead (λ h, within T b h ∧ P h) h ∧ answered r h.

Lemma phase_step (P : PicoMux → Prop) T b r now h ev h' : (∀ h h', same_pings T h h' → P h → P h') →
  (or_dead (λ h, within T b h ∧ P h) h → or_dead (λ h, within T b h ∧ P h) (poll_ping h now)) →
  quiet T ev → phase P T b r h → handle_step h now ev = Some h' → phase P T b r h'.
Proof.
  intros Hs Hpoll Hq (HT & Hd & Ha) E. destruct (poll_ping_keeps h now r) as [Kl Ka].
  assert (ev = EvPoll ∨ ev ≠ EvPoll) as [->|Hn] by (destruct ev; auto).
  { cbn in E. simplify_eq. split_and!; auto. by rewrite Kl. }
  pose proof (quiet_step _ _ _ _ _ Hq Hn HT E) as S. split_and!; [by eapply sp_live| |by eapply sp_answered].
  destruct Hd as [[Et [Hw HP]]|[Et Hr]].
  - left. split; [rewrite (sp_task _ _ _ S); done|]. split; [by eapply same_within|by eapply Hs].
  - right. split; [rewrite (sp_task _ _ _ S); done|]. apply (sp_reqs _ _ _ S); [by rewrite Et|done].
Qed.

Lemma same_armed T h h' : same_pings T h h' → armed h → armed h'.
Proof. intros [_ Ep _ _ _ _]. unfold ping_part in Ep. injection Ep as En _ Es. unfold armed, waiting. by rewrite En, Es. Qed.

Lemma run_cons h ev evs : handle_run h (ev :: evs) = handle_step h ev.1 ev.2 ≫= λ h, handle_run h evs.
Proof.
  unfold handle_run. cbn. destruct (handle_step h ev.1 ev.2) as [h'|]; [done|]. cbn. induction evs as [|? ? IH]; [done|exact IH].
Qed.

Lemma run_app h evs1 evs2 : handle_run h (evs1 ++ evs2) = handle_run h evs1 ≫= λ h, handle_run h evs2.
Proof. revert h. induction evs1 as [|ev evs IH]; intros h; [done|]. cbn [app]. rewrite !run_cons. by destruct (handle_step h ev.1 ev.2); cbn. Qed.

Lemma run_pinging T b r evs : ∀ h h', Forall (λ ev, ev.1 <= b ∧ quiet T ev.2) evs →
  phase pinging T b r h → handle_run h evs = Some h' → phase pinging T b r h'.
Proof.
  induction evs as [|[now ev] evs IH]; intros h h' Hq Hp E; [by injection E as <-|].
  apply Forall_cons in Hq as [[Hb Hq] Hqs]. rewrite run_cons in E. apply bind_Some in E as (h1 & E1 & E). cbn in *.
  eapply IH; [done| |done]. eapply phase_step; [apply same_pinging| |done..].
  intros Hd. destruct (poll_ping_armed _ _ _ _ Hb Hd) as [(? & ? & ?)|?]; [|by right].
  left. split_and!; try done. by right.
Qed.

Lemma run_armed T b r evs : ∀ h h', Forall (λ ev, quiet T ev.2) evs →
  phase armed T b r h → handle_run h evs = Some h' → phase armed T b r h'.
Proof.
  induction evs as [|[now ev] evs IH]; intros h h' Hq Hp E; [by injection E as <-|].
  apply Forall_cons in Hq as [Hq Hqs]. rewrite run_cons in E. apply bind_Some in E as (h1 & E1 & E). cbn in *.
  eapply IH; [done| |done]. eapply phase_step; [apply same_armed| |done..]. apply poll_ping_waiting.
Qed.

(** C23: a dead connection is found out by the next [open].  Let the peer be silent
    from the moment a stream is opened, the peer not have sent more pongs than it
    got pings, and [T] bound the timeouts that are configured.  Whatever the
    application, the streams and the writer do meanwhile, if the ping loop runs
    once after the call and again [T] later, then the session has ended with the
    timeout, the call has returned, no call is left waiting, and later calls of
    [open] and [accept] return the error. *)
Theorem dead_peer_detected h r md t evs1 ta evs2 tb T h' :
  task h = None → within T ta h → (pongs (session h) <= if waiting h then 1 else 0)%nat →
  Forall (λ ev, ev.1 <= ta ∧ quiet T ev.2) evs1 → Forall (λ ev, quiet T ev.2) evs2 → ta + T * 1000000 <= tb →
  handle_run h ((t, EvOpen r md) :: evs1 ++ (ta, EvPoll) :: evs2 ++ [(tb, EvPoll)]) = Some h' →
  is_alive h' = false ∧ wait_error h' = Some ping_timed_out ∧ open_reqs h' = [] ∧ (∃ x, (r, x) ∈ results h') ∧
  (∀ r' md', (r', Err ping_timed_out) ∈ results (mux_open h' r' md')) ∧
  (accepted (session h') = [] → ∀ coin, mux_accept h' coin = Some (Err ping_timed_out, h')).
Proof.
  intros Et Hw Hn Hq1 Hq2 Htb E. rewrite run_cons in E. cbn [fst snd handle_step mbind option_bind] in E.
  rewrite run_app in E. apply bind_Some in E as (h1 & E1 & E).
  rewrite run_cons in E. cbn [fst snd handle_step mbind option_bind] in E.
  rewrite run_app in E. apply bind_Some in E as (h2 & E2 & E). unfold handle_run in E. cbn in E. injection E as <-.
  assert (phase pinging T ta r (mux_open h r md)) as Hp.
  { unfold phase, mux_open. cbn. rewrite Et. split_and!.
    - cbn. apply Hw.
    - left. split; [done|]. destruct Hw as (? & ? & ? & ?). split; [|by left; split; [by destruct (recv_liveness h)|]].
      split_and!; cbn; try done. apply Forall_app. split; [done|]. by constructor.
    - unfold answered. cbn. rewrite fmap_app. set_solver. }
  eapply run_pinging in E1 as (HT1 & Hd1 & Ha1); [|done..].
  destruct (poll_ping_keeps h1 ta r) as [Kl Ka].
  eapply (run_armed T ta r) in E2 as (HT2 & Hd2 & Ha2); [|done|].
  2:{ split_and!; [by rewrite Kl|by apply poll_ping_armed|auto]. }
  destruct (poll_ping_waiting T ta h2 tb Hd2) as [_ [Et' Er]]; [done|].
  destruct (poll_ping_keeps h2 tb r) as [_ Ka']. specialize (Ka' Ha2).
  unfold is_alive, wait_error. rewrite Et', Er. split_and!; try done.
  - unfold answered in Ka'. rewrite Er in Ka'. cbn in Ka'. apply list_elem_of_fmap in Ka' as ([r' x] & -> & ?). by exists x.
  - intros r' md'. unfold mux_open. cbn. rewrite Et'. cbn. set_solver.
  - intros Hac coin. unfold mux_accept, wait_error. by rewrite Hac, Et'.
Qed.
End handle.

(** ** Instances *)

Module HandleDemo.
Definition powf (x y : f64) : f64 := x.
Definition to_vec (z : Z) : list byte := [x30].
Definition from_slice (l : list byte) : option Z := Some 0.
Definition fast : LivenessConfig := mkLiveness 1800000 3000.
(** A session of the client whose first ping was answered. *)
Definition h0 : PicoMux :=
  match handle_run powf to_vec from_slice (PicoMux_new 0)
          [(0, EvSetLiveness fast); (1, EvPoll); (2, EvReceive (Ok (Frame_new_empty 0 CMD_PONG))); (3, EvPoll);
           (4, EvReceive (Ok (Frame_new_empty 0 CMD_PONG))); (5, EvPoll)] with
  | Some h => h
  | None => PicoMux_new 0
  end.
Definition silent_run : list (Z * mux_event) :=
  (6, EvOpen 1 [x41]) :: [(6, EvOpenReq [9]); (7, EvWriteFailed)] ++ (8, EvPoll) :: [(9, EvOpen 2 []); (10, EvDrop 9)] ++
  [(8 + 3000 * 1000000, EvPoll)].
End HandleDemo.

(** [dead_peer_detected] on a session of the client: the first stream was handed
    out before the peer was found dead, the second call gets the error. *)
Lemma dead_peer_detected_witness :
  match handle_run HandleDemo.powf HandleDemo.to_vec HandleDemo.from_slice HandleDemo.h0 HandleDemo.silent_run with
  | Some h' => is_alive h' = false ∧ results h' = [(1%nat, Ok 9); (2%nat, Err ping_timed_out)]
  | None => False
  end.
Proof.
  destruct (handle_run _ _ _ _ HandleDemo.silent_run) as [h'|] eqn:E; [|vm_compute in E; discriminate].
  split.
  - refine (proj1 (dead_peer_detected _ _ _ HandleDemo.h0 1 [x41] 6 _ 8 _ _ 3000 h' _ _ _ _ _ _ E)); try (vm_compute; reflexivity).
    + vm_compute. repeat split; try discriminate. constructor.
    + repeat constructor; cbn; lia.
    + repeat constructor.
    + lia.
  - vm_compute in E. injection E as <-. reflexivity.
Defined.

(** A pong that no ping caused is taken for the answer to the next one, and the
    dead session lives on. *)
Example stray_pong_hides_death :
  (λ h, (is_alive h, waiting h)) <$> handle_run HandleDemo.powf HandleDemo.to_vec HandleDemo.from_slice HandleDemo.h0
    ((5, EvReceive (Ok (Frame_new_empty 0 CMD_PONG))) :: HandleDemo.silent_run) = Some (true, true).
Proof. vm_compute. reflexivity. Qed.
