(* ===== verification/ExitDial.v ===== *)
(** * Connecting from an exit (binaries/geph5-exit/src/ipv6.rs, the TCP branch of
    binaries/geph5-exit/src/proxy.rs)

    [EyeballDialer::connect] and what [proxy_stream] does with it: the resolved
    addresses are tried half a second apart, IPv6 ones from the session's own
    address, and the whole has five seconds.  The operating system's connect is a
    parameter. *)
From Stdlib Require Import ZArith Lia.
From S2P Require Import Prelude Crypto Protocol Cache Dialer ExitNet.
Local Open Scope Z_scope.

(** An established connection: its source address, if one was bound, and its
    destination. *)
Record connection := mkConn { conn_src : option Z; conn_dst : SocketAddr }.

Section dial.
(** [bind] of a fresh socket to an address, and a non-blocking connect that is
    waited for, from a bound socket or any. *)
Context (bind_error : Z → option io_error) (os_connect : option Z → SocketAddr → dialer connection).

Definition is_ipv6 (a : SocketAddr) : bool := match ip a with V6 _ => true | V4 _ => false end.

(** [TcpStream::connect] with one address and with several: one after the other,
    the last error counts. *)
Definition tcp_connect (a : SocketAddr) : dialer connection := os_connect None a.
Fixpoint tcp_connect_any (addrs : list SocketAddr) (err : io_error) : dialer connection := λ t,
  match addrs with
  | [] => Done t (inr err)
  | a :: addrs =>
      match tcp_connect a t with
      | Done t' (inl c) => Done t' (inl c)
      | Done t' (inr e) => tcp_connect_any addrs e t'
      | Never => Never
      end
  end.
Definition no_addresses : io_error := IoError InvalidInput "could not connect to any of the addresses".

Definition connect_from (from : Z) (remote : SocketAddr) : dialer connection := λ t,
  match bind_error from with
  | Some e => Done t (inr e)
  | None => os_connect (Some from) remote t
  end.

Definition attempt_to (my_addr : Z) (addr : SocketAddr) : dialer connection :=
  if is_ipv6 addr then connect_from my_addr addr else tcp_connect addr.

(** The error of the first attempt, when all have failed. *)
Definition first_attempt_error (my_addr : Z) (addrs : list SocketAddr) (t : Z) (e : io_error) : io_error :=
  match addrs with
  | a :: _ => match attempt_to my_addr a t with Done _ (inr e') => e' | _ => e end
  | [] => e
  end.

Definition eyeball_connect (inner : option Z) (addrs : list SocketAddr) : Z → res unit (outcome connection) := λ t,
  match inner with
  | None => Ok (tcp_connect_any addrs no_addresses t)
  | Some my_addr =>
      match staggered 500 (map (attempt_to my_addr) addrs) with
      | None => Panic
      | Some g =>
          Ok (match g t with
              | Done t' (inr e) => Done t' (inr (first_attempt_error my_addr addrs t e))
              | o => o
              end)
      end
  end.

(** The dial of [proxy_stream], with its timeout. *)
Definition proxy_dial (inner : option Z) (addrs : list SocketAddr) (t : Z) : res unit (outcome connection) :=
  o ← eyeball_connect inner addrs t; Ok (timeout 5000 (λ _, o) t).

(** ** What is connected to, and from where *)

(** The system connects to the address it is given, from the address that was
    bound. *)
Definition os_connects : Prop := ∀ src a t t' c, os_connect src a t = Done t' (inl c) → c = mkConn src a.

Lemma timeout_Done {A} ms (d : dialer A) t t' a :
  timeout ms d t = Done t' (inl a) ↔ d t = Done t' (inl a) ∧ t' <= t + ms.
Proof.
  unfold timeout. destruct (d t) as [t1 r|]; [|split; [done|by intros [? ?]]].
  destruct (Z.leb_spec t1 (t + ms)); split; try done.
  - by intros [= -> ->].
  - by intros [[= -> ->] _].
  - intros [[= -> ->] ?]. lia.
Qed.

Lemma connect_any_dst : os_connects → ∀ addrs err t t' c, tcp_connect_any addrs err t = Done t' (inl c) →
  ∃ a, a ∈ addrs ∧ c = mkConn None a.
Proof.
  intros Hos addrs. induction addrs as [|a addrs IH]; intros err t t' c; cbn; [done|].
  destruct (tcp_connect a t) as [t1 [c1|e]|] eqn:E; [|intros E1|done].
  - intros [= -> ->]. exists a. split; [by left|]. by eapply Hos.
  - apply IH in E1 as (a' & ? & ?). exists a'. split; [by right|done].
Qed.

Lemma attempt_to_conn my_addr a t t' c : os_connects → attempt_to my_addr a t = Done t' (inl c) →
  c = mkConn (if is_ipv6 a then Some my_addr else None) a.
Proof.
  intros Hos. unfold attempt_to, connect_from. destruct (is_ipv6 a); [|by apply Hos].
  destruct (bind_error my_addr); [done|by apply Hos].
Qed.

(** C31: connecting from an exit.  For the addresses of an admitted stream (there is
    at least one), the dial never panics; a connection that is established is to
    one of them, within five seconds, and from the session's own address exactly
    when it is an IPv6 one; with an own address, the attempts start half a second
    apart, the connection is the one that is established first, and there is one
    whenever some attempt succeeds in time. *)
Theorem exit_connect inner addrs t : os_connects → addrs ≠ [] →
  ∃ o, proxy_dial inner addrs t = Ok o ∧
    (∀ t' c, o = Done t' (inl c) → t' <= t + 5000 ∧ conn_dst c ∈ addrs ∧
       conn_src c = (if is_ipv6 (conn_dst c) then inner else None)) ∧
    ∀ my_addr, inner = Some my_addr →
      (∀ t' c j a t'', o = Done t' (inl c) → addrs !! j = Some a →
         succeeds_at (attempt_to my_addr a) (t + 500 * Z.of_nat j) t'' → t' <= t'') ∧
      (∀ j a t'', addrs !! j = Some a → succeeds_at (attempt_to my_addr a) (t + 500 * Z.of_nat j) t'' →
         t'' <= t + 5000 → ∃ t' c, o = Done t' (inl c)).
Proof.
  intros Hos Hne. unfold proxy_dial, eyeball_connect. destruct inner as [my_addr|].
  - destruct (staggered 500 _) as [g|] eqn:Eg; [|by apply staggered_nil, map_eq_nil in Eg].
    destruct (staggered_earliest _ _ _ t Eg) as [H1 H2]. cbn [mbind res_bind]. eexists. split; [done|].
    assert (Hg : ∀ t' c, timeout 5000 (λ _, match g t with
        | Done t' (inr e) => Done t' (inr (first_attempt_error my_addr addrs t e)) | o => o end) t = Done t' (inl c) ↔
      g t = Done t' (inl c) ∧ t' <= t + 5000).
    { intros t' c. rewrite timeout_Done. destruct (g t) as [? [?|?]|]; naive_solver. }
    split; [|intros ? [= <-]; split].
    + intros t' c [E Ht]%Hg. split; [done|]. destruct (H1 _ _ E) as [(i & d & Hi & Ed) _].
      rewrite list_lookup_fmap in Hi. destruct (addrs !! i) as [a|] eqn:Ei; simplify_eq/=.
      apply attempt_to_conn in Ed as ->; [|done]. cbn. split; [|done]. by eapply list_elem_of_lookup_2.
    + intros t' c j a t'' [E _]%Hg Hj. apply (proj2 (H1 _ _ E)). by rewrite list_lookup_fmap, Hj.
    + intros j a t'' Hj Hs Ht. assert (Hj' : map (attempt_to my_addr) addrs !! j = Some (attempt_to my_addr a)) by by rewrite list_lookup_fmap, Hj.
      destruct (H2 _ _ _ Hj' Hs) as [t' [c E]]. exists t', c. apply Hg. split; [done|].
      pose proof (proj2 (H1 _ _ E) _ _ _ Hj' Hs). lia.
  - cbn [mbind res_bind]. eexists. split; [done|]. split; [|done].
    intros t' c [E Ht]%timeout_Done. apply connect_any_dst in E as (a & Ha & ->); [|done]. cbn.
    split_and!; [done..|]. by destruct (is_ipv6 a).
Qed.
End dial.

(** ** Witness *)

Module ExitDialDemo.
Definition os (src : option Z) (a : SocketAddr) : dialer connection := λ t, Done (t + (if port a =? 1 then 4000 else 30)) (inl (mkConn src a)).
Definition a1 : SocketAddr := mkAddr (V4 9) 1.
Definition a2 : SocketAddr := mkAddr (V6 9) 2.
End ExitDialDemo.

Lemma exit_connect_witness :
  proxy_dial (λ _, None) ExitDialDemo.os (Some 5) [ExitDialDemo.a1; ExitDialDemo.a2] 0
    = Ok (Done 530 (inl (mkConn (Some 5) ExitDialDemo.a2))) ∧ ExitDialDemo.a2 ∈ [ExitDialDemo.a1; ExitDialDemo.a2].
Proof.
  split; [reflexivity|].
  destruct (exit_connect (λ _, None) ExitDialDemo.os (Some 5) [ExitDialDemo.a1; ExitDialDemo.a2] 0) as (o & E & Hc & _);
    [by intros ? ? ? ? ? [= _ <-]|done|].
  vm_compute in E. injection E as <-. exact (proj1 (proj2 (Hc _ _ eq_refl))).
Defined.
