(* ===== verification/BridgeForward.v ===== *)
(** * Forwarding a connection (binaries/geph5-bridge/src/listen_forward.rs)

    What [handle_one_listener] does with an accepted client: a stream to the exit
    from the pool of that exit, then a race of two copies that count the bytes of
    the client's network.  The pool itself is in [Requests], the counters are in
    [Bridge]. *)
From Stdlib Require Import ZArith Lia.
From S2P Require Import Prelude Crypto Protocol Text Cache Bridge.
Local Open Scope Z_scope.

(** ** Copying *)

(** What a poll of [io_copy_with_timeout] meets: its read returns (an empty buffer is
    the end of the stream), fails or has waited for half an hour; or, while a buffer
    is being written, the writer takes [n] more bytes of it or fails. *)
Inductive copy_event :=
| CopyRead (buf : list byte)
| CopyReadError (e : io_error)
| CopyTimeout
| CopyWrote (n : nat)
| CopyWriteError (e : io_error).

Definition copy_timeout : io_error := IoError TimedOut "timeout".

(** A copy: what it has read and passed on so far, and the buffer that [write_all] is
    at, as the part that is written and the rest. *)
Record copy := mkCopy { taken : list byte; passed_on : list byte; writing : option (list byte * list byte) }.
Definition copy_new : copy := mkCopy [] [] None.

(** One turn: the copy, the counters, and how the copy ends if it does.  The buffer is
    counted when all of it is written.  [None]: the event cannot happen here. *)
Definition io_copy_turn (endpoint : bool) (asn : Z) (ev : copy_event) (d : copy) (c : counters)
    : option (res string (copy * counters * option (res io_error unit))) :=
  match ev, writing d with
  | CopyRead [], None => Some (Ok (d, c, Some (Ok tt)))
  | CopyRead buf, None => Some (Ok (mkCopy (taken d ++ buf) (passed_on d) (Some ([], buf)), c, None))
  | CopyReadError e, None => Some (Ok (d, c, Some (Err e)))
  | CopyTimeout, None => Some (Ok (d, c, Some (Err copy_timeout)))
  | CopyWrote n, Some (front, rest) =>
      if bool_decide (1 <= n <= length rest)%nat then
        let out := passed_on d ++ take n rest in
        match drop n rest with
        | [] => Some (c ← incr_bytes_asn endpoint asn (Z.of_nat (length (front ++ rest))) c; Ok (mkCopy (taken d) out None, c, None))
        | rest' => Some (Ok (mkCopy (taken d) out (Some (front ++ take n rest, rest')), c, None))
        end
      else None
  | CopyWriteError e, Some _ => Some (Ok (d, c, Some (Err e)))
  | _, _ => None
  end.

(** ** A connection *)

Inductive direction := ToExit | ToClient.

(** [ended] is the result of the race: the first copy to end drops the other. *)
Record forward := mkForward {
  to_exit : copy;
  to_client : copy;
  fw_counters : counters;
  ended : option (res io_error unit)
}.
Definition forward_new (c : counters) : forward := mkForward copy_new copy_new c None.

Definition forward_turn (endpoint : bool) (asn : Z) (s : forward) (ev : direction * copy_event) : option (res string forward) :=
  match ended s with
  | Some _ => None
  | None =>
      r ← io_copy_turn endpoint asn ev.2 (match ev.1 with ToExit => to_exit s | ToClient => to_client s end) (fw_counters s);
      Some ('(d, c, e) ← r;
            Ok (match ev.1 with
                | ToExit => mkForward d (to_client s) c e
                | ToClient => mkForward (to_exit s) d c e
                end))
  end.

Fixpoint forward_run (endpoint : bool) (asn : Z) (evs : list (direction * copy_event)) (s : forward) : option (res string forward) :=
  match evs with
  | [] => Some (Ok s)
  | ev :: evs =>
      match forward_turn endpoint asn s ev with
      | Some (Ok s) => forward_run endpoint asn evs s
      | o => o
      end
  end.

(** What was read from a side. *)
Definition data_of (ev : copy_event) : list byte := match ev with CopyRead buf => buf | _ => [] end.
Definition sent_by (d : direction) (evs : list (direction * copy_event)) : list byte :=
  concat (map (λ ev, match ev.1, d with ToExit, ToExit | ToClient, ToClient => data_of ev.2 | _, _ => [] end) evs).

Definition counted (asn : Z) (c : counters) : Z := sum_for asn (flushed c) + default 0 (byte_counts c !! asn).

(** Bytes passed on, those of them that belong to a buffer not written to its end, and
    what is left of it. *)
Definition under_way (d : copy) : Z := match writing d with Some (front, _) => Z.of_nat (length front) | None => 0 end.
Definition left_over (d : copy) : list byte := match writing d with Some (_, rest) => rest | None => [] end.
Definition charged (d : copy) : Z := Z.of_nat (length (passed_on d)) - under_way d.

Definition small_chunk (ev : direction * copy_event) : Prop := Z.of_nat (length (data_of ev.2)) < 2 ^ 32.

(** What holds of a copy at any time. *)
Record copy_ok (d : copy) : Prop := {
  co_data : passed_on d ++ left_over d = taken d;
  co_buffer front rest : writing d = Some (front, rest) → rest ≠ [] ∧ Z.of_nat (length (front ++ rest)) < 2 ^ 32 ∧ front `suffix_of` passed_on d
}.
Lemma copy_new_ok : copy_ok copy_new.
Proof. by split. Qed.

Lemma io_copy_turn_spec endpoint asn ev d c r : Z.of_nat (length (data_of ev)) < 2 ^ 32 → copy_ok d → below_threshold c →
  io_copy_turn endpoint asn ev d c = Some r →
  ∃ d' c' e, r = Ok (d', c', e) ∧ copy_ok d' ∧ taken d' = taken d ++ data_of ev ∧ below_threshold c' ∧
    (∀ k, counted k c' = counted k c + if endpoint && (asn =? k) then charged d' - charged d else 0).
Proof.
  intros Hl Hd Hc. pose proof Hd as [D1 D2]. unfold io_copy_turn.
  assert (Hstop : ∀ e, r = Ok (d, c, e) → ∃ d' c' e', r = Ok (d', c', e') ∧ copy_ok d' ∧ taken d' = taken d ++ [] ∧ below_threshold c' ∧
    (∀ k, counted k c' = counted k c + if endpoint && (asn =? k) then charged d' - charged d else 0)).
  { intros e ->. exists d, c, e. rewrite app_nil_r. split_and!; [done..|]. intros k. case_match; lia. }
  destruct ev as [buf|e| |n|e]; destruct (writing d) as [[front rest]|] eqn:Ew; try (by destruct buf); try done;
    try (intros [= <-]; by eapply Hstop).
  - destruct buf as [|b buf]; intros [= <-]; [by eapply Hstop|]. eexists _, _, _. split; [done|]. unfold charged, under_way, left_over in *. rewrite Ew in *.
    split_and!; [|done|done|cbn; intros k; case_match; lia]. split; cbn.
    + rewrite app_nil_r in D1. by rewrite D1.
    + intros f r' [= <- <-]. split_and!; [done|done|apply suffix_nil].
  - case_bool_decide as Hn; [|done]. destruct (D2 _ _ eq_refl) as (Hne & Hs & Hsuf).
    assert (Hlen : Z.of_nat (length (passed_on d ++ take n rest)) = Z.of_nat (length (passed_on d)) + Z.of_nat n) by (rewrite length_app, length_take; lia).
    unfold left_over in D1. rewrite Ew in D1. destruct (drop n rest) as [|b rest'] eqn:Edr; intros [= <-].
    + assert (n = length rest) as -> by (apply (f_equal length) in Edr; rewrite length_drop in Edr; cbn in Edr; lia).
      destruct (incr_bytes_spec endpoint asn (Z.of_nat (length (front ++ rest))) c ltac:(lia) Hc) as (c' & E & Hc' & Hsum).
      rewrite E. cbn [mbind res_bind]. eexists _, _, _. split; [done|]. split_and!; [|cbn; by rewrite app_nil_r|done|].
      * split; cbn; [|done]. by rewrite app_nil_r, take_ge by lia.
      * intros k. unfold counted. rewrite Hsum. unfold charged, under_way. cbn. rewrite Ew, Hlen, length_app. case_match; lia.
    + eexists _, _, _. split; [done|]. split_and!; [|cbn; by rewrite app_nil_r|done|].
      * split; cbn; [by rewrite <- app_assoc, <- Edr, take_drop|]. intros f r' [= <- <-]. split_and!; [done| |].
        -- rewrite <- app_assoc, <- Edr, take_drop. done.
        -- destruct Hsuf as [pre ->]. exists pre. by rewrite app_assoc.
      * intros k. unfold charged, under_way. cbn. rewrite Ew, Hlen, length_app, length_take. case_match; lia.
Qed.

Lemma forward_run_snoc endpoint asn evs ev : ∀ s,
  forward_run endpoint asn (evs ++ [ev]) s =
  match forward_run endpoint asn evs s with Some (Ok s) => forward_turn endpoint asn s ev | o => o end.
Proof.
  induction evs as [|e evs IH]; intros s; cbn [app forward_run].
  - by destruct (forward_turn endpoint asn s ev) as [[]|].
  - destruct (forward_turn endpoint asn s e) as [[]|]; auto.
Qed.

Lemma sent_by_snoc d evs ev : sent_by d (evs ++ [ev]) = sent_by d evs ++ sent_by d [ev].
Proof. unfold sent_by. by rewrite map_app, concat_app. Qed.

(** C33: a bridge forwards and counts faithfully.  Whatever two sides send, however
    the writers split it, in whatever interleaving and with whatever failures,
    forwarding never panics.  What each side has received and what is left of the
    buffer being written for it are, in order, what was read from the other.  With a
    statistics server configured the counter of the client's network has grown by
    the bytes forwarded, except those of a buffer that was not written to its end
    (at most one per direction, whose beginning was passed on without being
    charged); without one nothing is counted, and the counters of other networks
    never move. *)
Theorem forward_accounted endpoint asn evs c r : Forall small_chunk evs → below_threshold c →
  forward_run endpoint asn evs (forward_new c) = Some r →
  ∃ s, r = Ok s ∧ below_threshold (fw_counters s) ∧
    (∀ k, counted k (fw_counters s) = counted k c + if endpoint && (asn =? k) then
       Z.of_nat (length (passed_on (to_exit s))) - under_way (to_exit s) + (Z.of_nat (length (passed_on (to_client s))) - under_way (to_client s))
       else 0) ∧
    passed_on (to_exit s) ++ left_over (to_exit s) = sent_by ToExit evs ∧
    passed_on (to_client s) ++ left_over (to_client s) = sent_by ToClient evs ∧
    0 <= under_way (to_exit s) <= Z.of_nat (length (passed_on (to_exit s))) ∧
    0 <= under_way (to_client s) <= Z.of_nat (length (passed_on (to_client s))).
Proof.
  intros Hevs Hc E.
  enough (∃ s, r = Ok s ∧ below_threshold (fw_counters s) ∧ copy_ok (to_exit s) ∧ copy_ok (to_client s) ∧
    taken (to_exit s) = sent_by ToExit evs ∧ taken (to_client s) = sent_by ToClient evs ∧
    (∀ k, counted k (fw_counters s) = counted k c + if endpoint && (asn =? k) then charged (to_exit s) + charged (to_client s) else 0))
    as (s & -> & B & K1 & K2 & T1 & T2 & C).
  { exists s. assert (Hu : ∀ d, copy_ok d → 0 <= under_way d <= Z.of_nat (length (passed_on d))).
    { intros d [_ D2]. unfold under_way. destruct (writing d) as [[f q]|]; [|lia]. destruct (D2 _ _ eq_refl) as (_ & _ & Hs%suffix_length). lia. }
    pose proof (Hu _ K1). pose proof (Hu _ K2). split_and!; try done; try lia; [by rewrite <- T1, (co_data _ K1)|by rewrite <- T2, (co_data _ K2)]. }
  revert r E. induction evs as [|[d ev] evs IH] using rev_ind; intros r E.
  { cbn in E. injection E as <-. exists (forward_new c). split_and!; try done; try apply copy_new_ok. intros k. change (fw_counters (forward_new c)) with c. change (charged _ + charged _) with 0. case_match; lia. }
  apply Forall_app in Hevs as [Hevs [Hev _]%Forall_cons]. rewrite forward_run_snoc in E.
  destruct (forward_run endpoint asn evs (forward_new c)) as [r0|] eqn:E0; [|done].
  destruct (IH Hevs r0 eq_refl) as (s & -> & B & K1 & K2 & T1 & T2 & C). clear IH. rewrite !sent_by_snoc.
  unfold forward_turn in E. destruct (ended s); [done|]. cbn [fst snd] in E.
  destruct (io_copy_turn endpoint asn ev (match d with ToExit => to_exit s | ToClient => to_client s end) (fw_counters s)) as [r1|] eqn:E1; [|done].
  cbn in E. injection E as <-. apply io_copy_turn_spec in E1 as (d' & c' & e & -> & K & T & B' & C'); [|done|by destruct d|done].
  eexists. split; [done|]. destruct d; cbn; rewrite ?app_nil_r, ?T, ?T1, ?T2; split_and!; try done; intros k; rewrite C', C; case_match; lia.
Qed.

(** ** The pools of a bridge *)

Section pools.
Context `{TtlCache SocketAddr nat}.

(** Pools by destination, dropped after two idle hours, and the destination of
    every pool that was created. *)
Record pool_table := mkPools { POOLS : cache_t SocketAddr nat; created : list SocketAddr }.

(** [dial_pooled]: the pool of the exit, created if need be, and a stream through
    it; [connect] tells what the pool's [connect] gives within its second. *)
Definition dial_pooled {A} (now : Z) (connect : nat → option (res string A)) (s : pool_table) (b2e_dest : SocketAddr)
    : pool_table * res string A :=
  let '(c, k) := get_with_idle (POOLS s) now b2e_dest (length (created s)) in
  (mkPools c (if decide (k = length (created s)) then created s ++ [b2e_dest] else created s),
   match connect k with
   | None => Err "timeout connecting through pool"%string
   | Some (Err _) => Err "cannot open through mux"%string
   | Some (Ok a) => Ok a
   | Some Panic => Panic
   end).

Context `{!TtlCacheLaws SocketAddr nat 7200000}.

Definition pools_right (s : pool_table) : Prop := cache_forall (λ dest k, created s !! k = Some dest) (POOLS s).

(** A stream to an exit goes through a pool that was created for that exit, over
    every history of dials. *)
Lemma dial_pooled_right {A} now connect s dest s' (a : A) : pools_right s → dial_pooled now connect s dest = (s', Ok a) →
  pools_right s' ∧ ∃ k, connect k = Some (Ok a) ∧ created s' !! k = Some dest.
Proof.
  unfold dial_pooled, get_with_idle, pools_right. intros Hs E.
  destruct (clookup (POOLS s) now dest) as [k|] eqn:Ek; cbn in E.
  - pose proof (Hs _ _ _ Ek) as Hk. pose proof (lookup_lt_Some _ _ _ Hk). rewrite decide_False in E by lia.
    injection E as <- E. cbn. split; [by apply (cache_forall_insert 7200000)|]. exists k. split; [|done].
    by destruct (connect k) as [[]|]; simplify_eq.
  - rewrite decide_True in E by done. injection E as <- E. cbn. split.
    + apply (cache_forall_insert 7200000).
      * intros t k v Hv. by apply lookup_app_l_Some, (Hs t).
      * by rewrite lookup_app_r, Nat.sub_diag by done.
    + exists (length (created s)). split; [by destruct (connect _) as [[]|]; simplify_eq|].
      by rewrite lookup_app_r, Nat.sub_diag by done.
Qed.
End pools.

(** ** Witness *)

(** Two buffers in turn, the second of the client written only in part when the exit
    fails. *)
Lemma forward_accounted_witness :
  let evs := [(ToExit, CopyRead [x01; x02]); (ToClient, CopyRead [x03]); (ToExit, CopyWrote 2); (ToClient, CopyWrote 1);
              (ToExit, CopyRead [x04; x05]); (ToExit, CopyWrote 1); (ToExit, CopyWriteError copy_timeout)] in
  match forward_run true 7 evs (forward_new (mkCounters ∅ [])) with
  | Some (Ok s) => passed_on (to_exit s) = [x01; x02; x04] ∧ left_over (to_exit s) = [x05] ∧ counted 7 (fw_counters s) = 3
  | _ => False
  end.
Proof.
  intros evs. destruct (forward_run true 7 evs (forward_new (mkCounters ∅ []))) as [r|] eqn:E; [|vm_compute in E; discriminate].
  destruct (forward_accounted true 7 evs (mkCounters ∅ []) r) as (s & -> & _ & C & _);
    [repeat constructor; cbn; lia|intros k n; cbn; by rewrite lookup_empty|exact E|].
  pose proof (C 7) as C7. vm_compute in E. injection E as <-. split; [reflexivity|]. split; [reflexivity|]. rewrite C7. vm_compute. reflexivity.
Defined.
