(* ===== verification/ClientLoop.v ===== *)
(** * Supplying tokens (binaries/geph5-client/src/{auth,database}.rs)

    The loop that refreshes tokens in the background and the readers that wait
    for them.  [db_read_or_wait] is modelled with its interleavings: a reader
    registers with the event before it reads, a writer notifies after it wrote. *)
From Stdlib Require Import ZArith Lia.
From S2P Require Import Prelude Crypto Mizaru Protocol Text Cache GetDialer BrokerDb Broker BrokerSafety ClientAuth.
Local Open Scope Z_scope.

(** ** Waiting for a row (database.rs) *)

(** A call of [db_read_or_wait]: registered and about to read, asleep after it
    found nothing, or returned.  [notified] belongs to its listener. *)
Inductive reader :=
| Registered (key : string) (notified : bool)
| Asleep (key : string) (notified : bool)
| Returned (key : string) (val : list byte).

(** [unnotified] counts the writers between their write and their notification. *)
Record wait_state := mkWait { table : gmap string (list byte); readers : list reader; unnotified : nat }.

Inductive wait_event :=
| CallRead (key : string)
| ReadRow (i : nat)               (* the query of reader [i] *)
| WakeUp (i : nat)                (* its listener completes, the loop starts over *)
| WriteRow (key : string) (val : list byte)
| RemoveRow (key : string)
| Notify
| Cancel.                         (* a writer is cancelled between its write and its notification *)

Definition notify_reader (r : reader) : reader :=
  match r with
  | Registered k _ => Registered k true
  | Asleep k _ => Asleep k true
  | Returned k v => Returned k v
  end.

(** [None]: the event cannot happen. *)
Definition wait_step (s : wait_state) (ev : wait_event) : option wait_state :=
  match ev with
  | CallRead key => Some (mkWait (table s) (readers s ++ [Registered key false]) (unnotified s))
  | ReadRow i =>
      match readers s !! i with
      | Some (Registered k n) =>
          Some (mkWait (table s) (<[i := match table s !! k with Some v => Returned k v | None => Asleep k n end]> (readers s))
                  (unnotified s))
      | _ => None
      end
  | WakeUp i =>
      match readers s !! i with
      | Some (Asleep k true) => Some (mkWait (table s) (<[i := Registered k false]> (readers s)) (unnotified s))
      | _ => None
      end
  | WriteRow key val => Some (mkWait (<[key := val]> (table s)) (readers s) (S (unnotified s)))
  | RemoveRow key => Some (mkWait (delete key (table s)) (readers s) (S (unnotified s)))
  | Notify =>
      match unnotified s with
      | S n => Some (mkWait (table s) (map notify_reader (readers s)) n)
      | O => None
      end
  | Cancel =>
      match unnotified s with
      | S n => Some (mkWait (table s) (readers s) n)
      | O => None
      end
  end.

Definition wait_run (s : wait_state) (evs : list wait_event) : option wait_state :=
  foldl (λ s ev, s ≫= λ s, wait_step s ev) (Some s) evs.

(** No reader sleeps on a row that is there, unless a notification is coming. *)
Definition no_stranded (s : wait_state) : Prop :=
  ∀ i k, readers s !! i = Some (Asleep k false) → is_Some (table s !! k) → (0 < unnotified s)%nat.

Lemma wait_step_inv s ev s' : ev ≠ Cancel → no_stranded s → wait_step s ev = Some s' → no_stranded s'.
Proof.
  intros Hc Hs E i k. destruct ev as [key|j|j|key val|key| |]; cbn in E; [..|done].
  - simplify_eq/=. rewrite lookup_app_Some. intros [Hi|[_ Hi]] Hk; [by eapply Hs|].
    apply list_lookup_singleton_Some in Hi as [_ Hi]. done.
  - destruct (readers s !! j) as [[kj n|? ?|? ?]|] eqn:Ej; simplify_eq/=. rewrite list_lookup_insert_Some.
    intros [(<- & E & _)|[_ Hi]] Hk; [|by eapply Hs]. destruct (table s !! kj) eqn:Et; simplify_eq. rewrite Et in Hk. by destruct Hk.
  - destruct (readers s !! j) as [[? ?|kj []|? ?]|] eqn:Ej; simplify_eq/=. rewrite list_lookup_insert_Some.
    intros [(<- & E & _)|[_ Hi]] Hk; [done|by eapply Hs].
  - simplify_eq/=. lia.
  - simplify_eq/=. lia.
  - destruct (unnotified s) as [|n]; simplify_eq/=. rewrite list_lookup_fmap.
    destruct (readers s !! i) as [[]|]; cbn; congruence.
Qed.

Lemma wait_run_inv evs : Cancel ∉ evs → ∀ s0 s, no_stranded s0 → wait_run s0 evs = Some s → no_stranded s.
Proof.
  induction evs as [|ev evs IH]; intros Hc s0 s H0 E; [cbn in E; by simplify_eq|].
  apply not_elem_of_cons in Hc as [Hev Hc]. unfold wait_run in E. cbn in E. destruct (wait_step s0 ev) as [s1|] eqn:E1.
  - apply (IH Hc s1); [by eapply wait_step_inv|exact E].
  - exfalso. clear -E. induction evs as [|? ? IH]; [done|exact (IH E)].
Qed.

(** C32: no wake-up is lost.  In every interleaving of readers and writers, a
    reader whose row is there can go on without anything else being written: it
    has returned, it is about to read, or it has been or is being notified; the last as
    long as no writer was cancelled between its write and its notification. *)
Theorem no_lost_wakeup rows evs s i k : wait_run (mkWait rows [] 0) evs = Some s →
  is_Some (table s !! k) →
  (Cancel ∉ evs → readers s !! i = Some (Asleep k false) → is_Some (wait_step s Notify)) ∧
  (∀ n, readers s !! i = Some (Registered k n) →
     ∃ s' v, wait_step s (ReadRow i) = Some s' ∧ readers s' !! i = Some (Returned k v) ∧ table s !! k = Some v) ∧
  (readers s !! i = Some (Asleep k true) →
     ∃ s' s'' v, wait_step s (WakeUp i) = Some s' ∧ wait_step s' (ReadRow i) = Some s'' ∧
       readers s'' !! i = Some (Returned k v) ∧ table s !! k = Some v).
Proof.
  intros E Hk. split_and!.
  - intros Hc Hi. assert (Hinv : no_stranded s) by (eapply (wait_run_inv evs); [done| |done]; intros j ? Hj; by destruct j).
    specialize (Hinv _ _ Hi Hk). cbn. destruct (unnotified s); [lia|eauto].
  - intros n Hi. destruct Hk as [v Hv]. cbn. rewrite Hi, Hv. eexists _, v. split; [done|]. cbn.
    rewrite list_lookup_insert_eq; [done|]. by eapply lookup_lt_Some.
  - intros Hi. destruct Hk as [v Hv]. pose proof (lookup_lt_Some _ _ _ Hi). cbn. rewrite Hi. eexists _, _, v. split; [done|]. cbn.
    rewrite list_lookup_insert_eq by done. rewrite Hv. split; [done|]. cbn.
    rewrite list_lookup_insert_eq; [done|]. by rewrite length_insert.
Qed.

(** The refresh of tokens has thirty seconds.  If they are over between the write of a
    token and the notification, a reader that waits for it sleeps on, with the token in
    the table, until something else is written. *)
Example cancelled_writer_strands :
  ∃ s, wait_run (mkWait ∅ [] 0) [CallRead "a"; ReadRow 0; WriteRow "a" [x01]; Cancel] = Some s ∧
    readers s = [Asleep "a" false] ∧ table s !! "a"%string = Some [x01] ∧ wait_step s Notify = None ∧ wait_step s (WakeUp 0) = None.
Proof. eexists. split; [reflexivity|]. vm_compute. done. Qed.

(** ** The refresh loop (auth.rs) *)

Section auth.
Context {W : Type} `{TokenIssuer W} `{Blake3Laws} `{BlindRsaLaws}.
Context `{StdcodeLaws (AccountLevel * list byte * UnblindedSignature)}.
Context (keys : BrokerKeys) (root : AccountLevel → list byte).
Context (Hroot : ∀ level, hex_decode (match level with Plus => mizaru_plus keys | Free => mizaru_free keys end)
                          = Some (root level)).
Context (finalize_sound : ∀ pk bs sec m s, rsa_finalize pk bs sec m = Some s → rsa_verify pk s m = true).

Record auth_state := mkAuth { a_state : @cstate W; ACCOUNT_STATUS_CHECKED : bool }.

(** One turn of [auth_loop]: what happened to the broker and to the disk since the
    last one, the epoch, the fresh tokens and blinding factors. *)
Record auth_turn := mkTurn {
  tu_others : W → W;
  tu_faults : list bool;
  tu_epoch : Z;
  tu_tokens : Z → list byte;
  tu_rand : Z → AccountLevel → rsa_rand
}.

Definition turn_start (tu : auth_turn) (s : @cstate W) : @cstate W :=
  mkCstate (tu_others tu (cs_world s)) (misc s) (tu_faults tu).

(** [refresh_conn_token] with the event it sets on the way; its error only makes
    the loop wait less. *)
Definition auth_loop_turn (auth_token : string) (tu : auth_turn) (s : auth_state) : auth_state * res string unit :=
  match check_status auth_token (tu_epoch tu) (turn_start tu (a_state s)) with
  | (s1, Ok _) =>
      let '(s2, r) := refresh_epochs (Some keys) auth_token (tu_epoch tu) (tu_tokens tu) (tu_rand tu) s1 in
      (mkAuth s2 true, r)
  | (s1, Err e) => (mkAuth s1 (ACCOUNT_STATUS_CHECKED s), Err e)
  | (s1, Panic) => (mkAuth s1 (ACCOUNT_STATUS_CHECKED s), Panic)
  end.

(** [auth_loop]: without a broker it waits for ever ([None]); when the auth token
    cannot be obtained it ends, and with it the client. *)
Definition auth_loop (broker : bool) (get : Credential → W → W * res string (res AuthError string))
    (utf8 : list byte → string) (cred : Credential) (turns : list auth_turn) (s : auth_state) : auth_state * option (res string unit) :=
  if broker then
    match get_auth_token get utf8 cred (a_state s) with
    | (s1, Ok auth_token) =>
        (foldl (λ s tu, (auth_loop_turn auth_token tu s).1) (mkAuth s1 (ACCOUNT_STATUS_CHECKED s)) turns, None)
    | (s1, Err e) => (mkAuth s1 (ACCOUNT_STATUS_CHECKED s), Some (Err e))
    | (s1, Panic) => (mkAuth s1 (ACCOUNT_STATUS_CHECKED s), Some Panic)
    end
  else (s, None).

(** [get_connect_token] in epoch [e]; [None]: it waits, for the account to be looked
    up or for the row. *)
Definition get_connect_token (e : Z) (s : auth_state) : option (res string (AccountLevel * list byte * UnblindedSignature)) :=
  if ACCOUNT_STATUS_CHECKED s then
    match db_read (conn_token_key e) (a_state s) with
    | (_, Ok None) => None
    | (_, Ok (Some data)) => Some (ok_or (deserialize data) "cannot decode"%string)
    | (_, Err e) => Some (Err e)
    | (_, Panic) => Some Panic
    end
  else None.

Lemma auth_turn_keeps auth_token tu s : 0 <= tu_epoch tu → db_inv root (a_state s) →
  db_inv root (a_state (auth_loop_turn auth_token tu s).1).
Proof.
  intros He Hs. assert (Hs0 : db_inv root (turn_start tu (a_state s))) by exact Hs. unfold auth_loop_turn.
  pose proof (keeps_check_status root auth_token (tu_epoch tu) _ Hs0) as K1.
  destruct (check_status _ _ _) as [s1 [[]| |]]; cbn in *; [|done..].
  pose proof (keeps_refresh_epochs keys root Hroot finalize_sound auth_token _ (tu_tokens tu) (tu_rand tu) He _ K1) as K2.
  by destruct (refresh_epochs _ _ _ _ _ s1) as [s2 r].
Qed.

Lemma auth_turns_keep auth_token turns : Forall (λ tu, 0 <= tu_epoch tu) turns → ∀ s, db_inv root (a_state s) →
  db_inv root (a_state (foldl (λ s tu, (auth_loop_turn auth_token tu s).1) s turns)).
Proof. induction 1 as [|tu turns Hu _ IH]; intros s Hs; [done|]. cbn. apply IH. by apply auth_turn_keeps. Qed.

(** C22: what the client presents is accepted.  Start from a database that holds only
    good tokens and let the loop run through any turns, against any broker, with
    disk failures anywhere.  A token that [get_connect_token] returns for an epoch
    is of that epoch and verifies at its level under the configured root; nothing
    is returned before the account has been looked up; and after a turn that
    succeeded against a broker that does not call Free the wrong level, the tokens of
    its epoch and the next are returned without waiting, if the disk can be read. *)
Theorem connect_token_accepted auth_token turns tu s s1 s2 :
  Forall (λ tu, 0 <= tu_epoch tu) turns → 0 <= tu_epoch tu → db_inv root (a_state s) →
  s1 = foldl (λ s tu, (auth_loop_turn auth_token tu s).1) s turns → s2 = auth_loop_turn auth_token tu s1 →
  (∀ e level token sig, 0 <= e → get_connect_token e s2.1 = Some (Ok (level, token, sig)) →
     epoch sig = e ∧ blind_verify (root level) token sig = Ok tt) ∧
  (ACCOUNT_STATUS_CHECKED s2.1 = false → ∀ e, get_connect_token e s2.1 = None) ∧
  (grants_free auth_token → s2.2 = Ok tt → head (sql_faults (a_state s2.1)) ≠ Some true → ∀ e, e = tu_epoch tu ∨ e = tu_epoch tu + 1 →
     ∃ level token sig, get_connect_token e s2.1 = Some (Ok (level, token, sig)) ∧ epoch sig = e).
Proof.
  intros Hts Ht Hs -> ->. pose proof (auth_turns_keep auth_token turns Hts s Hs) as K1.
  set (s1 := foldl _ s turns) in *. pose proof (auth_turn_keeps auth_token tu s1 Ht K1) as K2. split_and!.
  - intros e level token sig He Eg. unfold get_connect_token in Eg. case_match; [|done].
    destruct (db_read _ _) as [s' [[data|]| |]] eqn:Er; simplify_eq. apply sql_Ok in Er. injection Er as _ Ed.
    symmetry in Ed. destruct (K2 e data He Ed) as (l' & t' & sg' & Hd & Hep & Hv). rewrite Hd in Eg. by simplify_eq/=.
  - intros Ef e. unfold get_connect_token. by rewrite Ef.
  - intros Hg Hok Hf e He. unfold auth_loop_turn in *. destruct (check_status _ _ _) as [c1 [[]| |]]; [|done..].
    destruct (refresh_epochs _ _ _ _ _ c1) as [c2 r] eqn:Er. cbn in Hok, Hf, K2. subst r.
    apply (refresh_epochs_present keys) in Er as [P1 P2]; [|exact Hg]. unfold get_connect_token. cbn [fst ACCOUNT_STATUS_CHECKED a_state].
    assert (is_Some (misc c2 !! conn_token_key e)) as [data Ed] by (by destruct He as [->| ->]).
    assert (0 <= e) as He0 by lia. destruct (K2 e data He0 Ed) as (l & t & sg & Hd & Hep & _).
    unfold db_read, sql. exists l, t, sg. split; [|done].
    destruct (sql_faults c2) as [|[] ?]; [| |]; cbn in *; try done; by rewrite Ed, Hd.
Qed.
End auth.

(** ** Witnesses *)

Lemma no_lost_wakeup_witness :
  match wait_run (mkWait ∅ [] 0) [CallRead "a"; ReadRow 0; WriteRow "a" [x01]] with
  | Some s => readers s !! 0%nat = Some (Asleep "a" false) ∧ is_Some (wait_step s Notify)
  | None => False
  end.
Proof.
  destruct (wait_run (mkWait ∅ [] 0) [CallRead "a"; ReadRow 0; WriteRow "a" [x01]]) as [s|] eqn:E;
    [|vm_compute in E; discriminate].
  assert (readers s !! 0%nat = Some (Asleep "a" false)) as Hr by (vm_compute in E; injection E as <-; reflexivity).
  split; [exact Hr|].
  refine (proj1 (no_lost_wakeup ∅ _ s 0 "a" E _) _ Hr).
  - vm_compute in E. injection E as <-. eexists. vm_compute. reflexivity.
  - set_solver.
Defined.

Module ClientLoopDemo.
Import Toy BrokerDemo ExitAuth.AuthDemo.
Definition turn : @auth_turn World Toy.rsa := mkTurn (λ w, w) [] 2 (λ _, [x0a]) (λ _ _, BrokerDemo.rand).
Definition s0 : @auth_state World := mkAuth ClientAuthDemo.s0 false.
Definition run : @auth_state World * res string unit :=
  @auth_loop_turn World ClientAuthDemo.issuer _ Toy.rsa _ ClientAuthDemo.keys "tok" turn s0.
End ClientLoopDemo.
Import Toy BrokerDemo ExitAuth.AuthDemo.

Lemma connect_token_accepted_witness :
  ClientLoopDemo.run.2 = Ok tt ∧
  ∃ level token sig, get_connect_token 3 ClientLoopDemo.run.1 = Some (Ok (level, token, sig)) ∧ epoch sig = 3.
Proof.
  assert (Hres : ClientLoopDemo.run.2 = Ok tt) by (vm_compute; reflexivity). split; [exact Hres|].
  assert (Hk : ∀ level, hex_decode (match level with
      | Plus => mizaru_plus ClientAuthDemo.keys | Free => mizaru_free ClientAuthDemo.keys end)
    = Some ClientAuthDemo.root) by (intros []; vm_compute; reflexivity).
  assert (Hf : ∀ (pk : @rsa_pk Toy.rsa) bs sec m s, rsa_finalize pk bs sec m = Some s → rsa_verify pk s m = true).
  { intros pk bs sec m s. simpl. case_decide; intros [= <-]. by apply bool_decide_true. }
  assert (Hi : db_inv (λ _, ClientAuthDemo.root) (a_state ClientLoopDemo.s0)).
  { intros e data _. change (misc (a_state ClientLoopDemo.s0)) with (∅ : gmap string (list byte)). by rewrite lookup_empty. }
  refine (proj2 (proj2 (@connect_token_accepted World ClientAuthDemo.issuer _ Toy.rsa _ _ ClientAuthDemo.keys
    (λ _, ClientAuthDemo.root) Hk Hf "tok" [] ClientLoopDemo.turn ClientLoopDemo.s0 _ _ _ _ Hi eq_refl eq_refl))
    (free_is_never_wrong (TokenIssuerLaws := broker_issuer_laws BrokerDemo.config BrokerDemo.rand) "tok") Hres _ 3 _); [constructor|done| |by right].
  vm_compute. discriminate.
Defined.
