(* ===== verification/BrokerWf.v ===== *)
(** * The broker's tables stay well-formed
    (binaries/geph5-broker/src/{auth,database,free_voucher,rpc_impl}.rs)

    User ids come from a sequence that no rollback turns back; every account has
    at most one secret and at most one free voucher; a voucher belongs to an
    account with a secret.  Nothing in the schema enforces the last two, the
    handlers do: every handler keeps them, whatever queries fail. *)
From Stdlib Require Import ZArith Lia.
From S2P Require Import Prelude Crypto Mizaru Protocol Text Cache Dialer Routes GetDialer BrokerDb Broker BrokerSafety.
Local Open Scope Z_scope.

Section wf.
Context `{BC : BrokerCaches} `{PS : Payment}.
Context `{Blake3Laws} `{Ed25519Laws} `{BlindRsaLaws}.
Context `{Stdcode ExitList} `{Stdcode ExitDescriptor} `{Stdcode (Signed ExitDescriptor)}
  `{Stdcode BridgeDescriptor}.
Context (cfg : BrokerConfig).
Context (phc_parse : string → bool) (verify_password : string → string → bool).
Context (pow_valid : string → Z → string → bool).
Context (bridge_rank : SocketAddr → string → Z) (token_debug : list byte → string).
Context (tcp_forward : BridgeDescriptor → SocketAddr → B2eMetadata → option (res string SocketAddr)).
Context {CLcred : TtlCacheLaws Credential Z 86400000}.

Record db_wf (d : Db) : Prop := mkDbWf {
  wf_users : Forall (λ u, u < next_user_id d) (users d);
  wf_users_nodup : NoDup (users d);
  wf_secrets : Forall (λ r, r.1 < next_user_id d) (auth_secret d);
  wf_one_secret : NoDup (auth_secret d).*1;
  wf_passwords : Forall (λ r, r.2.1 < next_user_id d) (auth_password d);
  wf_one_voucher : NoDup (map voucher_id (free_vouchers d));
  wf_vouchers : map voucher_id (free_vouchers d) ⊆ (auth_secret d).*1
}.

Record world_wf (w : World) : Prop := mkWorldWf {
  wf_db : db_wf (db w);
  wf_cred : cache_forall (λ _ uid, uid < next_user_id (db w)) (cred_cache w)
}.

(** ** Handlers that leave the accounts alone *)

Record accounts_same (w w' : World) : Prop := mkSame {
  sm_next : next_user_id (db w') = next_user_id (db w);
  sm_users : users (db w') = users (db w);
  sm_secret : auth_secret (db w') = auth_secret (db w);
  sm_password : auth_password (db w') = auth_password (db w);
  sm_vouchers : free_vouchers (db w') = free_vouchers (db w);
  sm_cred : cred_cache w' = cred_cache w
}.

#[local] Instance same_frame : WorldFrame accounts_same.
Proof.
  split.
  - split; [done|]. intros w1 w2 w3 [] []. split; congruence.
  - intros l w. by split.
  - intros p w. by split.
  - intros w w' []. by split.
Qed.

Lemma wf_same w w' : accounts_same w w' → world_wf w → world_wf w'.
Proof.
  intros [E1 E2 E3 E4 E5 E6] [[] Hc]. split; [split; rewrite ?E1, ?E2, ?E3, ?E4, ?E5; done|].
  by rewrite E6, E1.
Qed.

Lemma same_wf {E A} (m : M E A) : framed accounts_same m → preserves world_wf m.
Proof. intros Hm. eapply framed_hoare; [done|]. apply wf_same. Qed.

(** ** Queries *)

Lemma hoare_query {A} P I Q (f : Db → A) :
  (∀ l w, P w → I (set_faults l w) ∧ Q (f (db w)) (set_faults l w)) → hoare P (query f) I Q.
Proof.
  intros HP w Hw. unfold query. destruct (faults w) as [|[] l] eqn:Ef; simpl.
  - specialize (HP [] w Hw). replace (set_faults [] w) with w in HP by (destruct w; simpl in *; by subst).
    split; [apply HP|]. intros a [= <-]. apply HP.
  - split; [by apply HP|done].
  - split; [by apply HP|]. intros a [= <-]. by apply HP.
Qed.

Lemma hoare_execute P I Q f :
  (∀ l w, P w → I (set_faults l w)) →
  (∀ l w d, P w → f (db w) = Some d → I (set_db d (set_faults l w)) ∧ Q tt (set_db d (set_faults l w))) →
  hoare P (execute f) I Q.
Proof.
  intros H1' H2' w Hw. unfold execute. destruct (faults w) as [|[] l] eqn:Ef; simpl.
  - assert (set_faults [] w = w) as Es by (destruct w; simpl in *; by subst).
    destruct (f (db w)) as [d|] eqn:E; simpl.
    + specialize (H2' [] w d Hw E). rewrite Es in H2'. split; [apply H2'|]. intros [] _. apply H2'.
    + split; [|done]. rewrite <-Es. by apply H1'.
  - split; [by apply H1'|done].
  - destruct (f (db w)) as [d|] eqn:E; simpl.
    + specialize (H2' l w d Hw E). split; [apply H2'|]. intros [] _. apply H2'.
    + split; [by apply H1'|done].
Qed.

Lemma wf_faults l w : world_wf w → world_wf (set_faults l w).
Proof. by intros []. Qed.

(** ** Transactions *)

Definition grows (w w' : World) : Prop := next_user_id (db w) <= next_user_id (db w') ∧ cred_cache w' = cred_cache w.
#[local] Instance grows_frame : WorldFrame grows.
Proof.
  split.
  - split; [done|]. intros w1 w2 w3 [] []. split; [lia|congruence].
  - done.
  - done.
  - by intros w w' [].
Qed.

Lemma wf_rollback w w' : grows w w' → world_wf w → world_wf (set_db (set_users (next_user_id (db w')) (users (db w)) (db w)) w').
Proof.
  intros [Hn Hc] [[] Hw]. split; [split; simpl; try done|].
  - eapply Forall_impl; [done|]. simpl. lia.
  - eapply Forall_impl; [done|]. simpl. lia.
  - eapply Forall_impl; [done|]. simpl. lia.
  - simpl. rewrite Hc. intros t c uid Hl. specialize (Hw t c uid Hl). simpl in Hw. lia.
Qed.

Lemma wf_transaction {A} P (body : M string A) Q :
  (∀ w, P w → world_wf w) → (∀ l w, P w → P (set_faults l w)) → hoare P body world_wf Q → framed grows body →
  (∀ a l w, Q a w → Q a (set_faults l w)) → hoare P (transaction body) world_wf Q.
Proof.
  intros HP Hl Hb Hg HQ w Hw. unfold transaction.
  set (m := (query (λ _, tt) ;; a ← body; query (λ _, tt) ;; mret a) : M string A).
  assert (hoare P m world_wf Q) as Hm.
  { unfold m. apply (hoare_bind P world_wf (λ _, P) Q (query (λ _, tt))).
    { apply hoare_query. intros l w' Hw'. split; [apply wf_faults|]; auto. }
    intros []. apply (hoare_bind _ world_wf Q Q body).
    { eapply hoare_conseq; [exact Hb|by intros w' [_ ?]|auto]. }
    intros a. apply (hoare_bind _ world_wf (λ _, Q a) Q (query (λ _, tt))).
    { apply hoare_query. intros l w' [? ?]. split; [by apply wf_faults|auto]. }
    intros []. apply hoare_ret. auto. }
  assert (framed grows m) as Hf.
  { subst m. apply (framed_bind' grows); [apply (framed_query grows)|]. intros []. apply (framed_bind' grows); [done|]. intros a.
    apply (framed_bind' grows); [apply (framed_query grows)|]. intros []. apply (framed_ret grows). }
  specialize (Hm w Hw). specialize (Hf w). destruct (m w) as [w' [a|e|]]; simpl in *; [done|split; [apply wf_rollback; auto|done]..].
Qed.

Lemma wf_bind {E A B} (m : M E A) (k : A → M E B) :
  preserves world_wf m → (∀ a, preserves world_wf (k a)) → preserves world_wf (m ≫= k).
Proof.
  intros Hm Hk. eapply hoare_bind; [done|]. intros a.
  eapply hoare_conseq; [apply Hk|by intros w [Hw _]|done].
Qed.

(** ** Vouchers and secrets *)

Lemma find_first_None {A} (f : A → bool) l a : find_first f l = None → a ∈ l → f a = false.
Proof.
  unfold find_first. destruct (filter _ l) as [|x xs] eqn:E; [|done]. intros _ Hin.
  destruct (f a) eqn:Ef; [|done].
  assert (a ∈ filter (λ a, f a) l) as Hf by (apply list_elem_of_filter; rewrite Ef; done).
  rewrite E in Hf. by apply elem_of_nil in Hf.
Qed.

(** Users with a secret and no voucher: those a voucher may be made for. *)
Definition voucher_due (uid : Z) (d : Db) : Prop :=
  uid ∈ (auth_secret d).*1 ∧ uid ∉ map voucher_id (free_vouchers d).

Lemma secret_of_None uid d : secret_of uid d = None → uid ∉ (auth_secret d).*1.
Proof.
  unfold secret_of. destruct (find_first _ _) eqn:E; [done|]. intros _ (r & -> & Hin)%list_elem_of_fmap.
  apply (find_first_None _ _ _ E) in Hin. lia.
Qed.

Lemma db_wf_voucher now_s uid code d d' :
  db_wf d → voucher_due uid d → insert_voucher now_s uid code d = Some d' → db_wf d'.
Proof.
  intros [] [Hs Hv] [= <-]. split; try done; simpl; rewrite map_app; simpl.
  - apply NoDup_app. split_and!; [done|set_solver|apply NoDup_singleton].
  - set_solver.
Qed.
Lemma db_wf_secret uid s d :
  db_wf d → uid < next_user_id d → uid ∉ (auth_secret d).*1 →
  db_wf (set_auth_secret (auth_secret d ++ [(uid, s)]) d) ∧
  voucher_due uid (set_auth_secret (auth_secret d ++ [(uid, s)]) d).
Proof.
  intros [] Hu Hs. repeat split; try done; simpl; rewrite ?fmap_app; simpl.
  - by apply Forall_app, conj, Forall_singleton.
  - apply NoDup_app. split_and!; [done|set_solver|apply NoDup_singleton].
  - set_solver.
  - set_solver.
  - set_solver.
Qed.
Lemma db_wf_user d :
  db_wf d → db_wf (set_users (next_user_id d + 1) (users d ++ [next_user_id d]) d).
Proof.
  intros []. split; try done; simpl.
  - apply Forall_app. split; [eapply Forall_impl; [done|]; simpl; lia|apply Forall_singleton; lia].
  - apply NoDup_app. split_and!; [done| |apply NoDup_singleton].
    intros u Hu Hn%list_elem_of_singleton. rewrite Forall_forall in wf_users0. specialize (wf_users0 u Hu). lia.
  - eapply Forall_impl; [done|]; simpl; lia.
  - eapply Forall_impl; [done|]; simpl; lia.
Qed.

(** The world with another database that counts no fewer users. *)
Lemma wf_set_db d l w :
  world_wf w → db_wf d → next_user_id (db w) <= next_user_id d → world_wf (set_db d (set_faults l w)).
Proof.
  intros [_ Hc] Hd Hn. split; [done|]. simpl. intros t c uid Hl. specialize (Hc t c uid Hl). simpl in Hc. lia.
Qed.

(** Buying a gift card and storing it as the user's voucher. *)
Lemma wf_new_voucher {A} uid (a : A) :
  hoare (λ w, world_wf w ∧ voucher_due uid (db w))
    (code ← payment (λ p, create_giftcard p 1); now_s ← get (λ w, now w / 1000);
     execute (insert_voucher now_s uid code) ;; mret a) world_wf (λ _ _, True).
Proof.
  set (P := λ w, world_wf w ∧ voucher_due uid (db w)).
  apply (hoare_bind P world_wf (λ _, P)).
  { intros w [[] Hd]. unfold payment. destruct (create_giftcard (pay w) 1) as [p r].
    assert (world_wf (set_pay p w)) by (by split). by split. }
  intros code. apply (hoare_bind _ world_wf (λ _, P)); [apply hoare_get; by intros w [? ?]|].
  intros now_s. apply (hoare_bind _ world_wf (λ _ _, True)).
  { apply hoare_execute; [by intros l w [? ?]; apply wf_faults|].
    intros l w d [Hw [_ Hd]] E. split; [|done]. apply wf_set_db; [done| |injection E as <-; simpl; lia].
    exact (db_wf_voucher now_s uid code (db w) d (wf_db _ Hw) Hd E). }
  intros []. apply hoare_ret. by intros w [? _].
Qed.

Lemma wf_create_user : hoare world_wf create_user world_wf (λ uid w, uid < next_user_id (db w)).
Proof.
  unfold create_user. apply (hoare_bind _ world_wf (λ uid w, next_user_id (db w) = uid)); [apply hoare_get; auto|].
  intros uid. apply (hoare_bind _ world_wf (λ _ w, uid < next_user_id (db w))).
  { apply hoare_execute; [by intros l w [? ?]; apply wf_faults|]. intros l w d [Hw <-] [= <-].
    split; [|simpl; lia]. apply wf_set_db; [done|apply db_wf_user, Hw|simpl; lia]. }
  intros []. apply hoare_ret. by intros w [? ?].
Qed.

Lemma grows_execute f : (∀ d d', f d = Some d' → next_user_id d <= next_user_id d') → framed grows (execute f).
Proof. intros Hf. apply (framed_execute grows). intros w d E. split; [by apply Hf|done]. Qed.

Ltac solve_grows :=
  unfold create_user, insert_voucher;
  repeat first [ apply (framed_bind' grows); [|intros] | apply grows_execute; intros ? ? [= <-]; simpl; lia
    | apply (framed_ret grows) | apply (framed_query grows) | apply (framed_get grows)
    | apply (framed_payment grows) | case_match ].

Lemma wf_register digits o :
  hoare (λ w, world_wf w ∧ ∀ uid, o = Some uid → uid < next_user_id (db w)) (register_secret digits o)
    world_wf (λ _ _, True).
Proof.
  apply wf_transaction; [by intros w []|intros l w [Hw ?]; split; [by apply wf_faults|done]| |solve_grows|done].
  apply (hoare_bind _ world_wf (λ uid w, uid < next_user_id (db w))).
  { destruct o as [uid|]; [apply hoare_ret; intros w [? Hu]; auto|].
    eapply hoare_conseq; [apply wf_create_user|by intros w []|done]. }
  intros uid. apply (hoare_bind _ world_wf (λ o w, uid < next_user_id (db w) ∧ (o = None → uid ∉ (auth_secret (db w)).*1))).
  { apply hoare_query. intros l w [Hw Hu]. split_and!; [by apply wf_faults|done|apply secret_of_None]. }
  intros [s|]; [apply hoare_ret; by intros w [? _]|]. cbv zeta.
  apply (hoare_bind _ world_wf (λ _ w, world_wf w ∧ voucher_due uid (db w))).
  { apply hoare_execute; [by intros l w [? ?]; apply wf_faults|]. intros l w d [Hw [Hu Hs]] [= <-].
    destruct (db_wf_secret uid (make_secret digits) (db w) (wf_db _ Hw) Hu (Hs eq_refl)) as [Hd Hv].
    assert (world_wf (set_db (set_auth_secret (auth_secret (db w) ++ [(uid, make_secret digits)]) (db w)) (set_faults l w)))
      by (apply wf_set_db; [done..|simpl; lia]). done. }
  intros []. eapply hoare_conseq; [apply wf_new_voucher|by intros w [_ ?]|done].
Qed.

Lemma wf_one_day uid :
  hoare (λ w, world_wf w ∧ uid ∈ (auth_secret (db w)).*1) (transaction (one_day_voucher uid)) world_wf (λ _ _, True).
Proof.
  apply wf_transaction; [by intros w []|intros l w [Hw ?]; split; [by apply wf_faults|done]| |unfold one_day_voucher; solve_grows|done].
  unfold one_day_voucher.
  apply (hoare_bind _ world_wf (λ o w, world_wf w ∧ (o = None → voucher_due uid (db w)))).
  { apply hoare_query. intros l w [Hw Hu]. split_and!; [by apply wf_faults..|]. intros E. split; [done|].
    intros (v & -> & Hin)%list_elem_of_fmap. apply (find_first_None _ _ _ E) in Hin. lia. }
  intros [v|]; [apply hoare_ret; by intros w [? _]|].
  eapply hoare_conseq; [apply wf_new_voucher|intros w (_ & ? & Hv); auto|done].
Qed.

Lemma wf_vouchers_for uids : ∀ n,
  hoare (λ w, world_wf w ∧ uids ⊆ (auth_secret (db w)).*1) (vouchers_for uids n) world_wf (λ _ _, True).
Proof.
  set (R := λ w w' : World, auth_secret (db w') = auth_secret (db w)).
  assert (WorldFrame R) by (split; [split; [done|intros ? ? ? ? ?; unfold R in *; congruence]|done..]).
  induction uids as [|uid uids IH]; intros n; cbn [vouchers_for]; [apply hoare_ret; by intros w []|].
  apply (hoare_bind _ world_wf (λ _ w, uids ⊆ (auth_secret (db w)).*1)); [|intros []; apply IH].
  intros w [Hw Hs]. destruct (wf_one_day uid w) as [Hw' _]; [split; [done|set_solver]|]. split; [done|].
  intros a _. assert (framed R (transaction (one_day_voucher uid))) as Hf.
  { apply (framed_transaction R). unfold one_day_voucher, insert_voucher.
    repeat first [ apply (framed_bind' R); [|intros] | apply (framed_execute R); intros ? ? [= <-]; done
      | apply (framed_ret R) | apply (framed_query R) | apply (framed_get R) | apply (framed_payment R) | case_match ]. }
  rewrite (Hf w). set_solver.
Qed.

Lemma wf_delete_voucher uid : preserves world_wf (delete_free_voucher uid).
Proof.
  unfold delete_free_voucher. apply wf_bind; [by apply same_wf, (framed_get accounts_same)|]. intros had.
  apply wf_bind; [|intros; by apply same_wf, (framed_ret accounts_same)].
  apply hoare_execute; [by intros; apply wf_faults|]. intros l w d Hw [= <-]. split; [|done].
  apply wf_set_db; [done| |simpl; lia]. destruct Hw as [[] _]. split; try done; simpl.
  - eapply sublist_NoDup; [done|]. apply fmap_sublist, sublist_filter.
  - intros u (v & -> & [_ Hv]%list_elem_of_filter)%list_elem_of_fmap. apply wf_vouchers0. by apply list_elem_of_fmap_2.
Qed.

(** ** Credentials *)

Abbreviation validate_credential := (validate_credential phc_parse verify_password).
Abbreviation backed := (backed phc_parse verify_password).

Lemma backed_counted c uid d : db_wf d → backed c uid d → uid < next_user_id d.
Proof.
  intros []. destruct c as [|u p|s]; simpl; [done| |].
  - intros (h & Hin & _). rewrite Forall_forall in wf_passwords0. apply (wf_passwords0 _ Hin).
  - intros Hin. rewrite Forall_forall in wf_secrets0. apply (wf_secrets0 _ Hin).
Qed.

Lemma wf_cred_memo c (init : M AuthError Z) :
  framed accounts_same init → (∀ w w' uid, init w = (w', Ok uid) → backed c uid (db w')) →
  hoare world_wf (memo cred_cache set_cred_cache c init) world_wf (λ uid w, uid < next_user_id (db w)).
Proof.
  intros Hf Hi w Hw. unfold memo. destruct (clookup _ _ _) as [uid|] eqn:E.
  { split; [done|]. intros a [= <-]. simpl. by eapply (wf_cred w Hw). }
  assert (Hw' := wf_same _ _ (Hf w) Hw).
  destruct (init w) as [w' [uid|e|]] eqn:Ei; simpl in *; [|split; [done|by intros]..].
  assert (Hb := backed_counted _ _ _ (wf_db _ Hw') (Hi _ _ _ Ei)). split; [|by intros a [= <-]].
  split; [apply Hw'|]. by apply (cache_forall_insert 86400000); [apply Hw'|].
Qed.

Lemma wf_validate c : hoare world_wf (validate_credential c) world_wf (λ uid w, uid < next_user_id (db w)).
Proof.
  apply wf_cred_memo; destruct c as [|u p|s].
  - apply (framed_fail accounts_same).
  - unfold validate_username_pwd, rate_limited. solve_frame.
  - unfold validate_secret, rate_limited. solve_frame.
  - done.
  - apply validate_username_pwd_spec.
  - apply validate_secret_spec.
Qed.

Lemma wf_validated {E A} (f : AuthError → E) c (k : Z → M E A) :
  (∀ uid, preserves world_wf (k uid)) → preserves world_wf (map_errM f (validate_credential c) ≫= k).
Proof.
  intros Hk. apply wf_bind; [|done]. apply hoare_map_err. eapply hoare_conseq; [apply wf_validate|done..].
Qed.

(** ** Every handler *)

Lemma same_subscription uid : framed accounts_same (get_subscription_expiry uid).
Proof.
  unfold get_subscription_expiry. apply (framed_bind' accounts_same); [apply (framed_get accounts_same)|]. intros bucket.
  apply (framed_bind' accounts_same); [by apply (framed_memo_idle accounts_same); [apply (framed_query accounts_same)|]|].
  intros ts. apply (framed_bind' accounts_same); [|intros; apply (framed_ret accounts_same)].
  by apply (framed_memo_idle accounts_same); [apply (framed_query accounts_same)|].
Qed.
Lemma same_token tok : framed accounts_same (rate_limited (valid_auth_token tok)).
Proof.
  apply (framed_map_err accounts_same). unfold valid_auth_token, get_user_id_from_token.
  apply (framed_bind' accounts_same); [by apply (framed_memo accounts_same); [apply (framed_query accounts_same)|]|].
  intros [uid|]; [|apply (framed_ret accounts_same)].
  apply (framed_bind' accounts_same); [apply same_subscription|]. intros o.
  apply (framed_bind' accounts_same); [|intros; apply (framed_ret accounts_same)].
  intros w. unfold record_auth. simpl. apply (framed_execute accounts_same). by intros d d' [= <-].
Qed.

Lemma same_user_info uid : framed accounts_same (user_info_of uid).
Proof.
  apply (framed_bind' accounts_same); [|intros; apply (framed_ret accounts_same)].
  apply (framed_map_err accounts_same), same_subscription.
Qed.
Lemma same_exits : framed accounts_same get_all_exits.
Proof. apply (framed_memo accounts_same); [apply (framed_query accounts_same)|done]. Qed.
Lemma same_leaf_routes rnd exit l : ∀ i, framed accounts_same (leaf_routes tcp_forward rnd i l exit).
Proof.
  induction l as [|[[desc delay_ms] plus] l IH]; intros i; cbn [leaf_routes]; [apply (framed_ret accounts_same)|].
  apply (framed_bind' accounts_same);
    [|intros r; apply (framed_bind' accounts_same); [apply IH|intros; apply (framed_ret accounts_same)]].
  intros w. by destruct (bridge_to_leaf_route _ _ _ _ _ _ _).
Qed.
Lemma same_routes rnd token sig exit :
  framed accounts_same (broker_get_routes cfg bridge_rank token_debug tcp_forward rnd token sig exit).
Proof.
  apply (framed_bind' accounts_same); [apply (framed_lift accounts_same)|]. intros level.
  apply (framed_bind' accounts_same); [apply (framed_memo accounts_same); [solve_frame|done]|]. intros l.
  apply (framed_bind' accounts_same); [apply same_leaf_routes|intros; apply (framed_ret accounts_same)].
Qed.
Lemma same_puzzle puzzle solution : framed accounts_same (verify_puzzle_solution cfg pow_valid puzzle solution).
Proof.
  apply (framed_bind' accounts_same); [solve_frame|]. intros _. apply (framed_execute accounts_same).
  intros d d'. case_decide; intros [= <-]. by split.
Qed.

Abbreviation handle := (handle cfg phc_parse verify_password pow_valid bridge_rank token_debug tcp_forward).

Lemma handle_wf q w : world_wf w → world_wf (handle q w).
Proof.
  assert (∀ E A (m : M E A), preserves world_wf m → world_wf w → world_wf (fst (m w))) as Hp
    by (intros E A m Hm Hw; by apply Hm).
  assert (∀ c E (k : Z → M AuthError E), (∀ uid, preserves world_wf (k uid)) →
    preserves world_wf (validate_credential c ≫= k)) as Hv.
  { intros c E k Hk. apply wf_bind; [|done]. eapply hoare_conseq; [apply wf_validate|done..]. }
  destruct q; cbn [BrokerSafety.handle]; apply Hp.
  - apply Hv. intros uid. apply same_wf, (framed_map_err accounts_same). unfold new_auth_token. solve_frame.
  - apply same_wf, (framed_lift accounts_same).
  - apply wf_bind; [apply same_wf, same_token|]. intros o. apply same_wf. solve_frame.
  - apply same_wf, (framed_bind' accounts_same); [apply same_token|].
    intros [[? ?]|]; [apply same_user_info|apply (framed_ret accounts_same)].
  - intros w' Hw'. pose proof (wf_validate c w' Hw') as [Hw'' _]. unfold get_user_info_by_cred.
    destruct (Broker.validate_credential _ _ c w') as [w1 [uid|[]|]]; simpl in *; try (by split).
    by apply (same_wf _ (same_user_info uid)).
  - apply wf_bind; [apply same_wf, same_puzzle|]. intros _. eapply hoare_conseq; [apply wf_register|by split|done].
  - eapply hoare_bind; [apply wf_validate|]. intros uid. apply hoare_map_err.
    eapply hoare_conseq; [apply wf_register|intros w' [? ?]; split; [done|by intros ? [= <-]]|done].
  - apply same_wf, (framed_bind' accounts_same); [apply same_exits|solve_frame].
  - apply same_wf, (framed_bind' accounts_same); [apply same_exits|solve_frame].
  - apply same_wf. unfold insert_exit. solve_frame.
  - apply same_wf. unfold insert_bridge. solve_frame.
  - apply same_wf, same_routes.
  - apply wf_validated. intros. apply same_wf, (framed_query accounts_same).
  - apply wf_validated. intros uid. apply wf_bind; [apply same_wf, (framed_payment accounts_same)|]. intros sessid.
    apply wf_bind; [apply same_wf, (framed_payment accounts_same)|]. intros days.
    apply wf_bind; [apply wf_delete_voucher|intros; apply same_wf, (framed_ret accounts_same)].
  - apply wf_validated. intros. apply same_wf. solve_frame.
  - apply same_wf. unfold database_gc. solve_frame.
  - apply (hoare_bind _ world_wf (λ uids w, uids ⊆ (auth_secret (db w)).*1)); [|intros; apply wf_vouchers_for].
    apply hoare_query. intros l w' Hw'. split; [by apply wf_faults|done].
Qed.

(** The requests of clients, exits and bridges, the garbage collector, the
    run that gives every user a voucher, and around them whatever leaves the accounts alone. *)
Inductive account_step (w : World) : World → Prop :=
| step_request q : account_step w (handle q w)
| step_other w' : accounts_same w w' → account_step w w'.

(** C21: the accounts stay well-formed.  User ids are below the sequence they are
    drawn from and never repeat, every account has at most one secret and at
    most one free voucher, a free voucher belongs to an account with a secret,
    and a remembered credential belongs to a drawn id.  All requests keep
    this, in any order and with any queries failing, though nothing in the
    tables enforces it: a transaction that fails half-way gives its user id
    up, the one that first gives an account a secret gives it its voucher,
    and the run for all users skips those that have one. *)
Theorem accounts_well_formed w0 w : rtc account_step w0 w → world_wf w0 → world_wf w.
Proof.
  induction 1 as [w|w1 w2 w3 Hs _ IH]; [done|]. intros Hw. apply IH.
  destruct Hs as [q|w' He]; [by apply handle_wf|by eapply wf_same].
Qed.
End wf.

(** ** A small broker: a failed registration, another one, an upgrade and the
    run that gives everyone a voucher. *)
Module WfDemo.
Import Toy BrokerDemo.
Definition step (q : request) (w : World) : World :=
  BrokerSafety.handle config parse verify pow (λ _ _, 0) (λ _, ""%string) (λ _ _ _, None) q w.
Definition registered : World :=
  step (RqRegister [1; 2] "p2" "s") (step (RqRegister [1] "p1" "s") (set_faults [false; false; false; false; true] w0)).
Definition w2 : World := step RqVouchersForAll registered.
End WfDemo.
Import Toy BrokerDemo WfDemo.

(** The first registration dies at the query for an existing secret; its id is not drawn again. *)
Example failed_registration :
  users (db w2) = [7; 9] ∧ (auth_secret (db w2)).*1 = [7; 9] ∧ map voucher_id (free_vouchers (db w2)) = [9; 7] ∧
  next_user_id (db w2) = 10.
Proof. vm_compute. done. Qed.

Lemma accounts_well_formed_witness : world_wf w2.
Proof.
  apply (accounts_well_formed config parse verify pow (λ _ _, 0) (λ _, ""%string) (λ _ _ _, None) w0 w2).
  - eapply rtc_l; [apply (step_other _ _ _ _ _ _ _ _ (set_faults [false; false; false; false; true] w0)); by split|].
    eapply rtc_l; [apply (step_request _ _ _ _ _ _ _ _ (RqRegister [1] "p1" "s"))|].
    eapply rtc_l; [apply (step_request _ _ _ _ _ _ _ _ (RqRegister [1; 2] "p2" "s"))|].
    apply rtc_once, (step_request _ _ _ _ _ _ _ _ RqVouchersForAll).
  - split; [split; simpl|].
    + by repeat constructor.
    + apply NoDup_singleton.
    + by repeat constructor.
    + apply NoDup_singleton.
    + constructor.
    + constructor.
    + set_solver.
    + apply (cache_forall_empty 86400000).
Defined.
