(* ===== verification/Availability.v ===== *)
(** * Reports on bridges ([upload_available] of
    binaries/geph5-broker/src/rpc_impl.rs)

    Clients report whether a bridge worked for them.  The broker keeps, per
    bridge, country and network, two counts that are meant to halve every hour.
    The counts are [f64]; [decay] is [2.0f64.powf(diff / 3600.0)]. *)
From Stdlib Require Import ZArith Lia Floats.SpecFloat.
From S2P Require Import Prelude Bdp.
Local Open Scope Z_scope.

Record AvailabilityData := mkAvail { av_listen : string; av_country : string; av_asn : string; av_success : bool }.

Abbreviation avail_key := (string * string * string)%type.
Record avail_row := mkAvailRow { successes : f64; failures : f64; last_update : Z }.

Definition key_of (d : AvailabilityData) : avail_key := (av_listen d, av_country d, av_asn d).

(** [i64::saturating_sub]. *)
Definition saturating_sub (a b : Z) : Z := Z.max (- 2 ^ 63) (Z.min (2 ^ 63 - 1) (a - b)).

Section availability.
Context (decay : Z → f64).

Definition one : f64 := f64_of_Z 1.

Definition report (current_timestamp : Z) (d : AvailabilityData) (o : option avail_row) : avail_row :=
  match o with
  | Some r =>
      let decay_factor := decay (saturating_sub current_timestamp (last_update r)) in
      if av_success d
      then mkAvailRow (f64_add (f64_div (successes r) decay_factor) one) (failures r) current_timestamp
      else mkAvailRow (successes r) (f64_add (f64_div (failures r) decay_factor) one) current_timestamp
  | None =>
      if av_success d then mkAvailRow one (S754_zero false) current_timestamp
      else mkAvailRow (S754_zero false) one current_timestamp
  end.

(** The transaction, whose queries (begin, select, update or insert, commit) may
    fail; it runs in the background and no one hears of it. *)
Definition upload_available (faults : list bool) (current_timestamp : Z) (d : AvailabilityData)
    (t : gmap avail_key avail_row) : gmap avail_key avail_row :=
  if existsb id (take 4 faults) then t else <[key_of d := report current_timestamp d (t !! key_of d)]> t.

(** ** What is counted *)

(** A report touches the row of its bridge, country and network and no other, and
    only when all four queries succeed. *)
Lemma upload_available_row faults now d t k :
  upload_available faults now d t !! k =
    (if decide (k = key_of d ∧ existsb id (take 4 faults) = false) then Some (report now d (t !! k)) else t !! k).
Proof.
  unfold upload_available. destruct (existsb id (take 4 faults)).
  - rewrite decide_False by naive_solver. done.
  - destruct (decide (k = key_of d)) as [->|Hk].
    + rewrite decide_True by done. by rewrite lookup_insert_eq.
    + rewrite decide_False by naive_solver. by rewrite lookup_insert_ne.
Qed.

(** A failure moves the clock of the row and leaves the successes as they were. *)
Lemma failure_skips_decay now d r : av_success d = false →
  successes (report now d (Some r)) = successes r ∧ last_update (report now d (Some r)) = now.
Proof. cbn. by intros ->. Qed.
End availability.

(** So a success counts for more when a failure came after it: with a halving per
    hour, successes at hours 0 and 2 give 1.25, but 1.5 when hour 1 saw a failure. *)
Example decay_skipped :
  let decay diff := f64_of_Z (2 ^ (diff / 3600)) in
  let ok := mkAvail "b" "CAN" "1" true in
  let bad := mkAvail "b" "CAN" "1" false in
  let run l := successes <$> foldl (λ t p, upload_available decay [] p.1 p.2 t) ∅ l !! key_of ok in
  run [(0, ok); (7200, ok)] = Some (f64_div (f64_of_Z 5) (f64_of_Z 4)) ∧
  run [(0, ok); (3600, bad); (7200, ok)] = Some (f64_div (f64_of_Z 3) (f64_of_Z 2)).
Proof. vm_compute. done. Qed.
