(* ===== verification/Account.v ===== *)
(** * Accounts through the control protocol
    (binaries/geph5-client/src/control_prot.rs)

    The calls of [ControlProtocolImpl] that pass a request of the user on to the
    broker: secrets, legacy accounts, exit lists, vouchers and payments.  Each is
    a call over a network that may lose the request or the reply, against the
    handlers of [Broker]. *)
From Stdlib Require Import ZArith Lia Floats.SpecFloat.
From S2P Require Import Prelude Bdp Crypto Mizaru Protocol Text Cache Routes BrokerDb Broker BrokerSafety BrokerLive Announce.
Local Open Scope Z_scope.

(** [UserInfo] of control_prot.rs. *)
Record ControlUserInfo := mkControlUser {
  ui_user_id : Z;
  ui_level : AccountLevel;
  ui_recurring : bool;
  ui_expiry : option Z
}.

Definition no_broker : string := "broker information not provided, so cannot use any broker-dependent functionality".
Definition no_such_user : string := "no such user".

Section account.
Context `{BC : BrokerCaches} `{PS : Payment}.
Context `{Blake3Laws} `{Ed25519Laws} `{BlindRsaLaws}.
Context `{Stdcode ExitList} `{Stdcode ExitDescriptor}.
Context (cfg : BrokerConfig).
Context (phc_parse : string → bool) (verify_password : string → string → bool).
Context {CLcred : TtlCacheLaws Credential Z 86400000}.
(** [{:?}] of the broker's errors, and [f32::powf] with exponent one half. *)
Context (show_auth : AuthError → string) (sqrt_load : spec_float → spec_float).

(** [broker_client(&ctx)?.method(..).await?.map_err(..)?]: [broker] says whether a
    broker is configured. *)
Definition control_call {E A} (broker : bool) (net : delivery) (show : E → string) (m : M E A) : M string A := λ w,
  if broker then
    match net with
    | RequestLost => (w, Err "network"%string)
    | ReplyLost => let '(w, _) := m w in (w, Err "network"%string)
    | Delivered => map_errM show m w
    end
  else (w, Err no_broker).

Definition check_secret (broker : bool) (net : delivery) (secret : string) : M string bool :=
  res ← control_call broker net show_auth (get_user_info_by_cred phc_parse verify_password (Secret secret));
  mret (match res with Some _ => true | None => false end).

Definition control_user_info (broker : bool) (net : delivery) (secret : string) : M string ControlUserInfo :=
  res ← control_call broker net show_auth (get_user_info_by_cred phc_parse verify_password (Secret secret));
  i ← lift (ok_or res no_such_user);
  mret (mkControlUser (user_id i) (match plus_expires_unix i with Some _ => Plus | None => Free end) (recurring i)
          (plus_expires_unix i)).

Definition convert_legacy_account (broker : bool) (net : delivery) (digits : list Z) (username password : string) : M string string :=
  control_call broker net show_auth
    (upgrade_to_secret phc_parse verify_password digits (LegacyUsernamePassword username password)).

Definition exit_list (broker : bool) (net : delivery) : M string (list ExitDescriptor) :=
  resp ← control_call broker net id (broker_get_exits cfg);
  mret (map snd (all_exits (signed_inner resp))).

Definition with_load (e : ExitDescriptor) (x : spec_float) : ExitDescriptor :=
  mkExit (c2e_listen e) (b2e_listen e) (country e) (city e) x (exit_expiry e).

Definition free_exit_list (broker : bool) (net : delivery) : M string (list ExitDescriptor) :=
  resp ← control_call broker net id (broker_get_free_exits cfg);
  mret (map (λ s, with_load s.2 (sqrt_load (load s.2))) (all_exits (signed_inner resp))).

Definition control_get_free_voucher (broker : bool) (net : delivery) (secret : string) : M string (option string) :=
  control_call broker net id (broker_get_free_voucher phc_parse verify_password secret).

Definition control_redeem_voucher (broker : bool) (net : delivery) (secret code : string) : M string Z :=
  control_call broker net id (redeem_voucher phc_parse verify_password secret code).

(** The handlers of the broker that answer with constants. *)
Definition raw_price_points : M string (list (Z * Z)) := mret [(30, 500); (90, 1500); (365, 5475); (730, 10342)].
Definition payment_methods : M string (list string) := mret ["credit-card"%string; "wechat"%string].
Definition upload_debug_pack (email : option string) (logs : string) : M string unit := mret tt.

Definition price_points (broker : bool) (net : delivery) : M string (list (Z * f64)) :=
  l ← control_call broker net id raw_price_points;
  mret (map (λ '(a, b), (a, f64_div (f64_of_Z b) (f64_of_Z 100))) l).

Definition control_payment_methods (broker : bool) (net : delivery) : M string (list string) :=
  control_call broker net id payment_methods.

Definition control_create_payment (broker : bool) (net : delivery) (secret : string) (days : Z) (method : string) : M string string :=
  control_call broker net id (create_payment phc_parse verify_password secret days method).

Definition export_debug_pack (broker : bool) (net : delivery) (email : option string) (contents : string) : M string unit :=
  control_call broker net id (upload_debug_pack email contents).

(** ** The account behind a credential *)

Definition cred_uid (d : Db) (c : Credential) : option Z :=
  match c with
  | TestDummy => None
  | Secret s => secret_owner s d
  | LegacyUsernamePassword u p =>
      '(uid, phc) ← password_row u d; if phc_parse phc && verify_password p phc then Some uid else None
  end.

(** The broker remembers no credential wrongly. *)
Definition cred_right (w : World) : Prop := cache_forall (λ c uid, cred_uid (db w) c = Some uid) (cred_cache w).

Lemma validate_calm c w uid : faults w = [] → cred_right w → cred_uid (db w) c = Some uid →
  ∃ cc, validate_credential phc_parse verify_password c w = (set_cred_cache cc w, Ok uid) ∧ cred_right (set_cred_cache cc w).
Proof.
  intros Ef Hr Hc. unfold validate_credential, memo. destruct (clookup (cred_cache w) (now w) c) as [v|] eqn:El.
  { exists (cred_cache w). split; [|by destruct w]. pose proof (Hr _ _ _ El) as Hv. cbn in Hv.
    assert (v = uid) as -> by congruence. by destruct w. }
  assert ((match c with
           | TestDummy => fail Forbidden
           | LegacyUsernamePassword username password => validate_username_pwd phc_parse verify_password username password
           | Secret s => validate_secret s
           end) w = (w, Ok uid)) as ->.
  { destruct c as [|u p|s]; cbn in Hc; [done| |].
    - apply bind_Some in Hc as ([uid' phc] & Hp & Hc). unfold validate_username_pwd, rate_limited, map_errM, lift, mbind, M_bind.
      rewrite query_calm by done. simpl. rewrite Hp. simpl. destruct (phc_parse phc), (verify_password p phc); by simplify_eq/=.
    - unfold validate_secret, rate_limited, map_errM, lift, mbind, M_bind. rewrite query_calm by done. simpl. by rewrite Hc. }
  eexists. split; [done|]. unfold cred_right. simpl. by eapply cache_forall_insert.
Qed.

Lemma find_first_app_l {A} (f : A → bool) l l' a : find_first f l = Some a → find_first f (l ++ l') = Some a.
Proof. unfold find_first. rewrite filter_app. by destruct (filter _ l). Qed.

Lemma register_existing_calm digits uid s w : faults w = [] → secret_of uid (db w) = Some s →
  register_secret digits (Some uid) w = (w, Ok s).
Proof.
  intros Ef Es. unfold register_secret, transaction, mbind, M_bind. rewrite query_calm by done. simpl.
  rewrite query_calm by done. simpl. rewrite Es. simpl. by rewrite query_calm.
Qed.

(** Registering a known user: the existing secret, or a new one. *)
Lemma register_known_calm digits uid w : faults w = [] →
  (∀ s, secret_of uid (db w) = Some s → secret_owner s (db w) = Some uid) →
  (secret_of uid (db w) = None → secret_owner (make_secret digits) (db w) = None ∧ ∃ p code, create_giftcard (pay w) 1 = (p, Ok code)) →
  ∃ p d s, register_secret digits (Some uid) w = (set_pay p (set_db d w), Ok s) ∧
    secret_of uid d = Some s ∧ secret_owner s d = Some uid ∧ ∀ c u, cred_uid (db w) c = Some u → cred_uid d c = Some u.
Proof.
  intros Ef Hu Hn. destruct w as [d fl n py cc tc tsc sc ec bc rc]. simpl in *. subst fl.
  unfold register_secret, transaction, mbind, M_bind, query, execute, payment. simpl.
  destruct (secret_of uid d) as [s|] eqn:Es; simpl.
  - exists py, d, s. split_and!; eauto.
  - destruct (Hn eq_refl) as (Ho & p & code & Hc). rewrite Hc. simpl. eexists _, _, _. split; [reflexivity|]. simpl.
    unfold secret_of, secret_owner in *. simpl. split_and!.
    + rewrite (find_first_app_r _ _ (uid, make_secret digits)); [done| |by apply Z.eqb_refl]. by apply fmap_None in Es.
    + rewrite (find_first_app_r _ _ (uid, make_secret digits)); [done| |by apply bool_decide_true]. by apply fmap_None in Ho.
    + intros c u. destruct c; cbn; [done..|]. unfold secret_owner. intros [r [Hr ->]]%fmap_Some. simpl.
      by rewrite (find_first_app_l _ _ _ _ Hr).
Qed.

Lemma subscription_frame uid w : faults w = [] →
  ∃ ts sc o, get_subscription_expiry uid w = (set_subs_cache sc (set_ts_cache ts w), Ok o).
Proof.
  intros Ef. destruct w as [d fl n py cc tc tsc sc ec bc rc]. simpl in *. subst fl.
  unfold get_subscription_expiry, mbind, M_bind, get, memo_idle, query. simpl.
  destruct (clookup tsc n (n / 50)) as [ts|]; simpl.
  - destruct (clookup sc n ts); simpl; by eexists _, _, _.
  - destruct (clookup sc n _); simpl; by eexists _, _, _.
Qed.

(** Asking for a known account succeeds and changes only caches. *)
Lemma user_info_calm c w uid : faults w = [] → cred_right w → cred_uid (db w) c = Some uid →
  ∃ w' i, get_user_info_by_cred phc_parse verify_password c w = (w', Ok (Some i)) ∧ user_id i = cast_u 64 uid ∧
    faults w' = [] ∧ db w' = db w ∧ cred_right w'.
Proof.
  intros Ef Hr Hc. destruct (validate_calm c w uid Ef Hr Hc) as (cc & E & Hr'). unfold get_user_info_by_cred. rewrite E.
  unfold user_info_of, rate_limited, map_errM, mbind, M_bind.
  destruct (subscription_frame uid (set_cred_cache cc w) Ef) as (ts & sc & o & ->). simpl.
  eexists _, _. by split_and!.
Qed.

(** Converting a legacy account.  On a broker whose database answers, whose
    secrets are unique and whose payment service issues cards if one is needed, a
    correct username and password give a secret; asking again, with whatever
    digits the broker would draw, gives the same one; and the secret is known to
    be valid and belongs to the account of the username. *)
Theorem converted_account digits digits2 username password w uid phc :
  faults w = [] → cred_right w →
  password_row username (db w) = Some (uid, phc) → phc_parse phc = true → verify_password password phc = true →
  (∀ s, secret_of uid (db w) = Some s → secret_owner s (db w) = Some uid) →
  (secret_of uid (db w) = None → secret_owner (make_secret digits) (db w) = None ∧ ∃ p code, create_giftcard (pay w) 1 = (p, Ok code)) →
  ∃ w1 w2 w3 w4 s i,
    convert_legacy_account true Delivered digits username password w = (w1, Ok s) ∧
    convert_legacy_account true Delivered digits2 username password w1 = (w2, Ok s) ∧
    check_secret true Delivered s w2 = (w3, Ok true) ∧
    control_user_info true Delivered s w3 = (w4, Ok i) ∧ ui_user_id i = cast_u 64 uid ∧
    (ui_level i = Plus ↔ is_Some (ui_expiry i)).
Proof.
  intros Ef Hr Hp Hphc Hv Hu Hn.
  assert (Hc : cred_uid (db w) (LegacyUsernamePassword username password) = Some uid) by (cbn; by rewrite Hp; cbn; rewrite Hphc, Hv).
  destruct (validate_calm _ _ _ Ef Hr Hc) as (cc & E1 & Hr1).
  destruct (register_known_calm digits uid (set_cred_cache cc w) Ef Hu Hn) as (p & d & s & E2 & Hs & Ho & Hmono).
  pose (w1 := set_pay p (set_db d (set_cred_cache cc w))).
  assert (Hr2 : cred_right w1) by (intros t c u Hl; apply Hmono; by eapply Hr1).
  destruct (validate_calm _ w1 uid Ef Hr2 (Hmono _ _ Hc)) as (cc2 & E3 & Hr3).
  pose proof (register_existing_calm digits2 uid s (set_cred_cache cc2 w1) Ef Hs) as E4.
  destruct (user_info_calm (Secret s) (set_cred_cache cc2 w1) uid Ef Hr3 Ho) as (w3 & i & E5 & Hi & Ef3 & Ed3 & Hr4).
  destruct (user_info_calm (Secret s) w3 uid Ef3 Hr4) as (w4 & i' & E6 & Hi' & _); [by rewrite Ed3|].
  exists w1, (set_cred_cache cc2 w1), w3, w4, s. eexists. unfold convert_legacy_account, check_secret, control_user_info, control_call,
    upgrade_to_secret, rate_limited, map_errM, lift, mbind, M_bind. rewrite E1, E2, E3, E4, E5, E6.
  split_and!; try reflexivity; [done|]. cbn. by destruct (plus_expires_unix i').
Qed.

(** Every payment method that is offered is one [create_payment] passes on to the
    payment service. *)
Lemma offered_methods_supported secret days method w w' l : payment_methods w = (w', Ok l) → method ∈ l →
  ∃ start : pay_state → string → pay_state * res string string, create_payment phc_parse verify_password secret days method =
    (user_id ← map_errM auth_msg (validate_credential phc_parse verify_password (Secret secret));
     sessid ← payment (λ p, raw_start_session p user_id); payment (λ p, start p sessid)).
Proof.
  intros [= <- <-] Hm. rewrite !elem_of_cons, elem_of_nil in Hm. destruct Hm as [->|[->|[]]]; by eexists.
Qed.

(** Redeeming any code drops the free voucher of the account. *)
Lemma redeem_drops_voucher secret code w uid p1 sess p2 days v :
  faults w = [] → cred_right w → secret_owner secret (db w) = Some uid →
  raw_start_session (pay w) uid = (p1, Ok sess) → spend_giftcard p1 sess code = (p2, Ok days) →
  find_first (λ v, voucher_id v =? uid) (free_vouchers (db w)) = Some v →
  ∃ w' w'', control_redeem_voucher true Delivered secret code w = (w', Ok days) ∧
    control_get_free_voucher true Delivered secret w' = (w'', Ok None).
Proof.
  intros Ef Hr Ho Hp1 Hp2 Hv. destruct (validate_calm (Secret secret) w uid Ef Hr Ho) as (cc & E & Hr1).
  unfold control_redeem_voucher, control_get_free_voucher, control_call, redeem_voucher, broker_get_free_voucher, delete_free_voucher.
  unfold map_errM, mbind, M_bind, payment, get. rewrite E. simpl. rewrite Hp1. simpl. rewrite Hp2. simpl.
  unfold execute. simpl. rewrite Ef. simpl.
  match goal with |- ∃ w' w'', (?x, _) = _ ∧ _ => pose (w1 := x) end. exists w1.
  destruct (validate_calm (Secret secret) w1 uid Ef Hr1 Ho) as (cc2 & E2 & _). rewrite E2. simpl.
  unfold get_free_voucher. rewrite query_calm by done. simpl.
  eexists. split; [reflexivity|]. f_equal. f_equal. case_decide; [|done].
  assert (find_first (λ v, voucher_id v =? uid) (filter (λ v, voucher_id v ≠ uid) (free_vouchers (db w))) = None) as ->; [|done].
  apply eq_None_not_Some. intros [v' Hv'%head_Some_elem_of]. rewrite !list_elem_of_filter in Hv'.
  destruct Hv' as (Hb%Is_true_true & Hne & _). by apply Z.eqb_eq in Hb.
Qed.
End account.

(** ** Witness *)

Import Toy BrokerDemo.

Module AccountDemo.
Definition legacy_db : Db :=
  mkDb 10 [7; 9] [(7, "abc"%string)] [("alice"%string, (9, "pw"%string))] [] [(9, (900, false))] 3 [] ∅ ∅ ∅ ∅ ∅.
Definition w : World := mkWorld legacy_db [] 0 0 cempty cempty cempty cempty cempty cempty cempty.
Definition show (e : AuthError) : string := auth_msg e.
End AccountDemo.

Lemma converted_account_witness :
  ∃ w1 w2 w3 w4 s i,
    convert_legacy_account BrokerDemo.parse BrokerDemo.verify AccountDemo.show true Delivered [1] "alice" "pw" AccountDemo.w = (w1, Ok s) ∧
    convert_legacy_account BrokerDemo.parse BrokerDemo.verify AccountDemo.show true Delivered [2] "alice" "pw" w1 = (w2, Ok s) ∧
    check_secret BrokerDemo.parse BrokerDemo.verify AccountDemo.show true Delivered s w2 = (w3, Ok true) ∧
    control_user_info BrokerDemo.parse BrokerDemo.verify AccountDemo.show true Delivered s w3 = (w4, Ok i) ∧
    ui_user_id i = 9 ∧ (ui_level i = Plus ↔ is_Some (ui_expiry i)).
Proof.
  refine (converted_account BrokerDemo.parse BrokerDemo.verify AccountDemo.show [1] [2] "alice" "pw" AccountDemo.w 9 "pw" _ _ _ _ _ _ _);
    try (vm_compute; reflexivity).
  - apply (cache_forall_empty 86400000).
  - vm_compute. discriminate.
  - intros _. split; [vm_compute; reflexivity|]. exists 1, "card"%string. reflexivity.
Defined.
