(* ===== verification/GuiState.v ===== *)
(** * State of the graphical client
    (binaries/geph5-client-gui/src/{prefs,store_cell,refresh_cell,timeseries}.rs)

    Preferences are files behind a cache, settings are cells that write
    themselves to a preference, values shown on screen are refreshed in the
    background, and the traffic graph reads a bounded series.  JSON and the files
    of the system are parameters or arguments. *)
From Stdlib Require Import ZArith Lia Floats.SpecFloat Sorting.Sorted.
From stdpp Require Import sorting.
From S2P Require Import Prelude.
Local Open Scope Z_scope.

(** ** Preferences (prefs.rs) *)

Record prefs := mkPrefs { pref_files : gmap string string; PREF_CACHE : gmap string string }.

(** [pref_read]; [readable] says whether the system lets the file be read. *)
Definition pref_read (readable : bool) (key : string) (s : prefs) : prefs * option string :=
  match PREF_CACHE s !! key with
  | Some v => (s, Some v)
  | None =>
      match (if readable then pref_files s !! key else None) with
      | Some v => (mkPrefs (pref_files s) (<[key := v]> (PREF_CACHE s)), Some v)
      | None => (s, None)
      end
  end.

(** How [std::fs::write] ends: a failure leaves anything or nothing behind. *)
Inductive write_end := Written | WriteFailed (left : option string).

Definition fs_write (e : write_end) (key val : string) (files : gmap string string) : gmap string string * bool :=
  match e with
  | Written => (<[key := val]> files, true)
  | WriteFailed None => (delete key files, false)
  | WriteFailed (Some x) => (<[key := x]> files, false)
  end.

Definition pref_write (readable : bool) (e : write_end) (key val : string) (s : prefs) : prefs * bool :=
  let '(s, existing) := pref_read readable key s in
  if bool_decide (existing = Some val) then (s, true)
  else
    let '(files, ok) := fs_write e key val (pref_files s) in
    (mkPrefs files (delete key (PREF_CACHE s)), ok).

(** The cache holds ten thousand entries and may drop any. *)
Definition pref_evict (key : string) (s : prefs) : prefs := mkPrefs (pref_files s) (delete key (PREF_CACHE s)).

Definition pref_start (files : gmap string string) : prefs := mkPrefs files ∅.

(** The cache says what the files say. *)
Definition coherent (s : prefs) : Prop := PREF_CACHE s ⊆ pref_files s.

Lemma pref_read_coherent readable key s s' o : coherent s → pref_read readable key s = (s', o) →
  coherent s' ∧ pref_files s' = pref_files s ∧ (o = pref_files s !! key ∨ o = None ∧ readable = false).
Proof.
  unfold coherent, pref_read. intros Hc E. destruct (PREF_CACHE s !! key) as [v|] eqn:Ev.
  - simplify_eq. split_and!; [done..|]. left. symmetry. by eapply lookup_weaken.
  - destruct readable; [|simplify_eq; auto]. destruct (pref_files s !! key) as [v|] eqn:Ef; simplify_eq/=; [|auto].
    split_and!; [|done|by left]. by apply insert_subseteq_l.
Qed.

Lemma pref_write_coherent readable e key val s s' ok : coherent s → pref_write readable e key val s = (s', ok) →
  coherent s' ∧ (ok = true → pref_files s' = <[key := val]> (pref_files s)) ∧ ∀ k, k ≠ key → pref_files s' !! k = pref_files s !! k.
Proof.
  intros Hc. unfold pref_write. destruct (pref_read readable key s) as [s1 o] eqn:E.
  apply pref_read_coherent in E as (H1 & H2 & H3); [|done]. case_bool_decide as Eo.
  { intros [= <- <-]. split_and!; [done| |by rewrite H2]. intros _. rewrite H2.
    destruct H3 as [->|[-> _]]; [|done]. symmetry. by apply insert_id. }
  destruct (fs_write e key val (pref_files s1)) as [files k] eqn:Ew. intros [= <- <-]. cbn.
  assert (∀ m : gmap string string, (∀ k, k ≠ key → m !! k = pref_files s1 !! k) → delete key (PREF_CACHE s1) ⊆ m) as Hsub.
  { intros m Hm. apply map_subseteq_spec. intros k' v [Hk Hv]%lookup_delete_Some. rewrite Hm by done. by eapply lookup_weaken. }
  rewrite <-H2. destruct e as [|[x|]]; cbn in Ew; simplify_eq; unfold coherent; cbn; split_and!; try done;
    try apply Hsub; intros; by simplify_map_eq.
Qed.

(** ** Cells (store_cell.rs) *)

Section cells.
Context {T : Type} (to_string : T → string) (from_str : string → option T).

Record StoreCell := mkCell { cell_key : string; inner : T }.

Definition new_persistent (readable : bool) (key : string) (default_val : T) (s : prefs) : prefs * StoreCell :=
  let '(s, o) := pref_read readable key s in (s, mkCell key (default default_val (o ≫= from_str))).

Definition cell_get (c : StoreCell) : T := inner c.

(** [set] returns the old value; a preference that cannot be written is lost in
    silence. *)
Definition cell_set (readable : bool) (e : write_end) (v : T) (c : StoreCell) (s : prefs) : prefs * StoreCell * T :=
  ((pref_write readable e (cell_key c) (to_string v) s).1, mkCell (cell_key c) v, inner c).

Definition cell_modify {U} (readable : bool) (e : write_end) (f : T → T * U) (c : StoreCell) (s : prefs) : prefs * StoreCell * U :=
  let '(v, u) := f (inner c) in
  ((pref_write readable e (cell_key c) (to_string v) s).1, mkCell (cell_key c) v, u).

(** What a run of the program does to one setting and around it. *)
Inductive cell_event :=
| CellSet (readable : bool) (v : T)
| CellModify (readable : bool) (f : T → T)
| OtherWrite (readable : bool) (e : write_end) (key val : string)
| OtherRead (readable : bool) (key : string)
| Evict (key : string).

Definition cell_step (p : prefs * StoreCell) (ev : cell_event) : prefs * StoreCell :=
  let '(s, c) := p in
  match ev with
  | CellSet r v => (cell_set r Written v c s).1
  | CellModify r f => (cell_modify r Written (λ x, (f x, tt)) c s).1
  | OtherWrite r e key val => if decide (key = cell_key c) then (s, c) else ((pref_write r e key val s).1, c)
  | OtherRead r key => ((pref_read r key s).1, c)
  | Evict key => (pref_evict key s, c)
  end.

Definition is_set (ev : cell_event) : bool := match ev with CellSet _ _ | CellModify _ _ => true | _ => false end.

Hypothesis json_roundtrip : ∀ v, from_str (to_string v) = Some v.

Definition stored (key : string) (p : prefs * StoreCell) : Prop := pref_files p.1 !! key = Some (to_string (inner p.2)).

Lemma write_stored key r v s s' ok : coherent s → pref_write r Written key (to_string v) s = (s', ok) →
  coherent s' ∧ pref_files s' !! key = Some (to_string v).
Proof.
  intros Hc E. assert (ok = true) as ->.
  { unfold pref_write, fs_write in E. destruct (pref_read r key s). case_bool_decide; by simplify_eq. }
  apply pref_write_coherent in E as (H1 & H2 & _); [|done]. split; [done|]. rewrite H2 by done. by simplify_map_eq.
Qed.

Lemma cell_step_inv key p ev : coherent p.1 → cell_key p.2 = key →
  coherent (cell_step p ev).1 ∧ cell_key (cell_step p ev).2 = key ∧
  (stored key p ∨ is_set ev = true → stored key (cell_step p ev)).
Proof.
  destruct p as [s c]. cbn. intros Hc Hk. unfold stored. destruct ev as [r v|r f|r e k val|r k|k]; cbn.
  - destruct (pref_write r Written (cell_key c) (to_string v) s) as [s' ok] eqn:E. rewrite Hk in E.
    apply write_stored in E as []; [|done]. cbn. auto.
  - destruct (pref_write r Written (cell_key c) (to_string (f (inner c))) s) as [s' ok] eqn:E. rewrite Hk in E.
    apply write_stored in E as []; [|done]. cbn. auto.
  - case_decide; [cbn; naive_solver|]. destruct (pref_write r e k val s) as [s' ok] eqn:E.
    apply pref_write_coherent in E as (H1 & _ & H3); [|done]. cbn. split_and!; [done..|]. intros [?|?]; [|done].
    rewrite H3; [done|congruence].
  - destruct (pref_read r k s) as [s' o] eqn:E. apply pref_read_coherent in E as (H1 & H2 & _); [|done]. cbn.
    split_and!; [done..|]. rewrite H2. naive_solver.
  - split_and!; [|done|naive_solver]. unfold coherent in *. cbn. etrans; [apply delete_subseteq|done].
Qed.

(** Settings survive a restart.  Once a setting has been set, whatever other
    preferences are read, written or failed to be written and whatever the cache
    drops, starting the program again on the files gives the setting its last
    value. *)
Theorem settings_survive_restart key default_val default_val' files evs ev evs' p :
  is_set ev = true → p = foldl cell_step (new_persistent true key default_val (pref_start files)) (evs ++ ev :: evs') →
  cell_get (new_persistent true key default_val' (pref_start (pref_files p.1))).2 = cell_get p.2.
Proof.
  intros Hset ->. rewrite foldl_app. cbn [foldl].
  set (p0 := new_persistent true key default_val (pref_start files)).
  assert (coherent p0.1 ∧ cell_key p0.2 = key) as [H1 H2].
  { subst p0. unfold new_persistent. destruct (pref_read true key (pref_start files)) as [s o] eqn:E.
    apply pref_read_coherent in E as (? & _); [done|]. apply map_empty_subseteq. }
  assert (∀ l p, coherent p.1 → cell_key p.2 = key → coherent (foldl cell_step p l).1 ∧ cell_key (foldl cell_step p l).2 = key ∧
    (stored key p → stored key (foldl cell_step p l))) as Hrun.
  { induction l as [|x l IH]; intros p Hc Hk; [done|]. cbn. destruct (cell_step_inv key p x Hc Hk) as (A & B & C).
    destruct (IH _ A B) as (A' & B' & C'). split_and!; try done. auto. }
  destruct (Hrun evs p0 H1 H2) as (A & B & _). destruct (cell_step_inv key _ ev A B) as (A' & B' & C').
  destruct (Hrun evs' _ A' B') as (_ & _ & C''). specialize (C'' (C' (or_intror Hset))).
  unfold new_persistent, pref_read, cell_get. cbn. rewrite lookup_empty, C''. cbn. by rewrite json_roundtrip.
Qed.
End cells.

(** ** Background refreshes (refresh_cell.rs) *)

Section refresh.
Context {T : Type}.

(** A promise of a thread started earlier: when it is fulfilled, and with what. *)
Record Promise := mkPromise { ready_at : Z; promised : T }.
Definition promise_ready (now : Z) (p : Promise) : bool := ready_at p <=? now.

Record RefreshCell := mkRefresh { last_updated : Z; stable : option T; next : option Promise }.

Definition RefreshCell_new (now : Z) : RefreshCell := mkRefresh now None None.

(** [refresh] is the promise a thread spawned now would give. *)
Definition get_or_refresh (timeout now : Z) (refresh : Promise) (c : RefreshCell) : RefreshCell * option T :=
  let must_refresh := match next c with None => true | Some _ => timeout <? now - last_updated c end in
  let c :=
    if must_refresh then
      let stable := match next c with
                    | Some taken => if promise_ready now taken then Some (promised taken) else stable c
                    | None => stable c
                    end in
      mkRefresh now stable (Some refresh)
    else c in
  (c, if timeout * 2 <? now - last_updated c then None
      else match next c with
           | Some p => if promise_ready now p then Some (promised p) else stable c
           | None => None
           end).

(** The screen asks again and again; a refresh started at [t] takes [dur t] and
    gives [value t]. *)
Context (timeout : Z) (dur : Z → Z) (value : Z → T).

Definition show (t : Z) (c : RefreshCell) : RefreshCell * option T :=
  get_or_refresh timeout t (mkPromise (t + dur t) (value t)) c.

Fixpoint shows (ts : list Z) (c : RefreshCell) : list (Z * option T) :=
  match ts with
  | [] => []
  | t :: ts => let '(c, o) := show t c in (t, o) :: shows ts c
  end.

(** Each time lies at most [gap] after the one before. *)
Fixpoint spaced (gap t : Z) (ts : list Z) : Prop :=
  match ts with
  | [] => True
  | t' :: ts => t <= t' <= t + gap ∧ spaced gap t' ts
  end.

(** After a call at [t]: the promise under way was started at [s]; before it
    nothing was there, or the promise of the refresh before. *)
Definition refreshing (gap t0 t : Z) (c : RefreshCell) : Prop :=
  ∃ s, next c = Some (mkPromise (s + dur s) (value s)) ∧ last_updated c = s ∧ s <= t <= s + timeout ∧
    (stable c = None ∧ s = t0 ∨ ∃ s', stable c = Some (value s') ∧ s' <= s <= s' + timeout + gap).

Lemma show_refreshing gap t0 t t' c : 0 <= timeout → (∀ t, dur t <= timeout) → t <= t' <= t + gap → refreshing gap t0 t c →
  refreshing gap t0 t' (show t' c).1 ∧
  (t0 + timeout <= t' → ∃ s, (show t' c).2 = Some (value s) ∧ t' - (2 * timeout + gap) <= s <= t').
Proof.
  intros HT Hd Ht (s & En & El & Hs & Hst). unfold show, get_or_refresh. rewrite En, El. cbn.
  destruct (Z.ltb_spec timeout (t' - s)) as [Hm|Hm]; cbn.
  - pose proof (Hd s). assert (promise_ready t' (mkPromise (s + dur s) (value s)) = true) as -> by (unfold promise_ready; cbn; lia).
    replace (timeout * 2 <? t' - t') with false by lia. split.
    + exists t'. split_and!; try done; try lia. right. exists s. split; [done|lia].
    + intros _. destruct (promise_ready t' (mkPromise (t' + dur t') (value t'))); [exists t'|exists s]; (split; [done|lia]).
  - replace (timeout * 2 <? t' - last_updated c) with false by lia. rewrite En. split.
    + exists s. split_and!; try done; lia.
    + intros Ht0. unfold promise_ready. cbn. destruct (Z.leb_spec (s + dur s) t').
      * exists s. split; [done|lia].
      * pose proof (Hd s). destruct Hst as [[_ ->]|(s' & -> & Hs')]; [lia|]. exists s'. split; [done|lia].
Qed.

Lemma show_first t : 0 <= timeout → ∀ gap, refreshing gap t t (show t (RefreshCell_new t)).1.
Proof. intros HT gap. exists t. cbn. split_and!; try done; lia || by left. Qed.

Lemma shows_recent gap t0 ts : 0 <= timeout → (∀ t, dur t <= timeout) → ∀ u c t o, refreshing gap t0 u c → spaced gap u ts →
  (t, o) ∈ shows ts c → t0 + timeout <= t → ∃ s, o = Some (value s) ∧ t - (2 * timeout + gap) <= s <= t.
Proof.
  intros HT Hd. induction ts as [|t' ts IH]; intros u c t o Hr Hsp Hin Ht; cbn [shows spaced] in Hsp, Hin; [by apply elem_of_nil in Hin|].
  destruct Hsp as [Hu Hsp]. destruct (show_refreshing gap t0 u t' c HT Hd Hu Hr) as [Hr' Ho].
  destruct (show t' c) as [c' o'] eqn:E. cbn [fst snd] in Hr', Ho. apply elem_of_cons in Hin as [Hin|Hin]; [|exact (IH _ _ _ _ Hr' Hsp Hin Ht)].
  injection Hin as -> ->. auto.
Qed.

(** What is shown is recent: when refreshes take at most the timeout and the
    screen asks at least every [gap], then after the first timeout every answer is
    there and was computed at most twice the timeout and a gap ago. *)
Theorem refresh_recent gap t0 ts t o : 0 <= timeout → (∀ t, dur t <= timeout) → spaced gap t0 ts →
  (t, o) ∈ shows ts (show t0 (RefreshCell_new t0)).1 → t0 + timeout <= t →
  ∃ s, o = Some (value s) ∧ t - (2 * timeout + gap) <= s <= t.
Proof. intros HT Hd. eapply shows_recent; try done. by apply show_first. Qed.

Definition starved (t : Z) (c : RefreshCell) : Prop :=
  ∃ s, next c = Some (mkPromise (s + dur s) (value s)) ∧ last_updated c = s ∧ s <= t <= s + timeout ∧ stable c = None.

Lemma show_starved gap t t' c : 0 <= timeout → (∀ t, timeout + gap < dur t) → t <= t' <= t + gap → starved t c →
  starved t' (show t' c).1 ∧ (show t' c).2 = None.
Proof.
  intros HT Hd Hu (s & En & El & Hs & Hst). unfold show, get_or_refresh. rewrite En, El, Hst. cbn.
  pose proof (Hd s). pose proof (Hd t'). unfold promise_ready at 1 2. cbn. replace (s + dur s <=? t') with false by lia.
  destruct (Z.ltb_spec timeout (t' - s)) as [Hm|Hm]; cbn.
  - unfold promise_ready. cbn. replace (t' + dur t' <=? t') with false by lia.
    split; [exists t'; split_and!; try done; lia|]. replace (s + dur s <=? t') with false by lia. by case_match.
  - rewrite En, Hst. unfold promise_ready. cbn. replace (s + dur s <=? t') with false by lia.
    split; [exists s; split_and!; try done; lia|]. by case_match.
Qed.

(** A refresh that takes longer than the timeout and a gap is thrown away before
    it is done, and nothing is ever shown. *)
Theorem slow_refresh_never_shown gap t0 ts t o : 0 <= timeout → (∀ t, timeout + gap < dur t) → spaced gap t0 ts →
  (t, o) ∈ shows ts (show t0 (RefreshCell_new t0)).1 → o = None.
Proof.
  intros HT Hd. assert (starved t0 (show t0 (RefreshCell_new t0)).1) as Hr by (exists t0; cbn; split_and!; try done; lia).
  revert Hr. generalize (show t0 (RefreshCell_new t0)).1 as c. revert t0.
  induction ts as [|t' ts IH]; intros u c Hr Hsp Hin; cbn [shows spaced] in Hsp, Hin; [by apply elem_of_nil in Hin|].
  destruct Hsp as [Hu Hsp]. destruct (show_starved gap u t' c HT Hd Hu Hr) as [Hr' Ho].
  destruct (show t' c) as [c' o'] eqn:E. cbn [fst snd] in Hr', Ho.
  apply elem_of_cons in Hin as [Hin|Hin]; [injection Hin as -> ->; auto|]. exact (IH _ _ Hr' Hsp Hin).
Qed.
End refresh.

(** ** The traffic series (timeseries.rs) *)

(** A [BTreeMap] of moments as a list in their order. *)
Record TimeSeries := mkSeries { ts_values : list (Z * spec_float); max_count : nat }.
Definition TimeSeries_new (max_count : nat) : TimeSeries := mkSeries [] max_count.

Fixpoint btree_insert (now : Z) (v : spec_float) (l : list (Z * spec_float)) : list (Z * spec_float) :=
  match l with
  | [] => [(now, v)]
  | (t, x) :: l =>
      if now <? t then (now, v) :: (t, x) :: l
      else if now =? t then (t, v) :: l
      else (t, x) :: btree_insert now v l
  end.

(** [while values.len() > self.max_count { values.pop_first(); }]. *)
Fixpoint pop_excess (max_count : nat) (l : list (Z * spec_float)) : list (Z * spec_float) :=
  match l with
  | [] => []
  | _ :: l' => if decide (max_count < length l)%nat then pop_excess max_count l' else l
  end.

Definition ts_record (now : Z) (v : spec_float) (s : TimeSeries) : TimeSeries :=
  mkSeries (pop_excess (max_count s) (btree_insert now v (ts_values s))) (max_count s).

Definition get_at (time : Z) (s : TimeSeries) : spec_float :=
  default (S754_zero false) (snd <$> last (filter (λ p, p.1 <= time) (ts_values s))).

(** What was recorded, in the order of time: the last [n] entries. *)
Definition lastn {A} (n : nat) (l : list A) : list A := drop (length l - n) l.

Lemma pop_excess_lastn n l : pop_excess n l = lastn n l.
Proof.
  unfold lastn. induction l as [|a l IH]; [done|]. cbn [pop_excess length]. case_decide as E.
  - rewrite IH. by replace (S (length l) - n)%nat with (S (length l - n))%nat by (cbn in E; lia).
  - cbn in E. by replace (S (length l) - n)%nat with 0%nat by lia.
Qed.

Lemma btree_insert_last now v l : Forall (λ p, p.1 < now) l → btree_insert now v l = l ++ [(now, v)].
Proof.
  induction l as [|[t x] l IH]; intros Hl; [done|]. apply Forall_cons in Hl as [Ht Hl]. cbn in *.
  replace (now <? t) with false by lia. replace (now =? t) with false by lia. by rewrite IH.
Qed.

Lemma lastn_snoc {A} n (l : list A) a : lastn n (lastn n l ++ [a]) = lastn n (l ++ [a]).
Proof.
  unfold lastn. rewrite !length_app, length_drop. cbn. destruct (decide (n = 0%nat)) as [->|Hn].
  { rewrite !Nat.sub_0_r, !drop_ge; [done|rewrite length_app; cbn; lia|rewrite length_app, length_drop; cbn; lia]. }
  destruct (decide (n <= length l)%nat).
  - rewrite drop_app_le, drop_app_le, drop_drop by (rewrite ?length_drop; lia). f_equal. f_equal. lia.
  - replace (length l - n)%nat with 0%nat by lia. cbn. by rewrite Nat.sub_0_r.
Qed.

(** The series is the tail of what was recorded, and a lookup finds the last
    value of it that is not newer: for every sequence of records at increasing
    moments. *)
Theorem series_is_tail n hist time : StronglySorted (λ p q, p.1 < q.1) hist →
  ts_values (foldl (λ s p, ts_record p.1 p.2 s) (TimeSeries_new n) hist) = lastn n hist ∧
  get_at time (foldl (λ s p, ts_record p.1 p.2 s) (TimeSeries_new n) hist)
    = default (S754_zero false) (snd <$> last (filter (λ p, p.1 <= time) (lastn n hist))).
Proof.
  intros Hs. assert (ts_values (foldl (λ s p, ts_record p.1 p.2 s) (TimeSeries_new n) hist) = lastn n hist ∧
    max_count (foldl (λ s p, ts_record p.1 p.2 s) (TimeSeries_new n) hist) = n) as [E _];
    [|split; [exact E|unfold get_at; by rewrite E]].
  revert Hs. induction hist as [|[t v] hist IH] using rev_ind; intros Hs; [done|].
  apply StronglySorted_app in Hs as (Hlt & Hs & _). destruct (IH Hs) as [E1 E2]. rewrite foldl_app.
  revert E1 E2. generalize (foldl (λ s p, ts_record p.1 p.2 s) (TimeSeries_new n) hist) as s. intros s E1 E2.
  cbn. rewrite E1, E2. split; [|done].
  rewrite btree_insert_last, pop_excess_lastn, lastn_snoc; [done|].
  apply Forall_forall. intros q Hq. apply (Hlt q (t, v)); [|by left]. eapply elem_of_sublist; [|apply sublist_drop]. exact Hq.
Qed.

(** ** Witness *)

Module GuiDemo.
Definition to_string (b : bool) : string := if b then "true" else "false".
Definition from_str (s : string) : option bool :=
  if String.eqb s "true" then Some true else if String.eqb s "false" then Some false else None.
Definition evs : list (cell_event (T:=bool)) := [OtherRead true "a"; CellSet false true].
Definition evs' : list (cell_event (T:=bool)) := [Evict "vpn_mode"; CellModify true negb; OtherWrite true (WriteFailed None) "a" "x"].
Definition files : gmap string string := {[ "a"%string := "1"%string ]}.
Definition run : prefs * StoreCell (T:=bool) :=
  foldl (cell_step to_string) (new_persistent from_str true "vpn_mode" false (pref_start files)) (evs ++ CellSet true true :: evs').
End GuiDemo.

Lemma settings_survive_restart_witness :
  cell_get GuiDemo.run.2 = false ∧
  cell_get (new_persistent GuiDemo.from_str true "vpn_mode" true (pref_start (pref_files GuiDemo.run.1))).2 = cell_get GuiDemo.run.2.
Proof.
  split; [vm_compute; reflexivity|].
  apply (settings_survive_restart GuiDemo.to_string GuiDemo.from_str) with (default_val := false) (files := GuiDemo.files)
    (evs := GuiDemo.evs) (ev := CellSet true true) (evs' := GuiDemo.evs'); [by intros []|reflexivity|reflexivity].
Defined.
