(* ===== verification/Listeners.v ===== *)
(** * Listeners that test connections in the background
    (libraries/sillad-conntest/src/lib.rs, libraries/sillad-sosistab3/src/listener.rs,
    libraries/sillad-native-tls/src/lib.rs)

    [ConnTestListener], [SosistabListener] and [TlsListener] have the same shape: a task accepts
    connections of the listener below and starts a task for each, which tests it
    and hands it to [accept] over a channel of capacity one.  They differ in the
    test, in the time a connection has for it, and in what an error of the lower
    listener does.  The order of events is arbitrary. *)
From Stdlib Require Import ZArith Lia.
From S2P Require Import Prelude Crypto SosState SosHandshake ConnTest.
Local Open Scope Z_scope.

(** What an error of the lower listener does: the accepting task goes on, it ends
    and the tasks of connections with it, or it ends alone. *)
Inductive after_error := GoOn | StopAll | StopAccepting.

Section background.
Context {L P S : Type}.
(** What the task of a connection does to the state the tasks share. *)
Context (test : S → L → S * res io_error P).
(** The time a connection has, in milliseconds, and what errors do. *)
Context (limit : option Z) (on_error : after_error).

Inductive job :=
| Testing (conn : L) (since : Z)
| Handing (pipe : P) (since : Z)     (* in [send_conn.send(conn).await] *)
| HandedOver
| Dropped.

(** [tests] is the history of tests that have ended, oldest first. *)
Record listener := mkListener {
  jobs : list job;
  channel : option (nat * P);
  accepted : list (nat * P);
  shared : S;
  running : bool;
  tests : list (nat * L)
}.

Definition listener_new (st : S) : listener := mkListener [] None [] st true [].

Inductive listener_event :=
| Arrive (conn : L) (now : Z)
| LowerError
| Tested (i : nat)
| Hand (i : nat)
| Expire (i : nat) (now : Z)
| Accept.

Definition set_job (i : nat) (j : job) (s : listener) : listener :=
  mkListener (<[i := j]> (jobs s)) (channel s) (accepted s) (shared s) (running s) (tests s).

(** With [StopAll] the executor of the tasks goes down with the accepting task. *)
Definition abandon (j : job) : job := match j with HandedOver => HandedOver | _ => Dropped end.
Definition stop (s : listener) : listener :=
  mkListener (map abandon (jobs s)) (channel s) (accepted s) (shared s) false (tests s).
Definition stop_accepting (s : listener) : listener :=
  mkListener (jobs s) (channel s) (accepted s) (shared s) false (tests s).

Definition since_of (j : job) : option Z :=
  match j with Testing _ t | Handing _ t => Some t | _ => None end.

(** [Err tt]: the event cannot happen now. *)
Definition listener_step (s : listener) (ev : listener_event) : res unit listener :=
  match ev with
  | Arrive conn now =>
      if running s then
        Ok (mkListener (jobs s ++ [Testing conn now]) (channel s) (accepted s) (shared s) true (tests s))
      else Err tt
  | LowerError =>
      if running s then Ok (match on_error with GoOn => s | StopAll => stop s | StopAccepting => stop_accepting s end)
      else Err tt
  | Tested i =>
      match jobs s !! i with
      | Some (Testing conn t) =>
          let '(st, r) := test (shared s) conn in
          let ended j := Ok (mkListener (<[i := j]> (jobs s)) (channel s) (accepted s) st (running s)
                               (tests s ++ [(i, conn)])) in
          match r with
          | Ok pipe => ended (Handing pipe t)
          | Err _ => ended Dropped
          | Panic => Panic
          end
      | _ => Err tt
      end
  | Hand i =>
      match jobs s !! i, channel s with
      | Some (Handing pipe _), None =>
          Ok (mkListener (<[i := HandedOver]> (jobs s)) (Some (i, pipe)) (accepted s) (shared s) (running s) (tests s))
      | _, _ => Err tt
      end
  | Expire i now =>
      match jobs s !! i ≫= since_of, limit with
      | Some t, Some d => if t + d <=? now then Ok (set_job i Dropped s) else Err tt
      | _, _ => Err tt
      end
  | Accept =>
      match channel s with
      | Some c => Ok (mkListener (jobs s) None (accepted s ++ [c]) (shared s) (running s) (tests s))
      | None => Err tt
      end
  end.

(** What a call of [accept] sees: nothing yet, a connection, or that nobody is left
    who could send one. *)
Definition poll_accept (closed : io_error) (s : listener) : option (res io_error P) :=
  match channel s with
  | Some (_, pipe) => Some (Ok pipe)
  | None => if running s || existsb (λ j, bool_decide (is_Some (since_of j))) (jobs s) then None else Some (Err closed)
  end.

Fixpoint listener_run (s : listener) (evs : list listener_event) : res unit listener :=
  match evs with [] => Ok s | ev :: evs => s ← listener_step s ev; listener_run s evs end.

Definition arrivals (evs : list listener_event) : list L :=
  omap (λ ev, match ev with Arrive conn _ => Some conn | _ => None end) evs.

(** ** What has come out *)

Definition state_after (st : S) (conns : list L) : S := foldl (λ st conn, fst (test st conn)) st conns.

(** The pipe comes from the test of the connection that arrived as number [i]. *)
Definition passed (st0 : S) (ls : list L) (tested : list (nat * L)) (i : nat) (pipe : P) : Prop :=
  ∃ k conn, ls !! i = Some conn ∧ tested !! k = Some (i, conn) ∧
    snd (test (state_after st0 (take k tested).*2) conn) = Ok pipe.

Definition out (s : listener) : list (nat * P) := accepted s ++ option_list (channel s).

Record listener_inv (st0 : S) (ls : list L) (s : listener) : Prop := mkListenerInv {
  li_length : length (jobs s) = length ls;
  li_testing : ∀ i conn t, jobs s !! i = Some (Testing conn t) → ls !! i = Some conn ∧ i ∉ (tests s).*1;
  li_handing : ∀ i pipe t, jobs s !! i = Some (Handing pipe t) → passed st0 ls (tests s) i pipe;
  li_out : ∀ i pipe, (i, pipe) ∈ out s → jobs s !! i = Some HandedOver ∧ passed st0 ls (tests s) i pipe;
  li_handed : ∀ i, jobs s !! i = Some HandedOver → i ∈ (out s).*1;
  li_nodup : NoDup (out s).*1;
  li_once : NoDup (tests s).*1;
  li_tests : Forall (λ r, ls !! r.1 = Some r.2) (tests s);
  li_shared : shared s = state_after st0 (tests s).*2
}.

Lemma passed_app st0 ls ls' ts ts' i pipe :
  passed st0 ls ts i pipe → passed st0 (ls ++ ls') (ts ++ ts') i pipe.
Proof.
  intros (k & conn & El & Et & Ep). exists k, conn.
  split_and!; [by apply lookup_app_l_Some..|]. rewrite take_app_le; [done|].
  apply lookup_lt_Some in Et. lia.
Qed.

Lemma insert_job {s : listener} {i j j' n} :
  <[i := j']> (jobs s) !! n = Some j → n = i ∧ j = j' ∨ n ≠ i ∧ jobs s !! n = Some j.
Proof. intros [(-> & <- & _)|[]]%list_lookup_insert_Some; auto. Qed.

Lemma inv_arrive st0 ls s conn now : listener_inv st0 ls s →
  listener_inv st0 (ls ++ [conn]) (mkListener (jobs s ++ [Testing conn now]) (channel s) (accepted s) (shared s) true (tests s)).
Proof.
  intros [I1 I2 I3 I4 I5 I6 I7 I8 I9].
  assert (∀ i pipe, passed st0 ls (tests s) i pipe → passed st0 (ls ++ [conn]) (tests s) i pipe) as Hp.
  { intros i pipe Hi. rewrite <-(app_nil_r (tests s)). by apply passed_app. }
  assert (∀ i j, (jobs s ++ [Testing conn now]) !! i = Some j →
    jobs s !! i = Some j ∨ i = length ls ∧ j = Testing conn now) as Hj.
  { intros i j [?|[Hi Hs]]%lookup_app_Some; [auto|]. right. apply list_lookup_singleton_Some in Hs as [Hn <-].
    split; [lia|done]. }
  split; cbn [jobs channel accepted shared running tests]; unfold out in *; cbn [accepted channel] in *; try done.
  - rewrite !length_app. simpl. lia.
  - intros i c t [Hi|[-> [= -> ->]]]%Hj.
    + destruct (I2 _ _ _ Hi). split; [by apply lookup_app_l_Some|done].
    + split; [by apply list_lookup_middle|]. intros ([i c] & Hi & Hin)%list_elem_of_fmap. simpl in Hi. subst i.
      rewrite Forall_forall in I8. apply I8, lookup_lt_Some in Hin. simpl in Hin. lia.
  - intros i p t [Hi|[_ ?]]%Hj; [|done]. eauto.
  - intros i p Hi. destruct (I4 _ _ Hi). split; [by apply lookup_app_l_Some|auto].
  - intros i [Hi|[_ ?]]%Hj; [|done]. eauto.
  - eapply Forall_impl; [done|]. intros r Hr. by apply lookup_app_l_Some.
Qed.

(** A job that has nothing to give ends. *)
Lemma inv_dropped st0 ls s i j : listener_inv st0 ls s → jobs s !! i = Some j → j ≠ HandedOver →
  listener_inv st0 ls (set_job i Dropped s).
Proof.
  intros [I1 I2 I3 I4 I5 I6 I7 I8 I9] Ej Hj. unfold set_job.
  split; cbn [jobs channel accepted shared running tests]; unfold out in *; cbn [accepted channel] in *; try done.
  - by rewrite length_insert.
  - intros n c t [[_ ?]|[_ ?]]%insert_job; [done|eauto].
  - intros n p t [[_ ?]|[_ ?]]%insert_job; [done|eauto].
  - intros n p Hn. destruct (I4 _ _ Hn). split; [|done]. rewrite list_lookup_insert_ne; [done|congruence].
  - intros n [[_ ?]|[_ ?]]%insert_job; [done|eauto].
Qed.

Lemma inv_tested st0 ls s i conn t j :
  listener_inv st0 ls s → jobs s !! i = Some (Testing conn t) →
  match j with Handing pipe _ => snd (test (shared s) conn) = Ok pipe | Dropped => True | _ => False end →
  listener_inv st0 ls (mkListener (<[i := j]> (jobs s)) (channel s) (accepted s) (fst (test (shared s) conn))
    (running s) (tests s ++ [(i, conn)])).
Proof.
  intros [I1 I2 I3 I4 I5 I6 I7 I8 I9] Ej Hj. destruct (I2 _ _ _ Ej) as [El Hi].
  assert (∀ n pipe, passed st0 ls (tests s) n pipe → passed st0 ls (tests s ++ [(i, conn)]) n pipe) as Hp.
  { intros n pipe Hn. rewrite <-(app_nil_r ls). by apply passed_app. }
  split; cbn [jobs channel accepted shared running tests]; unfold out in *; cbn [accepted channel] in *.
  - by rewrite length_insert.
  - intros n c t' [[_ <-]|[Hn Hs]]%insert_job; [done|]. destruct (I2 _ _ _ Hs). split; [done|].
    rewrite fmap_app. set_solver.
  - intros n p t' [[-> <-]|[_ Hs]]%insert_job; [|eauto]. exists (length (tests s)), conn.
    split_and!; [done|by apply list_lookup_middle|]. by rewrite take_app_length, <-I9.
  - intros n p Hn. destruct (I4 _ _ Hn). split; [|auto]. rewrite list_lookup_insert_ne; [done|congruence].
  - intros n [[_ <-]|[_ ?]]%insert_job; [done|eauto].
  - done.
  - rewrite fmap_app. apply NoDup_app. split_and!; [done|set_solver|apply NoDup_singleton].
  - apply Forall_app. split; [done|]. by apply Forall_singleton.
  - unfold state_after in *. by rewrite fmap_app, foldl_app, <-I9.
Qed.

Lemma inv_hand st0 ls s i pipe t :
  listener_inv st0 ls s → jobs s !! i = Some (Handing pipe t) → channel s = None →
  listener_inv st0 ls (mkListener (<[i := HandedOver]> (jobs s)) (Some (i, pipe)) (accepted s) (shared s) (running s) (tests s)).
Proof.
  intros [I1 I2 I3 I4 I5 I6 I7 I8 I9] Ej Ec. unfold out in *. rewrite Ec in *. simpl in I4, I5, I6. rewrite app_nil_r in *.
  split; cbn [jobs channel accepted shared running tests]; unfold out; cbn [accepted channel option_list]; try done.
  - by rewrite length_insert.
  - intros n c t' [[_ ?]|[_ ?]]%insert_job; [done|eauto].
  - intros n p t' [[_ ?]|[_ ?]]%insert_job; [done|eauto].
  - intros n p [Hn|[= -> ->]%list_elem_of_singleton]%elem_of_app.
    + destruct (I4 _ _ Hn). split; [|done]. rewrite list_lookup_insert_ne; [done|congruence].
    + split; [|eauto]. apply list_lookup_insert_eq. by eapply lookup_lt_Some.
  - intros n [[-> _]|[_ Hn]]%insert_job; rewrite fmap_app; set_solver.
  - rewrite fmap_app. apply NoDup_app. split_and!; [done| |apply NoDup_singleton].
    intros n (r & -> & Hr)%list_elem_of_fmap Hi%list_elem_of_singleton. destruct r as [n p]. simpl in *. subst n.
    destruct (I4 _ _ Hr). congruence.
Qed.

Lemma inv_stop st0 ls s : listener_inv st0 ls s → listener_inv st0 ls (stop s).
Proof.
  intros [I1 I2 I3 I4 I5 I6 I7 I8 I9]. unfold stop.
  assert (∀ i j, map abandon (jobs s) !! i = Some j → j = Dropped ∨ j = HandedOver ∧ jobs s !! i = Some HandedOver) as Hj.
  { intros i j ([] & -> & E)%list_lookup_fmap_Some; simpl; auto. }
  split; cbn [jobs channel accepted shared running tests]; unfold out in *; cbn [accepted channel] in *; try done.
  - by rewrite length_map.
  - by intros i c t [?|[? _]]%Hj.
  - by intros i p t [?|[? _]]%Hj.
  - intros i p Hi. destruct (I4 _ _ Hi) as [E Hp]. split; [|done]. by rewrite list_lookup_fmap, E.
  - intros i [?|[_ Hi]]%Hj; [done|eauto].
Qed.

Lemma listener_step_inv st0 ls s ev s' :
  listener_inv st0 ls s → listener_step s ev = Ok s' → listener_inv st0 (ls ++ arrivals [ev]) s'.
Proof.
  intros Hi E. destruct ev as [conn now| |i|i|i now|]; cbn [arrivals omap list_omap] in *; rewrite ?app_nil_r; simpl in E.
  - destruct (running s); [|done]. injection E as <-. by apply inv_arrive.
  - destruct (running s); [|done]. injection E as <-. destruct on_error; [done|by apply inv_stop|]. by destruct Hi.
  - destruct (jobs s !! i) as [[conn t| | |]|] eqn:Ej; try done.
    pose proof (λ j, inv_tested st0 ls s i conn t j Hi Ej) as Ht.
    destruct (test (shared s) conn) as [st [pipe|e|]] eqn:Et; simplify_eq/=.
    + by apply (Ht (Handing pipe t)).
    + by apply (Ht Dropped).
  - destruct (jobs s !! i) as [[|pipe t| |]|] eqn:Ej; try done. destruct (channel s) eqn:Ec; [done|].
    injection E as <-. by eapply inv_hand.
  - destruct (jobs s !! i) as [j|] eqn:Ej; [|done]. simpl in E.
    destruct (since_of j) as [t|] eqn:Es; [|done]. destruct limit as [d|]; [|done].
    destruct (t + d <=? now); [|done]. injection E as <-. eapply inv_dropped; [done..|]. by intros ->.
  - destruct (channel s) as [c|] eqn:Ec; [|done]. injection E as <-. destruct Hi as [I1 I2 I3 I4 I5 I6 I7 I8 I9].
    split; cbn [jobs channel accepted shared running tests]; unfold out in *; rewrite Ec in *;
      cbn [accepted channel option_list] in *; rewrite ?app_nil_r; done.
Qed.

Lemma listener_new_inv st0 : listener_inv st0 [] (listener_new st0).
Proof. split; try done; unfold out; simpl; [by intros ? ? ?%elem_of_nil|by constructor..]. Qed.

Lemma listener_run_inv st0 evs : ∀ ls s s',
  listener_inv st0 ls s → listener_run s evs = Ok s' → listener_inv st0 (ls ++ arrivals evs) s'.
Proof.
  induction evs as [|ev evs IH]; intros ls s s' Hi E; simpl in E.
  - injection E as <-. by rewrite app_nil_r.
  - apply bind_Ok in E as (s1 & E1 & E2). eapply listener_step_inv in E1; [|done].
    apply (IH _ _ _ E1) in E2. rewrite <-app_assoc in E2. by destruct ev.
Qed.

(** The events of one connection and the calls of [accept]. *)
Definition own (i : nat) (ev : listener_event) : Prop := ev = Tested i ∨ ev = Hand i ∨ ev = Accept.

(** Job [i] has the pipe, or its test yields it. *)
Definition yields (s : listener) (i : nat) (pipe : P) : Prop :=
  (∃ t, jobs s !! i = Some (Handing pipe t)) ∨
  ∃ conn t, jobs s !! i = Some (Testing conn t) ∧ snd (test (shared s) conn) = Ok pipe.

Lemma hand_accept s i pipe t : jobs s !! i = Some (Handing pipe t) → channel s = None →
  ∃ s', listener_run s [Hand i; Accept] = Ok s' ∧ (i, pipe) ∈ accepted s'.
Proof. intros E Ec. simpl. rewrite E, Ec. simpl. eexists. split; [done|]. simpl. set_solver. Qed.

Lemma handing_accepted s i pipe t : jobs s !! i = Some (Handing pipe t) →
  ∃ evs s', Forall (own i) evs ∧ listener_run s evs = Ok s' ∧ (i, pipe) ∈ accepted s'.
Proof.
  unfold own. intros E. destruct (channel s) as [c|] eqn:Ec.
  - set (s1 := mkListener (jobs s) None (accepted s ++ [c]) (shared s) (running s) (tests s)).
    destruct (hand_accept s1 i pipe t E eq_refl) as (s' & Hr & Hin).
    exists [Accept; Hand i; Accept], s'. split_and!; [by repeat constructor; auto| |done].
    assert (listener_step s Accept = Ok s1) as Es by (simpl; by rewrite Ec).
    cbn [listener_run]. rewrite Es. exact Hr.
  - destruct (hand_accept s i pipe t E Ec) as (s' & Hr & Hin).
    exists [Hand i; Accept], s'. split_and!; [by repeat constructor; auto|done..].
Qed.

Lemma yields_accepted s i pipe : yields s i pipe →
  ∃ evs s', Forall (own i) evs ∧ listener_run s evs = Ok s' ∧ (i, pipe) ∈ accepted s'.
Proof.
  intros [[t E]|(conn & t & E & Et)]; [by eapply handing_accepted|].
  destruct (test (shared s) conn) as [st r] eqn:Eq. simpl in Et. subst r.
  set (s1 := mkListener (<[i := Handing pipe t]> (jobs s)) (channel s) (accepted s) st (running s) (tests s ++ [(i, conn)])).
  destruct (handing_accepted s1 i pipe t) as (evs & s' & Ho & Hr & Hin).
  { apply list_lookup_insert_eq. by eapply lookup_lt_Some. }
  exists (Tested i :: evs), s'. split; [constructor; [by left|done]|]. split; [|done].
  cbn [listener_run listener_step]. by rewrite E, Eq.
Qed.

(** What comes out of a background listener.  In every order of events, each
    connection of the listener below is handed out at most once and only after
    its test has passed, each is tested at most once and the tests see the shared
    state in the order in which they end; and no connection can hold up another:
    one whose test passes reaches the application with nothing but its own steps
    and calls of [accept]. *)
Theorem background_listener st0 evs s : listener_run (listener_new st0) evs = Ok s →
  NoDup (accepted s).*1 ∧ NoDup (tests s).*1 ∧
  (∀ i pipe, (i, pipe) ∈ accepted s → passed st0 (arrivals evs) (tests s) i pipe) ∧
  (∀ i pipe, yields s i pipe →
     ∃ evs' s', Forall (own i) evs' ∧ listener_run s evs' = Ok s' ∧ (i, pipe) ∈ accepted s').
Proof.
  intros [_ _ _ I4 _ I6 I7 _ _]%(listener_run_inv st0 _ [] _ _ (listener_new_inv st0)).
  split_and!; [|done| |apply yields_accepted].
  - unfold out in I6. rewrite fmap_app in I6. by apply NoDup_app in I6 as [? _].
  - intros i pipe Hi. apply I4. unfold out. set_solver.
Qed.
End background.
Arguments listener : clear implicits.

(** The accepting task and every connection that is under way keep [accept]
    waiting: it fails only when no connection can come any more. *)
Lemma accept_fails_last {L P S} test limit on_error (closed e : io_error) (s : listener L P S) :
  poll_accept closed s = Some (Err e) → ∀ i pipe, ¬ yields test s i pipe ∧
  ∀ conn now, listener_step test limit on_error s (Arrive conn now) = Err tt.
Proof.
  unfold poll_accept. destruct (channel s) as [[]|]; [done|]. destruct (running s) eqn:Er; [done|].
  cbn [orb]. destruct (existsb _ _) eqn:Ex; [done|]. intros _ i pipe. split; [|intros; cbn; by rewrite Er].
  assert (∀ j, jobs s !! i = Some j → since_of j = None) as Hn.
  { intros j Ej. destruct (since_of j) eqn:Es; [|done]. exfalso. apply not_true_iff_false in Ex. apply Ex, existsb_exists.
    exists j. split; [by eapply list_elem_of_In, list_elem_of_lookup_2|]. rewrite Es. by apply bool_decide_eq_true. }
  by intros [[t E%Hn]|(conn & t & E%Hn & _)].
Qed.

(** ** Connection tests *)

Definition conntest_task (_ : unit) (input : list byte) : unit * res io_error (list byte) :=
  (tt, snd (conntest_serve (S (length input)) input)).
Definition conntest_closed : io_error := IoError BrokenPipe "background task is done".
Definition conntest_listener_step := listener_step conntest_task (Some 30000) GoOn.
Definition conntest_listener_run := listener_run conntest_task (Some 30000) GoOn.

Lemma conntest_serve_total fuel : ∀ input, (length input < fuel)%nat → snd (conntest_serve fuel input) ≠ Panic.
Proof.
  induction fuel as [|fuel IH]; intros input Hl; [lia|]. simpl.
  destruct (read_exact 2 input) as [[b rest]| |] eqn:E; [|done|by unfold read_exact in E; case_decide].
  apply read_exact_Ok in E as [-> Hb]. destruct (be_val b =? 0); [done|].
  destruct (read_exact _ rest) as [[p rest']| |] eqn:E; [|done|by unfold read_exact in E; case_decide].
  apply read_exact_Ok in E as [-> Hp]. rewrite !length_app in Hl. specialize (IH rest').
  destruct (conntest_serve fuel rest'). apply IH. lia.
Qed.

(** No peer can bring down a listener that tests connections. *)
Lemma conntest_listener_total evs : ∀ s, conntest_listener_run s evs ≠ Panic.
Proof.
  induction evs as [|ev evs IH]; intros s; [done|]. unfold conntest_listener_run in *. simpl.
  destruct (listener_step _ _ _ s ev) as [s'| |] eqn:E; [apply IH|done|]. exfalso.
  destruct ev as [conn now| |i|i|i now|]; cbn [listener_step] in E; try (by repeat case_match).
  destruct (jobs s !! i) as [[conn t| | |]|]; try done.
  assert (snd (conntest_task (shared s) conn) ≠ Panic) as Hn by (apply conntest_serve_total; lia).
  by destruct (conntest_task (shared s) conn) as [? []].
Qed.

(** A connection that has passed its test is closed when the application does not
    take it within the thirty seconds. *)
Example tested_then_dropped :
  conntest_listener_run (listener_new tt)
    [Arrive [x00; x00] 0; Arrive [x00; x00] 1; Tested 0; Tested 1; Hand 0; Expire 1 30001]
  = Ok (mkListener [HandedOver; Dropped] (Some (0%nat, [])) [] tt true [(0%nat, [x00; x00]); (1%nat, [x00; x00])]).
Proof. reflexivity. Qed.

(** ** TLS *)

Section tls.
(** [TlsAcceptor::accept]; and what a pipe says of its peer. *)
Context {L T : Type} (tls_accept : L → res io_error T) (remote_addr : L → option string).

Definition tls_task (_ : unit) (raw_conn : L) : unit * res io_error (T * option string) :=
  (tt, tls_stream ← tls_accept raw_conn; Ok (tls_stream, remote_addr raw_conn)).
Definition tls_closed : io_error := IoError Other "Underlying listener failure".
Definition tls_listener_step := listener_step tls_task None StopAccepting.
Definition tls_listener_run := listener_run tls_task None StopAccepting.

(** A failure of the listener below costs none of the connections that are under
    way: each still reaches the application. *)
Lemma tls_failure_spares s s' i pipe : yields tls_task s i pipe → tls_listener_step s LowerError = Ok s' →
  ∃ evs s'', Forall (own i) evs ∧ tls_listener_run s' evs = Ok s'' ∧ (i, pipe) ∈ accepted s''.
Proof.
  intros Hy E. unfold tls_listener_step in E. cbn in E. destruct (running s); [|done]. injection E as <-.
  by apply yields_accepted.
Qed.
End tls.

(** ** Sosistab3 *)

Section sosistab.
Context `{AeadLaws} `{Blake3Laws} `{X25519Laws}.
Context (c : Cookie).

Definition sosistab_closed : io_error := IoError BrokenPipe "listener has shut down for some reason".
Definition sosistab_listener_step := listener_step (listen_conn c) None StopAll.
Definition sosistab_listener_run := listener_run (listen_conn c) None StopAll.

(** Here it costs all of them. *)
Lemma sosistab_failure_drops s s' i pipe : sosistab_listener_step s LowerError = Ok s' →
  ¬ yields (listen_conn c) s' i pipe ∧ ∀ conn now, sosistab_listener_step s' (Arrive conn now) = Err tt.
Proof.
  intros E. unfold sosistab_listener_step in *. cbn in E. destruct (running s); [|done]. injection E as <-. split; [|done].
  assert (∀ j, jobs (stop s) !! i = Some j → since_of j = None) as Hn.
  { intros j (j' & -> & _)%list_lookup_fmap_Some. by destruct j'. }
  by intros [[t E%Hn]|(conn & t & E%Hn & _)].
Qed.

Lemma listen_all_after d xs : state_after (listen_conn c) d xs = listen_all c d xs.
Proof. revert d. induction xs as [|x xs IH]; intros d; [done|]. apply IH. Qed.

Lemma listen_all_app d xs ys : listen_all c d (xs ++ ys) = listen_all c (listen_all c d xs) ys.
Proof. by rewrite <-!listen_all_after; unfold state_after; rewrite foldl_app. Qed.

Lemma listen_all_expiry xs : ∀ d, expiry (listen_all c d xs) = expiry d.
Proof.
  induction xs as [|x xs IH]; intros d; [done|]. simpl. rewrite IH. unfold listen_conn.
  repeat case_match; simpl; rewrite ?Dedup_insert_expiry; done.
Qed.

Definition in_time_order (xs : list Conn) : Prop :=
  ∀ k k' a b, (k <= k')%nat → xs !! k = Some a → xs !! k' = Some b → checked_at a <= checked_at b.

(** Two tests that passed with one handshake are a minute apart. *)
Lemma same_handshake_apart (xs : list Conn) k1 k2 x y :
  (k1 < k2)%nat → xs !! k1 = Some x → xs !! k2 = Some y →
  in_time_order xs →
  is_ok (snd (listen_conn c (listen_all c listen_dedup (take k1 xs)) x)) = true →
  is_ok (snd (listen_conn c (listen_all c listen_dedup (take k2 xs)) y)) = true →
  take 140 (incoming y) = take 140 (incoming x) → checked_at x + 60 * secs <= checked_at y.
Proof.
  intros Hk Ex Ey Hs Hx Hy Hsame. destruct (decide (checked_at x + 60 * secs <= checked_at y)) as [|Hlt]; [done|].
  exfalso. apply take_drop_middle in Ex as Exs. set (ms := take (k2 - S k1) (drop (S k1) xs)).
  assert (take k2 xs = take k1 xs ++ x :: ms) as Et.
  { rewrite <-Exs at 1. rewrite take_app, take_take, length_take.
    apply lookup_lt_Some in Ex, Ey. rewrite Nat.min_r by lia. f_equal.
    replace (k2 - k1 `min` length xs)%nat with (S (k2 - S k1)) by lia. done. }
  assert (Forall (λ z, checked_at x <= checked_at z ∧ checked_at z <= checked_at y) ms) as Hms.
  { rewrite Forall_lookup. intros n z Hz. apply lookup_take_Some in Hz as [Hz Hn].
    rewrite lookup_drop in Hz.
    split; [apply (Hs k1 (S k1 + n)%nat); [lia|done..]|]. apply (Hs (S k1 + n)%nat k2); [lia|done..]. }
  rewrite Et, listen_all_app in Hy. simpl in Hy.
  rewrite (replay_refused c _ x y ms) in Hy; [done| |done..|].
  - by rewrite listen_all_expiry.
  - assert (checked_at x <= checked_at y) by (apply (Hs k1 k2); [lia|done..]).
    constructor; [lia|]. eapply Forall_impl; [done|]. simpl. lia.
Qed.

Lemma passed_listen ls ts i pipe :
  passed (listen_conn c) listen_dedup ls ts i pipe →
  ∃ k x, ls !! i = Some x ∧ ts !! k = Some (i, x) ∧
    is_ok (snd (listen_conn c (listen_all c listen_dedup (take k ts.*2)) x)) = true.
Proof.
  intros (k & x & El & Et & Ep). exists k, x. split_and!; [done..|].
  rewrite listen_all_after, <-fmap_take in *. by rewrite Ep.
Qed.

(** C19: a recorded handshake opens no second connection.  Let any connections
    arrive at a sosistab3 listener in any order, with their tasks interleaved in
    any way, the clock not running backwards between tests.  If the application
    is handed two connections that begin with the same handshake, then at least
    sixty seconds lie between their tests. *)
Theorem replays_kept_out evs s i j p q x y :
  sosistab_listener_run (listener_new listen_dedup) evs = Ok s → in_time_order (tests s).*2 →
  (i, p) ∈ accepted s → (j, q) ∈ accepted s → i ≠ j →
  arrivals evs !! i = Some x → arrivals evs !! j = Some y →
  take 140 (incoming y) = take 140 (incoming x) → 60 * secs <= Z.abs (checked_at y - checked_at x).
Proof.
  intros [_ _ _ I4 _ _ _ _ _]%(listener_run_inv _ _ _ listen_dedup _ [] _ _ (listener_new_inv _ _)) Ht Hi Hj Hne Ex Ey Hsame.
  assert (∀ n r, (n, r) ∈ accepted s → passed (listen_conn c) listen_dedup (arrivals evs) (tests s) n r) as Hp.
  { intros n r Hn. apply I4. unfold out. set_solver. }
  destruct (passed_listen _ _ _ _ (Hp _ _ Hi)) as (k1 & x' & Ex' & E1 & O1).
  destruct (passed_listen _ _ _ _ (Hp _ _ Hj)) as (k2 & y' & Ey' & E2 & O2). simplify_eq.
  assert ((tests s).*2 !! k1 = Some x) as F1 by (by rewrite list_lookup_fmap, E1).
  assert ((tests s).*2 !! k2 = Some y) as F2 by (by rewrite list_lookup_fmap, E2).
  destruct (Nat.lt_trichotomy k1 k2) as [Hk|[->|Hk]]; [|congruence|].
  - pose proof (same_handshake_apart _ k1 k2 x y Hk F1 F2 Ht O1 O2 Hsame). lia.
  - pose proof (same_handshake_apart _ k2 k1 y x Hk F2 F1 Ht O2 O1 (eq_sym Hsame)). lia.
Qed.
End sosistab.

(** ** Concrete runs *)
Import Toy HandshakeDemo.

Module ListenerDemo.
(** A connection that has not finished its test while a second one is served. *)
Definition tests_run : list (listener_event (L:=list byte)) :=
  [Arrive [x00; x01; xaa; x00] 0; Arrive [x00; x00; xbb] 5; Tested 1; Hand 1].
(** The same handshake again, after the filter has forgotten it. *)
Definition replay_conns : list Conn := [conn x05 7; conn x06 8; conn x07 (61 * secs); conn x05 (62 * secs)].
Definition replay_run : list (listener_event (L:=Conn)) :=
  map (λ x, Arrive x 0) replay_conns ++
  [Tested 0; Hand 0; Accept; Tested 1; Tested 2; Tested 3; Hand 3; Accept].
End ListenerDemo.
Import ListenerDemo.

Lemma replay_conns_ordered : in_time_order replay_conns.
Proof.
  assert (∀ k k' a b, (k <= k')%nat → [7; 8; 61 * secs; 62 * secs] !! k = Some a →
    [7; 8; 61 * secs; 62 * secs] !! k' = Some b → a <= b) as Ht.
  { unfold secs. intros k k' a b Hk Ha Hb. assert (k' < 4)%nat by (by apply lookup_lt_Some in Hb).
    destruct k as [|[|[|[|]]]], k' as [|[|[|[|]]]]; try lia; simpl in Ha, Hb; simplify_eq; lia. }
  intros k k' a b Hk Ea Eb. apply (Ht k k'); [done|..].
  - change ((checked_at <$> replay_conns) !! k = Some (checked_at a)). by rewrite list_lookup_fmap, Ea.
  - change ((checked_at <$> replay_conns) !! k' = Some (checked_at b)). by rewrite list_lookup_fmap, Eb.
Qed.

Lemma background_listener_witness :
  ∃ s, conntest_listener_run (listener_new tt) tests_run = Ok s ∧ NoDup (tests s).*1 ∧ poll_accept conntest_closed s = Some (Ok [xbb]).
Proof.
  eexists. split; [reflexivity|]. split; [|reflexivity].
  exact (proj1 (proj2 (background_listener conntest_task (Some 30000) GoOn tt tests_run _ eq_refl))).
Defined.

Lemma replays_kept_out_witness :
  ∃ s p q, sosistab_listener_run cookie (listener_new listen_dedup) replay_run = Ok s ∧
    accepted s = [(0%nat, p); (3%nat, q)] ∧ 60 * secs <= Z.abs (checked_at (conn x05 (62 * secs)) - checked_at (conn x05 7)).
Proof.
  destruct (sosistab_listener_run cookie (listener_new listen_dedup) replay_run) as [s| |] eqn:E;
    [|vm_compute in E; discriminate..].
  assert (∃ p q, accepted s = [(0%nat, p); (3%nat, q)] ∧ (tests s).*2 = replay_conns) as (p & q & Ea & Et).
  { vm_compute in E. injection E as <-. eexists _, _. split; reflexivity. }
  exists s, p, q. split_and!; [done..|].
  apply (replays_kept_out cookie replay_run s 0 3 p q _ _ E); rewrite ?Ea; [| |by right; left|done|reflexivity..].
  - rewrite Et. apply replay_conns_ordered.
  - by left.
Defined.
