(* ===== verification/Stack.v ===== *)
(** * Stacks of pipes

    What a client and an exit build between them (get_dialer.rs, listen.rs): frames
    of the multiplexer over, where the pipe has no key of its own, the client-exit
    encryption, over connection tests, over sosistab3, over TCP.  Every layer is a
    channel between a writer and a reader, given by the models of its two ends;
    channels compose, and a stack of reliable channels is reliable.  So the frames
    one multiplexer hands to its writer reach the other as through the FIFO that
    [MuxSystem] assumes. *)
From Stdlib Require Import ZArith Lia.
From S2P Require Import Prelude Frame Crypto Protocol Cache Dialer Routes SosState SosPipe CryptPipe ConnTest.
Local Open Scope Z_scope.

(** ** Channels *)

(** [ch_send data wire]: writing [data] can put [wire] on the layer below.
    [ch_recv wire data drained]: when [wire] has arrived, a reader can have read
    [data]; [drained] says that nothing more will come out of it. *)
Record channel := mkChannel {
  ch_send : list byte → list byte → Prop;
  ch_recv : list byte → list byte → bool → Prop
}.

Class Reliable (c : channel) : Prop := {
  reliable_prefix data wire arrived out drained :
    ch_send c data wire → arrived `prefix_of` wire → ch_recv c arrived out drained → out `prefix_of` data;
  reliable_all data wire out : ch_send c data wire → ch_recv c wire out true → out = data
}.

(** [upper] over [lower]. *)
Definition over (upper lower : channel) : channel := mkChannel
  (λ data wire, ∃ mid, ch_send upper data mid ∧ ch_send lower mid wire)
  (λ wire out drained, ∃ mid d1 d2, ch_recv lower wire mid d2 ∧ ch_recv upper mid out d1 ∧ drained = d1 && d2).

#[export] Instance over_reliable upper lower `{!Reliable upper, !Reliable lower} : Reliable (over upper lower).
Proof.
  split.
  - intros data wire arrived out drained (mid & Hs1 & Hs2) Ha (mid' & d1 & d2 & Hr2 & Hr1 & _).
    eapply (reliable_prefix (c:=upper)); [done| |done]. by eapply (reliable_prefix (c:=lower)).
  - intros data wire out (mid & Hs1 & Hs2) (mid' & d1 & d2 & Hr2 & Hr1 & Hd).
    symmetry in Hd. apply andb_true_iff in Hd as [-> ->].
    assert (mid' = mid) as -> by (by eapply (reliable_all (c:=lower))). by eapply (reliable_all (c:=upper)).
Qed.

(** ** The bottom: a stream that delivers in order *)

Definition tcp_channel : channel := mkChannel (λ data wire, wire = data)
  (λ wire out drained, out `prefix_of` wire ∧ (drained = true → out = wire)).

#[export] Instance tcp_reliable : Reliable tcp_channel.
Proof.
  split; cbn.
  - intros data wire arrived out drained -> Ha [Ho _]. by etrans.
  - intros data wire out -> [_ Ho]. by apply Ho.
Qed.

(** ** Connection tests *)

(** From the dialer to the listener: after its [pings] the dialer writes the data. *)
Definition conntest_up (pings : list (list byte)) : channel := mkChannel
  (λ data wire, wire = conntest_sent pings ++ data)
  (λ wire out drained,
     match snd (conntest_serve (S (length wire)) wire) with
     | Ok rest => out `prefix_of` rest ∧ (drained = true → out = rest)
     | _ => out = [] ∧ drained = false
     end).
(** And back: the echoes, then the data. *)
Definition conntest_down (pings : list (list byte)) : channel := mkChannel
  (λ data wire, wire = concat pings ++ data)
  (λ wire out drained,
     match snd (conntest_dial pings wire) with
     | Ok rest => out `prefix_of` rest ∧ (drained = true → out = rest)
     | _ => out = [] ∧ drained = false
     end).

(** ** The reader of a beginning *)

Lemma prefix_app_cases {A} (a b w : list A) : w `prefix_of` a ++ b →
  (∃ w', w = a ++ w' ∧ w' `prefix_of` b) ∨ (length w < length a)%nat.
Proof.
  intros [k E]. destruct (decide (length w < length a)%nat) as [|Hl]; [by right|]. left.
  exists (drop (length a) w). assert (take (length a) w = a) as Et.
  { apply (f_equal (take (length a))) in E. rewrite take_app_length, take_app_le in E by lia. done. }
  split; [rewrite <-Et at 1; by rewrite take_drop|]. exists k.
  apply (f_equal (drop (length a))) in E. rewrite drop_app_length, drop_app_le in E by lia. done.
Qed.

Lemma read_exact_prefix n a b w : length a = n → w `prefix_of` a ++ b →
  (∃ w', w = a ++ w' ∧ w' `prefix_of` b ∧ read_exact n w = Ok (a, w')) ∨ read_exact n w = Err eof_error.
Proof.
  intros Hn [(w' & -> & Hw)|Hl]%prefix_app_cases; [left|right].
  - exists w'. split_and!; [done..|]. by apply read_exact_app.
  - apply read_exact_short. lia.
Qed.

Lemma read_prepend_prefix m x w : Z.of_nat (length m) < 2 ^ 32 → w `prefix_of` write_prepend_length m ++ x →
  read_prepend_length w = Err eof_error ∨
  ∃ rest, w = write_prepend_length m ++ rest ∧ read_prepend_length w = Ok (m, rest) ∧ rest `prefix_of` x.
Proof.
  intros Hm Hw. unfold read_prepend_length, write_prepend_length in *. rewrite <-app_assoc in Hw.
  destruct (read_exact_prefix 4 _ _ w ltac:(apply length_be_bytes) Hw) as [(w1 & -> & Hw1 & ->)| ->]; [|by left].
  cbn [mbind res_bind]. rewrite cast_u_small by lia. rewrite be_val_small by (cbn; lia). rewrite Nat2Z.id.
  destruct (read_exact_prefix (length m) m x w1 eq_refl Hw1) as [(w2 & -> & Hw2 & ->)| ->]; [right|by left].
  exists w2. by rewrite <-app_assoc.
Qed.

Lemma conntest_serve_prefix pings data : Forall ping_ok pings → ∀ fuel w, w `prefix_of` conntest_sent pings ++ data →
  (∃ rest, snd (conntest_serve fuel w) = Ok rest ∧ w = conntest_sent pings ++ rest ∧ rest `prefix_of` data) ∨
  ∀ rest, snd (conntest_serve fuel w) ≠ Ok rest.
Proof.
  induction 1 as [|p pings Hp _ IH]; intros [|fuel] w Hw; try (by right).
  - cbn [conntest_serve]. unfold conntest_sent in *. cbn [map concat app] in *.
    destruct (read_exact_prefix 2 [x00; x00] data w eq_refl Hw) as [(w' & -> & Hw' & ->)| ->]; [left|by right].
    change (be_val [x00; x00]) with 0. cbn. eauto.
  - cbn [conntest_serve]. unfold conntest_sent, ping_msg in *. cbn [map concat] in *. rewrite <-!app_assoc in Hw.
    destruct (read_exact_prefix 2 (be_bytes 2 (Z.of_nat (length p))) _ w ltac:(apply length_be_bytes) Hw)
      as [(w1 & -> & Hw1 & ->)| ->]; [|by right].
    unfold ping_ok in Hp. rewrite be_val_small by (cbn; lia). destruct (Z.eqb_spec (Z.of_nat (length p)) 0); [lia|].
    rewrite Nat2Z.id.
    destruct (read_exact_prefix (length p) p _ w1 eq_refl Hw1) as [(w2 & -> & Hw2 & ->)| ->]; [|by right].
    rewrite app_assoc in Hw2. destruct (IH fuel w2 Hw2) as [(rest & E & -> & Hr)|Hn].
    + left. exists rest. destruct (conntest_serve fuel _) as [out r]. cbn in *. split_and!; [done| |done].
      by rewrite <-!app_assoc.
    + right. intros rest. destruct (conntest_serve fuel w2) as [out r]. apply Hn.
Qed.

Lemma conntest_up_reliable pings : Forall ping_ok pings → Reliable (conntest_up pings).
Proof.
  intros Hp. split; cbn [ch_send ch_recv conntest_up].
  - intros data wire arrived out drained -> Ha.
    destruct (conntest_serve_prefix pings data Hp (S (length arrived)) arrived Ha) as [(rest & E & _ & Hr)|Hn].
    + rewrite E. intros [Ho _]. by etrans.
    + destruct (snd _) as [rest| |]; [by destruct (Hn rest)|..]; intros [-> _]; apply prefix_nil.
  - intros data wire out ->.
    destruct (conntest_serve_prefix pings data Hp (S (length (conntest_sent pings ++ data))) _ ltac:(reflexivity))
      as [(rest & E & Ew & _)|Hn].
    + rewrite E. intros [_ Ho]. rewrite Ho by done. by apply app_inv_head in Ew.
    + destruct (snd _) as [rest| |]; [by destruct (Hn rest)|..]; by intros [_ ?].
Qed.

Lemma conntest_dial_prefix pings data : ∀ w, w `prefix_of` concat pings ++ data →
  (∃ rest, snd (conntest_dial pings w) = Ok rest ∧ w = concat pings ++ rest ∧ rest `prefix_of` data) ∨
  ∀ rest, snd (conntest_dial pings w) ≠ Ok rest.
Proof.
  induction pings as [|p pings IH]; intros w Hw; cbn [conntest_dial concat] in *; [left; eauto|].
  rewrite <-app_assoc in Hw.
  destruct (read_exact_prefix (length p) p _ w eq_refl Hw) as [(w1 & -> & Hw1 & ->)| ->]; [|by right].
  rewrite decide_True by done. destruct (IH w1 Hw1) as [(rest & E & -> & Hr)|Hn].
  - left. exists rest. destruct (conntest_dial pings _). cbn in *. by rewrite app_assoc.
  - right. intros rest. specialize (Hn rest). by destruct (conntest_dial pings w1).
Qed.

#[export] Instance conntest_down_reliable pings : Reliable (conntest_down pings).
Proof.
  split; cbn [ch_send ch_recv conntest_down].
  - intros data wire arrived out drained -> Ha.
    destruct (conntest_dial_prefix pings data arrived Ha) as [(rest & E & _ & Hr)|Hn].
    + rewrite E. intros [Ho _]. by etrans.
    + destruct (snd _) as [rest| |]; [by destruct (Hn rest)|..]; intros [-> _]; apply prefix_nil.
  - intros data wire out ->.
    destruct (conntest_dial_prefix pings data (concat pings ++ data) ltac:(reflexivity)) as [(rest & E & Ew & _)|Hn].
    + rewrite E. intros [_ Ho]. rewrite Ho by done. by apply app_inv_head in Ew.
    + destruct (snd _) as [rest| |]; [by destruct (Hn rest)|..]; by intros [_ ?].
Qed.

Section crypto_layers.
Context `{AeadLaws} `{Blake3}.

(** ** The client-exit encryption *)

Definition crypt_channel (key : list byte) : channel := mkChannel
  (λ data wire, ∃ reads, Forall (λ c, Z.of_nat (length c) <= 8192) reads ∧ concat reads = data ∧
     write_task key 0 reads = Ok wire)
  (λ wire out drained, ∃ all r, read_task (S (length wire)) key 0 wire = (all, r) ∧ out `prefix_of` all ∧
     (drained = true → out = all)).

Lemma read_task_prefix key reads : ∀ n w arrived fuel,
  Forall (λ c, Z.of_nat (length c) <= 8192) reads → write_task key n reads = Ok w → arrived `prefix_of` w →
  fst (read_task fuel key n arrived) `prefix_of` concat reads.
Proof.
  induction reads as [|c reads IH]; intros n w arrived fuel Hc Hw Ha.
  - injection Hw as <-. apply prefix_nil_inv in Ha as ->. by destruct fuel.
  - apply write_task_cons in Hw as (_ & out & Ho & ->). apply Forall_cons in Hc as [Hc1 Hc].
    destruct fuel as [|fuel]; [apply prefix_nil|]. cbn [read_task concat].
    set (m := aead_encrypt key (nonce_bytes n) c) in *.
    assert (length m = length c + 16)%nat as Lm by apply length_aead_encrypt.
    destruct (read_prepend_prefix m out arrived ltac:(lia) Ha) as [->|(rest & -> & -> & Hr)]; [apply prefix_nil|].
    + unfold m. rewrite aead_roundtrip. specialize (IH (n + 1) out rest fuel Hc Ho Hr).
      destruct (read_task fuel key (n + 1) rest). cbn in *. by apply prefix_app.
Qed.

#[export] Instance crypt_reliable key : Reliable (crypt_channel key).
Proof.
  split; cbn [ch_send ch_recv crypt_channel].
  - intros data wire arrived out drained (reads & Hc & <- & Hw) Ha (all & r & Er & Ho & _).
    pose proof (read_task_prefix key reads 0 wire arrived (S (length arrived)) Hc Hw Ha) as Hp. rewrite Er in Hp. by etrans.
  - intros data wire out (reads & Hc & <- & Hw) (all & r & Er & _ & Ho). rewrite Ho by done.
    rewrite (read_write_tasks key reads 0 wire) in Er; [by simplify_eq|done..|].
    pose proof (write_task_length _ _ _ _ Hw). lia.
Qed.

(** ** Sosistab3 *)

Context (front : list byte → nat).

(** [st] is the state of the writer, [st'] that of the reader. *)
Definition sos_channel (st st' : State) : channel := mkChannel
  (λ data wire, ∃ l p', Forall (λ '(buf, r, _), call_ok buf r) l ∧
     send_nonce st + 4 * Z.of_nat (length l) < 2 ^ 64 ∧
     concat (map (λ '(buf, _, _), buf) l) = data ∧ writes (SosistabPipe_new st) l = Some (p', wire))
  (λ wire out drained, ∃ blens evs r q wire', reads front blens evs wire (SosistabPipe_new st') = (out, r, q, wire') ∧
     (drained = true → wire' = [] ∧ read_buf q = [])).

Lemma sos_recv st st' blens evs wire out r q wire' drained :
  reads front blens evs wire (SosistabPipe_new st') = (out, r, q, wire') →
  (drained = true → wire' = [] ∧ read_buf q = []) → ch_recv (sos_channel st st') wire out drained.
Proof. intros Er Hd. by exists blens, evs, r, q, wire'. Qed.

(** Writer and reader have the same key and counter, as [handshake_agreement] says. *)
Definition crossed (st st' : State) : Prop :=
  recv_aead st' = send_aead st ∧ recv_nonce st' = send_nonce st ∧ 0 <= send_nonce st.

Lemma sos_reliable st st' : crossed st st' → Reliable (sos_channel st st').
Proof.
  intros (Ek & En & Hn). split; cbn [ch_send ch_recv sos_channel].
  - intros data wire arrived out drained (l & p' & Hl & Hb & <- & Hw) [tail ->] (blens & evs & r & q & wire' & Er & _).
    by destruct (sosistab_delivers front st st' l p' arrived tail blens evs out r q wire' Ek En Hn Hb Hl Hw Er).
  - intros data wire out (l & p' & Hl & Hb & <- & Hw) (blens & evs & r & q & wire' & Er & Hd).
    destruct (Hd eq_refl) as [-> Hq]. rewrite <-(app_nil_r wire) in Hw.
    destruct (sosistab_delivers front st st' l p' wire [] blens evs out r q [] Ek En Hn Hb Hl Hw Er) as (_ & Ha & _). auto.
Qed.

(** The two ends of a handshake, which share a secret, are such a pair both ways. *)
Lemma State_new_crossed ss ps ps' :
  crossed (State_new ss false ps) (State_new ss true ps') ∧ crossed (State_new ss true ps) (State_new ss false ps').
Proof. unfold crossed. cbn. split_and!; done. Qed.

(** ** A session's stack *)

(** What a layer of a dialed pipe has become once its handshake is through: the
    payloads of the test, the states of the two ends, or what the TLS library
    provides in either direction. *)
Inductive session_layer :=
| SessTest (pings : list (list byte))
| SessTls (up down : channel)
| SessSos (cli srv : State).

Definition established (l : client_layer) (s : session_layer) : Prop :=
  match l, s with
  | CltConnTest n, SessTest pings => Z.of_nat (length pings) = n ∧ Forall ping_ok pings
  | CltTls _ _, SessTls up down => Reliable up ∧ Reliable down
  | CltSosistab3 _, SessSos cli srv => shared_secret cli = shared_secret srv ∧ crossed cli srv ∧ crossed srv cli
  | _, _ => False
  end.

Definition layer_channel (up : bool) (s : session_layer) : channel :=
  match s with
  | SessTest pings => if up then conntest_up pings else conntest_down pings
  | SessTls u d => if up then u else d
  | SessSos cli srv => if up then sos_channel cli srv else sos_channel srv cli
  end.
(** The layer dialed last is on top. *)
Definition pipe_channel (up : bool) (ls : list session_layer) : channel :=
  foldr (λ s lower, over (layer_channel up s) lower) tcp_channel ls.
(** On top of it, the encryption with a key of [client_auth] where there is one. *)
Definition top_channel (key : option (list byte)) : channel :=
  match key with Some k => crypt_channel k | None => tcp_channel end.
Definition session_channel (up : bool) (key : option (list byte)) (ls : list session_layer) : channel :=
  over (top_channel key) (pipe_channel up ls).

Lemma layer_reliable up l s : established l s → Reliable (layer_channel up s).
Proof.
  destruct l as [n| |], s as [pings|u d|cli srv]; try done; cbn; intros [H1' H2']; destruct up; try done.
  - by apply conntest_up_reliable.
  - apply conntest_down_reliable.
  - by apply sos_reliable, H2'.
  - by apply sos_reliable, H2'.
Qed.

#[export] Instance top_reliable key : Reliable (top_channel key).
Proof. destruct key; cbn; [apply crypt_reliable|apply tcp_reliable]. Qed.

Lemma pipe_reliable up ls ss : Forall2 established ls ss → Reliable (pipe_channel up ss).
Proof.
  induction 1 as [|l s ls ss Hl _ IH]; [apply tcp_reliable|]. cbn. apply over_reliable; [by eapply layer_reliable|done].
Qed.

Lemma session_reliable up key ls ss : Forall2 established ls ss → Reliable (session_channel up key ss).
Proof. intros Hp%(pipe_reliable up). apply over_reliable; [apply top_reliable|done]. Qed.

(** ** Frames *)

Lemma Frame_bytes_inj f f' r r' : Frame_wf f → Frame_wf f' → Frame_bytes f ++ r = Frame_bytes f' ++ r' → f = f' ∧ r = r'.
Proof. intros Hf Hf' E. apply (Frame_read_bytes f r) in Hf. rewrite E, Frame_read_bytes in Hf by done. by simplify_eq. Qed.

Lemma frames_of_prefix n : ∀ fs out fs' rest, Forall Frame_wf fs → out `prefix_of` concat (map Frame_bytes fs) →
  Frame_read_many n out = Ok (fs', rest) → fs' = take n fs.
Proof.
  induction n as [|n IH]; intros fs out fs' rest Hfs Ho E; cbn in E; [by simplify_eq|].
  apply bind_Ok in E as ([f o1] & E1 & E). apply bind_Ok in E as ([fs1 o2] & E2 & [= <- <-]).
  apply Frame_read_inv in E1 as [Hf ->]. destruct Ho as [k Ek]. destruct Hfs as [|f1 fs Hf1 Hfs]; cbn in Ek.
  - by destruct f.
  - rewrite <-app_assoc in Ek. apply Frame_bytes_inj in Ek as [<- Ek]; [|done..].
    cbn. f_equal. eapply IH; [done| |done]. by exists k.
Qed.

(** The tunnel between two multiplexers is the FIFO they rely on.  Take any
    stack of layers a client dials, once established, in either direction, with or
    without the client-exit encryption.  If the frames [fs] are written into one
    end, in whatever portions and with whatever padding, and some beginning of
    what TCP carries has arrived, then every frame the other end reads is one that
    was written, in the order of writing and none left out; and once everything
    has arrived and been drained, they are all there. *)
Theorem tunnel_is_fifo up key ls ss fs wire arrived out drained n fs' rest :
  Forall2 established ls ss → Forall Frame_wf fs →
  ch_send (session_channel up key ss) (concat (map Frame_bytes fs)) wire → arrived `prefix_of` wire →
  ch_recv (session_channel up key ss) arrived out drained →
  Frame_read_many n out = Ok (fs', rest) →
  fs' = take n fs ∧
  (arrived = wire → drained = true → Frame_read_many (length fs) out = Ok (fs, [])).
Proof.
  intros Hl Hfs Hs Ha Hr En. pose proof (session_reliable up key ls ss Hl) as Hrel. split.
  - eapply frames_of_prefix; [done| |done]. by eapply (reliable_prefix (c:=session_channel up key ss)).
  - intros -> ->. assert (out = concat (map Frame_bytes fs)) as -> by (by eapply (reliable_all (c:=session_channel up key ss))).
    rewrite <-(app_nil_r (concat _)). by apply frame_stream_roundtrip.
Qed.
End crypto_layers.

(** ** A session with a connection test over sosistab3 *)

Module Session.
Import Toy.
Definition frames : list Frame := [Frame_new 7 CMD_PSH [x01; x02]; Frame_new_empty 7 CMD_FIN].
Definition plain : list byte := concat (map Frame_bytes frames).
Definition sealed : list byte := match write_task [x0b] 0 [plain] with Ok w => w | _ => [] end.
Definition tested : list byte := conntest_sent [[x09]] ++ sealed.
Definition cli : State := State_new [x07] false ObfsParams_default.
Definition srv : State := State_new [x07] true ObfsParams_default.
Definition layers : list client_layer := [CltConnTest 1; CltSosistab3 "cookie"%string].
Definition ends : list session_layer := [SessTest [[x09]]; SessSos cli srv].
Definition calls : list (list byte * Z * list (list (poll (res io_error Z)))) :=
  [(tested, 0, [[Ready (Ok 10); Pending]; [Ready (Ok 20); Ready (Ok 49)]])].
Definition wire : list byte := match writes (SosistabPipe_new cli) calls with Some (_, w) => w | None => [] end.

Lemma ends_established : Forall2 established layers ends.
Proof.
  repeat constructor; cbn; try lia; by apply State_new_crossed.
Defined.

Lemma frames_sent : ch_send (session_channel length true (Some [x0b]) ends) plain wire.
Proof.
  exists sealed. split; [exists [plain]; split_and!; [repeat constructor; vm_compute; congruence|apply app_nil_r|by vm_compute]|].
  exists tested. split; [done|].
  exists wire. split; [|done].
  destruct (writes (SosistabPipe_new cli) calls) as [[p' w]|] eqn:E; [|by vm_compute in E].
  exists calls, p'. split_and!; [repeat constructor; vm_compute; congruence|by vm_compute|apply app_nil_r|].
  unfold wire. by rewrite E.
Qed.

Lemma frames_arrive : ch_recv (session_channel length true (Some [x0b]) ends) wire plain true.
Proof.
  exists sealed, true, true. split_and!; [|exists plain, (Err eof_error); split_and!; [by vm_compute|done..]|done].
  exists tested, true, true. split_and!; [| |done]; cycle 1.
  { cbn [ch_recv layer_channel conntest_up]. by replace (snd (conntest_serve _ tested)) with (Ok (E:=io_error) sealed) by (by vm_compute). }
  exists wire, true, true. split_and!; [done| |done].
  destruct (reads length (replicate 100 64%nat) (replicate 100 (LData 64)) wire (SosistabPipe_new srv)) as [[[o r] q] w'] eqn:E.
  assert (o = tested ∧ w' = [] ∧ read_buf q = []) as (Eo & Ew & Eq).
  { vm_compute in E. injection E as <- <- <- <-. by vm_compute. }
  subst o. change (ch_recv (sos_channel length cli srv) wire tested true). exact (sos_recv length cli srv _ _ wire tested r q w' true E (λ _, conj Ew Eq)).
Qed.

End Session.
Import Toy Session.

Lemma tunnel_is_fifo_witness :
  Frame_read_many 1 plain = Ok ([Frame_new 7 CMD_PSH [x01; x02]], Frame_bytes (Frame_new_empty 7 CMD_FIN)) ∧
  Frame_read_many 2 plain = Ok (frames, []).
Proof.
  split; [reflexivity|].
  apply (tunnel_is_fifo length true (Some [x0b]) layers ends frames wire wire plain true 1
    [Frame_new 7 CMD_PSH [x01; x02]] (Frame_bytes (Frame_new_empty 7 CMD_FIN))); try reflexivity.
  - exact ends_established.
  - repeat constructor; vm_compute; congruence.
  - exact frames_sent.
  - exact frames_arrive.
Defined.
