(* ===== verification/Pipes.v ===== *)
(** * What pipes say of themselves, and where they come from
    (libraries/sillad/src/{lib,listener}.rs, tcp.rs and the [Pipe] instances of the
    other libraries)

    A pipe has, besides its two streams, a shared secret where it is encrypted end
    to end, the name of its protocol and the address of its peer.  The client
    decides by the secret how to authenticate, and the exit must come to the same
    decision at the other end of the stack.  Further, the listeners made of two. *)
From Stdlib Require Import ZArith Lia.
From S2P Require Import Prelude Frame Crypto Protocol IpText Cache Dialer Routes SosState SosPipe CryptPipe ConnTest Stack.
Local Open Scope Z_scope.

(** ** The [Pipe] trait *)

Record pipe_info := mkInfo {
  pi_secret : option (list byte);
  pi_protocol : string;
  pi_remote : option string
}.

Definition TcpPipe (addr : string) : pipe_info := mkInfo None "tcp" (Some addr).
Definition TlsPipe (lower : pipe_info) : pipe_info := mkInfo None "tls" (pi_remote lower).
Definition SosPipe_info (state : State) (lower : pipe_info) : pipe_info :=
  mkInfo (Some (shared_secret state)) "sosistab3" (pi_remote lower).
Definition CryptPipe_info (lower : pipe_info) : pipe_info := mkInfo None "plain" (pi_remote lower).
Definition Stream_info : pipe_info := mkInfo None "sillad-stream" None.
Definition EitherPipe (p : pipe_info + pipe_info) : pipe_info := match p with inl l => l | inr r => r end.

(** ** Through a stack *)

Inductive side := DialSide | AcceptSide.

(** A connection test hands out the pipe below it. *)
Definition layer_info (sd : side) (s : session_layer) (lower : pipe_info) : pipe_info :=
  match s with
  | SessTest _ => lower
  | SessTls _ _ => TlsPipe lower
  | SessSos cli srv => SosPipe_info (match sd with DialSide => cli | AcceptSide => srv end) lower
  end.
Definition stack_info (sd : side) (base : pipe_info) (ss : list session_layer) : pipe_info :=
  foldr (layer_info sd) base ss.

(** The pipe that [client_auth] and [handle_client] return. *)
Definition authed_info (keys : option (list byte * list byte)) (p : pipe_info) : pipe_info :=
  EitherPipe (match keys with Some _ => inr (CryptPipe_info p) | None => inl p end).

Section stacks.
Context `{AeadLaws} `{Blake3}.

(** Both ends of a stack see the same secret, or both see none, whatever carries
    them: a TCP connection at both ends, or a stream of a bridge at the exit's. *)
Lemma ends_share_secret ls ss base base' : Forall2 established ls ss →
  pi_secret base = None → pi_secret base' = None →
  pi_secret (stack_info DialSide base ss) = pi_secret (stack_info AcceptSide base' ss).
Proof.
  intros Hl Hb Hb'. induction Hl as [|l s ls ss Hs _ IH]; cbn; [congruence|].
  destruct l, s; try done; cbn in *. by destruct Hs as [-> _].
Qed.

(** There is one exactly when the first layer that is no test is sosistab3. *)
Lemma secret_iff ls ss base sd : Forall2 established ls ss → pi_secret base = None →
  is_Some (pi_secret (stack_info sd base ss)) ↔
  ∃ n c rest, drop n ls = CltSosistab3 c :: rest ∧ Forall (λ l, ∃ k, l = CltConnTest k) (take n ls).
Proof.
  intros Hl Hb. induction Hl as [|l s ls ss Hs _ IH]; cbn.
  - rewrite Hb. split; [by intros []|]. intros (n & c & rest & E & _). by rewrite drop_nil in E.
  - destruct l as [k|use_sni dom|c], s; try done; cbn in *.
    + rewrite IH. split.
      * intros (n & c & rest & E & Hf). exists (S n), c, rest. cbn. split; [done|]. constructor; [by eexists|done].
      * intros ([|n] & c & rest & E & Hf); [done|]. cbn in *. apply Forall_cons in Hf as [_ Hf]. eauto.
    + split; [by intros []|]. intros ([|n] & c & rest & E & Hf); [done|]. cbn in Hf.
      by apply Forall_cons in Hf as [[? ?] _].
    + split; [|by eexists]. intros _. by exists 0%nat, c, ls.
Qed.

(** The address of a dialed pipe is the one that was dialed, and reads back. *)
Lemma dialed_remote keys a ss : valid_v4_addr a →
  pi_remote (authed_info keys (stack_info DialSide (TcpPipe (addr_to_string a)) ss)) ≫= parse_addr = Some a.
Proof.
  intros Ha. assert (pi_remote (stack_info DialSide (TcpPipe (addr_to_string a)) ss) = Some (addr_to_string a)) as E.
  { induction ss as [|s ss IH]; [done|]. by destruct s. }
  destruct keys; cbn; rewrite E; cbn; by apply parse_addr_to_string.
Qed.
End stacks.

(** ** Two listeners as one *)

(** [JoinListener::accept]: the futures are polled in an order drawn at random; the
    one that is not taken is dropped and polled anew by the next call. *)
Definition join_accept {P Q} (left_first : bool) (l : poll (res io_error P)) (r : poll (res io_error Q)) :
    poll (res io_error (P + Q)) :=
  let lift_l := match l with Ready x => Ready (p ← x; Ok (inl p)) | Pending => Pending end in
  let lift_r := match r with Ready x => Ready (p ← x; Ok (inr p)) | Pending => Pending end in
  let pick a b := match a with Ready x => Ready x | Pending => b end in
  if left_first then pick lift_l lift_r else pick lift_r lift_l.

(** [EitherListener::accept] *)
Definition either_accept {P Q} (l : poll (res io_error P) + poll (res io_error Q)) : poll (res io_error (P + Q)) :=
  match l with
  | inl (Ready x) => Ready (p ← x; Ok (inl p))
  | inr (Ready x) => Ready (p ← x; Ok (inr p))
  | _ => Pending
  end.

(** It waits only while both wait, and an error of one is an error of the join even
    if the other has a connection. *)
Lemma join_waits {P Q} b (l : poll (res io_error P)) (r : poll (res io_error Q)) :
  join_accept b l r = Pending ↔ l = Pending ∧ r = Pending.
Proof. unfold join_accept. destruct b, l, r; naive_solver. Qed.
