(* ===== verification/Session.v ===== *)
(** * A session from the first byte to the frames
    (binaries/geph5-client/src/client_inner.rs, binaries/geph5-exit/src/listen.rs)

    The client dials a stack of layers, authenticates through it, puts its
    encryption on top where the stack has no secret of its own, and runs a
    multiplexer over what it has got; the exit does the same at the other end.
    Here the models of these parts ([Routes], [Stack], [Pipes], [ExitAuth],
    [CryptPipe], [Frame]) are put together. *)
From Stdlib Require Import ZArith Lia.
From S2P Require Import Prelude Frame Crypto Mizaru Protocol Cache Dialer Routes SosState SosPipe CryptPipe ConnTest Stack Pipes ExitAuth.
Local Open Scope Z_scope.

Section session.
Context `{AeadLaws} `{Blake3Laws} `{X25519Laws} `{Ed25519Laws} `{BlindRsaLaws}.
Context `{StdcodeLaws ClientHello} `{StdcodeLaws ExitHello}.
Context `{StdcodeLaws (ClientHello * ExitHelloInner)}.
Context `{StdcodeLaws (AccountLevel * list byte * UnblindedSignature)}.
Context (front : list byte → nat).

(** One direction of a session over the stack [ss].  The writer sends the message
    [msg] and then, below its encryption, the frames [fs]; of what this puts on
    TCP some beginning has arrived, out of which the reader has got [out].  It has
    taken the message off, and [rest] through its encryption has given [plain].
    [all]: everything has arrived and been read. *)
Definition carried (ss : list session_layer) (up : bool) (key_w key_r : option (list byte)) (msg : list byte)
    (fs : list Frame) (out rest plain : list byte) (all : bool) : Prop :=
  ∃ mid wire arrived d d',
    ch_send (top_channel key_w) (concat (map Frame_bytes fs)) mid ∧
    ch_send (pipe_channel front up ss) (msg ++ mid) wire ∧ arrived `prefix_of` wire ∧
    ch_recv (pipe_channel front up ss) arrived out d ∧ ch_recv (top_channel key_r) rest plain d' ∧
    (all = true → arrived = wire ∧ d = true ∧ d' = true).

Lemma carried_frames ls ss up key msg fs out rest plain all n fs' r :
  Forall2 established ls ss → Forall Frame_wf fs →
  carried ss up key key msg fs out rest plain all → out = msg ++ rest → Frame_read_many n plain = Ok (fs', r) →
  fs' = take n fs ∧ (all = true → Frame_read_many (length fs) plain = Ok (fs, [])).
Proof.
  intros Hl Hfs (mid & wire & arrived & d & d' & Ht & Hp & Ha & Hr & Hr' & Hall) -> En.
  pose proof (pipe_reliable front up ls ss Hl) as Hrel.
  pose proof (reliable_prefix _ _ _ _ _ Hp Ha Hr) as Hpre. apply prefix_app_inv in Hpre.
  split; [exact (frames_of_prefix n fs plain fs' r Hfs (reliable_prefix _ _ _ _ _ Ht Hpre Hr') En)|].
  intros Ea. destruct (Hall Ea) as (-> & -> & ->).
  pose proof (reliable_all _ _ _ Hp Hr) as E%app_inv_head. subst rest.
  rewrite (reliable_all _ _ _ Ht Hr'), <-(app_nil_r (concat _)). by apply frame_stream_roundtrip.
Qed.

(** What an exit that goes on has read and answered. *)
Lemma exit_reads_hello broker free now ss sk esk h mid out reply keys is_free rest :
  Z.of_nat (length (stdcode h)) < 2 ^ 32 → out `prefix_of` client_send h ++ mid →
  handle_client broker free now ss sk esk out = Ok (reply, keys, is_free, rest) →
  out = client_send h ++ rest ∧ check_credentials broker free now (credentials h) = Ok is_free ∧
  ∃ inner, exit_response ss esk (crypt_hello h) = Ok (keys, inner) ∧
    reply = write_prepend_length (stdcode (exit_hello sk h inner)).
Proof.
  intros Hh Ho E. unfold handle_client in E.
  destruct (read_prepend_prefix (stdcode h) mid out Hh Ho) as [Er|(rest' & -> & Er & _)]; rewrite Er in E; [done|].
  cbn [map_err mbind res_bind] in E. rewrite deserialize_stdcode in E. cbn [ok_or mbind res_bind] in E.
  apply bind_Ok in E as ([keys' inner] & E1 & E). apply bind_Ok in E as (f & E2 & [= <- <- <- <-]).
  split_and!; [done..|]. eauto.
Qed.

(** And a client. *)
Lemma client_reads_reply h ss challenge esk esk' sk inner keys mid out keys' rest :
  crypt_hello h = (match ss with Some _ => SharedSecretChallenge challenge | None => HelloX25519 (public esk) end) →
  exit_response ss esk' (crypt_hello h) = Ok (keys, inner) →
  Z.of_nat (length (stdcode (exit_hello sk h inner))) < 2 ^ 32 →
  out `prefix_of` write_prepend_length (stdcode (exit_hello sk h inner)) ++ mid →
  client_auth (verifying_key sk) h ss challenge esk out = Ok (keys', rest) →
  out = write_prepend_length (stdcode (exit_hello sk h inner)) ++ rest ∧ keys' = swap_keys keys ∧ (keys = None ↔ is_Some ss).
Proof.
  intros Hc He Hl Ho E. unfold client_auth in E.
  destruct (read_prepend_prefix _ mid out Hl Ho) as [Er|(rest' & -> & Er & _)]; rewrite Er in E; [done|].
  cbn [map_err mbind res_bind] in E. rewrite Hc in He. destruct ss as [s|]; cbn in He; injection He as <- <-;
    rewrite deserialize_stdcode in E; cbn [ok_or mbind res_bind hello_inner hello_signature exit_hello] in E.
  - rewrite decide_True in E by done. injection E as <- <-. split; [done|]. split; [done|]. split; [by eexists|done].
  - rewrite verify_sign in E. injection E as <- <-. split; [done|]. split; [|split; [done|by intros []]].
    unfold swap_keys. cbn. by rewrite (dh_comm esk' esk).
Qed.

(** C17: a session, whole.  Let client and exit have established a stack of layers the
    client dials, over connections of any kind.  If the exit lets the client in
    and the client accepts the exit, then they agree on whether the stack has a
    secret, add their encryption exactly when it has none, with each other's keys,
    and in both directions the frames that are read are those that were written
    behind the hellos, in order and with none left out; once all has arrived and
    been read, all the frames are there. *)
Theorem session_sound ls ss base base' broker free now sk esk esk' challenge creds
    fs_up out_up rest_up plain_up all_up n_up got_up r_up fs_down out_down rest_down plain_down all_down n_down got_down r_down
    reply keys keys' is_free :
  let ss_c := pi_secret (stack_info DialSide base ss) in
  let ss_e := pi_secret (stack_info AcceptSide base' ss) in
  let h := client_hello creds ss_c challenge esk in
  Forall2 established ls ss → pi_secret base = None → pi_secret base' = None →
  Z.of_nat (length (stdcode h)) < 2 ^ 32 → 
  (∀ keys inner, exit_response ss_e esk' (crypt_hello h) = Ok (keys, inner) → Z.of_nat (length (stdcode (exit_hello sk h inner))) < 2 ^ 32) →
  Forall Frame_wf fs_up → Forall Frame_wf fs_down →
  handle_client broker free now ss_e sk esk' out_up = Ok (reply, keys, is_free, rest_up) →
  client_auth (verifying_key sk) h ss_c challenge esk out_down = Ok (keys', rest_down) →
  carried ss true (snd <$> keys') (fst <$> keys) (client_send h) fs_up out_up rest_up plain_up all_up →
  carried ss false (snd <$> keys) (fst <$> keys') reply fs_down out_down rest_down plain_down all_down →
  Frame_read_many n_up plain_up = Ok (got_up, r_up) → Frame_read_many n_down plain_down = Ok (got_down, r_down) →
  check_credentials broker free now creds = Ok is_free ∧ keys' = swap_keys keys ∧ (keys = None ↔ is_Some ss_c) ∧
  got_up = take n_up fs_up ∧ got_down = take n_down fs_down ∧
  (all_up = true → Frame_read_many (length fs_up) plain_up = Ok (fs_up, [])) ∧
  (all_down = true → Frame_read_many (length fs_down) plain_down = Ok (fs_down, [])).
Proof.
  intros ss_c ss_e h Hl Hb Hb' Hh Hi Hfu Hfd He Hc Hu Hd Ru Rd.
  assert (ss_e = ss_c) as Es by (symmetry; by eapply ends_share_secret). rewrite Es in He.
  rewrite Es in Hi.
  pose proof Hu as (mid_u & wu & au & du & du' & _ & Pu & Au & Gu & _).
  pose proof Hd as (mid_d & wd & ad & dd & dd' & _ & Pd & Ad & Gd & _).
  pose proof (pipe_reliable front true ls ss Hl) as Ru'. pose proof (pipe_reliable front false ls ss Hl) as Rd'.
  destruct (exit_reads_hello _ _ _ _ _ _ h mid_u out_up _ _ _ _ Hh (reliable_prefix _ _ _ _ _ Pu Au Gu) He)
    as (Eu & Hcred & inner & Hinner & Hreply).
  rewrite Hreply in Pd. destruct (client_reads_reply h ss_c challenge esk esk' sk inner keys mid_d out_down keys' rest_down
    eq_refl Hinner (Hi _ _ Hinner) (reliable_prefix _ _ _ _ _ Pd Ad Gd) Hc) as (Ed & Hk & Hn).
  assert (snd <$> keys' = fst <$> keys) as K1 by (subst keys'; by destruct keys as [[]|]).
  assert (fst <$> keys' = snd <$> keys) as K2 by (subst keys'; by destruct keys as [[]|]).
  rewrite K1 in Hu. rewrite K2 in Hd. rewrite <-Hreply in Ed.
  destruct (carried_frames _ _ _ _ _ _ _ _ _ _ _ _ _ Hl Hfu Hu Eu Ru).
  destruct (carried_frames _ _ _ _ _ _ _ _ _ _ _ _ _ Hl Hfd Hd Ed Rd). split; [done|]. split; [done|]. split_and!; try done; apply Hn.
Qed.
End session.

(** ** A session over a tested connection through a bridge *)
Module SessionDemo.
Import Toy AuthDemo.
Definition h : ClientHello := client_hello [] None [] [x07].
Definition answer : list byte * (list byte * list byte) :=
  match handle_client false false 20000 None [x05] [x06] (client_send h) with
  | Ok (reply, Some keys, _, _) => (reply, keys)
  | _ => ([], ([], []))
  end.
Definition layers : list client_layer := [CltConnTest 1].
Definition ends : list session_layer := [SessTest [[x09]]].
Definition up : list Frame := [Frame_new 7 CMD_SYN [x01; x02]; Frame_new 7 CMD_PSH [x03]].
Definition down : list Frame := [Frame_new 7 CMD_PSH [x04]].
Definition sealed (key : list byte) (fs : list Frame) : list byte :=
  match write_task key 0 [concat (map Frame_bytes fs)] with Ok w => w | _ => [] end.

Lemma demo_carried dir key msg fs : Z.of_nat (length (concat (map Frame_bytes fs))) <= 8192 →
  write_task key 0 [concat (map Frame_bytes fs)] = Ok (sealed key fs) →
  carried length ends dir (Some key) (Some key) msg fs (msg ++ sealed key fs) (sealed key fs)
    (concat (map Frame_bytes fs)) true.
Proof.
  intros Hl Ew.
  set (wire := (if dir then conntest_sent [[x09]] else concat [[x09]]) ++ msg ++ sealed key fs).
  exists (sealed key fs), wire, wire, true, true. split_and!; [| |done| | |done].
  - exists [concat (map Frame_bytes fs)]. split_and!; [by repeat constructor|apply app_nil_r|done].
  - exists wire. split; [|done]. by destruct dir.
  - exists wire, true, true. split_and!; [done| |done]. unfold wire. destruct dir; cbn [ch_recv layer_channel ends conntest_up conntest_down].
    + rewrite (conntest_serve_honest [[x09]]); [done|apply Forall_singleton; unfold ping_ok; cbn; lia|rewrite length_app; pose proof (length_conntest_sent [[x09]]); lia].
    + by rewrite (conntest_dial_honest [[x09]]).
  - exists (concat (map Frame_bytes fs)), (Err eof_error). split_and!; [|done..].
    rewrite (read_write_tasks key [concat (map Frame_bytes fs)] 0 (sealed key fs)); [by cbn; rewrite app_nil_r|by repeat constructor|done|].
    pose proof (write_task_length _ _ _ _ Ew). lia.
Qed.
End SessionDemo.
Import Toy AuthDemo SessionDemo.

Lemma session_sound_witness :
  ∃ reply keys, handle_client false false 20000 None [x05] [x06] (client_send h ++ sealed (fst keys) up) =
      Ok (reply, Some keys, false, sealed (fst keys) up) ∧
    client_auth (verifying_key [x05]) h None [] [x07] (reply ++ sealed (snd keys) down) =
      Ok (Some (snd keys, fst keys), sealed (snd keys) down) ∧
    Frame_read_many 2 (concat (map Frame_bytes up)) = Ok (up, []) ∧
    Frame_read_many 1 (concat (map Frame_bytes down)) = Ok (down, []).
Proof.
  set (k := snd answer). exists (fst answer), k.
  assert (handle_client false false 20000 None [x05] [x06] (client_send h ++ sealed (fst k) up) =
      Ok (fst answer, Some k, false, sealed (fst k) up)) as He by (by vm_compute).
  assert (client_auth (verifying_key [x05]) h None [] [x07] (fst answer ++ sealed (snd k) down) =
      Ok (Some (snd k, fst k), sealed (snd k) down)) as Hc by (by vm_compute).
  assert (carried length ends true (Some (fst k)) (Some (fst k)) (client_send h) up
    (client_send h ++ sealed (fst k) up) (sealed (fst k) up) (concat (map Frame_bytes up)) true) as Hu
    by (apply demo_carried; vm_compute; congruence).
  assert (carried length ends false (Some (snd k)) (Some (snd k)) (fst answer) down
    (fst answer ++ sealed (snd k) down) (sealed (snd k) down) (concat (map Frame_bytes down)) true) as Hd
    by (apply demo_carried; vm_compute; congruence).
  assert (Forall2 established layers ends) as Hl by (repeat constructor; cbn; lia).
  destruct (session_sound length layers ends (TcpPipe "1.2.3.4:5") Stream_info false false 20000 [x05] [x07] [x06] [] []
    up (client_send h ++ sealed (fst k) up) (sealed (fst k) up) (concat (map Frame_bytes up)) true 2 up []
    down (fst answer ++ sealed (snd k) down) (sealed (snd k) down) (concat (map Frame_bytes down)) true 1 down []
    (fst answer) (Some k) (Some (snd k, fst k)) false Hl) as (_ & _ & _ & _ & _ & Fu & Fd);
    [reflexivity|reflexivity|by vm_compute| | | |exact He|exact Hc|exact Hu|exact Hd|reflexivity|reflexivity|].
  - intros keys inner E. injection E as <- <-. by vm_compute.
  - repeat constructor; vm_compute; congruence.
  - repeat constructor; vm_compute; congruence.
  - split; [exact He|]. split; [exact Hc|]. split; [exact (Fu eq_refl)|exact (Fd eq_refl)].
Defined.
