(* ===== verification/BrokerSource.v ===== *)
(** * Where the broker is reached (binaries/geph5-client/src/broker.rs)

    A [BrokerSource] is a tree: leaves are ways to send a request (plain or
    fronted HTTP, TCP, AWS Lambda), inner nodes race their children.
    [rpc_transport] builds a transport from it; here is what the first call
    through it does, when no race has picked a winner yet.  [Transport] has the
    calls that follow. *)
From Stdlib Require Import ZArith Lia.
From S2P Require Import Prelude Crypto Protocol Dialer Transport.
Local Open Scope Z_scope.

Unset Elimination Schemes.
(** The keys of a priority race are delays in milliseconds, in increasing order. *)
Inductive BrokerSource :=
| SrcDirect (url : string)
| SrcFronted (front host : string)
| SrcDirectTcp (dest_addr : SocketAddr)
| SrcAwsLambda (function_name region access_key_id secret_access_key : string)
| SrcRace (l : list BrokerSource)
| SrcPriorityRace (l : list (Z * BrokerSource)).

Set Elimination Schemes.

Section source_ind.
Context (P : BrokerSource → Prop).
Context (Hd : ∀ url, P (SrcDirect url)) (Hf : ∀ front host, P (SrcFronted front host)).
Context (Ht : ∀ a, P (SrcDirectTcp a)) (Hl : ∀ f r k s, P (SrcAwsLambda f r k s)).
Context (Hr : ∀ l, Forall P l → P (SrcRace l)) (Hp : ∀ l, Forall (λ c, P c.2) l → P (SrcPriorityRace l)).

(** Induction through the lists of children. *)
Fixpoint BrokerSource_tree_ind (s : BrokerSource) : P s :=
  match s with
  | SrcDirect url => Hd url
  | SrcFronted front host => Hf front host
  | SrcDirectTcp a => Ht a
  | SrcAwsLambda f r k s => Hl f r k s
  | SrcRace l => Hr l ((fix go l : Forall P l :=
      match l with [] => List.Forall_nil _ | s :: l => List.Forall_cons _ _ _ (BrokerSource_tree_ind s) (go l) end) l)
  | SrcPriorityRace l => Hp l ((fix go l : Forall (λ c, P c.2) l :=
      match l with
      | [] => List.Forall_nil _
      | c :: l => List.Forall_cons _ _ _ (let '(k, s) as c := c return P c.2 in BrokerSource_tree_ind s) (go l)
      end) l)
  end.
End source_ind.

Section source.
Context {R : Type}.
(** The transports of the leaves. *)
Context (http : string → option string → dialer R) (tcp : SocketAddr → dialer R).
Context (lambda : string → string → string → string → dialer R).

(** A call that ends the process counts as an answer [None]: nothing that would
    come later happens. *)
Definition answering (d : dialer R) : dialer (option R) := λ t,
  match d t with
  | Done t' (inl a) => Done t' (inl (Some a))
  | Done t' (inr e) => Done t' (inr e)
  | Never => Never
  end.
Definition calling (c : Z → called (option R)) : dialer (option R) := λ t,
  match c t with
  | Returned t' (Ok a) => Done t' (inl a)
  | Returned t' (Err e) => Done t' (inr e)
  | Returned t' Panic => Done t' (inl None)
  | Hangs => Never
  end.

Fixpoint rpc_transport (s : BrokerSource) : dialer (option R) :=
  match s with
  | SrcDirect s => answering (http s None)
  | SrcDirectTcp dest_addr => answering (tcp dest_addr)
  | SrcFronted front host => answering (http front (Some host))
  | SrcAwsLambda function_name region access_key_id secret_access_key =>
      answering (lambda function_name region access_key_id secret_access_key)
  | SrcRace race_between => calling (λ t, (race_call (map rpc_transport race_between) None t).2)
  | SrcPriorityRace inner => calling (priority_race_call (map (λ '(k, v), (k, rpc_transport v)) inner))
  end.

(** ** One path is enough *)

(** No race without participants; delays are unsigned. *)
Fixpoint source_ok (s : BrokerSource) : bool :=
  match s with
  | SrcRace l => negb (bool_decide (l = [])) && forallb source_ok l
  | SrcPriorityRace l => negb (bool_decide (l = [])) && forallb (λ '(k, s), (0 <=? k) && source_ok s) l
  | _ => true
  end.

(** The ways to the broker in a source, with the sum of the delays above each. *)
Inductive path : BrokerSource → Z → dialer R → Prop :=
| path_direct url : path (SrcDirect url) 0 (http url None)
| path_fronted front host : path (SrcFronted front host) 0 (http front (Some host))
| path_tcp a : path (SrcDirectTcp a) 0 (tcp a)
| path_lambda f r k s : path (SrcAwsLambda f r k s) 0 (lambda f r k s)
| path_race l s d f : s ∈ l → path s d f → path (SrcRace l) d f
| path_priority l k s d f : (k, s) ∈ l → path s d f → path (SrcPriorityRace l) (k + d) f.

Lemma answering_alive d t t' : answering d t ≠ Done t' (inl None).
Proof. unfold answering. by destruct (d t) as [? [|]|]. Qed.

Lemma source_alive s : source_ok s = true → ∀ t t', rpc_transport s t ≠ Done t' (inl None).
Proof.
  induction s as [| | | |l IH|l IH] using BrokerSource_tree_ind; cbn [source_ok rpc_transport]; intros Hok t t';
    try apply answering_alive; apply andb_true_iff in Hok as [Hne%negb_true_iff%bool_decide_eq_false Hok];
    unfold calling; rewrite forallb_forall in Hok; rewrite Forall_forall in IH.
  - cbn [race_call]. destruct (race_group_spec (map rpc_transport l) t) as (g & -> & _ & Hs & _); [by destruct l|].
    destruct (g t) as [t1 [[i [a|]]|e]|] eqn:Eg; cbn; try done.
    destruct (Hs _ _ _ eq_refl) as [(d & Hd & E) _]. apply list_elem_of_lookup_2, list_elem_of_fmap in Hd as (s & -> & Hin).
    apply (IH s Hin) in E; [done|]. by apply Hok, list_elem_of_In.
  - unfold priority_race_call. destruct l as [|[k s] l]; [done|]. cbn [map reduce].
    match goal with |- context [foldl race ?d ?ds t] => destruct (foldl race d ds t) as [t1 [[a|]|e]|] eqn:Eg end;
      cbn; try done.
    apply races_sound in Eg as [(d0 & Hin & E) _].
    change (d0 ∈ map (λ c, delay c.1 c.2) (map (λ '(k, v), (k, rpc_transport v)) ((k, s) :: l))) in Hin.
    rewrite map_map in Hin. apply list_elem_of_fmap in Hin as ([k' s'] & -> & Hin). unfold delay in E. cbn in E.
    specialize (Hok (k', s') (proj1 (list_elem_of_In _ _) Hin)). apply andb_true_iff in Hok as [_ Hok].
    by apply (IH (k', s') Hin Hok) in E.
Qed.

(** An answer within [b] of the call. *)
Definition answers_within {A} (b : Z) (d : dialer A) : Prop := ∀ t, ∃ t' a, d t = Done t' (inl a) ∧ t' <= t + b.

Lemma answering_within b d : answers_within b d → answers_within b (answering d).
Proof. intros Hd t. destruct (Hd t) as (t' & a & E & Ht). unfold answering. rewrite E. eauto. Qed.

Lemma race_within b l d : d ∈ l → answers_within b d → b <= 10000 →
  answers_within b (calling (λ t, (race_call l None t).2)).
Proof.
  intros Hin Hd Hb t. apply list_elem_of_lookup in Hin as [i Hi]. destruct (Hd t) as (t1 & a1 & E1 & H1).
  destruct (race_group_spec l t) as (g & Eg & _ & Hs & Ht); [by destruct l|].
  destruct (Ht i d t1 a1 Hi E1 ltac:(lia)) as (t2 & [j a2] & E2).
  destruct (Hs _ _ _ E2) as [_ Hmin]. specialize (Hmin i d t1 a1 Hi E1 ltac:(lia)).
  unfold calling, race_call. rewrite Eg, E2. cbn. exists t2, a2. split; [done|lia].
Qed.

Lemma priority_within b l k d : (k, d) ∈ l → answers_within b d → answers_within (k + b) (calling (priority_race_call l)).
Proof.
  intros Hin Hd t. destruct (Hd (t + k)) as (t1 & a1 & E1 & H1).
  assert (delay k d ∈ map (λ c, delay c.1 c.2) l) as Hin'.
  { apply list_elem_of_fmap. by exists (k, d). }
  unfold calling, priority_race_call. destruct (map _ l) as [|d0 ds] eqn:El; [by apply elem_of_nil in Hin'|].
  cbn [reduce]. destruct (races_total ds d0 t) as (t2 & a2 & E2).
  { exists (delay k d), t1. split; [done|]. by exists a1. }
  pose proof (races_sound ds d0 t t2 a2 E2) as [_ Hmin].
  specialize (Hmin (delay k d) t1 Hin' (ex_intro _ a1 E1)). rewrite E2. exists t2, a2. split; [done|lia].
Qed.

(** C36: one working way to the broker is enough for a call that finds no race with a
    selected participant, such as the first one.  In a source without empty races,
    if one leaf answers every call within [b] milliseconds and [b] together with
    the delays above the leaf is at most the ten seconds a race gives its
    participants, then such a call succeeds in that time, whatever the
    other ways do: fail, hang, or answer in any order.  (A race that has selected a
    participant asks it alone and waits for it without a limit.) *)
Theorem one_path_suffices s d f b : source_ok s = true → path s d f → answers_within b f → d + b <= 10000 →
  ∀ t, ∃ t' a, rpc_transport s t = Done t' (inl (Some a)) ∧ t' <= t + d + b.
Proof.
  intros Hok Hp Hf Hb.
  assert (answers_within (d + b) (rpc_transport s)) as Ha.
  { clear -Hp Hok Hf Hb. revert Hok Hb. induction Hp as [| | | |l s d f Hin Hp IH|l k s d f Hin Hp IH];
      cbn [source_ok rpc_transport]; intros Hok Hb; try by apply answering_within.
    - apply andb_true_iff in Hok as [_ Hok]. rewrite forallb_forall in Hok.
      eapply race_within; [apply list_elem_of_fmap_2, Hin| |done]. apply IH; [done| |done].
      by apply Hok, list_elem_of_In.
    - apply andb_true_iff in Hok as [_ Hok]. rewrite forallb_forall in Hok.
      specialize (Hok (k, s) (proj1 (list_elem_of_In _ _) Hin)). apply andb_true_iff in Hok as [Hk%Z.leb_le Hok].
      rewrite <-Z.add_assoc. apply (priority_within _ _ k (rpc_transport s)).
      + apply list_elem_of_fmap. by exists (k, s).
      + apply IH; [done..|lia]. }
  intros t. destruct (Ha t) as (t' & [a|] & E & Ht); [|by apply source_alive in E].
  exists t', a. split; [done|lia].
Qed.
End source.

(** ** A source as the clients ship it: a direct and a fronted way race, a second
    group follows after a while; the first group is blocked. *)
Module SourceDemo.
Definition http (url : string) (host : option string) : dialer nat := λ t,
  match host with
  | None => Never
  | Some h => if String.eqb h "blocked" then Done (t + 30) (inr failing_error) else Done (t + 700) (inl 1%nat)
  end.
Definition tcp (a : SocketAddr) : dialer nat := λ t, Never.
Definition lambda (f r k s : string) : dialer nat := λ t, Done (t + 2) (inr failing_error).
Definition src : BrokerSource :=
  SrcPriorityRace [(0, SrcRace [SrcDirect "a"; SrcFronted "f" "blocked"]);
                   (2000, SrcRace [SrcAwsLambda "f" "r" "k" "s"; SrcFronted "f" "open"])].
End SourceDemo.

Lemma one_path_suffices_witness :
  rpc_transport SourceDemo.http SourceDemo.tcp SourceDemo.lambda SourceDemo.src 0 = Done 2700 (inl (Some 1%nat)) ∧
  ∃ t' a, rpc_transport SourceDemo.http SourceDemo.tcp SourceDemo.lambda SourceDemo.src 0 = Done t' (inl (Some a)) ∧ t' <= 0 + 2000 + 700.
Proof.
  split; [vm_compute; reflexivity|].
  apply (one_path_suffices SourceDemo.http SourceDemo.tcp SourceDemo.lambda SourceDemo.src 2000
    (SourceDemo.http "f" (Some "open"%string)) 700); [reflexivity| | |lia].
  - change 2000 with (2000 + 0).
    eapply (path_priority _ _ _ _ 2000 (SrcRace [SrcAwsLambda "f" "r" "k" "s"; SrcFronted "f" "open"])); [set_solver|].
    eapply (path_race _ _ _ _ (SrcFronted "f" "open")); [set_solver|]. apply path_fronted.
  - intros t. exists (t + 700), 1%nat. split; [done|lia].
Defined.
