(* ===== verification/ClientMain.v ===== *)
(** * The life of a client
    (binaries/geph5-client/src/{client,stats,pac,lib}.rs, bin/geph5-client.rs)

    [Client::start] spawns [client_main], which races the services the
    configuration asks for; the first one that ends decides how the client ends.
    The program around it serves packets or RPC over its standard streams.  The
    services are modelled elsewhere; here they are what they end with. *)
From Stdlib Require Import ZArith Lia Floats.SpecFloat.
From S2P Require Import Prelude Crypto Mizaru Protocol Text IpText Cache Dialer Routes GetDialer Bdp ExitNet ClientNet Vpn Transport BrokerSource.
Local Open Scope Z_scope.

(** ** Configuration *)

(** [Config] of client.rs; the fields the dialer reads are the record
    [GetDialer.Config]. *)
Record ClientConfig := mkClientConfig {
  dialing : Config;
  socks5_listen : option SocketAddr;
  http_proxy_listen : option SocketAddr;
  pac_listen : option SocketAddr;
  control_listen : option SocketAddr;
  cache_path : option string;
  broker : option BrokerSource;
  vpn : bool;
  vpn_fd : option Z;
  spoof_dns : bool;
  passthrough_china : bool;
  dry_run : bool;
  credentials : Credential;
  sess_metadata : string;            (* JSON *)
  task_limit : option Z
}.

Definition inert (c : ClientConfig) : ClientConfig :=
  mkClientConfig (dialing c) None None None None (cache_path c) (broker c) (vpn c) (vpn_fd c) (spoof_dns c)
    (passthrough_china c) true (credentials c) (sess_metadata c) (task_limit c).

(** ** Services *)

Inductive service := Socks5 | VpnLoop | HttpProxyServe | AuthLoop | RpcServe | PacServe.
#[export] Instance service_eq_dec : EqDecision service.
Proof. solve_decision. Defined.

(** What [client_main] polls that can ever end; the other futures are pending for
    ever. *)
Definition when {A} (o : option A) (s : service) : list service := match o with Some _ => [s] | None => [] end.
Definition client_services (c : ClientConfig) : list service :=
  if dry_run c then when (control_listen c) RpcServe
  else when (socks5_listen c) Socks5 ++ [VpnLoop] ++ when (http_proxy_listen c) HttpProxyServe ++
       when (broker c) AuthLoop ++ when (control_listen c) RpcServe ++ when (pac_listen c) PacServe.

(** [history]: how services would end, in the order in which they do.  The race
    ends with the first one that takes part; [None]: it has not ended. *)
Definition client_main (c : ClientConfig) (history : list (service * res string unit)) : option (res string unit) :=
  snd <$> head (filter (λ e, e.1 ∈ client_services c) history).

(** What [Client::start] starts: the packets of a descriptor and the main task. *)
Record Client := mkClient { fd_task : option Z; client_ctx : ClientConfig }.
Definition Client_start (c : ClientConfig) : Client := mkClient (vpn_fd c) c.

Definition wait_until_dead (cl : Client) (history : list (service * res string unit)) : option (res string unit) :=
  client_main (client_ctx cl) history.
(** A task that has ended well is no error either. *)
Definition check_dead (cl : Client) (history : list (service * res string unit)) : res string unit :=
  match client_main (client_ctx cl) history with Some r => r | None => Ok tt end.

(** The C interface keeps the first client that is started. *)
Definition start_client (cfg : ClientConfig) (CLIENT : option Client) : option Client * Z :=
  (Some (match CLIENT with Some cl => cl | None => Client_start cfg end), 0).

(** The client lives as long as all its services do, and dies with the first
    that fails; services that were not configured have no say. *)
Lemma client_dies_with_first c before s r after :
  s ∈ client_services c → Forall (λ e, e.1 ∉ client_services c) before →
  client_main c (before ++ (s, r) :: after) = Some r ∧ client_main c before = None.
Proof.
  intros Hs Hb. unfold client_main.
  assert (filter (λ e, e.1 ∈ client_services c) before = []) as E.
  { induction Hb as [|e before He _ IH]; [done|]. by rewrite filter_cons_False. }
  by rewrite filter_app, E, filter_cons_True.
Qed.

(** An inert client serves nothing and never ends; a packet descriptor, though, is
    taken over all the same. *)
Lemma inert_is_inert c history :
  client_services (inert c) = [] ∧ client_main (inert c) history = None ∧ check_dead (Client_start (inert c)) history = Ok tt ∧
  fd_task (Client_start (inert c)) = vpn_fd c.
Proof.
  unfold check_dead, Client_start, client_main. cbn [client_ctx].
  assert (client_services (inert c) = []) as -> by done.
  assert (filter (λ e : service * res string unit, e.1 ∈ []) history = []) as ->.
  { induction history as [|e history IH]; [done|]. rewrite filter_cons_False; [done|]. apply not_elem_of_nil. }
  done.
Qed.

(** ** Statistics (stats.rs) *)

Definition zero_f64 : f64 := S754_zero false.
Definition stat_set_num (stat : string) (num : f64) (m : gmap string f64) : gmap string f64 := <[stat := num]> m.
Definition stat_incr_num (stat : string) (num : f64) (m : gmap string f64) : gmap string f64 :=
  <[stat := f64_add (default zero_f64 (m !! stat)) num]> m.
Definition stat_get_num (stat : string) (m : gmap string f64) : f64 := default zero_f64 (m !! stat).

(** A counter is the sum of its increments, in order; others are left alone. *)
Lemma stat_counts stat (incs : list (string * f64)) m :
  stat_get_num stat (foldl (λ m i, stat_incr_num i.1 i.2 m) m incs)
  = foldl f64_add (stat_get_num stat m) (snd <$> filter (λ i, i.1 = stat) incs).
Proof.
  revert m. induction incs as [|[k x] incs IH]; intros m; [done|]. cbn [foldl fst snd]. rewrite IH.
  unfold stat_get_num, stat_incr_num. destruct (decide (k = stat)) as [->|Hk].
  - rewrite filter_cons_True by done. by rewrite lookup_insert_eq.
  - rewrite filter_cons_False by done. by rewrite lookup_insert_ne.
Qed.

(** ** The proxy configuration file (pac.rs) *)

Definition serve_pac (c : ClientConfig) : res unit string :=
  pac_addr ← unwrap (http_proxy_listen c);
  Ok (String.append "function FindProxyForURL(url, host){return 'PROXY "
        (String.append (addr_to_string pac_addr) "';}")).

(** A client that serves the file without an HTTP proxy ends with its first
    request. *)
Lemma pac_without_proxy c : serve_pac c = Panic ↔ http_proxy_listen c = None.
Proof. unfold serve_pac. by destruct (http_proxy_listen c). Qed.

(** ** Packets over the standard streams (bin/geph5-client.rs) *)

(** Packets from the standard input until it ends, [clock i] being the time of the
    [i]th.  Every packet takes at least the two bytes of its length. *)
Fixpoint stdio_vpn_in (fuel : nat) (clock : nat → Z) (input : list byte) (q : vpn_queues) : vpn_queues * res io_error unit :=
  match fuel with
  | O => (q, Panic)
  | S fuel =>
      match read_exact 2 input with
      | Ok (length_buf, input) =>
          match read_exact (Z.to_nat (be_val length_buf)) input with
          | Ok (packet_buf, input) =>
              stdio_vpn_in fuel (λ i, clock (S i)) input (send_vpn_packet (clock 0%nat) packet_buf q)
          | Err e => (q, Err e)
          | Panic => (q, Panic)
          end
      | Err (IoError UnexpectedEof _) => (q, Ok tt)
      | Err e => (q, Err e)
      | Panic => (q, Panic)
      end
  end.
Definition run_stdio_vpn_in (clock : nat → Z) (input : list byte) (q : vpn_queues) : vpn_queues * res io_error unit :=
  stdio_vpn_in (S (length input)) clock input q.

(** A packet on the standard output: the length is capped, the packet is not. *)
Definition stdio_vpn_frame (packet : list byte) : list byte :=
  be_bytes 2 (Z.min (Z.of_nat (length packet)) 65535) ++ packet.

(** Packets of a descriptor (client.rs): what is written, for the results of the
    writes; the first failure ends the task. *)
Fixpoint vpn_fd_write (packets : list (list byte)) (writes : list bool) : list (list byte) :=
  match packets, writes with
  | p :: packets, true :: writes => p :: vpn_fd_write packets writes
  | _, _ => []
  end.

Fixpoint captured_all (clock : nat → Z) (packets : list (list byte)) (q : vpn_queues) : vpn_queues :=
  match packets with
  | [] => q
  | p :: packets => captured_all (λ i, clock (S i)) packets (send_vpn_packet (clock 0%nat) p q)
  end.

Lemma stdio_vpn_in_frames packets : ∀ fuel clock q rest, (length rest < 2)%nat →
  Forall (λ p, Z.of_nat (length p) <= 65535) packets → (length packets < fuel)%nat →
  stdio_vpn_in fuel clock (concat (map stdio_vpn_frame packets) ++ rest) q = (captured_all clock packets q, Ok tt).
Proof.
  induction packets as [|p packets IH]; intros [|fuel] clock q rest Hr Hp Hf; cbn [length] in Hf; try lia.
  - cbn [map concat app stdio_vpn_in captured_all]. by rewrite read_exact_short.
  - inversion_clear Hp as [|? ? Hlp Hp']. cbn [map concat stdio_vpn_in captured_all]. unfold stdio_vpn_frame at 1.
    rewrite <-!app_assoc, read_exact_app by apply length_be_bytes.
    rewrite Z.min_l, be_val_small by (cbn; lia). rewrite read_exact_app by lia. apply IH; [done..|lia].
Qed.

Lemma length_stdio_frames packets : (length packets <= length (concat (map stdio_vpn_frame packets)))%nat.
Proof.
  induction packets as [|p packets IH]; [done|]. cbn [map concat]. unfold stdio_vpn_frame at 1.
  rewrite !length_app, length_be_bytes. cbn [length]. lia.
Qed.

(** Packets over the standard streams.  Packets of at most 65535 bytes that one
    client writes to its standard output are captured by a client that reads
    them from its standard input: each whole, in order, and up to the point where
    the stream is cut between packets or inside a length. *)
Theorem stdio_vpn_roundtrip clock packets rest q :
  Forall (λ p, Z.of_nat (length p) <= 65535) packets → (length rest < 2)%nat →
  run_stdio_vpn_in clock (concat (map stdio_vpn_frame packets) ++ rest) q = (captured_all clock packets q, Ok tt).
Proof.
  intros Hp Hr. apply stdio_vpn_in_frames; [done..|]. rewrite length_app.
  pose proof (length_stdio_frames packets). lia.
Qed.

Lemma stdio_vpn_roundtrip_witness :
  run_stdio_vpn_in Z.of_nat (concat (map stdio_vpn_frame [[x01; x02]; []; [x03]]) ++ [x00]) (mkQueues [] [])
  = (mkQueues [([x01; x02], 0); ([], 1); ([x03], 2)] [], Ok tt).
Proof.
  rewrite (stdio_vpn_roundtrip Z.of_nat [[x01; x02]; []; [x03]] [x00]); [reflexivity| |].
  - repeat (constructor; [cbn; lia|]). constructor.
  - cbn. lia.
Defined.

(** A longer packet is announced as one of 65535 bytes and written whole: what is
    behind its first 65535 bytes is read as the next length. *)
Lemma stdio_oversized_desync packet rest : Z.of_nat (length packet) = 65535 → rest ≠ [] →
  stdio_vpn_frame (packet ++ rest) = stdio_vpn_frame packet ++ rest.
Proof.
  intros Hl Hr. unfold stdio_vpn_frame. rewrite length_app, Hl, Z.min_r by lia. by rewrite Z.min_l, app_assoc by lia.
Qed.

(** ** RPC over the standard streams *)

Section stdio_rpc.
Context {Req Resp St : Type}.
Context (read_req : string → option Req) (show_resp : Resp → string).
Context (call_raw : St → Req → St * res string Resp).

(** The answers printed for the lines read; a line that is not a request, or a
    call that fails, ends the process. *)
Fixpoint stdio_rpc (st : St) (lines : list string) : St * res unit (list string) :=
  match lines with
  | [] => (st, Ok [])
  | line :: lines =>
      match read_req line with
      | None => (st, Panic)
      | Some req =>
          match call_raw st req with
          | (st, Ok resp) =>
              let '(st, r) := stdio_rpc st lines in (st, l ← r; Ok (show_resp resp :: l))
          | (st, _) => (st, Panic)
          end
      end
  end.

(** One answer per request, in order, as long as all lines are requests that are
    answered. *)
Lemma stdio_rpc_answers lines : ∀ st st' l, stdio_rpc st lines = (st', Ok l) →
  length l = length lines ∧ Forall (λ line, is_Some (read_req line)) lines.
Proof.
  induction lines as [|line lines IH]; intros st st' l E; cbn in E; [by simplify_eq|].
  destruct (read_req line) as [req|] eqn:Er; [|done]. destruct (call_raw st req) as [st1 [resp| |]]; [|done..].
  destruct (stdio_rpc st1 lines) as [st2 r] eqn:Es. injection E as <- E. apply bind_Ok in E as (l' & -> & [= <-]).
  destruct (IH _ _ _ Es) as [Hl Hf]. split; [cbn; lia|]. constructor; [by rewrite Er|done].
Qed.
End stdio_rpc.
