(* ===== verification/GuiApp.v ===== *)
(** * The graphical client
    (binaries/geph5-client-gui/src/{settings,lib,main}.rs, daemon/inline.rs,
    tabs/{login,settings,dashboard}.rs)

    What a user can do in the windows, as events on the stored settings, the
    login form, the client that runs inside the program and the proxy settings
    of the system.  Drawing is not modelled; [shown] says which events the
    window on screen offers. *)
From Stdlib Require Import ZArith Lia Floats.SpecFloat.
From stdpp Require Import sorting.
From S2P Require Import Prelude Crypto Mizaru Protocol Text IpText Cache Dialer Routes GetDialer Bdp ExitNet ClientNet Vpn Transport BrokerSource ClientMain.
Local Open Scope Z_scope.

(** ** Locations *)

(** [Itertools::unique]: first occurrences, in order. *)
Fixpoint unique_from {A} `{EqDecision A} (seen l : list A) : list A :=
  match l with
  | [] => []
  | a :: l => if decide (a ∈ seen) then unique_from seen l else a :: unique_from (a :: seen) l
  end.
Definition unique {A} `{EqDecision A} (l : list A) : list A := unique_from [] l.

Lemma elem_of_unique_from {A} `{EqDecision A} (l : list A) a : ∀ seen,
  a ∈ unique_from seen l ↔ a ∈ l ∧ a ∉ seen.
Proof.
  induction l as [|b l IH]; intros seen; simpl; [set_solver|].
  destruct (decide (b ∈ seen)); [rewrite IH; set_solver|]. rewrite elem_of_cons, IH.
  destruct (decide (a = b)) as [->|]; set_solver.
Qed.
Lemma elem_of_unique {A} `{EqDecision A} (l : list A) a : a ∈ unique l ↔ a ∈ l.
Proof. unfold unique. rewrite elem_of_unique_from. set_solver. Qed.

Section locations.
(** The order of countries and cities. *)
Context (loc_le : string * string → string * string → Prop) `{!RelDecision loc_le}.

Definition location (e : list byte * ExitDescriptor) : string * string := (country e.2, city e.2).
Definition earlier (a b : list byte * ExitDescriptor) : Prop := loc_le (location a) (location b).
#[export] Instance earlier_dec : RelDecision earlier := λ a b, decide_rel loc_le (location a) (location b).
(** The list fetched for the choice of a location; the signatures are not looked at. *)
Definition location_list (is_plus : bool) (all_exits free_exits : ExitList) : ExitList :=
  mkExitList (merge_sort earlier
    (Protocol.all_exits (if is_plus then all_exits else free_exits))).

Lemma elem_of_location_list is_plus all free e :
  e ∈ Protocol.all_exits (location_list is_plus all free) ↔ e ∈ Protocol.all_exits (if is_plus then all else free).
Proof. unfold location_list. cbn. by rewrite (merge_sort_Permutation earlier). Qed.

Definition country_choices (l : ExitList) : list (option string) :=
  None :: map Some (unique (map (λ e, country e.2) (Protocol.all_exits l))).
Definition city_choices (c : string) (l : ExitList) : list (option string) :=
  None :: map Some (unique (map (λ e, city e.2) (filter (λ e, country e.2 = c) (Protocol.all_exits l)))).
End locations.

(** ** Settings *)

Record settings := mkSettings {
  USERNAME : string; PASSWORD : string;
  PROXY_AUTOCONF : bool; BRIDGE_MODE : BridgeMode;
  SELECTED_COUNTRY : option string; SELECTED_CITY : option string;
  PASSTHROUGH_CHINA : bool; CUSTOM_BROKER : option BrokerSource;
  SOCKS5_PORT : Z; HTTP_PROXY_PORT : Z; VPN_MODE : bool
}.
Definition default_settings : settings :=
  mkSettings "" "" true AutoBridges None None false None 9999 19999 false.

Definition set_credentials (u p : string) (s : settings) : settings :=
  mkSettings u p (PROXY_AUTOCONF s) (BRIDGE_MODE s) (SELECTED_COUNTRY s) (SELECTED_CITY s) (PASSTHROUGH_CHINA s)
    (CUSTOM_BROKER s) (SOCKS5_PORT s) (HTTP_PROXY_PORT s) (VPN_MODE s).
Definition set_location (c ci : option string) (s : settings) : settings :=
  mkSettings (USERNAME s) (PASSWORD s) (PROXY_AUTOCONF s) (BRIDGE_MODE s) c ci (PASSTHROUGH_CHINA s)
    (CUSTOM_BROKER s) (SOCKS5_PORT s) (HTTP_PROXY_PORT s) (VPN_MODE s).
(** The check boxes, the bridge mode and the ports. *)
Definition set_network (autoconf : bool) (m : BridgeMode) (china : bool) (socks http : Z) (v : bool) (s : settings) : settings :=
  mkSettings (USERNAME s) (PASSWORD s) autoconf m (SELECTED_COUNTRY s) (SELECTED_CITY s) china
    (CUSTOM_BROKER s) socks http v.

Definition localhost (port : Z) : SocketAddr := mkAddr (V4 2130706433) port.

Definition constraint_of (s : settings) : ExitConstraint :=
  match SELECTED_COUNTRY s, SELECTED_CITY s with
  | Some c, Some ci => CountryCity c ci
  | Some c, None => Country c
  | _, _ => AutoExit
  end.

(** [shipped] is the configuration compiled into the program. *)
Definition get_config (to_json : Credential → list byte) (shipped : ClientConfig) (s : settings) : ClientConfig :=
  let creds := LegacyUsernamePassword (USERNAME s) (PASSWORD s) in
  mkClientConfig
    (mkConfig (constraint_of s) (BRIDGE_MODE s) (broker_keys (dialing shipped)) (to_json creds))
    (Some (localhost (SOCKS5_PORT s))) (Some (localhost (HTTP_PROXY_PORT s))) (pac_listen shipped) (control_listen shipped)
    (cache_path shipped) (match CUSTOM_BROKER s with Some b => Some b | None => broker shipped end)
    (VPN_MODE s) (vpn_fd shipped) (spoof_dns shipped) (PASSTHROUGH_CHINA s) (dry_run shipped) creds
    (sess_metadata shipped) (task_limit shipped).

(** ** The program *)

(** The promise of a login: the credentials it was started with, and its result. *)
Record login_check := mkCheck { chk_user : string; chk_pass : string; chk_result : option (res string unit) }.

Record gui := mkGui {
  stored : settings;
  form_user : string; form_pass : string;
  check_login : option login_check;
  daemon : option ClientConfig;
  system_proxy : option SocketAddr
}.

Section app.
Context (to_json : Credential → list byte) (shipped : ClientConfig).
(** The answer of the broker to credentials. *)
Context (broker_accepts : string → string → bool).

Inductive gui_event :=
| TypeLogin (u p : string)
| ClickLogin
| CheckDone (r : res string unit)
| RenderLogin
| ClickOk
| ClickConnect (proxy_ok : bool)
| ClickDisconnect (proxy_ok : bool)
| ClickLogout
| ChooseCountry (l : ExitList) (c : option string)
| ChooseCity (l : ExitList) (ci : option string)
| ChangeNetwork (autoconf : bool) (m : BridgeMode) (china : bool) (socks http : Z) (v : bool).

Definition logged_in (g : gui) : bool := negb (String.eqb (USERNAME (stored g)) "").

(** What the window offers: the login form until a username is stored, the tabs
    after that; the form is hidden while a login is checked.  Which of Connect and
    Disconnect the dashboard shows depends on the last answer of the client, which
    may be old: both are possible here. *)
Definition shown (g : gui) (ev : gui_event) : bool :=
  match ev with
  | TypeLogin _ _ | ClickLogin => negb (logged_in g) && match check_login g with None => true | Some _ => false end
  | CheckDone r =>
      match check_login g with
      | Some (mkCheck u p None) =>
          match r with Ok _ => broker_accepts u p | Err _ => true | Panic => false end
      | _ => false
      end
  | RenderLogin => negb (logged_in g)
  | ClickOk => negb (logged_in g) && match check_login g with Some (mkCheck _ _ (Some (Err _))) => true | _ => false end
  | ChooseCountry l c => logged_in g && bool_decide (c ∈ country_choices l)
  | ChooseCity l ci =>
      logged_in g && match SELECTED_COUNTRY (stored g) with
                     | Some c => bool_decide (ci ∈ city_choices c l) | None => false end
  | _ => logged_in g
  end.

Definition with_stored (s : settings) (g : gui) : gui :=
  mkGui s (form_user g) (form_pass g) (check_login g) (daemon g) (system_proxy g).
Definition with_check (c : option login_check) (g : gui) : gui :=
  mkGui (stored g) (form_user g) (form_pass g) c (daemon g) (system_proxy g).

(** The login form (tabs/login.rs). *)
Definition click_login (g : gui) : gui := with_check (Some (mkCheck (form_user g) (form_pass g) None)) g.
Definition check_done (r : res string unit) (g : gui) : gui :=
  match check_login g with
  | Some c => with_check (Some (mkCheck (chk_user c) (chk_pass c) (Some r))) g
  | None => g
  end.
Definition render_login (g : gui) : gui :=
  match check_login g with
  | Some (mkCheck _ _ (Some (Ok _))) =>
      mkGui (set_credentials (form_user g) (form_pass g) (stored g)) "" "" None (daemon g) (system_proxy g)
  | _ => g
  end.

(** The buttons of the dashboard (tabs/dashboard.rs): starting the client replaces
    the one that runs (daemon/inline.rs). *)
Definition click_connect (proxy_ok : bool) (g : gui) : gui :=
  let cfg := get_config to_json shipped (stored g) in
  mkGui (stored g) (form_user g) (form_pass g) (check_login g) (Some cfg)
    (if PROXY_AUTOCONF (stored g) && proxy_ok then http_proxy_listen cfg else system_proxy g).
Definition click_disconnect (proxy_ok : bool) (g : gui) : gui :=
  mkGui (stored g) (form_user g) (form_pass g) (check_login g) None (if proxy_ok then None else system_proxy g).

(** The settings (tabs/settings.rs). *)
Definition click_logout (g : gui) : gui :=
  mkGui (set_credentials "" "" (stored g)) (form_user g) (form_pass g) (check_login g) None (system_proxy g).
Definition choose_country (c : option string) (g : gui) : gui :=
  with_stored (set_location c (if decide (c = SELECTED_COUNTRY (stored g)) then SELECTED_CITY (stored g) else None) (stored g)) g.
Definition choose_city (ci : option string) (g : gui) : gui :=
  with_stored (set_location (SELECTED_COUNTRY (stored g)) ci (stored g)) g.

Definition gui_step (g : gui) (ev : gui_event) : gui :=
  match ev with
  | TypeLogin u p => mkGui (stored g) u p (check_login g) (daemon g) (system_proxy g)
  | ClickLogin => click_login g
  | CheckDone r => check_done r g
  | RenderLogin => render_login g
  | ClickOk => with_check None g
  | ClickConnect proxy_ok => click_connect proxy_ok g
  | ClickDisconnect proxy_ok => click_disconnect proxy_ok g
  | ClickLogout => click_logout g
  | ChooseCountry l c => choose_country c g
  | ChooseCity l ci => choose_city ci g
  | ChangeNetwork autoconf m china socks http v => with_stored (set_network autoconf m china socks http v (stored g)) g
  end.

Definition gui_run (g : gui) (evs : list gui_event) : option gui :=
  foldl (λ o ev, g ← o; if shown g ev then Some (gui_step g ev) else None) (Some g) evs.

Definition gui_start (s : settings) : gui := mkGui s "" "" None None None.

(** ** What is stored was accepted *)

Record creds_inv (g : gui) : Prop := mkCredsInv {
  ci_form : ∀ c, check_login g = Some c → form_user g = chk_user c ∧ form_pass g = chk_pass c;
  ci_result : ∀ c, check_login g = Some c → chk_result c = Some (Ok tt) → broker_accepts (chk_user c) (chk_pass c) = true;
  ci_stored : logged_in g = true → broker_accepts (USERNAME (stored g)) (PASSWORD (stored g)) = true
}.

Lemma gui_step_creds g ev : shown g ev = true → creds_inv g → creds_inv (gui_step g ev).
Proof.
  intros Hs [I1 I2 I3]. destruct ev; cbn [shown gui_step] in *; unfold check_done, render_login; try done.
  - apply andb_true_iff in Hs as [_ Hs]. destruct (check_login g) eqn:Ec; [done|].
    split; cbn; rewrite ?Ec; try done.
  - split; cbn; [by intros c [= <-]|by intros c [= <-]|done].
  - destruct (check_login g) as [[u p [r'|]]|] eqn:Ec; [done| |done].
    destruct (I1 _ eq_refl) as [Eu Ep]. split; cbn in *; [by intros c [= <-]| |done].
    intros c [= <-] [= ->]. done.
  - destruct (check_login g) as [[u p [[[]| |]|]]|] eqn:Ec; try (by split; rewrite ?Ec).
    destruct (I1 _ eq_refl) as [Eu Ep]. split; cbn in *; try done. intros _. rewrite Eu, Ep. by apply (I2 _ eq_refl).
Qed.

(** ** The location that is stored was on a list *)

(** A country, and a city of it, that the user found stored or has chosen from a list
    with an exit there.  The lists of different choices may differ: they are fetched
    again and again. *)
Definition known_location (s : settings) (evs : list gui_event) (c : string) (oci : option string) : Prop :=
  match oci with
  | None => SELECTED_COUNTRY s = Some c ∨
      ∃ l e, ChooseCountry l (Some c) ∈ evs ∧ e ∈ Protocol.all_exits l ∧ country e.2 = c
  | Some ci => SELECTED_COUNTRY s = Some c ∧ SELECTED_CITY s = Some ci ∨
      ∃ l e, ChooseCity l (Some ci) ∈ evs ∧ e ∈ Protocol.all_exits l ∧ country e.2 = c ∧ city e.2 = ci
  end.
Definition location_inv (s : settings) (evs : list gui_event) (g : gui) : Prop :=
  match SELECTED_COUNTRY (stored g) with
  | None => SELECTED_CITY (stored g) = None
  | Some c => known_location s evs c None ∧ ∀ ci, SELECTED_CITY (stored g) = Some ci → known_location s evs c (Some ci)
  end.

Lemma known_more s evs evs' c oci : known_location s evs c oci → known_location s (evs ++ evs') c oci.
Proof. destruct oci; cbn; intros [?|(l & e & Hin & ?)]; [by left|right|by left|right]; exists l, e; (split; [set_solver|done]). Qed.
Lemma location_more s evs evs' g : location_inv s evs g → location_inv s (evs ++ evs') g.
Proof. unfold location_inv. destruct (SELECTED_COUNTRY _); [|done]. intros [H1 H2]. eauto using known_more. Qed.

Lemma gui_step_location s past g ev : shown g ev = true → location_inv s past g → location_inv s (past ++ [ev]) (gui_step g ev).
Proof.
  intros Hs Hi. pose proof (location_more s past [ev] g Hi) as Hm. unfold location_inv in *.
  destruct ev as [| | | | | | | |l c|l ci|]; cbn [shown gui_step] in *; unfold check_done, render_login; try done.
  - destruct (check_login g) as [c|]; done.
  - destruct (check_login g) as [[u p [[| |]|]]|]; done.
  - apply andb_true_iff in Hs as [_ Hs%bool_decide_eq_true]. cbn.
    destruct (decide (c = SELECTED_COUNTRY (stored g))) as [->|Hne]; [done|].
    destruct c as [c|]; [|done]. apply elem_of_cons in Hs as [?|Hs]; [done|].
    apply list_elem_of_fmap in Hs as (c' & [= <-] & Hc). apply elem_of_unique, list_elem_of_fmap in Hc as (e & -> & He).
    split; [|done]. right. exists l, e. split_and!; [set_solver|done..].
  - apply andb_true_iff in Hs as [_ Hs]. cbn. destruct (SELECTED_COUNTRY (stored g)) as [c|]; [|done].
    destruct Hm as [Hm _]. split; [done|]. intros ci' ->. apply bool_decide_eq_true, elem_of_cons in Hs as [?|Hs]; [done|].
    apply list_elem_of_fmap in Hs as (ci2 & [= <-] & Hc). apply elem_of_unique, list_elem_of_fmap in Hc as (e & -> & He).
    apply list_elem_of_filter in He as [Hc He]. right. exists l, e. split_and!; [set_solver|done..].
Qed.

(** ** The client that runs *)

(** Settings as a run leaves them: credentials that were accepted, and no city without a
    country. *)
Record settings_ok (s : settings) : Prop := mkSettingsOk {
  so_creds : USERNAME s ≠ ""%string → broker_accepts (USERNAME s) (PASSWORD s) = true;
  so_city : SELECTED_COUNTRY s = None → SELECTED_CITY s = None
}.

(** A configuration that the user asked for. *)
Record asked_for (s : settings) (evs : list gui_event) (cfg : ClientConfig) : Prop := mkAskedFor {
  af_creds : ∃ u p, credentials cfg = LegacyUsernamePassword u p ∧ broker_accepts u p = true;
  af_exit : match exit_constraint (dialing cfg) with
            | AutoExit => True
            | Country c => known_location s evs c None
            | CountryCity c ci => known_location s evs c (Some ci)
            | _ => False
            end
}.

Record run_inv (s : settings) (past : list gui_event) (g : gui) : Prop := mkRunInv {
  ri_creds : creds_inv g;
  ri_location : location_inv s past g;
  ri_daemon : ∀ cfg, daemon g = Some cfg → asked_for s past cfg
}.

Lemma asked_for_more s evs evs' cfg : asked_for s evs cfg → asked_for s (evs ++ evs') cfg.
Proof. intros [H1 H2]. split; [done|]. destruct (exit_constraint _); eauto using known_more. Qed.

Lemma get_config_asked_for s past g : logged_in g = true → creds_inv g → location_inv s past g →
  asked_for s past (get_config to_json shipped (stored g)).
Proof.
  intros Hl Hc Hi. split; [exists (USERNAME (stored g)), (PASSWORD (stored g)); split; [done|]; by apply ci_stored|].
  cbn [get_config dialing exit_constraint]. unfold constraint_of, location_inv in *. destruct (SELECTED_COUNTRY (stored g)) as [c|]; [|done].
  destruct Hi as [H1 H2]. destruct (SELECTED_CITY (stored g)) as [ci|]; auto.
Qed.

Lemma gui_step_daemon g ev cfg : shown g ev = true → daemon (gui_step g ev) = Some cfg →
  daemon g = Some cfg ∨ logged_in g = true ∧ cfg = get_config to_json shipped (stored g).
Proof.
  destruct ev; cbn [shown gui_step]; unfold check_done, render_login; try (by auto); intros Hs.
  - destruct (check_login g); by left.
  - destruct (check_login g) as [[u p [[| |]|]]|]; by left.
  - cbn. intros [= <-]. by right.
Qed.

Lemma gui_step_inv s past g ev : shown g ev = true → run_inv s past g → run_inv s (past ++ [ev]) (gui_step g ev).
Proof.
  intros Hs [I1 I2 I3]. split; [by apply gui_step_creds|by apply gui_step_location|].
  intros cfg [Hd|[Hl ->]]%gui_step_daemon; [by apply asked_for_more, I3|apply asked_for_more; by apply get_config_asked_for|done].
Qed.

Lemma gui_run_inv s evs : ∀ past g g', run_inv s past g → gui_run g evs = Some g' → run_inv s (past ++ evs) g'.
Proof.
  unfold gui_run. induction evs as [|ev evs IH]; intros past g g' Hi E; cbn in E; [rewrite app_nil_r; by simplify_eq|].
  destruct (shown g ev) eqn:Es.
  - change (ev :: evs) with ([ev] ++ evs); rewrite app_assoc. eapply IH; [|done]. by apply gui_step_inv.
  - assert (∀ l, foldl (λ o ev, g ← o; if shown g ev then Some (gui_step g ev) else None) None l = None) as Hn
      by (intros l; by induction l). by rewrite Hn in E.
Qed.

Lemma gui_start_inv s : settings_ok s → run_inv s [] (gui_start s).
Proof.
  intros [H1 H2]. split; [split; cbn; try done|..|done].
  - intros Hl%negb_true_iff%String.eqb_neq. auto.
  - unfold location_inv. cbn. destruct (SELECTED_COUNTRY s) as [c|] eqn:Ec; [|auto]. split; [by left|]. intros ci Eci. by left.
Qed.

Lemma pick_exit_total `{Blake3} rank key c l :
  (∀ d, c ≠ Direct d) → (∃ e, e ∈ Protocol.all_exits l ∧ exit_matches c e.2 = true) →
  ∃ pk e, pick_exit_with_constraint rank key c l = Ok (pk, e).
Proof.
  intros Hd (e & He & Hm). unfold pick_exit_with_constraint.
  assert (e ∈ filter (λ e, exit_matches c e.2) (Protocol.all_exits l)) as Hin
    by (apply list_elem_of_filter; split; [by apply Is_true_true|done]).
  pose proof (min_by_key_spec (picker rank key) (filter (λ e, exit_matches c e.2) (Protocol.all_exits l))) as Hs.
  destruct c; try (by destruct (Hd _ eq_refl)); destruct (filter _ _) as [|e1 l1] eqn:Ef; try (by apply elem_of_nil in Hin);
    destruct (min_by_key _ _) as [[pk e']|]; try done; by eexists _, _.
Qed.

(** An exit where a user wants it. *)
Definition located (c : ExitConstraint) (e : ExitDescriptor) : Prop :=
  match c with
  | Country co => country e = co
  | CountryCity co ci => country e = co ∧ city e = ci
  | _ => True
  end.

(** Picking an exit at a location, from any list. *)
Lemma pick_located `{Blake3} rank key c exits :
  match c with AutoExit | Country _ | CountryCity _ _ => True | _ => False end →
  match pick_exit_with_constraint rank key c exits with
  | Ok (pk, e) => (pk, e) ∈ Protocol.all_exits exits ∧ located c e
  | Err _ => ∀ x, x ∈ Protocol.all_exits exits → ¬ located c x.2
  | Panic => False
  end.
Proof.
  intros Hc. assert (Hd : ∀ d, c ≠ Direct d) by (intros d ->; done).
  assert (Hl : ∀ e, located c e ↔ exit_matches c e = true).
  { intros e. destruct c; try done; unfold exit_matches; cbn; rewrite ?andb_true_iff, ?bool_decide_eq_true; naive_solver. }
  destruct (existsb (λ x, exit_matches c x.2) (Protocol.all_exits exits)) eqn:Hx.
  - apply existsb_exists in Hx as (x & Hin%list_elem_of_In & Hm).
    destruct (pick_exit_total rank key c exits Hd) as (pk & e & Ep); [by exists x|]. rewrite Ep.
    apply pick_exit_Ok in Ep as (Hin' & Hm' & _). split; [done|]. by apply Hl.
  - assert (Hno : ∀ x, x ∈ Protocol.all_exits exits → exit_matches c x.2 = false).
    { intros x Hin. apply not_true_is_false. intros Hm. apply not_true_iff_false in Hx. apply Hx, existsb_exists.
      exists x. by rewrite <-list_elem_of_In. }
    rewrite pick_exit_no_match by done. intros x Hin Hm%Hl. by rewrite Hno in Hm.
Qed.


(** ** The proxy settings of the system *)

(** Disconnecting stops the client and takes the settings back. *)
Lemma disconnect_restores g : daemon (gui_step g (ClickDisconnect true)) = None ∧ system_proxy (gui_step g (ClickDisconnect true)) = None.
Proof. done. Qed.
End app.

(** ** A session *)
Module GuiDemo.
Definition exit1 (c ci : string) : list byte * ExitDescriptor :=
  ([x01], mkExit (mkAddr (V4 1) 1) (mkAddr (V4 1) 2) c ci (S754_zero false) 0).
Definition exits : ExitList := mkExitList [exit1 "FRA" "Paris"; exit1 "CAN" "Montreal"; exit1 "FRA" "Lyon"].
Definition dial_cfg : Config := mkConfig AutoExit AutoBridges None [].
Definition shipped : ClientConfig :=
  mkClientConfig dial_cfg None None None None None (Some (SrcDirect "b")) false None false false false TestDummy "" None.
Definition json (c : Credential) : list byte := [].
Definition accepts (u p : string) : bool := String.eqb p "right".
Definition any_le (a b : string * string) : Prop := True.
#[export] Instance any_le_dec : RelDecision any_le := λ _ _, left I.
Definition list1 : ExitList := location_list any_le true exits (mkExitList []).
Definition login : list gui_event :=
  [TypeLogin "me" "wrong"; ClickLogin; CheckDone (Err ""); RenderLogin; ClickOk;
   TypeLogin "me" "right"; ClickLogin; CheckDone (Ok tt); RenderLogin].
Definition evs : list gui_event := login ++ [ChooseCountry list1 (Some "FRA"%string); ChooseCity list1 (Some "Lyon"%string)].
End GuiDemo.
Import GuiDemo.

(** A user who logs out while connected is left with the proxy settings of a client
    that no longer runs, and with a window that does not offer to disconnect. *)
Example logout_leaves_proxy :
  ∃ g, gui_run json shipped accepts (gui_start default_settings) (evs ++ [ClickConnect true; ClickLogout]) = Some g ∧
    daemon g = None ∧ system_proxy g = Some (localhost 19999) ∧ shown accepts g (ClickDisconnect true) = false.
Proof. eexists. split; [vm_compute; reflexivity|]. vm_compute. done. Qed.

Import Toy.
