(* ===== verification/News.v ===== *)
(** * News of the broker (binaries/geph5-broker/src/news.rs)

    News are made by a language model from announcements, once an hour and per
    language, and kept in a file.  A request is answered from the file while
    there is one; the file is renewed in the background.  What the web answers,
    the file system and the clock are inputs; the requests and refreshes run in
    any order. *)
From Stdlib Require Import ZArith Lia.
From S2P Require Import Prelude Crypto Protocol.
Local Open Scope Z_scope.

Record PreNewsItem := mkPreNews { pre_title : string; pre_date : string; pre_contents : string }.
Record BrokerNewsItem := mkBrokerNews { bn_title : string; bn_date_unix : Z; bn_contents : string }.

Definition supported (lang_code : string) : bool :=
  bool_decide (lang_code ∈ ["en"; "zh-CN"; "zh-TW"; "fa"; "ru"]%string).

(** The file of a language: what it parses to, and when it was modified, in
    seconds (both may fail to be read). *)
Record news_file := mkNewsFile { nf_news : option (list BrokerNewsItem); nf_modified : option Z }.

Section news.
(** [NaiveDate::parse_from_str] with [%Y-%m-%d], as the timestamp of that day's start. *)
Context (parse_date : string → option Z).

Definition date_to_unix_timestamp (date_str : string) : res string Z := unwrap (parse_date date_str).

Fixpoint convert_items (l : list PreNewsItem) : res string (list BrokerNewsItem) :=
  match l with
  | [] => Ok []
  | item :: l =>
      ts ← date_to_unix_timestamp (pre_date item);
      rest ← convert_items l;
      Ok (mkBrokerNews (pre_title item) (cast_u 64 ts) (pre_contents item) :: rest)
  end.

(** [web]: what a request in a language would bring now, the items in the answer of
    the model or what went wrong before; [written]: whether the file could be
    written. *)
Definition refresh_news_cache (now : Z) (lang_code : string) (web : string → res string (list PreNewsItem)) (written : bool)
    (file : option news_file) : option news_file * res string (list BrokerNewsItem) :=
  match (items ← web lang_code; convert_items items) with
  | Ok news => if written then (Some (mkNewsFile (Some news) (Some now)), Ok news) else (file, Err "cannot write"%string)
  | r => (file, r)
  end.

(** An hour, or a clock that ran backwards. *)
Definition needs_refresh (now : Z) (file : option news_file) : bool :=
  match file ≫= nf_modified with
  | Some modified => if modified <=? now then 3600 <=? now - modified else true
  | None => true
  end.

Inductive fetch :=
| Serve (news : list BrokerNewsItem) (refresh : bool)   (* with a refresh in the background *)
| Blocking                                              (* wait for a refresh *)
| Unsupported.

Definition fetch_news (now : Z) (lang_code : string) (file : option news_file) : fetch :=
  if supported lang_code then
    match file ≫= nf_news with
    | Some news => Serve news (needs_refresh now file)
    | None => Blocking
    end
  else Unsupported.

(** ** The broker's news over time *)

Record news_state := mkNewsState {
  news_files : gmap string news_file;
  REFRESH_MUTEX : option string;          (* the language of the background refresh that holds it *)
  spawned : list string;                  (* background tasks that have not tried the lock *)
  waiting : list string;                  (* requests in a blocking refresh *)
  answered : list (string * list BrokerNewsItem)
}.
Definition news_start : news_state := mkNewsState ∅ None [] [] [].

Inductive news_event :=
| Request (now : Z) (lang : string)
| TryLock (i : nat)
| Refreshed (now : Z) (web : string → res string (list PreNewsItem)) (written : bool)
| Waited (i : nat) (now : Z) (web : string → res string (list PreNewsItem)) (written : bool).

Definition store_file (lang : string) (f : option news_file) (m : gmap string news_file) : gmap string news_file :=
  match f with Some f => <[lang := f]> m | None => m end.

(** [Err tt]: the event cannot happen now. *)
Definition news_step (s : news_state) (ev : news_event) : res unit news_state :=
  match ev with
  | Request now lang =>
      match fetch_news now lang (news_files s !! lang) with
      | Serve news refresh =>
          Ok (mkNewsState (news_files s) (REFRESH_MUTEX s) (if refresh then spawned s ++ [lang] else spawned s)
                (waiting s) (answered s ++ [(lang, news)]))
      | Blocking => Ok (mkNewsState (news_files s) (REFRESH_MUTEX s) (spawned s) (waiting s ++ [lang]) (answered s))
      | Unsupported => Ok s
      end
  | TryLock i =>
      match spawned s !! i with
      | Some lang =>
          Ok (mkNewsState (news_files s) (match REFRESH_MUTEX s with Some l => Some l | None => Some lang end)
                (delete i (spawned s)) (waiting s) (answered s))
      | None => Err tt
      end
  | Refreshed now web written =>
      match REFRESH_MUTEX s with
      | Some lang =>
          match refresh_news_cache now lang web written (news_files s !! lang) with
          | (_, Panic) => Panic
          | (f, _) => Ok (mkNewsState (store_file lang f (news_files s)) None (spawned s) (waiting s) (answered s))
          end
      | None => Err tt
      end
  | Waited i now web written =>
      match waiting s !! i with
      | Some lang =>
          match refresh_news_cache now lang web written (news_files s !! lang) with
          | (_, Panic) => Panic
          | (f, r) =>
              Ok (mkNewsState (store_file lang f (news_files s)) (REFRESH_MUTEX s) (spawned s) (delete i (waiting s))
                    (match r with Ok news => answered s ++ [(lang, news)] | _ => answered s end))
          end
      | None => Err tt
      end
  end.

Fixpoint news_run (s : news_state) (evs : list news_event) : res unit news_state :=
  match evs with [] => Ok s | ev :: evs => s ← news_step s ev; news_run s evs end.

(** ** What is served *)

(** The web as an event that wrote a file saw it. *)
Definition fetched (ev : news_event) : option (string → res string (list PreNewsItem)) :=
  match ev with Refreshed _ web true | Waited _ _ web true => Some web | _ => None end.

(** [news] were the answer to a request in [lang]. *)
Definition genuine (evs : list news_event) (lang : string) (news : list BrokerNewsItem) : Prop :=
  ∃ web items, web ∈ omap fetched evs ∧ web lang = Ok items ∧ convert_items items = Ok news.

Record news_inv (evs : list news_event) (s : news_state) : Prop := mkNewsInv {
  ni_files : ∀ lang f, news_files s !! lang = Some f →
    supported lang = true ∧ ∃ news t, f = mkNewsFile (Some news) (Some t) ∧ genuine evs lang news;
  ni_answered : ∀ lang news, (lang, news) ∈ answered s → supported lang = true ∧ genuine evs lang news;
  ni_tasks : Forall (λ l, supported l = true) (option_list (REFRESH_MUTEX s) ++ spawned s ++ waiting s)
}.

Lemma genuine_app evs ev lang news : genuine evs lang news → genuine (evs ++ [ev]) lang news.
Proof. intros (web & items & Hin & E). exists web, items. split; [|done]. rewrite omap_app. set_solver. Qed.

Lemma refresh_cases now lang web written file f r : refresh_news_cache now lang web written file = (f, r) →
  (f = file ∧ ∀ news, r ≠ Ok news) ∨
  ∃ items news, web lang = Ok items ∧ written = true ∧ convert_items items = Ok news ∧
    f = Some (mkNewsFile (Some news) (Some now)) ∧ r = Ok news.
Proof.
  unfold refresh_news_cache. destruct (web lang) as [items|e|]; cbn [mbind res_bind]; [|intros [= <- <-]; by left..].
  destruct (convert_items items) as [news|e|] eqn:E; [|intros [= <- <-]; by left..].
  destruct written; intros [= <- <-]; [right|by left]. by exists items, news.
Qed.

Lemma files_later evs ev s : news_inv evs s → ∀ l f, news_files s !! l = Some f →
  supported l = true ∧ ∃ news t, f = mkNewsFile (Some news) (Some t) ∧ genuine (evs ++ [ev]) l news.
Proof.
  intros [I1 _ _] l f El. destruct (I1 _ _ El) as (Hs & news & t & -> & Hg). split; [done|]. eexists _, _.
  split; [done|by apply genuine_app].
Qed.

(** A refresh leaves files that came from the web. *)
Lemma refreshed_files evs ev s lang now web written f r :
  news_inv evs s → supported lang = true → refresh_news_cache now lang web written (news_files s !! lang) = (f, r) →
  fetched ev = (if written then Some web else None) →
  (∀ l f', store_file lang f (news_files s) !! l = Some f' →
     supported l = true ∧ ∃ news t, f' = mkNewsFile (Some news) (Some t) ∧ genuine (evs ++ [ev]) l news) ∧
  (∀ news, r = Ok news → genuine (evs ++ [ev]) lang news).
Proof.
  intros Hi Hl E Hev. pose proof (files_later evs ev s Hi) as Hold.
  apply refresh_cases in E as [[-> Hr]|(items & news & Hw & -> & Hc & -> & ->)].
  - split; [|intros news Hn; by destruct (Hr news)]. intros l f'. unfold store_file.
    destruct (news_files s !! lang) as [f0|] eqn:E0; [|apply Hold]. rewrite insert_id by done. apply Hold.
  - assert (genuine (evs ++ [ev]) lang news) as Hg.
    { exists web, items. split; [|done]. rewrite omap_app. cbn. rewrite Hev. set_solver. }
    split; [|by intros ? [= <-]]. intros l f'. cbn [store_file]. intros [[-> <-]|[_ ?]]%lookup_insert_Some; [|by apply Hold]. split; [done|]. eauto.
Qed.

Lemma news_step_inv evs s ev s' : news_inv evs s → news_step s ev = Ok s' → news_inv (evs ++ [ev]) s'.
Proof.
  intros Hi E. pose proof Hi as [I1 I2 I3].
  assert (∀ lang news, (lang, news) ∈ answered s → supported lang = true ∧ genuine (evs ++ [ev]) lang news) as J2.
  { intros lang news Hin. destruct (I2 _ _ Hin). split; [done|by apply genuine_app]. }
  pose proof (files_later evs ev s Hi) as J1.
  rewrite !Forall_app in I3. destruct I3 as (T1 & T2 & T3).
  destruct ev as [now lang|i|now web written|i now web written]; cbn [news_step] in E.
  - unfold fetch_news in E. destruct (supported lang) eqn:Hs; [|injection E as <-; split; [done..|]; by rewrite !Forall_app].
    destruct (news_files s !! lang) as [f|] eqn:Ef.
    + destruct (J1 _ _ Ef) as (_ & news & t & -> & Hg). cbn [mbind option_bind nf_news] in E. injection E as <-.
      split; cbn [news_files REFRESH_MUTEX spawned waiting answered]; [done| |].
      * intros l n [Hin|[= -> ->]%list_elem_of_singleton]%elem_of_app; [by apply J2|done].
      * rewrite !Forall_app. split_and!; try done. case_match; [|done]. apply Forall_app. split; [done|by apply Forall_singleton].
    + injection E as <-. split; cbn; [done..|]. rewrite !Forall_app. split_and!; try done. by apply Forall_singleton.
  - destruct (spawned s !! i) as [lang|] eqn:Ei; [|done]. injection E as <-. split; cbn; [done..|].
    rewrite !Forall_app. split_and!; [|by apply Forall_delete|done].
    destruct (REFRESH_MUTEX s); [done|]. apply Forall_singleton. by eapply (Forall_lookup_1 _ _ _ _ T2).
  - destruct (REFRESH_MUTEX s) as [lang|] eqn:Em; [|done]. assert (supported lang = true) as Hl by (by inversion T1).
    destruct (refresh_news_cache _ _ _ _) as [f r] eqn:Er.
    destruct (refreshed_files evs (Refreshed now web written) s lang now web written f r Hi Hl Er) as [F1 _];
      [by destruct written|].
    assert (s' = mkNewsState (store_file lang f (news_files s)) None (spawned s) (waiting s) (answered s)) as ->
      by (by destruct r; simplify_eq).
    split; cbn [news_files REFRESH_MUTEX spawned waiting answered]; [done..|].
    rewrite !Forall_app. split_and!; [constructor|done..].
  - destruct (waiting s !! i) as [lang|] eqn:Ei; [|done]. pose proof (Forall_lookup_1 _ _ _ _ T3 Ei) as Hl.
    destruct (refresh_news_cache _ _ _ _) as [f r] eqn:Er.
    destruct (refreshed_files evs (Waited i now web written) s lang now web written f r Hi Hl Er) as [F1 F2];
      [by destruct written|].
    assert (s' = mkNewsState (store_file lang f (news_files s)) (REFRESH_MUTEX s) (spawned s) (delete i (waiting s))
      (match r with Ok news => answered s ++ [(lang, news)] | _ => answered s end)) as ->
      by (by destruct r; simplify_eq).
    split; cbn; [done| |rewrite !Forall_app; split_and!; [done..|by apply Forall_delete]].
    intros l n Hin. destruct r as [news| |]; [|by apply J2..].
    apply elem_of_app in Hin as [Hin|[= -> ->]%list_elem_of_singleton]; [by apply J2|]. split; [done|by apply F2].
Qed.

Lemma news_run_inv evs' : ∀ evs s s', news_inv evs s → news_run s evs' = Ok s' → news_inv (evs ++ evs') s'.
Proof.
  induction evs' as [|ev evs' IH]; intros evs s s' Hi E; cbn in E; [injection E as <-; by rewrite app_nil_r|].
  apply bind_Ok in E as (s1 & E1 & E2). eapply news_step_inv in E1; [|done]. apply (IH _ _ _ E1) in E2.
  by rewrite <-app_assoc in E2.
Qed.

(** What the news are and when they come.  Let requests, background refreshes and
    refreshes that requests wait for interleave in any way, with any answers of
    the web and any failures to write.  Every list handed out is, item by item,
    one that was fetched in its language and written before; once there
    is a file for a language, every later request for it is answered at once; and
    when the file is older than an hour, a refresh is under way in the background
    after that request, unless another one is. *)
Theorem served_news evs s : news_run news_start evs = Ok s →
  (∀ lang news, (lang, news) ∈ answered s → supported lang = true ∧ genuine evs lang news) ∧
  (∀ now lang f, news_files s !! lang = Some f →
     ∃ s' news, news_step s (Request now lang) = Ok s' ∧ nf_news f = Some news ∧
       answered s' = answered s ++ [(lang, news)] ∧ waiting s' = waiting s ∧
       (needs_refresh now (Some f) = true → ∃ s'', news_step s' (TryLock (length (spawned s))) = Ok s'' ∧
          REFRESH_MUTEX s'' = Some (default lang (REFRESH_MUTEX s)))).
Proof.
  intros Hr. assert (news_inv [] news_start) as H0.
  { split; cbn; [|by intros ? ? ?%elem_of_nil|constructor]. intros ? ? E. by rewrite lookup_empty in E. }
  apply (news_run_inv _ _ _ _ H0) in Hr as [I1 I2 _]. split; [done|]. intros now lang f Ef.
  destruct (I1 _ _ Ef) as (Hs & news & t & -> & _).
  exists (mkNewsState (news_files s) (REFRESH_MUTEX s)
    (if needs_refresh now (Some (mkNewsFile (Some news) (Some t))) then spawned s ++ [lang] else spawned s)
    (waiting s) (answered s ++ [(lang, news)])), news.
  split_and!; [|done..|].
  - cbn [news_step]. unfold fetch_news. by rewrite Hs, Ef.
  - intros Hn. rewrite Hn. cbn [news_step spawned]. rewrite list_lookup_middle by done.
    eexists. split; [done|]. cbn. by destruct (REFRESH_MUTEX s).
Qed.

(** A date the model gets wrong ends the broker. *)
Lemma bad_date_aborts s lang now before item after written :
  REFRESH_MUTEX s = Some lang → is_ok (convert_items before) = true → parse_date (pre_date item) = None →
  news_step s (Refreshed now (λ _, Ok (before ++ item :: after)) written) = Panic.
Proof.
  intros Em Hb Hd. cbn [news_step]. rewrite Em. unfold refresh_news_cache. cbn [mbind res_bind].
  assert (convert_items (before ++ item :: after) = Panic) as ->; [|done].
  induction before as [|b before IH]; cbn [app convert_items] in *; unfold date_to_unix_timestamp in *.
  - by rewrite Hd.
  - destruct (parse_date (pre_date b)); [|done]. cbn [unwrap mbind res_bind] in *.
    rewrite IH; [done|]. by destruct (convert_items before).
Qed.
End news.

Module NewsDemo.
Definition date (s : string) : option Z := if String.eqb s "2024-01-02" then Some 1704153600 else None.
Definition item (d : string) : PreNewsItem := mkPreNews "t" d "c".
Definition evs : list news_event :=
  [Request 0 "en"; Waited 0 5 (λ _, Ok [item "2024-01-02"]) true; Request 100 "en"; Request 4000 "en"; Request 4000 "xx"].
End NewsDemo.
Import NewsDemo.

Lemma served_news_witness :
  ∃ s, news_run date news_start evs = Ok s ∧ spawned s = ["en"%string] ∧
    ∀ lang news, (lang, news) ∈ answered s → supported lang = true ∧ genuine date evs lang news.
Proof.
  destruct (news_run date news_start evs) as [s| |] eqn:E; [|vm_compute in E; discriminate..].
  exists s. split; [done|]. split; [vm_compute in E; by injection E as <-|].
  exact (proj1 (served_news date evs s E)).
Defined.

(** One lock serves all languages: a refresh of one makes those of others give up. *)
Example other_language_gives_up :
  ∃ s, news_run date news_start
    [Request 0 "en"; Request 0 "fa"; Waited 0 0 (λ _, Ok []) true; Waited 0 0 (λ _, Ok []) true;
     Request 4000 "en"; Request 4000 "fa"; TryLock 0; TryLock 0] = Ok s ∧
    REFRESH_MUTEX s = Some "en"%string ∧ spawned s = [].
Proof. eexists. split; [vm_compute; reflexivity|]. done. Qed.
