(* ===== verification/RtCompat.v ===== *)
(** * Read buffers between hyper and tokio
    (binaries/geph5-client/src/http_proxy/rt_compat.rs)

    [HyperRtCompat] lets a stream of one library be read through the interface of
    the other.  Both hand the reader a buffer of which some bytes are filled and
    some are known to be initialised; the adapter moves these marks with unsafe
    calls, so that they must never claim bytes nobody has written. *)
From Stdlib Require Import ZArith Lia.
From S2P Require Import Prelude.
Local Open Scope Z_scope.

(** [tokio::io::ReadBuf]: the filled bytes, how many bytes from the start are
    initialised, and the capacity. *)
Record ReadBuf := mkReadBuf { filled : list byte; initialized : Z; capacity : Z }.
Definition filled_len (b : ReadBuf) : Z := Z.of_nat (length (filled b)).
Definition readbuf_ok (b : ReadBuf) : Prop := filled_len b <= initialized b <= capacity b.

Definition assume_init (n : Z) (b : ReadBuf) : ReadBuf :=
  mkReadBuf (filled b) (Z.max (initialized b) (filled_len b + n)) (capacity b).
(** [set_filled] after [new] was written behind the filled bytes; it asserts that
    these are initialised. *)
Definition set_filled (new : list byte) (b : ReadBuf) : res io_error ReadBuf :=
  if filled_len b + Z.of_nat (length new) <=? initialized b
  then Ok (mkReadBuf (filled b ++ new) (initialized b) (capacity b)) else Panic.

(** A tokio reader over a hyper stream.  [lower] is what the stream writes into the
    unfilled part. *)
Definition tokio_poll_read (b : ReadBuf) (lower : poll (res io_error (list byte))) : poll (res io_error ReadBuf) :=
  match lower with
  | Ready (Ok new) =>
      let init := initialized b in
      let new_filled := Z.of_nat (length new) in
      let b := if init <? filled_len b + new_filled
               then assume_init (Z.max (filled_len b + new_filled - init) 0) b else b in
      Ready (set_filled new b)
  | Ready (Err e) => Ready (Err e)
  | Ready Panic => Ready Panic
  | Pending => Pending
  end.

(** A hyper reader over a tokio stream: the cursor [advance]s over what was filled. *)
Definition hyper_poll_read (b : ReadBuf) (lower : poll (res io_error (list byte))) : poll (res io_error ReadBuf) :=
  match lower with
  | Ready (Ok new) =>
      Ready (Ok (mkReadBuf (filled b ++ new) (Z.max (initialized b) (filled_len b + Z.of_nat (length new))) (capacity b)))
  | Ready (Err e) => Ready (Err e)
  | Ready Panic => Ready Panic
  | Pending => Pending
  end.

(** What a read may do: append what the stream gave, claim as initialised nothing
    but what was and what was written, and stay within the buffer. *)
Definition read_sound (b b' : ReadBuf) (new : list byte) : Prop :=
  filled b' = filled b ++ new ∧ capacity b' = capacity b ∧ readbuf_ok b' ∧
  initialized b <= initialized b' <= Z.max (initialized b) (filled_len b + Z.of_nat (length new)).

Lemma hyper_read_sound b new : readbuf_ok b → filled_len b + Z.of_nat (length new) <= capacity b →
  ∃ b', hyper_poll_read b (Ready (Ok new)) = Ready (Ok b') ∧ read_sound b b' new.
Proof.
  intros Hb Hn. eexists. split; [done|]. unfold read_sound, readbuf_ok, filled_len in *. cbn.
  rewrite length_app. split_and!; lia || done.
Qed.

Lemma tokio_read_eq b new : readbuf_ok b →
  tokio_poll_read b (Ready (Ok new)) =
  Ready (if (filled_len b <? initialized b) && (initialized b <? filled_len b + Z.of_nat (length new)) then Panic
         else Ok (mkReadBuf (filled b ++ new) (Z.max (initialized b) (filled_len b + Z.of_nat (length new))) (capacity b))).
Proof.
  unfold tokio_poll_read, set_filled, readbuf_ok, filled_len. intros Hb. f_equal.
  destruct (Z.ltb_spec (initialized b) (Z.of_nat (length (filled b)) + Z.of_nat (length new)));
    unfold assume_init, filled_len; cbn [filled initialized capacity]; rewrite ?andb_true_r, ?andb_false_r.
  - destruct (Z.ltb_spec (Z.of_nat (length (filled b))) (initialized b)).
    + destruct (Z.leb_spec (Z.of_nat (length (filled b)) + Z.of_nat (length new)) (Z.max (initialized b) (Z.of_nat (length (filled b)) +
        Z.max (Z.of_nat (length (filled b)) + Z.of_nat (length new) - initialized b) 0))); [lia|done].
    + rewrite (proj2 (Z.leb_le _ _)) by lia. do 2 f_equal. lia.
  - rewrite (proj2 (Z.leb_le _ _)) by lia. do 2 f_equal. lia.
Qed.

(** The marks of a buffer.  Reading a hyper stream into a tokio buffer appends
    what the stream gave and claims nothing else as initialised, unless the buffer
    has initialised bytes behind the filled ones and the stream gives more than
    those; then, and only then, the read ends the process. *)
Theorem tokio_read_sound b new : readbuf_ok b → filled_len b + Z.of_nat (length new) <= capacity b →
  (tokio_poll_read b (Ready (Ok new)) = Ready Panic ↔
     filled_len b < initialized b < filled_len b + Z.of_nat (length new)) ∧
  (∀ b', tokio_poll_read b (Ready (Ok new)) = Ready (Ok b') → read_sound b b' new) ∧
  (∀ e, tokio_poll_read b (Ready (Ok new)) ≠ Ready (Err e)).
Proof.
  intros Hb Hn. rewrite tokio_read_eq by done.
  destruct (Z.ltb_spec (filled_len b) (initialized b)), (Z.ltb_spec (initialized b) (filled_len b + Z.of_nat (length new)));
    cbn [andb]; (split; [(split; [done|lia]) || (split; [lia|done])|]); (split; [|done]); intros b' [= <-];
    unfold read_sound, readbuf_ok, filled_len in *; cbn [filled initialized capacity]; rewrite length_app; split_and!; lia || done.
Qed.

(** Buffers that are initialised throughout, as those of [tokio::io::copy], or not
    at all behind the filled bytes, are read into. *)
Lemma tokio_read_total b new : readbuf_ok b → filled_len b + Z.of_nat (length new) <= capacity b →
  initialized b = capacity b ∨ initialized b = filled_len b → ∃ b', tokio_poll_read b (Ready (Ok new)) = Ready (Ok b').
Proof.
  intros Hb Hn Hi. rewrite tokio_read_eq by done. eexists.
  destruct (Z.ltb_spec (filled_len b) (initialized b)), (Z.ltb_spec (initialized b) (filled_len b + Z.of_nat (length new))); done || lia.
Qed.

Lemma tokio_read_sound_witness :
  let b := mkReadBuf [x01] 3 8 in
  tokio_poll_read b (Ready (Ok [x02; x03; x04])) = Ready Panic ∧
  tokio_poll_read b (Ready (Ok [x02; x03])) = Ready (Ok (mkReadBuf [x01; x02; x03] 3 8)) ∧
  read_sound b (mkReadBuf [x01; x02; x03] 3 8) [x02; x03].
Proof.
  split; [|split; [reflexivity|]].
  - apply (tokio_read_sound (mkReadBuf [x01] 3 8) [x02; x03; x04]); unfold readbuf_ok, filled_len; cbn; lia.
  - apply (tokio_read_sound (mkReadBuf [x01] 3 8) [x02; x03]); [unfold readbuf_ok, filled_len; cbn; lia..|reflexivity].
Defined.
