(* ===== verification/StartUp.v ===== *)
(** * Starting an exit and a broker
    (binaries/geph5-exit/src/{main,ipv6}.rs, binaries/geph5-broker/src/main.rs)

    An exit is known by its signing key and a broker by the roots of its token
    keys.  Both are made at the first start and kept in files; here is what
    happens to them over restarts, some of which die while writing.  Further, how
    an exit finds the interface of its IPv6 addresses. *)
From Stdlib Require Import ZArith Lia.
From S2P Require Import Prelude Crypto Mizaru ExitSession.
Local Open Scope Z_scope.

(** ** Files *)

Abbreviation files := (gmap string (list byte)).

(** How the accesses of a start go: asking whether the file exists and reading it may
    fail although it is there; a write may fail before the file is opened, or fail (or
    the process die) after it was emptied and [n] bytes were written. *)
Inductive write_outcome := Written | Unopened | CutAfter (n : nat).
Record access := mkAccess { stat_fails : bool; read_fails : bool; mkdir_fails : bool; writes : write_outcome }.
Definition fine : access := mkAccess false false false Written.

(** [std::fs::write(..).unwrap()], [std::fs::read] and [Path::exists], which is false
    when it fails. *)
Definition write_file (path : string) (bytes : list byte) (a : access) (fs : files) : files * res unit unit :=
  match writes a with
  | Written => (<[path := bytes]> fs, Ok tt)
  | Unopened => (fs, Panic)
  | CutAfter n => (<[path := take n bytes]> fs, Panic)
  end.
Definition read_file (path : string) (a : access) (fs : files) : res unit (list byte) :=
  if read_fails a then Err tt else ok_or (fs !! path) tt.
Definition path_exists (path : string) (a : access) (fs : files) : bool :=
  negb (stat_fails a) && bool_decide (is_Some (fs !! path)).

(** A new key is written to its file. *)
Definition create_key {K} (encode : K → list byte) (path : string) (draw : K) (a : access) (fs : files) : files * res unit K :=
  let '(fs, r) := write_file path (encode draw) a fs in (fs, _ ← r; Ok draw).

(** ** The exit's signing key *)

(** [to_bytes] and [from_bytes] of a [SigningKey] are the identity on 32 bytes. *)
Definition signing_key_of (bytes : list byte) : option (list byte) :=
  if decide (length bytes = 32%nat) then Some bytes else None.

(** A file that cannot be read, or is no key, is replaced. *)
Definition SIGNING_SECRET (path : string) (draw : list byte) (a : access) (fs : files) : files * res unit (list byte) :=
  match read_file path a fs with
  | Ok bytes =>
      match signing_key_of bytes with
      | Some k => (fs, Ok k)
      | None => create_key id path draw a fs
      end
  | _ => create_key id path draw a fs
  end.

(** ** The broker's keys *)

Section broker.
Context `{Blake3Laws} `{BlindRsaLaws} `{StdcodeLaws SecretKey}.

(** A file that exists must be readable and hold a key. *)
Definition load_mizaru_sk (name : string) (draw : SecretKey) (a : access) (fs : files) : files * res unit SecretKey :=
  if path_exists name a fs then
    (fs, match read_file name a fs with Ok bytes => unwrap (deserialize bytes) | _ => Panic end)
  else if mkdir_fails a then (fs, Panic)
  else create_key stdcode name draw a fs.

(** [main] forces the Plus keys, then the Free keys, and dies when it cannot. *)
Definition broker_start (draws : list rsa_sk * list rsa_sk) (accesses : access * access) (fs : files)
    : files * res unit (SecretKey * SecretKey) :=
  let '(fs, plus) := load_mizaru_sk "plus.bin" (generate (fst draws)) (fst accesses) fs in
  match plus with
  | Ok plus =>
      let '(fs, free) := load_mizaru_sk "free.bin" (generate (snd draws)) (snd accesses) fs in
      (fs, free ← free; Ok (plus, free))
  | Err e => (fs, Err e)
  | Panic => (fs, Panic)
  end.

(** The master secret is read when it is first used, not at the start. *)
Definition MASTER_SECRET (path : string) (a : access) (fs : files) : res unit (list byte) :=
  match read_file path a fs with Ok bytes => unwrap (signing_key_of bytes) | _ => Panic end.
End broker.

(** ** Over restarts *)

(** What the starts end with; [starts] are the keys they would draw and how their
    accesses go. *)
Fixpoint restarts {A R} (start : A → files → files * res unit R) (starts : list A) (fs : files) : list (res unit R) :=
  match starts with
  | [] => []
  | a :: starts => let '(fs, r) := start a fs in r :: restarts start starts fs
  end.

Section restarts.
Context {A R : Type} (start : A → files → files * res unit R) (kept : R → files → Prop).
(** A start that is [calm] keeps what is kept and ends with it or dies, and one that is
    [well] does not die. *)
Context (drawn calm well : A → Prop).
Context (start_kept : ∀ a fs r, calm a → kept r fs →
  kept r (fst (start a fs)) ∧ (snd (start a fs) = Ok r ∨ snd (start a fs) = Panic) ∧ (well a → snd (start a fs) = Ok r)).
Context (start_Ok : ∀ a fs fs' r, drawn a → start a fs = (fs', Ok r) → kept r fs').

Definition agrees (starts : list A) (r : R) (j : nat) (x : res unit R) : Prop :=
  (x = Ok r ∨ x = Panic) ∧ (∀ a, starts !! j = Some a → well a → x = Ok r).

Lemma restarts_kept starts : ∀ r fs j, kept r fs → (j < length starts)%nat →
  (∀ n a, (n <= j)%nat → starts !! n = Some a → calm a) →
  ∃ x, restarts start starts fs !! j = Some x ∧ agrees starts r j x.
Proof.
  induction starts as [|a starts IH]; intros r fs j Hk Hj Hc; cbn in Hj; [lia|]. cbn [restarts].
  destruct (start_kept a fs r) as (Hk' & Hr & Hw); [by apply (Hc 0%nat); [lia|]|done|].
  destruct (start a fs) as [fs1 x]. cbn in *. destruct j as [|j]; cbn.
  - exists x. split; [done|]. split; [done|]. by intros a' [= <-].
  - destruct (IH r fs1 j Hk') as (y & Ey & Hy); [lia|intros n a' Hn; apply (Hc (S n)); lia|]. by exists y.
Qed.

Lemma restarts_agree starts : Forall drawn starts → ∀ fs i j r,
  restarts start starts fs !! i = Some (Ok r) → (i <= j < length starts)%nat →
  (∀ n a, (i < n <= j)%nat → starts !! n = Some a → calm a) →
  ∃ x, restarts start starts fs !! j = Some x ∧ agrees starts r j x.
Proof.
  induction 1 as [|a starts Ha _ IH]; intros fs i j r Ei Hj Hc; [done|]. cbn [restarts] in *.
  destruct (start a fs) as [fs1 r1] eqn:Es. destruct i as [|i]; cbn in Ei.
  - injection Ei as ->. apply start_Ok in Es; [|done]. destruct j as [|j]; cbn.
    + exists (Ok r). split; [done|]. split; [by left|done].
    + destruct (restarts_kept starts r fs1 j Es) as (y & Ey & Hy); [cbn in Hj; lia|intros n a' Hn; apply (Hc (S n)); lia|]. by exists y.
  - destruct j as [|j]; [lia|]. cbn in *.
    destruct (IH fs1 i j r Ei) as (y & Ey & Hy); [lia|intros n a' Hn; apply (Hc (S n)); lia|]. by exists y.
Qed.
End restarts.

(** ** The keys stay *)

Definition holds {K} (decode : list byte → option K) (path : string) (k : K) (fs : files) : Prop :=
  ∃ bytes, fs !! path = Some bytes ∧ decode bytes = Some k.

Lemma create_key_Ok {K} (encode : K → list byte) decode path draw a fs fs' k : decode (encode draw) = Some draw →
  create_key encode path draw a fs = (fs', Ok k) → holds decode path k fs' ∧ ∀ p, p ≠ path → fs' !! p = fs !! p.
Proof.
  intros Hd. unfold create_key, write_file. destruct (writes a); [|done..]. intros [= <- <-]. split; [|intros; by apply lookup_insert_ne].
  exists (encode draw). split; [apply lookup_insert_eq|done].
Qed.

Lemma signing_secret_kept path draw a fs k : read_fails a = false → holds signing_key_of path k fs → SIGNING_SECRET path draw a fs = (fs, Ok k).
Proof. intros Hr (bytes & E & Ed). unfold SIGNING_SECRET, read_file. rewrite Hr, E. cbn. by rewrite Ed. Qed.

Lemma signing_secret_Ok path draw a fs fs' k : length draw = 32%nat →
  SIGNING_SECRET path draw a fs = (fs', Ok k) → holds signing_key_of path k fs'.
Proof.
  intros Hl. assert (Hd : signing_key_of (id draw) = Some draw) by (unfold signing_key_of; by rewrite decide_True).
  assert (Hc : create_key id path draw a fs = (fs', Ok k) → holds signing_key_of path k fs') by (intros E; by apply (create_key_Ok _ signing_key_of) in E as [? _]).
  unfold SIGNING_SECRET, read_file. destruct (read_fails a); [done|]. destruct (fs !! path) as [bytes|] eqn:E; cbn; [|done].
  destruct (signing_key_of bytes) eqn:Ed; [|done]. intros [= <- <-]. by exists bytes.
Qed.

Section identity.
Context `{Blake3Laws} `{BlindRsaLaws} `{StdcodeLaws SecretKey}.

Lemma load_mizaru_kept name draw a fs k : stat_fails a = false → holds deserialize name k fs →
  fst (load_mizaru_sk name draw a fs) = fs ∧ (snd (load_mizaru_sk name draw a fs) = Ok k ∨ snd (load_mizaru_sk name draw a fs) = Panic) ∧
  (read_fails a = false → snd (load_mizaru_sk name draw a fs) = Ok k).
Proof.
  intros Hs (bytes & E & Ed). unfold load_mizaru_sk, path_exists, read_file. rewrite Hs, E, bool_decide_eq_true_2 by eauto. cbn [negb andb fst snd].
  destruct (read_fails a); cbn; [split_and!; [done|by right|done]|]. rewrite Ed. split_and!; [done|by left|done].
Qed.

Lemma load_mizaru_Ok name draw a fs fs' k : load_mizaru_sk name draw a fs = (fs', Ok k) →
  holds deserialize name k fs' ∧ ∀ p, p ≠ name → fs' !! p = fs !! p.
Proof.
  unfold load_mizaru_sk, read_file. destruct (path_exists name a fs).
  - destruct (read_fails a); [done|]. destruct (fs !! name) as [bytes|] eqn:E; [|done]. cbn. destruct (deserialize bytes) eqn:Ed; [|done].
    intros [= <- <-]. split; [|done]. by exists bytes.
  - destruct (mkdir_fails a); [done|]. apply create_key_Ok, deserialize_stdcode.
Qed.

Definition broker_holds (r : SecretKey * SecretKey) (fs : files) : Prop :=
  holds deserialize "plus.bin" (fst r) fs ∧ holds deserialize "free.bin" (snd r) fs.

Lemma broker_start_kept draws a fs r : stat_fails (fst a) = false ∧ stat_fails (snd a) = false → broker_holds r fs →
  broker_holds r (fst (broker_start draws a fs)) ∧ (snd (broker_start draws a fs) = Ok r ∨ snd (broker_start draws a fs) = Panic) ∧
  (read_fails (fst a) = false ∧ read_fails (snd a) = false → snd (broker_start draws a fs) = Ok r).
Proof.
  intros [S1 S2] [Hp Hf]. destruct r as [plus free]. unfold broker_start.
  destruct (load_mizaru_kept "plus.bin" (generate (fst draws)) (fst a) fs plus S1 Hp) as (E1 & R1 & W1).
  destruct (load_mizaru_kept "free.bin" (generate (snd draws)) (snd a) fs free S2 Hf) as (E2 & R2 & W2).
  destruct (load_mizaru_sk "plus.bin" _ _ fs) as [fs1 x1]. cbn in E1, R1, W1. subst fs1.
  destruct R1 as [-> | ->]; [|by split_and!; [|by right|intros [? _]; naive_solver]].
  destruct (load_mizaru_sk "free.bin" _ _ fs) as [fs2 x2]. cbn in E2, R2, W2. subst fs2.
  destruct R2 as [-> | ->]; cbn; [by split_and!; [|by left|]|by split_and!; [|by right|intros [_ ?]; naive_solver]].
Qed.

Lemma broker_start_Ok draws a fs fs' r : broker_start draws a fs = (fs', Ok r) → broker_holds r fs'.
Proof.
  unfold broker_start. intros E.
  destruct (load_mizaru_sk "plus.bin" _ _ fs) as [fs1 [k1| |]] eqn:E1; [|done..].
  destruct (load_mizaru_sk "free.bin" _ _ fs1) as [fs2 [k2| |]] eqn:E2; [|done..]. injection E as <- <-.
  apply load_mizaru_Ok in E1 as [(bytes & Eb & Ed) _]. apply load_mizaru_Ok in E2 as [Hf Ho].
  split; [|done]. exists bytes. split; [|done]. by rewrite Ho.
Qed.

(** C34: an exit keeps its name and a broker its roots.  Start them any number of
    times, each start with other random keys at hand, some dying in the middle of a
    write, or unable to write at all.  Once a start of the exit has a signing key,
    every later one has the same, as long as no start after it fails to read the
    file (such a start replaces the key).  Once a broker has come up, every later
    start comes up with the same keys of both levels, and so with the same roots, or
    dies because it cannot read them, as long as no start after it fails to find out
    that the files exist; a start that can read them does come up. *)
Theorem identity_survives :
  (∀ path (starts : list (list byte * access)) fs i j k,
     Forall (λ a, length (fst a) = 32%nat) starts →
     restarts (λ a, SIGNING_SECRET path (fst a) (snd a)) starts fs !! i = Some (Ok k) →
     (i <= j < length starts)%nat →
     (∀ n a, (i < n <= j)%nat → starts !! n = Some a → read_fails (snd a) = false) →
     restarts (λ a, SIGNING_SECRET path (fst a) (snd a)) starts fs !! j = Some (Ok k)) ∧
  (∀ starts fs i j keys,
     restarts (λ a, broker_start (fst a) (snd a)) starts fs !! i = Some (Ok keys) →
     (i <= j < length starts)%nat →
     (∀ n a, (i < n <= j)%nat → starts !! n = Some a → stat_fails (fst (snd a)) = false ∧ stat_fails (snd (snd a)) = false) →
     ∃ r, restarts (λ a, broker_start (fst a) (snd a)) starts fs !! j = Some r ∧ (r = Ok keys ∨ r = Panic) ∧
       (∀ a, starts !! j = Some a → read_fails (fst (snd a)) = false ∧ read_fails (snd (snd a)) = false → r = Ok keys)).
Proof.
  split.
  - intros path starts fs i j k Hd Ei Hj Hc. destruct (decide (i = j)) as [<-|Hne]; [done|].
    destruct (restarts_agree (λ a : list byte * access, SIGNING_SECRET path (fst a) (snd a)) (holds signing_key_of path) (λ a, length (fst a) = 32%nat)
      (λ a, read_fails (snd a) = false) (λ a, read_fails (snd a) = false)) with (starts := starts) (fs := fs) (i := i) (j := j) (r := k) as (x & Ex & _ & Hx); try done.
    + intros [draw a] fs' r Hr Hk. cbn in *. rewrite (signing_secret_kept _ _ _ _ _ Hr Hk). cbn. auto.
    + intros [draw a] fs1 fs2 r Hl. by apply signing_secret_Ok.
    + destruct (lookup_lt_is_Some_2 starts j ltac:(lia)) as [a Ea]. rewrite Ex, (Hx a Ea); [done|]. apply (Hc j); [lia|done].
  - intros starts fs i j keys Ei Hj Hc.
    apply (restarts_agree (λ a, broker_start (fst a) (snd a)) broker_holds (λ _, True) (λ a, stat_fails (fst (snd a)) = false ∧ stat_fails (snd (snd a)) = false)
      (λ a, read_fails (fst (snd a)) = false ∧ read_fails (snd (snd a)) = false)) with (i := i); try done.
    + intros [draws a] fs' r Hs. by apply broker_start_kept.
    + intros [draws a] fs1 fs2 r _. apply broker_start_Ok.
    + by apply Forall_true.
Qed.

(** A first start of the broker that dies in the middle of writing a key leaves a
    file that no later start can use, as long as it is seen. *)
Lemma half_written_key_sticks draws n a fs starts :
  fs !! "plus.bin"%string = None → deserialize (A:=SecretKey) (take n (stdcode (generate (fst draws)))) = None →
  Forall (λ a, stat_fails (fst (snd a)) = false) starts →
  restarts (λ a, broker_start (fst a) (snd a)) ((draws, (mkAccess false false false (CutAfter n), a)) :: starts) fs
  = replicate (S (length starts)) Panic.
Proof.
  intros Hn Hd Hst. cbn [restarts]. unfold broker_start at 1, load_mizaru_sk, path_exists, create_key, write_file. cbn [fst snd stat_fails mkdir_fails writes negb andb].
  rewrite Hn. cbn. f_equal.
  set (fs' := <[_ := _]> fs). assert (Hs : ∀ a, stat_fails (fst (snd a)) = false → broker_start (fst a) (snd a) fs' = (fs', Panic)).
  { intros b Hb. unfold broker_start, load_mizaru_sk, path_exists, read_file. rewrite Hb. unfold fs' at 1 2. rewrite !lookup_insert_eq.
    cbn. destruct (read_fails _); cbn; [done|]. unfold fs' at 1. by rewrite lookup_insert_eq; cbn; rewrite Hd. }
  induction Hst as [|b starts Hb _ IH]; [done|]. cbn [restarts length replicate]. rewrite Hs by done. by f_equal.
Qed.

(** A start of the broker that cannot tell whether its files exist replaces them, and
    with them the roots that exits and clients know. *)
Lemma unseen_keys_replaced draws fs :
  snd (broker_start draws (mkAccess true false false Written, mkAccess true false false Written) fs)
  = Ok (generate (fst draws), generate (snd draws)).
Proof. reflexivity. Qed.
End identity.

(** The exit recovers from a half-written key, with another one; and it replaces a good
    key that it fails to read. *)
Lemma half_written_signing_key path draw draw' n fs :
  fs !! path = None → length draw = 32%nat → length draw' = 32%nat → (n < 32)%nat →
  restarts (λ a, SIGNING_SECRET path (fst a) (snd a)) [(draw, mkAccess false false false (CutAfter n)); (draw', fine)] fs = [Panic; Ok draw'].
Proof.
  intros Hn Hl Hl' Hc. cbn [restarts]. unfold SIGNING_SECRET, read_file, create_key, write_file. cbn [fst snd fine read_fails writes]. rewrite Hn.
  cbn [ok_or mbind res_bind]. rewrite lookup_insert_eq. unfold signing_key_of, id. cbn [ok_or]. rewrite decide_False; [done|].
  rewrite length_take. lia.
Qed.
Lemma unreadable_key_replaced path draw fs :
  SIGNING_SECRET path draw (mkAccess false true false Written) fs = (<[path := draw]> fs, Ok draw).
Proof. reflexivity. Qed.

Module KeysDemo.
Import Toy.
#[export] Instance secret_key_eq : EqDecision SecretKey.
Proof. solve_decision. Defined.
#[export] Instance secret_key_countable : Countable SecretKey.
Proof.
  refine (inj_countable' (λ k, (rsa_keys_der k, merkle_tree k)) (λ p, mkSecretKey p.1 p.2) _). by intros [].
Defined.
Definition key (b : byte) : list byte := replicate 32 b.
(** The first two starts of the exit die in their write; the third makes the key that
    stays. *)
Definition exit_starts : list (list byte * access) :=
  [(key x01, mkAccess false false false (CutAfter 7)); (key x02, mkAccess false false false Unopened); (key x03, fine); (key x04, fine)].
(** A broker comes up, cannot read its keys, and comes up again. *)
Definition broker_starts : list (list (@rsa_sk Toy.rsa) * list (@rsa_sk Toy.rsa) * (access * access)) :=
  [([[x01]; [x02]], [[x03]; [x04]], (fine, fine)); ([[x05]], [[x06]], (fine, mkAccess false true false Written)); ([[x07]], [[x08]], (fine, fine))].
End KeysDemo.
Import Toy KeysDemo.

Lemma identity_survives_witness :
  restarts (λ a, SIGNING_SECRET "signing.key" (fst a) (snd a)) exit_starts ∅ = [Panic; Panic; Ok (key x03); Ok (key x03)] ∧
  restarts (λ a, SIGNING_SECRET "signing.key" (fst a) (snd a)) exit_starts ∅ !! 3%nat = Some (Ok (key x03)) ∧
  ∃ keys, restarts (λ a, broker_start (fst a) (snd a)) broker_starts ∅ !! 0%nat = Some (Ok keys) ∧
    restarts (λ a, broker_start (fst a) (snd a)) broker_starts ∅ !! 2%nat = Some (Ok keys).
Proof.
  split; [reflexivity|]. split.
  - apply (proj1 identity_survives "signing.key"%string exit_starts ∅ 2%nat 3%nat (key x03)); [by repeat constructor|reflexivity|cbn; lia|].
    intros n a Hn. assert (n = 3%nat) as -> by lia. by intros [= <-].
  - destruct (restarts (λ a, broker_start (fst a) (snd a)) broker_starts ∅ !! 0%nat) as [[keys| |]|] eqn:E; [|vm_compute in E; discriminate..].
    exists keys. split; [done|]. destruct (proj2 identity_survives broker_starts ∅ 0%nat 2%nat keys E) as (r & Er & _ & Hr); [cbn; lia| |].
    + intros n a Hn. destruct n as [|[|[|n]]]; [lia| | |lia]; by intros [= <-].
    + rewrite Er. f_equal. by apply (Hr _ eq_refl).
Defined.

(** ** The interface of an exit's IPv6 addresses (ipv6.rs) *)

Definition space : Ascii.ascii := Ascii.ascii_of_nat 32.
(** [str::split_whitespace] on ASCII text. *)
Definition is_space (c : Ascii.ascii) : bool :=
  let n := Ascii.nat_of_ascii c in bool_decide (n = 32 ∨ 9 <= n <= 13)%nat.
Fixpoint split_words (cur : string) (s : string) : list string :=
  match s with
  | EmptyString => match cur with EmptyString => [] | _ => [cur] end
  | String c s =>
      if is_space c then match cur with EmptyString => split_words EmptyString s | _ => cur :: split_words EmptyString s end
      else split_words (String.append cur (String c EmptyString)) s
  end.
Definition split_whitespace (s : string) : list string := split_words EmptyString s.

Definition detect_ipv6_interface (stdout : string) : res string string :=
  default_route ← ok_or (List.find (String.prefix "default") (str_lines stdout)) "No default IPv6 route found"%string;
  ok_or (split_whitespace default_route !! 4%nat) "Unable to parse interface name from default route"%string.

(** The commands that are run; [range] is [None] for the subnet [::/0], which is the
    default. *)
Definition configure_ipv6_routing (range : option string) (stdout : string) : res string (list (list string)) :=
  match range with
  | None => Ok []
  | Some range =>
      iface ← detect_ipv6_interface stdout;
      Ok [["ip"; "-6"; "route"; "del"; "local"; range];
          ["ip"; "-6"; "route"; "add"; "local"; range; "dev"; iface]]%string
  end.

(** A word is not empty and has no blanks. *)
Fixpoint no_space (s : string) : bool :=
  match s with EmptyString => true | String c s => negb (is_space c) && no_space s end.
Definition is_word (s : string) : bool := no_space s && negb (String.eqb s "").

Lemma append_cons_r a c s : String.append a (String c s) = String.append (String.append a (String c EmptyString)) s.
Proof. induction a as [|x a IH]; [done|]. exact (f_equal (String x) IH). Qed.
Lemma split_words_word w : no_space w = true → ∀ cur rest, String.append cur w ≠ EmptyString →
  split_words cur (String.append w (String space rest)) = String.append cur w :: split_words EmptyString rest.
Proof.
  induction w as [|c w IH]; intros Hw cur rest Hne.
  - cbn in *. assert (String.append cur "" = cur) as E by (clear; induction cur as [|x l IHl]; [done|]; exact (f_equal (String x) IHl)).
    rewrite E in *. by destruct cur.
  - cbn in Hw. apply andb_true_iff in Hw as [Hc Hw]. apply negb_true_iff in Hc.
    change (split_words cur (String c (String.append w (String space rest))) = String.append cur (String c w) :: split_words EmptyString rest).
    rewrite (append_cons_r cur c w) in Hne |- *. cbn [split_words]. rewrite Hc. by apply IH.
Qed.

(** The words of a line that consists of words. *)
Lemma words_of ws : Forall (λ w, is_word w = true) ws →
  split_whitespace (foldr (λ w s, String.append w (String space s)) EmptyString ws) = ws.
Proof.
  unfold split_whitespace. induction 1 as [|w ws Hw _ IH]; [done|]. cbn [foldr].
  apply andb_true_iff in Hw as [Hs Hn]. rewrite split_words_word; [by rewrite IH|done|].
  intros E. change (w = EmptyString) in E. by subst w.
Qed.

(** A default route over a gateway names its interface in the fifth word. *)
Lemma gateway_interface gw dev more : Forall (λ w, is_word w = true) ([gw; dev] ++ more) →
  let line := foldr (λ w s, String.append w (String space s)) EmptyString (["default"%string; "via"%string; gw; "dev"%string; dev] ++ more) in
  split_whitespace line !! 4%nat = Some dev.
Proof.
  intros Hw. cbn zeta. rewrite words_of; [done|]. apply Forall_app in Hw as [[Hg [Hd _]%Forall_cons]%Forall_cons Hm].
  repeat (constructor; [done|]). done.
Qed.

(** A default route without one has something else there. *)
Example no_gateway_interface :
  detect_ipv6_interface "default dev ppp0 metric 1024 pref medium" = Ok "1024"%string ∧
  detect_ipv6_interface "default via fe80::1 dev eth0 proto ra" = Ok "eth0"%string.
Proof. by vm_compute. Qed.
