(* ===== verification/VpnSystem.v ===== *)
(** * The VPN and the system it runs on
    (binaries/geph5-client/src/vpn/linux.rs with its two scripts, vpn/windows.rs)

    On Linux the client changes the routing of the whole machine: rules that send
    everything into its interface, exceptions for the addresses it dials itself,
    and a redirection of DNS.  All of it must be gone when the client is.  Further,
    the DNS proxy behind the redirection, and the packets the Windows client
    diverts. *)
From Stdlib Require Import ZArith Lia.
From S2P Require Import Prelude Crypto Protocol Text IpText Cache Dialer Routes ExitNet ClientNet Vpn.
Local Open Scope Z_scope.

(** ** Rules and routes *)

(** [RTo a]: [to a lookup main pref 1]; [RSuppress]: [table main
    suppress_prefixlength 0]; [RLookup]: [lookup 8964 pref 2].  [ROther] is every rule
    the client does not add. *)
Inductive rule := RTo (a : IpAddr) | RSuppress | RLookup | ROther (text : string).
(** Of the [OUTPUT] chain: [DNAT --to dns] of port 53. *)
Inductive nat_rule := NatGeph (proto dns : string) | NatOther (text : string).
#[export] Instance rule_eq_dec : EqDecision rule.
Proof. solve_decision. Defined.
#[export] Instance nat_rule_eq_dec : EqDecision nat_rule.
Proof. solve_decision. Defined.

(** The rules of both families, table 8964 of both, and the chain. *)
Record system := mkSystem {
  rules4 : list rule; rules6 : list rule; table4 : list string; table6 : list string; chain : list nat_rule
}.

Inductive command :=
| RouteFlush (v6 : bool) | RouteAdd (v6 : bool) (route : string)
| RuleAdd (v6 : bool) (r : rule) | RuleDel (v6 : bool) (r : rule)
| NatAppend (n : nat_rule) | NatDelete (n : nat_rule).

(** Deleting takes the first rule that fits. *)
Fixpoint del {A} `{EqDecision A} (x : A) (l : list A) : list A :=
  match l with [] => [] | y :: l => if decide (x = y) then l else y :: del x l end.

(** A command that fails changes nothing; no script looks at the status. *)
Definition exec (ok : bool) (c : command) (s : system) : system :=
  if negb ok then s else
  match c with
  | RouteFlush false => mkSystem (rules4 s) (rules6 s) [] (table6 s) (chain s)
  | RouteFlush true => mkSystem (rules4 s) (rules6 s) (table4 s) [] (chain s)
  | RouteAdd false t => mkSystem (rules4 s) (rules6 s) (t :: table4 s) (table6 s) (chain s)
  | RouteAdd true t => mkSystem (rules4 s) (rules6 s) (table4 s) (t :: table6 s) (chain s)
  | RuleAdd false r => mkSystem (r :: rules4 s) (rules6 s) (table4 s) (table6 s) (chain s)
  | RuleAdd true r => mkSystem (rules4 s) (r :: rules6 s) (table4 s) (table6 s) (chain s)
  | RuleDel false r => mkSystem (del r (rules4 s)) (rules6 s) (table4 s) (table6 s) (chain s)
  | RuleDel true r => mkSystem (rules4 s) (del r (rules6 s)) (table4 s) (table6 s) (chain s)
  | NatAppend n => mkSystem (rules4 s) (rules6 s) (table4 s) (table6 s) (chain s ++ [n])
  | NatDelete n => mkSystem (rules4 s) (rules6 s) (table4 s) (table6 s) (del n (chain s))
  end.
Fixpoint exec_all (oks : list bool) (cs : list command) (s : system) : system :=
  match cs with
  | [] => s
  | c :: cs => exec_all (tail oks) cs (exec (default true (head oks)) c s)
  end.

(** linux_routing_setup.sh and linux_routing_teardown.sh *)
Definition setup_script (dns : string) : list command :=
  [RouteFlush false; RouteAdd false "default dev tun-geph"; RouteFlush true; RouteAdd true "blackhole ::/0";
   RuleAdd false RSuppress; RuleAdd false RLookup; RuleAdd true RSuppress; RuleAdd true RLookup;
   NatAppend (NatGeph "udp" dns); NatAppend (NatGeph "tcp" dns)].
Definition teardown_script (dns : string) : list command :=
  [RouteFlush false; RouteFlush true; RuleDel false RSuppress; RuleDel false RLookup; RuleDel true RSuppress;
   RuleDel true RLookup; NatDelete (NatGeph "udp" dns); NatDelete (NatGeph "tcp" dns)].

(** ** The client *)

Record linux_vpn := mkLinuxVpn {
  sys : system;
  WHITELIST : list IpAddr;
  GEPH_DNS : string;
  routing_set : bool;
  exited : bool
}.

(** [SingleWhitelister::new] runs once per address. *)
Definition vpn_whitelist (ok : bool) (a : IpAddr) (v : linux_vpn) : linux_vpn :=
  if decide (a ∈ WHITELIST v) then v
  else mkLinuxVpn (exec ok (RuleAdd false (RTo a)) (sys v)) (a :: WHITELIST v) (GEPH_DNS v) (routing_set v) (exited v).
(** [setup_routing]; [oks] are the outcomes of its commands. *)
Definition setup_routing (oks : list bool) (v : linux_vpn) : linux_vpn :=
  mkLinuxVpn (exec_all oks (setup_script (GEPH_DNS v)) (sys v)) (WHITELIST v) (GEPH_DNS v) true (exited v).
(** [teardown_routing]: the entries of the whitelist take their rules back, the
    script the rest, and the process ends. *)
Definition teardown_commands (v : linux_vpn) : list command :=
  map (λ a, RuleDel false (RTo a)) (WHITELIST v) ++ teardown_script (GEPH_DNS v).
Definition teardown_routing (oks : list bool) (v : linux_vpn) : linux_vpn :=
  mkLinuxVpn (exec_all oks (teardown_commands v) (sys v)) [] (GEPH_DNS v) (routing_set v) true.

Inductive vpn_event :=
| Dial (a : IpAddr) (ok : bool)       (* [smart_vpn_whitelist] *)
| Bound (dns : string)                (* the DNS proxy has its address *)
| Connected (oks : list bool)         (* [open_conn] has returned *)
| Ends (oks : list bool).             (* an error, Ctrl-C, or the end of the process *)

Definition vpn_event_step (v : linux_vpn) (ev : vpn_event) : option linux_vpn :=
  if exited v then None else
  match ev with
  | Dial a ok => Some (vpn_whitelist ok a v)
  | Bound dns => if routing_set v then None else Some (mkLinuxVpn (sys v) (WHITELIST v) dns false false)
  | Connected oks => if routing_set v then None else Some (setup_routing oks v)
  | Ends oks =>   (* only [setup_routing] makes sure of [teardown_routing] *)
      Some (if routing_set v then teardown_routing oks v
            else mkLinuxVpn (sys v) (WHITELIST v) (GEPH_DNS v) false true)
  end.
Definition vpn_events (v : linux_vpn) (evs : list vpn_event) : option linux_vpn :=
  foldl (λ o ev, v ← o; vpn_event_step v ev) (Some v) evs.

(** ** Nothing is left behind *)

Definition ours (r : rule) : Prop := match r with ROther _ => False | _ => True end.
Definition ours_nat (n : nat_rule) : Prop := match n with NatOther _ => False | _ => True end.
#[export] Instance ours_dec r : Decision (ours r).
Proof. destruct r; apply _. Defined.
#[export] Instance ours_nat_dec n : Decision (ours_nat n).
Proof. destruct n; apply _. Defined.

Section lists.
Context {A : Type} `{EqDecision A} (mine : A → Prop) `{∀ x, Decision (mine x)}.

Lemma del_foreign (x : A) (l : list A) : mine x → filter (λ y, ¬ mine y) (del x l) = filter (λ y, ¬ mine y) l.
Proof.
  intros Hx. induction l as [|y l IH]; [done|]. cbn [del]. destruct (decide (x = y)) as [<-|Hne].
  - by rewrite (filter_cons_False _ x) by tauto.
  - rewrite !filter_cons. by case_decide; rewrite ?IH.
Qed.
Lemma del_mine (x : A) (l : list A) : filter mine (del x l) = if decide (mine x) then del x (filter mine l) else filter mine l.
Proof.
  induction l as [|y l IH]; [by case_decide|]. cbn [del]. destruct (decide (x = y)) as [<-|Hne].
  - rewrite filter_cons. destruct (decide (mine x)); [|done]. cbn. by rewrite decide_True.
  - rewrite !filter_cons, IH. destruct (decide (mine y)), (decide (mine x)); try done. cbn. by rewrite decide_False.
Qed.
Lemma elem_of_del (x y : A) (l : list A) : NoDup l → y ∈ del x l ↔ y ∈ l ∧ y ≠ x.
Proof.
  induction 1 as [|z l Hz _ IH]; cbn; [set_solver|]. case_decide; [subst; set_solver|]. set_solver.
Qed.
Lemma NoDup_del (x : A) (l : list A) : NoDup l → NoDup (del x l).
Proof.
  induction 1 as [|z l Hz Hl IH]; cbn; [constructor|]. case_decide; [done|]. constructor; [|done].
  rewrite elem_of_del by done. tauto.
Qed.

(** A list that consists of [foreign] elements and of some of [own], each once. *)
Record mixed (foreign : list A) (own : A → Prop) (l : list A) : Prop := mkMixed {
  mixed_foreign : filter (λ y, ¬ mine y) l = foreign;
  mixed_nodup : NoDup (filter mine l);
  mixed_own : ∀ y, y ∈ filter mine l → own y
}.

Lemma mixed_imp F (P Q : A → Prop) l : (∀ y, P y → Q y) → mixed F P l → mixed F Q l.
Proof. intros Hpq [H1 H2 H3]. split; [done..|]. auto. Qed.
Lemma mixed_start l : Forall (λ y, ¬ mine y) l → mixed l (λ _, False) l.
Proof.
  intros Hl. assert (filter mine l = [] ∧ filter (λ y, ¬ mine y) l = l) as [E1 E2].
  { induction Hl as [|y l Hy _ [IH1 IH2]]; [done|]. rewrite !filter_cons, decide_False, decide_True by done. by rewrite IH1, IH2. }
  split; [done|rewrite E1; constructor|]. rewrite E1. by intros y ?%elem_of_nil.
Qed.
(** When none of [own] can be there, the list is as it was. *)
Lemma mixed_end F l : mixed F (λ _, False) l → l = F.
Proof.
  intros [<- _ Ho]. assert (Forall (λ y, ¬ mine y) l) as Hl.
  { apply Forall_forall. intros y Hy Hm. apply (Ho y). by apply list_elem_of_filter. }
  by destruct (mixed_start l Hl) as [E _ _].
Qed.
Lemma mixed_add F P (ok : bool) x l : mine x → ¬ P x → mixed F P l →
  mixed F (λ y, P y ∨ y = x) ((if ok then [x] else []) ++ l).
Proof.
  intros Hx Hp [H1 H2 H3]. destruct ok; cbn [app]; [|split; [done..|auto]].
  split; [by rewrite filter_cons_False by tauto|..]; rewrite filter_cons_True by done.
  - constructor; [|done]. by intros ?%H3.
  - intros y [->|Hy]%elem_of_cons; auto.
Qed.
Lemma mixed_append F P (ok : bool) x l : mine x → ¬ P x → mixed F P l →
  mixed F (λ y, P y ∨ y = x) (l ++ (if ok then [x] else [])).
Proof.
  intros Hx Hp [H1 H2 H3]. destruct ok; [|rewrite app_nil_r; split; [done..|auto]].
  split; rewrite filter_app; [rewrite (filter_cons_False _ x) by tauto; by rewrite app_nil_r|..]; rewrite (filter_cons_True _ x) by done.
  - apply NoDup_app. split_and!; [done| |apply NoDup_singleton]. intros y Hy ->%list_elem_of_singleton. by apply Hp, H3.
  - intros y [Hy| ->%list_elem_of_singleton]%elem_of_app; auto.
Qed.
Lemma mixed_del F P x l : mine x → mixed F P l → mixed F (λ y, P y ∧ y ≠ x) (del x l).
Proof.
  intros Hx [H1 H2 H3]. split; [by rewrite del_foreign|..]; rewrite del_mine, decide_True by done; [by apply NoDup_del|].
  intros y [Hy Hne]%elem_of_del; auto.
Qed.
End lists.

(** What the client may have in the system. *)
Definition own_rule (v : linux_vpn) (r : rule) : Prop :=
  (∃ a, r = RTo a ∧ a ∈ WHITELIST v) ∨ routing_set v = true ∧ (r = RSuppress ∨ r = RLookup).
Definition own_rule6 (v : linux_vpn) (r : rule) : Prop := routing_set v = true ∧ (r = RSuppress ∨ r = RLookup).
Definition own_nat (v : linux_vpn) (n : nat_rule) : Prop :=
  routing_set v = true ∧ (n = NatGeph "udp" (GEPH_DNS v) ∨ n = NatGeph "tcp" (GEPH_DNS v)).

Record vpn_inv (s0 : system) (v : linux_vpn) : Prop := mkVpnInv {
  vi_rules4 : mixed ours (rules4 s0) (own_rule v) (rules4 (sys v));
  vi_rules6 : mixed ours (rules6 s0) (own_rule6 v) (rules6 (sys v));
  vi_chain : mixed ours_nat (chain s0) (own_nat v) (chain (sys v))
}.

Lemma rules4_exec ok c s : rules4 (exec ok c s) =
  match c with
  | RuleAdd false r => (if ok then [r] else []) ++ rules4 s
  | RuleDel false r => if ok then del r (rules4 s) else rules4 s
  | _ => rules4 s
  end.
Proof. by destruct ok, c as [[]|[]|[]|[]| |]. Qed.
Lemma rules6_exec ok c s : rules6 (exec ok c s) =
  match c with
  | RuleAdd true r => (if ok then [r] else []) ++ rules6 s
  | RuleDel true r => if ok then del r (rules6 s) else rules6 s
  | _ => rules6 s
  end.
Proof. by destruct ok, c as [[]|[]|[]|[]| |]. Qed.
Lemma chain_exec ok c s : chain (exec ok c s) =
  match c with
  | NatAppend n => chain s ++ (if ok then [n] else [])
  | NatDelete n => if ok then del n (chain s) else chain s
  | _ => chain s
  end.
Proof. destruct ok, c as [[]|[]|[]|[]| |]; cbn; by rewrite ?app_nil_r. Qed.

Lemma inv_start s0 dns : Forall (λ r, ¬ ours r) (rules4 s0) → Forall (λ r, ¬ ours r) (rules6 s0) →
  Forall (λ n, ¬ ours_nat n) (chain s0) → vpn_inv s0 (mkLinuxVpn s0 [] dns false false).
Proof.
  intros H4 H6 Hn. split; cbn [sys]; (eapply mixed_imp; [|by apply mixed_start]); done.
Qed.

Lemma inv_dial s0 v a ok : vpn_inv s0 v → vpn_inv s0 (vpn_whitelist ok a v).
Proof.
  intros [I1 I2 I3]. unfold vpn_whitelist. case_decide as Ha; [by split|].
  split; cbn [sys]; rewrite ?rules4_exec, ?rules6_exec, ?chain_exec; [|done..].
  eapply mixed_imp; [|apply mixed_add; [done| |exact I1]].
  - intros r [[(b & -> & Hb)|Hr]| ->]; [left; exists b|by right|left; exists a]; split; (done || (cbn; set_solver)).
  - unfold own_rule. naive_solver.
Qed.

Lemma inv_setup s0 v oks : vpn_inv s0 v → routing_set v = false → vpn_inv s0 (setup_routing oks v).
Proof.
  intros [I1 I2 I3] Hs. unfold setup_routing. cbn [setup_script exec_all].
  split; cbn [sys]; rewrite ?rules4_exec, ?rules6_exec, ?chain_exec.
  - eapply mixed_imp; [|apply mixed_add; [done| |apply mixed_add; [done| |exact I1]]]; unfold own_rule; cbn; rewrite ?Hs; naive_solver.
  - eapply mixed_imp; [|apply mixed_add; [done| |apply mixed_add; [done| |exact I2]]]; unfold own_rule6; cbn; rewrite ?Hs; naive_solver.
  - eapply mixed_imp; [|apply mixed_append; [done| |apply mixed_append; [done| |exact I3]]]; unfold own_nat; cbn; rewrite ?Hs; naive_solver.
Qed.

(** Taking the exceptions back. *)
Lemma del_whitelist F wl : ∀ P s, mixed ours F P (rules4 s) →
  let s' := exec_all [] (map (λ a, RuleDel false (RTo a)) wl) s in
  mixed ours F (λ r, P r ∧ ∀ a, a ∈ wl → r ≠ RTo a) (rules4 s') ∧ rules6 s' = rules6 s ∧ chain s' = chain s.
Proof.
  induction wl as [|a wl IH]; intros P s Hm; cbn [map exec_all].
  - split; [|done]. eapply mixed_imp; [|done]. intros r Hr. split; [done|]. by intros a ?%elem_of_nil.
  - cbn [head default tail]. destruct (IH (λ r, P r ∧ r ≠ RTo a) (exec true (RuleDel false (RTo a)) s)) as (M & -> & ->).
    { rewrite rules4_exec. by apply mixed_del. }
    rewrite rules6_exec, chain_exec. split; [|done]. eapply mixed_imp; [|done].
    intros r [[Hr Ha] Hw]. split; [done|]. intros b [->|Hb]%elem_of_cons; auto.
Qed.

Lemma exec_all_true oks cs s : Forall (λ ok, ok = true) oks → exec_all oks cs s = exec_all [] cs s.
Proof.
  revert oks s. induction cs as [|c cs IH]; intros oks s Ho; [done|]. cbn [exec_all]. destruct Ho as [|ok oks -> Ho]; [done|]. by apply IH.
Qed.
Lemma exec_all_nil_app cs1 cs2 s : exec_all [] (cs1 ++ cs2) s = exec_all [] cs2 (exec_all [] cs1 s).
Proof. revert s. induction cs1 as [|c cs1 IH]; intros s; [done|]. apply IH. Qed.

Lemma teardown_clean s0 v oks : vpn_inv s0 v → Forall (λ ok, ok = true) oks →
  rules4 (sys (teardown_routing oks v)) = rules4 s0 ∧ rules6 (sys (teardown_routing oks v)) = rules6 s0 ∧
  chain (sys (teardown_routing oks v)) = chain s0 ∧ table4 (sys (teardown_routing oks v)) = [] ∧ table6 (sys (teardown_routing oks v)) = [].
Proof.
  intros [I1 I2 I3] Ho. unfold teardown_routing, teardown_commands. rewrite exec_all_true by done. rewrite exec_all_nil_app.
  destruct (del_whitelist _ (WHITELIST v) _ _ I1) as (M4 & E6 & Ec).
  set (s := exec_all [] _ (sys v)) in *. cbn [sys teardown_script exec_all head default tail].
  rewrite !rules4_exec, !rules6_exec, !chain_exec, E6, Ec. split_and!; [..|done|done].
  - apply (mixed_end ours). eapply mixed_imp; [|apply mixed_del, mixed_del, M4; done]. unfold own_rule. naive_solver.
  - apply (mixed_end ours). eapply mixed_imp; [|apply mixed_del, mixed_del, I2; done]. unfold own_rule6. naive_solver.
  - apply (mixed_end ours_nat). eapply mixed_imp; [|apply mixed_del, mixed_del, I3; done]. unfold own_nat. naive_solver.
Qed.

(** What others have in the system, and that a command of the client leaves it. *)
Definition of_others (s : system) : list rule * list rule * list nat_rule :=
  (filter (λ r, ¬ ours r) (rules4 s), filter (λ r, ¬ ours r) (rules6 s), filter (λ n, ¬ ours_nat n) (chain s)).
Definition own_command (c : command) : Prop :=
  match c with RuleAdd _ r | RuleDel _ r => ours r | NatAppend n | NatDelete n => ours_nat n | _ => True end.

Lemma exec_others ok c s : own_command c → of_others (exec ok c s) = of_others s.
Proof.
  intros Hc. unfold of_others. rewrite rules4_exec, rules6_exec, chain_exec.
  destruct c as [?|?|[] r|[] r|n|n]; cbn in Hc; destruct ok; cbn [app];
    rewrite ?app_nil_r, ?filter_app, ?(del_foreign ours), ?(del_foreign ours_nat), ?(filter_cons_False _ r) by tauto; try done.
  rewrite (filter_cons_False _ n) by tauto. by rewrite filter_nil, app_nil_r.
Qed.
Lemma exec_all_others cs : Forall own_command cs → ∀ oks s, of_others (exec_all oks cs s) = of_others s.
Proof. induction 1 as [|c cs Hc _ IH]; intros oks s; [done|]. cbn [exec_all]. rewrite IH. by apply exec_others. Qed.
Lemma teardown_commands_own v : Forall own_command (teardown_commands v).
Proof. apply Forall_app. split; [|by repeat constructor]. by apply Forall_map, Forall_true. Qed.

Lemma vpn_events_cons v ev evs : vpn_events v (ev :: evs) = v' ← vpn_event_step v ev; vpn_events v' evs.
Proof.
  unfold vpn_events. cbn. destruct (vpn_event_step v ev); [done|]. by induction evs.
Qed.

Lemma vpn_events_inv s0 evs : ∀ v v', vpn_inv s0 v → vpn_events v evs = Some v' → exited v' = false → vpn_inv s0 v'.
Proof.
  induction evs as [|ev evs IH]; intros v v' Hi E Hx; [unfold vpn_events in E; by simplify_eq/=|].
  rewrite vpn_events_cons in E. destruct (vpn_event_step v ev) as [w|] eqn:Es; [|done]. cbn [mbind option_bind] in E.
  destruct (exited w) eqn:Ex.
  { destruct evs as [|ev' evs]; [unfold vpn_events in E; simplify_eq/=; congruence|].
    rewrite vpn_events_cons in E. unfold vpn_event_step at 1 in E. by rewrite Ex in E. }
  apply (IH w v'); [|done..]. unfold vpn_event_step in Es. destruct (exited v); [done|].
  destruct ev as [a ok|dns'|oks|]; [injection Es as <-; by apply inv_dial|..].
  - destruct (routing_set v) eqn:Er; [done|]. injection Es as <-. destruct Hi as [I1 I2 I3].
    split; cbn [sys]; (eapply mixed_imp; [|done]); unfold own_rule, own_rule6, own_nat; cbn; rewrite ?Er; naive_solver.
  - destruct (routing_set v) eqn:Er; [done|]. injection Es as <-. by apply inv_setup.
  - injection Es as <-. by destruct (routing_set v).
Qed.


(** An address that is dialed bypasses the tunnel, if the command worked: its rule
    is looked at before that of the tunnel. *)
Lemma dialed_bypasses a v : a ∉ WHITELIST v → RTo a ∈ rules4 (sys (vpn_whitelist true a v)).
Proof. intros Ha. unfold vpn_whitelist. rewrite decide_False by done. by left. Qed.
(** If it did not, nothing tries again. *)
Lemma failed_exception_stays a v ok : RTo a ∉ rules4 (sys v) → a ∉ WHITELIST v →
  RTo a ∉ rules4 (sys (vpn_whitelist ok a (vpn_whitelist false a v))).
Proof.
  intros Hr Ha. unfold vpn_whitelist at 2. rewrite decide_False by done. unfold vpn_whitelist. cbn [WHITELIST].
  by rewrite decide_True by (by left).
Qed.

(** ** DNS behind the redirection *)

(** Without spoofing: a query travels as one datagram of a stream to a public
    server, and the answer is the first datagram that comes back. *)
Definition dns_proxy_query (buf : list byte) : list byte := le_bytes 2 (cast_u 16 (Z.of_nat (length buf))) ++ buf.
Definition dns_proxy_answer (input : list byte) : res io_error (list byte) :=
  '(len_buf, input) ← read_exact 2 input;
  '(buf, _) ← read_exact (Z.to_nat (le_val len_buf)) input;
  Ok buf.

(** The exit sends out the query and nothing else; and what it sends back first is
    what the application gets, cut like all datagrams of the tunnel. *)
Lemma dns_proxy_relays q answer more : Z.of_nat (length q) <= 8192 →
  exit_udp_up (dns_proxy_query q) = [q] ∧
  dns_proxy_answer (exit_udp_down (answer :: more)) = Ok (take (Z.to_nat 8190) answer).
Proof.
  intros Hq. split.
  - unfold exit_udp_up, datagrams. assert (dns_proxy_query q = vpn_udp_up [q]) as E by (symmetry; apply app_nil_r).
    destruct (datagrams_prefix [q] (S (length (dns_proxy_query q))) (dns_proxy_query q)) as [_ Hd]; [|lia|by rewrite E|by apply Hd].
    repeat constructor. unfold small. lia.
  - unfold exit_udp_down, dns_proxy_answer. cbn [map concat]. set (p := take _ answer). unfold datagram at 1.
    assert (Z.of_nat (length p) <= 8190) by (unfold p; rewrite length_take; lia).
    rewrite <-!app_assoc, read_exact_app by apply length_le_bytes. cbn [mbind res_bind].
    rewrite cast_u_small by lia. rewrite le_val_small by (cbn; lia). by rewrite read_exact_app by lia.
Qed.

(** ** Diverted packets (windows.rs) *)

(** [Ipv4Packet::new] asks for twenty bytes; the destination is in the last four. *)
Definition ipv4_destination (pkt : list byte) : option IpAddr :=
  if decide (20 <= length pkt)%nat then Some (V4 (be_val (take 4 (drop 16 pkt)))) else None.

Inductive diverted := Inject (pkt : list byte) | Capture (pkt : list byte) | Discard.
Definition up_shuffle (whitelist : IpAddr → bool) (raw_pkt : list byte) : diverted :=
  match ipv4_destination raw_pkt with
  | Some dest => if whitelist dest then Inject raw_pkt else Capture raw_pkt
  | None => Discard
  end.

(** What a packet is taken for depends on these four bytes alone, whatever its version,
    and it leaves as it came. *)
Lemma up_shuffle_splits whitelist pkt : (20 <= length pkt)%nat →
  (up_shuffle whitelist pkt = Inject pkt ∨ up_shuffle whitelist pkt = Capture pkt) ∧
  (up_shuffle whitelist pkt = Inject pkt ↔ whitelist (V4 (be_val (take 4 (drop 16 pkt)))) = true).
Proof.
  intros Hl. unfold up_shuffle, ipv4_destination. rewrite decide_True by done. destruct (whitelist _); naive_solver.
Qed.

(** ** Runs *)
Module LinuxDemo.
Definition s0 : system := mkSystem [ROther "from all lookup main"] [ROther "from all lookup main"] ["old"%string] [] [NatOther "docker"].
Definition evs : list vpn_event :=
  [Dial (V4 1) true; Bound "127.0.0.1:5353"; Dial (V4 2) false; Connected [true; true; true; true; true; false]; Dial (V4 1) true; Dial (V4 3) true].
End LinuxDemo.
Import LinuxDemo.


(** A client that ends before it has connected leaves its exceptions behind. *)
Example exceptions_left_behind :
  ∃ v, vpn_events (mkLinuxVpn s0 [] "" false false) [Dial (V4 1) true; Ends []] = Some v ∧ RTo (V4 1) ∈ rules4 (sys v).
Proof. eexists. split; [reflexivity|]. by left. Qed.
