(* ===== verification/SystemProxy.v ===== *)
(** * The proxy settings of the system
    (binaries/geph5-client-gui/src/pac/{linux,windows,dummy}.rs)

    A graphical client that connects points the system at its HTTP proxy, and takes
    that back when it disconnects.  [ProxySettings] is what the dashboard relies on;
    the Windows backend keeps it, the GNOME backend only as long as its commands
    work, for it does not look at how they end. *)
From Stdlib Require Import ZArith Lia Floats.SpecFloat.
From S2P Require Import Prelude Crypto Mizaru Protocol Text IpText Cache Dialer Routes GetDialer Bdp ExitNet ClientNet Vpn Transport BrokerSource ClientMain GuiApp.
Local Open Scope Z_scope.

(** ** What the dashboard relies on *)

(** [format!("{}:{}", proxy.ip(), proxy.port())] *)
Definition ip_port (a : SocketAddr) : string := String.append (ip_to_string (ip a)) (String IpText.colon (dec (port a))).

(** [O]: how the calls to the system end.  [effective_proxy]: what programs use. *)
Class ProxySettings (St O : Type) := {
  set_http_proxy : SocketAddr → O → St → St * res string unit;
  unset_http_proxy : O → St → St * res string unit;
  effective_proxy : St → option string
}.
Class ProxyLaws (St O : Type) `{ProxySettings St O} := {
  set_takes proxy o st st' : set_http_proxy proxy o st = (st', Ok tt) → effective_proxy st' = Some (ip_port proxy);
  unset_takes o st st' : unset_http_proxy o st = (st', Ok tt) → effective_proxy st' = None
}.

(** ** The registry (windows.rs) *)

Record registry := mkRegistry { ProxyServer : string; ProxyEnable : Z }.
(** Whether the key opens, and whether the two values can be set. *)
Record reg_outcome := mkRegOutcome { key_opens : bool; server_set : bool; enable_set : bool }.

(** [ProxyServer], then [ProxyEnable]; the first failure ends it. *)
Definition set_registry (server : string) (enable : Z) (o : reg_outcome) (r : registry) : registry * res string unit :=
  if negb (key_opens o) then (r, Err "Failed to open registry key with write access"%string)
  else if negb (server_set o) then (r, Err "Failed to set registry value 'ProxyServer'"%string)
  else if negb (enable_set o) then (mkRegistry server (ProxyEnable r), Err "Failed to set registry value 'ProxyEnable'"%string)
  else (mkRegistry server enable, Ok tt).

#[export] Instance windows_proxy : ProxySettings registry reg_outcome := {|
  set_http_proxy proxy := set_registry (ip_port proxy) 1;
  unset_http_proxy := set_registry "" 0;
  effective_proxy r := if ProxyEnable r =? 0 then None else Some (ProxyServer r)
|}.
#[export] Instance windows_laws : ProxyLaws registry reg_outcome.
Proof.
  split; intros; cbn in *; unfold set_registry in *; repeat case_match; by simplify_eq/=.
Qed.

(** ** GNOME (linux.rs) *)

(** A run of [gsettings]: it cannot be started, ends with an error, or works. *)
Inductive gs_run := CannotRun | RunFails | RunWorks.
Abbreviation gsettings := (gmap (string * string) string).

(** [Command::output] with [?]: only a program that cannot be started is an error. *)
Definition gs_set (schema key value : string) (o : gs_run) (g : gsettings) : gsettings * res string unit :=
  match o with
  | CannotRun => (g, Err "Failed to run gsettings"%string)
  | RunFails => (g, Ok tt)
  | RunWorks => (<[(schema, key) := value]> g, Ok tt)
  end.
Fixpoint gs_sets (sets : list (string * string * string)) (o : nat → gs_run) (g : gsettings) : gsettings * res string unit :=
  match sets with
  | [] => (g, Ok tt)
  | (schema, key, value) :: sets =>
      match gs_set schema key value (o 0%nat) g with
      | (g, Ok _) => gs_sets sets (λ i, o (S i)) g
      | r => r
      end
  end.

Definition set_commands (proxy : SocketAddr) : list (string * string * string) :=
  [("org.gnome.system.proxy.http", "enabled", "true");
   ("org.gnome.system.proxy.http", "host", ip_to_string (ip proxy)); ("org.gnome.system.proxy.http", "port", dec (port proxy));
   ("org.gnome.system.proxy.https", "enabled", "true");
   ("org.gnome.system.proxy.https", "host", ip_to_string (ip proxy)); ("org.gnome.system.proxy.https", "port", dec (port proxy));
   ("org.gnome.system.proxy", "mode", "manual")]%string.
Definition unset_commands : list (string * string * string) := [("org.gnome.system.proxy", "mode", "none")]%string.

#[export] Instance gnome_proxy : ProxySettings gsettings (nat → gs_run) := {|
  set_http_proxy proxy := gs_sets (set_commands proxy);
  unset_http_proxy := gs_sets unset_commands;
  effective_proxy g :=
    if bool_decide (g !! ("org.gnome.system.proxy", "mode")%string = Some "manual"%string)
    then Some (String.append (default ""%string (g !! ("org.gnome.system.proxy.http", "host")%string))
                 (String IpText.colon (default ""%string (g !! ("org.gnome.system.proxy.http", "port")%string))))
    else None
|}.

Lemma gs_sets_work sets : ∀ o g, (∀ i, o i = RunWorks) →
  gs_sets sets o g = (foldl (λ g '(schema, key, value), <[(schema, key) := value]> g) g sets, Ok tt).
Proof.
  induction sets as [|[[schema key] value] sets IH]; intros o g Ho; [done|]. cbn [gs_sets]. unfold gs_set. rewrite Ho.
  by rewrite IH.
Qed.

(** As long as the commands work the GNOME settings do what they should. *)
Lemma gnome_settings proxy o g : (∀ i, o i = RunWorks) →
  (∃ g', set_http_proxy proxy o g = (g', Ok tt) ∧ effective_proxy g' = Some (ip_port proxy)) ∧
  (∃ g', unset_http_proxy o g = (g', Ok tt) ∧ effective_proxy g' = None).
Proof.
  intros Ho. cbn [set_http_proxy unset_http_proxy gnome_proxy]. rewrite !gs_sets_work by done. split; (eexists; split; [done|]).
  - cbn [foldl set_commands effective_proxy gnome_proxy]. rewrite lookup_insert_eq, bool_decide_true by done.
    rewrite !lookup_insert_ne by done. rewrite lookup_insert_eq. rewrite !lookup_insert_ne by done. by rewrite lookup_insert_eq.
  - cbn [foldl unset_commands effective_proxy gnome_proxy]. rewrite lookup_insert_eq, bool_decide_false by done. done.
Qed.

(** If none works, they report success and change nothing. *)
Lemma gnome_silent_failure proxy g : set_http_proxy (O:=nat → gs_run) proxy (λ _, RunFails) g = (g, Ok tt) ∧
  unset_http_proxy (λ _ : nat, RunFails) g = (g, Ok tt).
Proof. done. Qed.

(** ** Connecting and disconnecting *)

Section dashboard.
Context {St O} `{ProxyLaws St O}.
Context (to_json : Credential → list byte) (shipped : ClientConfig).

(** The two buttons with what they do to the system. *)
Definition connect_button (o : O) (g : gui) (st : St) : gui * St * res string unit :=
  if PROXY_AUTOCONF (stored g) then
    match http_proxy_listen (GuiApp.get_config to_json shipped (stored g)) with
    | Some proxy =>
        let '(st, r) := set_http_proxy proxy o st in
        (click_connect to_json shipped (is_ok r) g, st, r)
    | None => (g, st, Panic)
    end
  else (click_connect to_json shipped true g, st, Ok tt).
Definition disconnect_button (o : O) (g : gui) (st : St) : gui * St * res string unit :=
  let '(st, r) := unset_http_proxy o st in (click_disconnect (is_ok r) g, st, r).

(** The proxy of the system follows the client.  When Connect succeeds with the
    proxy to be set automatically, a client runs that serves an HTTP proxy, and the
    system uses exactly that one; when Disconnect succeeds, no client runs and the
    system uses none. *)
Theorem proxy_follows_client o o' g st g1 st1 g2 st2 :
  PROXY_AUTOCONF (stored g) = true →
  connect_button o g st = (g1, st1, Ok tt) → disconnect_button o' g1 st1 = (g2, st2, Ok tt) →
  (∃ cfg proxy, daemon g1 = Some cfg ∧ http_proxy_listen cfg = Some proxy ∧ system_proxy g1 = Some proxy ∧
     effective_proxy st1 = Some (ip_port proxy)) ∧
  daemon g2 = None ∧ system_proxy g2 = None ∧ effective_proxy st2 = None.
Proof.
  intros Ha Ec Ed. unfold connect_button in Ec. rewrite Ha in Ec. cbn [GuiApp.get_config http_proxy_listen] in Ec.
  destruct (set_http_proxy _ o st) as [st' r] eqn:Es. simplify_eq/=. split.
  - eexists _, _. split; [done|]. split; [done|]. rewrite Ha. split; [done|]. by apply set_takes in Es.
  - unfold disconnect_button in Ed. destruct (unset_http_proxy o' st1) as [st3 r] eqn:Eu. simplify_eq/=.
    split_and!; [done..|]. by apply unset_takes in Eu.
Qed.
End dashboard.

Lemma proxy_follows_client_witness :
  ∃ g1 st1 g2 st2,
    connect_button GuiDemo.json GuiDemo.shipped (mkRegOutcome true true true) (gui_start default_settings) (mkRegistry "" 0)
      = (g1, st1, Ok tt) ∧ effective_proxy st1 = Some "127.0.0.1:19999"%string ∧
    disconnect_button (mkRegOutcome true true true) g1 st1 = (g2, st2, Ok tt) ∧ effective_proxy st2 = None.
Proof.
  eexists _, _, _, _. split; [reflexivity|]. split; [reflexivity|]. split; [reflexivity|].
  exact (proj2 (proj2 (proj2 (proxy_follows_client GuiDemo.json GuiDemo.shipped (mkRegOutcome true true true) (mkRegOutcome true true true)
    (gui_start default_settings) (mkRegistry "" 0) _ _ _ _ eq_refl eq_refl eq_refl)))).
Defined.
