(* ===== verification/ConnStatus.v ===== *)
(** * What a client says of its connection
    (binaries/geph5-client/src/client_inner.rs, control_prot.rs)

    All instances of a client write the one status that [conn_info] shows.  [Requests]
    has the instances with their events; here is what the status is worth. *)
From S2P Require Import Prelude Requests.
Import ClientPool.

(** [ControlProtocol::conn_info] *)
Definition conn_info (c : client_state) : ConnInfo := CURRENT_CONN_INFO c.

Definition has_session (c : client_state) (i : nat) : Prop := ∃ a l, instances c !! i = Some (Session a l).
Definition unsettled (c : client_state) : Prop := ∃ i st, instances c !! i = Some st ∧ (st = Connecting ∨ st = Backoff).

(** The status is that of the last instance that began or got through, unless that
    one has failed since. *)
Definition status_inv (c : client_state) : Prop :=
  instances c ≠ [] ∧
  match conn_info c with
  | ConnConnecting => unsettled c
  | ConnConnected i => has_session c i ∨ unsettled c
  end.

Lemma put_settled (c : client_state) i st st' : instances c !! i = Some st → <[i := st']> (instances c) !! i = Some st'.
Proof. intros E. apply list_lookup_insert_eq. by eapply lookup_lt_Some. Qed.
Lemma insert_not_nil {A} (l : list A) i x : l ≠ [] → <[i := x]> l ≠ [].
Proof. intros Hl E. apply (f_equal length) in E. rewrite length_insert in E. by destruct l. Qed.

(** A session that stays one keeps the status true. *)
Lemma same_settled (c : client_state) i a l a' l' : instances c !! i = Some (Session a l) →
  (∀ j, has_session c j → ∃ b m, <[i := Session a' l']> (instances c) !! j = Some (Session b m)) ∧
  (unsettled c → ∃ j st, <[i := Session a' l']> (instances c) !! j = Some st ∧ (st = Connecting ∨ st = Backoff)).
Proof.
  intros E. split.
  - intros j (b & m & Ej). destruct (decide (j = i)) as [->|Hne].
    + eexists _, _. by eapply put_settled.
    + exists b, m. by rewrite list_lookup_insert_ne.
  - intros (j & st & Ej & Hst). exists j, st. split; [|done]. rewrite list_lookup_insert_ne; [done|]. intros ->. naive_solver.
Qed.

(** An instance that waits or connects leaves the client unsettled. *)
Lemma put_unsettled (c : client_state) i st st' : instances c !! i = Some st → st' = Connecting ∨ st' = Backoff →
  ∃ j s, <[i := st']> (instances c) !! j = Some s ∧ (s = Connecting ∨ s = Backoff).
Proof. intros E Hst. exists i, st'. split; [by eapply put_settled|done]. Qed.

Lemma status_step c ev c' : status_inv c → client_step c ev = Some c' → status_inv c'.
Proof.
  unfold status_inv, conn_info. intros [Hne Hi] E. destruct ev as [r m|i d|i|i|i r|i|i]; cbn [client_step] in E.
  - destruct (asked c !! r); [done|]. injection E as <-. done.
  - destruct (instances c !! i) as [[]|] eqn:Ei; try done. injection E as <-. cbn. split; [by apply insert_not_nil|].
    destruct d; cbn.
    + destruct (CURRENT_CONN_INFO c); [|right]; (eapply put_unsettled; [done|by right]).
    + right. eapply put_unsettled; [done|by right].
    + left. eexists _, _. by eapply put_settled.
  - destruct (instances c !! i) as [[|[] l|]|] eqn:Ei; try done. injection E as <-. cbn. split; [by apply insert_not_nil|].
    destruct (same_settled c i true l false l Ei) as [H1 H2]. destruct (CURRENT_CONN_INFO c); [by apply H2|].
    destruct Hi; [left; by apply H1|right; by apply H2].
  - destruct (instances c !! i) as [[|a l|]|] eqn:Ei; try done. destruct (chan c) as [|r q]; [done|]. injection E as <-. cbn.
    split; [by apply insert_not_nil|]. destruct (same_settled c i a l a (r :: l) Ei) as [H1 H2].
    destruct (CURRENT_CONN_INFO c); [by apply H2|]. destruct Hi; [left; by apply H1|right; by apply H2].
  - destruct (instances c !! i) as [[|a l|]|] eqn:Ei; try done. case_bool_decide; [|done]. injection E as <-.
    destruct (same_settled c i a l a (filter (λ q, q ≠ r) l) Ei) as [H1 H2].
    destruct a; cbn; (split; [by apply insert_not_nil|]); destruct (CURRENT_CONN_INFO c); try (by apply H2);
      (destruct Hi; [left; by apply H1|right; by apply H2]).
  - destruct (instances c !! i) as [[|[] l|]|] eqn:Ei; try done. injection E as <-. cbn. split; [by apply insert_not_nil|].
    destruct (CURRENT_CONN_INFO c); [|right]; (eapply put_unsettled; [done|by right]).
  - destruct (instances c !! i) as [[]|] eqn:Ei; try done. injection E as <-. cbn. split; [by apply insert_not_nil|].
    eapply put_unsettled; [done|by left].
Qed.

Lemma status_run evs : ∀ c c', status_inv c → client_run c evs = Some c' → status_inv c'.
Proof.
  induction evs as [|ev evs IH] using rev_ind; intros c c' Hi E; [by injection E as <-|].
  unfold client_run in E. rewrite foldl_snoc in E. apply bind_Some in E as (d & E & Es).
  eapply status_step; [|exact Es]. by eapply IH.
Qed.

Lemma status_start : status_inv client_start.
Proof. split; [done|]. exists 0, Connecting. by split; [|left]. Qed.

(** Whatever has happened to a client since it started: once every instance has a
    session, [conn_info] says that it is connected, and names an instance that has one. *)
Theorem status_when_settled evs c : client_run client_start evs = Some c →
  (∀ i st, instances c !! i = Some st → ∃ a l, st = Session a l) → ∃ i, conn_info c = ConnConnected i ∧ has_session c i.
Proof.
  intros E Hs. destruct (status_run evs _ _ status_start E) as [_ Hi].
  assert (Hu : ¬ unsettled c) by (intros (i & st & Ei & Hst); destruct (Hs i st Ei) as (a & l & ->); naive_solver).
  destruct (conn_info c) as [|i]; [done|]. exists i. naive_solver.
Qed.

(** Not so while one of them is trying ([status_of_one_instance]), and between the
    end of the last session and the next try the status is that of a client with one. *)
Example connected_while_down :
  (λ c, (conn_info c, instances c)) <$> client_run client_start [DialDone 0 Established; DialDone 1 DialFailed; DialDone 2 DialFailed; MuxDies 0; SessionEnds 0]
  = Some (ConnConnected 0, [Backoff; Backoff; Backoff]).
Proof. vm_compute. reflexivity. Qed.
