(* ===== verification/BitField.v ===== *)
(** * Bit fields and layouts of WinDivert addresses
    (binaries/geph5-client/src/vpn/windows/windivert/bindings.rs)

    The bit-field unit that the generated bindings carry, with its loops over single
    bits, for both byte orders; what it computes in terms of integers; the accessors
    of [WINDIVERT_ADDRESS] over it; and the layout of the structures of the driver,
    computed by the rules of repr(C) and compared with the asserted offsets. *)
From Stdlib Require Import ZArith Lia.
From S2P Require Import Prelude Protocol.

Local Open Scope Z_scope.

(** ** The unit *)
Section unit.
(** [cfg!(target_endian = "big")] *)
Context (big : bool).

Definition bit_index (index : nat) : nat := (if big then 7 - index mod 8 else index mod 8)%nat.

(** [__BindgenBitfieldUnit::get_bit]; an index behind the storage panics. *)
Definition get_bit (storage : list byte) (index : nat) : res Empty_set bool :=
  byte ← unwrap (storage !! (index / 8)%nat);
  let mask := Z.shiftl 1 (Z.of_nat (bit_index index)) in
  mret (Z.land (byte_to_Z byte) mask =? mask).

(** [__BindgenBitfieldUnit::set_bit] *)
Definition set_bit (storage : list byte) (index : nat) (val : bool) : res Empty_set (list byte) :=
  byte ← unwrap (storage !! (index / 8)%nat);
  let mask := Z.shiftl 1 (Z.of_nat (bit_index index)) in
  let new := if val then Z.lor (byte_to_Z byte) mask else Z.land (byte_to_Z byte) (255 - mask) in
  mret (<[(index / 8)%nat := byte_of_Z new]> storage).

(** [1 << i] of 64 bits, which overflow checks guard. *)
Definition shl64 (i : nat) : res Empty_set Z := if (i <? 64)%nat then Ok (Z.shiftl 1 (Z.of_nat i)) else Panic.

Definition field_pos (bit_width i : nat) : nat := if big then (bit_width - 1 - i)%nat else i.

(** [__BindgenBitfieldUnit::get]: the loop over the bits of the field. *)
Fixpoint get_loop (storage : list byte) (bit_offset bit_width : nat) (idx : list nat) (val : Z) : res Empty_set Z :=
  match idx with
  | [] => mret val
  | i :: idx =>
      set ← get_bit storage (i + bit_offset)%nat;
      val ← (if set : bool then mask ← shl64 (field_pos bit_width i); mret (Z.lor val mask) else mret val);
      get_loop storage bit_offset bit_width idx val
  end.
Definition get (storage : list byte) (bit_offset bit_width : nat) : res Empty_set Z :=
  get_loop storage bit_offset bit_width (seq 0 bit_width) 0.

(** [__BindgenBitfieldUnit::set] *)
Fixpoint set_loop (storage : list byte) (bit_offset bit_width : nat) (val : Z) (idx : list nat) : res Empty_set (list byte) :=
  match idx with
  | [] => mret storage
  | i :: idx =>
      mask ← shl64 i;
      storage ← set_bit storage (field_pos bit_width i + bit_offset)%nat (Z.land val mask =? mask);
      set_loop storage bit_offset bit_width val idx
  end.
Definition set (storage : list byte) (bit_offset bit_width : nat) (val : Z) : res Empty_set (list byte) :=
  set_loop storage bit_offset bit_width val (seq 0 bit_width).

(** *** The bits of a storage, one by one *)
Definition bit (s : list byte) (i : nat) : bool :=
  match s !! (i / 8)%nat with Some b => Z.testbit (byte_to_Z b) (Z.of_nat (bit_index i)) | None => false end.

Lemma bit_index_lt i : (bit_index i < 8)%nat.
Proof. unfold bit_index. pose proof (Nat.mod_upper_bound i 8). destruct big; lia. Qed.
Lemma bit_index_inj i j : (i / 8 = j / 8)%nat → bit_index i = bit_index j → i = j.
Proof.
  unfold bit_index. intros Hd Hm. pose proof (Nat.mod_upper_bound i 8). pose proof (Nat.mod_upper_bound j 8).
  rewrite (Nat.div_mod_eq i 8), (Nat.div_mod_eq j 8), Hd. destruct big; lia.
Qed.
Lemma field_pos_lt w i : (i < w)%nat → (field_pos w i < w)%nat.
Proof. unfold field_pos. destruct big; lia. Qed.
Lemma field_pos_invol w i : (i < w)%nat → field_pos w (field_pos w i) = i.
Proof. unfold field_pos. destruct big; lia. Qed.

Lemma in_storage (s : list byte) i : (i < 8 * length s)%nat → is_Some (s !! (i / 8)%nat).
Proof. intros Hi. apply lookup_lt_is_Some. apply Nat.Div0.div_lt_upper_bound. lia. Qed.

(** A mask of one bit tests that bit. *)
Lemma land_bit_eqb x k : 0 <= k → (Z.land x (Z.shiftl 1 k) =? Z.shiftl 1 k) = Z.testbit x k.
Proof.
  intros Hk. rewrite Z.shiftl_1_l. destruct (Z.testbit x k) eqn:E.
  - apply Z.eqb_eq. apply Z.bits_inj'. intros n Hn. rewrite Z.land_spec, Z.pow2_bits_eqb by done.
    destruct (Z.eqb_spec k n) as [<-|]; [by rewrite E|apply andb_false_r].
  - apply Z.eqb_neq. intros H. apply (f_equal (λ z, Z.testbit z k)) in H.
    rewrite Z.land_spec, Z.pow2_bits_true, E in H by done. done.
Qed.

Lemma get_bit_bit s i : (i < 8 * length s)%nat → get_bit s i = Ok (bit s i).
Proof.
  intros Hi. destruct (in_storage s i Hi) as [b Hb]. unfold get_bit, bit. rewrite Hb. cbn.
  by rewrite land_bit_eqb by lia.
Qed.

(** The byte that [set_bit] writes. *)
Lemma set_byte_bits (b : byte) (k j : nat) (v : bool) : (k < 8)%nat → (j < 8)%nat →
  let mask := Z.shiftl 1 (Z.of_nat k) in
  Z.testbit (byte_to_Z (byte_of_Z (if v then Z.lor (byte_to_Z b) mask else Z.land (byte_to_Z b) (255 - mask)))) (Z.of_nat j)
  = if decide (j = k) then v else Z.testbit (byte_to_Z b) (Z.of_nat j).
Proof.
  intros Hk Hj mask. rewrite byte_to_of_Z. change 256 with (2 ^ 8). rewrite Z.mod_pow2_bits_low by lia.
  assert (Hm : 255 - mask = Z.ldiff (Z.ones 8) mask).
  { subst mask. rewrite Z.shiftl_1_l. do 8 (destruct k as [|k]; [reflexivity|]). lia. }
  assert (Hb : ∀ n, Z.testbit mask (Z.of_nat n) = bool_decide (n = k)).
  { intros n. subst mask. rewrite Z.shiftl_1_l, Z.pow2_bits_eqb by lia. case_bool_decide; [apply Z.eqb_eq|apply Z.eqb_neq]; lia. }
  destruct v.
  - rewrite Z.lor_spec, Hb. destruct (decide (j = k)); case_bool_decide; try done; [apply orb_true_r|apply orb_false_r].
  - rewrite Z.land_spec, Hm, Z.ldiff_spec, Hb, Z.ones_spec_low by lia.
    destruct (decide (j = k)); case_bool_decide; try done; cbn; [apply andb_false_r|apply andb_true_r].
Qed.

(** [set_bit] changes its bit and no other. *)
Lemma set_bit_spec s i v : (i < 8 * length s)%nat → ∃ s', set_bit s i v = Ok s' ∧ length s' = length s ∧
  ∀ j, bit s' j = if decide (j = i) then v else bit s j.
Proof.
  intros Hi. destruct (in_storage s i Hi) as [b Hb]. eexists. split; [unfold set_bit; by rewrite Hb|].
  split; [apply length_insert|]. intros j. unfold bit at 1.
  destruct (decide (j / 8 = i / 8)%nat) as [E|E].
  - rewrite E, list_lookup_insert_eq by (by eapply lookup_lt_Some). rewrite set_byte_bits by apply bit_index_lt.
    unfold bit. rewrite E, Hb. destruct (decide (j = i)) as [->|Hn]; [by rewrite decide_True|].
    rewrite decide_False; [done|]. intros ?. by apply Hn, bit_index_inj.
  - rewrite list_lookup_insert_ne by done. rewrite decide_False; [done|]. congruence.
Qed.

Lemma set_loop_spec off w val idx : ∀ s, (off + w <= 8 * length s)%nat → (w <= 64)%nat → Forall (λ i, (i < w)%nat) idx →
  ∃ s', set_loop s off w val idx = Ok s' ∧ length s' = length s ∧
  ∀ j, bit s' j = if decide (Exists (λ i, j = (field_pos w i + off)%nat) idx) then Z.testbit val (Z.of_nat (field_pos w (j - off))) else bit s j.
Proof.
  induction idx as [|i idx IH]; intros s Hs Hw Hi; cbn [set_loop].
  { exists s. split_and!; [done..|]. intros j. rewrite decide_False; [done|]. by intros ?%Exists_nil. }
  apply Forall_cons in Hi as [Hi His]. pose proof (field_pos_lt w i Hi) as Hp.
  unfold shl64. rewrite (proj2 (Nat.ltb_lt _ _)) by lia. cbn [mbind res_bind].
  rewrite land_bit_eqb by lia. destruct (set_bit_spec s (field_pos w i + off) (Z.testbit val (Z.of_nat i))) as (s1 & -> & Hl & Hb1); [lia|].
  cbn [mbind res_bind]. destruct (IH s1) as (s2 & -> & Hl2 & Hb2); [by rewrite Hl|done..|].
  exists s2. split_and!; [done|congruence|]. intros j. rewrite Hb2, Hb1.
  destruct (decide (Exists _ idx)) as [E|E]; [rewrite decide_True; [done|idtac; by right]|].
  destruct (decide (j = _)) as [->|Hj].
  - rewrite decide_True by (by left). f_equal. rewrite Nat.add_sub. by rewrite field_pos_invol.
  - rewrite decide_False; [done|]. by rewrite Exists_cons; intros [?|?].
Qed.

Definition in_field (off w j : nat) : bool := bool_decide (off <= j < off + w)%nat.

(** [set] writes the bits of its value to its field, and keeps every other bit. *)
Lemma set_spec s off w val : (off + w <= 8 * length s)%nat → (w <= 64)%nat → ∃ s', set s off w val = Ok s' ∧ length s' = length s ∧
  ∀ j, bit s' j = if in_field off w j then Z.testbit val (Z.of_nat (field_pos w (j - off))) else bit s j.
Proof.
  intros Hs Hw. destruct (set_loop_spec off w val (seq 0 w) s) as (s' & E & Hl & Hb); [done..| |].
  { apply Forall_forall. intros i. rewrite elem_of_seq. lia. }
  exists s'. split_and!; [done..|]. intros j. rewrite Hb. unfold in_field.
  destruct (decide _) as [(i & Hi & ->)%Exists_exists|Hn].
  - apply elem_of_seq in Hi. pose proof (field_pos_lt w i). rewrite bool_decide_eq_true_2 by lia. done.
  - case_bool_decide as Hj; [|done]. destruct Hn. apply Exists_exists. exists (field_pos w (j - off)). pose proof (field_pos_lt w (j - off)).
    rewrite elem_of_seq, field_pos_invol by lia. lia.
Qed.

Lemma get_loop_spec s off w idx : ∀ val, (off + w <= 8 * length s)%nat → (w <= 64)%nat → Forall (λ i, (i < w)%nat) idx → 0 <= val →
  ∃ v, get_loop s off w idx val = Ok v ∧ 0 <= v ∧
  ∀ k, Z.testbit v (Z.of_nat k) = Z.testbit val (Z.of_nat k) || bool_decide (Exists (λ i, k = field_pos w i ∧ bit s (i + off) = true) idx).
Proof.
  induction idx as [|i idx IH]; intros val Hs Hw Hi Hv; cbn [get_loop].
  { exists val. split_and!; [done..|]. intros k. rewrite bool_decide_eq_false_2; [by rewrite orb_false_r|]. by intros ?%Exists_nil. }
  apply Forall_cons in Hi as [Hi His]. pose proof (field_pos_lt w i Hi) as Hp.
  rewrite get_bit_bit by lia. cbn [mbind res_bind]. unfold shl64. rewrite (proj2 (Nat.ltb_lt _ _)) by lia.
  destruct (bit s (i + off)) eqn:Eb; cbn [mbind res_bind mret res_ret].
  - destruct (IH (Z.lor val (Z.shiftl 1 (Z.of_nat (field_pos w i))))) as (v & -> & Hv0 & Hb); [done..| |].
    { apply Z.lor_nonneg. split; [done|]. rewrite Z.shiftl_1_l. lia. }
    exists v. split_and!; [done..|]. intros k. rewrite Hb, Z.lor_spec, Z.shiftl_1_l, Z.pow2_bits_eqb, <- orb_assoc by lia.
    f_equal. apply eq_true_iff_eq. rewrite orb_true_iff, Z.eqb_eq, !bool_decide_eq_true, Exists_cons.
    split; intros [?|?]; [left; split; [lia|done]|by right|left; lia|by right].
  - destruct (IH val) as (v & -> & Hv0 & Hb); [done..|]. exists v. split_and!; [done..|]. intros k. rewrite Hb. f_equal.
    apply bool_decide_ext. rewrite Exists_cons. naive_solver congruence.
Qed.

(** [get] reads the bits of its field. *)
Lemma get_spec s off w : (off + w <= 8 * length s)%nat → (w <= 64)%nat → ∃ v, get s off w = Ok v ∧ 0 <= v < 2 ^ Z.of_nat w ∧
  ∀ k, Z.testbit v (Z.of_nat k) = (k <? w)%nat && bit s (field_pos w k + off).
Proof.
  intros Hs Hw. destruct (get_loop_spec s off w (seq 0 w) 0) as (v & E & Hv & Hb); [done..| |done|].
  { apply Forall_forall. intros i. rewrite elem_of_seq. lia. }
  assert (Hk : ∀ k, Z.testbit v (Z.of_nat k) = (k <? w)%nat && bit s (field_pos w k + off)).
  { intros k. rewrite Hb, Z.bits_0, orb_false_l. apply eq_true_iff_eq. rewrite bool_decide_eq_true, andb_true_iff, Nat.ltb_lt, Exists_exists.
    setoid_rewrite elem_of_seq. split.
    - intros (i & Hi & -> & Hs1). split; [apply field_pos_lt; lia|]. by rewrite field_pos_invol by lia.
    - intros [Hkw Hs1]. exists (field_pos w k). pose proof (field_pos_lt w k Hkw). rewrite field_pos_invol by lia. split_and!; [lia..|done]. }
  exists v. split_and!; [done|done| |done].
  replace v with (v mod 2 ^ Z.of_nat w); [apply Z.mod_pos_bound; lia|]. apply Z.bits_inj'. intros n Hn.
  destruct (Z.ltb_spec n (Z.of_nat w)); [by rewrite Z.mod_pow2_bits_low|]. rewrite Z.mod_pow2_bits_high by lia.
  rewrite <- (Z2Nat.id n), Hk by lia. by rewrite (proj2 (Nat.ltb_ge _ _)) by lia.
Qed.
End unit.

(** ** Laws of fields *)

(** The bits of a field are those of the value written, whatever its high bits. *)
Lemma set_get big s off w val s' : (off + w <= 8 * length s)%nat → (w <= 64)%nat → set big s off w val = Ok s' →
  get big s' off w = Ok (val mod 2 ^ Z.of_nat w).
Proof.
  intros Hs Hw E. destruct (set_spec big s off w val) as (s1 & E1 & Hl & Hb); [done..|]. rewrite E1 in E. injection E as ->.
  destruct (get_spec big s' off w) as (v & -> & Hv & Hk); [lia|done|]. f_equal. apply Z.bits_inj'. intros n Hn.
  rewrite <- (Z2Nat.id n) by done. generalize (Z.to_nat n). clear n Hn. intros n. rewrite Hk, Hb. unfold in_field.
  destruct (Nat.ltb_spec n w) as [Hlt|Hge].
  - pose proof (field_pos_lt big w n Hlt). rewrite bool_decide_eq_true_2 by lia.
    rewrite Nat.add_sub, field_pos_invol, Z.mod_pow2_bits_low by lia. done.
  - by rewrite Z.mod_pow2_bits_high by lia.
Qed.

(** Writing a field does not disturb another. *)
Lemma set_get_other big s off w val s' off' w' : (off + w <= 8 * length s)%nat → (w <= 64)%nat →
  (off' + w' <= 8 * length s)%nat → (w' <= 64)%nat → (off + w <= off' ∨ off' + w' <= off)%nat →
  set big s off w val = Ok s' → get big s' off' w' = get big s off' w'.
Proof.
  intros Hs Hw Hs' Hw' Hd E. destruct (set_spec big s off w val) as (s1 & E1 & Hl & Hb); [done..|]. rewrite E1 in E. injection E as ->.
  destruct (get_spec big s' off' w') as (v & -> & Hv & Hk); [lia|done|].
  destruct (get_spec big s off' w') as (u & -> & Hu & Hk'); [lia|done|]. f_equal. apply Z.bits_inj'. intros n Hn.
  rewrite <- (Z2Nat.id n) by done. generalize (Z.to_nat n). clear n Hn. intros n. rewrite Hk, Hk'.
  destruct (Nat.ltb_spec n w') as [Hlt|]; [|done]. rewrite Hb. unfold in_field. pose proof (field_pos_lt big w' n Hlt).
  by rewrite bool_decide_eq_false_2 by lia.
Qed.

(** *** Little endian: fields of the integer that the bytes make *)

Lemma testbit_le_val s i : Z.testbit (le_val s) (Z.of_nat i) = bit false s i.
Proof.
  revert i. induction s as [|b s IH]; intros i; [by rewrite Z.bits_0|]. unfold bit. cbn [bit_index].
  change (le_val (b :: s)) with (byte_to_Z b + 256 * le_val s).
  assert (Hlor : byte_to_Z b + 256 * le_val s = Z.lor (byte_to_Z b) (Z.shiftl (le_val s) 8)).
  { rewrite Z.shiftl_mul_pow2, Z.mul_comm by done. change (2 ^ 8) with 256. apply Z.add_nocarry_lor.
    apply Z.bits_inj'. intros n Hn. rewrite Z.land_spec, Z.bits_0. change 256 with (2 ^ 8). rewrite <- Z.shiftl_mul_pow2 by done.
    destruct (Z.ltb_spec n 8); [by rewrite Z.shiftl_spec_low, andb_false_r|].
    rewrite <- (Z.mod_small (byte_to_Z b) (2 ^ 8)) by apply byte_to_Z_range. by rewrite Z.mod_pow2_bits_high by lia. }
  rewrite Hlor, Z.lor_spec. destruct (Nat.ltb_spec i 8).
  - rewrite Z.shiftl_spec_low, orb_false_r, Nat.div_small, Nat.mod_small by lia. done.
  - rewrite <- (Z.mod_small (byte_to_Z b) (2 ^ 8)) by apply byte_to_Z_range. rewrite Z.mod_pow2_bits_high, Z.shiftl_spec by lia.
    replace (Z.of_nat i - 8) with (Z.of_nat (i - 8)) by lia. rewrite orb_false_l, IH. unfold bit. cbn [bit_index].
    assert (Hd : (i / 8 = S ((i - 8) / 8))%nat) by (symmetry; apply (Nat.div_unique i 8 _ ((i - 8) mod 8)); pose proof (Nat.mod_upper_bound (i - 8) 8); pose proof (Nat.div_mod_eq (i - 8) 8); lia).
    assert (Hm : (i mod 8 = (i - 8) mod 8)%nat) by (rewrite <- (Nat.Div0.mod_add (i - 8) 1 8); f_equal; lia).
    by rewrite Hd, Hm.
Qed.

Lemma get_le s off w : (off + w <= 8 * length s)%nat → (w <= 64)%nat →
  get false s off w = Ok (Z.land (Z.shiftr (le_val s) (Z.of_nat off)) (Z.ones (Z.of_nat w))).
Proof.
  intros Hs Hw. destruct (get_spec false s off w) as (v & -> & Hv & Hk); [done..|]. f_equal. apply Z.bits_inj'. intros n Hn.
  rewrite <- (Z2Nat.id n) by done. generalize (Z.to_nat n). clear n Hn. intros n.
  rewrite Hk, Z.land_spec, Z.shiftr_spec by lia. cbn [field_pos]. rewrite <- testbit_le_val, Nat2Z.inj_add.
  destruct (Nat.ltb_spec n w); [by rewrite Z.ones_spec_low, andb_true_r by lia|]. by rewrite Z.ones_spec_high, andb_false_r by lia.
Qed.

Definition field_update (off w : nat) (val x : Z) : Z :=
  Z.lor (Z.ldiff x (Z.shiftl (Z.ones (Z.of_nat w)) (Z.of_nat off))) (Z.shiftl (val mod 2 ^ Z.of_nat w) (Z.of_nat off)).

Lemma set_le s off w val s' : (off + w <= 8 * length s)%nat → (w <= 64)%nat → set false s off w val = Ok s' →
  le_val s' = field_update off w val (le_val s).
Proof.
  intros Hs Hw E. destruct (set_spec false s off w val) as (s1 & E1 & Hl & Hb); [done..|]. rewrite E1 in E. injection E as ->.
  apply Z.bits_inj'. intros n Hn. rewrite <- (Z2Nat.id n) by done. generalize (Z.to_nat n). clear n Hn. intros n.
  unfold field_update. rewrite testbit_le_val, Hb, Z.lor_spec, Z.ldiff_spec, testbit_le_val. unfold in_field. cbn [field_pos].
  destruct (Nat.ltb_spec n off).
  - rewrite bool_decide_eq_false_2, !Z.shiftl_spec_low by lia. by rewrite andb_true_r, orb_false_r.
  - rewrite !Z.shiftl_spec by lia. replace (Z.of_nat n - Z.of_nat off) with (Z.of_nat (n - off)) by lia. case_bool_decide.
    + rewrite Z.ones_spec_low, Z.mod_pow2_bits_low by lia. by rewrite andb_false_r.
    + rewrite Z.ones_spec_high, Z.mod_pow2_bits_high by lia. by rewrite andb_true_r, orb_false_r.
Qed.

(** ** Several fields in turn *)
Abbreviation fields := (list (nat * nat * Z)).
Fixpoint set_all (big : bool) (s : list byte) (fs : fields) : res Empty_set (list byte) :=
  match fs with
  | [] => mret s
  | (off, w, val) :: fs => s ← set big s off w val; set_all big s fs
  end.

Definition inside (n : nat) (f : nat * nat * Z) : Prop := (f.1.1 + f.1.2 <= 8 * n)%nat ∧ (f.1.2 <= 64)%nat.
Definition apart (f g : nat * nat * Z) : Prop := (f.1.1 + f.1.2 <= g.1.1 ∨ g.1.1 + g.1.2 <= f.1.1)%nat.

Lemma set_all_spec big fs : ∀ s, Forall (inside (length s)) fs → ∃ s', set_all big s fs = Ok s' ∧ length s' = length s ∧
  ∀ off w, inside (length s) (off, w, 0) → Forall (apart (off, w, 0)) fs → get big s' off w = get big s off w.
Proof.
  induction fs as [|[[off w] val] fs IH]; intros s Hi; [by exists s|]. apply Forall_cons in Hi as [[H1 H2] Hi].
  cbn in H1, H2. cbn [set_all]. destruct (set_spec big s off w val) as (s1 & E & Hl & _); [done..|]. rewrite E. cbn.
  destruct (IH s1) as (s2 & -> & Hl2 & Hg); [by rewrite Hl|]. exists s2. split_and!; [done|congruence|].
  intros off' w' [H1' H2'] [Ha Hf]%Forall_cons. cbn in *. rewrite Hg; [|by rewrite Hl|done].
  apply (set_get_other big s off w val); try done. unfold apart in Ha. cbn in Ha. lia.
Qed.

(** Fields that are apart all keep what was written to them. *)
Lemma set_all_get big fs : ∀ s s', Forall (inside (length s)) fs → ForallOrdPairs apart fs → set_all big s fs = Ok s' →
  ∀ off w val, (off, w, val) ∈ fs → get big s' off w = Ok (val mod 2 ^ Z.of_nat w).
Proof.
  induction fs as [|[[off w] val] fs IH]; intros s s' Hi Ha E off' w' val' Hin; [by apply elem_of_nil in Hin|].
  apply Forall_cons in Hi as [[H1 H2] Hi]. cbn in H1, H2. inversion Ha as [|? ? Ha1 Ha2]; subst. cbn [set_all] in E.
  destruct (set_spec big s off w val) as (s1 & E1 & Hl & _); [done..|]. rewrite E1 in E. cbn in E.
  apply elem_of_cons in Hin as [[= -> -> ->]|Hin].
  - destruct (set_all_spec big fs s1) as (s2 & E2 & Hl2 & Hg); [by rewrite Hl|]. rewrite E2 in E. injection E as ->.
    rewrite Hg; [by apply (set_get big s)|by rewrite Hl|]. done.
  - by apply (IH s1 s'); [rewrite Hl|..].
Qed.

(** ** Layout by repr(C) *)

(** A member has a name, a size and an alignment. *)
Record member := mkMember { m_name : string; m_size : nat; m_align : nat }.
Abbreviation structure := (list member).

Definition align_up (n a : nat) : nat := ((n + a - 1) / a * a)%nat.

Fixpoint place (off : nat) (ms : structure) : list (string * nat) * nat :=
  match ms with
  | [] => ([], off)
  | m :: ms => let o := align_up off (m_align m) in let '(l, e) := place (o + m_size m) ms in ((m_name m, o) :: l, e)
  end.
Definition max_align (ms : structure) : nat := foldr (λ m, Nat.max (m_align m)) 1%nat ms.
Definition size_of (ms : structure) : nat := align_up (place 0 ms).2 (max_align ms).
Definition union_size (ms : structure) : nat := align_up (foldr (λ m, Nat.max (m_size m)) 0%nat ms) (max_align ms).

Lemma align_up_ge n a : (0 < a)%nat → (n <= align_up n a)%nat ∧ (align_up n a mod a = 0)%nat.
Proof.
  intros Ha. unfold align_up. split; [|apply Nat.Div0.mod_mul].
  pose proof (Nat.div_mod_eq (n + a - 1) a). pose proof (Nat.mod_upper_bound (n + a - 1) a). lia.
Qed.

(** Members lie behind each other without overlap, each at a multiple of its
    alignment, and within the structure. *)
Definition placed (lo hi : nat) (ms : structure) (l : list (string * nat)) : Prop :=
  Forall2 (λ m p, p.1 = m_name m ∧ (lo <= p.2)%nat ∧ (p.2 + m_size m <= hi)%nat ∧ (p.2 mod m_align m = 0)%nat) ms l.
Lemma placed_weaken lo lo' hi ms l : (lo' <= lo)%nat → placed lo hi ms l → placed lo' hi ms l.
Proof. intros H Hp. eapply Forall2_impl; [exact Hp|]. intros m p (? & ? & ? & ?). split_and!; [done|lia..|done]. Qed.

Lemma place_sound ms : ∀ off, Forall (λ m, (0 < m_align m)%nat) ms →
  placed off (place off ms).2 ms (place off ms).1 ∧ (off <= (place off ms).2)%nat.
Proof.
  induction ms as [|m ms IH]; intros off Ha; [split; [constructor|done]|]. apply Forall_cons in Ha as [Hm Ha].
  cbn [place]. pose proof (align_up_ge off (m_align m) Hm) as [Hge Hal].
  destruct (place (align_up off (m_align m) + m_size m) ms) as [l e] eqn:E.
  destruct (IH (align_up off (m_align m) + m_size m)%nat Ha) as [IH1 IH2]. rewrite E in IH1, IH2. cbn [fst snd] in *.
  split; [|lia]. constructor; [split_and!; [done|done|exact IH2|done]|]. eapply placed_weaken; [|exact IH1]. lia.
Qed.

Lemma place_order ms : ∀ off i j m p q, Forall (λ m, (0 < m_align m)%nat) ms → (i < j)%nat →
  ms !! i = Some m → (place off ms).1 !! i = Some p → (place off ms).1 !! j = Some q → (p.2 + m_size m <= q.2)%nat.
Proof.
  induction ms as [|m0 ms IH]; intros off i j m p q Ha Hij Hm Hp Hq; [done|]. apply Forall_cons in Ha as [Hm0 Ha].
  cbn [place] in Hp, Hq. pose proof (place_sound ms (align_up off (m_align m0) + m_size m0) Ha) as [Hs _].
  pose proof (IH (align_up off (m_align m0) + m_size m0)%nat) as IH'.
  destruct (place (align_up off (m_align m0) + m_size m0) ms) as [l e]. cbn [fst snd] in *.
  destruct j as [|j]; [lia|]. destruct i as [|i]; cbn [lookup list_lookup fst snd] in *; simplify_eq.
  - destruct (Forall2_lookup_r _ _ _ _ _ Hs Hq) as (? & _ & _ & ? & _). cbn in *; assumption.
  - eapply IH'; [done| |done..]. lia.
Qed.

(** *** The structures of the driver *)
Definition u8 n := mkMember n 1 1.
Definition u16 n := mkMember n 2 2.
Definition u32 n := mkMember n 4 4.
Definition u64 n := mkMember n 8 8.
Definition arr (n : string) (k : nat) (m : member) := mkMember n (k * m_size m) (m_align m).
Definition nested (n : string) (s : structure) := mkMember n (size_of s) (max_align s).

Definition WINDIVERT_DATA_NETWORK : structure := [u32 "IfIdx"; u32 "SubIfIdx"].
Definition WINDIVERT_DATA_FLOW : structure :=
  [u64 "EndpointId"; u64 "ParentEndpointId"; u32 "ProcessId"; arr "LocalAddr" 4 (u32 ""); arr "RemoteAddr" 4 (u32 "");
   u16 "LocalPort"; u16 "RemotePort"; u8 "Protocol"].
Definition WINDIVERT_DATA_SOCKET : structure :=
  [u64 "EndpointId"; u64 "ParentEndpointId"; u32 "ProcessId"; arr "LocalAddr" 4 (u32 ""); arr "RemoteAddr" 4 (u32 "");
   u16 "LocalPort"; u16 "RemotePort"; u8 "Protocol"].
Definition WINDIVERT_DATA_REFLECT : structure :=
  [u64 "Timestamp"; u32 "ProcessId"; u32 "Layer"; u64 "Flags"; u16 "Priority"].
Definition WINDIVERT_ADDRESS_union : structure :=
  [nested "Network" WINDIVERT_DATA_NETWORK; nested "Flow" WINDIVERT_DATA_FLOW; nested "Socket" WINDIVERT_DATA_SOCKET;
   nested "Reflect" WINDIVERT_DATA_REFLECT; arr "Reserved3" 64 (u8 ""); arr "_bindgen_union_align" 8 (u64 "")].
Definition WINDIVERT_ADDRESS_struct : structure :=
  [u64 "Timestamp"; arr "_bitfield_1" 4 (u8 ""); u32 "Reserved2";
   mkMember "__bindgen_anon_1" (union_size WINDIVERT_ADDRESS_union) (max_align WINDIVERT_ADDRESS_union)].
Definition OVERLAPPED_offsets : structure := [u32 "Offset"; u32 "OffsetHigh"].
Definition OVERLAPPED_union : structure := [nested "__bindgen_anon_1" OVERLAPPED_offsets; u64 "Pointer"; u64 "_bindgen_union_align"].
Definition OVERLAPPED : structure :=
  [u64 "Internal"; u64 "InternalHigh"; mkMember "__bindgen_anon_1" (union_size OVERLAPPED_union) (max_align OVERLAPPED_union); u64 "hEvent"].

(** *** The layout tests of bindgen *)
Definition struct_test (s : structure) (size align : nat) (offsets : list (string * nat)) : bool :=
  (size_of s =? size)%nat && (max_align s =? align)%nat && forallb (λ p, bool_decide (p ∈ (place 0 s).1)) offsets.
Definition union_test (s : structure) (size align : nat) (offsets : list (string * nat)) : bool :=
  (union_size s =? size)%nat && (max_align s =? align)%nat &&
  forallb (λ p, bool_decide (p.1 ∈ m_name <$> s) && (p.2 =? 0)%nat) offsets.

Definition test_layout_OVERLAPPED_offsets : bool := struct_test OVERLAPPED_offsets 8 4 [("Offset", 0); ("OffsetHigh", 4)]%nat.
Definition test_layout_OVERLAPPED_union : bool := union_test OVERLAPPED_union 8 8 [("Pointer", 0)]%nat.
Definition test_layout_OVERLAPPED : bool := struct_test OVERLAPPED 32 8 [("Internal", 0); ("InternalHigh", 8); ("hEvent", 24)]%nat.
Definition test_layout_NETWORK : bool := struct_test WINDIVERT_DATA_NETWORK 8 4 [("IfIdx", 0); ("SubIfIdx", 4)]%nat.
Definition test_layout_FLOW : bool := struct_test WINDIVERT_DATA_FLOW 64 8
  [("EndpointId", 0); ("ParentEndpointId", 8); ("ProcessId", 16); ("LocalAddr", 20); ("RemoteAddr", 36); ("LocalPort", 52);
   ("RemotePort", 54); ("Protocol", 56)]%nat.
Definition test_layout_SOCKET : bool := struct_test WINDIVERT_DATA_SOCKET 64 8
  [("EndpointId", 0); ("ParentEndpointId", 8); ("ProcessId", 16); ("LocalAddr", 20); ("RemoteAddr", 36); ("LocalPort", 52);
   ("RemotePort", 54); ("Protocol", 56)]%nat.
Definition test_layout_REFLECT : bool := struct_test WINDIVERT_DATA_REFLECT 32 8
  [("Timestamp", 0); ("ProcessId", 8); ("Layer", 12); ("Flags", 16); ("Priority", 24)]%nat.
Definition test_layout_ADDRESS_union : bool := union_test WINDIVERT_ADDRESS_union 64 8
  [("Network", 0); ("Flow", 0); ("Socket", 0); ("Reflect", 0); ("Reserved3", 0)]%nat.
Definition test_layout_ADDRESS : bool := struct_test WINDIVERT_ADDRESS_struct 80 8 [("Timestamp", 0); ("Reserved2", 12)]%nat.

(** Every layout that the bindings assert is the one the rules give. *)
Lemma layouts_as_asserted :
  test_layout_OVERLAPPED_offsets && test_layout_OVERLAPPED_union && test_layout_OVERLAPPED && test_layout_NETWORK &&
  test_layout_FLOW && test_layout_SOCKET && test_layout_REFLECT && test_layout_ADDRESS_union && test_layout_ADDRESS = true.
Proof. vm_compute. reflexivity. Qed.

(** ** The accessors of an address *)

(** The fields of [WINDIVERT_ADDRESS]; the union is its 64 bytes.  The driver exists
    for little-endian machines only. *)
Record WINDIVERT_ADDRESS := mkAddress {
  Timestamp : Z; bitfield_1 : list byte; Reserved2 : Z; anon_1 : list byte
}.
Definition address_wf (a : WINDIVERT_ADDRESS) : Prop := length (bitfield_1 a) = 4%nat ∧ length (anon_1 a) = 64%nat.

Definition get_field (off w : nat) (a : WINDIVERT_ADDRESS) : res Empty_set Z := cast_u 32 <$> get false (bitfield_1 a) off w.
Definition set_field (off w : nat) (a : WINDIVERT_ADDRESS) (val : Z) : res Empty_set WINDIVERT_ADDRESS :=
  bf ← set false (bitfield_1 a) off w val; mret (mkAddress (Timestamp a) bf (Reserved2 a) (anon_1 a)).

Definition Layer := get_field 0 8.
Definition set_Layer := set_field 0 8.
Definition Event := get_field 8 8.
Definition set_Event := set_field 8 8.
Definition Sniffed := get_field 16 1.
Definition set_Sniffed := set_field 16 1.
Definition Outbound := get_field 17 1.
Definition set_Outbound := set_field 17 1.
Definition Loopback := get_field 18 1.
Definition set_Loopback := set_field 18 1.
Definition Impostor := get_field 19 1.
Definition set_Impostor := set_field 19 1.
Definition IPv6 := get_field 20 1.
Definition set_IPv6 := set_field 20 1.
Definition IPChecksum := get_field 21 1.
Definition set_IPChecksum := set_field 21 1.
Definition TCPChecksum := get_field 22 1.
Definition set_TCPChecksum := set_field 22 1.
Definition UDPChecksum := get_field 23 1.
Definition set_UDPChecksum := set_field 23 1.
Definition Reserved1 := get_field 24 8.
Definition set_Reserved1 := set_field 24 8.

Definition bitfield_fields (Layer Event Sniffed Outbound Loopback Impostor IPv6 IPChecksum TCPChecksum UDPChecksum Reserved1 : Z) : fields :=
  [(0, 8, Layer); (8, 8, Event); (16, 1, Sniffed); (17, 1, Outbound); (18, 1, Loopback); (19, 1, Impostor); (20, 1, IPv6);
   (21, 1, IPChecksum); (22, 1, TCPChecksum); (23, 1, UDPChecksum); (24, 8, Reserved1)]%nat.

(** [WINDIVERT_ADDRESS::new_bitfield_1] *)
Definition new_bitfield_1 (Layer Event Sniffed Outbound Loopback Impostor IPv6 IPChecksum TCPChecksum UDPChecksum Reserved1 : Z) : res Empty_set (list byte) :=
  set_all false (replicate 4 x00) (bitfield_fields Layer Event Sniffed Outbound Loopback Impostor IPv6 IPChecksum TCPChecksum UDPChecksum Reserved1).

(** Every argument of [new_bitfield_1] can be read back, cut to its width. *)
Lemma new_bitfield_roundtrip L E S O Lo I V IC TC UC R :
  ∃ bf, new_bitfield_1 L E S O Lo I V IC TC UC R = Ok bf ∧ length bf = 4%nat ∧
  ∀ off w val, (off, w, val) ∈ bitfield_fields L E S O Lo I V IC TC UC R → get false bf off w = Ok (val mod 2 ^ Z.of_nat w).
Proof.
  assert (Hi : Forall (inside 4) (bitfield_fields L E S O Lo I V IC TC UC R)) by (repeat constructor; cbn; lia).
  destruct (set_all_spec false (bitfield_fields L E S O Lo I V IC TC UC R) (replicate 4 x00) Hi) as (bf & Ebf & Hl & _).
  exists bf. split_and!; [exact Ebf|done|]. apply (set_all_get false _ (replicate 4 x00)); [exact Hi| |exact Ebf].
  repeat constructor; cbn; lia.
Qed.

Lemma get_field_eq off w a : address_wf a → (off + w <= 32)%nat →
  get_field off w a = Ok (Z.land (Z.shiftr (le_val (bitfield_1 a)) (Z.of_nat off)) (Z.ones (Z.of_nat w))).
Proof.
  intros [H4 _] Hw. unfold get_field. rewrite get_le by lia. cbn. f_equal. rewrite Z.land_ones by lia. apply cast_u_small.
  split; [apply Z.mod_pos_bound; lia|]. eapply Z.lt_le_trans; [apply Z.mod_pos_bound; lia|]. apply Z.pow_le_mono_r; lia.
Qed.

(** A setter changes its own field and nothing else of the address. *)
Lemma set_field_spec off w a val : address_wf a → (off + w <= 32)%nat → ∃ a', set_field off w a val = Ok a' ∧ address_wf a' ∧
  get_field off w a' = Ok (val mod 2 ^ Z.of_nat w) ∧
  (∀ off' w', (off' + w' <= 32)%nat → (off + w <= off' ∨ off' + w' <= off)%nat → get_field off' w' a' = get_field off' w' a) ∧
  Timestamp a' = Timestamp a ∧ Reserved2 a' = Reserved2 a ∧ anon_1 a' = anon_1 a.
Proof.
  intros [H4 H64] Hw. destruct (set_spec false (bitfield_1 a) off w val) as (bf & E & Hl & _); [lia..|].
  unfold set_field. rewrite E. eexists. split; [reflexivity|]. split_and!; [by split; cbn; congruence| | |done..].
  - unfold get_field. cbn. rewrite (set_get false (bitfield_1 a) off w val) by (done || lia). cbn. f_equal. apply cast_u_small.
    split; [apply Z.mod_pos_bound; lia|]. eapply Z.lt_le_trans; [apply Z.mod_pos_bound; lia|]. apply Z.pow_le_mono_r; lia.
  - intros off' w' Hw' Hd. unfold get_field. cbn. by rewrite (set_get_other false (bitfield_1 a) off w val) by (done || lia).
Qed.

(** The bit loops of the bindings, for either byte order and any field inside the
    storage: writing succeeds and keeps the size, the field then reads as the value cut
    to its width, and every field apart from it reads as before.  On a little-endian
    machine reading is a shift and a mask of the integer that the bytes make, and
    writing replaces those bits of it. *)
Theorem bitfield_laws big s off w val : (off + w <= 8 * length s)%nat → (w <= 64)%nat →
  ∃ s', set big s off w val = Ok s' ∧ length s' = length s ∧
  get big s' off w = Ok (val mod 2 ^ Z.of_nat w) ∧
  (∀ off' w', (off' + w' <= 8 * length s)%nat → (w' <= 64)%nat → (off + w <= off' ∨ off' + w' <= off)%nat →
     get big s' off' w' = get big s off' w') ∧
  (big = false → le_val s' = field_update off w val (le_val s) ∧
     get big s off w = Ok (Z.land (Z.shiftr (le_val s) (Z.of_nat off)) (Z.ones (Z.of_nat w)))).
Proof.
  intros Hs Hw. destruct (set_spec big s off w val) as (s' & E & Hl & _); [done..|]. exists s'. split_and!; [done|done| | |].
  - by apply (set_get big s).
  - intros off' w' ? ? ?. by apply (set_get_other big s off w val).
  - intros ->. split; [by apply set_le|by apply get_le].
Qed.

Lemma bitfield_laws_witness : ∃ s', set false (replicate 4 xff) 17 1 0 = Ok s' ∧ length s' = 4%nat.
Proof.
  destruct (bitfield_laws false (replicate 4 xff) 17 1 0 ltac:(cbn; lia) ltac:(lia)) as (s' & E & Hl & _). by exists s'.
Defined.

(** A field that reaches behind the storage, or is wider than an integer, panics. *)
Example get_behind_storage : get false (replicate 4 xff) 30 4 = Panic.
Proof. vm_compute. reflexivity. Qed.
Example set_too_wide : set false (replicate 16 x00) 0 65 1 = Panic.
Proof. vm_compute. reflexivity. Qed.
