(* ===== verification/WinDivert.v ===== *)
(** * The Windows side of the client's VPN
    (binaries/geph5-client/src/vpn/windows.rs and windivert/mod.rs, packet.rs, socket.rs)

    The wrapper around the WinDivert driver: handles, packets with the address that
    they are injected with, socket events; and the two threads that move packets
    between the driver and the user-space stack, interleaved at will.  The driver is
    what its calls return, which is an argument of every operation. *)
From Stdlib Require Import ZArith Lia.
From S2P Require Import Prelude Protocol VpnSystem BitField.

Local Open Scope Z_scope.

(** ** Handles (mod.rs) *)

Inductive Layer_kind := LNetwork | LNetworkForward | LFlow | LSocket | LReflect.
Definition to_windivert (l : Layer_kind) : Z :=
  match l with LNetwork => 0 | LNetworkForward => 1 | LFlow => 2 | LSocket => 3 | LReflect => 4 end.

Definition INVALID_HANDLE_VALUE : Z := 2 ^ 64 - 1.

(** [InternalError] carries what [GetLastError] says. *)
Definition check_c_error {A} (last_error : Z) (ok : bool) (a : A) : res Z A := if ok then Ok a else Err last_error.

(** [Handle::open]: a filter with a zero byte is no C string. *)
Definition Handle_open (WinDivertOpen : list byte → Z → Z → Z → Z) (last_error : Z)
    (filter : list byte) (layer : Layer_kind) (priority flags : Z) : res Z Z :=
  if bool_decide (x00 ∈ filter) then Panic
  else let handle := WinDivertOpen filter (to_windivert layer) priority flags in
       check_c_error last_error (negb (handle =? INVALID_HANDLE_VALUE)) handle.

(** [PacketHandle::open] and [SocketHandle::open], which only listens. *)
Definition PacketHandle_open (WinDivertOpen : list byte → Z → Z → Z → Z) (last_error : Z) (filter : list byte) (priority : Z) : res Z Z :=
  Handle_open WinDivertOpen last_error filter LNetwork priority 0.
Definition WINDIVERT_FLAG_SNIFF : Z := 1.
Definition WINDIVERT_FLAG_RECV_ONLY : Z := 4.
Definition SocketHandle_open (WinDivertOpen : list byte → Z → Z → Z → Z) (last_error : Z) (filter : list byte) (priority : Z) : res Z Z :=
  Handle_open WinDivertOpen last_error filter LSocket priority (Z.lor WINDIVERT_FLAG_SNIFF WINDIVERT_FLAG_RECV_ONLY).
(** Dropping a handle must succeed. *)
Definition Handle_drop (retcode : Z) : res Z unit := if 0 <? retcode then Ok () else Panic.

(** A handle that was opened is one the driver gave, and a filter of the sources, which
    has no zero byte, never panics. *)
Lemma Handle_open_valid drv err filter layer priority flags : x00 ∉ filter →
  match Handle_open drv err filter layer priority flags with
  | Ok h => h = drv filter (to_windivert layer) priority flags ∧ h ≠ INVALID_HANDLE_VALUE
  | Err e => e = err ∧ drv filter (to_windivert layer) priority flags = INVALID_HANDLE_VALUE
  | Panic => False
  end.
Proof.
  intros Hf. unfold Handle_open, check_c_error. rewrite bool_decide_eq_false_2 by done. by destruct (Z.eqb_spec (drv filter (to_windivert layer) priority flags) INVALID_HANDLE_VALUE).
Qed.

(** What a call of [WinDivertRecv] does: the bytes it writes to the front of the
    buffer, the length it reports and the address. *)
Record recv_call := mkRecv { r_retcode : Z; r_written : list byte; r_len : Z; r_addr : WINDIVERT_ADDRESS; r_error : Z }.

(** [Handle::receive]: the buffer afterwards, and the length. *)
Definition Handle_receive (packet_buf : option (list byte)) (c : recv_call) : res Z (option (list byte) * Z) :=
  let after := (λ buf, take (length buf) (r_written c) ++ drop (length (r_written c)) buf) <$> packet_buf in
  _ ← check_c_error (r_error c) (0 <? r_retcode c) (r_retcode c); mret (after, r_len c).

Record send_call := mkSend { s_retcode : Z; s_error : Z }.
Definition Handle_send (c : send_call) : res Z unit := _ ← check_c_error (s_error c) (0 <? s_retcode c) (s_retcode c); mret ().

(** [Handle::send_multi]: the buffer, the addresses and the size announced for them. *)
Definition send_multi_args (packets : list (list byte)) (addr : WINDIVERT_ADDRESS) : list byte * list WINDIVERT_ADDRESS * Z :=
  (concat packets, replicate (length packets) addr, cast_u 32 (Z.of_nat (length packets) * Z.of_nat (size_of WINDIVERT_ADDRESS_struct))).

(** The buffer holds the packets in their order, and there is an address for each. *)
Fixpoint cut (ns : list nat) (buf : list byte) : list (list byte) :=
  match ns with [] => [] | n :: ns => take n buf :: cut ns (drop n buf) end.
Lemma send_multi_sound packets addr : Z.of_nat (length packets) < 2 ^ 25 →
  cut (length <$> packets) (send_multi_args packets addr).1.1 = packets ∧
  (send_multi_args packets addr).2 = Z.of_nat (length (send_multi_args packets addr).1.2) * 80.
Proof.
  intros Hn. cbn [send_multi_args fst snd]. split.
  - clear Hn. induction packets as [|p ps IH]; [done|]. cbn in *. rewrite take_app_length, drop_app_length. by f_equal.
  - rewrite length_replicate. change (Z.of_nat (size_of WINDIVERT_ADDRESS_struct)) with 80. apply cast_u_small. lia.
Qed.

(** ** Packets (packet.rs) *)

(** [PacketHandle::receive]; [LAST_RECV_ADDR] belongs to the whole process. *)
Definition packet_receive (c : recv_call) (LAST_RECV_ADDR : option WINDIVERT_ADDRESS) : res Z (list byte) * option WINDIVERT_ADDRESS :=
  match Handle_receive (Some (replicate 4096 x00)) c with
  | Ok (packet, packet_len) => (Ok (take (Z.to_nat packet_len) (default [] packet)), Some (r_addr c))
  | Err e => (Err e, LAST_RECV_ADDR)
  | Panic => (Panic, LAST_RECV_ADDR)
  end.

Definition bool_u32 (b : bool) : Z := if b then 1 else 0.

(** The address that [inject] makes of the last one. *)
Definition inject_addr (addr : WINDIVERT_ADDRESS) (is_outbound : bool) : res Empty_set WINDIVERT_ADDRESS :=
  addr ← set_Outbound addr (bool_u32 is_outbound);
  addr ← set_Impostor addr 1;
  addr ← set_IPChecksum addr 0;
  addr ← set_TCPChecksum addr 0;
  set_UDPChecksum addr 0.

(** [PacketHandle::inject]: the result, and the packet with its address if the driver
    took one. *)
Definition packet_inject (packet : list byte) (is_outbound : bool) (c : send_call) (LAST_RECV_ADDR : option WINDIVERT_ADDRESS)
    : res Z unit * option (list byte * WINDIVERT_ADDRESS) :=
  match LAST_RECV_ADDR with
  | Some addr =>
      match inject_addr addr is_outbound with
      | Ok addr =>
          match Handle_send c with
          | Ok _ => (Ok (), Some (packet, addr))
          | Err e => (Err e, None)
          | Panic => (Panic, None)
          end
      | _ => (Panic, None)
      end
  | None => (Ok (), None)
  end.

(** [PacketHandle::inject_multi]: what is given to the driver. *)
Definition inject_multi_args (packets : list (list byte)) (is_outbound : bool) (LAST_RECV_ADDR : option WINDIVERT_ADDRESS)
    : option (res Empty_set (list byte * list WINDIVERT_ADDRESS * Z)) :=
  (λ addr, send_multi_args packets <$> inject_addr addr is_outbound) <$> LAST_RECV_ADDR.

(** What an injected address says, and what it keeps of the address it was made of. *)
Definition injected (out : bool) (from a : WINDIVERT_ADDRESS) : Prop :=
  address_wf a ∧
  Outbound a = Ok (bool_u32 out) ∧ Impostor a = Ok 1 ∧
  IPChecksum a = Ok 0 ∧ TCPChecksum a = Ok 0 ∧ UDPChecksum a = Ok 0 ∧
  Layer a = Layer from ∧ Event a = Event from ∧ Sniffed a = Sniffed from ∧ Loopback a = Loopback from ∧
  IPv6 a = IPv6 from ∧ Reserved1 a = Reserved1 from ∧
  Timestamp a = Timestamp from ∧ Reserved2 a = Reserved2 from ∧ anon_1 a = anon_1 from.

(** One setter, in terms of all getters. *)
Ltac setter :=
  match goal with
  | H : address_wf ?a |- context [set_field ?o ?w ?a ?v] =>
      let a' := fresh "a" in let E := fresh "E" in let W := fresh "W" in let G := fresh "G" in let K := fresh "K" in
      destruct (set_field_spec o w a v H ltac:(lia)) as (a' & E & W & G & K & ? & ? & ?); rewrite E; cbn [mbind res_bind]
  end.
Ltac kept := repeat match goal with K : ∀ _ _, _ → _ → get_field _ _ ?a = _ |- context [get_field _ _ ?a] => rewrite K by lia end.

Lemma inject_addr_spec from out : address_wf from → ∃ a, inject_addr from out = Ok a ∧ injected out from a.
Proof.
  intros H. unfold inject_addr, set_Outbound, set_Impostor, set_IPChecksum, set_TCPChecksum, set_UDPChecksum.
  do 5 setter. eexists. split; [reflexivity|]. unfold injected, Outbound, Impostor, IPChecksum, TCPChecksum, UDPChecksum, Layer, Event, Sniffed, Loopback, IPv6, Reserved1.
  split_and!; try congruence; kept; try done.
  by rewrite G; destruct out.
Qed.

(** What the driver promises of a successful receive. *)
Definition delivers (c : recv_call) (pkt : list byte) : Prop :=
  0 < r_retcode c ∧ r_written c = pkt ∧ r_len c = Z.of_nat (length pkt) ∧ (length pkt <= 4096)%nat ∧ address_wf (r_addr c).

Lemma packet_receive_ok c pkt last : delivers c pkt → packet_receive c last = (Ok pkt, Some (r_addr c)).
Proof.
  intros (Hr & Hw & Hl & Hb & _). unfold packet_receive, Handle_receive, check_c_error. rewrite (proj2 (Z.ltb_lt _ _)) by done. cbn [mbind res_bind mret res_ret fmap option_fmap option_map from_option id].
  rewrite Hw, Hl, Nat2Z.id, length_replicate, (take_ge pkt) by done. by rewrite take_app_length.
Qed.

(** ** Socket events (socket.rs) *)

Record socket_data := mkSocket {
  EndpointId : Z; ParentEndpointId : Z; ProcessId : Z; LocalAddr : list Z; RemoteAddr : list Z; LocalPort : Z; RemotePort : Z; sock_protocol : Z
}.

(** Reading the union as [WINDIVERT_DATA_SOCKET], at the offsets of its layout. *)
Definition offset_of (s : structure) (name : string) : nat := default 0%nat (snd <$> find (λ p, bool_decide (p.1 = name)) (place 0 s).1).
Definition read_le (data : list byte) (off n : nat) : Z := le_val (take n (drop off data)).
Definition read_words (data : list byte) (off : nat) : list Z := (λ i, read_le data (off + 4 * i) 4) <$> seq 0 4.
Definition as_socket (data : list byte) : socket_data :=
  let at_ := offset_of WINDIVERT_DATA_SOCKET in
  mkSocket (read_le data (at_ "EndpointId") 8) (read_le data (at_ "ParentEndpointId") 8) (read_le data (at_ "ProcessId") 4)
    (read_words data (at_ "LocalAddr")) (read_words data (at_ "RemoteAddr"))
    (read_le data (at_ "LocalPort") 2) (read_le data (at_ "RemotePort") 2) (read_le data (at_ "Protocol") 1).

(** [to_u8]: the words come with the low one first. *)
Definition to_u8 (thirty_twos : list Z) : res Empty_set (list byte) :=
  let thirty_twos := reverse thirty_twos in
  mapM (M := res Empty_set) (λ i, w ← unwrap (thirty_twos !! (i / 4)%nat); unwrap (be_bytes 4 w !! (i mod 4)%nat)) (seq 0 16).

Definition parse_addr (a : WINDIVERT_ADDRESS) (s : socket_data) : res Empty_set (SocketAddr * SocketAddr) :=
  v6 ← IPv6 a;
  if v6 =? 1 then
    l ← to_u8 (LocalAddr s); r ← to_u8 (RemoteAddr s);
    mret (mkAddr (V6 (be_val l)) (LocalPort s), mkAddr (V6 (be_val r)) (RemotePort s))
  else
    l ← unwrap (LocalAddr s !! 0%nat); r ← unwrap (RemoteAddr s !! 0%nat);
    mret (mkAddr (V4 l) (LocalPort s), mkAddr (V4 r) (RemotePort s)).

Inductive SocketEvtType := EvBind | EvConnect | EvListen | EvAccept | EvClose.
Definition event_type (e : Z) : res Empty_set SocketEvtType :=
  if e =? 6 then Ok EvAccept else if e =? 3 then Ok EvBind else if e =? 7 then Ok EvClose
  else if e =? 4 then Ok EvConnect else if e =? 5 then Ok EvListen else Panic.

Record SocketEvt := mkEvt { evt_kind : SocketEvtType; local_addr : SocketAddr; remote_addr : SocketAddr; process_id : Z; is_tcp : bool }.

Definition no_err {A} (m : res Empty_set A) : res Z A := match m with Ok a => Ok a | Err e => match e with end | Panic => Panic end.

(** [SocketHandle::receive] *)
Definition socket_receive (c : recv_call) : res Z SocketEvt :=
  _ ← Handle_receive None c;
  let data := as_socket (anon_1 (r_addr c)) in
  addrs ← no_err (parse_addr (r_addr c) data);
  e ← no_err (Event (r_addr c));
  kind ← no_err (event_type e);
  mret (mkEvt kind addrs.1 addrs.2 (ProcessId data) (sock_protocol data =? 6)).

(** How the driver lays out a socket event, with the padding at the end. *)
Definition words_of (a : Z) : list byte := le_bytes 16 a.
Definition socket_bytes (endpoint parent pid local remote lport rport proto : Z) (pad : list byte) : list byte :=
  le_bytes 8 endpoint ++ le_bytes 8 parent ++ le_bytes 4 pid ++ words_of local ++ words_of remote ++
  le_bytes 2 lport ++ le_bytes 2 rport ++ le_bytes 1 proto ++ pad.

Lemma read_le_app pre n x post : 0 <= x < 256 ^ Z.of_nat n → read_le (pre ++ le_bytes n x ++ post) (length pre) n = x.
Proof. intros Hx. unfold read_le. rewrite drop_app_length. rewrite take_app_length' by (by rewrite length_le_bytes). by apply le_val_small. Qed.
Lemma le_bytes_app n m z : le_bytes (n + m) z = le_bytes n z ++ le_bytes m (z / 256 ^ Z.of_nat n).
Proof.
  revert z. induction n as [|n IH]; intros z; [by rewrite Z.div_1_r|]. change (le_bytes (S n + m) z) with (byte_of_Z z :: le_bytes (n + m) (z / 256)).
  change (le_bytes (S n) z) with (byte_of_Z z :: le_bytes n (z / 256)). rewrite IH, Nat2Z.inj_succ, Z.pow_succ_r, Z.div_div by lia. done.
Qed.
(** Four words of an address of 128 bits, at their places. *)
Lemma words_split a : words_of a = le_bytes 4 a ++ le_bytes 4 (a / 2 ^ 32) ++ le_bytes 4 (a / 2 ^ 64) ++ le_bytes 4 (a / 2 ^ 96).
Proof.
  unfold words_of. rewrite (le_bytes_app 4 12), (le_bytes_app 4 8), (le_bytes_app 4 4). rewrite !Z.div_div by done. done.
Qed.
Definition word (a : Z) (i : nat) : Z := (a / 2 ^ (32 * Z.of_nat i)) mod 2 ^ 32.
Lemma read_words_app pre a post : read_words (pre ++ words_of a ++ post) (length pre) = word a <$> [0; 1; 2; 3]%nat.
Proof.
  unfold read_words. cbn [seq fmap list_fmap]. rewrite words_split, <- !app_assoc.
  assert (Hw : ∀ k x (q post : list byte), length q = (4 * k)%nat → read_le (pre ++ q ++ le_bytes 4 x ++ post) (length pre + 4 * k) 4 = x mod 2 ^ 32).
  { intros k x q p' Hq. rewrite <- Hq, <- length_app, app_assoc. unfold read_le. rewrite drop_app_length, take_app_length' by (by rewrite length_le_bytes).
    by rewrite le_val_le_bytes. }
  f_equal; [|f_equal; [|f_equal; [|f_equal]]].
  - etransitivity; [exact (Hw 0%nat a [] _ eq_refl)|]. unfold word. by rewrite Z.div_1_r.
  - rewrite (Hw 1%nat (a / 2 ^ 32) (le_bytes 4 a)) by apply length_le_bytes. done.
  - rewrite (app_assoc (le_bytes 4 a)), (Hw 2%nat (a / 2 ^ 64)); [done|]. by rewrite length_app, !length_le_bytes.
  - rewrite (app_assoc (le_bytes 4 a)), (app_assoc (le_bytes 4 a ++ _)), (Hw 3%nat (a / 2 ^ 96)); [done|]. by rewrite !length_app, !length_le_bytes.
Qed.

(** The bytes that [to_u8] makes of four words spell the address, high byte first. *)
Lemma to_u8_words w0 w1 w2 w3 : to_u8 [w0; w1; w2; w3] = Ok (be_bytes 4 w3 ++ be_bytes 4 w2 ++ be_bytes 4 w1 ++ be_bytes 4 w0).
Proof. reflexivity. Qed.
Lemma be_val_app a b : be_val (a ++ b) = be_val a * 256 ^ Z.of_nat (length b) + be_val b.
Proof.
  unfold be_val. rewrite reverse_app. generalize (reverse a). intros x. rewrite <- (length_reverse b). generalize (reverse b). clear.
  induction l as [|c l IH]; [cbn; change (le_val []) with 0; lia|]. cbn [app length].
  change (le_val (c :: l ++ x)) with (byte_to_Z c + 256 * le_val (l ++ x)). change (le_val (c :: l)) with (byte_to_Z c + 256 * le_val l).
  rewrite IH, Nat2Z.inj_succ, Z.pow_succ_r by lia. lia.
Qed.
Lemma to_u8_value a : 0 <= a < 2 ^ 128 → ∃ l, to_u8 (word a <$> [0; 1; 2; 3]%nat) = Ok l ∧ be_val l = a.
Proof.
  intros Ha. cbn [fmap list_fmap]. rewrite to_u8_words. eexists. split; [reflexivity|].
  rewrite !be_val_app, !length_app, !length_be_bytes, !be_val_be_bytes. unfold word. change (256 ^ Z.of_nat 4) with (2 ^ 32).
  rewrite !Z.mod_mod by done. cbn [Z.of_nat Z.mul Nat.add]. change (Z.of_nat (4 + (4 + 4))) with 12. change (Z.of_nat (4 + 4)) with 8.
  change (32 * Z.of_nat 0) with 0. change (32 * Z.of_nat 1) with 32. change (32 * Z.of_nat 2) with 64. change (32 * Z.of_nat 3) with 96.
  rewrite Z.div_1_r, (Z.mod_small (a / 2 ^ 96)) by (split; [apply Z.div_pos; lia|apply Z.div_lt_upper_bound; lia]).
  pose proof (Z.div_mod a (2 ^ 32) ltac:(lia)). pose proof (Z.div_mod (a / 2 ^ 32) (2 ^ 32) ltac:(lia)) as H2. pose proof (Z.div_mod (a / 2 ^ 64) (2 ^ 32) ltac:(lia)) as H3.
  rewrite Z.div_div in H2, H3 by lia. change (2 ^ 32 * 2 ^ 32) with (2 ^ 64) in H2. change (2 ^ 64 * 2 ^ 32) with (2 ^ 96) in H3.
  change (256 ^ 12) with (2 ^ 32 * 2 ^ 64). change (256 ^ 8) with (2 ^ 64). lia.
Qed.

Record socket_ok (endpoint parent pid local remote lport rport proto : Z) : Prop := mkSocketOk {
  ok_endpoint : 0 <= endpoint < 2 ^ 64; ok_parent : 0 <= parent < 2 ^ 64; ok_pid : 0 <= pid < 2 ^ 32;
  ok_local : 0 <= local < 2 ^ 128; ok_remote : 0 <= remote < 2 ^ 128;
  ok_lport : 0 <= lport < 2 ^ 16; ok_rport : 0 <= rport < 2 ^ 16; ok_proto : 0 <= proto < 2 ^ 8
}.

Lemma as_socket_bytes endpoint parent pid local remote lport rport proto pad :
  socket_ok endpoint parent pid local remote lport rport proto →
  as_socket (socket_bytes endpoint parent pid local remote lport rport proto pad) =
  mkSocket endpoint parent pid (word local <$> [0; 1; 2; 3]%nat) (word remote <$> [0; 1; 2; 3]%nat) lport rport proto.
Proof.
  intros []. unfold as_socket, socket_bytes.
  set (p1 := le_bytes 8 endpoint). set (p2 := le_bytes 8 parent). set (p3 := le_bytes 4 pid). set (p4 := words_of local).
  set (p5 := words_of remote). set (p6 := le_bytes 2 lport). set (p7 := le_bytes 2 rport).
  assert (L1 : length p1 = 8%nat) by apply length_le_bytes. assert (L2 : length p2 = 8%nat) by apply length_le_bytes.
  assert (L3 : length p3 = 4%nat) by apply length_le_bytes. assert (L4 : length p4 = 16%nat) by apply length_le_bytes.
  assert (L5 : length p5 = 16%nat) by apply length_le_bytes. assert (L6 : length p6 = 2%nat) by apply length_le_bytes.
  assert (L7 : length p7 = 2%nat) by apply length_le_bytes.
  f_equal.
  - by apply (read_le_app []).
  - change (offset_of _ _) with 8%nat. rewrite <- L1. by apply read_le_app.
  - change (offset_of _ _) with 16%nat. replace 16%nat with (length (p1 ++ p2)) by (rewrite length_app; lia). rewrite app_assoc. by apply read_le_app.
  - change (offset_of _ _) with 20%nat. replace 20%nat with (length (p1 ++ p2 ++ p3)) by (rewrite !length_app; lia).
    rewrite (app_assoc p2), (app_assoc p1). apply read_words_app.
  - change (offset_of _ _) with 36%nat. replace 36%nat with (length (p1 ++ p2 ++ p3 ++ p4)) by (rewrite !length_app; lia).
    rewrite (app_assoc p3), (app_assoc p2), (app_assoc p1). apply read_words_app.
  - change (offset_of _ _) with 52%nat. replace 52%nat with (length (p1 ++ p2 ++ p3 ++ p4 ++ p5)) by (rewrite !length_app; lia).
    rewrite (app_assoc p4), (app_assoc p3), (app_assoc p2), (app_assoc p1). by apply read_le_app.
  - change (offset_of _ _) with 54%nat. replace 54%nat with (length (p1 ++ p2 ++ p3 ++ p4 ++ p5 ++ p6)) by (rewrite !length_app; lia).
    rewrite (app_assoc p5), (app_assoc p4), (app_assoc p3), (app_assoc p2), (app_assoc p1). by apply read_le_app.
  - change (offset_of _ _) with 56%nat. replace 56%nat with (length (p1 ++ p2 ++ p3 ++ p4 ++ p5 ++ p6 ++ p7)) by (rewrite !length_app; lia).
    rewrite (app_assoc p6), (app_assoc p5), (app_assoc p4), (app_assoc p3), (app_assoc p2), (app_assoc p1). by apply read_le_app.
Qed.

Definition sock_ip (v6 : bool) (a : Z) : IpAddr := if v6 then V6 a else V4 a.

(** A socket event of the driver is reported as it is: its kind, process, protocol,
    ports and both addresses, of either family. *)
Lemma socket_receive_sound c (e : Z) kind (v6 : bool) endpoint parent pid local remote lport rport proto pad :
  0 < r_retcode c → anon_1 (r_addr c) = socket_bytes endpoint parent pid local remote lport rport proto pad →
  socket_ok endpoint parent pid local remote lport rport proto → (v6 = false → local < 2 ^ 32 ∧ remote < 2 ^ 32) →
  IPv6 (r_addr c) = Ok (bool_u32 v6) → Event (r_addr c) = Ok e → event_type e = Ok kind →
  socket_receive c = Ok (mkEvt kind (mkAddr (sock_ip v6 local) lport) (mkAddr (sock_ip v6 remote) rport) pid (proto =? 6)).
Proof.
  intros Hr Hd Hok H4 Hv He Hk. unfold socket_receive, Handle_receive, check_c_error. rewrite (proj2 (Z.ltb_lt _ _)) by done.
  cbn [mbind res_bind mret res_ret]. rewrite Hd, as_socket_bytes by done. unfold parse_addr. rewrite Hv, He. cbn [no_err mbind res_bind]. rewrite Hk.
  pose proof (ok_local _ _ _ _ _ _ _ _ Hok). pose proof (ok_remote _ _ _ _ _ _ _ _ Hok). destruct v6; cbn [bool_u32 Z.eqb].
  - cbn [LocalAddr RemoteAddr]. destruct (to_u8_value local) as (l & -> & El); [done|]. destruct (to_u8_value remote) as (r & -> & Er); [done|].
    cbn. by rewrite El, Er.
  - destruct (H4 eq_refl) as [Hl' Hr']. cbn -[word]. unfold word. cbn -[Z.modulo Z.div Z.pow]. by rewrite !Z.div_1_r, !Z.mod_small by lia.
Qed.

(** ** The two threads (windows.rs) *)

(** [w_sent] are the packets the driver has taken, with the thread they came from;
    [w_seen] are those it has delivered, with their addresses. *)
Record win_vpn := mkWin {
  w_last : option WINDIVERT_ADDRESS;
  w_whitelist : gset IpAddr;
  w_pending : option (list byte);
  w_captured : list (list byte);
  w_sent : list (bool * (list byte * WINDIVERT_ADDRESS));
  w_dn_running : bool;
  w_seen : list (list byte * WINDIVERT_ADDRESS)
}.
Definition win_start : win_vpn := mkWin None ∅ None [] [] true [].

Inductive win_event :=
| WinWhitelist (a : IpAddr)              (* [vpn_whitelist] *)
| UpRecv (c : recv_call)                 (* [up_shuffle] up to its decision *)
| UpInject (c : send_call)               (* its [inject] of an excepted packet *)
| DnTurn (pkt : list byte) (c : send_call). (* a turn of [dn_shuffle] *)

Definition win_step (w : win_vpn) (ev : win_event) : option win_vpn :=
  match ev with
  | WinWhitelist a => Some (mkWin (w_last w) ({[a]} ∪ w_whitelist w) (w_pending w) (w_captured w) (w_sent w) (w_dn_running w) (w_seen w))
  | UpRecv c =>
      match w_pending w, packet_receive c (w_last w) with
      | None, (Ok raw_pkt, last) =>
          let seen := w_seen w ++ [(raw_pkt, r_addr c)] in
          Some match up_shuffle (λ a, bool_decide (a ∈ w_whitelist w)) raw_pkt with
               | Inject p => mkWin last (w_whitelist w) (Some p) (w_captured w) (w_sent w) (w_dn_running w) seen
               | Capture p => mkWin last (w_whitelist w) None (w_captured w ++ [p]) (w_sent w) (w_dn_running w) seen
               | Discard => mkWin last (w_whitelist w) None (w_captured w) (w_sent w) (w_dn_running w) seen
               end
      | None, (Err _, last) => Some w
      | _, _ => None
      end
  | UpInject c =>
      match w_pending w with
      | Some p =>
          match packet_inject p true c (w_last w) with
          | (Panic, _) => None
          | (_, out) => Some (mkWin (w_last w) (w_whitelist w) None (w_captured w) (w_sent w ++ option_list (pair true <$> out)) (w_dn_running w) (w_seen w))
          end
      | None => None
      end
  | DnTurn pkt c =>
      if w_dn_running w then
        match packet_inject pkt false c (w_last w) with
        | (Ok _, out) => Some (mkWin (w_last w) (w_whitelist w) (w_pending w) (w_captured w) (w_sent w ++ option_list (pair false <$> out)) true (w_seen w))
        | (Err _, _) => Some (mkWin (w_last w) (w_whitelist w) (w_pending w) (w_captured w) (w_sent w) false (w_seen w))
        | (Panic, _) => None
        end
      else None
  end.

Definition win_run (w : win_vpn) (evs : list win_event) : option win_vpn := foldl (λ w ev, w ≫= λ w, win_step w ev) (Some w) evs.

(** A call of the driver delivers a packet or fails. *)
Definition driver_ok (ev : win_event) : Prop :=
  match ev with UpRecv c => (∃ pkt, delivers c pkt) ∨ r_retcode c <= 0 | _ => True end.

(** An excepted packet goes out with the address it came with; one from the tunnel
    goes in with the address of some packet that was seen. *)
Definition sent_ok (seen : list (list byte * WINDIVERT_ADDRESS)) (x : bool * (list byte * WINDIVERT_ADDRESS)) : Prop :=
  ∃ pkt from, (pkt, from) ∈ seen ∧ injected x.1 from x.2.2 ∧ (x.1 = true → pkt = x.2.1).

Record win_inv (w : win_vpn) : Prop := mkWinInv {
  wi_last : match w_last w with Some a => address_wf a ∧ ∃ pkt, last (w_seen w) = Some (pkt, a) | None => True end;
  wi_pending : match w_pending w with Some p => (∃ a, w_last w = Some a ∧ last (w_seen w) = Some (p, a)) ∧ ∃ d, ipv4_destination p = Some d ∧ d ∈ w_whitelist w | None => True end;
  wi_sent : Forall (sent_ok (w_seen w)) (w_sent w);
  wi_dest : ∀ p a, (true, (p, a)) ∈ w_sent w → ∃ d, ipv4_destination p = Some d ∧ d ∈ w_whitelist w;
  wi_captured : ∀ p, p ∈ w_captured w → ∃ a, (p, a) ∈ w_seen w
}.

Lemma sent_ok_more seen x y : sent_ok seen x → sent_ok (seen ++ [y]) x.
Proof. intros (pkt & from & Hin & Ha). exists pkt, from. split; [|done]. apply elem_of_app. by left. Qed.
Lemma last_elem {A} (l : list A) x : last l = Some x → x ∈ l.
Proof. intros (l' & ->)%last_Some. apply elem_of_app. right. by apply list_elem_of_singleton. Qed.

(** What [inject] does once a packet has been seen. *)
Lemma packet_inject_spec p out c a : address_wf a →
  packet_inject p out c (Some a) = if 0 <? s_retcode c then (Ok (), Some (p, default a (match inject_addr a out with Ok b => Some b | _ => None end))) else (Err (s_error c), None).
Proof.
  intros Hw. unfold packet_inject, Handle_send, check_c_error. destruct (inject_addr_spec a out Hw) as (b & -> & _).
  by destruct (0 <? s_retcode c).
Qed.
Lemma inject_default a out : address_wf a → injected out a (default a (match inject_addr a out with Ok b => Some b | _ => None end)).
Proof. intros Hw. by destruct (inject_addr_spec a out Hw) as (b & -> & Hb). Qed.

Lemma up_shuffle_inv wl pkt p : up_shuffle wl pkt = Inject p → p = pkt ∧ ∃ d, ipv4_destination pkt = Some d ∧ wl d = true.
Proof. unfold up_shuffle. destruct (ipv4_destination pkt) as [d|]; [|done]. destruct (wl d) eqn:E; intros [= <-]. eauto. Qed.
Lemma up_shuffle_captures wl pkt p : up_shuffle wl pkt = Capture p → p = pkt.
Proof. unfold up_shuffle. destruct (ipv4_destination pkt) as [d|]; [|done]. by destruct (wl d); intros [= <-]. Qed.

(** What a delivered packet leaves true of what was sent before. *)
Lemma win_inv_seen w pkt a : win_inv w → address_wf a →
  Forall (sent_ok (w_seen w ++ [(pkt, a)])) (w_sent w) ∧ (∀ p, p ∈ w_captured w → ∃ b, (p, b) ∈ w_seen w ++ [(pkt, a)]) ∧
  last (w_seen w ++ [(pkt, a)]) = Some (pkt, a).
Proof.
  intros [I1 I2 I3 I4 I5] Ha. split_and!; [|intros p (b & Hb)%I5; exists b; apply elem_of_app; by left|by rewrite last_snoc].
  eapply Forall_impl; [exact I3|]. intros x. apply sent_ok_more.
Qed.

Lemma win_step_inv w ev w' : driver_ok ev → win_inv w → win_step w ev = Some w' → win_inv w'.
Proof.
  intros Hd Hi E. pose proof Hi as [I1 I2 I3 I4 I5]. destruct ev as [a|c|c|pkt c]; cbn [win_step] in E.
  - injection E as <-. split; cbn; try done.
    + destruct (w_pending w); [|done]. destruct I2 as (? & d & ? & ?). split; [done|]. exists d. set_solver.
    + intros p b (d & ? & ?)%I4. exists d. set_solver.
  - destruct (w_pending w) as [q|] eqn:Ep; [by destruct (packet_receive c (w_last w)) as [[]]|].
    destruct Hd as [[pkt Hdel]|Hfail].
    + rewrite (packet_receive_ok c pkt) in E by done. destruct Hdel as (_ & _ & _ & _ & Hwf). injection E as <-.
      destruct (win_inv_seen w pkt (r_addr c) Hi Hwf) as (S1 & S2 & S3).
      destruct (up_shuffle _ pkt) as [p|p|] eqn:Eu; split; cbn [w_last w_whitelist w_pending w_captured w_sent w_dn_running w_seen]; try done; try (split; [done|]; by exists pkt).
      * apply up_shuffle_inv in Eu as (-> & d & ? & ?%bool_decide_eq_true). split; [by exists (r_addr c)|by exists d].
      * apply up_shuffle_captures in Eu as ->. intros p [?%S2| ->%list_elem_of_singleton]%elem_of_app; [done|].
        exists (r_addr c). apply elem_of_app. right. by apply list_elem_of_singleton.
    + assert (Er : packet_receive c (w_last w) = (Err (r_error c), w_last w)).
      { unfold packet_receive, Handle_receive, check_c_error. by rewrite (proj2 (Z.ltb_ge _ _)). }
      rewrite Er in E. by injection E as <-.
  - destruct (w_pending w) as [p|] eqn:Ep; [|done]. destruct I2 as ((a & El & Es) & Hdest). rewrite El in I1. destruct I1 as [Hwf _].
    rewrite El, packet_inject_spec in E by done. destruct (0 <? s_retcode c); injection E as <-; split; cbn; rewrite ?El, ?app_nil_r; try done.
    + split; [done|]. by exists p.
    + apply Forall_app. split; [done|]. apply Forall_singleton. exists p, a. split_and!; [by apply last_elem|by apply inject_default|done].
    + intros q b [?%I4| [= -> ->]%list_elem_of_singleton]%elem_of_app; done.
    + split; [done|]. by exists p.
  - destruct (w_dn_running w); [|done]. destruct (w_last w) as [a|] eqn:El.
    + destruct I1 as [Hwf [q Hq]]. rewrite packet_inject_spec in E by done.
      destruct (0 <? s_retcode c); injection E as <-; split; cbn; rewrite ?El, ?app_nil_r; try done; try (split; [done|]; by exists q).
      * apply Forall_app. split; [done|]. apply Forall_singleton. exists q, a. split_and!; [by apply last_elem|by apply inject_default|done].
      * intros p b [?%I4|?%list_elem_of_singleton]%elem_of_app; done.
    + cbn in E. injection E as <-. split; cbn; rewrite ?El, ?app_nil_r; done.
Qed.

Lemma win_run_inv evs : ∀ w w', Forall driver_ok evs → win_inv w → win_run w evs = Some w' → win_inv w'.
Proof.
  induction evs as [|ev evs IH] using rev_ind; intros w w' Hd Hi E; [by injection E as <-|].
  apply Forall_app in Hd as [Hd Hev]. rewrite Forall_singleton in Hev. unfold win_run in E. rewrite foldl_snoc in E.
  apply bind_Some in E as (v & E & Es). eapply win_step_inv; [exact Hev| |exact Es]. by eapply IH.
Qed.
Lemma win_start_inv : win_inv win_start.
Proof. split; cbn; try done; [intros p a|intros p]; by rewrite elem_of_nil. Qed.

(** Where a packet goes by the header of its version. *)
Definition ip_version (p : list byte) : Z := match p with b :: _ => Z.shiftr (byte_to_Z b) 4 | [] => 0 end.
Definition destination (p : list byte) : option IpAddr :=
  if decide (ip_version p = 4 ∧ (20 <= length p)%nat) then Some (V4 (be_val (take 4 (drop 16 p))))
  else if decide (ip_version p = 6 ∧ (40 <= length p)%nat) then Some (V6 (be_val (take 16 (drop 24 p)))) else None.

(** What is looked at is the destination of packets of IPv4, and of others some bytes in
    the middle. *)
Definition passes_tunnel (whitelist : gset IpAddr) (p : list byte) : Prop :=
  if decide (ip_version p = 4) then ∃ d, destination p = Some d ∧ d ∈ whitelist
  else V4 (be_val (take 4 (drop 16 p))) ∈ whitelist.
Lemma passes_tunnel_of wl p d : ipv4_destination p = Some d → d ∈ wl → passes_tunnel wl p.
Proof.
  unfold ipv4_destination, passes_tunnel, destination. destruct (decide (20 <= length p)%nat); [|done]. intros [= <-] Hd.
  destruct (decide (ip_version p = 4)) as [E|]; [|done]. rewrite decide_True by done. eauto.
Qed.

(** C39: Windows, whatever the two threads and the driver do, in any order.  A packet
    that goes past the tunnel is one the driver delivered; if it is of IPv4 it goes to an
    excepted address, and if it is not, four bytes of it read as one (of an IPv6 packet,
    bytes of its source); it goes out marked outbound and as injected, on the interface
    it was to leave by.  A packet from the tunnel goes in marked inbound, on the interface
    of a packet that was seen; in both, nothing but the direction, the mark and the three
    checksum flags of the address has changed.  Captured packets are delivered ones, and
    no injection panics. *)
Theorem windows_injections evs w :
  Forall driver_ok evs → win_run win_start evs = Some w →
  (∀ p a, (true, (p, a)) ∈ w_sent w → passes_tunnel (w_whitelist w) p ∧ ∃ from, (p, from) ∈ w_seen w ∧ injected true from a) ∧
  (∀ p a, (false, (p, a)) ∈ w_sent w → ∃ q from, (q, from) ∈ w_seen w ∧ injected false from a) ∧
  (∀ p, p ∈ w_captured w → ∃ from, (p, from) ∈ w_seen w) ∧
  (∀ c p, w_pending w = Some p → is_Some (win_step w (UpInject c))) ∧
  (∀ c p, w_dn_running w = true → is_Some (win_step w (DnTurn p c))).
Proof.
  intros Hd E. pose proof (win_run_inv evs _ _ Hd win_start_inv E) as [I1 I2 I3 I4 I5]. rewrite Forall_forall in I3. split_and!.
  - intros p a Hin. destruct (I4 p a Hin) as (d & ? & ?). destruct (I3 _ Hin) as (q & from & ? & ? & Eq). cbn in *. rewrite Eq in * by done.
    split; [by eapply passes_tunnel_of|]. by exists from.
  - intros p a Hin. destruct (I3 _ Hin) as (q & from & ? & ? & _). by exists q, from.
  - exact I5.
  - intros c p Hp. cbn [win_step]. rewrite Hp in *. destruct I2 as ((a & El & _) & _). rewrite El in I1 |- *. destruct I1 as [Hwf _].
    rewrite packet_inject_spec by done. by destruct (0 <? s_retcode c).
  - intros c p Hr. cbn [win_step]. rewrite Hr. destruct (w_last w) as [a|]; [|done]. destruct I1 as [Hwf _].
    rewrite packet_inject_spec by done. by destruct (0 <? s_retcode c).
Qed.

(** ** Runs *)
Module WinDemo.
(** Packets of twenty bytes to 1.2.3.4 and to 9.9.9.9. *)
Definition pkt (d : list Z) : list byte := replicate 16 x45 ++ (byte_of_Z <$> d).
Definition from (iface : Z) : WINDIVERT_ADDRESS :=
  mkAddress 77 (byte_of_Z <$> [0; 0; 226; 0]) 0 (le_bytes 4 iface ++ replicate 60 x00).
Definition recv (iface : Z) (p : list byte) : recv_call := mkRecv 1 p (Z.of_nat (length p)) (from iface) 0.
Definition fail : recv_call := mkRecv 0 [] 0 (from 0) 122.
Definition ok : send_call := mkSend 1 0.
Definition bad : send_call := mkSend 0 87.
Definition exit_addr : IpAddr := V4 16909060.

Definition evs : list win_event :=
  [WinWhitelist exit_addr; DnTurn (pkt [5;5;5;5]) ok; UpRecv (recv 7 (pkt [1;2;3;4])); DnTurn (pkt [6;6;6;6]) ok; UpInject ok;
   UpRecv fail; UpRecv (recv 8 (pkt [9;9;9;9])); DnTurn (pkt [7;7;7;7]) ok].

(** The first packet from the tunnel comes too early and is dropped; the excepted one
    leaves by interface 7; the last one comes in by interface 8. *)
Example evs_run : (λ w, (w_captured w, (λ x, (x.1, x.2.1, take 1 (anon_1 x.2.2), bitfield_1 x.2.2)) <$> w_sent w)) <$> win_run win_start evs =
  Some ([pkt [9;9;9;9]],
        [(false, pkt [6;6;6;6], [x07], byte_of_Z <$> [0; 0; 8; 0]); (true, pkt [1;2;3;4], [x07], byte_of_Z <$> [0; 0; 10; 0]);
         (false, pkt [7;7;7;7], [x08], byte_of_Z <$> [0; 0; 8; 0])]).
Proof. vm_compute. reflexivity. Qed.

(** One injection that the driver refuses ends the thread that injects, for good, and
    nothing tells the client. *)
Example refused_injection_ends_downlink :
  (λ w, (w_dn_running w, win_step w (DnTurn (pkt [7;7;7;7]) ok))) <$>
    win_run win_start [UpRecv (recv 8 (pkt [9;9;9;9])); DnTurn (pkt [6;6;6;6]) bad] = Some (false, None).
Proof. vm_compute. reflexivity. Qed.

(** A packet of IPv6 is taken for one of IPv4: four bytes of its source address are
    looked up as the destination, and if they make an excepted address it leaves past the
    tunnel. *)
Definition pkt6 : list byte := byte_of_Z <$> [96;0;0;0; 0;8;58;64; 32;1;13;184; 0;0;0;0; 1;2;3;4; 0;0;0;1] ++ replicate 24 0.
Example ipv6_taken_for_ipv4 :
  ipv4_destination pkt6 = Some exit_addr ∧ destination pkt6 = Some (V6 0) ∧
  (λ w, (λ x, (x.1, x.2.1)) <$> w_sent w) <$> win_run win_start [WinWhitelist exit_addr; UpRecv (recv 7 pkt6); UpInject ok] = Some [(true, pkt6)].
Proof. split_and!; vm_compute; reflexivity. Qed.
End WinDemo.

Lemma windows_injections_witness : ∃ w, win_run win_start WinDemo.evs = Some w ∧
  (∀ p a, (true, (p, a)) ∈ w_sent w → passes_tunnel (w_whitelist w) p ∧ ∃ from, (p, from) ∈ w_seen w ∧ injected true from a).
Proof.
  destruct (win_run win_start WinDemo.evs) as [w|] eqn:E; [|vm_compute in E; discriminate E].
  exists w. split; [reflexivity|]. refine (proj1 (windows_injections WinDemo.evs w _ E)).
  assert (Hdel : ∀ i d, length d = 4%nat → delivers (WinDemo.recv i (WinDemo.pkt d)) (WinDemo.pkt d)).
  { intros i d Hl. split_and!; [done..| |split; [done|]]; unfold WinDemo.recv, WinDemo.from, WinDemo.pkt; cbn [r_addr anon_1];
      rewrite ?length_app, ?length_le_bytes, ?length_fmap, ?length_replicate, ?Hl; lia. }
  unfold WinDemo.evs. repeat apply Forall_cons_2; try exact I; try apply Forall_nil_2; try (left; eexists; by apply Hdel). right. cbn. lia.
Defined.
