(* ===== verification/Logs.v ===== *)
(** * Logs
    (libraries/arc-writer/src/lib.rs, binaries/geph5-client/src/logging.rs,
    control_prot.rs, binaries/geph5-client-gui/src/logs.rs, tabs/logs.rs)

    A log is a vector of bytes behind a mutex that every clone of its writer shares.
    The control protocol hands it out as lines, after the lossy decoding of the
    standard library; the window for logs joins those of the client and of the
    program itself and shows the last thousand. *)
From Stdlib Require Import ZArith Lia.
From S2P Require Import Prelude.

Local Open Scope Z_scope.

(** ** [String::from_utf8_lossy] *)

Definition cont (b : byte) : bool := let z := byte_to_Z b in (128 <=? z) && (z <? 192).
Definition between (lo hi : Z) (b : byte) : bool := let z := byte_to_Z b in (lo <=? z) && (z <=? hi).

(** The second bytes that may follow a first one of three or four. *)
Definition second3 (f : Z) (b : byte) : bool :=
  if f =? 224 then between 160 191 b else if f =? 237 then between 128 159 b else between 128 191 b.
Definition second4 (f : Z) (b : byte) : bool :=
  if f =? 240 then between 144 191 b else if f =? 244 then between 128 143 b else between 128 191 b.

(** What stands at the front: a character of so many bytes, or so many bytes that
    begin none. *)
Inductive chunk := Valid (n : nat) | Invalid (n : nat).
Definition next_chunk (f : byte) (rest : list byte) : chunk :=
  let z := byte_to_Z f in
  if z <? 128 then Valid 1
  else if (194 <=? z) && (z <=? 223) then
    match rest with b :: _ => if cont b then Valid 2 else Invalid 1 | [] => Invalid 1 end
  else if (224 <=? z) && (z <=? 239) then
    match rest with
    | b :: rest => if second3 z b then match rest with c :: _ => if cont c then Valid 3 else Invalid 2 | [] => Invalid 2 end else Invalid 1
    | [] => Invalid 1
    end
  else if (240 <=? z) && (z <=? 244) then
    match rest with
    | b :: rest =>
        if second4 z b then
          match rest with
          | c :: rest => if cont c then match rest with d :: _ => if cont d then Valid 4 else Invalid 3 | [] => Invalid 3 end else Invalid 2
          | [] => Invalid 2
          end
        else Invalid 1
    | [] => Invalid 1
    end
  else Invalid 1.

(** U+FFFD *)
Definition replacement : list byte := [xef; xbf; xbd].

(** Every chunk takes a byte, so the length of the input is fuel enough. *)
Fixpoint lossy (fuel : nat) (s : list byte) : list byte :=
  match fuel, s with
  | S fuel, f :: rest =>
      match next_chunk f rest with
      | Valid n => take n s ++ lossy fuel (drop n s)
      | Invalid n => replacement ++ lossy fuel (drop n s)
      end
  | _, _ => []
  end.
Definition from_utf8_lossy (s : list byte) : list byte := lossy (length s) s.

Fixpoint valid (fuel : nat) (s : list byte) : bool :=
  match fuel, s with
  | S fuel, f :: rest => match next_chunk f rest with Valid n => valid fuel (drop n s) | Invalid _ => false end
  | _, [] => true
  | O, _ => false
  end.
Definition utf8 (s : list byte) : bool := valid (length s) s.

Definition chunk_len (c : chunk) : nat := match c with Valid n | Invalid n => n end.
Lemma next_chunk_len f rest : (1 <= chunk_len (next_chunk f rest) <= S (length rest))%nat.
Proof. unfold next_chunk. repeat case_match; cbn; lia. Qed.

Lemma lossy_fuel n : ∀ m s, (length s <= n)%nat → (length s <= m)%nat → lossy n s = lossy m s.
Proof.
  induction n as [|n IH]; intros [|m] [|f rest] Hn Hm; try done; cbn in Hn, Hm; try lia. cbn [lossy].
  pose proof (next_chunk_len f rest) as Hc. destruct (next_chunk f rest) as [k|k]; cbn in Hc; f_equal; apply IH; rewrite length_drop; cbn; lia.
Qed.

Lemma lossy_cons f rest : from_utf8_lossy (f :: rest) =
  (match next_chunk f rest with Valid n => take n (f :: rest) | Invalid _ => replacement end) ++
  from_utf8_lossy (drop (chunk_len (next_chunk f rest)) (f :: rest)).
Proof.
  unfold from_utf8_lossy at 1. cbn [lossy length]. pose proof (next_chunk_len f rest) as Hc.
  destruct (next_chunk f rest) as [k|k]; cbn [chunk_len] in *; f_equal; apply lossy_fuel; rewrite length_drop; cbn; lia.
Qed.

(** A line feed is no part of a longer character, so lines are decoded one by one,
    whatever is in them. *)
Lemma next_chunk_line f rest s : next_chunk f (rest ++ x0a :: s) = next_chunk f rest.
Proof.
  unfold next_chunk. set (z := byte_to_Z f). destruct rest as [|b [|c [|d rest]]]; cbn [app].
  - repeat (case_match; [done|]); try done. all: repeat case_match; try done; simplify_eq/=.
    all: unfold second3, second4 in *; repeat case_match; done.
  - repeat case_match; done.
  - repeat case_match; done.
  - done.
Qed.
Lemma lossy_line l s : from_utf8_lossy (l ++ x0a :: s) = from_utf8_lossy l ++ x0a :: from_utf8_lossy s.
Proof.
  remember (length l) as n eqn:Hn. assert (Hl : (length l <= n)%nat) by lia. clear Hn. revert l Hl.
  induction n as [|n IH]; intros [|f rest] Hl; cbn in Hl; try lia; try (cbn [app]; by rewrite lossy_cons).
  cbn [app]. rewrite lossy_cons, (lossy_cons f rest), next_chunk_line. pose proof (next_chunk_len f rest) as Hc.
  assert (Ht : ∀ k, (k <= S (length rest))%nat → take k (f :: rest ++ x0a :: s) = take k (f :: rest)).
  { intros k Hk. change (f :: rest ++ x0a :: s) with ((f :: rest) ++ x0a :: s). apply take_app_le. done. }
  assert (Hd : ∀ k, (k <= S (length rest))%nat → drop k (f :: rest ++ x0a :: s) = drop k (f :: rest) ++ x0a :: s).
  { intros k Hk. change (f :: rest ++ x0a :: s) with ((f :: rest) ++ x0a :: s). apply drop_app_le. done. }
  rewrite Hd, IH, <- app_assoc by (rewrite ?length_drop; cbn; lia). f_equal.
  destruct (next_chunk f rest); cbn [chunk_len] in Hc; [by rewrite Ht by lia|done].
Qed.

(** Text that is UTF-8 stays as it is. *)
Lemma valid_lossy n : ∀ s, valid n s = true → lossy n s = s.
Proof.
  induction n as [|n IH]; intros [|f rest] Hv; try done. cbn [valid lossy] in *.
  destruct (next_chunk f rest) as [k|k]; [|done]. by rewrite IH, take_drop.
Qed.
Lemma utf8_lossy s : utf8 s = true → from_utf8_lossy s = s.
Proof. apply valid_lossy. Qed.
Lemma lossy_no_newline s : x0a ∉ s → x0a ∉ from_utf8_lossy s.
Proof.
  remember (length s) as n eqn:Hn. assert (Hl : (length s <= n)%nat) by lia. clear Hn. revert s Hl.
  induction n as [|n IH]; intros [|f rest] Hl Hs; cbn in Hl; try lia; try done. rewrite lossy_cons. pose proof (next_chunk_len f rest).
  apply not_elem_of_app. split.
  - destruct (next_chunk f rest) as [k|k]; [|by apply (bool_decide_unpack _)].
    intros Hin. apply Hs. apply elem_of_take in Hin as (i & Hi & _). by eapply list_elem_of_lookup_2.
  - apply IH; [rewrite length_drop; cbn; lia|]. intros Hin. apply Hs. rewrite <- (take_drop (chunk_len (next_chunk f rest)) (f :: rest)). apply elem_of_app. by right.
Qed.

(** ** Lines *)

(** [str::split] at line feeds. *)
Fixpoint split_nl (s : list byte) : list (list byte) :=
  match s with
  | [] => [[]]
  | b :: s =>
      if decide (b = x0a) then [] :: split_nl s
      else match split_nl s with l :: ls => (b :: l) :: ls | [] => [[b]] end
  end.

Lemma split_nl_line l s : x0a ∉ l → split_nl (l ++ x0a :: s) = l :: split_nl s.
Proof.
  induction l as [|b l IH]; intros Hl; cbn [app split_nl]; [done|]. apply not_elem_of_cons in Hl as [Hb Hl].
  rewrite decide_False by done. by rewrite IH.
Qed.
Definition unlines (ls : list (list byte)) : list byte := concat ((λ l, l ++ [x0a]) <$> ls).
Lemma unlines_cons l ls : unlines (l :: ls) = l ++ x0a :: unlines ls.
Proof. unfold unlines. cbn. by rewrite <- app_assoc. Qed.
Lemma split_unlines ls : Forall (λ l, x0a ∉ l) ls → split_nl (unlines ls) = ls ++ [[]].
Proof. induction 1 as [|l ls Hl _ IH]; [done|]. by rewrite unlines_cons, split_nl_line, IH. Qed.

(** [str::lines]: a last line that is empty does not count, a carriage return before
    a line feed is dropped with it. *)
Definition strip_cr (l : list byte) : list byte := match last l with Some x0d => take (length l - 1) l | _ => l end.
Fixpoint trim_lines (ls : list (list byte)) : list (list byte) :=
  match ls with [] => [] | [l] => if decide (l = []) then [] else [l] | l :: ls => strip_cr l :: trim_lines ls end.
Definition str_lines (s : list byte) : list (list byte) := trim_lines (split_nl s).

Fixpoint join (ls : list (list byte)) : list byte :=
  match ls with [] => [] | [l] => l | l :: ls => l ++ x0a :: join ls end.
Lemma split_join ls : ls ≠ [] → Forall (λ l, x0a ∉ l) ls → split_nl (join ls) = ls.
Proof.
  intros Hne Hf. induction Hf as [|l ls Hl Hf IH]; [done|]. destruct ls as [|l' ls].
  - cbn [join]. clear -Hl. induction l as [|b l IH]; [done|]. apply not_elem_of_cons in Hl as [Hb Hl]. cbn [split_nl].
    rewrite decide_False by done. by rewrite IH.
  - cbn [join] in *. rewrite split_nl_line by done. by rewrite IH.
Qed.
Lemma trim_lines_end ls : Forall (λ l, last l ≠ Some x0d) ls → trim_lines (ls ++ [[]]) = ls.
Proof.
  induction 1 as [|l ls Hl _ IH]; [done|]. cbn [app trim_lines]. destruct (ls ++ [[]]) as [|l' ls'] eqn:E; [by destruct ls|].
  rewrite IH. f_equal. unfold strip_cr. destruct (last l) as [[]|]; done.
Qed.

(** ** The shared writer (arc-writer) *)

(** The vectors behind mutexes; a writer is the place of one. *)
Abbreviation log_store := (gmap nat (list byte)).
Definition arc_new (w : list byte) (h : log_store) : log_store * nat := let l := fresh (dom h) in (<[l := w]> h, l).
Definition arc_clone (w : nat) : nat := w.
Definition arc_lock (w : nat) (h : log_store) : list byte := default [] (h !! w).
(** [Write::write], by value or by reference: a vector takes everything. *)
Definition arc_write (w : nat) (buf : list byte) (h : log_store) : log_store * nat := (<[w := arc_lock w h ++ buf]> h, length buf).
Definition arc_flush (w : nat) (h : log_store) : log_store := h.

(** Several threads log, each through its clone: an entry is one write of a line. *)
Definition log_events (ws : list (nat * list byte)) (h : log_store) : log_store :=
  foldl (λ h e, (arc_write (arc_clone e.1) (e.2 ++ [x0a]) h).1) h ws.

(** A log holds the lines written to it by any clone, in their order, and no others. *)
Lemma log_events_lines w ws : ∀ h, arc_lock w (log_events ws h) = arc_lock w h ++ unlines (snd <$> filter (λ e, e.1 = w) ws).
Proof.
  induction ws as [|[v l] ws IH]; intros h; [by rewrite app_nil_r|]. change (log_events ((v, l) :: ws) h) with (log_events ws (arc_write v (l ++ [x0a]) h).1).
  rewrite IH. unfold arc_lock at 1. unfold arc_write. cbn [fst snd]. destruct (decide (v = w)) as [->|Hne].
  - rewrite lookup_insert_eq, filter_cons_True by done. cbn [default fmap list_fmap snd from_option id]. rewrite unlines_cons, <- !app_assoc. done.
  - rewrite lookup_insert_ne, filter_cons_False by done. done.
Qed.

(** ** The log of the client (logging.rs, control_prot.rs) *)

Definition get_json_logs (JSON_LOGS : nat) (h : log_store) : list byte := from_utf8_lossy (arc_lock JSON_LOGS h).
Definition recent_logs (JSON_LOGS : nat) (h : log_store) : list (list byte) := split_nl (get_json_logs JSON_LOGS h).

Lemma lossy_unlines ls : from_utf8_lossy (unlines ls) = unlines (from_utf8_lossy <$> ls).
Proof. induction ls as [|l ls IH]; [done|]. cbn [fmap list_fmap]. by rewrite !unlines_cons, lossy_line, IH. Qed.
Lemma recent_logs_lines w h ls : arc_lock w h = unlines ls → Forall (λ l, x0a ∉ l) ls →
  recent_logs w h = (from_utf8_lossy <$> ls) ++ [[]].
Proof.
  intros E Hl. unfold recent_logs, get_json_logs. rewrite E, lossy_unlines. apply split_unlines.
  apply Forall_fmap. eapply Forall_impl; [exact Hl|]. intros l. apply lossy_no_newline.
Qed.

(** ** The window (tabs/logs.rs) *)

Definition last_lines (n : nat) (ls : list (list byte)) : list (list byte) := reverse (take n (reverse ls)).
Lemma last_lines_drop n ls : last_lines n ls = drop (length ls - n) ls.
Proof. unfold last_lines. rewrite take_reverse, reverse_involutive. done. Qed.

(** [Logs::render] with an answer of the client: the text that is exported, and the
    text on screen.  [strip_str] removes the colours of terminals. *)
Definition render_logs (strip_str : list byte → list byte) (remote_logs : list (list byte)) (raw_logs : list byte) : list byte * list byte :=
  let logs := strip_str (join (remote_logs ++ split_nl (from_utf8_lossy raw_logs))) in
  (logs, join (last_lines 1000 (str_lines logs))).

(** The lines of one log, and those the window has. *)
Definition lines_of (ws : list (nat * list byte)) (w : nat) : list (list byte) := from_utf8_lossy <$> (snd <$> filter (λ e, e.1 = w) ws).
Definition window_lines (ws : list (nat * list byte)) (client gui : nat) : list (list byte) := lines_of ws client ++ [[]] ++ lines_of ws gui.

(** What many threads log through clones of a writer is what the user sees: the
    client answers with all its lines in the order of the writes, and one empty line;
    the window exports those and the lines of the program, and shows the last
    thousand of them. *)
Theorem logs_reach_window strip client gui ws h :
  client ≠ gui → h !! client = Some [] → h !! gui = Some [] →
  Forall (λ e, x0a ∉ e.2) ws →
  Forall (λ l, last l ≠ Some x0d) (window_lines ws client gui) → (∀ s, strip s = s) →
  recent_logs client (log_events ws h) = lines_of ws client ++ [[]] ∧
  render_logs strip (recent_logs client (log_events ws h)) (arc_lock gui (log_events ws h)) =
    (unlines (window_lines ws client gui), join (drop (length (window_lines ws client gui) - 1000) (window_lines ws client gui))).
Proof.
  intros Hcg Hc Hg Hws Hcr Hstrip. set (h' := log_events ws h). set (all := window_lines ws client gui).
  assert (Hl : ∀ w, Forall (λ l, x0a ∉ l) (snd <$> filter (λ e, e.1 = w) ws)).
  { intros w. apply Forall_fmap, Forall_forall. intros e [_ Hin]%list_elem_of_filter. rewrite Forall_forall in Hws. by apply Hws. }
  assert (Hll : ∀ w, Forall (λ l, x0a ∉ l) (lines_of ws w)).
  { intros w. apply Forall_fmap. eapply Forall_impl; [apply Hl|]. intros l. apply lossy_no_newline. }
  assert (Ec : arc_lock client h' = unlines (snd <$> filter (λ e, e.1 = client) ws)) by (subst h'; rewrite log_events_lines; unfold arc_lock; by rewrite Hc).
  assert (Eg : arc_lock gui h' = unlines (snd <$> filter (λ e, e.1 = gui) ws)) by (subst h'; rewrite log_events_lines; unfold arc_lock; by rewrite Hg).
  assert (Er : recent_logs client h' = lines_of ws client ++ [[]]) by (by apply recent_logs_lines).
  split; [exact Er|]. unfold render_logs. rewrite Er, Eg, Hstrip, lossy_unlines. fold (lines_of ws gui). rewrite split_unlines by apply Hll.
  replace ((lines_of ws client ++ [[]]) ++ lines_of ws gui ++ [[]]) with (all ++ [[]]) by (subst all; unfold window_lines; by rewrite <- !app_assoc).
  assert (Hall : Forall (λ l, x0a ∉ l) (all ++ [[]])).
  { subst all. unfold window_lines. rewrite !Forall_app, !Forall_singleton. split_and!; [apply Hll|set_solver|apply Hll|set_solver]. }
  assert (Ej : join (all ++ [[]]) = unlines all).
  { clear. induction all as [|l ls IH]; [done|]. cbn [app]. rewrite unlines_cons, <- IH. cbn [join]. by destruct (ls ++ [[]]) eqn:E; [destruct ls|]. }
  unfold str_lines. rewrite split_join by (done || by destruct all). rewrite trim_lines_end by done. by rewrite last_lines_drop, Ej.
Qed.

Module LogDemo.
Definition ws : list (nat * list byte) := [(0%nat, [x61]); (1%nat, [x67]); (0%nat, [x62; xff; x63])].
Definition h : log_store := <[0%nat := []]> (<[1%nat := []]> ∅).
End LogDemo.

Lemma logs_reach_window_witness :
  recent_logs 0 (log_events LogDemo.ws LogDemo.h) = [[x61]; [x62; xef; xbf; xbd; x63]; []] ∧
  render_logs id (recent_logs 0 (log_events LogDemo.ws LogDemo.h)) (arc_lock 1 (log_events LogDemo.ws LogDemo.h)) =
    ([x61; x0a; x62; xef; xbf; xbd; x63; x0a; x0a; x67; x0a], [x61; x0a; x62; xef; xbf; xbd; x63; x0a; x0a; x67]).
Proof.
  destruct (logs_reach_window id 0 1 LogDemo.ws LogDemo.h) as [E1 E2]; [lia|reflexivity|reflexivity| | |done|split; [exact E1|exact E2]].
  - repeat apply Forall_cons_2; try apply Forall_nil_2; apply (bool_decide_unpack _); vm_compute; exact I.
  - vm_compute. repeat apply Forall_cons_2; try apply Forall_nil_2; discriminate.
Defined.

(** The first bytes of a character that is cut off become one mark. *)
Example lossy_truncated : from_utf8_lossy [x61; xe2; x82; x62; xe2; x82; xac] = [x61; xef; xbf; xbd; x62; xe2; x82; xac].
Proof. vm_compute. reflexivity. Qed.
