(* ===== verification/HttpTransports.v ===== *)
(** * RPC over HTTP
    (binaries/geph5-client/src/broker/{fronted_http,aws_lambda}.rs,
    binaries/geph5-exit/src/broker.rs, binaries/geph5-broker/src/{main,payments,rpc_impl}.rs)

    Clients, exits and the broker itself post JSON to each other.  Here are the
    transports that build the requests and read the answers, the route of the broker
    that answers them, and what a caller may conclude from an answer.  What lies between
    (the network, a front, a function of AWS) is an argument: a function from the state
    of the other side and the request to its state afterwards and the reply. *)
From Stdlib Require Import ZArith Lia.
From S2P Require Import Prelude.

Local Open Scope Z_scope.
Local Open Scope string_scope.

Inductive http_method := POST | GET.
#[export] Instance http_method_eq_dec : EqDecision http_method.
Proof. solve_decision. Defined.

Record http_request := mkRequest { h_method : http_method; h_url : string; h_headers : list (string * string); h_body : list byte }.
Record http_response := mkResponse { h_status : Z; h_content : list byte }.

(** What a client of reqwest gets: an answer, one whose body breaks off, or an error. *)
Inductive reply := Answered (r : http_response) | BodyBroken | SendFailed.

(** ** The transports *)

(** Names of headers are compared without case by every party; the sources write these. *)
Definition content_type : string * string := ("content-type", "application/json").

(** [FrontedHttpTransport::call_raw], up to the request. *)
Definition fronted_request (url : string) (host : option string) (body : list byte) : http_request :=
  let headers := content_type :: match host with Some host => [("Host", host)] | None => [] end in
  mkRequest POST url headers body.

(** [BrokerRpcTransport::call_raw] of an exit, [PaymentTransport::call_raw] of the broker. *)
Definition exit_request (url : string) (body : list byte) : http_request := mkRequest POST url [content_type] body.
Definition payment_request (payment_url : string) (body : list byte) : http_request := mkRequest POST payment_url [content_type] body.

Section transports.
Context {Req Resp S : Type}.
(** serde_json for requests and responses. *)
Context (show_req : Req → list byte) (read_req : list byte → option Req).
Context (show_resp : Resp → list byte) (read_resp : list byte → option Resp).
(** [BrokerService::respond_raw] *)
Context (respond_raw : S → Req → S * Resp).

(** How the answer is read; none of the transports looks at the status. *)
Definition read_reply (r : reply) : res string Resp :=
  match r with
  | SendFailed => Err "cannot send request to front"
  | BodyBroken => Err "error reading the body"
  | Answered r => ok_or (read_resp (h_content r)) "invalid json"
  end.

(** A network takes a request to whoever answers it and gives the reply. *)
Abbreviation network := (S → http_request → S * reply).
Definition fronted_call (net : network) (url : string) (host : option string) (s : S) (req : Req) : S * res string Resp :=
  let '(s, r) := net s (fronted_request url host (show_req req)) in (s, read_reply r).
Definition exit_call (net : network) (url : string) (s : S) (req : Req) : S * res string Resp :=
  let '(s, r) := net s (exit_request url (show_req req)) in (s, read_reply r).
Definition payment_call (net : network) (url : string) (s : S) (req : Req) : S * res string Resp :=
  let '(s, r) := net s (payment_request url (show_req req)) in (s, read_reply r).

(** What invoking a function gives. *)
Inductive invoked := InvokeFailed | NoPayload | Payload (blob : list byte).
(** [AwsLambdaTransport::call_raw]; [read_lambda] reads the status and the body out of the payload. *)
Definition lambda_call (read_lambda : list byte → option (Z * list byte)) (invoke : S → list byte → S * invoked)
    (s : S) (req : Req) : S * res string Resp :=
  let '(s, r) := invoke s (show_req req) in
  (s, match r with
      | InvokeFailed => Err "lambda function failed"
      | NoPayload => Err "empty response from the server"
      | Payload blob =>
          resp ← ok_or (read_lambda blob) "invalid json";
          if (resp.1 =? 200)%Z then ok_or (read_resp resp.2) "invalid json" else Err "error code"
      end).

(** ** The broker's side (main.rs, rpc_impl.rs) *)

(** [WrappedBrokerService::respond]: a method that exists is reported to the endpoint
    for statistics, if there is one; the answer does not depend on that. *)
Definition wrapped_respond {Params Val} (respond : string → Params → option Val) (influxdb : bool) (method : string) (params : Params)
    : option Val * list string :=
  match respond method params with
  | Some resp => (Some resp, if influxdb then [method] else [])
  | None => (None, [])
  end.

(** The route of [main] with the extractor of its handler [rpc]: one path, posts of
    JSON only.  A body that cannot be read gives 422, or 400 for one that is no JSON at
    all, which no caller tells apart; texts of errors are the server's. *)
Definition broker_http (path : http_request → string) (error_text : Z → list byte) (s : S) (r : http_request) : S * http_response :=
  let error code := (s, mkResponse code (error_text code)) in
  if negb (String.eqb (path r) "/") then error 404
  else if bool_decide (h_method r ≠ POST) then error 405
  else if negb (bool_decide (content_type ∈ h_headers r)) then error 415
  else match read_req (h_body r) with
       | None => error 422
       | Some payload => let '(s, resp) := respond_raw s payload in (s, mkResponse 200 (show_resp resp))
       end.

(** ** Calls *)

Context (path : http_request → string) (error_text : Z → list byte).
Context (read_lambda : list byte → option (Z * list byte)).

(** serde_json reads what it wrote. *)
Record codecs_ok : Prop := mkCodecs {
  co_req : ∀ r, read_req (show_req r) = Some r;
  co_resp : ∀ r, read_resp (show_resp r) = Some r
}.

Definition broker := broker_http path error_text.

(** Every request that the transports build is one the route takes. *)
Lemma broker_takes url host req s : codecs_ok → path (fronted_request url host (show_req req)) = "/" →
  broker s (fronted_request url host (show_req req)) = let '(s', resp) := respond_raw s req in (s', mkResponse 200 (show_resp resp)).
Proof.
  intros [H1 _] Hp. unfold broker, broker_http. rewrite Hp. cbn [String.eqb negb]. rewrite bool_decide_eq_false_2 by (by intros []).
  rewrite bool_decide_eq_true_2 by (left). cbn. by rewrite H1.
Qed.

Lemma read_reply_Ok r resp : read_reply r = Ok resp ↔ ∃ a, r = Answered a ∧ read_resp (h_content a) = Some resp.
Proof.
  split.
  - destruct r as [a| |]; try done. cbn. intros E%ok_or_Ok. by exists a.
  - intros (a & -> & E). cbn. by rewrite E.
Qed.

(** When the calls of clients and exits succeed, over any network: when an answer comes
    whose body reads as a response, of whatever status; and then they return that
    response. *)
Lemma posted_calls_iff (net : network) url host s req s' r :
  (fronted_call net url host s req = (s', Ok r) ↔
     ∃ a, net s (fronted_request url host (show_req req)) = (s', Answered a) ∧ read_resp (h_content a) = Some r) ∧
  (exit_call net url s req = (s', Ok r) ↔
     ∃ a, net s (exit_request url (show_req req)) = (s', Answered a) ∧ read_resp (h_content a) = Some r) ∧
  (payment_call net url s req = (s', Ok r) ↔
     ∃ a, net s (payment_request url (show_req req)) = (s', Answered a) ∧ read_resp (h_content a) = Some r).
Proof.
  assert (G : ∀ q, (let '(s1, x) := net s q in (s1, read_reply x)) = (s', Ok r) ↔
                   ∃ a, net s q = (s', Answered a) ∧ read_resp (h_content a) = Some r).
  { intros q. destruct (net s q) as [s1 x]. split.
    - intros [= <- (a & -> & E)%read_reply_Ok]. by exists a.
    - intros (a & [= -> ->] & E). f_equal. apply read_reply_Ok. by exists a. }
  split_and!; apply G.
Qed.

(** And those through a function: when the payload reads as a status and a body, the
    status is 200 and the body reads as a response. *)
Lemma lambda_call_iff invoke s req s' r : lambda_call read_lambda invoke s req = (s', Ok r) ↔
  ∃ blob body, invoke s (show_req req) = (s', Payload blob) ∧ read_lambda blob = Some (200, body) ∧ read_resp body = Some r.
Proof.
  unfold lambda_call. destruct (invoke s (show_req req)) as [s1 x]. split.
  - intros [= <- E]. destruct x as [| |blob]; try done. apply bind_Ok in E as ([st body] & Eb%ok_or_Ok & E). cbn in E.
    destruct (Z.eqb_spec st 200) as [->|]; [|done]. apply ok_or_Ok in E. by exists blob, body.
  - intros (blob & body & [= -> ->] & Eb & Er). cbn. rewrite Eb. cbn. by rewrite Er.
Qed.

(** A post that the broker answers gives the caller what the broker responded, and the
    broker has handled it once. *)
Theorem answered_call_sound (net : network) url host req s : codecs_ok → path (fronted_request url host (show_req req)) = "/" →
  (∀ q, net s q = let '(s', a) := broker s q in (s', Answered a)) →
  fronted_call net url host s req = ((respond_raw s req).1, Ok (respond_raw s req).2) ∧
  (host = None → exit_call net url s req = ((respond_raw s req).1, Ok (respond_raw s req).2)).
Proof.
  intros Hc Hp Hn. pose proof Hc as [_ Hr].
  assert (E : fronted_call net url host s req = ((respond_raw s req).1, Ok (respond_raw s req).2)).
  { unfold fronted_call. rewrite Hn, broker_takes by done. destruct (respond_raw s req) as [s' resp]. cbn. by rewrite Hr. }
  split; [done|]. intros ->. exact E.
Qed.

(** Statistics do not change what is answered, and name only methods that exist. *)
Lemma wrapped_respond_same {Params Val} (respond : string → Params → option Val) influxdb method params :
  (wrapped_respond respond influxdb method params).1 = respond method params ∧
  ((wrapped_respond respond influxdb method params).2 ≠ [] ↔ influxdb = true ∧ is_Some (respond method params)).
Proof.
  unfold wrapped_respond. destruct (respond method params) as [v|]; cbn; split; try done; destruct influxdb; split; try done;
    try (by intros []); intros [_ [? ?]]; done.
Qed.
End transports.

Module HttpDemo.
(** A counter; requests and answers are numbers in unary, marked by their first byte. *)
Definition show_req (n : nat) : list byte := x3f :: replicate n x31.
Definition show_resp (n : nat) : list byte := x21 :: replicate n x31.
Definition read_as (m : byte) (l : list byte) : option nat := match l with b :: l => if decide (b = m) then Some (length l) else None | [] => None end.
Definition respond (s n : nat) : nat * nat := ((s + n)%nat, (s + n)%nat).
Definition error_text (c : Z) : list byte := [x65].
Definition read_lambda (l : list byte) : option (Z * list byte) := Some (le_val (take 2 l), drop 2 l).
Definition path (r : http_request) : string := "/".
End HttpDemo.
Import HttpDemo.

Lemma codecs_demo : codecs_ok show_req (read_as x3f) show_resp (read_as x21).
Proof. split; intros n; unfold show_req, show_resp; cbn; by rewrite length_replicate. Qed.

(** The broker itself, and a page of someone else. *)
Definition demo_broker : nat → http_request → nat * http_response := broker (read_as x3f) show_resp respond path error_text.
Definition straight (s : nat) (q : http_request) : nat * reply := let '(s', a) := demo_broker s q in (s', Answered a).
Definition page (p : http_response) (s : nat) (q : http_request) : nat * reply := (s, Answered p).

Lemma answered_call_sound_witness :
  fronted_call show_req (read_as x21) straight "https://front/" (Some "broker") 5%nat 2%nat = (7%nat, Ok 7%nat).
Proof.
  refine (proj1 (answered_call_sound show_req (read_as x3f) show_resp (read_as x21) respond path error_text
    straight "https://front/" (Some "broker") 2%nat 5%nat codecs_demo eq_refl _)).
  reflexivity.
Defined.

(** A client or an exit reads the body of an answer whatever its status; behind a
    function only 200 counts. *)
Example status_unread :
  (fronted_call show_req (read_as x21) (page (mkResponse 503 (show_resp 9))) "u" None 5%nat 2%nat).2 = Ok 9%nat ∧
  (lambda_call show_req (read_as x21) read_lambda (λ s _, (s, Payload (app (le_bytes 2 503) (show_resp 9)))) 5%nat 2%nat).2 = Err "error code".
Proof. vm_compute. done. Qed.

(** A lost reply is an error to the caller, but the broker has acted. *)
Example lost_reply_acts :
  fronted_call show_req (read_as x21) (λ s q, ((demo_broker s q).1, SendFailed)) "u" None 5%nat 2%nat =
    (7%nat, Err "cannot send request to front").
Proof. vm_compute. reflexivity. Qed.

(** Without its content type a request is refused. *)
Example no_content_type : (demo_broker 5%nat (mkRequest POST "u" [] (show_req 2))).2 = mkResponse 415 [x65].
Proof. vm_compute. reflexivity. Qed.
