(* ===== verification/Relay.v ===== *)
(** * Connections relayed by the client
    (binaries/geph5-client/src/{socks5,litecopy,vpn,pac}.rs, http_proxy/mod.rs)

    A connection taken from an application, by the HTTP proxy, by SOCKS5 or off the
    VPN, is tied to one through the tunnel by two copies that race: each reads
    pieces and writes them in order; the first that ends ends both.  And the
    loops that accept the connections. *)
From Stdlib Require Import ZArith Lia.
From S2P Require Import Prelude Protocol Text IpText ClientNet Vpn ClientMain.

Local Open Scope Z_scope.

(** ** One direction *)

(** [d_sent] is all that the source has sent, [d_unread] what the copy has not read
    yet, [d_held] what it has read and not written. *)
Record direction := mkDir { d_sent : list byte; d_unread : list byte; d_closed : bool; d_held : list byte; d_delivered : list byte }.
Definition dir_start : direction := mkDir [] [] false [] [].

Inductive dir_event :=
| Sends (bs : list byte)   (* the source *)
| Closes
| Reads (n : nat)          (* the copy: one read ... *)
| Writes (n : nat)         (* ... and the writes of [write_all] *)
| ReadsEnd
| Fails (e : io_error).    (* of a read or a write *)

(** The copy has ended with this, or goes on.  A copy reads up to [cap] bytes and
    writes all of them before it reads again; one that refills ([refill]) may read more
    into what room its buffer of [cap] bytes has left.  Only a read of nothing when all is
    written ends it well. *)
Definition dir_step (refill : bool) (cap : nat) (d : direction) (ev : dir_event) : option (direction * option (res io_error Z)) :=
  match ev with
  | Sends bs => if d_closed d then None else Some (mkDir (d_sent d ++ bs) (d_unread d ++ bs) false (d_held d) (d_delivered d), None)
  | Closes => Some (mkDir (d_sent d) (d_unread d) true (d_held d) (d_delivered d), None)
  | Reads n =>
      if (refill || bool_decide (d_held d = [])) && (1 <=? n)%nat && (length (d_held d) + n <=? cap)%nat && (n <=? length (d_unread d))%nat
      then Some (mkDir (d_sent d) (drop n (d_unread d)) (d_closed d) (d_held d ++ take n (d_unread d)) (d_delivered d), None) else None
  | Writes n =>
      if (1 <=? n)%nat && (n <=? length (d_held d))%nat
      then Some (mkDir (d_sent d) (d_unread d) (d_closed d) (drop n (d_held d)) (d_delivered d ++ take n (d_held d)), None) else None
  | ReadsEnd =>
      if d_closed d && bool_decide (d_unread d = []) && bool_decide (d_held d = [])
      then Some (d, Some (Ok (Z.of_nat (length (d_delivered d))))) else None
  | Fails e => Some (d, Some (Err e))
  end.

(** ** Two copies that race *)

(** [future::select] or [race]: [up] is from the application. *)
Record relay := mkRelay { up : direction; dn : direction; over : option (bool * res io_error Z) }.
Definition relay_start : relay := mkRelay dir_start dir_start None.

(** Once it is over, both connections are dropped. *)
Definition relay_step (refill : bool) (cap : nat) (r : relay) (ev : bool * dir_event) : option relay :=
  match over r with
  | Some _ => None
  | None =>
      let '(side, e) := ev in
      '(d, ended) ← dir_step refill cap (if side : bool then up r else dn r) e;
      Some (mkRelay (if side : bool then d else up r) (if side : bool then dn r else d) (pair side <$> ended))
  end.
Definition relay_run (refill : bool) (cap : nat) (r : relay) (evs : list (bool * dir_event)) : option relay :=
  foldl (λ r ev, r ≫= λ r, relay_step refill cap r ev) (Some r) evs.

(** Two of [tokio::io::copy], which is documented to copy with a buffer of eight
    kilobytes; it reads more when a write makes no progress. *)
Definition establish_connect_tunnel := relay_run true (Z.to_nat 8192).
(** [litecopy] reads as much as its pool of buffers gives. *)
Definition socks5_tunnel (pooled : nat) := relay_run false pooled.
Definition vpn_tcp_tunnel (pooled : nat) := relay_run false pooled.

Definition dir_inv (d : direction) : Prop := d_sent d = d_delivered d ++ d_held d ++ d_unread d.

Lemma dir_step_inv refill cap d ev d' o : dir_inv d → dir_step refill cap d ev = Some (d', o) →
  dir_inv d' ∧ (∀ n, o = Some (Ok n) → d_delivered d' = d_sent d' ∧ d_closed d' = true ∧ n = Z.of_nat (length (d_sent d'))).
Proof.
  unfold dir_inv. intros Hi E. destruct ev as [bs| |n|n| |e]; cbn in E.
  - destruct (d_closed d); [done|]. simplify_eq. cbn. split; [|done]. by rewrite Hi, <- !app_assoc.
  - by simplify_eq.
  - destruct (_ && _); [|done]. simplify_eq. cbn. split; [|done]. by rewrite Hi, <- app_assoc, take_drop.
  - destruct (_ && _); [|done]. simplify_eq. cbn. split; [|done]. rewrite Hi, <- !app_assoc. f_equal. by rewrite app_assoc, take_drop.
  - destruct (d_closed d && _ && _) eqn:Eb; [|done]. apply andb_true_iff in Eb as [[Ec Eu]%andb_true_iff Eh].
    apply bool_decide_eq_true in Eu, Eh. simplify_eq. split; [done|]. intros n [= <-]. rewrite Hi, Eu, Eh, !app_nil_r. done.
  - by simplify_eq.
Qed.

(** What holds of a relay that has run. *)
Record relay_inv (r : relay) : Prop := mkRelayInv {
  ri_up : dir_inv (up r); ri_dn : dir_inv (dn r);
  ri_over : ∀ side n, over r = Some (side, Ok n) →
    let d := if side : bool then up r else dn r in d_delivered d = d_sent d ∧ d_closed d = true ∧ n = Z.of_nat (length (d_sent d))
}.
Lemma relay_step_inv refill cap r ev r' : relay_inv r → relay_step refill cap r ev = Some r' → relay_inv r'.
Proof.
  intros [I1 I2 I3] E. destruct ev as [side e]. unfold relay_step in E. destruct (over r); [done|].
  apply bind_Some in E as ([d o] & Ed & E). simplify_eq.
  assert (Hside : dir_inv (if side then up r else dn r)) by (by destruct side). destruct (dir_step_inv _ _ _ _ _ _ Hside Ed) as [Hd Ho].
  destruct side; split; cbn; try done; intros side n; destruct o as [[m|e'|]|]; cbn; intros [= <- <-]; by apply Ho.
Qed.
Lemma relay_run_inv refill cap evs : ∀ r r', relay_inv r → relay_run refill cap r evs = Some r' → relay_inv r'.
Proof.
  induction evs as [|ev evs IH] using rev_ind; intros r r' Hi E; [by injection E as <-|].
  unfold relay_run in E. rewrite foldl_snoc in E. apply bind_Some in E as (v & E & Es). eapply relay_step_inv; [|exact Es]. by eapply IH.
Qed.

(** ** It goes on *)

(** A copy that is scheduled gets all across. *)
Lemma relay_run_app refill cap r a b : relay_run refill cap r (a ++ b) = relay_run refill cap r a ≫= λ r, relay_run refill cap r b.
Proof.
  unfold relay_run. rewrite foldl_app. destruct (foldl _ (Some r) a) as [v|]; [done|]. cbn. induction b as [|ev b IH]; [done|]. cbn. exact IH.
Qed.
Lemma relay_run_cons refill cap r ev evs : relay_run refill cap r (ev :: evs) = relay_step refill cap r ev ≫= λ r, relay_run refill cap r evs.
Proof. exact (relay_run_app refill cap r [ev] evs). Qed.
Definition put (side : bool) (d : direction) (r : relay) : relay := mkRelay (if side then d else up r) (if side then dn r else d) (over r).
Definition side_of (side : bool) (r : relay) : direction := if side then up r else dn r.
Lemma step_side refill cap side r e d : over r = None → dir_step refill cap (side_of side r) e = Some (d, None) → relay_step refill cap r (side, e) = Some (put side d r).
Proof. intros Ho E. unfold relay_step. rewrite Ho. unfold side_of in E. destruct side; rewrite E; cbn; unfold put; by rewrite Ho. Qed.

Definition flush_held (d : direction) : direction := mkDir (d_sent d) (d_unread d) (d_closed d) [] (d_delivered d ++ d_held d).
Lemma drain_held refill cap side r : over r = None → ∃ evs, relay_run refill cap r evs = Some (put side (flush_held (side_of side r)) r).
Proof.
  intros Ho. destruct (d_held (side_of side r)) as [|b l] eqn:Eh.
  - exists []. cbn. f_equal. unfold flush_held, put, side_of in *. destruct r as [[] [] o], side; cbn in *; subst; by rewrite app_nil_r.
  - exists [(side, Writes (length (d_held (side_of side r))))]. apply step_side; [done|]. cbn [dir_step]. rewrite (proj2 (Nat.leb_le 1 _)) by (rewrite Eh; cbn; lia).
    rewrite Nat.leb_refl. cbn [andb]. by rewrite drop_all, take_ge by done.
Qed.
Lemma drain_unread refill cap side n : (1 <= cap)%nat → ∀ r, over r = None → (length (d_unread (side_of side r)) <= n)%nat → d_held (side_of side r) = [] →
  ∃ evs, relay_run refill cap r evs = Some (put side (mkDir (d_sent (side_of side r)) [] (d_closed (side_of side r)) [] (d_delivered (side_of side r) ++ d_unread (side_of side r))) r).
Proof.
  intros Hcap. induction n as [|n IH]; intros r Ho Hn Hh.
  - exists []. cbn. f_equal. destruct (d_unread (side_of side r)) eqn:Eu; [|cbn in Hn; lia]. unfold put, side_of in *. destruct r as [[] [] o], side; cbn in *; subst; by rewrite app_nil_r.
  - destruct (d_unread (side_of side r)) as [|b l] eqn:Eu; [apply (IH r Ho) in Hh; [by rewrite Eu in Hh|rewrite Eu; cbn; lia]|].
    set (d1 := mkDir (d_sent (side_of side r)) l (d_closed (side_of side r)) [b] (d_delivered (side_of side r))).
    assert (S1 : relay_step refill cap r (side, Reads 1) = Some (put side d1 r)).
    { apply step_side; [done|]. cbn [dir_step]. rewrite Hh, bool_decide_eq_true_2, orb_true_r, (proj2 (Nat.leb_le (@length byte [] + 1) cap)), Eu by (done || cbn; lia). done. }
    set (d2 := mkDir (d_sent (side_of side r)) l (d_closed (side_of side r)) [] (d_delivered (side_of side r) ++ [b])).
    assert (S2 : relay_step refill cap (put side d1 r) (side, Writes 1) = Some (put side d2 (put side d1 r))).
    { apply step_side; [done|]. by destruct side. }
    destruct (IH (put side d2 (put side d1 r))) as [evs E]; [done|destruct side; cbn in *; lia|by destruct side|].
    exists ((side, Reads 1) :: (side, Writes 1) :: evs). rewrite relay_run_cons, S1. cbn [mbind option_bind]. rewrite relay_run_cons, S2. cbn [mbind option_bind].
    rewrite E. f_equal. destruct side; cbn; unfold put; cbn; by rewrite <- app_assoc.
Qed.

(** C37: Two copies that race, refilling or not, in any interleaving of what both sides
    send and what the copies do.  Each side receives what the other sent, in order, with nothing added;
    a relay that ends without an error has delivered everything of the side that
    closed and counts it; and as long as it is not over everything sent in both
    directions can still be delivered. *)
Theorem relay_sound refill cap evs r : (1 <= cap)%nat → relay_run refill cap relay_start evs = Some r →
  d_delivered (up r) `prefix_of` d_sent (up r) ∧ d_delivered (dn r) `prefix_of` d_sent (dn r) ∧
  (∀ side n, over r = Some (side, Ok n) → d_delivered (side_of side r) = d_sent (side_of side r) ∧ d_closed (side_of side r) = true ∧ n = Z.of_nat (length (d_sent (side_of side r)))) ∧
  (over r = None → ∃ more r', relay_run refill cap relay_start (evs ++ more) = Some r' ∧ over r' = None ∧
     d_delivered (up r') = d_sent (up r) ∧ d_delivered (dn r') = d_sent (dn r) ∧ d_sent (up r') = d_sent (up r) ∧ d_sent (dn r') = d_sent (dn r)).
Proof.
  intros Hcap E. assert (Hs : relay_inv relay_start) by (by split). destruct (relay_run_inv refill cap evs _ _ Hs E) as [I1 I2 I3].
  split_and!; [by eexists|by eexists|exact I3|]. intros Ho.
  assert (Hd : ∀ side r, over r = None → dir_inv (side_of side r) → ∃ evs, relay_run refill cap r evs =
            Some (put side (mkDir (d_sent (side_of side r)) [] (d_closed (side_of side r)) [] (d_sent (side_of side r))) r)).
  { clear -Hcap. intros side r Ho Hi. destruct (drain_held refill cap side r Ho) as [e1 E1].
    destruct (drain_unread refill cap side _ Hcap (put side (flush_held (side_of side r)) r) Ho (le_n _)) as [e2 E2]; [by destruct side|].
    exists (e1 ++ e2). rewrite relay_run_app, E1. cbn [mbind option_bind]. rewrite E2. f_equal. unfold dir_inv in Hi.
    destruct side; cbn in *; unfold put; cbn; by rewrite Hi, <- !app_assoc. }
  destruct (Hd true r Ho I1) as [e1 E1]. destruct (Hd false (put true (mkDir (d_sent (up r)) [] (d_closed (up r)) [] (d_sent (up r))) r) Ho I2) as [e2 E2].
  exists (e1 ++ e2). eexists. rewrite relay_run_app, E. cbn [mbind option_bind]. rewrite relay_run_app, E1. cbn [mbind option_bind].
  split; [exact E2|]. done.
Qed.

(** ** SOCKS5 (socks5.rs) *)

(** What is written to the application. *)
Inductive socks_msg := AuthNone | StatusSuccess (host : SocksV5Host) (port : Z).

Section socks5.
(** Reading the two messages is the socksv5 crate's. *)
Context {Conn : Type} (read_handshake : list byte → res string (list byte)) (read_request : list byte → res string (SocksV5Host * Z * list byte)).
Context (open_conn : string → string → res string Conn).

(** One task of [socks5_loop], up to the copies; what the application has sent ahead
    is the first they read. *)
Definition socks5_session (input : list byte) : list socks_msg * res string (Conn * list byte) :=
  match read_handshake input with
  | Ok input =>
      match read_request input with
      | Ok (host, port, input) =>
          match (remote_addr ← socks5_remote host port; open_conn "tcp" remote_addr) with
          | Ok stream => ([AuthNone; StatusSuccess host port], Ok (stream, input))
          | Err e => ([AuthNone], Err e)
          | Panic => ([AuthNone], Panic)
          end
      | Err e => ([AuthNone], Err e)
      | Panic => ([AuthNone], Panic)
      end
  | Err e => ([], Err e)
  | Panic => ([], Panic)
  end.

(** An application is told of success exactly when the connection it asked for, by
    name or IPv4 address, has been opened; the relay starts with the bytes behind its
    request. *)
Lemma socks5_success input host port : StatusSuccess host port ∈ (socks5_session input).1 ↔
  ∃ i1 rest remote stream, read_handshake input = Ok i1 ∧ read_request i1 = Ok (host, port, rest) ∧
    socks5_remote host port = Ok remote ∧ open_conn "tcp" remote = Ok stream ∧ (socks5_session input).2 = Ok (stream, rest).
Proof.
  unfold socks5_session. destruct (read_handshake input) as [i1| |]; [|set_solver..].
  destruct (read_request i1) as [[[h p] rest]| |] eqn:Erq; [|set_solver..].
  destruct (socks5_remote h p) as [remote| |] eqn:Er; cbn [mbind res_bind].
  - destruct (open_conn "tcp" remote) as [stream| |] eqn:Eo; cbn [fst snd]; [|set_solver..]. split.
    + intros Hin. assert (h = host ∧ p = port) as [-> ->] by set_solver. by exists i1, rest, remote, stream.
    + intros (? & ? & ? & ? & [= <-] & E & _). rewrite Erq in E. injection E as -> -> _. set_solver.
  - set_solver.
  - set_solver.
Qed.
End socks5.

(** ** Accepting *)

(** [listener.accept().await?]: the loop ends with the first error. *)
Fixpoint accept_or_end {A} (results : list (res string A)) : list A * option string :=
  match results with
  | Ok a :: results => let '(l, e) := accept_or_end results in (a :: l, e)
  | Err e :: _ => ([], Some e)
  | Panic :: _ => ([], None)
  | [] => ([], None)
  end.
(** The loop of [http_proxy_serve] goes on. *)
Fixpoint accept_or_skip {A} (results : list (res string A)) : list A :=
  match results with
  | Ok a :: results => a :: accept_or_skip results
  | Err _ :: results => accept_or_skip results
  | Panic :: _ => []
  | [] => []
  end.
Definition http_proxy_serve {A} (results : list (res string A)) : list A := accept_or_skip results.
Definition socks5_loop {A} (results : list (res string A)) : list A * option string := accept_or_end results.
Definition pac_serve {A} (results : list (res string A)) : list A * option string := accept_or_end results.

(** Connections accepted before an error are served by both; after one only the HTTP
    proxy takes any. *)
Lemma accept_loops {A} (before : list A) e after :
  socks5_loop (map Ok before ++ Err e :: after) = (before, Some e) ∧
  http_proxy_serve (map Ok before ++ Err e :: after) = before ++ http_proxy_serve after.
Proof.
  unfold socks5_loop, http_proxy_serve. induction before as [|a l IH]; [done|]. cbn. destruct IH as [IH1 IH2]. by rewrite IH1, IH2.
Qed.

(** A service that accepts like this ends the client with it, whatever else it does. *)
Lemma accept_error_ends_client {A} (c : ClientConfig) (results : list (res string A)) e after :
  dry_run c = false → is_Some (pac_listen c) → (pac_serve results).2 = Some e →
  client_main c ((PacServe, match (pac_serve results).2 with Some e => Err e | None => Ok () end) :: after) = Some (Err e).
Proof.
  intros Hd [a Ha] He. rewrite He. unfold client_main.
  assert (Hin : PacServe ∈ client_services c) by (unfold client_services, when; rewrite Hd, Ha; rewrite !elem_of_app; right; right; right; right; right; by left).
  by rewrite filter_cons_True.
Qed.

(** ** Runs *)
Module RelayDemo.
Definition request := [x47; x45; x54].
Definition reply := [x4f; x4b].
(** The application asks, says that it is done, and waits for the answer. *)
Definition evs : list (bool * dir_event) :=
  [(true, Sends request); (true, Reads 3); (false, Sends reply); (true, Writes 2); (true, Writes 1); (false, Reads 2); (false, Writes 2)].
(** An application that closes its direction before the answer has come does not get it. *)
Example half_close_loses_answer :
  (λ r, (over r, d_delivered (dn r), d_sent (dn r))) <$>
    establish_connect_tunnel relay_start [(true, Sends request); (true, Reads 3); (true, Writes 3); (true, Closes); (false, Sends reply); (true, ReadsEnd)] =
  Some (Some (true, Ok 3), [], reply).
Proof. vm_compute. reflexivity. Qed.
End RelayDemo.

Lemma relay_sound_witness : ∃ r, establish_connect_tunnel relay_start RelayDemo.evs = Some r ∧
  d_delivered (up r) `prefix_of` d_sent (up r) ∧ d_delivered (dn r) = RelayDemo.reply.
Proof.
  destruct (establish_connect_tunnel relay_start RelayDemo.evs) as [r|] eqn:E; [|vm_compute in E; discriminate E].
  exists r. split; [reflexivity|]. split.
  - refine (proj1 (relay_sound true (Z.to_nat 8192) RelayDemo.evs r _ E)). lia.
  - vm_compute in E. injection E as <-. reflexivity.
Defined.
