(* ===== verification/Puzzle.v ===== *)
(** * Puzzles
    (libraries/geph5-broker-protocol/src/puzzle.rs, binaries/geph5-broker/src/puzzle.rs,
    rpc_impl.rs)

    A new account costs a proof of work: the broker draws a puzzle, the client solves
    it, the broker checks the solution and that the puzzle has not been used.  melpow
    and base64 are parameters; the check of [Broker] is the one defined here. *)
From Stdlib Require Import ZArith Lia.
From S2P Require Import Prelude Crypto Mizaru Protocol Text Cache Dialer Routes GetDialer BrokerDb Broker BrokerSafety BrokerLive.

Local Open Scope Z_scope.

Definition string_bytes (s : string) : list byte := byte_of_Z <$> ((λ c, Z.of_nat (Ascii.nat_of_ascii c)) <$> String.list_ascii_of_string s).

(** melpow: proofs over a hash function, and how they are written. *)
Class Melpow := {
  mel_proof : Type;
  mel_generate : (list byte → list byte → list byte) → list byte → Z → mel_proof;
  mel_verify : (list byte → list byte → list byte) → mel_proof → list byte → Z → bool;
  mel_to_bytes : mel_proof → list byte;
  mel_from_bytes : list byte → option mel_proof
}.
Class MelpowLaws `{Melpow} := {
  mel_sound h puzzle d : mel_verify h (mel_generate h puzzle d) puzzle d = true;
  mel_bytes p : mel_from_bytes (mel_to_bytes p) = Some p
}.
(** base64 without padding *)
Class Base64 := { b64_encode : list byte → string; b64_decode : string → option (list byte) }.
Class Base64Laws `{Base64} := { b64_roundtrip l : b64_decode (b64_encode l) = Some l }.

Section puzzle.
Context `{BC : BrokerCaches} `{PS : Payment}.
Context `{Blake3Laws} `{Ed25519Laws} `{BlindRsaLaws} `{ML : MelpowLaws} `{BL : Base64Laws}.
Context `{Stdcode ExitList} `{Stdcode ExitDescriptor} `{Stdcode (Signed ExitDescriptor)} `{Stdcode BridgeDescriptor}.

Context {CLcred : TtlCacheLaws Credential Z 86400000} {CLtok : TtlCacheLaws string (option Z) 86400000} {CLexits : TtlCacheLaws unit ExitList 10000}.

(** [Blake3HashFunction::hash] *)
Definition melpow_hash (b k : list byte) : list byte := keyed_hash (hash k) b.

Definition solve_puzzle (puzzle : string) (difficulty : Z) : string :=
  b64_encode (mel_to_bytes (mel_generate melpow_hash (string_bytes puzzle) difficulty)).

(** [verify_puzzle_solution] of the protocol *)
Definition check_solution (puzzle : string) (difficulty : Z) (solution : string) : res string unit :=
  solution ← ok_or (b64_decode solution) "Invalid base64";
  solution ← ok_or (mel_from_bytes solution) "invalid solution format";
  if mel_verify melpow_hash solution (string_bytes puzzle) difficulty then Ok () else Err "invalid solution to puzzle".
Definition pow_check (puzzle : string) (difficulty : Z) (solution : string) : bool := is_ok (check_solution puzzle difficulty solution).

(** [new_puzzle] from twenty random bytes, and the handler [get_puzzle]. *)
Definition new_puzzle (bts : list byte) : string := hex_encode bts.
Definition get_puzzle (cfg : BrokerConfig) (bts : list byte) : string * Z := (new_puzzle bts, puzzle_difficulty cfg).

Lemma solved_passes puzzle d : check_solution puzzle d (solve_puzzle puzzle d) = Ok ().
Proof. unfold check_solution, solve_puzzle. rewrite b64_roundtrip. cbn. rewrite mel_bytes. cbn. by rewrite mel_sound. Qed.

(** A client that solves the puzzle it was given, at the difficulty it was told,
    gets its account: the solution passes the broker's check as it is sent, the
    account has the secret that is returned, and the puzzle opens no other account. *)
Theorem puzzle_opens_account cfg digits digits' bts w p code :
  faults w = [] → (get_puzzle cfg bts).1 ∉ used_puzzles (db w) → secret_of (next_user_id (db w)) (db w) = None →
  create_giftcard (pay w) 1 = (p, Ok code) →
  ∃ w', register_user_secret cfg pow_check digits (get_puzzle cfg bts).1 (solve_puzzle (get_puzzle cfg bts).1 (get_puzzle cfg bts).2) w
          = (w', Ok (make_secret digits)) ∧
    auth_secret (db w') = auth_secret (db w) ++ [(next_user_id (db w), make_secret digits)] ∧
    ∀ solution, ∃ w'' e, register_user_secret cfg pow_check digits' (get_puzzle cfg bts).1 solution w' = (w'', Err e) ∧ auth_secret (db w'') = auth_secret (db w').
Proof.
  intros Hf Hu Hs Hc. set (puzzle := (get_puzzle cfg bts).1).
  assert (Hp : pow_check puzzle (puzzle_difficulty cfg) (solve_puzzle puzzle (get_puzzle cfg bts).2) = true) by (unfold pow_check; cbn; by rewrite solved_passes).
  destruct (register_calm cfg (λ _, true) (λ _ _, true) pow_check digits puzzle _ w p code Hf Hp Hu Hs Hc) as (d & E & Ha & _ & _ & _ & Hused).
  eexists. split; [exact E|]. split; [exact Ha|]. intros solution.
  unfold register_user_secret, verify_puzzle_solution, mbind, M_bind. destruct (pow_check puzzle (puzzle_difficulty cfg) solution); [|by eexists _, _].
  cbn. unfold execute. cbn. rewrite Hf. cbn. rewrite decide_True by exact Hused. by eexists _, _.
Qed.
End puzzle.

(** A toy proof of work: the puzzle itself. *)
Module PuzzleDemo.
#[export] Instance melpow : Melpow := {|
  mel_proof := list byte; mel_generate h p d := h p [byte_of_Z d]; mel_verify h pr p d := bool_decide (pr = h p [byte_of_Z d]);
  mel_to_bytes p := p; mel_from_bytes := Some |}.
#[export] Instance melpow_laws : MelpowLaws.
Proof. split; intros; cbn; [by apply bool_decide_eq_true|done]. Qed.
#[export] Instance base64 : Base64 := {| b64_encode := hex_encode; b64_decode := hex_decode |}.
#[export] Instance base64_laws : Base64Laws.
Proof. split. apply hex_decode_encode. Qed.
Definition bts : list byte := [x0a; xff].
End PuzzleDemo.
Import Toy BrokerDemo PuzzleDemo.

Lemma puzzle_opens_account_witness : ∃ w',
  register_user_secret BrokerDemo.config pow_check [1; 2; 3] "0aff" (solve_puzzle "0aff" 1) BrokerDemo.w0 = (w', Ok (make_secret [1; 2; 3])).
Proof.
  destruct (puzzle_opens_account BrokerDemo.config [1; 2; 3] [4] bts BrokerDemo.w0 1 "card") as (w' & E & _);
    [reflexivity|apply (bool_decide_unpack _); vm_compute; exact I|reflexivity|reflexivity|].
  exists w'. exact E.
Defined.
