(* ===== verification/Statistics.v ===== *)
(** * Statistics of the broker
    (binaries/geph5-broker/src/self_stat.rs, libraries/nano-influxdb/src/lib.rs,
    binaries/geph5-bridge/src/influxdb.rs, binaries/geph5-exit/src/schedlag.rs)

    Every five seconds the broker counts rows of its database and sends the counts.
    The queries are functions of the tables of [BrokerDb]; a turn is its queries and
    posts in their order, and ends with the first that fails. *)
From Stdlib Require Import ZArith Lia.
From S2P Require Import Prelude Protocol BrokerDb.

Local Open Scope Z_scope.

(** ** Queries *)

Definition day : Z := 24 * 3600 * 1000.
(** [select count(id) from last_login where login_time > NOW() - ...] *)
Definition recent (now span : Z) (d : Db) : list Z := fst <$> filter (λ r, now - span < r.2) (map_to_list (last_login d)).
Definition logins (now span : Z) (d : Db) : Z := Z.of_nat (length (recent now span d)).
(** ... [natural join auth_secret], whose only common column is [id] *)
Definition secrets_of (d : Db) (uid : Z) : nat := length (filter (λ r, r.1 = uid) (auth_secret d)).
Definition passwords_of (d : Db) (uid : Z) : nat := length (filter (λ r, r.2.1 = uid) (auth_password d)).
Definition logins_new (now span : Z) (d : Db) : Z := Z.of_nat (sum_list (secrets_of d <$> recent now span d)).
(** ... [join auth_password on id=user_id natural join auth_secret] *)
Definition logins_old2new (now span : Z) (d : Db) : Z :=
  Z.of_nat (sum_list ((λ uid, passwords_of d uid * secrets_of d uid)%nat <$> recent now span d)).
(** [select pool,count(listen) from bridges_new group by pool] *)
Definition pool_names (d : Db) : list string := remove_dups (row_pool <$> (snd <$> map_to_list (bridges_new d))).
Definition pool_counts (d : Db) : list (string * Z) :=
  (λ p, (p, Z.of_nat (length (filter (λ r, row_pool r.2 = p) (map_to_list (bridges_new d)))))) <$> pool_names d.
Definition plus_count (d : Db) : Z := Z.of_nat (length (subscriptions d)).

(** ** A turn *)

Inductive stat_line :=
| SysStat (load_per_core : list Z)
| BridgePool (pool : string) (count : Z)
| Logins (daily daily_new daily_old2new weekly : Z)
| PlusCount (count : Z).

(** What a turn does, in its order: things that give nothing to send, and posts. *)
Inductive stat_action := Ask | Post (l : stat_line).
Definition turn_actions (load : list Z) (now : Z) (d : Db) : list stat_action :=
  [Ask; Post (SysStat load); Ask] ++ ((λ pc, Post (BridgePool pc.1 pc.2)) <$> pool_counts d) ++
  [Ask; Ask; Ask; Ask;
   Post (Logins (logins now day d) (logins_new now day d) (logins_old2new now day d) (logins now (7 * day) d));
   Ask; Post (PlusCount (plus_count d))].

(** [InfluxDbEndpoint::send_line]: whether a post got through is all that counts. *)
Definition send_line (ok : bool) (l : stat_line) (sent : list stat_line) : list stat_line := if ok then sent ++ [l] else sent.

(** The actions up to the first that fails; whether the turn was finished.  When the
    outcomes run out the rest succeeds. *)
Fixpoint run_turn (outcomes : list bool) (acts : list stat_action) (sent : list stat_line) : list stat_line * bool :=
  match acts with
  | [] => (sent, true)
  | a :: acts =>
      let ok := default true (head outcomes) in
      let sent := match a with Ask => sent | Post l => send_line ok l sent end in
      if ok then run_turn (tail outcomes) acts sent else (sent, false)
  end.
(** One turn of [self_stat_loop]: without an endpoint there is nothing to do. *)
Definition self_stat_turn (influxdb : bool) (outcomes : list bool) (load : list Z) (now : Z) (d : Db) : list stat_line * bool :=
  if influxdb then run_turn outcomes (turn_actions load now d) [] else ([], true).

Definition lines_of_actions (acts : list stat_action) : list stat_line := omap (λ a, match a with Post l => Some l | Ask => None end) acts.

Lemma run_turn_prefix acts : ∀ outcomes sent, ∃ k, (run_turn outcomes acts sent).1 = sent ++ take k (lines_of_actions acts) ∧
  ((run_turn outcomes acts sent).2 = true → (run_turn outcomes acts sent).1 = sent ++ lines_of_actions acts).
Proof.
  induction acts as [|a acts IH]; intros outcomes sent; [exists 0%nat; cbn; by rewrite app_nil_r|]. cbn [run_turn].
  destruct (default true (head outcomes)); destruct a as [|l]; cbn [send_line lines_of_actions omap list_omap].
  - apply IH.
  - destruct (IH (tail outcomes) (sent ++ [l])) as (k & E1 & E2). exists (S k). split.
    + rewrite E1, <- app_assoc. done.
    + intros Hok. rewrite (E2 Hok), <- app_assoc. done.
  - exists 0%nat. by rewrite take_0, app_nil_r.
  - exists 0%nat. by rewrite take_0, app_nil_r.
Qed.

(** A turn sends the whole report or the front of it, in its order. *)
Lemma self_stat_prefix outcomes load now d :
  (self_stat_turn true outcomes load now d).1 `prefix_of` lines_of_actions (turn_actions load now d) ∧
  ((self_stat_turn true outcomes load now d).2 = true → (self_stat_turn true outcomes load now d).1 = lines_of_actions (turn_actions load now d)).
Proof.
  unfold self_stat_turn. destruct (run_turn_prefix (turn_actions load now d) outcomes []) as (k & E1 & E2).
  split; [rewrite E1; eexists; symmetry; apply take_drop|exact E2].
Qed.

(** ** What the counts mean *)

Lemma recent_mono now s s' d : s <= s' → recent now s d ⊆+ recent now s' d.
Proof.
  intros Hs. unfold recent. apply fmap_submseteq.
  replace (filter (λ r, now - s < r.2) (map_to_list (last_login d))) with (filter (λ r, now - s < r.2) (filter (λ r, now - s' < r.2) (map_to_list (last_login d)))).
  - apply sublist_submseteq, sublist_filter.
  - rewrite list_filter_filter_l; [done|]. intros r Hr. lia.
Qed.
Lemma sum_list_le {A} (f g : A → nat) l : (∀ x, x ∈ l → (f x <= g x)%nat) → (sum_list (f <$> l) <= sum_list (g <$> l))%nat.
Proof.
  induction l as [|x l IH]; intros H; [done|]. cbn. pose proof (H x (list_elem_of_here _ _)).
  assert (sum_list (f <$> l) <= sum_list (g <$> l))%nat by (apply IH; intros y Hy; apply H; by right). cbn in *. lia.
Qed.
Lemma sum_list_ones {A} (l : list A) : sum_list ((λ _, 1%nat) <$> l) = length l.
Proof. induction l as [|x l IH]; [done|]. cbn in *. lia. Qed.
Lemma filter_fst_NoDup {A} (f : A → Z) (l : list A) uid : NoDup (f <$> l) → (length (filter (λ r, f r = uid) l) <= 1)%nat.
Proof.
  induction l as [|a l IH]; intros H; [cbn; lia|]. cbn in H. apply NoDup_cons in H as [Ha H]. rewrite filter_cons. case_decide as E; [|by apply IH].
  cbn. destruct (filter (λ r, f r = uid) l) as [|r l'] eqn:Ef; [cbn; lia|]. destruct Ha.
  assert (Hr : r ∈ filter (λ r, f r = uid) l) by (rewrite Ef; left). apply list_elem_of_filter in Hr as [Er Hr].
  rewrite E, <- Er. by apply list_elem_of_fmap_2.
Qed.

Lemma length_filter_fmap {A} (f : A → string) (l : list A) p : length (filter (λ q, q = p) (f <$> l)) = length (filter (λ a, f a = p) l).
Proof. induction l as [|a l IH]; [done|]. cbn [fmap list_fmap]. rewrite !filter_cons. case_decide; cbn; by rewrite IH. Qed.

(** Each bridge is in one pool: the counts add up. *)
Lemma group_sum (l : list string) : ∀ g, NoDup g → (∀ p, p ∈ l → p ∈ g) →
  sum_list ((λ p, length (filter (λ q, q = p) l)) <$> g) = length l.
Proof.
  induction l as [|a l IH]; intros g Hg Hin.
  - clear. induction g as [|p g IH]; [done|]. cbn in *. by rewrite IH.
  - cbn [length]. rewrite <- (IH g Hg) by (intros p Hp; apply Hin; by right).
    assert (Ha : a ∈ g) by (apply Hin; left). clear -Hg Ha. induction g as [|p g IH]; [by apply elem_of_nil in Ha|].
    apply NoDup_cons in Hg as [Hp Hg]. cbn [fmap list_fmap]. change (sum_list (?x :: ?l)) with (x + sum_list l)%nat.
    assert (Hsame : ∀ g', a ∉ g' → sum_list ((λ p, length (filter (λ q, q = p) (a :: l))) <$> g') = sum_list ((λ p, length (filter (λ q, q = p) l)) <$> g')).
    { clear. induction g' as [|q g' IH]; intros Hq; [done|]. apply not_elem_of_cons in Hq as [H1 H2]. cbn [fmap list_fmap]. change (sum_list (?x :: ?l)) with (x + sum_list l)%nat.
      rewrite IH by done. by rewrite filter_cons_False. }
    apply elem_of_cons in Ha as [->|Ha].
    + rewrite filter_cons_True, Hsame by done. cbn. lia.
    + rewrite IH by done. rewrite filter_cons_False by (by intros ->). cbn. lia.
Qed.

(** What the broker reports of itself is consistent: no more users of a day than of
    the week; no more with a secret than there are, and of those no more that came from
    a password, as long as a user has one of each; and the bridges of the pools add up
    to all bridges. *)
Theorem statistics_consistent now d :
  NoDup (fst <$> auth_secret d) → NoDup ((λ r, r.2.1) <$> auth_password d) →
  logins now day d <= logins now (7 * day) d ∧
  logins_old2new now day d <= logins_new now day d <= logins now day d ∧
  sum_list (Z.to_nat <$> (snd <$> pool_counts d)) = size (bridges_new d).
Proof.
  intros Hs Hp. split_and!.
  - apply inj_le, submseteq_length, recent_mono. unfold day. lia.
  - apply inj_le, sum_list_le. intros uid _. pose proof (filter_fst_NoDup (λ r, r.2.1) (auth_password d) uid Hp). unfold passwords_of. nia.
  - apply inj_le. rewrite <- (sum_list_ones (recent now day d)). apply sum_list_le. intros uid _. by apply filter_fst_NoDup.
  - unfold pool_counts. rewrite <- !list_fmap_compose. rewrite <- length_map_to_list.
    rewrite <- (length_fmap (λ r : SocketAddr * BridgeRow, row_pool r.2)). rewrite <- (group_sum _ (pool_names d)).
    + f_equal. apply list_fmap_ext. intros i p _. unfold compose. cbn. rewrite Nat2Z.id.
      by rewrite length_filter_fmap.
    + apply NoDup_remove_dups.
    + intros p Hin. unfold pool_names. rewrite elem_of_remove_dups. by rewrite <- list_fmap_compose.
Qed.

Module StatDemo.
Definition bridge (p : string) : BridgeRow := mkBridgeRow "c" p 0 0.
Definition bridges : gmap SocketAddr BridgeRow :=
  <[mkAddr (V4 1) 1 := bridge "a"]> (<[mkAddr (V4 2) 1 := bridge "b"]> (<[mkAddr (V4 3) 1 := bridge "a"]> ∅)).
Definition d : Db := mkDb 9 [7; 8] [(7, "s"%string)] [("u"%string, (7, "h"%string))] [] [] 0 [] ∅ ∅ bridges ∅ (<[7 := 1000]> (<[8 := 0]> ∅)).
End StatDemo.

Lemma statistics_consistent_witness :
  logins day day StatDemo.d = 1 ∧ logins day (7 * day) StatDemo.d = 2 ∧ sum_list (Z.to_nat <$> (snd <$> pool_counts StatDemo.d)) = 3%nat.
Proof.
  destruct (statistics_consistent day StatDemo.d) as (H1 & H2 & H3).
  - apply NoDup_singleton.
  - apply NoDup_singleton.
  - split_and!; [reflexivity|reflexivity|exact H3].
Defined.

(** A post that fails ends the turn before the counts behind it are asked for. *)
Example failed_post_ends_turn : self_stat_turn true [true; true; true; false] [50] 0 StatDemo.d = ([SysStat [50]], false).
Proof. vm_compute. reflexivity. Qed.

(** ** Endpoint of a bridge, lag of an exit *)

(** [INFLUXDB_ENDPOINT]: all three variables or none. *)
Record InfluxDbEndpoint := mkInflux { influx_url : string; influx_username : string; influx_password : string }.
Definition INFLUXDB_ENDPOINT (var : string → option string) : option InfluxDbEndpoint :=
  url ← var "GEPH5_BRIDGE_INFLUXDB"%string;
  username ← var "GEPH5_BRIDGE_INFLUXDB_USERNAME"%string;
  password ← var "GEPH5_BRIDGE_INFLUXDB_PASSWORD"%string;
  Some (mkInflux url username password).

(** [SCHEDULER_LAG_SECS], in nanoseconds: how far the last sleep of a second was off. *)
Definition scheduler_lag (elapsed : list Z) : Z := foldl (λ _ e, Z.abs (e - 1000000000)) 0 elapsed.
