(* ===== verification/Daemons.v ===== *)
(** * How the graphical client runs a client
    (binaries/geph5-client-gui/src/daemon.rs, daemon/inline.rs, daemon/subproc.rs)

    The trait [Daemon] as a class with its laws; on Unix a client inside the program,
    on Windows a process that reads its configuration from a file and is reached over
    a port.  The windows offer Connect when no client answers and Disconnect when one
    does; what runs then follows the clicks, over any daemon that keeps the laws. *)
From Stdlib Require Import ZArith Lia.
From S2P Require Import Prelude Protocol ClientMain GuiApp.

Local Open Scope Z_scope.

Definition CONTROL_PORT : Z := 8964.
Definition control_addr : SocketAddr := mkAddr (V4 (127 * 2 ^ 24 + 1)) CONTROL_PORT.

(** The same configuration but for the place where it is controlled. *)
Definition set_control (a : option SocketAddr) (c : ClientConfig) : ClientConfig :=
  mkClientConfig (dialing c) (socks5_listen c) (http_proxy_listen c) (pac_listen c) a (cache_path c) (broker c) (vpn c) (vpn_fd c) (spoof_dns c)
    (passthrough_china c) (dry_run c) (credentials c) (sess_metadata c) (task_limit c).
Definition same_client (a b : option ClientConfig) : Prop := set_control None <$> a = set_control None <$> b.

(** [Daemon]: [running] is the client that [control_client] reaches. *)
Class Daemon (St O : Type) := {
  start : O → ClientConfig → St → St * res string unit;
  stop : O → St → St * res string unit;
  running : St → option ClientConfig
}.
Class DaemonLaws (St O : Type) `{Daemon St O} (good : O → Prop) := {
  start_runs o c st : good o → running st = None → (start o c st).2 = Ok () ∧ same_client (running (start o c st).1) (Some c);
  start_fails o c st e : running st = None → (start o c st).2 = Err e → running (start o c st).1 = None;
  stop_ends o st : good o → is_Some (running st) → (stop o st).2 = Ok () ∧ running (stop o st).1 = None
}.

(** ** Inside the program (inline.rs) *)
Section inline.
(** The mutex with the client; starting drops a client that was there. *)
Definition inline_start (_ : unit) (cfg : ClientConfig) (_ : option Client) : option Client * res string unit := (Some (Client_start cfg), Ok ()).
Definition inline_stop (_ : unit) (_ : option Client) : option Client * res string unit := (None, Ok ()).
Definition inline_control_client (d : option Client) : option ClientConfig := client_ctx <$> d.
#[export] Instance inline_daemon : Daemon (option Client) unit :=
  {| start := inline_start; stop := inline_stop; running := inline_control_client |}.
#[export] Instance inline_laws : DaemonLaws (option Client) unit (λ _, True).
Proof. split; try done. Qed.
End inline.

(** ** In a process (subproc.rs) *)
Section subproc.
(** Texts, and serde_yaml over serde_json. *)
Context {Yaml : Type} (to_yaml : ClientConfig → Yaml) (from_yaml : Yaml → option ClientConfig).

(** The configuration file and the process that holds the control port. *)
Record subproc := mkSubproc { config_yaml : option Yaml; process : option ClientConfig }.
(** What the system does: whether the file could be written, a process was started,
    and an elevated one allowed; whether the port answered. *)
Record sub_outcome := mkSubOutcome { write_ok : bool; spawn_ok : bool; allowed : bool; reached : bool }.

(** A process that finds the control port taken ends at once. *)
Definition launch (ok : bool) (p : subproc) : subproc :=
  match process p, ok with
  | None, true => mkSubproc (config_yaml p) (config_yaml p ≫= from_yaml)
  | _, _ => p
  end.

Definition subproc_start (o : sub_outcome) (cfg : ClientConfig) (p : subproc) : subproc * res string unit :=
  let cfg := set_control (Some control_addr) cfg in
  if write_ok o then
    let p := mkSubproc (Some (to_yaml cfg)) (process p) in
    if vpn cfg then (launch (allowed o) p, Ok ())
    else if spawn_ok o then (launch true p, Ok ()) else (p, Err "could not spawn"%string)
  else (p, Err "could not write"%string).
(** [stop] asks the process to end. *)
Definition subproc_stop (o : sub_outcome) (p : subproc) : subproc * res string unit :=
  match process p with
  | Some _ => if reached o then (mkSubproc (config_yaml p) None, Ok ()) else (p, Err "cannot reach the client"%string)
  | None => (p, Err "cannot reach the client"%string)
  end.
#[export] Instance subproc_daemon : Daemon subproc sub_outcome := {| start := subproc_start; stop := subproc_stop; running := process |}.

Definition sub_good (o : sub_outcome) : Prop := write_ok o = true ∧ spawn_ok o = true ∧ allowed o = true ∧ reached o = true.
Context (Hyaml : ∀ c, from_yaml (to_yaml c) = Some c).
#[local] Instance subproc_laws : DaemonLaws subproc sub_outcome sub_good.
Proof.
  split; cbn.
  - intros o c [y p] (Hw & Hs & Ha & _) Hn. cbn in Hn. subst p. unfold subproc_start, launch. rewrite Hw, Hs, Ha.
    destruct (vpn _); cbn; rewrite Hyaml; done.
  - intros o c [y p] e Hn. cbn in Hn. subst p. unfold subproc_start. destruct (write_ok o); [|done]. destruct (vpn _); [done|]. by destruct (spawn_ok o).
  - intros o [y p] (_ & _ & _ & Hr) [c Hc]. cbn in Hc. subst p. unfold subproc_stop. cbn. by rewrite Hr.
Qed.
End subproc.

(** ** What the windows do with it *)
Section windows.
Context {St O : Type} `{DL : DaemonLaws St O good}.

Inductive click := Connect (cfg : ClientConfig) | Disconnect.
(** The dashboard offers one of the two. *)
Definition offered (st : St) (k : click) : bool :=
  match k, running st with Connect _, None => true | Disconnect, Some _ => true | _, _ => false end.
Definition clicked (o : O) (k : click) (st : St) : St := match k with Connect cfg => (start o cfg st).1 | Disconnect => (stop o st).1 end.
Fixpoint clicks (l : list (O * click)) (st : St) : option St :=
  match l with
  | [] => Some st
  | (o, k) :: l => if offered st k then clicks l (clicked o k st) else None
  end.

(** What a user expects: the last click counts. *)
Definition expected (k : click) : option ClientConfig := match k with Connect cfg => Some cfg | Disconnect => None end.
Definition spec_state (l : list click) : option ClientConfig := from_option expected None (last l).

Lemma clicked_expected o k st : good o → offered st k = true → same_client (running (clicked o k st)) (expected k).
Proof.
  intros Ho. destruct k as [cfg|]; cbn; destruct (running st) as [c|] eqn:E; try done; intros _.
  - by apply start_runs.
  - unfold same_client. by rewrite (proj2 (stop_ends o st Ho ltac:(by rewrite E))).
Qed.
End windows.

(** Whichever daemon runs the client, the one inside the program or a process,
    with a system that does its part: after any clicks that the windows offered, the
    client that answers is the one configured by the last Connect, and there is none
    after a Disconnect. *)
Theorem daemon_follows_clicks {St O : Type} `{DL : DaemonLaws St O good} (l : list (O * click)) st st' :
  running st = None → Forall (λ x, good x.1) l → clicks l st = Some st' → same_client (running st') (spec_state (snd <$> l)).
Proof.
  intros Hn Hg. assert (Hs : same_client (running st) (spec_state [])) by (unfold same_client; by rewrite Hn). clear Hn.
  revert st Hs.
  assert (G : ∀ l st (pre : list click), Forall (λ x, good x.1) l → same_client (running st) (spec_state pre) → clicks l st = Some st' →
            same_client (running st') (spec_state (pre ++ (snd <$> l)))).
  { clear l Hg. induction l as [|[o k] l IH]; intros st pre Hg Hs E; [injection E as <-; by rewrite app_nil_r|].
    apply Forall_cons in Hg as [Ho Hg]. cbn [clicks] in E. destruct (offered st k) eqn:Ef; [|done].
    cbn [fmap list_fmap snd]. change (k :: (snd <$> l)) with ([k] ++ (snd <$> l)). rewrite app_assoc.
    apply (IH (clicked o k st)); [done| |done]. unfold spec_state. rewrite last_snoc. by apply clicked_expected. }
  intros st Hs E. exact (G l st [] Hg Hs E).
Qed.

(** ** Runs *)
Module DaemonDemo.
Definition cfg1 : ClientConfig := set_control None GuiDemo.shipped.
Definition cfg2 : ClientConfig := mkClientConfig (dialing cfg1) None None None None None None true None false false false (credentials cfg1) "" None.
#[export] Instance files : Daemon (@subproc ClientConfig) sub_outcome := subproc_daemon id Some.
#[export] Instance files_laws : DaemonLaws (@subproc ClientConfig) sub_outcome sub_good := subproc_laws id Some (λ c, eq_refl).
Definition fine : sub_outcome := mkSubOutcome true true true true.
Definition refused : sub_outcome := mkSubOutcome true true false true.
Definition day : list (sub_outcome * click) := [(fine, Connect cfg1); (fine, Disconnect); (fine, Connect cfg2)].
(** Refused rights are reported as a client that was started. *)
Example refused_elevation : (start refused cfg2 (mkSubproc None None)).2 = Ok () ∧ running (start refused cfg2 (mkSubproc None None)).1 = None.
Proof. done. Qed.
(** A process that is there already keeps running as it was configured; the program
    itself would change over. *)
Example second_start : same_client (running (start fine cfg2 (mkSubproc (Some cfg1) (Some cfg1))).1) (Some cfg1) ∧
  running (inline_start () cfg2 (Some (Client_start cfg1))).1 = Some cfg2.
Proof. done. Qed.
End DaemonDemo.
Import DaemonDemo.

Lemma daemon_follows_clicks_witness : ∃ st', clicks DaemonDemo.day (mkSubproc None None) = Some st' ∧ same_client (running st') (Some DaemonDemo.cfg2).
Proof.
  destruct (clicks DaemonDemo.day (mkSubproc None None)) as [st'|] eqn:E; [|vm_compute in E; discriminate E].
  exists st'. split; [reflexivity|]. refine (daemon_follows_clicks DaemonDemo.day (mkSubproc None None) st' eq_refl _ E).
  repeat apply Forall_cons_2; try apply Forall_nil_2; repeat split.
Defined.
