(* ===== verification/ProtoTest.v ===== *)
(** * The prototype tester (binaries/geph5-prototest/src/{command,client,server}.rs)

    A server that sends or swallows as many bytes as the metadata of a stream ask
    for, and a client that measures with it.  A stream delivers what is written
    ([MuxSystem]); here is what both ends do with one. *)
From Stdlib Require Import ZArith Lia.
From S2P Require Import Prelude.

Local Open Scope Z_scope.

Inductive Command := Source (n : Z) | Sink (n : Z).

(** ** The server *)

(** The loop of [Command::Source]: the sizes it writes.  Every turn but the last takes
    65536 off. *)
Fixpoint source_loop (fuel : nat) (len : Z) : option (list Z) :=
  if 0 <? len then
    match fuel with
    | O => None
    | S fuel => let n := Z.min len 65536 in cons n <$> source_loop fuel (Z.max 0 (len - n))
    end
  else Some [].
Definition source_fuel (len : Z) : nat := Z.to_nat (len / 65536 + 1).

(** What a stream of the server writes, if no write fails, and how many of the
    bytes of its peer it takes; [None]: metadata that are no command. *)
Definition once_stream (read_command : list byte → option Command) (metadata : list byte) (peer_sent : Z) : option (list Z * Z) :=
  match read_command metadata with
  | Some (Source len) => l ← source_loop (source_fuel len) len; Some (l, 0)
  | Some (Sink sink) => Some ([], Z.min sink peer_sent)
  | None => None
  end.

Definition total (l : list Z) : Z := foldr Z.add 0 l.

Lemma source_loop_spec fuel : ∀ len, 0 <= len < 65536 * Z.of_nat fuel ∨ len = 0 →
  ∃ l, source_loop fuel len = Some l ∧ total l = len ∧ Forall (λ n, 1 <= n <= 65536) l.
Proof.
  induction fuel as [|fuel IH]; intros len Hl; cbn [source_loop]; destruct (Z.ltb_spec 0 len); try (exfalso; lia);
    try (exists []; split_and!; [done|cbn; lia|constructor]).
  destruct (IH (Z.max 0 (len - Z.min len 65536))) as (l & E & Ht & Hf); [lia|]. rewrite E. eexists. split; [reflexivity|]. unfold total in *. cbn [foldr]. split; [lia|].
  constructor; [lia|done].
Qed.

(** ** The client *)

(** [futures_util::io::copy] of at most [limit] bytes: how many it copied, how many are left. *)
Definition copy_some (limit left_ : Z) : Z * Z := let n := Z.min limit left_ in (n, left_ - n).

(** The loop of [download_chunk]: what each copy counted, until one counts nothing. *)
Fixpoint download_loop (fuel : nat) (left_ : Z) : option (list Z) :=
  let '(n, left_) := copy_some 10000000 left_ in
  if n =? 0 then Some []
  else match fuel with O => None | S fuel => cons n <$> download_loop fuel left_ end.
Definition CHUNK_SIZE : Z := 1024 * 1024 * 1000.
Definition download_chunk (delivered : Z) : option (list Z) := download_loop (Z.to_nat (delivered / 10000000 + 1)) delivered.
(** [ping_once]: a stream of one byte, read to its end. *)
Definition ping_once (delivered : Z) : Z := delivered.

Lemma download_loop_spec fuel : ∀ n, 0 <= n < 10000000 * Z.of_nat fuel ∨ n = 0 →
  ∃ l, download_loop fuel n = Some l ∧ total l = n ∧ Forall (λ k, 1 <= k <= 10000000) l.
Proof.
  induction fuel as [|fuel IH]; intros n Hn; cbn [download_loop copy_some]; destruct (Z.eqb_spec (Z.min 10000000 n) 0); try (exfalso; lia);
    try (exists []; split_and!; [done|cbn; lia|constructor]).
  destruct (IH (n - Z.min 10000000 n)) as (l & E & Ht & Hf); [lia|]. rewrite E. eexists. split; [reflexivity|]. unfold total in *. cbn [foldr]. split; [lia|].
  constructor; [lia|done].
Qed.

(** A download asks for a number of bytes and gets that number: the server's loop
    ends after writing exactly as many, in pieces of at most 65536, and the client's
    loop ends after counting exactly as many. *)
Theorem download_complete read_command metadata len : read_command metadata = Some (Source len) → 0 <= len →
  ∃ l counted, once_stream read_command metadata 0 = Some (l, 0) ∧ total l = len ∧ Forall (λ n, 1 <= n <= 65536) l ∧
    download_chunk (total l) = Some counted ∧ total counted = len.
Proof.
  intros Hr Hl. unfold once_stream. rewrite Hr.
  destruct (source_loop_spec (source_fuel len) len) as (l & -> & Ht & Hf).
  { left. unfold source_fuel. pose proof (Z.div_pos len 65536). rewrite Z2Nat.id by lia. pose proof (Z.mul_succ_div_gt len 65536). lia. }
  destruct (download_loop_spec (Z.to_nat (len / 10000000 + 1)) len) as (c & Ec & Hc & _).
  { left. pose proof (Z.div_pos len 10000000). rewrite Z2Nat.id by lia. pose proof (Z.mul_succ_div_gt len 10000000). lia. }
  exists l, c. unfold download_chunk. rewrite Ht. by split_and!.
Qed.

Lemma download_complete_witness : ∃ l counted, once_stream (λ _, Some (Source 150000)) [] 0 = Some (l, 0) ∧ l = [65536; 65536; 18928] ∧
  download_chunk (total l) = Some counted ∧ total counted = 150000.
Proof.
  destruct (download_complete (λ _, Some (Source 150000)) [] 150000 eq_refl ltac:(lia)) as (l & c & E & _ & _ & Ec & Et).
  exists l, c. split; [exact E|]. split; [vm_compute in E; injection E as <-; reflexivity|]. split; [exact Ec|exact Et].
Defined.

(** The last piece of a download is shorter than the ten megabytes that its printed
    speed supposes. *)
Example last_piece : (l ← download_chunk CHUNK_SIZE; last l) = Some 8576000.
Proof. vm_compute. reflexivity. Qed.
