(* ===== verification/Boot.v ===== *)
(** * Configuration and processes of the servers
    (binaries/geph5-exit/src/{main,broker}.rs, binaries/geph5-bridge/src/main.rs,
    binaries/geph5-broker/src/main.rs)

    What a configuration file says when it leaves things out, how a server finds its
    own address, and the processes a bridge makes of itself. *)
From Stdlib Require Import ZArith Lia.
From S2P Require Import Prelude Protocol ExitNet Statistics.

Local Open Scope Z_scope.
Local Open Scope string_scope.

(** ** Configuration files *)

(** A file of an exit as serde sees it; [None] is a key that is missing.  Keys without
    a default must be there. *)
Record ExitConfigFile := mkExitFile {
  x_signing_secret : option string; x_broker : option (string * string); x_c2e_listen : option SocketAddr; x_b2e_listen : option SocketAddr;
  x_ip_addr : option IpAddr; x_country : option string; x_city : option string; x_country_blacklist : option (list string);
  x_free_ratelimit : option Z; x_plus_ratelimit : option Z; x_total_ratelimit : option Z; x_free_port_whitelist : option (list Z);
  x_task_limit : option Z; x_ipv6_subnet : option (Z * Z)
}.
Record ExitConfig := mkExitConfig {
  signing_secret : string; exit_broker : option (string * string); c2e_listen : SocketAddr; b2e_listen : SocketAddr; ip_addr : option IpAddr;
  exit_country : string; exit_city : string; country_blacklist : list string;
  free_ratelimit : Z; plus_ratelimit : Z; total_ratelimit : Z; free_port_whitelist : list Z; exit_task_limit : Z;
  ipv6_subnet : Z * Z   (* address and length of the prefix *)
}.

Definition default_free_ratelimit : Z := 300.
Definition default_plus_ratelimit : Z := 30000.
Definition default_total_ratelimit : Z := 125000.
Definition default_task_limit : Z := 1000000.
Definition default_free_port_whitelist : list Z := [80; 443; 8080; 8443; 22; 53].
Definition default_country_blacklist : list string := [].

Definition read_exit_config (f : ExitConfigFile) : option ExitConfig :=
  secret ← x_signing_secret f; c2e ← x_c2e_listen f; b2e ← x_b2e_listen f; country ← x_country f; city ← x_city f;
  Some (mkExitConfig secret (x_broker f) c2e b2e (x_ip_addr f) country city (default default_country_blacklist (x_country_blacklist f))
    (default default_free_ratelimit (x_free_ratelimit f)) (default default_plus_ratelimit (x_plus_ratelimit f))
    (default default_total_ratelimit (x_total_ratelimit f)) (default default_free_port_whitelist (x_free_port_whitelist f))
    (default default_task_limit (x_task_limit f)) (default (0, 0) (x_ipv6_subnet f))).

(** An exit whose file leaves the limits out serves free users public
    addresses on six ports, at a hundredth of the rate of others, which is
    within the rate of the whole exit. *)
Lemma default_limits f c : read_exit_config f = Some c →
  x_free_ratelimit f = None → x_plus_ratelimit f = None → x_total_ratelimit f = None → x_free_port_whitelist f = None →
  0 < free_ratelimit c ∧ 100 * free_ratelimit c = plus_ratelimit c ∧ plus_ratelimit c <= total_ratelimit c ∧
  ∀ addr, proxy_allowed (free_port_whitelist c) addr true = true ↔
    port addr ∈ [80; 443; 8080; 8443; 22; 53] ∧ is_globally_routable (ip addr) = true.
Proof.
  intros E H1 H2 H3 H4. unfold read_exit_config in E.
  repeat match type of E with (mbind _ ?o) = Some _ => destruct o; [cbn [mbind option_bind] in E|discriminate E] end.
  injection E as <-. cbn. rewrite H1, H2, H3, H4. cbn. split_and!; [done..|]. intros addr. unfold proxy_allowed. cbn [andb].
  case_bool_decide as Hp; cbn; [|naive_solver]. naive_solver.
Qed.

Record BrokerConfigFile := mkBrokerFile {
  bf_puzzle_difficulty : option Z; bf_payment_url : option string; bf_payment_support_secret : option string; bf_influxdb : option InfluxDbEndpoint
}.
Definition default_puzzle_difficulty : Z := 24.
Definition default_payment_service : string := "https://web-backend.geph.io/rpc".
(** The keys of the broker's file that have defaults. *)
Definition read_broker_defaults (f : BrokerConfigFile) : Z * string * string * option InfluxDbEndpoint :=
  (default default_puzzle_difficulty (bf_puzzle_difficulty f), default default_payment_service (bf_payment_url f),
   default "" (bf_payment_support_secret f), bf_influxdb f).

(** ** The own address *)

(** [broker_loop] of an exit: configured, or what a web service answers, trimmed. *)
Definition exit_own_ip (configured : option IpAddr) (answer : option string) (trim : string → string) (parse : string → option IpAddr) : option IpAddr :=
  match configured with Some a => Some a | None => s ← answer; parse (trim s) end.
(** A bridge always asks, and ends when it gets no address. *)
Definition bridge_own_ip (answer : option string) (trim : string → string) (parse : string → option IpAddr) : res string IpAddr :=
  s ← unwrap answer; unwrap (parse (trim s)).

(** ** The processes of a bridge *)

(** What [main] does: start copies of itself and wait, or serve; serving it may be
    confined to one thread. *)
Inductive bridge_role := Waits (children : nat) | Serves (single_threaded : bool).
Definition bridge_main (yaofan child : bool) (parallelism : nat) : bridge_role :=
  if yaofan then if child then Serves true else Waits parallelism else Serves false.

(** The copies inherit the environment, with the mark set before they are started: how
    many processes wait, and for each that serves whether it has one thread. *)
Fixpoint process_tree (fuel : nat) (yaofan child : bool) (parallelism : nat) : option (nat * list bool) :=
  match bridge_main yaofan child parallelism with
  | Serves b => Some (0%nat, [b])
  | Waits n =>
      match fuel with
      | O => None
      | S fuel =>
          let copies := replicate n (process_tree fuel yaofan true parallelism) in
          foldr (λ c acc, c ← c; acc ← acc; Some ((c.1 + acc.1)%nat, (c.2 ++ acc.2)%list)) (Some (1%nat, [])) copies
      end
  end.

(** A bridge makes one process for each core and no more, and those make none. *)
Lemma process_tree_spec yaofan parallelism fuel : (1 <= fuel)%nat →
  process_tree fuel yaofan false parallelism = Some (if yaofan then (1%nat, replicate parallelism true) else (0%nat, [false])).
Proof.
  intros Hf. destruct fuel as [|fuel]; [lia|]. destruct yaofan; [|done]. cbn [process_tree bridge_main].
  assert (E : process_tree fuel true true parallelism = Some (0%nat, [true])) by (by destruct fuel). rewrite E. clear E Hf.
  induction parallelism as [|n IH]; [done|]. cbn [replicate foldr]. rewrite IH. done.
Qed.

(** [listen_loop] of a bridge: a listener that ends is opened again after a second;
    a port that cannot be bound ends the process. *)
Fixpoint bridge_listen_loop (turns : list (bool * option string)) : nat * bool :=
  match turns with
  | [] => (0%nat, true)
  | (bound, _) :: turns => if bound : bool then let '(n, alive) := bridge_listen_loop turns in (S n, alive) else (0%nat, false)
  end.
Lemma bridge_listens_on turns : Forall (λ t, t.1 = true) turns ↔ (bridge_listen_loop turns) = (length turns, true).
Proof.
  induction turns as [|[b e] turns IH]; [done|]. rewrite Forall_cons, IH. cbn [fst bridge_listen_loop length].
  destruct b; [|naive_solver]. destruct (bridge_listen_loop turns) as [n alive]. naive_solver.
Qed.
