(* ===== verification/DynSillad.v ===== *)
(** * Erased dialers and listeners
    (libraries/sillad/src/{dialer,listener,tcp}.rs, libraries/sillad-native-tls/src/lib.rs)

    Dialers and listeners whose type is hidden, so that they can be shared and chosen
    while the program runs; the dialers that wait a time computed anew for every
    attempt, open a TCP connection or put TLS on one. *)
From Stdlib Require Import ZArith Lia.
From S2P Require Import Prelude Crypto Protocol Dialer Pipes.

Local Open Scope Z_scope.

(** ** Dialers *)
Section dialers.
Context {A B : Type}.

(** [DynDialer]: the pipe is put behind a box. *)
Definition DynDialer_new (box : A → B) (inner : dialer A) : dialer B := λ t,
  match inner t with Done t' (inl a) => Done t' (inl (box a)) | Done t' (inr e) => Done t' (inr e) | Never => Never end.
(** [DynDelayDialer::dial]: the delay is asked for when the dialing starts. *)
Definition dyn_delay (delay : Z → Z) (d : dialer A) : dialer A := λ t, d (t + delay t).
(** [TcpDialer::dial]: options that cannot be set are only logged. *)
Definition TcpDialer_dial (connect : SocketAddr → dialer A) (set_tcp_options : A → A + io_error) (dest_addr : SocketAddr) : dialer A := λ t,
  match connect dest_addr t with
  | Done t' (inl inner) => Done t' (inl (match set_tcp_options inner with inl inner => inner | inr _ => inner end))
  | o => o
  end.
End dialers.

(** Erasing a type changes no outcome; with a constant delay the two delays agree. *)
Lemma DynDialer_same {A B} (box : A → B) (d : dialer A) t : DynDialer_new box d t = wrap (λ a t, Done t (inl (box a))) d t.
Proof. reflexivity. Qed.
Lemma dyn_delay_const {A} ms (d : dialer A) t : dyn_delay (λ _, ms) d t = delay ms d t.
Proof. reflexivity. Qed.
(** Racing erased dialers is erasing the race. *)
Lemma race_erased {A B} (box : A → B) (d1 d2 : dialer A) t : race (DynDialer_new box d1) (DynDialer_new box d2) t = DynDialer_new box (race d1 d2) t.
Proof.
  unfold race, DynDialer_new. destruct (d1 t) as [t1 [a1|e1]|], (d2 t) as [t2 [a2|e2]|]; try done; by destruct (t1 <=? t2).
Qed.

(** ** TLS *)
Section tls.
Context {A : Type}.
(** [TlsDialer::dial]: the handshake is native-tls's; its errors lose their kind, the
    address of the peer is that of the pipe below. *)
Definition TlsDialer_dial (connect : string → A * pipe_info → Z → outcome A) (domain : string) (inner : dialer (A * pipe_info)) : dialer (A * pipe_info) := λ t,
  match inner t with
  | Done t' (inl (stream, info)) =>
      match connect domain (stream, info) t' with
      | Done t'' (inl s) => Done t'' (inl (s, TlsPipe info))
      | Done t'' (inr err) => Done t'' (inr (IoError Other (msg err)))
      | Never => Never
      end
  | Done t' (inr e) => Done t' (inr e)
  | Never => Never
  end.
Lemma tls_dial_address connect domain inner t t' s info : TlsDialer_dial connect domain inner t = Done t' (inl (s, info)) →
  ∃ t0 raw below, inner t = Done t0 (inl (raw, below)) ∧ connect domain (raw, below) t0 = Done t' (inl s) ∧ pi_remote info = pi_remote below.
Proof.
  unfold TlsDialer_dial. destruct (inner t) as [t0 [[raw below]|e]|] eqn:Ei; try done.
  destruct (connect domain (raw, below) t0) as [t1 [s'|e]|] eqn:Ec; try done. intros [= -> -> <-]. by exists t0, raw, below.
Qed.
End tls.

(** ** A listener behind a mutex *)
Section listener.
Context {C : Type}.
(** Tasks that share a [DynListener]: the one that holds the lock, what the listener
    will still give, and what was given to whom. *)
Record dyn_listener := mkDynListener { l_holder : option nat; l_coming : list (res io_error C); l_given : list (nat * res io_error C) }.
Inductive listener_event := TakesLock (task : nat) | Accepts | Dropped (task : nat).
Definition dyn_listener_step (l : dyn_listener) (ev : listener_event) : option dyn_listener :=
  match ev, l_holder l with
  | TakesLock t, None => Some (mkDynListener (Some t) (l_coming l) (l_given l))
  | Accepts, Some t =>
      match l_coming l with
      | r :: coming => Some (mkDynListener None coming (l_given l ++ [(t, r)]))
      | [] => None
      end
  | Dropped t, Some t' => if decide (t = t') then Some (mkDynListener None (l_coming l) (l_given l)) else None
  | _, _ => None
  end.
Definition dyn_listener_run (l : dyn_listener) (evs : list listener_event) : option dyn_listener :=
  foldl (λ l ev, l ≫= λ l, dyn_listener_step l ev) (Some l) evs.

(** However the tasks that share a listener take turns and give up, every connection
    goes to one of them, in the order in which they came, and none is lost. *)
Lemma dyn_listener_fair evs : ∀ l l', dyn_listener_run l evs = Some l' → (snd <$> l_given l') ++ l_coming l' = (snd <$> l_given l) ++ l_coming l.
Proof.
  induction evs as [|ev evs IH] using rev_ind; intros l l' E; [by injection E as <-|].
  unfold dyn_listener_run in E. rewrite foldl_snoc in E. apply bind_Some in E as (v & E & Es). rewrite <- (IH l v E).
  unfold dyn_listener_step in Es. destruct ev as [t| |t], (l_holder v) as [t'|]; try done.
  - by injection Es as <-.
  - destruct (l_coming v) as [|r coming]; [done|]. injection Es as <-. cbn. by rewrite fmap_app, <- app_assoc.
  - destruct (decide _); [|done]. by injection Es as <-.
Qed.
End listener.
